(* ===== verification/_CoqProject ===== *)
-Q . S2P
Prelude.v
Task.v
Text.v
Resources.v
PriorityQueue.v
QueueSpec.v
QueueApi.v
Aging.v
QueueTheorems.v
Pthread.v
Pool.v
PoolSteps.v
PoolInv.v
PoolSafety.v
PoolAging.v
PoolTheorems.v
PoolWakeups.v
PthreadRuns.v
PoolShutdown.v
PoolProgress.v
Worker.v
PoolTraces.v
MonitorUi.v
Monitor.v
PoolInit.v
Baseline.v
BaselineProofs.v
BaselineSteps.v
BaselineShutdown.v
BaselineInit.v
FilterLock.v
BakeryLock.v
Mandelbrot.v
HttpText.v
CpuCore.v
HttpLog.v
HttpNet.v
HttpServer.v
HttpConnections.v
HttpResponses.v
HttpMain.v
HttpConsole.v
HttpConsoleMoves.v
HttpConsoleInv.v
HttpConsoleTheorems.v
