(* ===== verification/Prelude.v ===== *)
(** * A thread pool with priorities, its monitor and its demo server

    ** The program

    The library under src/src and src/include is a pthread pool: clients create tasks
    and submit them ([task.c], [thread_pool.c]); a three-lane priority queue
    ([priority_queue.c]) holds them as linked nodes under one mutex; workers pop the
    highest priority first and sleep on a condition variable when there is nothing to do; an aging
    thread promotes tasks that have waited too long; wait, pause, resume and destroy
    coordinate through counters, flags and two more condition variables; a monitor thread
    ([monitor.c]) draws gauges read from the pool.  [baseline/baseline.c] is a FIFO
    pool used for comparison.  [proof/] holds two lock experiments, the filter lock
    and the bakery lock.  [demo/http_server.c] is a server whose connections are tasks
    of the pool: it renders pictures ([demo/mandelbrot.c]), keeps a log, and pushes its
    gauges to subscribers of an event stream.

    ** The files

    - Prelude.v: C integers at their widths, the state-and-fault monad [M] ([Ok],
      [Blocks], [Fault]), checked arrays, counting lemmas, hints and tactics.
    - Task.v (task.c), PriorityQueue.v and Aging.v (priority_queue.c): every function on
      the heap of linked nodes.  QueueSpec.v: the abstract queue, three FIFO lists, and the
      representation relation [pq_repr]; QueueApi.v: each function refines its abstract
      operation; QueueTheorems.v: what callers rely on.
    - Pthread.v: an interleaving machine for pthread programs.  Pool.v: every function
      of thread_pool.c, the workers and the aging thread as a table of its control
      points, one per atomic access, library call or critical section; queue operations
      are those of PriorityQueue.v.  PoolSteps.v lists the moves, PoolInv.v and PoolSafety.v
      prove the invariant of all reachable states, PoolAging.v the life of the aging
      thread, PoolWakeups.v that no wakeup is lost; PthreadRuns.v says for any program of
      the machine what a run without spurious wakeups is, PoolShutdown.v gives the
      measure that decreases while thread_pool_destroy is under way and PoolProgress.v shows
      where a run can end; PoolTheorems.v states the results
      and PoolTraces.v runs schedules (witnesses and the schedules behind the findings).
      PoolInit.v: thread_pool_init with all error labels, over Resources.v, the
      interface ([Holder], [HolderLaws]) of acquiring, releasing, telling workers to
      stop, waking and joining them.  Worker.v: worker.c and the gauges, each of their
      loads in a state of its own ([view]).
    - Text.v: printf conversions.  MonitorUi.v: the screen draw_ui writes.  Monitor.v: start,
      stop, detach, reattach and the monitor thread.
    - Baseline.v, BaselineProofs.v, BaselineInit.v: baseline.c on the same machine;
      BaselineSteps.v lists its moves and BaselineShutdown.v shows that
      baseline_pool_shutdown comes to an end, as PoolShutdown.v and PoolProgress.v do.
    - FilterLock.v, BakeryLock.v: the two locks, each shared read and write a step, for
      any number of threads (N_THREAD in the source).
    - Mandelbrot.v: mandelbrot.c byte by byte, with IEEE binary64 arithmetic of the Standard Library.
    - HttpText.v (query_int, parse_args and the C string functions they call), HttpLog.v (the
      log ring), HttpNet.v (write_all, the subscribers), HttpServer.v (the threads of the
      server as programs of atomic actions), HttpConnections.v (all threads interleaved),
      HttpResponses.v (what one client receives), HttpMain.v (main before and behind
      its accept loop).  CpuCore.v: cpu_core.h.
    - HttpConsole.v: the terminal of the server, shared by main, the logging workers, the
      signal, the key listener and the monitor threads, whose functions run there as
      Monitor.v defines them; HttpConsoleMoves.v lists its moves, HttpConsoleInv.v carries the
      invariant of Monitor.v over, HttpConsoleTheorems.v states who has the terminal.

    ** What the theorems show

    - Queue: any sequence of API calls returns what three FIFO lists return
      (queue_refinement); order of service, capacity, aging, expiry arithmetic with its
      overflow bound.
    - Pool, in every interleaving of clients that keep the API contract: tasks run exactly
      once, nothing undefined (null, freed, out of range, overflow, a mutex or condition
      variable of a freed pool, a mutex locked twice or unlocked by another thread), no leak, exact
      counters, mutual exclusion, no lost wakeup; wait returns only when the counter was zero; destroy frees
      everything and has run everything, and it does return when no submit is in flight
      (pool_destroy_terminates: the relation of steps is well founded from there, and what
      cannot step any more has returned).  thread_pool_init undoes every partial construction.
      The gauges are the sums of what their loads saw, and exact for a pool that does
      not move meanwhile.
    - Monitor: at most one thread draws, when the calls do not overlap; a frame fits a
      window of 52 columns and 10 rows.  In the server, a worker that prints its line and the key
      listener have found the dashboard detached and it stays so;
      console_prints_over_dashboard exhibits what is left: the last frame before endwin,
      and the diagnostics that do not look.  main restores the terminal when nobody uses it
      any more.
    - Baseline: exactly once and FIFO order; shutdown returns, with everything run and freed,
      when no client is inside the pool and none calls it any more.  Locks: mutual
      exclusion, counting, first come first served for the bakery.
    - Demo server: however the threads and the accesses of the signal handler interleave, no
      thread closes, reads or writes a descriptor that is not open and nothing leaks;
      only accept and poll look up a listener that may be closed, and answer an error then;
      a client receives exactly the answer of its
      request, for /render the bitmap of the reference definition; the log ring is a list
      of the last 256 lines; a broadcast keeps exactly the subscribers whose write succeeded; main cleans up
      after every error of its start.
    - Where the code does not do what it means to, a closed theorem exhibits the schedule
      (a waiter that misses a rejected submit, a destroy that hangs, a submit on a freed
      pool, listeners that are closed twice, a monitor thread joined twice, and others).

    ** Bounds and fuel

    Loops over a linked lane run with the number of allocated nodes as fuel, which the
    representation relation shows to be enough; query_int uses the length of the query, the
    escape loop of a pixel max_iter rounds, write_all one answer of the system per
    round.  The theorems state that the result is reached, so fuel does not run out.
    The listener and broadcaster loops of the server take the list of what happens in their
    rounds; it has any length.  Theorems about the pool hold for any number of workers and clients
    and any capacity within the machine widths they name.  Termination of destroy and of the
    baseline's shutdown needs no fuel: it is well-foundedness of the step relation, for
    runs in which a thread wakes up only when it is signalled or its time is over.

    ** Modelling decisions

    Atomics are sequentially consistent; data under a mutex changes in one step per critical
    section where its accesses are to that data only.  malloc, calloc, pthread_create,
    sockets and clocks answer what the environment decides.  In the demo server write_all is one
    action, since its descriptor belongs to one thread; the pool appears there by its
    decisions to take a task and by its gauges, and its own theorems say that a task it took
    runs exactly once.  The handler of SIGINT runs once, one access at a time between the
    actions of any thread.  In the pool's machine the monitor is its call of monitor_stop
    within destroy; in Monitor.v pausing is the store of the flag, and one thread makes
    the calls.  A join in the init functions returns once its worker was told to stop and is
    awake; which workers sleep is up to the environment.  In the console thread_pool_destroy is its call of monitor_stop, at any
    time after the monitor was detached, and log_request its part under log_mtx.

    ** Not modelled

    The calls of ncurses that set up colours and the terminal, and what they do to its mode;
    signal installation; weak memory orders; the tests and benchmarks, which are
    clients without logic of their own; the contents of printf in the lock experiments. *)
From stdpp Require Export base numbers list gmap relations sorting.
From Stdlib Require Export ZArith Lia.

(** ** Machine integers

    C integers are integers of [Z] kept in the range of their type.  Unsigned
    arithmetic wraps; signed arithmetic that leaves its range is a fault. *)
Module CInt.
Local Open Scope Z_scope.

Definition u8 (z : Z) : Z := z mod 2 ^ 8.
Definition u16 (z : Z) : Z := z mod 2 ^ 16.
Definition u32 (z : Z) : Z := z mod 2 ^ 32.
Definition u64 (z : Z) : Z := z mod 2 ^ 64.

(** Conversion to a signed type (two's complement, as gcc documents it). *)
Definition i16 (z : Z) : Z := (z + 2 ^ 15) mod 2 ^ 16 - 2 ^ 15.
Definition i32 (z : Z) : Z := (z + 2 ^ 31) mod 2 ^ 32 - 2 ^ 31.
Definition i64 (z : Z) : Z := (z + 2 ^ 63) mod 2 ^ 64 - 2 ^ 63.

Definition is_i32 (z : Z) : bool := (- 2 ^ 31 <=? z) && (z <? 2 ^ 31).
Definition is_i64 (z : Z) : bool := (- 2 ^ 63 <=? z) && (z <? 2 ^ 63).
End CInt.
Export CInt.

(** ** Faults and the state-and-fault monad *)

(** What a C program must not do; a definition that reaches one of these says
    so in its result instead of choosing a value. *)
Inductive fault :=
| NullDeref | UseAfterFree | OutOfBounds | SignedOverflow | AssertFailed
| SelfDeadlock | BadUnlock | BadFd | OutOfFuel.

(** [Blocks]: the call does not return because the thread sleeps in
    [pthread_cond_wait] and nothing wakes it. *)
Inductive res (A : Type) :=
| Ok (a : A)
| Blocks
| Fault (f : fault).
Arguments Ok {A} a.
Arguments Blocks {A}.
Arguments Fault {A} f.

#[export] Instance fault_eq_dec : EqDecision fault.
Proof. solve_decision. Defined.
#[export] Instance res_eq_dec `{EqDecision A} : EqDecision (res A).
Proof. solve_decision. Defined.

#[export] Instance res_ret : MRet res := λ A a, Ok a.
#[export] Instance res_bind : MBind res := λ A B k m,
  match m with Ok a => k a | Blocks => Blocks | Fault f => Fault f end.
#[export] Instance res_fmap : FMap res := λ A B g m,
  match m with Ok a => Ok (g a) | Blocks => Blocks | Fault f => Fault f end.

(** A C function over a store [S]. *)
Definition M (S A : Type) : Type := S → res (A * S).
#[export] Instance M_ret {S} : MRet (M S) := λ A a s, Ok (a, s).
#[export] Instance M_bind {S} : MBind (M S) := λ A B k m s,
  match m s with
  | Ok (a, s') => k a s'
  | Blocks => Blocks
  | Fault f => Fault f
  end.

Definition get {S} : M S S := λ s, Ok (s, s).
Definition put {S} (s : S) : M S unit := λ _, Ok (tt, s).
Definition modify {S} (g : S → S) : M S unit := λ s, Ok (tt, g s).
Definition fail {S A} (f : fault) : M S A := λ _, Fault f.
Definition lift {S A} (r : res A) : M S A := λ s, a ← r; Ok (a, s).
Definition blocks {S A} : M S A := λ _, Blocks.

(** Checked signed arithmetic: [long] and [int] results. *)
Definition chk_i64 (z : Z) : res Z :=
  if is_i64 z then Ok z else Fault SignedOverflow.
Definition chk_i32 (z : Z) : res Z :=
  if is_i32 z then Ok z else Fault SignedOverflow.

(** Array access with the bounds C leaves to the programmer. *)
Definition arr_get {A} (a : list A) (i : Z) : res A :=
  if (i <? 0)%Z then Fault OutOfBounds
  else match a !! Z.to_nat i with
       | Some x => Ok x
       | None => Fault OutOfBounds
       end.

Definition arr_set {A} (a : list A) (i : Z) (x : A) : res (list A) :=
  if (i <? 0)%Z || (Z.of_nat (length a) <=? i)%Z then Fault OutOfBounds
  else Ok (<[Z.to_nat i := x]> a).

(** ** Tactics *)

(** Unfolds the monads and simplifies. *)
Ltac munfold :=
  unfold mbind, mret, fmap, M_bind, M_ret, res_bind, res_ret, res_fmap, get, put, modify, lift,
    fail, blocks in *; cbn in *.

(** ** Lemmas shared by the components *)

Section Ints.
Local Open Scope Z_scope.

Lemma u32_small z : 0 ≤ z < 2 ^ 32 → u32 z = z.
Proof. apply Z.mod_small. Qed.
Lemma u64_small z : 0 ≤ z < 2 ^ 64 → u64 z = z.
Proof. apply Z.mod_small. Qed.
Lemma i32_small z : - 2 ^ 31 ≤ z < 2 ^ 31 → i32 z = z.
Proof. intros. unfold i32. rewrite Z.mod_small; lia. Qed.
Lemma i64_small z : - 2 ^ 63 ≤ z < 2 ^ 63 → i64 z = z.
Proof. intros. unfold i64. rewrite Z.mod_small; lia. Qed.

Lemma u64_add_l a b : u64 (u64 a + b) = u64 (a + b).
Proof. unfold u64. by rewrite Zplus_mod_idemp_l. Qed.
Lemma u64_sub_l a b : u64 (u64 a - b) = u64 (a - b).
Proof. unfold u64. by rewrite Zminus_mod_idemp_l. Qed.
Lemma u32_add_l a b : u32 (u32 a + b) = u32 (a + b).
Proof. unfold u32. by rewrite Zplus_mod_idemp_l. Qed.
Lemma i32_add_l a b : i32 (i32 a + b) = i32 (a + b).
Proof.
  unfold i32. f_equal.
  replace ((a + 2 ^ 31) mod 2 ^ 32 - 2 ^ 31 + b + 2 ^ 31)
    with ((a + 2 ^ 31) mod 2 ^ 32 + b) by lia.
  rewrite Zplus_mod_idemp_l. f_equal. lia.
Qed.

Lemma chk_i64_ok z : - 2 ^ 63 ≤ z < 2 ^ 63 → chk_i64 z = Ok z.
Proof. intros. unfold chk_i64, is_i64. by replace (_ && _) with true by lia. Qed.
Lemma chk_i32_ok z : - 2 ^ 31 ≤ z < 2 ^ 31 → chk_i32 z = Ok z.
Proof. intros. unfold chk_i32, is_i32. by replace (_ && _) with true by lia. Qed.

(** Bit [n] of a 32-bit value with one bit added or removed. *)
Lemma u32_bits z n : 0 ≤ n → Z.testbit (u32 z) n = (n <? 32) && Z.testbit z n.
Proof.
  intros Hn. unfold u32. destruct (Z.ltb_spec n 32); simpl.
  - by apply Z.mod_pow2_bits_low.
  - apply Z.mod_pow2_bits_high. lia.
Qed.
Lemma u64_bits z n : 0 ≤ n → Z.testbit (u64 z) n = (n <? 64) && Z.testbit z n.
Proof.
  intros Hn. unfold u64. destruct (Z.ltb_spec n 64); simpl.
  - by apply Z.mod_pow2_bits_low.
  - apply Z.mod_pow2_bits_high. lia.
Qed.
Lemma shiftl_1_bits p n : 0 ≤ p → 0 ≤ n → Z.testbit (Z.shiftl 1 p) n = (n =? p).
Proof.
  intros. rewrite Z.shiftl_1_l. destruct (Z.eqb_spec n p) as [->|].
  - by apply Z.pow2_bits_true.
  - by apply Z.pow2_bits_false.
Qed.

(** The highest set bit is determined by the bits at and above it. *)
Lemma log2_of_bits m p :
  0 ≤ p → 0 ≤ m → Z.testbit m p = true → (∀ n, p < n → Z.testbit m n = false) →
  Z.log2 m = p.
Proof.
  intros Hp Hm Ht Hf.
  assert (0 < m) as Hm'.
  { destruct (decide (m = 0)) as [->|]; [by rewrite Z.bits_0 in Ht | lia]. }
  pose proof (Z.bit_log2 m Hm') as Hl.
  destruct (Z.lt_trichotomy (Z.log2 m) p) as [H|[H|H]]; [|done|].
  - rewrite Z.bits_above_log2 in Ht by lia. done.
  - by rewrite Hf in Hl.
Qed.
End Ints.

Section Arrays.
Context {A : Type}.
Implicit Types (a : list A) (x : A).

Lemma arr_get_ok a (p : nat) x : a !! p = Some x → arr_get a (Z.of_nat p) = Ok x.
Proof.
  intros H. unfold arr_get. destruct (Z.ltb_spec (Z.of_nat p) 0); [lia|].
  by rewrite Nat2Z.id, H.
Qed.

Lemma arr_set_ok a (p : nat) x :
  p < length a → arr_set a (Z.of_nat p) x = Ok (<[p := x]> a).
Proof.
  intros H. unfold arr_set. destruct (Z.ltb_spec (Z.of_nat p) 0); [lia|].
  destruct (Z.leb_spec (Z.of_nat (length a)) (Z.of_nat p)); [lia|].
  simpl. by rewrite Nat2Z.id.
Qed.

Lemma arr_get_oob a (i : Z) : ¬ (0 ≤ i < Z.of_nat (length a))%Z → arr_get a i = Fault OutOfBounds.
Proof.
  intros H. unfold arr_get. destruct (Z.ltb_spec i 0); [done|].
  rewrite lookup_ge_None_2; [done | lia].
Qed.
End Arrays.

Module Counting.
Local Open Scope Z_scope.

(** The sum of [f] over the threads. *)
Definition tally {A} (f : A → Z) (ps : list A) : Z := foldr (λ p z, f p + z) 0 ps.

Lemma tally_app {A} (f : A → Z) ps qs : tally f (ps ++ qs) = tally f ps + tally f qs.
Proof. induction ps as [|p ps IH]; simpl; [done|]. rewrite IH. lia. Qed.

Lemma tally_insert {A} (f : A → Z) ps i p p' :
  ps !! i = Some p → tally f (<[i := p']> ps) = tally f ps - f p + f p'.
Proof.
  revert i. induction ps as [|q ps IH]; intros [|i]; simpl; try done.
  - intros [= ->]. lia.
  - intros H. rewrite (IH i H). lia.
Qed.

Lemma tally_nonneg {A} (f : A → Z) ps : (∀ p, 0 ≤ f p) → 0 ≤ tally f ps.
Proof. intros Hf. induction ps as [|p ps IH]; simpl; [lia|]. pose proof (Hf p). lia. Qed.

Lemma tally_upto {A} (f : A → Z) ps : (∀ p, 0 ≤ f p ≤ 1) → tally f ps ≤ Z.of_nat (length ps).
Proof. intros H. induction ps as [|p ps IH]; simpl; [lia|]. specialize (H p). lia. Qed.

Lemma tally_ge {A} (f : A → Z) ps i p : (∀ p, 0 ≤ f p) → ps !! i = Some p → f p ≤ tally f ps.
Proof.
  intros Hf Hi. revert i Hi.
  induction ps as [|q ps IH]; intros [|i]; simpl; try done.
  - intros [= ->]. pose proof (tally_nonneg f ps Hf). lia.
  - intros H. pose proof (IH i H). pose proof (Hf q). lia.
Qed.

Lemma tally_zero {A} (f : A → Z) ps : (∀ p, 0 ≤ f p) → tally f ps = 0 → ∀ i p, ps !! i = Some p → f p = 0.
Proof. intros Hf H0 i p Hi. pose proof (tally_ge f ps i p Hf Hi). pose proof (Hf p). lia. Qed.

Lemma tally_le {A B} (f : A → Z) (g : B → Z) (r : A → B) ps :
  (∀ p, f p ≤ g (r p)) → tally f ps ≤ tally g (r <$> ps).
Proof.
  intros Hf. unfold tally. induction ps as [|p ps IH]; [done|]. rewrite fmap_cons. simpl.
  specialize (Hf p). lia.
Qed.

Lemma tally_const {A} (f : A → Z) c ps : Forall (λ p, f p = c) ps → tally f ps = Z.of_nat (length ps) * c.
Proof.
  induction 1 as [|p ps Hp _ IH]; [done|]. unfold tally in *. cbn [foldr length]. rewrite Nat2Z.inj_succ. nia.
Qed.

Lemma delete_insert_list {A} (l : list A) i x : delete i (<[i := x]> l) = delete i l.
Proof. revert i. induction l as [|y l IH]; intros [|i]; simpl; try done. f_equal. apply IH. Qed.

(** What the threads own: [omap g ps] as a multiset. *)
Lemma omap_at {A B} (g : B → option A) ps i p :
  ps !! i = Some p → omap g ps ≡ₚ option_list (g p) ++ omap g (delete i ps).
Proof. intros Hi. rewrite (delete_Permutation ps i p Hi) at 1. simpl. by destruct (g p). Qed.

Lemma omap_moved {A B} (g : B → option A) ps i p p' :
  ps !! i = Some p → omap g (<[i := p']> ps) ≡ₚ option_list (g p') ++ omap g (delete i ps).
Proof.
  intros Hi. rewrite (omap_at g _ i p'), delete_insert_list; [done|].
  apply list_lookup_insert_eq. by eapply lookup_lt_Some.
Qed.

Lemma elem_of_others {A} (l : list A) i j x : l !! j = Some x → j ≠ i → x ∈ delete i l.
Proof.
  intros Hj Hne. apply list_elem_of_lookup. destruct (decide (j < i)%nat) as [Hlt|Hge].
  - exists j. by rewrite list_lookup_delete_lt.
  - exists (j - 1)%nat. rewrite list_lookup_delete_ge by lia. by replace (S (j - 1)) with j by lia.
Qed.

(** The entries of a list with one entry changed. *)
Lemma changed {A} (l : list A) id x x' a y :
  l !! id = Some x → <[id := x']> l !! a = Some y → (a = id ∧ y = x') ∨ (a ≠ id ∧ l !! a = Some y).
Proof.
  intros Hx Ha. destruct (decide (a = id)) as [->|Hne].
  - rewrite list_lookup_insert_eq in Ha by (by eapply lookup_lt_Some). injection Ha as <-. auto.
  - rewrite list_lookup_insert_ne in Ha by done. auto.
Qed.

End Counting.
Export Counting.

(** ** Running monadic code

    [mexec] holds one equation per primitive; [mstep] runs the next statement. *)
Create HintDb mexec.

Lemma M_bind_ok {S A B} (m : M S A) (k : A → M S B) s a s' :
  m s = Ok (a, s') → (m ≫= k) s = k a s'.
Proof. intros H. unfold mbind, M_bind. by rewrite H. Qed.

Lemma M_ret_ok {S A} (a : A) (s : S) : (mret a : M S A) s = Ok (a, s).
Proof. done. Qed.

Lemma lift_ok {S A} (r : res A) (a : A) (s : S) : r = Ok a → lift r s = Ok (a, s).
Proof. by intros ->. Qed.

Lemma modify_ok {S} (g : S → S) s : modify g s = Ok (tt, g s).
Proof. done. Qed.

#[export] Hint Resolve M_ret_ok lift_ok modify_ok arr_get_ok arr_set_ok : mexec.

Ltac mstep :=
  erewrite M_bind_ok; [|solve [eauto with mexec]]; cbv beta iota.
