(* ===== verification/Task.v ===== *)
(** * Task: the unit of work (include/task.h, src/task.c)

    A task node lives in the heap; [task_create] allocates and fills it,
    [task_destroy] frees it.  The global id counter is part of the store. *)
From S2P Require Export Prelude.
From stdpp Require Import strings.
Local Open Scope Z_scope.

(** ** Pointers *)

(** A non-null address, and a pointer that may be [NULL]. *)
Abbreviation loc := positive.
Abbreviation ptr := (option positive).

(** ** Data (include/task.h) *)

(** [enum task_priority] is an integer type in C: any integer may be passed, so
    the constants are numbers and range checks are the code's own. *)
Definition PRIORITY_LOW : Z := 0.
Definition PRIORITY_MEDIUM : Z := 1.
Definition PRIORITY_HIGH : Z := 2.
Definition PRIORITY_COUNT : Z := 3.
Definition NUM_PRIORITIES : Z := PRIORITY_COUNT.

(** [struct timespec] of POSIX. *)
Record timespec := mk_ts { tv_sec : Z; tv_nsec : Z }.

(** [struct task_t].  A function pointer is the address of code outside the
    library; [arg] is an opaque pointer value. *)
Record task_t := mk_task {
  task_id : Z;              (* uint64_t *)
  func : Z;                 (* void ( *func)(void *arg), never NULL here *)
  arg : Z;                  (* void *arg *)
  priority : Z;             (* enum task_priority *)
  submit_time : timespec;
  next : ptr
}.

#[export] Instance timespec_eq_dec : EqDecision timespec.
Proof. solve_decision. Defined.
#[export] Instance task_eq_dec : EqDecision task_t.
Proof. solve_decision. Defined.

Definition set_next (n : ptr) (t : task_t) : task_t :=
  mk_task (task_id t) (func t) (arg t) (priority t) (submit_time t) n.
Definition set_priority (p : Z) (t : task_t) : task_t :=
  mk_task (task_id t) (func t) (arg t) p (submit_time t) (next t).
Definition set_submit_time (s : timespec) (t : task_t) : task_t :=
  mk_task (task_id t) (func t) (arg t) (priority t) s (next t).

(** ** The store: allocated task nodes and the global id counter *)

Record mem := mk_mem {
  heap : gmap loc task_t;
  g_task_id_count : Z       (* static atomic_uint_fast64_t *)
}.

Definition set_heap (h : gmap loc task_t) (m : mem) : mem :=
  mk_mem h (g_task_id_count m).

(** [malloc]'s answer: [None] is the out-of-memory [NULL]; an address it
    returns is not in use. *)
Definition malloc_ok (r : option loc) (m : mem) : Prop :=
  match r with None => True | Some l => heap m !! l = None end.

(** ** Operations (src/task.c) *)

(** [task_create]: [fn] is [None] for a NULL function pointer, [r] is the answer
    of [malloc].  The id is taken only once the allocation succeeded. *)
Definition task_create (r : option loc) (fn : option Z) (a prio : Z) (m : mem)
    : ptr * mem :=
  match fn with
  | None => (None, m)
  | Some f =>
      match r with
      | None => (None, m)
      | Some l =>
          let new_id := g_task_id_count m in
          let new_task := mk_task new_id f a prio (mk_ts 0 0) None in
          (Some l, mk_mem (<[l := new_task]> (heap m)) (u64 (new_id + 1)))
      end
  end.

(** [task_destroy]: [free] of a node; [free(NULL)] does nothing, freeing an
    address that is not allocated is a fault. *)
Definition task_destroy (task : ptr) : M (gmap loc task_t) unit :=
  λ h, match task with
       | None => Ok (tt, h)
       | Some l => match h !! l with
                   | Some _ => Ok (tt, delete l h)
                   | None => Fault UseAfterFree
                   end
       end.

(** [task_priority_str]. *)
Definition g_task_priority_str : list string := ["LOW"; "MEDIUM"; "HIGH"]%string.

Definition task_priority_str (priority : Z) : res string :=
  if (priority <? 0) || (NUM_PRIORITIES <=? priority) then Ok "UNKNOWN"%string
  else arr_get g_task_priority_str priority.

(** ** Properties *)

(** A created task is fully initialised, detached, and carries the next id. *)
Lemma task_create_ok l f a prio m :
  task_create (Some l) (Some f) a prio m =
    (Some l, mk_mem (<[l := mk_task (g_task_id_count m) f a prio (mk_ts 0 0) None]> (heap m))
                    (u64 (g_task_id_count m + 1))).
Proof. reflexivity. Qed.

(** Failing calls leave the store alone and take no id. *)
Lemma task_create_fail r fn a prio m :
  fn = None ∨ r = None → task_create r fn a prio m = (None, m).
Proof. intros [-> | ->]; [done|]. by destruct fn. Qed.

(** No integer makes [task_priority_str] read outside its table, and exactly
    the three declared levels have names of their own. *)
Lemma task_priority_str_total p :
  ∃ s, task_priority_str p = Ok s ∧ (s = "UNKNOWN"%string ↔ ¬ 0 ≤ p < NUM_PRIORITIES).
Proof.
  unfold task_priority_str, NUM_PRIORITIES, PRIORITY_COUNT.
  destruct (decide (0 ≤ p < 3)) as [Hp|Hp].
  - assert (p = 0 ∨ p = 1 ∨ p = 2) as [->|[->| ->]] by lia;
      eexists; (split; [reflexivity|]); split; intros; try done; lia.
  - replace ((p <? 0) || (3 <=? p)) with true by lia.
    eexists; split; [done|]. split; [lia|done].
Qed.
