(* ===== verification/Text.v ===== *)
(** * Text: the printf conversions the program uses

    Decimal conversions with and without padding, [snprintf]'s truncation, and
    texts as sequences of screen cells. *)
From S2P Require Export Prelude.
From stdpp Require Export strings.
Local Open Scope Z_scope.

Definition digit (d : Z) : string := String (Ascii.ascii_of_nat (48 + Z.to_nat d)) EmptyString.

(** Decimal digits, most significant first; 20 digits hold any 64-bit value. *)
Fixpoint digits (fuel : nat) (n : Z) : string :=
  match fuel with
  | O => EmptyString
  | S f => if n <? 10 then digit n else digits f (n / 10) +:+ digit (n mod 10)
  end.

(** [%d], [%u], [%ld] ... *)
Definition dec (n : Z) : string :=
  if n <? 0 then "-" +:+ digits 20 (- n) else digits 20 n.

Fixpoint copies (n : nat) (a : string) : string :=
  match n with O => EmptyString | S n' => a +:+ copies n' a end.

(** Padding to a minimal width: [pad_left 2 "0"] is [%02d], [pad_right 5] is [%-5d]. *)
Definition pad_left (w : nat) (fill : string) (s : string) : string :=
  copies (w - String.length s) fill +:+ s.
Definition pad_right (w : nat) (s : string) : string :=
  s +:+ copies (w - String.length s) " ".

(** [snprintf(buf, len, ...)]: at most [len - 1] characters are kept. *)
Definition snprintf (len : nat) (s : string) : string := String.substring 0 (len - 1) s.

(** One screen column per cell; a non-ASCII glyph is a cell of its own. *)
Definition cells (s : string) : list string :=
  (λ a, String a EmptyString) <$> String.list_ascii_of_string s.

(** ** Concatenation *)

Lemma append_step a s t : (String a s +:+ t)%string = String a (s +:+ t).
Proof. done. Qed.

Lemma append_nil s : (s +:+ EmptyString)%string = s.
Proof. induction s as [|a s IH]; [done|]. by rewrite append_step, IH. Qed.

Lemma append_assoc s t u : ((s +:+ t) +:+ u = s +:+ (t +:+ u))%string.
Proof. induction s as [|a s IH]; [done|]. by rewrite !append_step, IH. Qed.

(** ** Lengths *)

Lemma length_append s t : String.length (s +:+ t) = (String.length s + String.length t)%nat.
Proof. induction s; simpl; [done|]. unfold String.append in *. by f_equal. Qed.

Lemma length_cells s : length (cells s) = String.length s.
Proof. unfold cells. rewrite length_fmap. by induction s; simpl; f_equal. Qed.

Lemma length_copies n a : String.length a = 1%nat → String.length (copies n a) = n.
Proof. intros Ha. induction n; simpl; [done|]. rewrite length_append, Ha. lia. Qed.

Lemma length_digits fuel n k :
  (1 ≤ k)%nat → 0 ≤ n < 10 ^ Z.of_nat k → (String.length (digits fuel n) ≤ k)%nat.
Proof.
  revert n k. induction fuel as [|f IH]; intros n k Hk Hn; simpl; [lia|].
  destruct (Z.ltb_spec n 10); [simpl; lia|]. rewrite length_append. simpl.
  destruct k as [|[|k]]; [lia|simpl in Hn; lia|].
  specialize (IH (n / 10) (S k) ltac:(lia)).
  assert (0 ≤ n / 10 < 10 ^ Z.of_nat (S k)).
  { split; [apply Z.div_pos; lia|]. apply Z.div_lt_upper_bound; [lia|].
    replace (10 * 10 ^ Z.of_nat (S k)) with (10 ^ Z.of_nat (S (S k))); [lia|].
    rewrite (Nat2Z.inj_succ (S k)), Z.pow_succ_r; lia. }
  specialize (IH ltac:(lia)). lia.
Qed.

Lemma length_dec n k : (1 ≤ k)%nat → 0 ≤ n < 10 ^ Z.of_nat k → (String.length (dec n) ≤ k)%nat.
Proof. intros Hk Hn. unfold dec. destruct (Z.ltb_spec n 0); [lia|]. by apply length_digits. Qed.

Lemma length_pad_left w a s :
  String.length a = 1%nat → String.length (pad_left w a s) = Nat.max w (String.length s).
Proof. intros. unfold pad_left. rewrite length_append, length_copies by done. lia. Qed.

Lemma length_pad_right w s : String.length (pad_right w s) = Nat.max w (String.length s).
Proof. unfold pad_right. rewrite length_append, length_copies by done. lia. Qed.

Lemma length_substring n s : String.length (String.substring 0 n s) = Nat.min n (String.length s).
Proof. revert n. induction s; intros [|n]; simpl; try done. by f_equal. Qed.

Lemma length_snprintf len s : String.length (snprintf len s) = Nat.min (len - 1) (String.length s).
Proof. apply length_substring. Qed.

Lemma substring_all n s : (String.length s ≤ n)%nat → String.substring 0 n s = s.
Proof. revert n. induction s; intros [|n] H; simpl in *; try done; [lia|]. f_equal. apply IHs. lia. Qed.

Lemma snprintf_fits len s : (String.length s < len)%nat → snprintf len s = s.
Proof. intros. apply substring_all. lia. Qed.

(** ** Reading a number back *)

Definition digit_value (a : Ascii.ascii) : Z := Z.of_nat (Ascii.nat_of_ascii a) - 48.

(** The value of a string of digits (as [strtol] accumulates it). *)
Definition value (s : string) : Z :=
  foldl (λ z a, 10 * z + digit_value a) 0 (String.list_ascii_of_string s).

Lemma to_list_app s t : String.list_ascii_of_string (s +:+ t) = String.list_ascii_of_string s ++ String.list_ascii_of_string t.
Proof. induction s; simpl; [done|]. unfold String.append in *. by f_equal. Qed.

Lemma digit_value_ok d : 0 ≤ d < 10 → digit_value (Ascii.ascii_of_nat (48 + Z.to_nat d)) = d.
Proof. intros. unfold digit_value. rewrite Ascii.nat_ascii_embedding; lia. Qed.

Lemma value_digits fuel n : 0 ≤ n < 10 ^ Z.of_nat fuel → value (digits fuel n) = n.
Proof.
  revert n. induction fuel as [|f IH]; intros n Hn; simpl; [simpl in Hn; unfold value; simpl; lia|].
  destruct (Z.ltb_spec n 10).
  - unfold value, digit. cbn [String.list_ascii_of_string foldl]. rewrite digit_value_ok by lia. lia.
  - assert (Hm := Z.mod_pos_bound n 10 ltac:(lia)). unfold value. rewrite to_list_app, foldl_app.
    cbn [digit String.list_ascii_of_string foldl]. rewrite digit_value_ok by lia. fold (value (digits f (n / 10))).
    rewrite IH; [pose proof (Z.div_mod n 10 ltac:(lia)); lia|].
    split; [apply Z.div_pos; lia|]. apply Z.div_lt_upper_bound; [lia|].
    rewrite Nat2Z.inj_succ, Z.pow_succ_r in Hn; lia.
Qed.

Lemma value_dec n : 0 ≤ n < 10 ^ 20 → value (dec n) = n.
Proof. intros. unfold dec. destruct (Z.ltb_spec n 0); [lia|]. by apply value_digits. Qed.

Lemma value_zeros n s : value (copies n "0" +:+ s) = value s.
Proof.
  unfold value. rewrite to_list_app, foldl_app. f_equal.
  induction n as [|n IH]; [done|]. cbn [copies]. rewrite to_list_app, foldl_app. exact IH.
Qed.

Lemma value_pad w n : 0 ≤ n < 10 ^ 20 → value (pad_left w "0" (dec n)) = n.
Proof. intros. unfold pad_left. rewrite value_zeros. by apply value_dec. Qed.
