(* ===== verification/Resources.v ===== *)
(** * Resources: acquiring, releasing, and the error labels of an init function

    The init functions of this program acquire resources one by one and jump, on
    failure, to a chain of labels that release them in reverse order.  [Holder] is
    what such a function's state offers: the resources that are live, the threads
    that may use them, which of these sleep until someone wakes them, and whether
    the shutdown flag was stored.  Releasing something that is not live, or that a
    running thread may still use, faults; joining a thread that was not told to
    stop, or that still sleeps, blocks. *)
From S2P Require Export Prelude.
Local Open Scope Z_scope.

Class Holder (S R : Type) := {
  live : S → list R;
  set_live : list R → S → S;
  crew : S → list nat;
  set_crew : list nat → S → S;
  asleep : S → list nat;
  set_asleep : list nat → S → S;
  told : S → bool
}.

Class HolderLaws (S R : Type) `{!Holder S R} := {
  live_set l st : live (set_live l st) = l;
  crew_set l st : crew (set_live (R := R) l st) = crew st;
  live_crew ts st : live (set_crew ts st) = live st;
  crew_crew ts st : crew (set_crew (R := R) ts st) = ts;
  set_crew_same st : set_crew (R := R) (crew st) st = st;
  set_crew_twice ts us st : set_crew (R := R) ts (set_crew us st) = set_crew ts st;
  asleep_crew ts st : asleep (R := R) (set_crew (R := R) ts st) = asleep (R := R) st;
  told_crew ts st : told (R := R) (set_crew (R := R) ts st) = told (R := R) st
}.

Section Resources.
Context {S R : Type} `{!EqDecision R, !Holder S R, !HolderLaws S R}.
Abbreviation IM := (M S).

(** A call that creates [r], or fails. *)
Definition acquire (ok : bool) (r : R) : IM bool := λ st,
  Ok (ok, if ok then set_live (r :: live st) st else st).

Definition release (r : R) : IM unit := λ st,
  if bool_decide (r ∈ live st) && bool_decide (crew st = [])
  then Ok (tt, set_live (filter (λ x, x ≠ r) (live st)) st)
  else Fault UseAfterFree.

(** [pthread_join] of a thread that was created and not joined yet: a worker runs
    until it reads the shutdown flag, which it does not while it sleeps. *)
Definition join (t : nat) : IM unit := λ st,
  if decide (t ∈ crew st) then
    if told (R := R) st && bool_decide (t ∉ asleep (R := R) st)
    then Ok (tt, set_crew (filter (λ u, u ≠ t) (crew st)) st)
    else Blocks
  else Fault UseAfterFree.

(** The broadcast: a woken worker reads the flag again, and goes back to sleep
    when it is not set. *)
Definition wake_crew (st : S) : S := if told (R := R) st then set_asleep (R := R) [] st else st.

(** [m] returns NULL with nothing left behind. *)
Definition undone (m : IM bool) (st : S) : Prop :=
  ∃ st', m st = Ok (false, st') ∧ live st' = [] ∧ crew st' = [].

(** No thread exists and [l] is live; [Q] is what else is known of the state. *)
Definition settled (Q : S → Prop) (l : list R) (st : S) : Prop :=
  live st = l ∧ crew st = [] ∧ Q st.

Lemma filter_absent {A} `{!EqDecision A} (r : A) (l : list A) : r ∉ l → filter (λ x, x ≠ r) l = l.
Proof.
  induction l as [|x l IH]; intros Hr; [done|]. rewrite not_elem_of_cons in Hr. destruct Hr as [Hx Hr].
  rewrite filter_cons_True by congruence. by rewrite IH.
Qed.

Lemma acquire_then b r (e k : IM bool) st :
  (acquire b r ≫= λ ok, if negb ok then e else k) st =
  if b then k (set_live (r :: live st) st) else e st.
Proof. by destruct b. Qed.

Lemma modify_then f (k : IM bool) st : (modify f;; k) st = k (f st).
Proof. done. Qed.

(** One label of the chain. *)
Lemma release_next (Q : S → Prop) r (k : IM bool) l st :
  (∀ l st, Q st → Q (set_live l st)) → r ∉ l → settled Q (r :: l) st →
  (∀ st', settled Q l st' → undone k st') → undone (release r;; k) st.
Proof.
  intros HQ Hr (Hl & Ht & Hq) Hk. unfold undone, mbind, M_bind, release. rewrite Hl, Ht.
  rewrite !bool_decide_eq_true_2 by (done || by constructor). cbn [andb].
  apply Hk. split_and!; [|by rewrite crew_set|by apply HQ].
  rewrite live_set, filter_cons_False by auto. by apply filter_absent.
Qed.

(** A resource released out of order. *)
Lemma release_second r r' (k : IM bool) l st :
  live st = r :: r' :: l → r ≠ r' → r' ∉ l → crew st = [] →
  (release r';; k) st = k (set_live (r :: l) st).
Proof.
  intros Hl Hne Hr Ht. unfold mbind, M_bind, release. rewrite Hl, Ht.
  rewrite !bool_decide_eq_true_2 by (done || by right; left). cbn [andb].
  rewrite filter_cons_True by done. rewrite filter_cons_False by auto. by rewrite filter_absent.
Qed.

(** Joins [left] threads from [j] on, whose ids [tid] reads from the state. *)
Fixpoint join_from (tid : nat → S → res nat) (left j : nat) : IM unit :=
  match left with
  | O => mret tt
  | Datatypes.S left' =>
      st ← get; t ← lift (tid j st); join t;; join_from tid left' (Datatypes.S j)
  end.

Lemma join_from_ok (tid : nat → S → res nat) left j st :
  (∀ i ts, (j ≤ i < j + left)%nat → tid i (set_crew ts st) = Ok i) →
  told (R := R) st = true → asleep (R := R) st = [] →
  crew st = seq j left → join_from tid left j st = Ok (tt, set_crew [] st).
Proof.
  revert j st. induction left as [|left IH]; intros j st Hw Hto Has Ht; cbn [join_from].
  { rewrite <- (set_crew_same st) at 1. by rewrite Ht. }
  unfold mbind, M_bind, get, lift. rewrite <- (set_crew_same st) at 1. rewrite Hw by lia.
  cbn [mbind res_bind]. unfold join. rewrite Ht, Hto, Has. rewrite decide_True by (by constructor).
  rewrite bool_decide_eq_true_2 by apply not_elem_of_nil. cbn [andb].
  cbn [seq]. rewrite filter_cons_False by auto. rewrite filter_absent by (rewrite elem_of_seq; lia).
  rewrite IH; [by rewrite set_crew_twice| |by rewrite told_crew|by rewrite asleep_crew|apply crew_crew].
  intros i ts Hi. rewrite set_crew_twice. apply Hw. lia.
Qed.
End Resources.

(** The sleepers among the first threads, and one thread more. *)
Lemma sleepers_S (sleeps : nat → bool) i zs :
  (zs ++ filter (λ j, sleeps j) (seq 0 i)) ++ (if sleeps i then [i] else []) =
  zs ++ filter (λ j, sleeps j) (seq 0 (S i)).
Proof.
  rewrite seq_S, filter_app, app_assoc. f_equal. simpl. rewrite filter_cons, filter_nil.
  by destruct (sleeps i).
Qed.

(** A resource is not in a given list. *)
Ltac absent :=
  intros Hin; cbn in Hin;
  repeat (apply elem_of_cons in Hin as [Hin|Hin]; [discriminate Hin|]); by apply elem_of_nil in Hin.

(** Releases the head of the live list and goes on with the label [k]. *)
Ltac release_then H k := eapply release_next; [| |exact H|apply k]; [done|absent].

(** A call failed: what is live is what the label it jumps to releases. *)
Ltac failing Hl Ht lem := apply lem; by split_and!; simpl; rewrite ?Hl, ?Ht.
