(* ===== verification/PriorityQueue.v ===== *)
(** * PriorityQueue: the three-lane blocking queue
      (include/priority_queue.h, src/priority_queue.c)

    The queue is modelled at the level of the C structure: arrays of head and
    tail pointers into linked nodes of the heap, a 32-bit ready mask, and two
    64-bit counters.  The functions the code names [..._locked] run on the heap
    and the queue; the API functions add the mutex and the notifications they
    send.  Proofs are in QueueSpec.v. *)
From S2P Require Export Task.
Local Open Scope Z_scope.

Definition PQ_BITMASK_BITS : Z := 32.

(** [struct priority_queue_t], its data fields. *)
Record priority_queue_t := mk_pq {
  heads : list ptr;
  tails : list ptr;
  ready_mask : Z;           (* uint32_t *)
  size : Z;                 (* uint64_t *)
  depth : Z;                (* _Atomic uint64_t, mirror of size *)
  max_tasks : Z             (* _Atomic uint64_t, 0 = unbounded *)
}.

#[export] Instance pq_eq_dec : EqDecision priority_queue_t.
Proof. solve_decision. Defined.

Definition set_heads (a : list ptr) (q : priority_queue_t) : priority_queue_t :=
  mk_pq a (tails q) (ready_mask q) (size q) (depth q) (max_tasks q).
Definition set_tails (a : list ptr) (q : priority_queue_t) : priority_queue_t :=
  mk_pq (heads q) a (ready_mask q) (size q) (depth q) (max_tasks q).
Definition set_mask (z : Z) (q : priority_queue_t) : priority_queue_t :=
  mk_pq (heads q) (tails q) z (size q) (depth q) (max_tasks q).
Definition set_size (z : Z) (q : priority_queue_t) : priority_queue_t :=
  mk_pq (heads q) (tails q) (ready_mask q) z (depth q) (max_tasks q).
Definition set_depth (z : Z) (q : priority_queue_t) : priority_queue_t :=
  mk_pq (heads q) (tails q) (ready_mask q) (size q) z (max_tasks q).
Definition set_max (z : Z) (q : priority_queue_t) : priority_queue_t :=
  mk_pq (heads q) (tails q) (ready_mask q) (size q) (depth q) z.

(** ** The queue monad: heap and queue *)

Definition store : Type := gmap loc task_t * priority_queue_t.
Abbreviation QM := (M store).

Definition load_task (p : ptr) : QM task_t := λ '(h, q),
  match p with
  | None => Fault NullDeref
  | Some l => match h !! l with
              | Some t => Ok (t, (h, q))
              | None => Fault UseAfterFree
              end
  end.

Definition store_task (p : ptr) (t : task_t) : QM unit := λ '(h, q),
  match p with
  | None => Fault NullDeref
  | Some l => match h !! l with
              | Some _ => Ok (tt, (<[l := t]> h, q))
              | None => Fault UseAfterFree
              end
  end.

Definition free_task (p : ptr) : QM unit := λ '(h, q),
  match task_destroy p h with
  | Ok (_, h') => Ok (tt, (h', q))
  | Blocks => Blocks
  | Fault f => Fault f
  end.

Definition get_pq : QM priority_queue_t := λ '(h, q), Ok (q, (h, q)).
Definition get_heap : QM (gmap loc task_t) := λ '(h, q), Ok (h, (h, q)).
Definition upd_pq (g : priority_queue_t → priority_queue_t) : QM unit :=
  λ '(h, q), Ok (tt, (h, g q)).

Definition get_head (p : Z) : QM ptr := q ← get_pq; lift (arr_get (heads q) p).
Definition get_tail (p : Z) : QM ptr := q ← get_pq; lift (arr_get (tails q) p).
Definition put_head (p : Z) (x : ptr) : QM unit :=
  q ← get_pq; a ← lift (arr_set (heads q) p x); upd_pq (set_heads a).
Definition put_tail (p : Z) (x : ptr) : QM unit :=
  q ← get_pq; a ← lift (arr_set (tails q) p x); upd_pq (set_tails a).

(** [1UL << p] and its complement, stored back into the [uint32_t] mask. *)
Definition mask_set (m p : Z) : Z := u32 (Z.lor m (u64 (Z.shiftl 1 p))).
Definition mask_clear (m p : Z) : Z := u32 (Z.land m (u64 (Z.lnot (u64 (Z.shiftl 1 p))))).

(** ** Helpers *)

(** [__builtin_clz] on a 32-bit value: the number of zero bits above the
    highest set bit, counted from bit 31 down. *)
Fixpoint clz_from (bits : nat) (x : Z) : Z :=
  match bits with
  | O => 0
  | S n => if Z.testbit x (Z.of_nat n) then 0 else 1 + clz_from n x
  end.
Definition builtin_clz (x : Z) : Z := clz_from 32 x.

Definition _get_highest_priority (mask : Z) : res Z :=
  if mask =? 0 then Fault AssertFailed
  else Ok (PQ_BITMASK_BITS - builtin_clz mask - 1).

(** [_shutdown_requested]: [None] is a NULL flag pointer, [Some b] the value the
    atomic load returned. *)
Definition _shutdown_requested (shutdown_flag : option bool) : bool :=
  match shutdown_flag with None => false | Some b => b end.

(** ** Bodies that run with [pq->mutex] held *)

Definition _pq_insert_locked (task : loc) : QM unit :=
  t ← load_task (Some task);
  let p := i32 (priority t) in
  store_task (Some task) (set_next None t);;
  tl ← get_tail p;
  match tl with
  | None => put_tail p (Some task);; put_head p (Some task)
  | Some _ =>
      tl_node ← load_task tl;
      store_task tl (set_next (Some task) tl_node);;
      put_tail p (Some task)
  end;;
  upd_pq (λ q, set_mask (mask_set (ready_mask q) p) q);;
  upd_pq (λ q, set_size (u64 (size q + 1)) q);;
  upd_pq (λ q, set_depth (u64 (depth q + 1)) q).

Definition _pq_pop_locked (p : Z) : QM ptr :=
  task ← get_head p;
  t ← load_task task;
  put_head p (next t);;
  match next t with
  | None => put_tail p None;;
            upd_pq (λ q, set_mask (mask_clear (ready_mask q) p) q)
  | Some _ => mret tt
  end;;
  store_task task (set_next None t);;
  upd_pq (λ q, set_size (u64 (size q - 1)) q);;
  upd_pq (λ q, set_depth (u64 (depth q - 1)) q);;
  mret task.

(** The lane-freeing loop of [pq_destroy]; [fuel] bounds the nodes of a lane. *)
Fixpoint destroy_lane (fuel : nat) (curr : ptr) : QM unit :=
  match curr with
  | None => mret tt
  | Some _ =>
      match fuel with
      | O => fail OutOfFuel
      | S n => t ← load_task curr;
               free_task curr;;
               destroy_lane n (next t)
      end
  end.

Fixpoint destroy_lanes (n : nat) (p : Z) : QM unit :=
  match n with
  | O => mret tt
  | S n' =>
      curr ← get_head p;
      h ← get_heap;
      destroy_lane (base.size h) curr;;
      put_tail p None;; put_head p None;;
      destroy_lanes n' (p + 1)
  end.

(** ** API functions, run by one thread *)

(** The mutex and the condition variable of the queue: the state of the mutex,
    and what was done to the condition variable (signals, broadcasts, its
    destruction), latest first. *)
Inductive mutex_state := Unlocked | Locked | Destroyed.
Inductive note := Signalled | Broadcasted | CondDestroyed.

Record pq_world := mk_world {
  w_store : store;
  w_mutex : mutex_state;
  w_notes : list note
}.
Abbreviation WM := (M pq_world).

(** A default (non-recursive) mutex: locking it twice is a self-deadlock. *)
Definition mutex_lock : WM unit := λ w,
  match w_mutex w with
  | Unlocked => Ok (tt, mk_world (w_store w) Locked (w_notes w))
  | Locked => Fault SelfDeadlock
  | Destroyed => Fault UseAfterFree
  end.
Definition mutex_unlock : WM unit := λ w,
  match w_mutex w with
  | Locked => Ok (tt, mk_world (w_store w) Unlocked (w_notes w))
  | _ => Fault BadUnlock
  end.
Definition mutex_destroy : WM unit := λ w,
  match w_mutex w with
  | Unlocked => Ok (tt, mk_world (w_store w) Destroyed (w_notes w))
  | _ => Fault BadUnlock
  end.
Definition cond_notify (n : note) : WM unit := λ w,
  Ok (tt, mk_world (w_store w) (w_mutex w) (n :: w_notes w)).

(** Runs a [_locked] body in the world. *)
Definition locked {A} (m : QM A) : WM A := λ w,
  match m (w_store w) with
  | Ok (a, s') => Ok (a, mk_world s' (w_mutex w) (w_notes w))
  | Blocks => Blocks
  | Fault f => Fault f
  end.

(** [pq_init]: [memset], then the mutex and the condition variable; the two
    booleans say whether [pthread_mutex_init] and [pthread_cond_init] succeed.
    The result is the return code, the structure it leaves and the
    synchronisation objects left initialised. *)
Inductive pq_object := PqMutex | PqCond.

Definition pq_zero : priority_queue_t :=
  mk_pq [None; None; None] [None; None; None] 0 0 0 0.

Definition pq_init (pq : option priority_queue_t) (mutex_ok cond_ok : bool)
    : Z * option priority_queue_t * list pq_object :=
  match pq with
  | None => (-1, None, [])
  | Some _ =>
      let pq := pq_zero in
      if negb mutex_ok then (-1, Some pq, [])
      else
        let live := [PqMutex] in
        if negb cond_ok then
          let live := [] in          (* pthread_mutex_destroy *)
          (-1, Some pq, live)
        else (0, Some pq, PqCond :: live)
  end.

(** In the functions below [pq] tells whether the queue pointer is non-NULL. *)
Definition pq_destroy (pq : bool) : WM unit :=
  if negb pq then mret tt
  else
    mutex_lock;;
    locked (destroy_lanes (Z.to_nat NUM_PRIORITIES) 0);;
    locked (upd_pq (λ q, set_mask 0 (set_size 0 q)));;
    locked (upd_pq (set_depth 0));;
    mutex_unlock;;
    cond_notify CondDestroyed;;
    mutex_destroy.

Definition pq_push (pq : bool) (task : ptr) : WM unit :=
  match pq, task with
  | true, Some l =>
      mutex_lock;;
      locked (_pq_insert_locked l);;
      mutex_unlock;;
      cond_notify Signalled
  | _, _ => mret tt
  end.

(** The capacity test of [pq_try_push]. *)
Definition at_capacity (q : priority_queue_t) : bool :=
  negb (max_tasks q =? 0) && (max_tasks q <=? size q).

Definition pq_try_push (pq : bool) (task : ptr) : WM bool :=
  match pq, task with
  | true, Some l =>
      mutex_lock;;
      q ← locked get_pq;
      if at_capacity q then mutex_unlock;; mret false
      else locked (_pq_insert_locked l);;
           mutex_unlock;;
           cond_notify Signalled;;
           mret true
  | _, _ => mret false
  end.

Definition pq_set_max_tasks (pq : bool) (m : Z) (q : priority_queue_t) : priority_queue_t :=
  if negb pq then q else set_max m q.

Definition pq_is_full_approx (pq : bool) (q : priority_queue_t) : bool :=
  if negb pq then false
  else if max_tasks q =? 0 then false
  else max_tasks q <=? depth q.

(** What [pthread_cond_wait] finds when it returns: the queue as other threads
    left it and the next value the shutdown flag will be read with. *)
Definition wakeup : Type := store * option bool.

(** [pq_pop_until_shutdown]'s loop.  [wakes] lists the returns of
    [pthread_cond_wait]; with none left the caller stays asleep. *)
Fixpoint pop_wait (wakes : list wakeup) (shutdown_flag : option bool) : WM ptr :=
  q ← locked get_pq;
  if ready_mask q =? 0 then
    if _shutdown_requested shutdown_flag then mutex_unlock;; mret None
    else match wakes with
         | [] => blocks
         | (s, flag) :: wakes' =>
             modify (λ w, mk_world s (w_mutex w) (w_notes w));;
             pop_wait wakes' flag
         end
  else
    p ← lift (_get_highest_priority (ready_mask q));
    task ← locked (_pq_pop_locked p);
    mutex_unlock;;
    mret task.

Definition pq_pop_until_shutdown (pq : bool) (wakes : list wakeup)
    (shutdown_flag : option bool) : WM ptr :=
  if negb pq then mret None
  else mutex_lock;; pop_wait wakes shutdown_flag.

Definition pq_pop (pq : bool) (wakes : list store) : WM ptr :=
  pq_pop_until_shutdown pq ((λ s, (s, None)) <$> wakes) None.

Definition pq_wake_all (pq : bool) : WM unit :=
  if negb pq then mret tt
  else mutex_lock;; cond_notify Broadcasted;; mutex_unlock.

Definition pq_pop_nonblock (pq : bool) : WM ptr :=
  if negb pq then mret None
  else
    mutex_lock;;
    q ← locked get_pq;
    if ready_mask q =? 0 then mutex_unlock;; mret None
    else
      p ← lift (_get_highest_priority (ready_mask q));
      task ← locked (_pq_pop_locked p);
      mutex_unlock;;
      mret task.

(** [int size = pq->size] narrows the 64-bit counter. *)
Definition pq_size (pq : bool) : WM Z :=
  if negb pq then mret 0
  else mutex_lock;; q ← locked get_pq; mutex_unlock;; mret (i32 (size q)).

Definition pq_is_empty (pq : bool) : WM Z :=
  if negb pq then mret 0
  else
    mutex_lock;;
    q ← locked get_pq;
    mutex_unlock;;
    mret (if ready_mask q =? 0 then 1 else 0).

(** ** Aging *)

Definition NSEC_PER_SEC : Z := 1000000000.
Definition NSEC_PER_MSEC : Z := 1000000.

(** [has_passed_ms]: all intermediate values are [long]. *)
Definition has_passed_ms (start end_ : timespec) (target_ms : Z) : res bool :=
  if (tv_sec start =? 0) && (tv_nsec start =? 0) then Ok false
  else
    sec_diff ← chk_i64 (tv_sec end_ - tv_sec start);
    nsec_diff ← chk_i64 (tv_nsec end_ - tv_nsec start);
    '(sec_diff, nsec_diff) ←
      (if nsec_diff <? 0
       then s ← chk_i64 (sec_diff - 1); n ← chk_i64 (nsec_diff + NSEC_PER_SEC); Ok (s, n)
       else Ok (sec_diff, nsec_diff));
    prod ← chk_i64 (sec_diff * NSEC_PER_SEC);
    total_ns ← chk_i64 (prod + nsec_diff);
    target ← chk_i64 (target_ms * NSEC_PER_MSEC);
    Ok (target <=? total_ns).

(** The scan for the last expired node of the prefix. *)
Fixpoint find_prefix_tail (fuel : nat) (now : timespec) (ms : Z) (prefix_tail : ptr)
    : QM ptr :=
  match fuel with
  | O => fail OutOfFuel
  | S n =>
      t ← load_task prefix_tail;
      match next t with
      | None => mret prefix_tail
      | Some _ =>
          nt ← load_task (next t);
          b ← lift (has_passed_ms (submit_time nt) now ms);
          if (b : bool) then find_prefix_tail n now ms (next t) else mret prefix_tail
      end
  end.

(** The loop that rewrites the priority of every node of the prefix. *)
Fixpoint relabel (fuel : nat) (dst : Z) (node prefix_tail : ptr) : QM unit :=
  match fuel with
  | O => fail OutOfFuel
  | S n =>
      t ← load_task node;
      store_task node (set_priority dst t);;
      if decide (node = prefix_tail) then mret tt
      else relabel n dst (next t) prefix_tail
  end.

(** Detaching the prefix from its lane (lines 275-280). *)
Definition unlink_prefix (src : Z) (next_after : ptr) : QM unit :=
  put_head src next_after;;
  match next_after with
  | None => put_tail src None;;
            upd_pq (λ q, set_mask (mask_clear (ready_mask q) src) q)
  | Some _ => mret tt
  end.

(** Attaching the prefix in front of its new lane (lines 288-292). *)
Definition link_prefix (dst : Z) (prefix_head prefix_tail : ptr) : QM unit :=
  dh ← get_head dst;
  pt ← load_task prefix_tail;
  store_task prefix_tail (set_next dh pt);;
  put_head dst prefix_head;;
  dt ← get_tail dst;
  match dt with
  | None => put_tail dst prefix_tail
  | Some _ => mret tt
  end;;
  upd_pq (λ q, set_mask (mask_set (ready_mask q) dst) q).

(** [pq_aging_promote_prefix] between its lock and its unlock; [true] when a
    prefix was moved. *)
Definition promote_locked (src dst : Z) (now : timespec) (ms : Z) : QM bool :=
  prefix_head ← get_head src;
  h ← get_heap;
  match prefix_head with
  | None => mret false
  | Some _ =>
      ht ← load_task prefix_head;
      b ← lift (has_passed_ms (submit_time ht) now ms);
      if negb b then mret false
      else
        prefix_tail ← find_prefix_tail (base.size h) now ms prefix_head;
        pt ← load_task prefix_tail;
        unlink_prefix src (next pt);;
        relabel (base.size h) dst prefix_head prefix_tail;;
        link_prefix dst prefix_head prefix_tail;;
        mret true
  end.

(** [pq_aging_promote_prefix]: [now] is what [clock_gettime] answered and [flag]
    what the shutdown flag was read as. *)
Definition pq_aging_promote_prefix (src dst : Z) (now : timespec) (flag : option bool)
    (ms : Z) : WM bool :=
  if _shutdown_requested flag then mret false
  else
    mutex_lock;;
    moved ← locked (promote_locked src dst now ms);
    mutex_unlock;;
    (if (moved : bool) then cond_notify Broadcasted else mret tt);;
    mret moved.

(** [pq_aging]: the two clock readings and the three readings of the flag. *)
Definition pq_aging (pq : bool) (now1 now2 : timespec) (flag1 flag2 flag3 : option bool)
    (ms : Z) : WM unit :=
  if negb pq then mret tt else
  pq_aging_promote_prefix PRIORITY_MEDIUM PRIORITY_HIGH now1 flag1 ms;;
  if _shutdown_requested flag2 then mret tt
  else pq_aging_promote_prefix PRIORITY_LOW PRIORITY_MEDIUM now2 flag3 ms;; mret tt.
