(* ===== verification/QueueSpec.v ===== *)
(** * QueueSpec: what the priority queue promises, and that it keeps it *)
From S2P Require Export PriorityQueue.
Local Open Scope Z_scope.

(** ** The abstract queue: one FIFO list of nodes per priority *)
Module Lanes.

Abbreviation t := (list (list loc)).

Definition empty : t := [[]; []; []].
Definition members (L : t) : list loc := concat L.
Definition lane (L : t) (p : nat) : list loc := default [] (L !! p).

Definition insert (p : nat) (x : loc) (L : t) : t := <[p := lane L p ++ [x]]> L.

(** The highest priority with a waiting node. *)
Fixpoint highest (L : t) : option nat :=
  match L with
  | [] => None
  | l :: L' => match highest L' with
               | Some n => Some (S n)
               | None => match l with [] => None | _ :: _ => Some O end
               end
  end.

Definition pop (L : t) : option (loc * t) :=
  p ← highest L;
  match lane L p with
  | [] => None
  | x :: l => Some (x, <[p := l]> L)
  end.

End Lanes.

(** ** Linked segments *)

(** The first node of [l], or [e] when there is none. *)
Definition hd_or (l : list loc) (e : ptr) : ptr :=
  match l with [] => e | x :: _ => Some x end.

(** The nodes [l] are linked in order by [next], the last one pointing to [e]. *)
Fixpoint lseg (h : gmap loc task_t) (l : list loc) (e : ptr) : Prop :=
  match l with
  | [] => True
  | x :: l' => (∃ t, h !! x = Some t ∧ next t = hd_or l' e) ∧ lseg h l' e
  end.

(** A node without its link: what the queue must not change. *)
Definition strip (t : task_t) : task_t := set_next None t.
(** A node without link and priority: what aging must not change. *)
Definition payload (t : task_t) : task_t := set_priority 0 (set_next None t).

Definition node_prio (h : gmap loc task_t) (p : nat) (x : loc) : Prop :=
  ∃ t, h !! x = Some t ∧ priority t = Z.of_nat p.

Definition lane_ok (h : gmap loc task_t) (p : nat) (l : list loc) : Prop :=
  lseg h l None ∧ Forall (node_prio h p) l.

Definition nonempty (l : list loc) : bool :=
  match l with [] => false | _ :: _ => true end.

(** ** The representation invariant of [struct priority_queue_t] *)
Record pq_repr (h : gmap loc task_t) (q : priority_queue_t) (L : Lanes.t) : Prop := {
  r_len : length L = Z.to_nat NUM_PRIORITIES;
  r_heads : heads q = head <$> L;
  r_tails : tails q = last <$> L;
  r_lane : ∀ p l, L !! p = Some l → lane_ok h p l;
  r_mask_pos : 0 ≤ ready_mask q;
  r_mask : ∀ n : nat, Z.testbit (ready_mask q) (Z.of_nat n) = nonempty (Lanes.lane L n);
  r_size : size q = u64 (Z.of_nat (length (Lanes.members L)));
  r_depth : depth q = size q;
  r_nodup : NoDup (Lanes.members L)
}.

(** ** Lemmas on segments *)

Lemma hd_or_app l1 l2 e : hd_or (l1 ++ l2) e = hd_or l1 (hd_or l2 e).
Proof. by destruct l1. Qed.

Lemma hd_or_head l : hd_or l None = head l.
Proof. by destruct l. Qed.

Lemma lseg_app h l1 l2 e :
  lseg h (l1 ++ l2) e ↔ lseg h l1 (hd_or l2 e) ∧ lseg h l2 e.
Proof.
  induction l1 as [|x l1 IH]; simpl; [tauto|].
  rewrite IH, hd_or_app. tauto.
Qed.

Lemma lseg_elem h l e x : lseg h l e → x ∈ l → is_Some (h !! x).
Proof.
  induction l as [|y l IH]; simpl; [by intros _ ?%elem_of_nil|].
  intros [(t & Ht & _) Hl] [->|Hx]%elem_of_cons; eauto.
Qed.

Lemma lseg_insert_ne h l e x t : x ∉ l → lseg h l e → lseg (<[x := t]> h) l e.
Proof.
  induction l as [|y l IH]; simpl; [done|].
  intros [Hxy Hxl]%not_elem_of_cons [(t' & Ht & Hn) Hl].
  split; [|by apply IH]. exists t'. by rewrite lookup_insert_ne.
Qed.

Lemma lseg_delete_ne h l e x : x ∉ l → lseg h l e → lseg (delete x h) l e.
Proof.
  induction l as [|y l IH]; simpl; [done|].
  intros [Hxy Hxl]%not_elem_of_cons [(t' & Ht & Hn) Hl].
  split; [|by apply IH]. exists t'. by rewrite lookup_delete_ne.
Qed.

(** Rewriting a node without touching its link keeps the segment. *)
Lemma lseg_insert_same h l e x t t' :
  h !! x = Some t → next t' = next t → lseg h l e → lseg (<[x := t']> h) l e.
Proof.
  intros Hx Hn. induction l as [|y l IH]; simpl; [done|].
  intros [(t0 & Ht & Hn0) Hl]. split; [|by apply IH].
  destruct (decide (x = y)) as [->|].
  - exists t'. rewrite lookup_insert_eq. split; [done|]. congruence.
  - exists t0. by rewrite lookup_insert_ne.
Qed.

(** Redirecting the link of the last node moves the end of the segment. *)
Lemma lseg_set_end h l x e e' t :
  x ∉ l → h !! x = Some t → next t = e → lseg h (l ++ [x]) e →
  lseg (<[x := set_next e' t]> h) (l ++ [x]) e'.
Proof.
  rewrite !lseg_app. simpl. intros Hx Ht Hn [Hl _]. split; [by apply lseg_insert_ne|].
  split; [|done]. exists (set_next e' t). by rewrite lookup_insert_eq.
Qed.

Lemma lseg_nodup_snoc (l : list loc) x : NoDup (l ++ [x]) → x ∉ l.
Proof. rewrite NoDup_app. intros (_ & H & _) Hx. by apply (H x Hx), list_elem_of_singleton. Qed.

(** ** Equations of the primitives *)
Section Primitives.
Context (h : gmap loc task_t) (q : priority_queue_t).

Lemma load_task_ok l t : h !! l = Some t → load_task (Some l) (h, q) = Ok (t, (h, q)).
Proof. intros H. simpl. by rewrite H. Qed.

Lemma store_task_ok l t t' :
  h !! l = Some t → store_task (Some l) t' (h, q) = Ok (tt, (<[l := t']> h, q)).
Proof. intros H. simpl. by rewrite H. Qed.

Lemma free_task_ok l t :
  h !! l = Some t → free_task (Some l) (h, q) = Ok (tt, (delete l h, q)).
Proof. intros H. simpl. by rewrite H. Qed.

Lemma get_pq_ok : get_pq (h, q) = Ok (q, (h, q)).
Proof. done. Qed.
Lemma get_heap_ok : get_heap (h, q) = Ok (h, (h, q)).
Proof. done. Qed.
Lemma upd_pq_ok g : upd_pq g (h, q) = Ok (tt, (h, g q)).
Proof. done. Qed.

Lemma get_head_ok (p : nat) x :
  heads q !! p = Some x → get_head (Z.of_nat p) (h, q) = Ok (x, (h, q)).
Proof.
  intros H. unfold get_head. erewrite M_bind_ok; [|apply get_pq_ok].
  by apply lift_ok, arr_get_ok.
Qed.

Lemma get_tail_ok (p : nat) x :
  tails q !! p = Some x → get_tail (Z.of_nat p) (h, q) = Ok (x, (h, q)).
Proof.
  intros H. unfold get_tail. erewrite M_bind_ok; [|apply get_pq_ok].
  by apply lift_ok, arr_get_ok.
Qed.

Lemma put_head_ok (p : nat) x :
  (p < length (heads q))%nat →
  put_head (Z.of_nat p) x (h, q) = Ok (tt, (h, set_heads (<[p := x]> (heads q)) q)).
Proof.
  intros H. unfold put_head. erewrite M_bind_ok; [|apply get_pq_ok].
  erewrite M_bind_ok; [|by apply lift_ok, arr_set_ok]. done.
Qed.

Lemma put_tail_ok (p : nat) x :
  (p < length (tails q))%nat →
  put_tail (Z.of_nat p) x (h, q) = Ok (tt, (h, set_tails (<[p := x]> (tails q)) q)).
Proof.
  intros H. unfold put_tail. erewrite M_bind_ok; [|apply get_pq_ok].
  erewrite M_bind_ok; [|by apply lift_ok, arr_set_ok]. done.
Qed.
End Primitives.

#[export] Hint Resolve load_task_ok store_task_ok free_task_ok get_pq_ok get_heap_ok
  upd_pq_ok get_head_ok get_tail_ok put_head_ok put_tail_ok : mexec.

(** ** Masks *)

Lemma mask_set_bits m (p n : nat) :
  (p < 32)%nat → Z.testbit m (Z.of_nat n) = (Z.of_nat n <? 32) && Z.testbit m (Z.of_nat n) →
  Z.testbit (mask_set m (Z.of_nat p)) (Z.of_nat n)
  = bool_decide (n = p) || Z.testbit m (Z.of_nat n).
Proof.
  intros Hp Hm. unfold mask_set. rewrite u32_bits, Z.lor_spec, u64_bits, shiftl_1_bits by lia.
  rewrite Hm. case_bool_decide as Hn; [subst|]; simpl.
  - replace (Z.of_nat p <? 32) with true by lia.
    replace (Z.of_nat p <? 64) with true by lia. rewrite Z.eqb_refl. simpl.
    by rewrite orb_true_r.
  - replace (Z.of_nat n =? Z.of_nat p) with false by lia. rewrite andb_false_r, orb_false_r.
    by destruct (Z.of_nat n <? 32).
Qed.

Lemma mask_clear_bits m (p n : nat) :
  (p < 32)%nat → Z.testbit m (Z.of_nat n) = (Z.of_nat n <? 32) && Z.testbit m (Z.of_nat n) →
  Z.testbit (mask_clear m (Z.of_nat p)) (Z.of_nat n)
  = negb (bool_decide (n = p)) && Z.testbit m (Z.of_nat n).
Proof.
  intros Hp Hm. unfold mask_clear.
  rewrite u32_bits, Z.land_spec, u64_bits, Z.lnot_spec, u64_bits, shiftl_1_bits by lia.
  rewrite Hm. case_bool_decide as Hn; [subst|]; simpl.
  - replace (Z.of_nat p <? 64) with true by lia. rewrite Z.eqb_refl. simpl.
    by rewrite !andb_false_r.
  - replace (Z.of_nat n =? Z.of_nat p) with false by lia. rewrite andb_false_r. simpl.
    destruct (Z.ltb_spec (Z.of_nat n) 32); simpl; [|done].
    replace (Z.of_nat n <? 64) with true by lia. by rewrite andb_true_r.
Qed.

Lemma mask_set_pos m p : 0 ≤ mask_set m p.
Proof. unfold mask_set, u32. apply Z.mod_pos_bound. lia. Qed.
Lemma mask_clear_pos m p : 0 ≤ mask_clear m p.
Proof. unfold mask_clear, u32. apply Z.mod_pos_bound. lia. Qed.

(** [__builtin_clz] gives the position of the highest set bit. *)
Lemma clz_from_log2 bits m :
  0 < m < 2 ^ Z.of_nat bits → clz_from bits m = Z.of_nat bits - 1 - Z.log2 m.
Proof.
  induction bits as [|n IH]; intros [Hm Hb].
  - simpl in Hb. lia.
  - cbn [clz_from]. destruct (Z.testbit m (Z.of_nat n)) eqn:E.
    + rewrite (log2_of_bits m (Z.of_nat n)); [lia|lia|lia|done|].
      intros k Hk. rewrite Z.bits_above_log2; [done|lia|].
      apply Z.log2_lt_pow2; [done|]. eapply Z.lt_le_trans; [apply Hb|].
      apply Z.pow_le_mono_r; lia.
    + rewrite IH; [lia|]. split; [done|].
      apply Z.log2_lt_pow2; [done|].
      assert (Z.log2 m < Z.of_nat (S n)) by by apply Z.log2_lt_pow2.
      assert (Z.log2 m ≠ Z.of_nat n); [|lia].
      intros Heq. rewrite <- Heq, Z.bit_log2 in E by done. done.
Qed.

(** [_get_highest_priority] is the highest set bit, for every non-zero mask. *)
Lemma get_highest_log2 mask :
  0 < mask < 2 ^ 32 → _get_highest_priority mask = Ok (Z.log2 mask).
Proof.
  intros H. unfold _get_highest_priority, builtin_clz, PQ_BITMASK_BITS.
  replace (mask =? 0) with false by lia. rewrite clz_from_log2 by (simpl; lia).
  f_equal. lia.
Qed.

(** ** Lemmas on lanes *)

Section LanesFacts.
Implicit Types (L : Lanes.t) (l : list loc) (p n : nat).

(** Changing one lane changes the members by that lane only. *)
Lemma members_split L p l :
  L !! p = Some l →
  ∃ R, Lanes.members L ≡ₚ l ++ R ∧
       ∀ l', Lanes.members (<[p := l']> L) ≡ₚ l' ++ R.
Proof.
  intros Hp. exists (concat (take p L) ++ concat (drop (S p) L)).
  unfold Lanes.members. split.
  - rewrite <- (take_drop_middle L p l Hp) at 1.
    rewrite concat_app. simpl. rewrite !app_assoc. f_equiv. apply Permutation_app_comm.
  - intros l'. rewrite insert_take_drop by by eapply lookup_lt_Some.
    rewrite concat_app. simpl. rewrite !app_assoc. f_equiv. apply Permutation_app_comm.
Qed.

Lemma lane_some L p l : L !! p = Some l → Lanes.lane L p = l.
Proof. unfold Lanes.lane. by intros ->. Qed.

Lemma lane_in_members L p x : x ∈ Lanes.lane L p → x ∈ Lanes.members L.
Proof.
  unfold Lanes.lane. destruct (L !! p) as [l|] eqn:E; simpl; [|by intros ?%elem_of_nil].
  intros Hx. destruct (members_split L p l E) as (R & HR & _). rewrite HR. set_solver.
Qed.

Lemma lane_insert_lanes L p n l' :
  (p < length L)%nat →
  Lanes.lane (<[p := l']> L) n = if decide (n = p) then l' else Lanes.lane L n.
Proof.
  intros Hp. unfold Lanes.lane. case_decide as Hn; [subst|].
  - by rewrite list_lookup_insert_eq.
  - by rewrite list_lookup_insert_ne by done.
Qed.

Lemma lanes_insert_perm L p x :
  (p < length L)%nat → Lanes.members (Lanes.insert p x L) ≡ₚ x :: Lanes.members L.
Proof.
  intros Hp. destruct (lookup_lt_is_Some_2 L p Hp) as [l Hl].
  destruct (members_split L p l Hl) as (R & HR & Hupd).
  unfold Lanes.insert. rewrite (lane_some _ _ _ Hl), Hupd, HR.
  rewrite <- app_assoc. simpl. by rewrite Permutation_middle.
Qed.

Lemma lanes_disjoint L p p' l l' x :
  NoDup (Lanes.members L) → L !! p = Some l → L !! p' = Some l' → p ≠ p' →
  x ∈ l → x ∉ l'.
Proof.
  intros Hnd Hp Hp' Hne Hx Hx'. destruct (members_split L p l Hp) as (R & HR & Hupd).
  rewrite HR in Hnd. apply NoDup_app in Hnd as (_ & Hd & _). apply (Hd x Hx).
  specialize (Hupd []). simpl in Hupd. rewrite <- Hupd.
  apply (lane_in_members _ p'). unfold Lanes.lane. by rewrite list_lookup_insert_ne, Hp'.
Qed.

Lemma lane_nodup L p l : NoDup (Lanes.members L) → L !! p = Some l → NoDup l.
Proof.
  intros Hnd Hp. destruct (members_split L p l Hp) as (R & HR & _).
  rewrite HR in Hnd. by apply NoDup_app in Hnd as (? & _).
Qed.

Lemma highest_some L p :
  Lanes.highest L = Some p ↔
  nonempty (Lanes.lane L p) = true ∧
  (∀ n, (p < n)%nat → nonempty (Lanes.lane L n) = false).
Proof.
  revert p. induction L as [|l L IH]; intros p; simpl.
  - split; [done|]. intros [H _]. by destruct p.
  - assert (Hlane : ∀ n, Lanes.lane (l :: L) (S n) = Lanes.lane L n) by done.
    destruct (Lanes.highest L) as [k|] eqn:E.
    + destruct (proj1 (IH k) eq_refl) as [Hk Hgt]. split.
      * intros [= <-]. split; [done|]. intros [|n] Hn; [lia|]. apply Hgt. lia.
      * intros [Hp Hn]. destruct (lt_eq_lt_dec p (S k)) as [[?| ->]|?]; [|done|].
        -- specialize (Hn (S k)). rewrite Hlane in Hn. rewrite Hn in Hk; [done|lia].
        -- destruct p as [|p]; [lia|]. rewrite Hlane in Hp. by rewrite Hgt in Hp by lia.
    + assert (Hall : ∀ n, nonempty (Lanes.lane L n) = false).
      { intros n. destruct (nonempty (Lanes.lane L n)) eqn:En; [|done]. exfalso.
        clear Hlane IH p. revert n E En. induction L as [|l' L IH]; intros n E En; simpl in *.
        - by destruct n.
        - destruct (Lanes.highest L); [done|]. destruct l'; [|done].
          destruct n as [|n]; [done|]. by apply (IH n). }
      destruct l as [|x l].
      * split; [done|]. intros [Hp _]. destruct p as [|p]; [done|]. by rewrite Hlane, Hall in Hp.
      * split.
        -- intros [= <-]. split; [done|]. intros [|n] ?; [lia|]. apply Hall.
        -- intros [Hp _]. destruct p as [|p]; [done|]. by rewrite Hlane, Hall in Hp.
Qed.

Lemma highest_none L :
  Lanes.highest L = None ↔ ∀ n, nonempty (Lanes.lane L n) = false.
Proof.
  induction L as [|l L IH]; simpl; [by split; [intros _ []|]|].
  destruct (Lanes.highest L) as [k|] eqn:E.
  - split; [done|]. intros H. apply highest_some in E as [E _].
    specialize (H (S k)). unfold Lanes.lane in *. simpl in H. by rewrite H in E.
  - destruct IH as [IH _]. specialize (IH eq_refl). destruct l as [|x l].
    + split; [|done]. intros _ [|n]; [done|]. apply IH.
    + split; [done|]. intros H. by specialize (H O).
Qed.

Lemma members_nil L : (∀ n, nonempty (Lanes.lane L n) = false) → Lanes.members L = [].
Proof.
  unfold Lanes.members. induction L as [|l L IH]; intros H; [done|]. simpl.
  pose proof (H O) as H0. unfold Lanes.lane in H0. simpl in H0. destruct l; [|done].
  apply IH. intros n. apply (H (S n)).
Qed.
End LanesFacts.

(** ** Framing *)

Lemma node_prio_insert h p y x t t' :
  h !! x = Some t → priority t' = priority t → node_prio h p y → node_prio (<[x := t']> h) p y.
Proof.
  intros Hx Hp (t0 & Ht0 & Hp0). destruct (decide (x = y)) as [->|].
  - exists t'. rewrite lookup_insert_eq. split; congruence.
  - exists t0. by rewrite lookup_insert_ne.
Qed.

Lemma lane_ok_insert_ne h p l x t : x ∉ l → lane_ok h p l → lane_ok (<[x := t]> h) p l.
Proof.
  intros Hx [Hl Hp]. split; [by apply lseg_insert_ne|].
  rewrite Forall_forall in *. intros y Hy. destruct (Hp y Hy) as (t0 & Ht0 & ?).
  exists t0. rewrite lookup_insert_ne; [done|]. set_solver.
Qed.

Lemma lane_ok_delete_ne h p l x : x ∉ l → lane_ok h p l → lane_ok (delete x h) p l.
Proof.
  intros Hx [Hl Hp]. split; [by apply lseg_delete_ne|].
  rewrite Forall_forall in *. intros y Hy. destruct (Hp y Hy) as (t0 & Ht0 & ?).
  exists t0. rewrite lookup_delete_ne; [done|]. set_solver.
Qed.

(** A lane only depends on its own nodes. *)
Lemma lane_ok_agree h h' p l :
  (∀ x, x ∈ l → h' !! x = h !! x) → lane_ok h p l → lane_ok h' p l.
Proof.
  intros Hs [Hseg Hpr]. split.
  - clear Hpr. revert Hseg Hs. induction l as [|y l IH]; [done|]. simpl.
    intros [(t & Ht & Hn) Hl] Hs. split.
    + exists t. rewrite Hs by left. done.
    + apply IH; [done|]. intros x Hx. apply Hs. by right.
  - rewrite Forall_forall in *. intros x Hx. destruct (Hpr x Hx) as (t & ? & ?).
    exists t. by rewrite Hs.
Qed.

Lemma lookup_lane_members L p l (x : loc) :
  L !! p = Some l → x ∉ Lanes.members L → x ∉ l.
Proof. intros Hp Hx Hin. apply Hx, (lane_in_members _ p). by rewrite (lane_some _ _ _ Hp). Qed.

(** Nodes outside the queue may be written, freed or allocated. *)
Lemma pq_repr_insert h q L x t :
  x ∉ Lanes.members L → pq_repr h q L → pq_repr (<[x := t]> h) q L.
Proof.
  intros Hx [? ? ? Hl ? ? ? ? ?]. split; try done.
  intros p l Hp. apply lane_ok_insert_ne; [|by apply Hl]. by eapply lookup_lane_members.
Qed.

Lemma pq_repr_delete h q L x :
  x ∉ Lanes.members L → pq_repr h q L → pq_repr (delete x h) q L.
Proof.
  intros Hx [? ? ? Hl ? ? ? ? ?]. split; try done.
  intros p l Hp. apply lane_ok_delete_ne; [|by apply Hl]. by eapply lookup_lane_members.
Qed.

Lemma pq_repr_set_max h q L m : pq_repr h q L → pq_repr h (set_max m q) L.
Proof. intros []. by split. Qed.

Lemma pq_repr_elem h q L x : pq_repr h q L → x ∈ Lanes.members L → is_Some (h !! x).
Proof.
  intros Hr Hx. unfold Lanes.members in Hx.
  apply list_elem_of_In, in_concat in Hx as (l & Hl%list_elem_of_In & Hx%list_elem_of_In).
  apply list_elem_of_lookup in Hl as (p & Hp). destruct (r_lane _ _ _ Hr p l Hp).
  by eapply lseg_elem.
Qed.

(** A queued node has the priority of its lane. *)
Lemma pq_repr_prio h q L x t :
  pq_repr h q L → x ∈ Lanes.members L → h !! x = Some t → 0 ≤ priority t < NUM_PRIORITIES.
Proof.
  intros Hr Hx Ht. unfold Lanes.members in Hx.
  apply list_elem_of_In, in_concat in Hx as (l & Hl%list_elem_of_In & Hx%list_elem_of_In).
  apply list_elem_of_lookup in Hl as (p & Hp). destruct (r_lane _ _ _ Hr p l Hp) as [_ Hpr].
  rewrite Forall_forall in Hpr. destruct (Hpr x Hx) as (t0 & Ht0 & Hp0).
  apply lookup_lt_Some in Hp. rewrite (r_len _ _ _ Hr) in Hp. unfold NUM_PRIORITIES, PRIORITY_COUNT in *.
  simplify_eq. lia.
Qed.

(** ** Facts of a represented queue *)
Section ReprFacts.
Context {h : gmap loc task_t} {q : priority_queue_t} {L : Lanes.t}.
Hypothesis Hr : pq_repr h q L.

Lemma repr_len3 : length L = 3%nat.
Proof. apply (r_len _ _ _ Hr). Qed.

Lemma repr_lookup p : (p < 3)%nat → ∃ l, L !! p = Some l.
Proof. intros Hp. apply lookup_lt_is_Some_2. by rewrite repr_len3. Qed.

Lemma repr_head p l : L !! p = Some l → heads q !! p = Some (head l).
Proof. intros Hp. by rewrite (r_heads _ _ _ Hr), list_lookup_fmap, Hp. Qed.

Lemma repr_tail p l : L !! p = Some l → tails q !! p = Some (last l).
Proof. intros Hp. by rewrite (r_tails _ _ _ Hr), list_lookup_fmap, Hp. Qed.

Lemma repr_heads_len : length (heads q) = 3%nat.
Proof. by rewrite (r_heads _ _ _ Hr), length_fmap, repr_len3. Qed.
Lemma repr_tails_len : length (tails q) = 3%nat.
Proof. by rewrite (r_tails _ _ _ Hr), length_fmap, repr_len3. Qed.

Lemma lane_high p : (3 ≤ p)%nat → Lanes.lane L p = [].
Proof.
  intros Hp. unfold Lanes.lane. rewrite lookup_ge_None_2; [done|]. by rewrite repr_len3.
Qed.

Lemma repr_mask_32 n :
  Z.testbit (ready_mask q) (Z.of_nat n)
  = (Z.of_nat n <? 32) && Z.testbit (ready_mask q) (Z.of_nat n).
Proof.
  destruct (Z.ltb_spec (Z.of_nat n) 32); [done|]. simpl.
  by rewrite (r_mask _ _ _ Hr), lane_high by lia.
Qed.

Lemma repr_mask_bound : ready_mask q < 2 ^ 32.
Proof.
  pose proof (r_mask_pos _ _ _ Hr).
  destruct (decide (ready_mask q = 0)) as [->|]; [lia|].
  apply Z.log2_lt_pow2; [lia|].
  destruct (Z.lt_ge_cases (Z.log2 (ready_mask q)) 32) as [|Hge]; [done|].
  pose proof (Z.bit_log2 (ready_mask q)) as Hb.
  pose proof (r_mask _ _ _ Hr (Z.to_nat (Z.log2 (ready_mask q)))) as Hm.
  rewrite Z2Nat.id, Hb in Hm by lia. rewrite lane_high in Hm by lia. done.
Qed.

(** The mask is zero exactly when no node waits. *)
Lemma repr_mask_zero : ready_mask q = 0 ↔ Lanes.members L = [].
Proof.
  split.
  - intros H0. apply members_nil. intros n. by rewrite <- (r_mask _ _ _ Hr), H0, Z.bits_0.
  - intros Hm. destruct (decide (ready_mask q = 0)) as [|Hnz]; [done|]. exfalso.
    pose proof (r_mask_pos _ _ _ Hr).
    pose proof (Z.bit_log2 (ready_mask q)) as Hb.
    pose proof (r_mask _ _ _ Hr (Z.to_nat (Z.log2 (ready_mask q)))) as Hl.
    rewrite Z2Nat.id, Hb in Hl by (try apply Z.log2_nonneg; lia).
    destruct (Lanes.lane L _) as [|x l] eqn:E; [done|].
    assert (x ∈ Lanes.members L) as Hx by (eapply lane_in_members; rewrite E; left).
    rewrite Hm in Hx. by apply elem_of_nil in Hx.
Qed.

(** The bit scan finds the highest non-empty lane. *)
Lemma repr_highest :
  ready_mask q ≠ 0 →
  ∃ p, Lanes.highest L = Some p ∧ (p < 3)%nat ∧
       _get_highest_priority (ready_mask q) = Ok (Z.of_nat p).
Proof.
  intros Hnz. pose proof (r_mask_pos _ _ _ Hr). pose proof repr_mask_bound.
  exists (Z.to_nat (Z.log2 (ready_mask q))).
  rewrite get_highest_log2 by lia. rewrite Z2Nat.id by apply Z.log2_nonneg.
  assert (Hh : Lanes.highest L = Some (Z.to_nat (Z.log2 (ready_mask q)))).
  { apply highest_some. rewrite <- (r_mask _ _ _ Hr), Z2Nat.id by apply Z.log2_nonneg.
    split; [apply Z.bit_log2; lia|]. intros n Hn.
    rewrite <- (r_mask _ _ _ Hr). apply Z.bits_above_log2; lia. }
  split; [done|]. split; [|done]. apply highest_some in Hh as [Hh _].
  destruct (decide (3 ≤ Z.to_nat (Z.log2 (ready_mask q)))%nat) as [Hge|]; [|lia].
  by rewrite lane_high in Hh.
Qed.
End ReprFacts.

Lemma i32_prio (p : nat) : (p < 3)%nat → i32 (Z.of_nat p) = Z.of_nat p.
Proof. intros. apply i32_small. lia. Qed.

Lemma last_inv (l : list loc) y : last l = Some y → ∃ l0, l = l0 ++ [y].
Proof.
  intros H. destruct (last_Some l y) as [[l0 ->] _]; eauto.
Qed.

(** Only links change. *)
Definition same_nodes (h h' : gmap loc task_t) : Prop := strip <$> h' = strip <$> h.

Lemma same_nodes_insert h x t t' :
  h !! x = Some t → strip t' = strip t → same_nodes h (<[x := t']> h).
Proof.
  intros Hx Hs. unfold same_nodes. rewrite fmap_insert, Hs. apply insert_id.
  by rewrite lookup_fmap, Hx.
Qed.

Lemma same_nodes_trans h1 h2 h3 : same_nodes h1 h2 → same_nodes h2 h3 → same_nodes h1 h3.
Proof. unfold same_nodes. congruence. Qed.

(** ** [_pq_insert_locked] appends to the lane of the task's priority *)

(** The heap after insertion: the new node ends its lane. *)
Definition heap_insert (h : gmap loc task_t) (x : loc) (t : task_t) (l : list loc)
    : gmap loc task_t :=
  let h1 := <[x := set_next None t]> h in
  match last l with
  | None => h1
  | Some y => match h1 !! y with
              | Some ty => <[y := set_next (Some x) ty]> h1
              | None => h1
              end
  end.

Definition pq_insert (q : priority_queue_t) (x : loc) (p : nat) (L : Lanes.t)
    : priority_queue_t :=
  mk_pq (head <$> Lanes.insert p x L) (last <$> Lanes.insert p x L)
    (mask_set (ready_mask q) (Z.of_nat p)) (u64 (size q + 1)) (u64 (depth q + 1))
    (max_tasks q).

Lemma insert_locked_run h q L x t p l :
  pq_repr h q L → h !! x = Some t → x ∉ Lanes.members L →
  priority t = Z.of_nat p → L !! p = Some l →
  _pq_insert_locked x (h, q) = Ok (tt, (heap_insert h x t l, pq_insert q x p L)).
Proof.
  intros Hr Hx Hnin Hp Hl.
  assert (Hp3 : (p < 3)%nat) by (rewrite <- (repr_len3 Hr); by eapply lookup_lt_Some).
  unfold _pq_insert_locked. mstep. rewrite Hp, i32_prio by done.
  mstep. erewrite M_bind_ok; [|apply get_tail_ok; by eapply repr_tail]. cbv beta.
  pose proof (repr_heads_len Hr). pose proof (repr_tails_len Hr).
  assert (HL : (p < length L)%nat) by (rewrite (repr_len3 Hr); lia).
  unfold heap_insert, pq_insert, Lanes.insert.
  rewrite (lane_some _ _ _ Hl), !list_fmap_insert, <- (r_heads _ _ _ Hr), <- (r_tails _ _ _ Hr).
  destruct (last l) as [y|] eqn:El.
  - destruct (last_inv _ _ El) as [l0 ->].
    assert (y ≠ x).
    { intros ->. apply Hnin, (lane_in_members _ p). rewrite (lane_some _ _ _ Hl). set_solver. }
    destruct (pq_repr_elem h q L y Hr) as [ty Hty].
    { apply (lane_in_members _ p). rewrite (lane_some _ _ _ Hl). set_solver. }
    rewrite lookup_insert_ne, Hty by done.
    erewrite M_bind_ok; cycle 1.
    { erewrite M_bind_ok; [|apply load_task_ok; by rewrite lookup_insert_ne]. cbv beta.
      erewrite M_bind_ok; [|eapply store_task_ok; by rewrite lookup_insert_ne]. cbv beta.
      apply put_tail_ok. lia. }
    cbv beta. rewrite last_snoc, (list_insert_id (heads q)); [done|].
    rewrite (repr_head Hr _ _ Hl). by destruct l0.
  - apply last_None in El as ->. simpl.
    erewrite M_bind_ok; cycle 1.
    { erewrite M_bind_ok; [|apply put_tail_ok; lia]. cbv beta. apply put_head_ok. simpl. lia. }
    done.
Qed.

Lemma heap_insert_same h x t l :
  h !! x = Some t → same_nodes h (heap_insert h x t l).
Proof.
  intros Hx. unfold heap_insert.
  assert (H1 : same_nodes h (<[x := set_next None t]> h)) by by eapply same_nodes_insert.
  destruct (last l) as [y|]; [|done]. destruct (_ !! y) as [ty|] eqn:Hy; [|done].
  eapply same_nodes_trans; [done|]. by eapply same_nodes_insert.
Qed.

Lemma heap_insert_lane h x t l p :
  lane_ok h p l → x ∉ l → NoDup l → priority t = Z.of_nat p →
  lane_ok (heap_insert h x t l) p (l ++ [x]).
Proof.
  intros [Hseg Hprio] Hx Hnd Hp. unfold heap_insert.
  assert (Hxn : node_prio (<[x := set_next None t]> h) p x).
  { exists (set_next None t). by rewrite lookup_insert_eq. }
  destruct (lane_ok_insert_ne h p l x (set_next None t) Hx (conj Hseg Hprio)) as [Hseg1 Hprio1].
  destruct (last l) as [y|] eqn:El.
  - destruct (last_inv _ _ El) as [l0 ->].
    assert (y ≠ x) by set_solver.
    destruct (lseg_elem _ _ _ y Hseg1) as [ty Hty]; [set_solver|]. rewrite Hty.
    assert (Hend : next ty = None).
    { apply lseg_app in Hseg1 as [_ [(t' & Ht' & Hn) _]]. rewrite Hty in Ht'. by simplify_eq. }
    split.
    + apply lseg_app. split.
      * apply (lseg_set_end _ _ _ None); try done. by apply lseg_nodup_snoc.
      * simpl. split; [|done]. exists (set_next None t).
        by rewrite lookup_insert_ne, lookup_insert_eq.
    + apply Forall_app; split; [|constructor; [|constructor]].
      * eapply Forall_impl; [exact Hprio1|]. intros z. by eapply node_prio_insert.
      * by eapply node_prio_insert.
  - apply last_None in El as ->. simpl. split.
    + simpl. split; [|done]. exists (set_next None t). by rewrite lookup_insert_eq.
    + constructor; [done|constructor].
Qed.

Lemma heap_insert_other h x t l p' l' :
  lane_ok h p' l' → x ∉ l' → (∀ y, last l = Some y → y ∉ l') →
  lane_ok (heap_insert h x t l) p' l'.
Proof.
  intros Hl Hx Hlast. unfold heap_insert.
  assert (lane_ok (<[x := set_next None t]> h) p' l') by by apply lane_ok_insert_ne.
  destruct (last l) as [y|]; [|done]. destruct (_ !! y); [|done].
  apply lane_ok_insert_ne; auto.
Qed.

(** Insertion refines [Lanes.insert]: it cannot fault, only links change, and
    the node is last in the lane of its priority. *)
Lemma insert_locked_refines h q L x t p :
  pq_repr h q L → h !! x = Some t → x ∉ Lanes.members L →
  priority t = Z.of_nat p → (p < 3)%nat →
  ∃ h' q', _pq_insert_locked x (h, q) = Ok (tt, (h', q')) ∧
    pq_repr h' q' (Lanes.insert p x L) ∧ same_nodes h h' ∧ max_tasks q' = max_tasks q.
Proof.
  intros Hr Hx Hnin Hp Hp3. destruct (repr_lookup Hr p Hp3) as [l Hl].
  exists (heap_insert h x t l), (pq_insert q x p L).
  split; [by apply (insert_locked_run h q L x t p l)|].
  split; [|split; [by apply heap_insert_same|done]].
  assert (HL : (p < length L)%nat) by by eapply lookup_lt_Some.
  pose proof (r_nodup _ _ _ Hr) as Hnd.
  pose proof (lanes_insert_perm L p x HL) as Hmem.
  split; simpl; try done.
  - unfold Lanes.insert. by rewrite length_insert, (r_len _ _ _ Hr).
  - intros p' l' Hp'. unfold Lanes.insert in Hp'. rewrite (lane_some _ _ _ Hl) in Hp'.
    destruct (decide (p = p')) as [<-|Hne].
    + rewrite list_lookup_insert_eq in Hp' by done. simplify_eq.
      apply heap_insert_lane; [by apply (r_lane _ _ _ Hr)| |by eapply lane_nodup|done].
      by eapply lookup_lane_members.
    + rewrite list_lookup_insert_ne in Hp' by done.
      apply heap_insert_other; [by apply (r_lane _ _ _ Hr)|by eapply lookup_lane_members|].
      intros y Hy. destruct (last_inv _ _ Hy) as [l0 ->].
      eapply (lanes_disjoint L p p'); [done..|]. set_solver.
  - apply mask_set_pos.
  - intros n. rewrite mask_set_bits by (try lia; by apply (repr_mask_32 Hr)).
    rewrite (r_mask _ _ _ Hr). unfold Lanes.insert. rewrite lane_insert_lanes by done.
    case_bool_decide; case_decide; try done. simpl. by destruct (Lanes.lane L p).
  - rewrite (r_size _ _ _ Hr), u64_add_l, Hmem. simpl. f_equal. lia.
  - by rewrite (r_depth _ _ _ Hr).
  - rewrite Hmem. by constructor.
Qed.

(** ** [_pq_pop_locked] takes the first node of a lane *)

Definition pq_popped (q : priority_queue_t) (p : nat) (l : list loc) (L : Lanes.t)
    : priority_queue_t :=
  mk_pq (head <$> <[p := l]> L) (last <$> <[p := l]> L)
    (if nonempty l then ready_mask q else mask_clear (ready_mask q) (Z.of_nat p))
    (u64 (size q - 1)) (u64 (depth q - 1)) (max_tasks q).

Lemma pop_locked_run h q L p x l :
  pq_repr h q L → L !! p = Some (x :: l) →
  ∃ t, h !! x = Some t ∧
    _pq_pop_locked (Z.of_nat p) (h, q)
    = Ok (Some x, (<[x := set_next None t]> h, pq_popped q p l L)).
Proof.
  intros Hr Hl. destruct (r_lane _ _ _ Hr p _ Hl) as [[(t & Ht & Hn) _] _].
  exists t. split; [done|]. rewrite hd_or_head in Hn.
  assert (Hp3 : (p < 3)%nat) by (rewrite <- (repr_len3 Hr); by eapply lookup_lt_Some).
  pose proof (repr_heads_len Hr). pose proof (repr_tails_len Hr).
  unfold _pq_pop_locked, pq_popped.
  erewrite M_bind_ok; [|apply get_head_ok; by eapply repr_head]. cbv beta. simpl head.
  mstep. erewrite M_bind_ok; [|apply put_head_ok; lia]. cbv beta.
  rewrite !list_fmap_insert, <- (r_heads _ _ _ Hr), <- (r_tails _ _ _ Hr), Hn.
  destruct l as [|y l]; cbn [head hd_error nonempty last].
  - erewrite M_bind_ok; cycle 1.
    { erewrite M_bind_ok; [|apply put_tail_ok; simpl; lia]. apply upd_pq_ok. }
    cbv beta. mstep. done.
  - mstep. mstep. rewrite (list_insert_id (tails q)); [done|].
    by rewrite (repr_tail Hr _ _ Hl).
Qed.

(** Popping refines [Lanes.pop]'s lane step: the first node leaves, detached. *)
Lemma pop_locked_refines h q L p x l :
  pq_repr h q L → L !! p = Some (x :: l) →
  ∃ h' q', _pq_pop_locked (Z.of_nat p) (h, q) = Ok (Some x, (h', q')) ∧
    pq_repr h' q' (<[p := l]> L) ∧ same_nodes h h' ∧ max_tasks q' = max_tasks q ∧
    (∃ t, h' !! x = Some t ∧ next t = None ∧ priority t = Z.of_nat p).
Proof.
  intros Hr Hl. destruct (pop_locked_run h q L p x l Hr Hl) as (t & Ht & Hrun).
  eexists _, _. split; [exact Hrun|].
  assert (HL : (p < length L)%nat) by by eapply lookup_lt_Some.
  assert (Hp3 : (p < 3)%nat) by (rewrite <- (repr_len3 Hr); done).
  pose proof (r_nodup _ _ _ Hr) as Hnd.
  destruct (members_split L p _ Hl) as (R & HR & Hupd).
  assert (Hnd' : NoDup (x :: l)) by by eapply lane_nodup.
  apply NoDup_cons in Hnd' as [Hxl _].
  split; [|split; [by eapply same_nodes_insert|split; [done|]]].
  2:{ exists (set_next None t). rewrite lookup_insert_eq. split; [done|]. split; [done|].
      destruct (r_lane _ _ _ Hr p _ Hl) as [_ Hpr]. apply Forall_cons in Hpr as [(t' & Ht' & ?) _].
      by simplify_eq. }
  split; simpl; try done.
  - by rewrite length_insert, (r_len _ _ _ Hr).
  - intros p' l' Hp'. destruct (decide (p = p')) as [<-|Hne].
    + rewrite list_lookup_insert_eq in Hp' by done. simplify_eq.
      apply lane_ok_insert_ne; [done|]. destruct (r_lane _ _ _ Hr p _ Hl) as [[_ ?] Hpr].
      by apply Forall_cons in Hpr as [_ ?].
    + rewrite list_lookup_insert_ne in Hp' by done.
      apply lane_ok_insert_ne; [|by apply (r_lane _ _ _ Hr)].
      eapply (lanes_disjoint L p p'); [done..|]. left.
  - destruct (nonempty l); [apply (r_mask_pos _ _ _ Hr)|apply mask_clear_pos].
  - intros n. rewrite lane_insert_lanes by done. destruct (nonempty l) eqn:El.
    + rewrite (r_mask _ _ _ Hr). case_decide; [subst|done]. by rewrite (lane_some _ _ _ Hl), El.
    + rewrite mask_clear_bits by (try lia; by apply (repr_mask_32 Hr)).
      rewrite (r_mask _ _ _ Hr). case_bool_decide; case_decide; done.
  - rewrite (r_size _ _ _ Hr), u64_sub_l, HR, Hupd. simpl. f_equal. lia.
  - by rewrite (r_depth _ _ _ Hr).
  - rewrite HR in Hnd. rewrite Hupd. simpl in Hnd. by apply NoDup_cons in Hnd as [_ ?].
Qed.

(** The whole selection: bit scan and pop implement [Lanes.pop]. *)
Lemma pop_highest_refines h q L :
  pq_repr h q L → ready_mask q ≠ 0 →
  ∃ p x L' h' q',
    _get_highest_priority (ready_mask q) = Ok (Z.of_nat p) ∧
    _pq_pop_locked (Z.of_nat p) (h, q) = Ok (Some x, (h', q')) ∧
    Lanes.pop L = Some (x, L') ∧ pq_repr h' q' L' ∧ same_nodes h h' ∧
    max_tasks q' = max_tasks q ∧
    (∃ t, h' !! x = Some t ∧ next t = None ∧ priority t = Z.of_nat p).
Proof.
  intros Hr Hnz. destruct (repr_highest Hr Hnz) as (p & Hh & Hp3 & Hget).
  destruct (repr_lookup Hr p Hp3) as [l Hl].
  destruct (proj1 (highest_some L p) Hh) as [Hne _]. rewrite (lane_some _ _ _ Hl) in Hne.
  destruct l as [|x l]; [done|].
  destruct (pop_locked_refines h q L p x l Hr Hl) as (h' & q' & Hrun & Hr' & Hs & Hm & Ht).
  exists p, x, (<[p := l]> L), h', q'. split_and!; try done.
  unfold Lanes.pop. rewrite Hh. simpl. by rewrite (lane_some _ _ _ Hl).
Qed.

(** Popping removes exactly one member, the first of the highest lane. *)
Lemma lanes_pop_perm L x L' :
  Lanes.pop L = Some (x, L') → Lanes.members L ≡ₚ x :: Lanes.members L'.
Proof.
  unfold Lanes.pop. destruct (Lanes.highest L) as [p|] eqn:Hh; simpl; [|done].
  unfold Lanes.lane. destruct (L !! p) as [[|y l]|] eqn:Hl; simpl; try done.
  intros [= <- <-]. destruct (members_split L p _ Hl) as (R & HR & Hupd). by rewrite HR, Hupd.
Qed.

Lemma lanes_pop_none L : Lanes.pop L = None ↔ Lanes.members L = [].
Proof.
  unfold Lanes.pop. destruct (Lanes.highest L) as [p|] eqn:Hh; simpl.
  - destruct (proj1 (highest_some L p) Hh) as [Hne _].
    destruct (Lanes.lane L p) as [|x l] eqn:E; [done|]. split; [done|]. intros Hm.
    assert (x ∈ Lanes.members L) as Hx by (eapply lane_in_members; rewrite E; left).
    rewrite Hm in Hx. by apply elem_of_nil in Hx.
  - split; [|done]. intros _. apply members_nil. by apply highest_none.
Qed.
