(* ===== verification/QueueApi.v ===== *)
(** * QueueApi: the functions of include/priority_queue.h against the abstract queue

    Every function is run by one thread on a represented queue whose mutex is
    free; each theorem gives its result on every branch, that it cannot fault,
    that it releases the mutex, and what it signals. *)
From S2P Require Export QueueSpec.
Local Open Scope Z_scope.

(** A world at rest: the mutex is free and the queue represents [L]. *)
Definition at_rest (w : pq_world) (L : Lanes.t) : Prop :=
  w_mutex w = Unlocked ∧ pq_repr (w_store w).1 (w_store w).2 L.

Definition w_heap (w : pq_world) : gmap loc task_t := (w_store w).1.
Definition w_pq (w : pq_world) : priority_queue_t := (w_store w).2.

Lemma mutex_lock_ok s n :
  mutex_lock (mk_world s Unlocked n) = Ok (tt, mk_world s Locked n).
Proof. done. Qed.
Lemma mutex_unlock_ok s n :
  mutex_unlock (mk_world s Locked n) = Ok (tt, mk_world s Unlocked n).
Proof. done. Qed.
Lemma mutex_destroy_ok s n :
  mutex_destroy (mk_world s Unlocked n) = Ok (tt, mk_world s Destroyed n).
Proof. done. Qed.
Lemma cond_notify_ok s m n c :
  cond_notify c (mk_world s m n) = Ok (tt, mk_world s m (c :: n)).
Proof. done. Qed.
Lemma locked_ok {A} (f : QM A) s m n a s' :
  f s = Ok (a, s') → locked f (mk_world s m n) = Ok (a, mk_world s' m n).
Proof. intros H. unfold locked. simpl. by rewrite H. Qed.

#[export] Hint Resolve mutex_lock_ok mutex_unlock_ok mutex_destroy_ok cond_notify_ok locked_ok : mexec.

(** A valid new node for the queue: allocated, not queued, of a known priority. *)
Definition pushable (w : pq_world) (L : Lanes.t) (x : loc) (p : nat) : Prop :=
  (∃ t, w_heap w !! x = Some t ∧ priority t = Z.of_nat p) ∧
  (p < 3)%nat ∧ x ∉ Lanes.members L.

(** ** Push *)

Lemma pq_push_ok w L x p :
  at_rest w L → pushable w L x p →
  ∃ w', pq_push true (Some x) w = Ok (tt, w') ∧ at_rest w' (Lanes.insert p x L) ∧
    w_notes w' = Signalled :: w_notes w ∧ same_nodes (w_heap w) (w_heap w') ∧
    max_tasks (w_pq w') = max_tasks (w_pq w).
Proof.
  destruct w as [[h q] mu notes]. intros [Hm Hr] ((t & Ht & Hp) & Hp3 & Hx). simpl in *. subst mu.
  destruct (insert_locked_refines h q L x t p Hr Ht Hx Hp Hp3) as (h' & q' & Hrun & Hr' & Hs & Hmax).
  exists (mk_world (h', q') Unlocked (Signalled :: notes)).
  split; [|done]. unfold pq_push. mstep. mstep. mstep. done.
Qed.

(** [pq_try_push] admits a node exactly when the bound is off or not reached;
    a rejected push changes nothing. *)
Lemma pq_try_push_ok w L x p :
  at_rest w L → pushable w L x p →
  ∃ w', pq_try_push true (Some x) w = Ok (negb (at_capacity (w_pq w)), w') ∧
    if at_capacity (w_pq w) then w' = w
    else at_rest w' (Lanes.insert p x L) ∧ w_notes w' = Signalled :: w_notes w ∧
         same_nodes (w_heap w) (w_heap w') ∧ max_tasks (w_pq w') = max_tasks (w_pq w).
Proof.
  destruct w as [[h q] mu notes]. intros [Hm Hr] ((t & Ht & Hp) & Hp3 & Hx). simpl in *. subst mu.
  unfold pq_try_push, w_pq. simpl. destruct (at_capacity q) eqn:Hc.
  - eexists. split; [|done]. mstep. mstep. rewrite Hc. mstep. done.
  - destruct (insert_locked_refines h q L x t p Hr Ht Hx Hp Hp3)
      as (h' & q' & Hrun & Hr' & Hs & Hmax).
    exists (mk_world (h', q') Unlocked (Signalled :: notes)).
    split; [|done]. mstep. mstep. rewrite Hc. mstep. mstep. mstep. done.
Qed.

(** The capacity test reads the number of waiting nodes. *)
Lemma at_capacity_members h q L :
  pq_repr h q L → Z.of_nat (length (Lanes.members L)) < 2 ^ 64 →
  at_capacity q = bool_decide (max_tasks q ≠ 0 ∧ max_tasks q ≤ Z.of_nat (length (Lanes.members L))).
Proof.
  intros Hr Hlen. unfold at_capacity. rewrite (r_size _ _ _ Hr), u64_small by lia.
  symmetry. case_bool_decide; lia.
Qed.

(** ** Pop *)

Lemma pop_body_ok h q L notes :
  pq_repr h q L → ready_mask q ≠ 0 →
  ∃ x L' h' q',
    (p ← lift (_get_highest_priority (ready_mask q));
     task ← locked (_pq_pop_locked p);
     mutex_unlock;; mret task) (mk_world (h, q) Locked notes)
    = Ok (Some x, mk_world (h', q') Unlocked notes) ∧
    Lanes.pop L = Some (x, L') ∧ pq_repr h' q' L' ∧ same_nodes h h' ∧
    max_tasks q' = max_tasks q ∧
    (∃ t p, h' !! x = Some t ∧ next t = None ∧ priority t = Z.of_nat p).
Proof.
  intros Hr Hnz.
  destruct (pop_highest_refines h q L Hr Hnz)
    as (p & x & L' & h' & q' & Hget & Hrun & Hpop & Hr' & Hs & Hm & (t & Ht & Hn & Hp)).
  exists x, L', h', q'. split_and!; try done; [|by exists t, p].
  mstep. mstep. mstep. done.
Qed.

(** [pq_pop_nonblock]: [NULL] on an empty queue, else the first node of the
    highest lane, detached. *)
Lemma pq_pop_nonblock_ok w L :
  at_rest w L →
  match Lanes.pop L with
  | None => pq_pop_nonblock true w = Ok (None, w)
  | Some (x, L') => ∃ w', pq_pop_nonblock true w = Ok (Some x, w') ∧ at_rest w' L' ∧
      same_nodes (w_heap w) (w_heap w') ∧ w_notes w' = w_notes w ∧
      max_tasks (w_pq w') = max_tasks (w_pq w) ∧
      ∃ t, w_heap w' !! x = Some t ∧ next t = None
  end.
Proof.
  destruct w as [[h q] mu notes]. intros [Hm Hr]. simpl in *. subst mu.
  unfold pq_pop_nonblock. simpl.
  destruct (decide (ready_mask q = 0)) as [H0|Hnz].
  - assert (Lanes.pop L = None) as -> by by apply lanes_pop_none, (repr_mask_zero Hr).
    mstep. mstep. rewrite H0. simpl. mstep. done.
  - destruct (pop_body_ok h q L notes Hr Hnz)
      as (x & L' & h' & q' & Hrun & -> & Hr' & Hs & Hmax & (t & p & Ht & Hn & _)).
    exists (mk_world (h', q') Unlocked notes). split_and!; try done; [|by exists t].
    mstep. mstep. by replace (ready_mask q =? 0) with false by lia.
Qed.

(** ** The blocking pop

    [wakes] are the states found by successive returns of [pthread_cond_wait];
    other threads keep the representation. *)
Definition wakes_ok (wakes : list wakeup) (Ls : list Lanes.t) : Prop :=
  Forall2 (λ (wk : wakeup) L, pq_repr wk.1.1 wk.1.2 L) wakes Ls.

(** The abstract blocking pop over the queue contents seen at each wakeup. *)
Fixpoint pop_wait_spec (L : Lanes.t) (flag : option bool) (Ls : list (Lanes.t * option bool))
    : option (option (loc * Lanes.t)) :=
  match Lanes.pop L with
  | Some r => Some (Some r)
  | None =>
      if _shutdown_requested flag then Some None
      else match Ls with
           | [] => None
           | (L', flag') :: Ls' => pop_wait_spec L' flag' Ls'
           end
  end.

Lemma pop_wait_ok wakes h q L Ls flag notes :
  pq_repr h q L → wakes_ok wakes Ls →
  match pop_wait_spec L flag (zip Ls (snd <$> wakes)) with
  | None => pop_wait wakes flag (mk_world (h, q) Locked notes) = Blocks
  | Some None => ∃ s, pop_wait wakes flag (mk_world (h, q) Locked notes)
                   = Ok (None, mk_world s Unlocked notes)
  | Some (Some (x, L')) =>
      ∃ w', pop_wait wakes flag (mk_world (h, q) Locked notes) = Ok (Some x, w') ∧
        at_rest w' L' ∧ w_notes w' = notes ∧ ∃ t, w_heap w' !! x = Some t ∧ next t = None
  end.
Proof.
  intros Hr Hw. revert h q L flag Hr.
  induction Hw as [|[[hw qw] flagw] Lw wakes Ls Hrw Hw IH]; intros h q L flag Hr;
    (destruct (decide (ready_mask q = 0)) as [H0|Hnz];
     [ assert (Lanes.pop L = None) as Hp by by apply lanes_pop_none, (repr_mask_zero Hr)
     | destruct (pop_body_ok h q L notes Hr Hnz)
         as (x & L' & h' & q' & Hrun & Hp & Hr' & _ & _ & (t & p & Ht & Hn & _)) ]);
    cbn [pop_wait pop_wait_spec zip zip_with fmap list_fmap snd]; rewrite Hp.
  - destruct (_shutdown_requested flag) eqn:Ef.
    + eexists. mstep. rewrite H0. simpl. rewrite ?Ef. mstep. done.
    + mstep. rewrite H0. simpl. by rewrite ?Ef.
  - exists (mk_world (h', q') Unlocked notes). split_and!; try done; [|by exists t].
    mstep. by replace (ready_mask q =? 0) with false by lia.
  - destruct (_shutdown_requested flag) eqn:Ef.
    + eexists. mstep. rewrite H0. simpl. rewrite ?Ef. mstep. done.
    + erewrite M_bind_ok; [|by apply locked_ok, get_pq_ok]. cbv beta.
      rewrite H0, Z.eqb_refl. mstep. apply IH, Hrw.
  - exists (mk_world (h', q') Unlocked notes). split_and!; try done; [|by exists t].
    mstep. by replace (ready_mask q =? 0) with false by lia.
Qed.

(** ** Order of service: filling a queue and draining it *)

(** Pushes the nodes of a list one after the other. *)
Fixpoint push_all (xs : list loc) : WM unit :=
  match xs with
  | [] => mret tt
  | x :: xs' => pq_push true (Some x);; push_all xs'
  end.

(** Pops until [NULL], as the tests and [tearDown] do; returns the nodes in the
    order they came out. *)
Fixpoint drain (fuel : nat) : WM (list loc) :=
  match fuel with
  | O => fail OutOfFuel
  | S n => t ← pq_pop_nonblock true;
           match t with
           | None => mret []
           | Some x => xs ← drain n; mret (x :: xs)
           end
  end.

(** The order the lanes promise: highest lane first, FIFO inside a lane. *)
Definition service_order (L : Lanes.t) : list loc := concat (reverse L).

Lemma highest_split L p :
  Lanes.highest L = Some p →
  ∃ L1 x l k, L = L1 ++ (x :: l) :: replicate k [] ∧ length L1 = p.
Proof.
  revert p. induction L as [|l L IH]; intros p; simpl; [done|].
  destruct (Lanes.highest L) as [n|] eqn:E.
  - intros [= <-]. destruct (IH n eq_refl) as (L1 & x & l' & k & -> & <-).
    by exists (l :: L1), x, l', k.
  - destruct l as [|x l]; [done|]. intros [= <-].
    exists [], x, l, (length L). split; [|done]. simpl. f_equal.
    clear IH. induction L as [|l0 L IH]; [done|]. simpl in *.
    destruct (Lanes.highest L); [done|]. destruct l0; [|done]. by rewrite <- IH.
Qed.

Lemma concat_replicate_nil k : concat (replicate k ([] : list loc)) = [].
Proof. by induction k. Qed.

Lemma service_order_pop L x L' :
  Lanes.pop L = Some (x, L') → service_order L = x :: service_order L'.
Proof.
  unfold Lanes.pop. destruct (Lanes.highest L) as [p|] eqn:Hh; [|done]. simpl.
  destruct (highest_split L p Hh) as (L1 & y & l & k & -> & <-).
  unfold Lanes.lane. rewrite lookup_app_r, Nat.sub_diag by done. simpl.
  intros [= <- <-]. rewrite insert_app_r_alt, Nat.sub_diag by done. simpl.
  unfold service_order. rewrite !reverse_app, !reverse_cons, reverse_replicate, !concat_app.
  by rewrite !concat_replicate_nil.
Qed.

Lemma service_order_perm L : service_order L ≡ₚ Lanes.members L.
Proof. unfold service_order, Lanes.members. by rewrite reverse_Permutation. Qed.

Lemma service_order_nil L : Lanes.members L = [] → service_order L = [].
Proof. intros E. apply Permutation_nil_r. rewrite <- E. apply service_order_perm. Qed.

Lemma drain_ok n w L :
  at_rest w L → (length (Lanes.members L) < n)%nat →
  ∃ w' L', drain n w = Ok (service_order L, w') ∧ at_rest w' L' ∧ Lanes.members L' = [].
Proof.
  revert w L. induction n as [|n IH]; intros w L Hr Hlen; [lia|].
  pose proof (pq_pop_nonblock_ok w L Hr) as Hp. cbn [drain].
  destruct (Lanes.pop L) as [[x L']|] eqn:E.
  - destruct Hp as (w1 & Hrun & Hr1 & _).
    pose proof (lanes_pop_perm _ _ _ E) as Hperm.
    destruct (IH w1 L' Hr1) as (w2 & L2 & Hd & Hr2 & Hm2).
    { apply Permutation_length in Hperm. simpl in Hperm. lia. }
    exists w2, L2. split_and!; try done. mstep. mstep. by rewrite (service_order_pop L x L' E).
  - apply lanes_pop_none in E. exists w, L. split_and!; try done.
    mstep. rewrite service_order_nil by done. done.
Qed.

(** The priority a node was created with. *)
Definition prio_of (h : gmap loc task_t) (x : loc) : Z :=
  match h !! x with Some t => priority t | None => 0 end.

Lemma same_nodes_lookup h h' x t :
  same_nodes h h' → h !! x = Some t → ∃ t', h' !! x = Some t' ∧ strip t' = strip t.
Proof.
  intros Hs Hx. assert (H : (strip <$> h') !! x = (strip <$> h) !! x) by by rewrite Hs.
  rewrite !lookup_fmap, Hx in H. destruct (h' !! x) as [t'|]; [|done].
  exists t'. split; [done|]. by apply (inj Some) in H.
Qed.

Lemma strip_priority t t' : strip t = strip t' → priority t = priority t'.
Proof. destruct t, t'. by injection 1. Qed.

Lemma same_nodes_prio h h' x :
  same_nodes h h' → is_Some (h !! x) → prio_of h' x = prio_of h x.
Proof.
  intros Hs [t Ht]. destruct (same_nodes_lookup h h' x t Hs Ht) as (t' & Ht' & Hst).
  unfold prio_of. rewrite Ht, Ht'. by apply strip_priority.
Qed.

(** Pushing a batch appends, lane by lane, the nodes of that priority. *)
Definition push_spec (pr : loc → Z) (xs : list loc) (L : Lanes.t) : Lanes.t :=
  imap (λ p l, l ++ filter (λ x, pr x = Z.of_nat p) xs) L.

Definition batch_ok (w : pq_world) (L : Lanes.t) (xs : list loc) : Prop :=
  NoDup xs ∧ Forall (λ x, (is_Some (w_heap w !! x) ∧
                           0 ≤ prio_of (w_heap w) x < NUM_PRIORITIES) ∧
                          x ∉ Lanes.members L) xs.

Lemma lanes_insert_push (L : Lanes.t) (pr : loc → Z) p x xs :
  (p < length L)%nat → pr x = Z.of_nat p →
  push_spec pr xs (Lanes.insert p x L) = push_spec pr (x :: xs) L.
Proof.
  intros Hp Hx. apply list_eq. intros i. unfold push_spec, Lanes.insert.
  rewrite !list_lookup_imap. destruct (decide (i = p)) as [->|Hne].
  - rewrite list_lookup_insert_eq by done. unfold Lanes.lane.
    destruct (L !! p) as [l|] eqn:E; [|by apply lookup_ge_None in E; lia]. simpl.
    rewrite filter_cons_True by done. by rewrite <- app_assoc.
  - rewrite list_lookup_insert_ne by done. destruct (L !! i) as [l|]; [|done]. simpl.
    rewrite filter_cons_False; [done|]. rewrite Hx. lia.
Qed.

Lemma push_all_ok xs w L :
  at_rest w L → batch_ok w L xs →
  ∃ w', push_all xs w = Ok (tt, w') ∧
    at_rest w' (push_spec (prio_of (w_heap w)) xs L) ∧
    w_notes w' = replicate (length xs) Signalled ++ w_notes w.
Proof.
  revert w L. induction xs as [|x xs IH]; intros w L Hr [Hnd Hall].
  - exists w. split_and!; [done| |done]. replace (push_spec _ _ _) with L; [done|].
    apply list_eq. intros i. unfold push_spec. rewrite list_lookup_imap.
    destruct (L !! i); simpl; [by rewrite app_nil_r|done].
  - apply NoDup_cons in Hnd as [Hx Hnd].
    apply Forall_cons in Hall as [[[[t Ht] Hb] Hm] Hall].
    assert (Hpr : prio_of (w_heap w) x = priority t) by (unfold prio_of; by rewrite Ht).
    unfold NUM_PRIORITIES, PRIORITY_COUNT in Hb. set (p := Z.to_nat (priority t)).
    assert (Hp : priority t = Z.of_nat p) by (unfold p; lia).
    assert (Hp3 : (p < 3)%nat) by (unfold p; lia).
    destruct (pq_push_ok w L x p Hr) as (w1 & Hrun & Hr1 & Hn1 & Hs1 & _).
    { split; [by exists t|done]. }
    assert (Heq : ∀ y, y ∈ xs → prio_of (w_heap w1) y = prio_of (w_heap w) y).
    { intros y Hy. apply same_nodes_prio; [done|].
      rewrite Forall_forall in Hall. by apply Hall in Hy as [[? _] _]. }
    destruct (IH w1 (Lanes.insert p x L) Hr1) as (w2 & Hrun2 & Hr2 & Hn2).
    { split; [done|]. rewrite Forall_forall in *. intros y Hy.
      destruct (Hall y Hy) as [[[ty Hty] Hby] Hmy].
      destruct (same_nodes_lookup _ _ y ty Hs1 Hty) as (ty' & Hty' & _).
      rewrite Heq by done. split; [split; [by eexists|done]|].
      rewrite lanes_insert_perm by by rewrite (repr_len3 (proj2 Hr)).
      apply not_elem_of_cons. split; [|done]. by intros ->. }
    exists w2. split_and!.
    + cbn [push_all]. mstep. done.
    + rewrite <- lanes_insert_push with (p := p); [|by rewrite (repr_len3 (proj2 Hr))|lia].
      unfold push_spec in *. erewrite imap_ext; [exact Hr2|]. intros i l Hl. simpl. f_equal.
      clear -Heq. induction xs as [|y xs IH]; [done|].
      rewrite !filter_cons, Heq by left. rewrite IH; [done|]. intros z Hz. apply Heq. by right.
    + rewrite Hn2, Hn1. simpl. by rewrite app_comm_cons, replicate_cons_app, <- app_assoc.
Qed.

Lemma pq_zero_repr h : pq_repr h pq_zero Lanes.empty.
Proof.
  split; try done.
  - intros [|[|[|p]]] l Hl; simplify_eq/=; by repeat constructor.
  - intros n. rewrite Z.bits_0. by destruct n as [|[|[|n]]].
  - constructor.
Qed.

(** ** Destruction *)

(** [h'] is [h] with exactly the nodes of [l] freed. *)
Definition freed (h h' : gmap loc task_t) (l : list loc) : Prop :=
  ∀ y, h' !! y = if decide (y ∈ l) then None else h !! y.

Lemma freed_cons h h' x l : x ∉ l → freed (delete x h) h' l → freed h h' (x :: l).
Proof.
  intros Hx Hf y. rewrite Hf. destruct (decide (y = x)) as [->|].
  - rewrite decide_False, decide_True, lookup_delete_eq by (done || left). done.
  - rewrite lookup_delete_ne by done. destruct (decide (y ∈ l)).
    + rewrite decide_True; [done|]. by right.
    + rewrite decide_False; [done|]. by apply not_elem_of_cons.
Qed.

Lemma freed_app h h1 h2 l1 l2 : freed h h1 l1 → freed h1 h2 l2 → freed h h2 (l1 ++ l2).
Proof.
  intros H1 H2 y. rewrite H2, H1. destruct (decide (y ∈ l2)), (decide (y ∈ l1)), (decide (y ∈ l1 ++ l2)) as [Ha|Ha];
    rewrite elem_of_app in Ha; tauto.
Qed.

Lemma destroy_lane_ok fuel l h q :
  lseg h l None → NoDup l → (length l ≤ fuel)%nat →
  ∃ h', destroy_lane fuel (head l) (h, q) = Ok (tt, (h', q)) ∧ freed h h' l.
Proof.
  revert l h. induction fuel as [|fuel IH]; intros [|x l] h Hl Hnd Hf; simpl in Hf; try lia.
  - exists h. split; [done|]. intros y. by rewrite decide_False by apply not_elem_of_nil.
  - exists h. split; [done|]. intros y. by rewrite decide_False by apply not_elem_of_nil.
  - apply NoDup_cons in Hnd as [Hx Hnd]. destruct Hl as [(t & Ht & Hn) Hl].
    destruct (IH l (delete x h)) as (h' & Hrun & Hfr); [by apply lseg_delete_ne|done|lia|].
    exists h'. split; [|by apply freed_cons]. cbn [head hd_error destroy_lane].
    mstep. mstep. by rewrite Hn, hd_or_head.
Qed.

(** A lane has at most as many nodes as the heap. *)
Lemma lane_length_heap (h : gmap loc task_t) l e :
  lseg h l e → NoDup l → (length l ≤ base.size h)%nat.
Proof.
  intros Hl Hnd. rewrite <- size_dom, <- (size_list_to_set (C:=gset loc) l Hnd).
  apply subseteq_size. intros x Hx%elem_of_list_to_set. apply elem_of_dom. by eapply lseg_elem.
Qed.

Lemma lane_ok_freed h h' l p l' :
  freed h h' l → (∀ x, x ∈ l → x ∉ l') → lane_ok h p l' → lane_ok h' p l'.
Proof.
  intros Hf Hd. apply lane_ok_agree. intros x Hx. rewrite Hf, decide_False; [done|].
  intros ?. by eapply Hd.
Qed.

(** Clearing slot [p] and then the slots after it clears them all. *)
Lemma cleared_step (a a' : list ptr) (p n : nat) :
  (p < n)%nat → length a = n →
  (∀ i, a' !! i = if decide (S p ≤ i < n)%nat then Some None else <[p := None]> a !! i) →
  ∀ i, a' !! i = if decide (p ≤ i < n)%nat then Some None else a !! i.
Proof.
  intros Hp Hlen H i. rewrite H. destruct (decide (i = p)) as [->|].
  - rewrite decide_False, decide_True, list_lookup_insert_eq by lia. done.
  - rewrite list_lookup_insert_ne by done. destruct (decide (S p ≤ i < n)%nat);
      [rewrite decide_True by lia|rewrite decide_False by lia]; done.
Qed.

Lemma destroy_lanes_ok n p h q L :
  (p + n = length L)%nat → length (heads q) = length L → length (tails q) = length L →
  heads q = head <$> L →
  (∀ i l, (p ≤ i)%nat → L !! i = Some l → lane_ok h i l) → NoDup (concat (drop p L)) →
  ∃ h' q', destroy_lanes n (Z.of_nat p) (h, q) = Ok (tt, (h', q')) ∧
    freed h h' (concat (drop p L)) ∧
    (∀ i, heads q' !! i = if decide (p ≤ i < length L)%nat then Some None else heads q !! i) ∧
    (∀ i, tails q' !! i = if decide (p ≤ i < length L)%nat then Some None else tails q !! i) ∧
    max_tasks q' = max_tasks q.
Proof.
  revert p h q L. induction n as [|n IH]; intros p h q L Hpn Hh Ht Hheads Hl Hnd.
  - exists h, q. split; [done|]. rewrite drop_ge by lia.
    split_and!; [|intros i; by rewrite decide_False by lia..|done].
    intros y. by rewrite decide_False by apply not_elem_of_nil.
  - destruct (lookup_lt_is_Some_2 L p) as [l Hp]; [lia|].
    rewrite (drop_S L l p Hp) in Hnd |- *. simpl in Hnd |- *.
    apply NoDup_app in Hnd as (Hndl & Hdis & Hnd).
    destruct (Hl p l (le_n _) Hp) as [Hseg _].
    destruct (destroy_lane_ok (base.size h) l h q Hseg Hndl) as (h1 & Hrun1 & Hf1).
    { by eapply lane_length_heap. }
    assert (Hhp : heads q !! p = Some (head l)) by by rewrite Hheads, list_lookup_fmap, Hp.
    set (q1 := set_heads (<[p := None]> (heads q)) (set_tails (<[p := None]> (tails q)) q)).
    destruct (IH (S p) h1 q1 (<[p := []]> L)) as (h2 & q2 & Hrun2 & Hf2 & Hh2 & Ht2 & Hm2).
    { rewrite length_insert. lia. }
    { simpl. by rewrite !length_insert. }
    { simpl. by rewrite !length_insert. }
    { simpl. rewrite list_fmap_insert. by rewrite Hheads. }
    { intros i l' Hi Hil. rewrite list_lookup_insert_ne in Hil by lia.
      eapply lane_ok_freed; [done| |by apply Hl; [lia|]].
      intros x Hx Hx'. apply (Hdis x Hx). apply list_elem_of_In, in_concat.
      exists l'. split; [|by apply list_elem_of_In]. apply list_elem_of_In.
      apply (list_elem_of_lookup_2 _ (i - S p)%nat). rewrite lookup_drop.
      by replace (S p + (i - S p))%nat with i by lia. }
    { by rewrite drop_insert_lt by lia. }
    rewrite drop_insert_lt in Hf2 by lia. rewrite length_insert in Hh2, Ht2.
    exists h2, q2. split_and!; [| | | |done].
    + cbn [destroy_lanes]. erewrite M_bind_ok; [|by apply get_head_ok]. cbv beta.
      mstep. erewrite M_bind_ok; [|exact Hrun1]. cbv beta.
      erewrite M_bind_ok; [|apply put_tail_ok; lia]. cbv beta.
      erewrite M_bind_ok; [|apply put_head_ok; simpl; lia]. cbv beta.
      replace (Z.of_nat p + 1) with (Z.of_nat (S p)) by lia. exact Hrun2.
    + by eapply freed_app.
    + apply cleared_step with (a := heads q); [lia|done|exact Hh2].
    + apply cleared_step with (a := tails q); [lia|done|exact Ht2].
Qed.

(** The critical section of [pq_destroy]: exactly the queued nodes are freed, and
    the queue is empty again. *)
Lemma destroy_body_ok h q L :
  pq_repr h q L →
  ∃ h' q', (destroy_lanes (Z.to_nat NUM_PRIORITIES) 0;;
            upd_pq (λ q, set_depth 0 (set_mask 0 (set_size 0 q)))) (h, q) = Ok (tt, (h', q')) ∧
    freed h h' (Lanes.members L) ∧ pq_repr h' q' Lanes.empty ∧ max_tasks q' = max_tasks q.
Proof.
  intros Hr. pose proof (repr_len3 Hr) as HL.
  pose proof (repr_heads_len Hr) as Hh. pose proof (repr_tails_len Hr) as Ht.
  destruct (destroy_lanes_ok 3 0 h q L) as (h' & q' & Hrun & Hf & Hh' & Ht' & Hm); try done; try lia.
  { apply (r_heads _ _ _ Hr). }
  { intros i l _. apply (r_lane _ _ _ Hr). }
  { apply (r_nodup _ _ _ Hr). }
  exists h', (set_depth 0 (set_mask 0 (set_size 0 q'))).
  assert (Hnone : ∀ a a' : list ptr, length a = 3%nat →
    (∀ i, a' !! i = if decide (0 ≤ i < length L)%nat then Some None else a !! i) → a' = [None; None; None]).
  { intros a a' Ha H. apply list_eq. intros i. rewrite H, HL.
    destruct (decide (0 ≤ i < 3)%nat) as [?|Hi]; [by destruct i as [|[|[|]]]; try lia|].
    rewrite !lookup_ge_None_2; simpl; try lia. done. }
  split_and!; [|done| |done].
  - erewrite M_bind_ok; [|exact Hrun]. done.
  - pose proof (pq_zero_repr h') as Hz. destruct Hz as [? Hzh Hzt ? ? ? ? ? ?].
    split; try done; simpl.
    + apply (Hnone (heads q)); [lia|done].
    + apply (Hnone (tails q)); [lia|done].
Qed.

(** ** Queries *)

Lemma pq_size_ok w L :
  at_rest w L → Z.of_nat (length (Lanes.members L)) < 2 ^ 31 →
  pq_size true w = Ok (Z.of_nat (length (Lanes.members L)), w).
Proof.
  destruct w as [[h q] mu notes]. intros [Hm Hr] Hlen. simpl in *. subst mu.
  unfold pq_size. simpl. mstep. mstep. mstep. rewrite (r_size _ _ _ Hr), u64_small by lia.
  rewrite i32_small by lia. done.
Qed.

Lemma pq_is_empty_ok w L :
  at_rest w L →
  pq_is_empty true w = Ok (if decide (Lanes.members L = []) then 1 else 0, w).
Proof.
  destruct w as [[h q] mu notes]. intros [Hm Hr]. simpl in *. subst mu.
  unfold pq_is_empty. simpl. mstep. mstep. mstep. pose proof (repr_mask_zero Hr).
  destruct (Z.eqb_spec (ready_mask q) 0), (decide (Lanes.members L = [])); tauto.
Qed.
