(* ===== verification/Aging.v ===== *)
(** * Aging: the anti-starvation scheduler (src/priority_queue.c lines 232-310,
      [timespec_add_ms] of src/thread_pool.c)

    [pq_aging] moves the expired prefix of a lane to the front of the lane above.
    This file proves the time arithmetic exact within the range where the C
    [long] computations cannot overflow, and the pointer surgery equal to
    [Lanes.promote]. *)
From S2P Require Export QueueApi.
Local Open Scope Z_scope.

(** ** Time arithmetic *)

(** Nanoseconds denoted by a [timespec]. *)
Definition ts_ns (t : timespec) : Z := tv_sec t * NSEC_PER_SEC + tv_nsec t.

(** A clock reading: normalised, and less than 2^33 seconds (272 years) after
    the epoch of the clock. *)
Definition ts_ok (t : timespec) : Prop :=
  0 ≤ tv_sec t < 2 ^ 33 ∧ 0 ≤ tv_nsec t < NSEC_PER_SEC.

(** Thresholds whose nanosecond value is a [long]. *)
Definition ms_ok (ms : Z) : Prop := 0 < ms ∧ ms * NSEC_PER_MSEC < 2 ^ 63.

(** The exact expiry test; a zero submit time marks a task submitted while aging
    was off, which never expires. *)
Definition expired (start now : timespec) (ms : Z) : bool :=
  negb ((tv_sec start =? 0) && (tv_nsec start =? 0)) &&
  (ms * NSEC_PER_MSEC <=? ts_ns now - ts_ns start).

Lemma has_passed_ms_ok start now ms :
  ts_ok start → ts_ok now → ms_ok ms →
  has_passed_ms start now ms = Ok (expired start now ms).
Proof.
  destruct start as [s1 n1], now as [s2 n2].
  unfold ts_ok, ms_ok, has_passed_ms, expired, ts_ns, NSEC_PER_SEC, NSEC_PER_MSEC. simpl.
  intros [Hs1 Hn1] [Hs2 Hn2] [Hm1 Hm2].
  destruct ((s1 =? 0) && (n1 =? 0)); [done|].
  unfold mbind, res_bind. rewrite !(chk_i64_ok (s2 - s1)), !(chk_i64_ok (n2 - n1)) by lia.
  destruct (Z.ltb_spec (n2 - n1) 0).
  - rewrite !chk_i64_ok by lia. simpl. f_equal. f_equal. lia.
  - rewrite !chk_i64_ok by lia. simpl. f_equal. f_equal. lia.
Qed.

(** [timespec_add_ms] of src/thread_pool.c: the absolute wake time of the aging
    worker.  C division truncates; [ms] is positive where it is reached. *)
Definition timespec_add_ms (ts : timespec) (ms : Z) : res timespec :=
  if ms <=? 0 then Ok ts
  else
    sec ← chk_i64 (tv_sec ts + Z.quot ms 1000);
    part ← chk_i64 (Z.rem ms 1000 * NSEC_PER_MSEC);
    nsec ← chk_i64 (tv_nsec ts + part);
    if NSEC_PER_SEC <=? nsec then
      sec' ← chk_i64 (sec + Z.quot nsec NSEC_PER_SEC);
      Ok (mk_ts sec' (Z.rem nsec NSEC_PER_SEC))
    else Ok (mk_ts sec nsec).

Lemma timespec_add_ms_ok ts ms :
  ts_ok ts → ms_ok ms →
  ∃ ts', timespec_add_ms ts ms = Ok ts' ∧
    ts_ns ts' = ts_ns ts + ms * NSEC_PER_MSEC ∧ 0 ≤ tv_nsec ts' < NSEC_PER_SEC.
Proof.
  destruct ts as [s n]. unfold ts_ok, ms_ok, timespec_add_ms, ts_ns, NSEC_PER_SEC, NSEC_PER_MSEC.
  simpl. intros [Hs Hn] [Hm1 Hm2]. replace (ms <=? 0) with false by lia.
  rewrite Z.quot_div_nonneg, Z.rem_mod_nonneg by lia.
  pose proof (Z.div_mod ms 1000 ltac:(lia)). pose proof (Z.mod_pos_bound ms 1000 ltac:(lia)).
  set (d := ms / 1000) in *. set (r := ms mod 1000) in *.
  unfold mbind, res_bind. rewrite !(chk_i64_ok (s + d)), !(chk_i64_ok (r * 1000000)), !(chk_i64_ok (n + _)) by lia.
  destruct (Z.leb_spec 1000000000 (n + r * 1000000)).
  - rewrite Z.quot_div_nonneg, Z.rem_mod_nonneg by lia.
    assert ((n + r * 1000000) / 1000000000 = 1) as Hq.
    { symmetry. apply (Z.div_unique _ _ _ (n + r * 1000000 - 1000000000)); lia. }
    pose proof (Z.div_mod (n + r * 1000000) 1000000000 ltac:(lia)). rewrite Hq in *.
    rewrite chk_i64_ok by lia. eexists. split; [done|]. simpl. lia.
  - eexists. split; [done|]. simpl. lia.
Qed.

(** ** Promotion on the abstract queue *)

Fixpoint span {A} (f : A → bool) (l : list A) : list A * list A :=
  match l with
  | [] => ([], [])
  | x :: l' => if f x then let '(a, b) := span f l' in (x :: a, b) else ([], l)
  end.

Lemma span_app {A} (f : A → bool) l : (span f l).1 ++ (span f l).2 = l.
Proof.
  induction l as [|x l IH]; [done|]. simpl. destruct (f x); [|done].
  destruct (span f l). simpl in *. by rewrite IH.
Qed.

Lemma span_all {A} (f : A → bool) l : Forall (λ x, f x = true) (span f l).1.
Proof.
  induction l as [|x l IH]; [constructor|]. simpl. destruct (f x) eqn:E; [|constructor].
  destruct (span f l). by constructor.
Qed.

Lemma span_stop {A} (f : A → bool) l x l' : (span f l).2 = x :: l' → f x = false.
Proof.
  induction l as [|y l IH]; [done|]. simpl. destruct (f y) eqn:E.
  - destruct (span f l). simpl in *. auto.
  - intros [= -> ->]. done.
Qed.

Lemma span_ext {A} (f g : A → bool) l : (∀ x, f x = g x) → span f l = span g l.
Proof. intros H. induction l as [|x l IH]; [done|]. simpl. by rewrite H, IH. Qed.

(** The expired prefix of lane [src] goes in front of lane [dst], in order. *)
Definition lanes_promote (exp : loc → bool) (src dst : nat) (L : Lanes.t) : Lanes.t :=
  let '(pre, rest) := span exp (Lanes.lane L src) in
  <[dst := pre ++ Lanes.lane L dst]> (<[src := rest]> L).

Definition node_expired (h : gmap loc task_t) (now : timespec) (ms : Z) (x : loc) : bool :=
  match h !! x with
  | Some t => expired (submit_time t) now ms
  | None => false
  end.

(** Times of all nodes are clock readings. *)
Definition times_ok (h : gmap loc task_t) : Prop :=
  map_Forall (λ _ t, ts_ok (submit_time t)) h.

(** ** The two loops *)

Definition relabelled (dst : Z) (h : gmap loc task_t) (l : list loc) : gmap loc task_t :=
  foldl (λ h x, alter (set_priority dst) x h) h l.

Lemma relabelled_lookup dst l h y :
  relabelled dst h l !! y = if decide (y ∈ l) then set_priority dst <$> h !! y else h !! y.
Proof.
  revert h. induction l as [|x l IH]; intros h.
  - by rewrite decide_False by apply not_elem_of_nil.
  - change (relabelled dst h (x :: l)) with (relabelled dst (alter (set_priority dst) x h) l).
    rewrite IH, lookup_alter. destruct (decide (x = y)) as [->|Hne].
    + rewrite (decide_True _ _ (list_elem_of_here y l)).
      destruct (decide (y ∈ l)); [|done]. by destruct (h !! y).
    + pose proof (elem_of_cons l y x). assert (y ≠ x) by done. repeat case_decide; tauto.
Qed.

Lemma relabelled_lseg dst l' h l e : lseg h l e → lseg (relabelled dst h l') l e.
Proof.
  revert h. induction l' as [|x l' IH]; intros h Hl; simpl; [done|]. apply IH.
  destruct (h !! x) as [t|] eqn:Hx.
  - replace (alter _ x h) with (<[x := set_priority dst t]> h).
    + by eapply lseg_insert_same.
    + apply map_eq. intros y. rewrite lookup_insert, lookup_alter.
      case_decide; [|done]. subst. by rewrite Hx.
  - by rewrite alter_id by (intros; simplify_eq).
Qed.

Section PromoteLoops.
Context (q : priority_queue_t) (now : timespec) (ms : Z).
Hypothesis (Hnow : ts_ok now) (Hms : ms_ok ms).

(** The scan stops at the last node of the expired prefix. *)
Lemma find_prefix_tail_ok h l fuel x :
  times_ok h → lseg h (x :: l) None → (length l < fuel)%nat →
  find_prefix_tail fuel now ms (Some x) (h, q)
  = Ok (last (x :: (span (node_expired h now ms) l).1), (h, q)).
Proof.
  intros Ht. revert fuel x. induction l as [|y l IH]; intros fuel x Hl Hf;
    (destruct fuel as [|fuel]; [simpl in Hf; lia|]); cbn [find_prefix_tail].
  - destruct Hl as [(t & Hx & Hn) _]. mstep. by rewrite Hn.
  - destruct Hl as [(t & Hx & Hn) Hl]. mstep. rewrite Hn. cbn [hd_or].
    pose proof Hl as [(ty & Hy & _) _]. mstep.
    erewrite M_bind_ok; cycle 1.
    { apply lift_ok, has_passed_ms_ok; [apply (Ht y ty Hy)|done..]. }
    cbv beta. cbn [span]. unfold node_expired at 1. rewrite Hy.
    destruct (expired (submit_time ty) now ms); [|done].
    rewrite IH; [|done|simpl in Hf; lia]. by destruct (span _ l).
Qed.

Lemma relabel_ok dst h l fuel x e :
  lseg h (x :: l) e → NoDup (x :: l) → (length l < fuel)%nat →
  relabel fuel dst (Some x) (last (x :: l)) (h, q)
  = Ok (tt, (relabelled dst h (x :: l), q)).
Proof.
  revert h fuel x. induction l as [|y l IH]; intros h fuel x Hl Hnd Hf;
    (destruct fuel as [|fuel]; [simpl in Hf; lia|]); cbn [relabel];
    destruct Hl as [(t & Hx & Hn) Hl]; apply NoDup_cons in Hnd as [Hxl Hnd]; mstep; mstep;
    assert (Halt : alter (set_priority dst) x h = <[x := set_priority dst t]> h)
      by (apply map_eq; intros z; rewrite lookup_insert, lookup_alter;
          case_decide; [subst; by rewrite Hx|done]).
  - rewrite decide_True by done. simpl. by rewrite Halt.
  - rewrite decide_False; cycle 1.
    { intros Heq. apply Hxl, last_Some_elem_of. by symmetry. }
    rewrite Hn. cbn [hd_or]. change (last (x :: y :: l)) with (last (y :: l)).
    rewrite IH; [simpl; by rewrite Halt| |done|simpl in Hf; lia].
    by apply lseg_insert_ne.
Qed.
End PromoteLoops.

(** ** The pointer surgery *)

Section Promote.
Context (h : gmap loc task_t) (q : priority_queue_t) (L : Lanes.t).
Context (now : timespec) (ms : Z) (src dst : nat).
Hypothesis (Hr : pq_repr h q L) (Hnow : ts_ok now) (Hms : ms_ok ms) (Ht : times_ok h).
Hypothesis (Hsrc : (src < 3)%nat) (Hdst : (dst < 3)%nat) (Hne : src ≠ dst).

Let ex := node_expired h now ms.

(** The heap after promoting the prefix [pre], whose last node is [z], in front
    of the nodes [dl]. *)
Definition heap_promoted (pre dl : list loc) (z : loc) : gmap loc task_t :=
  let h1 := relabelled (Z.of_nat dst) h pre in
  match h1 !! z with
  | Some tz => <[z := set_next (head dl) tz]> h1
  | None => h1
  end.

Definition pq_promoted (rest : list loc) : priority_queue_t :=
  let L' := lanes_promote ex src dst L in
  mk_pq (head <$> L') (last <$> L')
    (mask_set (if nonempty rest then ready_mask q
               else mask_clear (ready_mask q) (Z.of_nat src)) (Z.of_nat dst))
    (size q) (depth q) (max_tasks q).

Lemma expired_test x t :
  h !! x = Some t → has_passed_ms (submit_time t) now ms = Ok (ex x).
Proof.
  intros Hx. rewrite has_passed_ms_ok by (try done; by eapply Ht).
  unfold ex, node_expired. by rewrite Hx.
Qed.

Lemma promote_none :
  (span ex (Lanes.lane L src)).1 = [] →
  promote_locked (Z.of_nat src) (Z.of_nat dst) now ms (h, q) = Ok (false, (h, q)).
Proof.
  intros Hs. destruct (repr_lookup Hr src Hsrc) as [l Hl].
  rewrite (lane_some _ _ _ Hl) in Hs. unfold promote_locked.
  erewrite M_bind_ok; [|apply get_head_ok; by eapply repr_head]. cbv beta. mstep.
  destruct l as [|x l]; [done|]. cbn [head hd_error].
  destruct (r_lane _ _ _ Hr _ _ Hl) as [[(t & Hx & _) _] _].
  mstep. erewrite M_bind_ok; [|by apply lift_ok, expired_test]. cbv beta.
  simpl in Hs. destruct (ex x); [|done]. by destruct (span ex l).
Qed.

(** Lane [src] before the move: an expired prefix and a rest. *)
Context (pre rest dl : list loc).
Hypothesis (Hspan : span ex (Lanes.lane L src) = (pre, rest)).
Hypothesis (Hdl : L !! dst = Some dl).

Lemma src_lane : L !! src = Some (pre ++ rest).
Proof.
  destruct (repr_lookup Hr src Hsrc) as [l Hl]. rewrite (lane_some _ _ _ Hl) in Hspan.
  pose proof (span_app ex l) as Ha. rewrite Hspan in Ha. simpl in Ha. by rewrite Ha.
Qed.

Lemma promoted_lanes :
  lanes_promote ex src dst L = <[dst := pre ++ dl]> (<[src := rest]> L).
Proof. unfold lanes_promote. by rewrite Hspan, (lane_some _ _ _ Hdl). Qed.

Lemma pre_nodup : NoDup (pre ++ rest).
Proof. eapply lane_nodup; [apply (r_nodup _ _ _ Hr)|apply src_lane]. Qed.

Lemma pre_not_dst x : x ∈ pre ++ rest → x ∉ dl.
Proof.
  intros Hx. eapply (lanes_disjoint L src dst); [apply (r_nodup _ _ _ Hr)| | |done|done].
  - apply src_lane.
  - done.
Qed.

Lemma src_seg : lseg h pre (head rest) ∧ lseg h rest None.
Proof.
  destruct (r_lane _ _ _ Hr _ _ src_lane) as [Hseg _].
  rewrite lseg_app, hd_or_head in Hseg. done.
Qed.

(** The prefix is not empty; [z] is its last node. *)
Context (x : loc) (pre' pre0 : list loc) (z : loc).
Hypothesis (Hx : pre = x :: pre') (Hz : pre = pre0 ++ [z]).

Lemma last_pre : last (x :: pre') = Some z.
Proof. by rewrite <- Hx, Hz, last_snoc. Qed.

Lemma z_node : ∃ tz, h !! z = Some tz ∧ next tz = head rest.
Proof.
  destruct src_seg as [Hseg _]. rewrite Hz, lseg_app in Hseg.
  destruct Hseg as [_ [Htz _]]. done.
Qed.

Lemma z_relabelled tz :
  h !! z = Some tz →
  relabelled (Z.of_nat dst) h (x :: pre') !! z = Some (set_priority (Z.of_nat dst) tz).
Proof.
  intros Htz. rewrite relabelled_lookup, decide_True, Htz; [done|].
  rewrite <- Hx, Hz. set_solver.
Qed.

Definition q_unlinked : priority_queue_t :=
  mk_pq (<[src := head rest]> (heads q)) (<[src := last rest]> (tails q))
    (if nonempty rest then ready_mask q else mask_clear (ready_mask q) (Z.of_nat src))
    (size q) (depth q) (max_tasks q).

Lemma unlink_ok : unlink_prefix (Z.of_nat src) (head rest) (h, q) = Ok (tt, (h, q_unlinked)).
Proof.
  pose proof (repr_heads_len Hr). pose proof (repr_tails_len Hr).
  pose proof (repr_tail Hr _ _ src_lane) as Htl.
  unfold unlink_prefix, q_unlinked. erewrite M_bind_ok; [|apply put_head_ok; lia]. cbv beta.
  destruct rest as [|r rest']; cbn [head hd_error nonempty].
  - erewrite M_bind_ok; [|apply put_tail_ok; simpl; lia]. done.
  - rewrite (list_insert_id (tails q)); [done|]. by rewrite Htl, last_app_cons.
Qed.

Lemma link_ok tz :
  h !! z = Some tz →
  link_prefix (Z.of_nat dst) (Some x) (Some z)
    (relabelled (Z.of_nat dst) h (x :: pre'), q_unlinked)
  = Ok (tt, (heap_promoted pre dl z, pq_promoted rest)).
Proof.
  intros Htz. pose proof (repr_heads_len Hr). pose proof (repr_tails_len Hr).
  unfold link_prefix, heap_promoted, pq_promoted. rewrite promoted_lanes.
  rewrite Hx. rewrite (z_relabelled tz Htz).
  rewrite !list_fmap_insert, <- (r_heads _ _ _ Hr), <- (r_tails _ _ _ Hr).
  assert (Hdt : tails q_unlinked !! dst = Some (last dl)).
  { simpl. rewrite list_lookup_insert_ne by done. by eapply repr_tail. }
  erewrite M_bind_ok; cycle 1.
  { apply get_head_ok. simpl. rewrite list_lookup_insert_ne by done. by eapply repr_head. }
  cbv beta. erewrite M_bind_ok; [|apply load_task_ok; by apply z_relabelled]. cbv beta.
  erewrite M_bind_ok; [|eapply store_task_ok; by apply z_relabelled]. cbv beta.
  erewrite M_bind_ok; [|apply put_head_ok; simpl; rewrite length_insert; lia]. cbv beta.
  erewrite M_bind_ok; [|by apply get_tail_ok]. cbv beta.
  destruct (last dl) as [y|] eqn:Ey.
  - mstep. rewrite last_app, Ey. simpl.
    rewrite (list_insert_id (<[src := last rest]> (tails q)) dst); [done|]. by rewrite <- Hdt.
  - erewrite M_bind_ok; [|apply put_tail_ok; simpl; rewrite length_insert; lia].
    apply last_None in Ey as Hnil. rewrite Hnil, app_nil_r, last_pre. done.
Qed.

Lemma promote_run :
  promote_locked (Z.of_nat src) (Z.of_nat dst) now ms (h, q)
  = Ok (true, (heap_promoted pre dl z, pq_promoted rest)).
Proof.
  destruct src_seg as [Hseg Hrest]. destruct z_node as (tz & Htz & Hnz).
  pose proof src_lane as Hl. pose proof pre_nodup as Hnd.
  assert (Hsp : ex x = true ∧ (span ex (pre' ++ rest)).1 = pre').
  { rewrite (lane_some _ _ _ Hl), Hx in Hspan. simpl in Hspan.
    destruct (ex x); [|done]. destruct (span ex (pre' ++ rest)). by simplify_eq/=. }
  destruct Hsp as [Hexx Hsp].
  destruct (r_lane _ _ _ Hr _ _ Hl) as [Hlane _].
  pose proof (lane_length_heap _ _ _ Hlane Hnd) as Hlen.
  rewrite Hx in Hl, Hlane, Hnd, Hseg, Hlen. simpl in Hlen. rewrite length_app in Hlen.
  pose proof Hlane as [(t & Hxt & _) _]. unfold promote_locked.
  erewrite M_bind_ok; [|apply get_head_ok; by eapply repr_head]. cbv beta. mstep.
  cbn [head hd_error app]. mstep.
  erewrite M_bind_ok; [|by apply lift_ok, expired_test]. cbv beta. rewrite Hexx. cbn [negb].
  erewrite M_bind_ok; [|apply (find_prefix_tail_ok q now ms Hnow Hms h (pre' ++ rest)); [done..|rewrite length_app; lia]]. cbv beta.
  change (node_expired h now ms) with ex. rewrite Hsp, last_pre. mstep.
  rewrite Hnz. erewrite M_bind_ok; [|apply unlink_ok]. cbv beta.
  erewrite M_bind_ok; cycle 1.
  { rewrite <- last_pre. apply relabel_ok with (e := head rest);
      [done|by apply NoDup_app in Hnd as (? & _)|lia]. }
  cbv beta. erewrite M_bind_ok; [|by eapply link_ok]. done.
Qed.

Lemma promoted_out y : y ∉ pre → heap_promoted pre dl z !! y = h !! y.
Proof.
  intros Hy. unfold heap_promoted. destruct z_node as (tz & Htz & _).
  rewrite Hx, (z_relabelled tz Htz). rewrite lookup_insert_ne.
  - rewrite relabelled_lookup, decide_False; [done|]. by rewrite <- Hx.
  - intros <-. apply Hy. rewrite Hz. set_solver.
Qed.

Lemma promoted_payload : payload <$> heap_promoted pre dl z = payload <$> h.
Proof.
  apply map_eq. intros y. rewrite !lookup_fmap. destruct (decide (y ∈ pre)) as [Hy|Hy].
  - unfold heap_promoted. destruct z_node as (tz & Htz & _).
    rewrite Hx, (z_relabelled tz Htz), lookup_insert. case_decide as Hzy; [subst y|].
    + by rewrite Htz.
    + rewrite relabelled_lookup, decide_True by by rewrite <- Hx. by destruct (h !! y).
  - by rewrite promoted_out.
Qed.

Lemma promoted_dst_lane : lane_ok (heap_promoted pre dl z) dst (pre ++ dl).
Proof.
  destruct z_node as (tz & Htz & Hnz). destruct src_seg as [Hseg _].
  assert (Hdlane : lane_ok (heap_promoted pre dl z) dst dl).
  { apply (lane_ok_agree h); [|by apply (r_lane _ _ _ Hr)]. intros y Hy. apply promoted_out.
    intros Hin. apply (pre_not_dst y); [|done]. apply elem_of_app. by left. }
  destruct Hdlane as [Hd1 Hd2]. split.
  - apply lseg_app. split; [|done]. rewrite hd_or_head. unfold heap_promoted.
    rewrite Hx, (z_relabelled tz Htz). rewrite <- Hx, Hz.
    apply lseg_set_end with (e := head rest);
      [|by rewrite <- Hz, Hx; apply z_relabelled|done|].
    + pose proof pre_nodup as Hnd. apply NoDup_app in Hnd as (Hnd & _). rewrite Hz in Hnd.
      by apply lseg_nodup_snoc.
    + rewrite <- Hz. by apply relabelled_lseg.
  - apply Forall_app. split; [|done]. apply Forall_forall. intros y Hy.
    destruct (lseg_elem _ _ _ y Hseg Hy) as [ty Hty].
    unfold node_prio, heap_promoted. rewrite Hx, (z_relabelled tz Htz), lookup_insert.
    case_decide as Hzy; [by eexists|]. rewrite relabelled_lookup, decide_True, Hty by by rewrite <- Hx.
    by eexists.
Qed.

Lemma promoted_other p l :
  lane_ok h p l → (∀ y, y ∈ pre → y ∉ l) → lane_ok (heap_promoted pre dl z) p l.
Proof.
  intros Hl Hd. apply (lane_ok_agree h); [|done]. intros y Hy. apply promoted_out.
  intros Hin. by apply (Hd y Hin).
Qed.

Lemma promoted_members :
  Lanes.members (lanes_promote ex src dst L) ≡ₚ Lanes.members L.
Proof.
  rewrite promoted_lanes.
  destruct (members_split L src _ src_lane) as (R & HR & Hupd).
  assert (Hd : <[src := rest]> L !! dst = Some dl) by by rewrite list_lookup_insert_ne.
  destruct (members_split _ dst _ Hd) as (R' & HR' & Hupd').
  rewrite Hupd', HR. rewrite <- app_assoc, <- HR', Hupd. by rewrite app_assoc.
Qed.

Lemma promoted_mask n :
  Z.testbit (ready_mask (pq_promoted rest)) (Z.of_nat n)
  = nonempty (Lanes.lane (lanes_promote ex src dst L) n).
Proof.
  pose proof (repr_len3 Hr) as HL.
  unfold pq_promoted. simpl.
  set (m := if nonempty rest then ready_mask q else mask_clear (ready_mask q) (Z.of_nat src)).
  assert (Hm : ∀ k, Z.testbit m (Z.of_nat k) = nonempty (Lanes.lane (<[src := rest]> L) k)).
  { intros k. rewrite lane_insert_lanes by lia. unfold m. destruct (nonempty rest) eqn:Er.
    - rewrite (r_mask _ _ _ Hr). case_decide; [subst k|done].
      rewrite (lane_some _ _ _ src_lane). by rewrite Hx.
    - rewrite mask_clear_bits by (try lia; by apply (repr_mask_32 Hr)).
      rewrite (r_mask _ _ _ Hr). by case_bool_decide; case_decide. }
  rewrite promoted_lanes, lane_insert_lanes by (rewrite length_insert; lia).
  rewrite mask_set_bits; [|lia|]; cycle 1.
  { rewrite Hm. destruct (Z.ltb_spec (Z.of_nat n) 32); [done|]. simpl.
    rewrite lane_insert_lanes by lia. rewrite decide_False by lia.
    by rewrite (lane_high Hr) by lia. }
  rewrite Hm. case_bool_decide; case_decide; try done. simpl. by rewrite Hx.
Qed.

Lemma promote_repr :
  pq_repr (heap_promoted pre dl z) (pq_promoted rest) (lanes_promote ex src dst L).
Proof.
  pose proof (repr_len3 Hr) as HL. pose proof (r_nodup _ _ _ Hr) as Hnd.
  split; try done.
  - rewrite promoted_lanes. by rewrite !length_insert, (r_len _ _ _ Hr).
  - intros p l Hp. rewrite promoted_lanes in Hp. destruct (decide (p = dst)) as [->|Hpd].
    { rewrite list_lookup_insert_eq in Hp by (rewrite length_insert; lia).
      apply (inj Some) in Hp as <-. apply promoted_dst_lane. }
    rewrite list_lookup_insert_ne in Hp by done. destruct (decide (p = src)) as [->|Hps].
    + rewrite list_lookup_insert_eq in Hp by lia.
      apply (inj Some) in Hp as <-. apply promoted_other.
      * destruct (r_lane _ _ _ Hr _ _ src_lane) as [Hseg Hpr].
        apply lseg_app in Hseg as [_ ?]. by apply Forall_app in Hpr as [_ ?].
      * pose proof pre_nodup as Hn. by apply NoDup_app in Hn as (_ & ? & _).
    + rewrite list_lookup_insert_ne in Hp by done. apply promoted_other; [by apply (r_lane _ _ _ Hr)|].
      intros y Hy. eapply (lanes_disjoint L src p); [done|apply src_lane|done|done|].
      apply elem_of_app. by left.
  - apply mask_set_pos.
  - apply promoted_mask.
  - simpl. rewrite promoted_members. apply (r_size _ _ _ Hr).
  - simpl. apply (r_depth _ _ _ Hr).
  - rewrite promoted_members. done.
Qed.
End Promote.

(** The promotion refines [lanes_promote]: it cannot fault, reports whether a
    prefix moved, and changes no node beyond its link and priority. *)
Lemma promote_refines h q L now ms src dst :
  pq_repr h q L → ts_ok now → ms_ok ms → times_ok h →
  (src < 3)%nat → (dst < 3)%nat → src ≠ dst →
  ∃ h' q', promote_locked (Z.of_nat src) (Z.of_nat dst) now ms (h, q)
      = Ok (nonempty (span (node_expired h now ms) (Lanes.lane L src)).1, (h', q')) ∧
    pq_repr h' q' (lanes_promote (node_expired h now ms) src dst L) ∧
    payload <$> h' = payload <$> h ∧ max_tasks q' = max_tasks q ∧
    (∀ y, y ∉ Lanes.members L → h' !! y = h !! y).
Proof.
  intros Hr Hnow Hms Ht Hs Hd Hne. set (ex := node_expired h now ms).
  destruct (span ex (Lanes.lane L src)) as [pre rest] eqn:Hspan.
  destruct (repr_lookup Hr src Hs) as [sl Hsl]. destruct (repr_lookup Hr dst Hd) as [dl Hdl].
  destruct pre as [|x pre'].
  - exists h, q. split_and!; try done.
    + apply (promote_none h q L); try done. fold ex. by rewrite Hspan.
    + replace (lanes_promote ex src dst L) with L; [done|].
      pose proof (span_app ex sl) as Ha. rewrite (lane_some _ _ _ Hsl) in Hspan.
      unfold lanes_promote. rewrite (lane_some _ _ _ Hsl), (lane_some _ _ _ Hdl), Hspan.
      rewrite Hspan in Ha. simpl in Ha |- *. rewrite Ha, (list_insert_id L src) by done.
      by rewrite list_insert_id.
  - destruct (exists_last (l := x :: pre')) as (pre0 & z & Hz); [done|].
    eexists _, _. split_and!.
    + eapply promote_run with (pre := x :: pre') (pre0 := pre0); done.
    + eapply promote_repr with (pre := x :: pre') (pre0 := pre0); done.
    + eapply (promoted_payload h q L now ms src dst) with (pre := x :: pre') (pre0 := pre0); done.
    + done.
    + intros y Hy. eapply (promoted_out h q L now ms src dst) with (pre := x :: pre') (pre0 := pre0); try done.
      intros Hin. apply Hy. eapply lane_in_members. rewrite <- (span_app ex (Lanes.lane L src)), Hspan.
      apply elem_of_app. by left.
Qed.

(** Promotion moves nodes between lanes. *)
Lemma lanes_promote_members ex src dst L :
  (src < length L)%nat → (dst < length L)%nat → src ≠ dst →
  Lanes.members (lanes_promote ex src dst L) ≡ₚ Lanes.members L.
Proof.
  intros Hs Hd Hne. unfold lanes_promote, Lanes.lane.
  destruct (lookup_lt_is_Some_2 L src Hs) as [sl Hsl], (lookup_lt_is_Some_2 L dst Hd) as [dl Hdl].
  rewrite Hsl, Hdl. simpl. pose proof (span_app ex sl) as Ha. destruct (span ex sl) as [pre rest].
  simpl in Ha. subst sl.
  destruct (members_split L src _ Hsl) as (R & HR & Hupd).
  assert (Hd' : <[src := rest]> L !! dst = Some dl) by by rewrite list_lookup_insert_ne.
  destruct (members_split _ dst _ Hd') as (R' & HR' & Hupd').
  rewrite Hupd', HR. rewrite <- app_assoc, <- HR', Hupd. by rewrite app_assoc.
Qed.

(** ** A whole aging pass *)

Lemma same_nodes_payload h h' : same_nodes h h' → payload <$> h' = payload <$> h.
Proof.
  intros Hs. assert (H : ∀ g : gmap loc task_t, payload <$> g = set_priority 0 <$> (strip <$> g)).
  { intros g. by rewrite <- map_fmap_compose. }
  by rewrite !H, Hs.
Qed.

Lemma payload_expired h h' now ms :
  payload <$> h' = payload <$> h → ∀ x, node_expired h' now ms x = node_expired h now ms x.
Proof.
  intros Hp x. unfold node_expired.
  assert (H : (payload <$> h') !! x = (payload <$> h) !! x) by by rewrite Hp.
  rewrite !lookup_fmap in H. destruct (h' !! x) as [t'|], (h !! x) as [t|]; try done.
  apply (inj Some) in H. destruct t, t'. by injection H as -> -> -> ->.
Qed.

Lemma payload_times h h' : payload <$> h' = payload <$> h → times_ok h → times_ok h'.
Proof.
  intros Hp Ht x t' Hx'.
  assert (H : (payload <$> h') !! x = (payload <$> h) !! x) by by rewrite Hp.
  rewrite !lookup_fmap, Hx' in H. destruct (h !! x) as [t|] eqn:Hx; [|done].
  apply (inj Some) in H. specialize (Ht x t Hx). destruct t, t'. by injection H as -> -> -> ->.
Qed.

(** What one call of [pq_aging_promote_prefix] does to the lanes. *)
Definition promote_spec (h : gmap loc task_t) (flag : option bool) (now : timespec) (ms : Z)
    (src dst : nat) (L : Lanes.t) : Lanes.t :=
  if _shutdown_requested flag then L else lanes_promote (node_expired h now ms) src dst L.

Lemma promote_spec_members h flag now ms src dst L :
  length L = 3%nat → (src < 3)%nat → (dst < 3)%nat → src ≠ dst →
  Lanes.members (promote_spec h flag now ms src dst L) ≡ₚ Lanes.members L.
Proof.
  intros HL Hs Hd Hne. unfold promote_spec. destruct (_shutdown_requested flag); [done|].
  apply lanes_promote_members; lia.
Qed.

Lemma pq_aging_promote_prefix_ok w L now flag ms src dst :
  at_rest w L → ts_ok now → ms_ok ms → times_ok (w_heap w) →
  (src < 3)%nat → (dst < 3)%nat → src ≠ dst →
  ∃ moved w', pq_aging_promote_prefix (Z.of_nat src) (Z.of_nat dst) now flag ms w = Ok (moved, w') ∧
    at_rest w' (promote_spec (w_heap w) flag now ms src dst L) ∧
    payload <$> w_heap w' = payload <$> w_heap w ∧
    max_tasks (w_pq w') = max_tasks (w_pq w) ∧
    w_notes w' = (if moved then [Broadcasted] else []) ++ w_notes w ∧
    (∀ y, y ∉ Lanes.members L → w_heap w' !! y = w_heap w !! y).
Proof.
  destruct w as [[h q] mu notes]. intros [Hm Hr] Hnow Hms Ht Hs Hd Hne. simpl in *. subst mu.
  unfold pq_aging_promote_prefix, promote_spec, w_heap, w_pq. simpl.
  destruct (_shutdown_requested flag); [by exists false, (mk_world (h, q) Unlocked notes)|].
  destruct (promote_refines h q L now ms src dst Hr Hnow Hms Ht Hs Hd Hne)
    as (h' & q' & Hrun & Hr' & Hp & Hmax & Hout).
  set (b := nonempty _) in Hrun. exists b.
  exists (mk_world (h', q') Unlocked ((if b then [Broadcasted] else []) ++ notes)).
  split; [|done]. mstep. mstep. mstep. destruct b; mstep; done.
Qed.

(** One pass of [pq_aging]: MEDIUM to HIGH first, then LOW to MEDIUM, so that no
    task climbs two levels at once. *)
Lemma pq_aging_ok w L now1 now2 flag1 flag2 flag3 ms :
  at_rest w L → ts_ok now1 → ts_ok now2 → ms_ok ms → times_ok (w_heap w) →
  ∃ w', pq_aging true now1 now2 flag1 flag2 flag3 ms w = Ok (tt, w') ∧
    at_rest w'
      (let L1 := promote_spec (w_heap w) flag1 now1 ms 1 2 L in
       if _shutdown_requested flag2 then L1
       else promote_spec (w_heap w) flag3 now2 ms 0 1 L1) ∧
    payload <$> w_heap w' = payload <$> w_heap w ∧
    max_tasks (w_pq w') = max_tasks (w_pq w) ∧
    (∀ y, y ∉ Lanes.members L → w_heap w' !! y = w_heap w !! y).
Proof.
  intros Hr H1 H2 Hms Ht.
  destruct (pq_aging_promote_prefix_ok w L now1 flag1 ms 1 2)
    as (b1 & w1 & Hrun1 & Hr1 & Hp1 & Hm1 & _ & Ho1); try done; try lia.
  unfold pq_aging. cbn [negb]. simpl Z.of_nat in Hrun1.
  change PRIORITY_MEDIUM with 1; change PRIORITY_HIGH with 2; change PRIORITY_LOW with 0.
  destruct (_shutdown_requested flag2) eqn:Ef; [exists w1; split; [by mstep|done]|].
  destruct (pq_aging_promote_prefix_ok w1 (promote_spec (w_heap w) flag1 now1 ms 1 2 L)
              now2 flag3 ms 0 1)
    as (b2 & w2 & Hrun2 & Hr2 & Hp2 & Hm2 & _ & Ho2); try done; try lia.
  { by eapply payload_times. }
  exists w2. split; [mstep; by mstep|]. split.
  2:{ split_and!; [by rewrite Hp2|by rewrite Hm2|]. intros y Hy. rewrite Ho2, Ho1; [done|done|].
      rewrite promote_spec_members; [done|apply (repr_len3 (proj2 Hr))|lia..]. }
  unfold promote_spec in *. destruct (_shutdown_requested flag3); [done|].
  unfold lanes_promote in *.
  erewrite span_ext; [exact Hr2|]. intros x. by rewrite (payload_expired _ _ now2 ms Hp1).
Qed.
