(* ===== verification/QueueTheorems.v ===== *)
(** * QueueTheorems: what the priority queue promises its callers

    The results of QueueSpec.v, QueueApi.v and Aging.v put together: order of
    service, refinement of an abstract queue by any sequence of calls, capacity,
    blocking, destruction, and what aging does to waiting tasks. *)
From S2P Require Export Aging.
Local Open Scope Z_scope.

(** ** Order of service *)

(** The tasks of a batch that have priority [p], in order of submission. *)
Definition of_prio (pr : loc → Z) (p : Z) (xs : list loc) : list loc := filter (λ x, pr x = p) xs.

(** C16: Tasks pushed on an empty queue are popped by priority, HIGH first, and
    within a priority in order of submission. *)
Theorem queue_service_order xs fuel w :
  at_rest w Lanes.empty → batch_ok w Lanes.empty xs → (length xs < fuel)%nat →
  ∃ w', (push_all xs;; drain fuel) w =
    Ok (of_prio (prio_of (w_heap w)) PRIORITY_HIGH xs ++
        of_prio (prio_of (w_heap w)) PRIORITY_MEDIUM xs ++
        of_prio (prio_of (w_heap w)) PRIORITY_LOW xs, w').
Proof.
  intros Hr Hb Hf. destruct (push_all_ok xs w _ Hr Hb) as (w1 & Hrun & Hr1 & _).
  set (L := push_spec _ _ _) in Hr1.
  assert (HL : L = [of_prio (prio_of (w_heap w)) 0 xs; of_prio (prio_of (w_heap w)) 1 xs;
                    of_prio (prio_of (w_heap w)) 2 xs]) by done.
  destruct (drain_ok fuel w1 L Hr1) as (w2 & _ & Hd & _).
  { rewrite HL. unfold Lanes.members. simpl. rewrite app_nil_r, !length_app. unfold of_prio.
    destruct Hb as [_ Hall]. clear -Hall Hf. revert fuel Hf.
    induction xs as [|x xs IH]; intros fuel Hf; [simpl in *; lia|].
    apply Forall_cons in Hall as [[[_ Hp] _] Hall]. simpl in Hf.
    specialize (IH Hall (fuel - 1)%nat ltac:(lia)). unfold NUM_PRIORITIES, PRIORITY_COUNT in Hp.
    rewrite !filter_cons. repeat case_decide; simpl; lia. }
  exists w2. erewrite M_bind_ok by exact Hrun. rewrite Hd, HL. unfold service_order. simpl.
  by rewrite app_nil_r.
Qed.

(** ** Any sequence of calls refines an abstract queue *)

(** The abstract queue: the waiting nodes by lane, and the bound. *)
Record spec := mk_spec { sp_lanes : Lanes.t; sp_max : Z }.

Inductive qop :=
| OpPush (x : loc)
| OpTryPush (x : loc)
| OpPop
| OpSize
| OpEmpty
| OpSetMax (m : Z)
| OpAging (now1 now2 : timespec) (ms : Z).

Inductive qres := QVoid | QBool (b : bool) | QPtr (p : ptr) | QInt (z : Z).

(** The call on the C structure. *)
Definition run_op (op : qop) : WM qres :=
  match op with
  | OpPush x => pq_push true (Some x);; mret QVoid
  | OpTryPush x => b ← pq_try_push true (Some x); mret (QBool b)
  | OpPop => p ← pq_pop_nonblock true; mret (QPtr p)
  | OpSize => z ← pq_size true; mret (QInt z)
  | OpEmpty => z ← pq_is_empty true; mret (QInt z)
  | OpSetMax m => locked (upd_pq (pq_set_max_tasks true m));; mret QVoid
  | OpAging now1 now2 ms => pq_aging true now1 now2 None None None ms;; mret QVoid
  end.

Fixpoint run_ops (ops : list qop) : WM (list qres) :=
  match ops with
  | [] => mret []
  | op :: ops' => r ← run_op op; rs ← run_ops ops'; mret (r :: rs)
  end.

(** The same call on the abstract queue; [nodes] are the tasks as their creators
    made them. *)
Section SpecOps.
Context (nodes : gmap loc task_t).

Definition sp_insert (x : loc) (st : spec) : spec :=
  mk_spec (Lanes.insert (Z.to_nat (prio_of nodes x)) x (sp_lanes st)) (sp_max st).
Definition sp_count (st : spec) : Z := Z.of_nat (length (Lanes.members (sp_lanes st))).

Definition spec_op (op : qop) (st : spec) : qres * spec :=
  match op with
  | OpPush x => (QVoid, sp_insert x st)
  | OpTryPush x =>
      if bool_decide (sp_max st ≠ 0 ∧ sp_max st ≤ sp_count st) then (QBool false, st)
      else (QBool true, sp_insert x st)
  | OpPop =>
      match Lanes.pop (sp_lanes st) with
      | None => (QPtr None, st)
      | Some (x, L) => (QPtr (Some x), mk_spec L (sp_max st))
      end
  | OpSize => (QInt (sp_count st), st)
  | OpEmpty => (QInt (if decide (Lanes.members (sp_lanes st) = []) then 1 else 0), st)
  | OpSetMax m => (QVoid, mk_spec (sp_lanes st) m)
  | OpAging now1 now2 ms =>
      (QVoid, mk_spec (lanes_promote (node_expired nodes now2 ms) 0 1
                         (lanes_promote (node_expired nodes now1 ms) 1 2 (sp_lanes st))) (sp_max st))
  end.

Fixpoint spec_ops (ops : list qop) (st : spec) : list qres :=
  match ops with
  | [] => []
  | op :: ops' => let '(r, st') := spec_op op st in r :: spec_ops ops' st'
  end.

(** Callers hand over each node once, with a declared priority. *)
Definition pushed (op : qop) : list loc :=
  match op with OpPush x | OpTryPush x => [x] | _ => [] end.
Definition op_ok (op : qop) : Prop :=
  match op with
  | OpPush x | OpTryPush x => is_Some (nodes !! x) ∧ 0 ≤ prio_of nodes x < NUM_PRIORITIES
  | OpAging now1 now2 ms => ts_ok now1 ∧ ts_ok now2 ∧ ms_ok ms
  | _ => True
  end.

(** [fresh] are the nodes not handed over yet. *)
Record refines (fresh : list loc) (w : pq_world) (st : spec) : Prop := {
  f_rest : at_rest w (sp_lanes st);
  f_max : max_tasks (w_pq w) = sp_max st;
  f_payload : payload <$> w_heap w = payload <$> nodes;
  f_fresh : ∀ x, x ∈ fresh →
    prio_of (w_heap w) x = prio_of nodes x ∧ x ∉ Lanes.members (sp_lanes st);
  f_nodup : NoDup fresh;
  f_bound : sp_count st + Z.of_nat (length fresh) < 2 ^ 31
}.

Lemma payload_some (h : gmap loc task_t) x :
  payload <$> h = payload <$> nodes → is_Some (nodes !! x) → is_Some (h !! x).
Proof.
  intros Hp Hx. rewrite <- (fmap_is_Some payload), <- lookup_fmap, Hp, lookup_fmap, fmap_is_Some. done.
Qed.

Lemma spec_len st w fresh : refines fresh w st → length (sp_lanes st) = 3%nat.
Proof. intros R. apply (repr_len3 (proj2 (f_rest _ _ _ R))). Qed.

(** A node that was just inserted. *)
Lemma refines_insert x fresh w w' st :
  refines (x :: fresh) w st → 0 ≤ prio_of nodes x < NUM_PRIORITIES →
  at_rest w' (sp_lanes (sp_insert x st)) → max_tasks (w_pq w') = sp_max st →
  same_nodes (w_heap w) (w_heap w') →
  (∀ y, y ∈ fresh → is_Some (w_heap w !! y)) →
  refines fresh w' (sp_insert x st).
Proof.
  intros R Hp Hr Hm Hs Hsome. pose proof (spec_len _ _ _ R) as HL.
  unfold NUM_PRIORITIES, PRIORITY_COUNT in Hp.
  pose proof (f_nodup _ _ _ R) as Hnd. apply NoDup_cons in Hnd as [Hx Hnd].
  assert (Hmem : Lanes.members (sp_lanes (sp_insert x st)) ≡ₚ x :: Lanes.members (sp_lanes st))
    by (apply lanes_insert_perm; lia).
  split; [done|done| | |done|].
  - by rewrite (same_nodes_payload _ _ Hs), (f_payload _ _ _ R).
  - intros y Hy. destruct (f_fresh _ _ _ R y) as [Hpy Hmy]; [by right|]. split.
    + rewrite (same_nodes_prio _ _ y Hs); [done|by apply Hsome].
    + rewrite Hmem. apply not_elem_of_cons. split; [by intros ->|done].
  - pose proof (f_bound _ _ _ R) as Hb. unfold sp_count in *. rewrite Hmem. simpl in *. lia.
Qed.

Lemma refines_drop x fresh w st : refines (x :: fresh) w st → refines fresh w st.
Proof.
  intros R. split; try apply R.
  - intros y Hy. apply R. by right.
  - pose proof (f_nodup _ _ _ R) as Hnd. by apply NoDup_cons in Hnd as [_ ?].
  - pose proof (f_bound _ _ _ R). simpl in *. lia.
Qed.

Lemma lanes_promote_ext ex ex' src dst L :
  (∀ x, ex x = ex' x) → lanes_promote ex src dst L = lanes_promote ex' src dst L.
Proof. intros H. unfold lanes_promote. by rewrite (span_ext ex ex'). Qed.

Lemma length_lanes_promote ex src dst L : length (lanes_promote ex src dst L) = length L.
Proof. unfold lanes_promote. destruct (span _ _). by rewrite !length_insert. Qed.

Section OpStep.
Context (fresh : list loc) (w : pq_world) (st : spec).
Hypothesis (Ht : times_ok nodes) (Hsome : ∀ y, y ∈ fresh → is_Some (nodes !! y)).

Lemma fresh_in_heap fresh' : refines fresh' w st → ∀ y, y ∈ fresh → is_Some (w_heap w !! y).
Proof. intros R y Hy. eapply payload_some; [apply R|by apply Hsome]. Qed.

Lemma fresh_pushable x :
  refines (x :: fresh) w st → is_Some (nodes !! x) → 0 ≤ prio_of nodes x < NUM_PRIORITIES →
  pushable w (sp_lanes st) x (Z.to_nat (prio_of nodes x)).
Proof.
  intros R Hn Hp. destruct (f_fresh _ _ _ R x) as [Hpx Hmx]; [by left|].
  destruct (payload_some (w_heap w) x) as [t Hxt]; [apply R|done|].
  unfold NUM_PRIORITIES, PRIORITY_COUNT in Hp. split; [exists t|].
  - split; [done|]. rewrite <- Hpx in Hp |- *. unfold prio_of in *. rewrite Hxt in *. lia.
  - split; [lia|done].
Qed.

Lemma push_refines x :
  op_ok (OpPush x) → refines (x :: fresh) w st →
  ∃ w', run_op (OpPush x) w = Ok (QVoid, w') ∧ refines fresh w' (sp_insert x st).
Proof.
  intros [Hn Hp] R.
  destruct (pq_push_ok w _ x _ (f_rest _ _ _ R) (fresh_pushable x R Hn Hp))
    as (w' & Hrun & Hr & _ & Hs & Hm).
  exists w'. split; [cbn [run_op]; by erewrite M_bind_ok by exact Hrun|].
  eapply refines_insert; try done; [by rewrite Hm, (f_max _ _ _ R)|by eapply fresh_in_heap].
Qed.

Lemma try_refines x :
  op_ok (OpTryPush x) → refines (x :: fresh) w st →
  ∃ w', run_op (OpTryPush x) w = Ok ((spec_op (OpTryPush x) st).1, w') ∧
    refines fresh w' (spec_op (OpTryPush x) st).2.
Proof.
  intros [Hn Hp] R.
  destruct (pq_try_push_ok w _ x _ (f_rest _ _ _ R) (fresh_pushable x R Hn Hp)) as (w' & Hrun & Hcase).
  assert (Hac : at_capacity (w_pq w) = bool_decide (sp_max st ≠ 0 ∧ sp_max st ≤ sp_count st)).
  { rewrite <- (f_max _ _ _ R). apply at_capacity_members with (w_heap w); [apply R|].
    pose proof (f_bound _ _ _ R). unfold sp_count in *. lia. }
  rewrite Hac in Hrun, Hcase. exists w'. cbn [run_op spec_op]. erewrite M_bind_ok by exact Hrun.
  destruct (bool_decide _); cbn [negb fst snd]; (split; [done|]).
  - subst w'. apply (refines_drop x), R.
  - destruct Hcase as (Hr & _ & Hs & Hm). eapply refines_insert; try done;
      [by rewrite Hm, (f_max _ _ _ R)|by eapply fresh_in_heap].
Qed.

Lemma pop_refines :
  refines fresh w st →
  ∃ w', run_op OpPop w = Ok ((spec_op OpPop st).1, w') ∧ refines fresh w' (spec_op OpPop st).2.
Proof.
  intros R. pose proof (pq_pop_nonblock_ok w _ (f_rest _ _ _ R)) as Hpop. cbn [run_op spec_op].
  destruct (Lanes.pop (sp_lanes st)) as [[x L']|] eqn:E; cbn [fst snd];
    [|exists w; split; [by erewrite M_bind_ok by exact Hpop|done]].
  destruct Hpop as (w' & Hrun & Hr & Hs & _ & Hm & _). exists w'.
  split; [by erewrite M_bind_ok by exact Hrun|]. apply lanes_pop_perm in E. split; simpl; try done.
  - by rewrite Hm, (f_max _ _ _ R).
  - by rewrite (same_nodes_payload _ _ Hs), (f_payload _ _ _ R).
  - intros y Hy. destruct (f_fresh _ _ _ R y Hy) as [Hpy Hmy]. rewrite E in Hmy.
    apply not_elem_of_cons in Hmy as [_ Hmy]. split; [|done].
    rewrite (same_nodes_prio _ _ y Hs); [done|by eapply fresh_in_heap].
  - apply R.
  - pose proof (f_bound _ _ _ R) as Hb. unfold sp_count in *. simpl in *. rewrite E in Hb. simpl in Hb. lia.
Qed.

Lemma aging_refines now1 now2 ms :
  op_ok (OpAging now1 now2 ms) → refines fresh w st →
  ∃ w', run_op (OpAging now1 now2 ms) w = Ok (QVoid, w') ∧
    refines fresh w' (spec_op (OpAging now1 now2 ms) st).2.
Proof.
  intros (Hn1 & Hn2 & Hms) R.
  assert (Htw : times_ok (w_heap w)) by (eapply payload_times; [apply R|done]).
  destruct (pq_aging_ok w _ now1 now2 None None None ms (f_rest _ _ _ R) Hn1 Hn2 Hms Htw)
    as (w' & Hrun & Hr & Hp & Hm & Hout).
  exists w'. split; [cbn [run_op]; by erewrite M_bind_ok by exact Hrun|].
  pose proof (spec_len _ _ _ R) as HL.
  assert (Hmem : Lanes.members (sp_lanes (spec_op (OpAging now1 now2 ms) st).2)
    ≡ₚ Lanes.members (sp_lanes st)).
  { simpl. rewrite !lanes_promote_members; try done; rewrite ?length_lanes_promote; lia. }
  split.
  - unfold promote_spec in Hr. simpl in Hr.
    rewrite !(lanes_promote_ext (node_expired (w_heap w) _ _) (node_expired nodes _ _)) in Hr
      by (intros y; apply payload_expired, R). done.
  - by rewrite Hm, (f_max _ _ _ R).
  - by rewrite Hp, (f_payload _ _ _ R).
  - intros y Hy. destruct (f_fresh _ _ _ R y Hy) as [Hpy Hmy]. rewrite Hmem. split; [|done].
    unfold prio_of in *. by rewrite Hout.
  - apply R.
  - pose proof (f_bound _ _ _ R) as Hb. unfold sp_count in *. by rewrite Hmem.
Qed.

Lemma op_refines op :
  op_ok op → refines (pushed op ++ fresh) w st →
  ∃ w', run_op op w = Ok ((spec_op op st).1, w') ∧ refines fresh w' (spec_op op st).2.
Proof.
  intros Hop R. destruct op as [x|x| | | |m|now1 now2 ms].
  - by apply push_refines.
  - by apply try_refines.
  - by apply pop_refines.
  - exists w. cbn [run_op spec_op fst snd]. erewrite M_bind_ok; [done|]. apply pq_size_ok; [apply R|].
    pose proof (f_bound _ _ _ R). unfold sp_count in *. simpl in *. lia.
  - exists w. cbn [run_op spec_op fst snd]. erewrite M_bind_ok; [done|]. apply pq_is_empty_ok, R.
  - destruct R as [[Hmu Hrep] Hmx Hpl Hfr Hnd Hb].
    destruct w as [[h q] mu notes]. exists (mk_world (h, set_max m q) mu notes).
    cbn [run_op]. split; [by mstep|]. split; try done. split; [done|]. by apply pq_repr_set_max.
  - by apply aging_refines.
Qed.
End OpStep.

Definition handed (ops : list qop) : list loc := concat (pushed <$> ops).

(** C3: Any sequence of calls of the queue API, aging included, returns exactly the
    results of three FIFO lists served from the highest priority down. *)
Theorem queue_refinement ops w st :
  times_ok nodes → Forall op_ok ops → refines (handed ops) w st →
  ∃ w', run_ops ops w = Ok (spec_ops ops st, w').
Proof.
  intros Ht Hops. revert w st. induction Hops as [|op ops Hop Hops IH]; intros w st R; [by exists w|].
  unfold handed in R. rewrite fmap_cons in R. simpl in R.
  destruct (op_refines (handed ops) w st Ht) with (op := op) as (w1 & Hrun & R1); [|done|exact R|].
  { intros y Hy. unfold handed in Hy. apply list_elem_of_In, in_concat in Hy as (l & Hl & Hy).
    apply list_elem_of_In, list_elem_of_fmap in Hl as (op' & -> & Hin).
    rewrite Forall_forall in Hops. specialize (Hops op' Hin). apply list_elem_of_In in Hy.
    destruct op'; simpl in Hy; try (by apply elem_of_nil in Hy);
      apply list_elem_of_singleton in Hy as ->; apply Hops. }
  destruct (IH w1 (spec_op op st).2 R1) as (w2 & Hrun2). exists w2. cbn [run_ops spec_ops].
  erewrite M_bind_ok by exact Hrun. erewrite M_bind_ok by exact Hrun2.
  by destruct (spec_op op st).
Qed.
End SpecOps.

(** ** Capacity *)

(** C27: A push on a bounded queue succeeds exactly when fewer than [max_tasks] nodes
    wait (or there is no bound); it then appends the node to the lane of its
    priority and signals one worker, otherwise it changes nothing. *)
Theorem try_push_capacity w L x p :
  at_rest w L → pushable w L x p → Z.of_nat (length (Lanes.members L)) < 2 ^ 64 →
  let full := bool_decide (max_tasks (w_pq w) ≠ 0 ∧
                           max_tasks (w_pq w) ≤ Z.of_nat (length (Lanes.members L))) in
  ∃ w', pq_try_push true (Some x) w = Ok (negb full, w') ∧
    pq_is_full_approx true (w_pq w) = full ∧
    (full = true → w' = w) ∧
    (full = false → at_rest w' (Lanes.insert p x L) ∧ w_notes w' = Signalled :: w_notes w).
Proof.
  intros Hr Hp Hlen. destruct (pq_try_push_ok w L x p Hr Hp) as (w' & Hrun & Hcase).
  assert (Hac : at_capacity (w_pq w) = bool_decide (max_tasks (w_pq w) ≠ 0 ∧
    max_tasks (w_pq w) ≤ Z.of_nat (length (Lanes.members L)))) by (eapply at_capacity_members; [apply Hr|done]).
  rewrite Hac in Hrun, Hcase. exists w'. cbv zeta. split; [done|]. split.
  - rewrite <- Hac. unfold pq_is_full_approx, at_capacity. simpl.
    pose proof (r_depth _ _ _ (proj2 Hr)) as Hd. change (w_store w).2 with (w_pq w) in Hd. rewrite Hd.
    by destruct (max_tasks (w_pq w) =? 0).
  - destruct (bool_decide _); split; intros ?; try done. by destruct Hcase as (? & ? & _).
Qed.

(** ** Blocking *)

(** C28: The blocking pop: it returns the first node of the highest lane as soon as
    there is one, gives up exactly when it finds the queue empty with shutdown
    requested, and sleeps otherwise. *)
Theorem pop_until_shutdown_spec w L wakes Ls flag :
  at_rest w L → wakes_ok wakes Ls →
  match pop_wait_spec L flag (zip Ls (snd <$> wakes)) with
  | None => pq_pop_until_shutdown true wakes flag w = Blocks
  | Some None => ∃ w', pq_pop_until_shutdown true wakes flag w = Ok (None, w') ∧ w_mutex w' = Unlocked
  | Some (Some (x, L')) =>
      ∃ w', pq_pop_until_shutdown true wakes flag w = Ok (Some x, w') ∧ at_rest w' L' ∧
        ∃ t, w_heap w' !! x = Some t ∧ next t = None
  end.
Proof.
  destruct w as [[h q] mu notes]. intros [Hm Hr] Hw. simpl in *. subst mu.
  unfold pq_pop_until_shutdown. cbn [negb]. erewrite M_bind_ok by apply mutex_lock_ok.
  pose proof (pop_wait_ok wakes h q L Ls flag notes Hr Hw) as H.
  destruct (pop_wait_spec _ _ _) as [[[x L']|]|]; [|by destruct H as [s ->]; eexists|done].
  destruct H as (w' & -> & ? & _ & ?). by exists w'.
Qed.

Lemma pop_wait_spec_no_flag L Ls n :
  pop_wait_spec L None (zip Ls (replicate n None)) ≠ Some None.
Proof.
  revert L n. induction Ls as [|L' Ls IH]; intros L [|n]; simpl; destruct (Lanes.pop L); try done.
Qed.

(** [pq_pop] never returns NULL: on an empty queue it sleeps until a node comes. *)
Theorem pq_pop_never_null w L wakes Ls w' :
  at_rest w L → wakes_ok ((λ s, (s, None)) <$> wakes) Ls → pq_pop true wakes w ≠ Ok (None, w').
Proof.
  destruct w as [[h q] mu notes]. intros [Hm Hr] Hw. simpl in *. subst mu.
  unfold pq_pop, pq_pop_until_shutdown. cbn [negb]. erewrite M_bind_ok by apply mutex_lock_ok.
  pose proof (pop_wait_ok _ h q L Ls None notes Hr Hw) as H.
  assert (Hs : snd <$> ((λ s : store, (s, None : option bool)) <$> wakes) = replicate (length wakes) None).
  { clear. induction wakes as [|s wakes IH]; [done|]. rewrite !fmap_cons, IH. done. }
  rewrite Hs in H. pose proof (pop_wait_spec_no_flag L Ls (length wakes)).
  destruct (pop_wait_spec _ _ _) as [[[x L']|]|]; [|done|by rewrite H].
  destruct H as (w1 & -> & _). done.
Qed.

(** ** Destruction *)

Lemma pq_destroy_run w L :
  at_rest w L →
  ∃ w', pq_destroy true w = Ok (tt, w') ∧ w_mutex w' = Destroyed ∧
    w_notes w' = CondDestroyed :: w_notes w ∧ freed (w_heap w) (w_heap w') (Lanes.members L) ∧
    pq_repr (w_heap w') (w_pq w') Lanes.empty.
Proof.
  destruct w as [[h q] mu notes]. intros [Hm Hr]. simpl in *. subst mu.
  destruct (destroy_body_ok h q L Hr) as (h' & q' & Hrun & Hf & Hr' & _).
  exists (mk_world (h', q') Destroyed (CondDestroyed :: notes)). split; [|done].
  unfold pq_destroy. cbn [negb]. mstep. unfold mbind at 1, M_bind at 1 in Hrun.
  destruct (destroy_lanes _ _ _) as [[[] [h1 q1]]| |] eqn:E; try done.
  injection Hrun as <- <-. mstep. mstep. mstep. mstep. mstep. done.
Qed.

(** [pq_destroy] frees the waiting nodes, all of them and no other, and leaves
    the mutex and the condition variable destroyed. *)
Theorem pq_destroy_frees w L :
  at_rest w L →
  ∃ w', pq_destroy true w = Ok (tt, w') ∧ w_mutex w' = Destroyed ∧
    w_notes w' = CondDestroyed :: w_notes w ∧ freed (w_heap w) (w_heap w') (Lanes.members L) ∧
    pq_repr (w_heap w') (w_pq w') Lanes.empty.
Proof. apply pq_destroy_run. Qed.

(** ** The ready mask *)

(** The bit scan that picks the lane is the binary logarithm of the mask. *)
Theorem highest_priority_is_log2 mask :
  0 < mask < 2 ^ 32 →
  ∃ p, _get_highest_priority mask = Ok p ∧ Z.testbit mask p = true ∧
    ∀ p', p < p' → Z.testbit mask p' = false.
Proof.
  intros H. exists (Z.log2 mask). rewrite get_highest_log2 by done. split; [done|].
  split; [apply Z.bit_log2; lia|]. intros p' Hp. by apply Z.bits_above_log2; lia.
Qed.

(** ** Time *)

(** The expiry test is exact for all clock readings of the next 272 years and all
    thresholds whose nanoseconds fit in a [long]; beyond that the multiplication
    overflows. *)
Theorem expiry_exact start now ms :
  ts_ok start → ts_ok now → 0 < ms → tv_sec start ≠ 0 →
  has_passed_ms start now ms =
    if bool_decide (ms * NSEC_PER_MSEC < 2 ^ 63)
    then Ok (bool_decide (ts_ns start + ms * NSEC_PER_MSEC ≤ ts_ns now))
    else Fault SignedOverflow.
Proof.
  intros Hs Hn Hms Hz. case_bool_decide as Hb.
  - rewrite has_passed_ms_ok by done. unfold expired. f_equal.
    replace (tv_sec start =? 0) with false by lia. simpl.
    case_bool_decide; lia.
  - destruct start as [s1 n1], now as [s2 n2].
    unfold ts_ok, has_passed_ms, NSEC_PER_SEC, NSEC_PER_MSEC in *. simpl in *.
    destruct Hs as [Hs1 Hn1], Hn as [Hs2 Hn2]. replace (s1 =? 0) with false by lia. simpl.
    unfold mbind, res_bind. rewrite (chk_i64_ok (s2 - s1)), (chk_i64_ok (n2 - n1)) by lia.
    assert (Ho : chk_i64 (ms * 1000000) = Fault SignedOverflow).
    { unfold chk_i64, is_i64. by replace (_ && _) with false by lia. }
    destruct (Z.ltb_spec (n2 - n1) 0).
    + rewrite (chk_i64_ok (s2 - s1 - 1)), (chk_i64_ok (n2 - n1 + 1000000000)) by lia.
      rewrite (chk_i64_ok ((s2 - s1 - 1) * 1000000000)), (chk_i64_ok (_ + (n2 - n1 + 1000000000))), Ho by lia. done.
    + rewrite (chk_i64_ok ((s2 - s1) * 1000000000)), (chk_i64_ok (_ + (n2 - n1))), Ho by lia. done.
Qed.

(** The wake-up time of the aging thread is exact and normalised. *)
Theorem wake_time_exact ts ms :
  ts_ok ts → ms_ok ms →
  ∃ ts', timespec_add_ms ts ms = Ok ts' ∧ ts_ns ts' = ts_ns ts + ms * NSEC_PER_MSEC ∧
    0 ≤ tv_nsec ts' < NSEC_PER_SEC.
Proof. apply timespec_add_ms_ok. Qed.

(** ** What aging does to waiting tasks *)

Lemma span_prefix {A} (f : A → bool) (a l : list A) :
  Forall (λ x, f x = true) a → (span f (a ++ l)).1 = a ++ (span f l).1.
Proof.
  induction 1 as [|x a Hx _ IH]; [done|]. simpl. rewrite Hx.
  destruct (span f (a ++ l)). simpl in *. by rewrite IH.
Qed.

Lemma promote_lanes_at ex src dst L p :
  (src < length L)%nat → (dst < length L)%nat → src ≠ dst →
  Lanes.lane (lanes_promote ex src dst L) p =
    if decide (p = dst) then (span ex (Lanes.lane L src)).1 ++ Lanes.lane L dst
    else if decide (p = src) then (span ex (Lanes.lane L src)).2 else Lanes.lane L p.
Proof.
  intros Hs Hd Hne. unfold lanes_promote. destruct (span ex (Lanes.lane L src)) as [pre rest].
  rewrite !lane_insert_lanes by (rewrite ?length_insert; done). done.
Qed.

(** Later readings of the clock expire more. *)
Lemma expired_later h now now' ms x :
  ts_ns now ≤ ts_ns now' → node_expired h now ms x = true → node_expired h now' ms x = true.
Proof.
  intros Hle. unfold node_expired. destruct (h !! x) as [t|]; [|done]. unfold expired. lia.
Qed.

(** C20: Two passes of aging bring a LOW task to HIGH once it and the tasks in front of
    it have waited long enough: no such task starves. *)
Theorem aging_reaches_high w L now1 now2 now3 now4 ms a x b :
  at_rest w L → times_ok (w_heap w) → ms_ok ms →
  Forall ts_ok [now1; now2; now3; now4] → ts_ns now2 ≤ ts_ns now3 →
  Lanes.lane L 0 = a ++ x :: b →
  Forall (λ y, node_expired (w_heap w) now2 ms y = true) (a ++ [x]) →
  ∃ w1 w2 L2, pq_aging true now1 now2 None None None ms w = Ok (tt, w1) ∧
    pq_aging true now3 now4 None None None ms w1 = Ok (tt, w2) ∧
    at_rest w2 L2 ∧ x ∈ Lanes.lane L2 2.
Proof.
  intros Hr Ht Hms Hn Hle Hlow Hexp.
  apply Forall_cons in Hn as [H1 Hn]. apply Forall_cons in Hn as [H2 Hn].
  apply Forall_cons in Hn as [H3 Hn]. apply Forall_cons in Hn as [H4 _].
  pose proof (repr_len3 (proj2 Hr)) as HL.
  destruct (pq_aging_ok w L now1 now2 None None None ms Hr H1 H2 Hms Ht) as (w1 & Hrun1 & Hr1 & Hp1 & _).
  simpl in Hr1. unfold promote_spec in Hr1. simpl in Hr1. set (L1 := lanes_promote _ 0 1 _) in Hr1.
  assert (Ht1 : times_ok (w_heap w1)) by by eapply payload_times.
  destruct (pq_aging_ok w1 L1 now3 now4 None None None ms Hr1 H3 H4 Hms Ht1) as (w2 & Hrun2 & Hr2 & _).
  eexists w1, w2, _. split_and!; [done|done|exact Hr2|]. simpl. unfold promote_spec. simpl.
  assert (HL1 : length L1 = 3%nat) by (unfold L1; by rewrite !length_lanes_promote).
  rewrite promote_lanes_at by (rewrite ?length_lanes_promote; lia). simpl.
  rewrite promote_lanes_at by lia. simpl.
  assert (Hmed : ∃ l, Lanes.lane L1 1 = (a ++ [x]) ++ l).
  { unfold L1. rewrite promote_lanes_at by (rewrite ?length_lanes_promote; lia). simpl.
    rewrite promote_lanes_at by lia. simpl. rewrite Hlow.
    change (a ++ x :: b) with (a ++ [x] ++ b). rewrite app_assoc, span_prefix by done.
    rewrite <- app_assoc. by eexists. }
  destruct Hmed as [l ->]. rewrite span_prefix.
  - set_solver.
  - eapply Forall_impl; [exact Hexp|]. intros y Hy. simpl in Hy.
    rewrite (payload_expired _ _ now3 ms Hp1). by eapply expired_later.
Qed.

(** C39: A task submitted while aging was off carries no time stamp; at the head of the
    LOW lane it keeps every task behind it from being promoted, however long they
    have waited. *)
Theorem aging_blocked_by_unstamped w L now1 now2 flag1 flag2 flag3 ms x l t :
  at_rest w L → times_ok (w_heap w) → ms_ok ms → ts_ok now1 → ts_ok now2 →
  Lanes.lane L 0 = x :: l → w_heap w !! x = Some t → submit_time t = mk_ts 0 0 →
  ∃ w' L', pq_aging true now1 now2 flag1 flag2 flag3 ms w = Ok (tt, w') ∧ at_rest w' L' ∧
    Lanes.lane L' 0 = Lanes.lane L 0.
Proof.
  intros Hr Ht Hms H1 H2 Hlow Hx Hst. pose proof (repr_len3 (proj2 Hr)) as HL.
  destruct (pq_aging_ok w L now1 now2 flag1 flag2 flag3 ms Hr H1 H2 Hms Ht) as (w' & Hrun & Hr' & _).
  eexists w', _. split_and!; [done|exact Hr'|]. cbv zeta.
  assert (Hne : node_expired (w_heap w) now2 ms x = false)
    by (unfold node_expired; by rewrite Hx, Hst).
  assert (Hl1 : Lanes.lane (promote_spec (w_heap w) flag1 now1 ms 1 2 L) 0 = x :: l).
  { unfold promote_spec. destruct (_shutdown_requested flag1); [done|]. by rewrite promote_lanes_at by lia. }
  assert (Hlen : length (promote_spec (w_heap w) flag1 now1 ms 1 2 L) = 3%nat).
  { unfold promote_spec. destruct (_shutdown_requested flag1); [done|]. by rewrite length_lanes_promote. }
  rewrite Hlow. destruct (_shutdown_requested flag2); [done|]. unfold promote_spec at 1.
  destruct (_shutdown_requested flag3); [done|]. rewrite promote_lanes_at by lia. simpl.
  rewrite Hl1. simpl. by rewrite Hne.
Qed.

(** ** Initialisation and NULL arguments *)

(** [pq_init] reports success exactly when both objects were created, leaves an
    empty queue, and on failure leaves nothing initialised. *)
Theorem pq_init_outcome q mutex_ok cond_ok :
  let '(rc, q', live) := pq_init (Some q) mutex_ok cond_ok in
  (rc = 0 ↔ mutex_ok = true ∧ cond_ok = true) ∧
  (rc = 0 → live = [PqCond; PqMutex]) ∧ (rc ≠ 0 → rc = -1 ∧ live = []) ∧
  ∃ q0, q' = Some q0 ∧ ∀ h, pq_repr h q0 Lanes.empty.
Proof.
  assert (Hz : ∃ q0, Some pq_zero = Some q0 ∧ ∀ h, pq_repr h q0 Lanes.empty)
    by (exists pq_zero; split; [done|apply pq_zero_repr]).
  destruct mutex_ok, cond_ok; simpl; (split_and!; [|done|done|done]); split; try done; by intros [].
Qed.

(** ** The statements at concrete queues *)

Module QueueWitness.
Definition node (p : Z) (s : Z) : task_t := mk_task 0 1 0 p (mk_ts s 0) None.

(** Four created tasks and an empty queue. *)
Definition heap0 : gmap loc task_t :=
  {[ 1%positive := node 0 5; 2%positive := node 2 5; 3%positive := node 1 5; 4%positive := node 0 9 ]}.
Definition w0 : pq_world := mk_world (heap0, pq_zero) Unlocked [].

(** Task 1 is queued in the LOW lane. *)
Definition w1 : pq_world :=
  match pq_push true (Some 1%positive) w0 with Ok (_, w) => w | _ => w0 end.
Definition L1 : Lanes.t := [[1%positive]; []; []].

Lemma rest0 : at_rest w0 Lanes.empty.
Proof. split; [done|apply pq_zero_repr]. Defined.

Lemma rest1 : at_rest w1 L1.
Proof.
  destruct (pq_push_ok w0 Lanes.empty 1 0 rest0) as (w' & Hrun & Hr & _).
  - split; [by exists (node 0 5)|]. split; [lia|apply not_elem_of_nil].
  - unfold w1. rewrite Hrun. exact Hr.
Qed.

Lemma times0 : times_ok heap0.
Proof.
  repeat (apply map_Forall_insert_2; [unfold ts_ok, NSEC_PER_SEC; simpl; lia|]). apply map_Forall_empty.
Qed.

Lemma batch0 : batch_ok w0 Lanes.empty [1; 2; 3; 4]%positive.
Proof.
  split; [apply (bool_decide_unpack _); vm_compute; exact I|].
  repeat constructor; try (by eexists); try (by vm_compute); apply not_elem_of_nil.
Qed.

Lemma queue_service_order_witness :
  ∃ w', (push_all [1; 2; 3; 4]%positive;; drain 5) w0 = Ok ([2; 3; 1; 4]%positive, w').
Proof. apply (queue_service_order [1; 2; 3; 4]%positive 5 w0 rest0 batch0). simpl. lia. Defined.

Definition ops0 : list qop :=
  [OpPush 1; OpTryPush 2; OpSetMax 2; OpTryPush 3; OpSize; OpAging (mk_ts 9 0) (mk_ts 9 1) 1000;
   OpPop; OpPop; OpPop; OpEmpty]%positive.

Lemma queue_refinement_witness :
  ∃ w', run_ops ops0 w0 =
    Ok ([QVoid; QBool true; QVoid; QBool false; QInt 2; QVoid; QPtr (Some 2%positive);
         QPtr (Some 1%positive); QPtr None; QInt 1], w').
Proof.
  apply (queue_refinement heap0 ops0 w0 (mk_spec Lanes.empty 0)).
  - apply times0.
  - repeat constructor; try done; try (by eexists); unfold NSEC_PER_SEC, NSEC_PER_MSEC; simpl; lia.
  - split; try done; [apply rest0| |].
    + intros x _. split; [done|apply not_elem_of_nil].
    + apply (bool_decide_unpack _); vm_compute; exact I.
Defined.

Lemma try_push_capacity_witness :
  ∃ w', pq_try_push true (Some 2%positive) w1 = Ok (true, w') ∧
    pq_is_full_approx true (w_pq w1) = false ∧ (false = true → w' = w1) ∧
    (false = false → at_rest w' (Lanes.insert 2 2%positive L1) ∧ w_notes w' = [Signalled; Signalled]).
Proof.
  apply (try_push_capacity w1 L1 2 2 rest1); [|simpl; lia].
  split; [exists (node 2 5); by vm_compute|]. split; [lia|].
  apply not_elem_of_cons. split; [done|apply not_elem_of_nil].
Defined.

Lemma pop_until_shutdown_witness :
  ∃ w', pq_pop_until_shutdown true [(w_store w1, Some false)] (Some false) w0 = Ok (Some 1%positive, w') ∧
    at_rest w' [[]; []; []] ∧ ∃ t, w_heap w' !! 1%positive = Some t ∧ next t = None.
Proof.
  apply (pop_until_shutdown_spec w0 Lanes.empty [(w_store w1, Some false)] [L1] (Some false) rest0).
  constructor; [apply rest1|constructor].
Defined.

Lemma pq_pop_never_null_witness : pq_pop true [w_store w1] w0 ≠ Ok (None, w0).
Proof.
  apply (pq_pop_never_null w0 Lanes.empty [w_store w1] [L1] w0 rest0).
  constructor; [apply rest1|constructor].
Defined.

Lemma pq_destroy_frees_witness :
  ∃ w', pq_destroy true w1 = Ok (tt, w') ∧ w_mutex w' = Destroyed ∧
    w_notes w' = [CondDestroyed; Signalled] ∧ freed (w_heap w1) (w_heap w') [1%positive] ∧
    pq_repr (w_heap w') (w_pq w') Lanes.empty.
Proof. apply (pq_destroy_frees w1 L1 rest1). Defined.

Lemma highest_priority_witness :
  ∃ p, _get_highest_priority 5 = Ok p ∧ Z.testbit 5 p = true ∧ ∀ p', p < p' → Z.testbit 5 p' = false.
Proof. apply (highest_priority_is_log2 5). lia. Defined.

Lemma expiry_exact_witness : has_passed_ms (mk_ts 5 500) (mk_ts 7 400) 2000 = Ok false.
Proof.
  apply (expiry_exact (mk_ts 5 500) (mk_ts 7 400) 2000); unfold ts_ok, NSEC_PER_SEC; simpl; lia.
Defined.

Lemma wake_time_exact_witness :
  ∃ ts', timespec_add_ms (mk_ts 5 999000000) 2500 = Ok ts' ∧
    ts_ns ts' = ts_ns (mk_ts 5 999000000) + 2500 * NSEC_PER_MSEC ∧ 0 ≤ tv_nsec ts' < NSEC_PER_SEC.
Proof.
  apply (wake_time_exact (mk_ts 5 999000000) 2500);
    unfold ts_ok, ms_ok, NSEC_PER_SEC, NSEC_PER_MSEC; simpl; lia.
Defined.

Lemma times1 : times_ok (w_heap w1).
Proof.
  assert (H : payload <$> w_heap w1 = payload <$> heap0) by by vm_compute.
  apply (payload_times heap0 (w_heap w1) H), times0.
Qed.

Lemma aging_reaches_high_witness :
  ∃ w2 w3 L2, pq_aging true (mk_ts 9 0) (mk_ts 9 1) None None None 1000 w1 = Ok (tt, w2) ∧
    pq_aging true (mk_ts 9 2) (mk_ts 9 3) None None None 1000 w2 = Ok (tt, w3) ∧
    at_rest w3 L2 ∧ 1%positive ∈ Lanes.lane L2 2.
Proof.
  apply (aging_reaches_high w1 L1 (mk_ts 9 0) (mk_ts 9 1) (mk_ts 9 2) (mk_ts 9 3) 1000 [] 1 []).
  - apply rest1.
  - apply times1.
  - unfold ms_ok, NSEC_PER_MSEC. lia.
  - repeat constructor; simpl; unfold NSEC_PER_SEC; lia.
  - unfold ts_ns. simpl. lia.
  - reflexivity.
  - repeat constructor.
Defined.

Definition heapz : gmap loc task_t := {[ 1%positive := node 0 0 ]}.
Definition wz : pq_world := mk_world (heapz, mk_pq [Some 1%positive; None; None] [Some 1%positive; None; None] 1 1 1 0) Unlocked [].

Lemma restz : at_rest wz L1.
Proof.
  destruct (pq_push_ok (mk_world (heapz, pq_zero) Unlocked []) Lanes.empty 1 0) as (w' & Hrun & [_ Hr] & _).
  - split; [done|apply pq_zero_repr].
  - split; [by exists (node 0 0)|]. split; [lia|apply not_elem_of_nil].
  - vm_compute in Hrun. injection Hrun as <-. split; [done|exact Hr].
Qed.

Lemma aging_blocked_witness :
  ∃ w' L', pq_aging true (mk_ts 9999 0) (mk_ts 9999 1) None None None 1 wz = Ok (tt, w') ∧
    at_rest w' L' ∧ Lanes.lane L' 0 = [1%positive].
Proof.
  apply (aging_blocked_by_unstamped wz L1 (mk_ts 9999 0) (mk_ts 9999 1) None None None 1 1 [] (node 0 0)).
  - apply restz.
  - apply map_Forall_singleton. unfold ts_ok, NSEC_PER_SEC. simpl. lia.
  - unfold ms_ok, NSEC_PER_MSEC. lia.
  - unfold ts_ok, NSEC_PER_SEC. simpl. lia.
  - unfold ts_ok, NSEC_PER_SEC. simpl. lia.
  - reflexivity.
  - reflexivity.
  - reflexivity.
Defined.
End QueueWitness.
