(* ===== verification/Pthread.v ===== *)
(** * Pthread: threads, mutexes and condition variables

    An interleaving machine for pthread programs.  A program is a table from
    control points to actions; a control point is one atomic access, one call of
    the pthread library, or one critical section on data that its mutex
    protects.  The machine follows POSIX: a mutex has at most one owner,
    [pthread_cond_wait] releases it and sleeps in one step and re-acquires it
    before returning, [pthread_cond_signal] wakes one sleeper if there is one,
    sleepers may also wake spuriously (or by a timeout), [pthread_join] waits for
    the thread to end.  Atomics are sequentially consistent. *)
From S2P Require Export Prelude.

Section Machine.
Context {shared pc mutex cond choice : Type} `{!EqDecision mutex, !EqDecision cond}.

(** What an atomic step can do: go on, wait for its guard, or fault. *)
Inductive outcome :=
| Next (s : shared) (p : pc)
| Stuck
| Crash (f : fault).

Inductive action :=
| ALock (m : mutex) (p : pc)
| AUnlock (m : mutex) (p : pc)
| AWait (c : cond) (m : mutex) (p : pc)
| ASignal (c : cond) (p : pc)
| ABroadcast (c : cond) (p : pc)
| AJoin (tid : shared → nat) (p : pc)
| ASpawn (entry : pc) (created : nat → shared → shared * pc) (failed : shared → shared * pc)
| AStep (f : choice → shared → outcome)
| AExit.

(** A thread runs at a control point, sleeps on a condition variable, or was
    woken and waits for the mutex; [p] is where it goes on. *)
Inductive status :=
| Running (p : pc)
| Waiting (c : cond) (m : mutex) (p : pc)
| Relocking (m : mutex) (p : pc).

Record config := mk_config {
  sh : shared;
  owner : mutex → option nat;
  threads : list status
}.

Definition set_owner (o : mutex → option nat) (m : mutex) (x : option nat)
    : mutex → option nat := λ m', if decide (m' = m) then x else o m'.

(** [pthread_cond_broadcast] on the thread list. *)
Definition wake (c : cond) (st : status) : status :=
  match st with
  | Waiting c' m p => if decide (c' = c) then Relocking m p else st
  | _ => st
  end.

Definition waits_on (c : cond) (st : status) : bool :=
  match st with Waiting c' _ _ => bool_decide (c' = c) | _ => false end.

Context (code : pc → action).

Definition exited (c : config) (t : nat) : Prop :=
  ∃ p, threads c !! t = Some (Running p) ∧ code p = AExit.

Inductive step (c : config) : config → Prop :=
| step_lock i p m p' :
    threads c !! i = Some (Running p) → code p = ALock m p' → owner c m = None →
    step c (mk_config (sh c) (set_owner (owner c) m (Some i)) (<[i := Running p']> (threads c)))
| step_unlock i p m p' :
    threads c !! i = Some (Running p) → code p = AUnlock m p' → owner c m = Some i →
    step c (mk_config (sh c) (set_owner (owner c) m None) (<[i := Running p']> (threads c)))
| step_wait i p cv m p' :
    threads c !! i = Some (Running p) → code p = AWait cv m p' → owner c m = Some i →
    step c (mk_config (sh c) (set_owner (owner c) m None) (<[i := Waiting cv m p']> (threads c)))
| step_spurious i cv m p' :
    threads c !! i = Some (Waiting cv m p') →
    step c (mk_config (sh c) (owner c) (<[i := Relocking m p']> (threads c)))
| step_relock i m p' :
    threads c !! i = Some (Relocking m p') → owner c m = None →
    step c (mk_config (sh c) (set_owner (owner c) m (Some i)) (<[i := Running p']> (threads c)))
| step_signal_none i p cv p' :
    threads c !! i = Some (Running p) → code p = ASignal cv p' →
    Forall (λ st, waits_on cv st = false) (threads c) →
    step c (mk_config (sh c) (owner c) (<[i := Running p']> (threads c)))
| step_signal i p cv p' j m pj :
    threads c !! i = Some (Running p) → code p = ASignal cv p' →
    threads c !! j = Some (Waiting cv m pj) →
    step c (mk_config (sh c) (owner c)
              (<[i := Running p']> (<[j := Relocking m pj]> (threads c))))
| step_broadcast i p cv p' :
    threads c !! i = Some (Running p) → code p = ABroadcast cv p' →
    step c (mk_config (sh c) (owner c) (<[i := Running p']> (wake cv <$> threads c)))
| step_join i p tid p' :
    threads c !! i = Some (Running p) → code p = AJoin tid p' → exited c (tid (sh c)) →
    step c (mk_config (sh c) (owner c) (<[i := Running p']> (threads c)))
| step_spawn i p entry created failed s' p' :
    threads c !! i = Some (Running p) → code p = ASpawn entry created failed →
    created (length (threads c)) (sh c) = (s', p') →
    step c (mk_config s' (owner c) (<[i := Running p']> (threads c) ++ [Running entry]))
| step_spawn_fail i p entry created failed s' p' :
    threads c !! i = Some (Running p) → code p = ASpawn entry created failed →
    failed (sh c) = (s', p') →
    step c (mk_config s' (owner c) (<[i := Running p']> (threads c)))
| step_atom i p f z s' p' :
    threads c !! i = Some (Running p) → code p = AStep f → f z (sh c) = Next s' p' →
    step c (mk_config s' (owner c) (<[i := Running p']> (threads c))).

(** ** An executable scheduler *)

(** Which thread moves and how its non-determinism is resolved. *)
Inductive sched :=
| Go (i : nat)               (** any deterministic action *)
| With (i : nat) (z : choice)  (** an atomic step with a choice *)
| Sig (i j : nat)            (** a signal that wakes thread [j] *)
| Spurious (i : nat)
| SpawnFails (i : nat).

Definition exited_b (c : config) (t : nat) : bool :=
  match threads c !! t with
  | Some (Running p) => match code p with AExit => true | _ => false end
  | _ => false
  end.

Definition go (c : config) (i : nat) : option config :=
  match threads c !! i with
  | Some (Running p) =>
      match code p with
      | ALock m p' =>
          match owner c m with
          | Some _ => None
          | None => Some (mk_config (sh c) (set_owner (owner c) m (Some i))
                            (<[i := Running p']> (threads c)))
          end
      | AUnlock m p' =>
          if decide (owner c m = Some i)
          then Some (mk_config (sh c) (set_owner (owner c) m None)
                       (<[i := Running p']> (threads c)))
          else None
      | AWait cv m p' =>
          if decide (owner c m = Some i)
          then Some (mk_config (sh c) (set_owner (owner c) m None)
                       (<[i := Waiting cv m p']> (threads c)))
          else None
      | ASignal cv p' =>
          if forallb (λ st, negb (waits_on cv st)) (threads c)
          then Some (mk_config (sh c) (owner c) (<[i := Running p']> (threads c)))
          else None
      | ABroadcast cv p' =>
          Some (mk_config (sh c) (owner c) (<[i := Running p']> (wake cv <$> threads c)))
      | AJoin tid p' =>
          if exited_b c (tid (sh c))
          then Some (mk_config (sh c) (owner c) (<[i := Running p']> (threads c)))
          else None
      | ASpawn entry created _ =>
          let '(s', p') := created (length (threads c)) (sh c) in
          Some (mk_config s' (owner c) (<[i := Running p']> (threads c) ++ [Running entry]))
      | _ => None
      end
  | Some (Relocking m p') =>
      match owner c m with
      | Some _ => None
      | None => Some (mk_config (sh c) (set_owner (owner c) m (Some i))
                        (<[i := Running p']> (threads c)))
      end
  | _ => None
  end.

Definition exec (c : config) (l : sched) : option config :=
  match l with
  | Go i => go c i
  | With i z =>
      match threads c !! i with
      | Some (Running p) =>
          match code p with
          | AStep f => match f z (sh c) with
                       | Next s' p' =>
                           Some (mk_config s' (owner c) (<[i := Running p']> (threads c)))
                       | _ => None
                       end
          | _ => None
          end
      | _ => None
      end
  | Sig i j =>
      match threads c !! i, threads c !! j with
      | Some (Running p), Some (Waiting cv m pj) =>
          match code p with
          | ASignal cv' p' =>
              if decide (cv = cv')
              then Some (mk_config (sh c) (owner c)
                           (<[i := Running p']> (<[j := Relocking m pj]> (threads c))))
              else None
          | _ => None
          end
      | _, _ => None
      end
  | Spurious i =>
      match threads c !! i with
      | Some (Waiting cv m p') =>
          Some (mk_config (sh c) (owner c) (<[i := Relocking m p']> (threads c)))
      | _ => None
      end
  | SpawnFails i =>
      match threads c !! i with
      | Some (Running p) =>
          match code p with
          | ASpawn _ _ failed =>
              let '(s', p') := failed (sh c) in
              Some (mk_config s' (owner c) (<[i := Running p']> (threads c)))
          | _ => None
          end
      | _ => None
      end
  end.

Fixpoint run (c : config) (ls : list sched) : option config :=
  match ls with
  | [] => Some c
  | l :: ls' => c' ← exec c l; run c' ls'
  end.

Lemma go_sound c i c' : go c i = Some c' → step c c'.
Proof.
  unfold go. destruct (threads c !! i) as [[p|cv m p|m p]|] eqn:Hi; try done.
  - destruct (code p) eqn:Hp; try done.
    + destruct (owner c m) eqn:Ho; [done|]. intros [= <-]. by eapply step_lock.
    + case_decide; [|done]. intros [= <-]. by eapply step_unlock.
    + case_decide; [|done]. intros [= <-]. by eapply step_wait.
    + destruct (forallb _ _) eqn:Hf; [|done]. intros [= <-]. eapply step_signal_none; try done.
      apply Forall_forall. intros st Hst%list_elem_of_In. rewrite forallb_forall in Hf.
      by apply Hf, negb_true_iff in Hst.
    + intros [= <-]. by eapply step_broadcast.
    + destruct (exited_b _ _) eqn:He; [|done]. intros [= <-]. eapply step_join; try done.
      unfold exited_b in He. destruct (threads c !! tid (sh c)) as [[q| |]|] eqn:Hq; try done.
      exists q. split; [done|]. by destruct (code q).
    + destruct (created _ _) as [s' p'] eqn:Hc. intros [= <-]. by eapply step_spawn.
  - destruct (owner c m) eqn:Ho; [done|]. intros [= <-]. by eapply step_relock.
Qed.

Lemma exec_sound c l c' : exec c l = Some c' → step c c'.
Proof.
  destruct l as [i|i z|i j|i|i]; simpl; [apply go_sound|..].
  - destruct (threads c !! i) as [[p| |]|] eqn:Hi; try done.
    destruct (code p) eqn:Hp; try done. destruct (f z (sh c)) eqn:Hf; try done.
    intros [= <-]. by eapply step_atom.
  - destruct (threads c !! i) as [[p| |]|] eqn:Hi; try done.
    destruct (threads c !! j) as [[|cv m pj|]|] eqn:Hj; try done.
    destruct (code p) eqn:Hp; try done. case_decide; [subst|done]. intros [= <-].
    by eapply step_signal.
  - destruct (threads c !! i) as [[|cv m p'|]|] eqn:Hi; try done. intros [= <-].
    by eapply step_spurious.
  - destruct (threads c !! i) as [[p| |]|] eqn:Hi; try done.
    destruct (code p) eqn:Hp; try done. destruct (failed (sh c)) as [s' p'] eqn:Hf.
    intros [= <-]. by eapply step_spawn_fail.
Qed.

(** Every schedule that runs is a sequence of steps. *)
Lemma run_sound ls c c' : run c ls = Some c' → rtc step c c'.
Proof.
  revert c. induction ls as [|l ls IH]; intros c; simpl; [by intros [= ->]|].
  destruct (exec c l) as [c1|] eqn:He; [|done]. simpl. intros Hr.
  eapply rtc_l; [by eapply exec_sound|by apply IH].
Qed.

(** ** Control points and moves *)

Definition pc_of (st : status) : pc :=
  match st with Running p | Waiting _ _ p | Relocking _ p => p end.
Definition pcs (c : config) : list pc := pc_of <$> threads c.

Definition goto (a : action) (p' : pc) : Prop :=
  match a with
  | ALock _ q | AUnlock _ q | AWait _ _ q | ASignal _ q | ABroadcast _ q => q = p'
  | _ => False
  end.

(** What a thread at [p] can do to the shared state and to the list of control
    points, forgetting who owns which mutex and who sleeps. *)
Inductive move (ps : list pc) (p : pc) (s : shared) : shared → pc → list pc → Prop :=
| mv_goto p' : goto (code p) p' → move ps p s s p' []
| mv_join tid q p' :
    code p = AJoin tid p' → ps !! tid s = Some q → code q = AExit → move ps p s s p' []
| mv_spawn entry created failed s' p' :
    code p = ASpawn entry created failed → created (length ps) s = (s', p') →
    move ps p s s' p' [entry]
| mv_spawn_fail entry created failed s' p' :
    code p = ASpawn entry created failed → failed s = (s', p') → move ps p s s' p' []
| mv_atom f z s' p' : code p = AStep f → f z s = Next s' p' → move ps p s s' p' [].

Lemma pcs_insert c i st :
  pc_of <$> <[i := st]> (threads c) = <[i := pc_of st]> (pcs c).
Proof. unfold pcs. by rewrite list_fmap_insert. Qed.

Lemma pcs_wake cv c : pc_of <$> (wake cv <$> threads c) = pcs c.
Proof.
  unfold pcs. rewrite <- list_fmap_compose. apply list_fmap_ext. intros i st _. simpl.
  destruct st as [|c' m p|]; simpl; try done. by case_decide.
Qed.

Lemma pcs_lookup c i st : threads c !! i = Some st → pcs c !! i = Some (pc_of st).
Proof. intros H. unfold pcs. by rewrite list_lookup_fmap, H. Qed.

Lemma step_pcs c c' :
  step c c' →
  (sh c' = sh c ∧ pcs c' = pcs c) ∨
  (∃ i p p' sp, threads c !! i = Some (Running p) ∧
     move (pcs c) p (sh c) (sh c') p' sp ∧ pcs c' = <[i := p']> (pcs c) ++ sp).
Proof.
  assert (Hgo : ∀ i p p' c1, threads c !! i = Some (Running p) → goto (code p) p' →
    sh c1 = sh c → pcs c1 = <[i := p']> (pcs c) →
    ∃ i p p' sp, threads c !! i = Some (Running p) ∧
     move (pcs c) p (sh c) (sh c1) p' sp ∧ pcs c1 = <[i := p']> (pcs c) ++ sp).
  { intros i p p' c1 Hi Hg Hs Hp. exists i, p, p', []. rewrite Hs, Hp, app_nil_r.
    split_and!; [done|by constructor|done]. }
  destruct 1 as [i p m p' Hi Hp Ho|i p m p' Hi Hp Ho|i p cv m p' Hi Hp Ho|i cv m p' Hi
    |i m p' Hi Ho|i p cv p' Hi Hp Hf|i p cv p' j m pj Hi Hp Hj|i p cv p' Hi Hp
    |i p tid p' Hi Hp He|i p entry created failed s' p' Hi Hp Hc
    |i p entry created failed s' p' Hi Hp Hc|i p f z s' p' Hi Hp Hf].
  - right. eapply Hgo; [done|by rewrite Hp|done|apply pcs_insert].
  - right. eapply Hgo; [done|by rewrite Hp|done|apply pcs_insert].
  - right. eapply Hgo; [done|by rewrite Hp|done|apply pcs_insert].
  - left. split; [done|]. unfold pcs at 1. simpl. rewrite pcs_insert.
    apply list_insert_id. apply (pcs_lookup _ _ _ Hi).
  - left. split; [done|]. unfold pcs at 1. simpl. rewrite pcs_insert.
    apply list_insert_id. apply (pcs_lookup _ _ _ Hi).
  - right. eapply Hgo; [done|by rewrite Hp|done|apply pcs_insert].
  - right. eapply Hgo; [done|by rewrite Hp|done|]. unfold pcs at 1. simpl.
    rewrite !list_fmap_insert. simpl. f_equal. apply list_insert_id.
    apply (pcs_lookup _ _ _ Hj).
  - right. eapply Hgo; [done|by rewrite Hp|done|]. unfold pcs at 1. simpl.
    rewrite list_fmap_insert, pcs_wake. done.
  - right. destruct He as (q & Hq & He). exists i, p, p', []. rewrite app_nil_r.
    split_and!; [done| |apply pcs_insert]. by eapply mv_join; [|apply (pcs_lookup _ _ _ Hq)|].
  - right. exists i, p, p', [entry]. split_and!; [done| |].
    + eapply mv_spawn; [done|]. unfold pcs. by rewrite length_fmap.
    + unfold pcs at 1. simpl. by rewrite fmap_app, pcs_insert.
  - right. exists i, p, p', []. rewrite app_nil_r.
    split_and!; [done| |apply pcs_insert]. by eapply mv_spawn_fail.
  - right. exists i, p, p', []. rewrite app_nil_r.
    split_and!; [done| |apply pcs_insert]. by eapply mv_atom.
Qed.

(** Control points where [pthread_cond_wait] returns. *)
Definition resume_pc (p : pc) : Prop := ∃ q cv m, code q = AWait cv m p.

(** ** Lock discipline

    [holds p m]: a thread running at [p] owns [m].  A table follows the
    discipline when every action agrees with the annotation. *)
Context (holds : pc → mutex → bool).

Definition same_holds (p p' : pc) : Prop := ∀ m, holds p' m = holds p m.

Definition disciplined_at (p : pc) : Prop :=
  match code p with
  | ALock m p' => holds p m = false ∧
      ∀ m', holds p' m' = if decide (m' = m) then true else holds p m'
  | AUnlock m p' => holds p m = true ∧
      ∀ m', holds p' m' = if decide (m' = m) then false else holds p m'
  | AWait _ m p' => holds p m = true ∧ same_holds p p'
  | ASignal _ p' | ABroadcast _ p' | AJoin _ p' => same_holds p p'
  | ASpawn entry created failed =>
      (∀ m, holds entry m = false) ∧
      (∀ n s s' p', created n s = (s', p') → same_holds p p') ∧
      (∀ s s' p', failed s = (s', p') → same_holds p p')
  | AStep f => ∀ z s s' p', f z s = Next s' p' → same_holds p p'
  | AExit => ∀ m, holds p m = false
  end.

Definition disciplined : Prop := ∀ p, disciplined_at p.

Definition status_holds (st : status) (m : mutex) : bool :=
  match st with
  | Running p => holds p m
  | Waiting _ m' p | Relocking m' p => if decide (m = m') then false else holds p m
  end.

Definition hold_at (th : list status) (i : nat) (m : mutex) : bool :=
  match th !! i with Some st => status_holds st m | None => false end.

(** The owner of a mutex is the thread whose control point holds it. *)
Definition owned_on (o : mutex → option nat) (th : list status) : Prop :=
  ∀ m i, o m = Some i ↔ hold_at th i m = true.
Definition owned (c : config) : Prop := owned_on (owner c) (threads c).

(** Sleepers resume at a point that holds their mutex. *)
Definition sleepers_ok (c : config) : Prop :=
  ∀ i st, threads c !! i = Some st →
    match st with
    | Running _ => True
    | Waiting cv m p => holds p m = true ∧ ∃ q, code q = AWait cv m p
    | Relocking m p => holds p m = true ∧ ∃ q cv, code q = AWait cv m p
    end.

Lemma hold_at_insert th i j st m st0 :
  th !! i = Some st0 →
  hold_at (<[i := st]> th) j m = if decide (j = i) then status_holds st m else hold_at th j m.
Proof.
  intros Hi. unfold hold_at. case_decide as Hj; [subst|].
  - by rewrite list_lookup_insert_eq by by eapply lookup_lt_Some.
  - by rewrite list_lookup_insert_ne.
Qed.

Lemma hold_at_lookup th i st m : th !! i = Some st → hold_at th i m = status_holds st m.
Proof. unfold hold_at. by intros ->. Qed.

(** A step that keeps what the moving thread holds. *)
Lemma owned_keep o th i st st' :
  owned_on o th → th !! i = Some st → (∀ m, status_holds st' m = status_holds st m) →
  owned_on o (<[i := st']> th).
Proof.
  intros Ho Hi Hs m j. rewrite (Ho m j), (hold_at_insert _ _ _ _ _ _ Hi).
  case_decide; [subst|done]. by rewrite Hs, (hold_at_lookup _ _ _ _ Hi).
Qed.

Lemma owned_acquire o th i st st' m :
  owned_on o th → th !! i = Some st → o m = None →
  (∀ m', status_holds st' m' = if decide (m' = m) then true else status_holds st m') →
  owned_on (set_owner o m (Some i)) (<[i := st']> th).
Proof.
  intros Ho Hi Hn Hs m' j. rewrite (hold_at_insert _ _ _ _ _ _ Hi). unfold set_owner.
  pose proof (Ho m j) as Hj. pose proof (Ho m' j) as Hj'. rewrite Hn in Hj.
  rewrite Hs. repeat case_decide; subst; try done.
  - split; [congruence|]. by intros ?%Hj.
  - by rewrite Hj', (hold_at_lookup _ _ _ _ Hi).
Qed.

Lemma owned_release o th i st st' m :
  owned_on o th → th !! i = Some st → o m = Some i →
  (∀ m', status_holds st' m' = if decide (m' = m) then false else status_holds st m') →
  owned_on (set_owner o m None) (<[i := st']> th).
Proof.
  intros Ho Hi Hn Hs m' j. rewrite (hold_at_insert _ _ _ _ _ _ Hi). unfold set_owner.
  pose proof (Ho m j) as Hj. pose proof (Ho m' j) as Hj'. rewrite Hn in Hj.
  rewrite Hs. repeat case_decide; subst; try done.
  - split; [done|]. intros ?%Hj. congruence.
  - by rewrite Hj', (hold_at_lookup _ _ _ _ Hi).
Qed.

Lemma wake_holds cv st m : status_holds (wake cv st) m = status_holds st m.
Proof. destruct st as [|c' m' p|]; simpl; try done. by case_decide. Qed.

Lemma owned_wake cv o th : owned_on o th → owned_on o (wake cv <$> th).
Proof.
  intros Ho m i. rewrite (Ho m i). unfold hold_at. rewrite list_lookup_fmap.
  destruct (th !! i); simpl; [by rewrite wake_holds|done].
Qed.

Lemma owned_spawn o th entry :
  (∀ m, holds entry m = false) → owned_on o th → owned_on o (th ++ [Running entry]).
Proof.
  intros He Ho m i. rewrite (Ho m i). unfold hold_at.
  destruct (decide (i < length th)) as [Hi|Hi].
  - by rewrite lookup_app_l.
  - rewrite lookup_app_r, (lookup_ge_None_2 th) by lia.
    destruct (i - length th); simpl; [by rewrite He|done].
Qed.

(** Ownership is an invariant of every disciplined table. *)
Lemma owned_step c c' : disciplined → sleepers_ok c → owned c → step c c' → owned c'.
Proof.
  intros Hd Hsl Ho. unfold disciplined, disciplined_at in Hd. unfold owned in *.
  destruct 1 as [i p m p' Hi Hp Hw|i p m p' Hi Hp Hw|i p cv m p' Hi Hp Hw|i cv m p' Hi
    |i m p' Hi Hw|i p cv p' Hi Hp Hf|i p cv p' j m pj Hi Hp Hj|i p cv p' Hi Hp
    |i p tid p' Hi Hp He|i p entry created failed s' p' Hi Hp Hc
    |i p entry created failed s' p' Hi Hp Hc|i p f z s' p' Hi Hp Hf];
    try (specialize (Hd p); rewrite Hp in Hd); cbn [owner threads].
  - destruct Hd as [_ Hh]. by eapply owned_acquire.
  - destruct Hd as [_ Hh]. by eapply owned_release.
  - destruct Hd as [_ Hh]. eapply owned_release; [done..|]. intros m'. simpl.
    case_decide; [done|]. apply Hh.
  - by eapply owned_keep.
  - destruct (Hsl i _ Hi) as [Hh _]. eapply owned_acquire; [done..|]. intros m'. simpl.
    case_decide; [by subst|done].
  - by eapply owned_keep.
  - eapply owned_keep with (st := Running p); [by eapply owned_keep| |exact Hd].
    rewrite list_lookup_insert_ne; [done|]. intros ->. congruence.
  - eapply owned_keep with (st := Running p); [by apply owned_wake| |exact Hd]. by rewrite list_lookup_fmap, Hi.
  - by eapply owned_keep.
  - destruct Hd as (He & Hh & _). apply owned_spawn; [done|].
    eapply owned_keep; [done..|]. by eapply Hh.
  - destruct Hd as (_ & _ & Hh). eapply owned_keep; [done..|]. by eapply Hh.
  - eapply owned_keep; [done..|]. by eapply Hd.
Qed.

Lemma sleepers_step c c' : disciplined → sleepers_ok c → step c c' → sleepers_ok c'.
Proof.
  intros Hd Hsl. unfold disciplined, disciplined_at in Hd.
  pose (ok := λ st : status, match st with
    | Running _ => True
    | Waiting cv m p => holds p m = true ∧ ∃ q, code q = AWait cv m p
    | Relocking m p => holds p m = true ∧ ∃ q cv, code q = AWait cv m p
    end).
  assert (Hins : ∀ s' o' th i st, (∀ j st', th !! j = Some st' → ok st') → ok st →
    sleepers_ok (mk_config s' o' (<[i := st]> th))).
  { intros s' o' th i st Hs Hst j st' Hj. simpl in Hj.
    apply list_lookup_insert_Some in Hj as [(-> & -> & _)|[_ Hj]]; [done|by eapply Hs]. }
  destruct 1 as [i p m p' Hi Hp Hw|i p m p' Hi Hp Hw|i p cv m p' Hi Hp Hw|i cv m p' Hi
    |i m p' Hi Hw|i p cv p' Hi Hp Hf|i p cv p' j m pj Hi Hp Hj|i p cv p' Hi Hp
    |i p tid p' Hi Hp He|i p entry created failed s' p' Hi Hp Hc
    |i p entry created failed s' p' Hi Hp Hc|i p f z s' p' Hi Hp Hf];
    try by apply Hins.
  - apply Hins; [done|]. specialize (Hd p). rewrite Hp in Hd.
    destruct Hd as [Hm Hh]. split; [by rewrite Hh|by exists p].
  - apply Hins; [done|]. destruct (Hsl _ _ Hi) as (? & q & Hq). simpl. eauto.
  - apply Hins; [|done]. intros k st Hk.
    apply list_lookup_insert_Some in Hk as [(-> & <- & _)|[_ Hk]]; [|by eapply Hsl].
    destruct (Hsl _ _ Hj) as (? & q & Hq). simpl. eauto.
  - apply Hins; [|done]. intros k st Hk. rewrite list_lookup_fmap in Hk.
    destruct (threads c !! k) as [st0|] eqn:Hk0; [|done]. specialize (Hsl _ _ Hk0).
    simplify_eq/=. destruct st0 as [|c0 m0 p0|]; simpl; try done. case_decide; [|done].
    destruct Hsl as (? & q & Hq). simpl. eauto.
  - intros k st Hk. simpl in Hk. apply lookup_app_Some in Hk as [Hk|[_ Hk]].
    + eapply (Hins s' (owner c) (threads c) i (Running p')); done.
    + apply list_lookup_singleton_Some in Hk as [_ <-]. done.
Qed.

(** ** Reachable configurations *)

(** An initial configuration: every thread runs at a point that holds nothing. *)
Definition initial (c : config) : Prop :=
  (∀ m, owner c m = None) ∧
  (∀ i st, threads c !! i = Some st → ∃ p, st = Running p ∧ ∀ m, holds p m = false).

Lemma initial_ok c : initial c → owned c ∧ sleepers_ok c.
Proof.
  intros [Ho Ht]. split.
  - intros m i. rewrite Ho. split; [done|]. unfold hold_at.
    destruct (threads c !! i) as [st|] eqn:Hi; [|done].
    destruct (Ht _ _ Hi) as (p & -> & Hp). simpl. by rewrite Hp.
  - intros i st Hi. by destruct (Ht _ _ Hi) as (p & -> & _).
Qed.

Lemma reachable_owned c0 c :
  disciplined → initial c0 → rtc step c0 c → owned c ∧ sleepers_ok c.
Proof.
  intros Hd Hi. apply initial_ok in Hi. induction 1 as [|c0 c1 c2 Hs _ IH]; [done|].
  apply IH. destruct Hi. split; [by eapply owned_step|by eapply sleepers_step].
Qed.

(** Two threads never hold the same mutex. *)
Lemma owned_exclusive c m i j :
  owned c → hold_at (threads c) i m = true → hold_at (threads c) j m = true → i = j.
Proof. intros Ho Hi%Ho Hj%Ho. congruence. Qed.

(** Inside a critical section, seen on control points: a thread at a point that
    holds [m] and is not a return of [pthread_cond_wait] owns [m]. *)
Lemma pcs_hold c i p m :
  sleepers_ok c → pcs c !! i = Some p → ¬ resume_pc p → holds p m = true →
  hold_at (threads c) i m = true.
Proof.
  intros Hs Hi Hn Hh. unfold pcs in Hi. rewrite list_lookup_fmap in Hi.
  destruct (threads c !! i) as [st|] eqn:Hst; [|done]. simplify_eq/=.
  erewrite hold_at_lookup by done. specialize (Hs _ _ Hst).
  destruct st as [q|cv m' q|m' q]; [done|exfalso..]; apply Hn.
  - destruct Hs as (_ & q' & Hq). by exists q', cv, m'.
  - destruct Hs as (_ & q' & cv & Hq). by exists q', cv, m'.
Qed.

(** Induction over reachable configurations with the moves of [step_pcs]. *)
Lemma reach_ind (I : shared → list pc → Prop) c0 :
  disciplined → initial c0 → I (sh c0) (pcs c0) →
  (∀ c i p p' s' sp, rtc step c0 c → owned c → sleepers_ok c → I (sh c) (pcs c) →
     threads c !! i = Some (Running p) → pcs c !! i = Some p →
     move (pcs c) p (sh c) s' p' sp →
     I s' (<[i := p']> (pcs c) ++ sp)) →
  ∀ c, rtc step c0 c → I (sh c) (pcs c).
Proof.
  intros Hd Hi H0 Hstep. apply (rtc_ind_r (λ c, I (sh c) (pcs c))); [done|].
  intros c c' Hr Hs HI.
  destruct (reachable_owned c0 c Hd Hi Hr) as [Ho Hsl].
  destruct (step_pcs c c' Hs) as [[-> ->]|(i & p & p' & sp & Hth & Hm & ->)]; [done|].
  eapply Hstep; try done. apply (pcs_lookup _ _ _ Hth).
Qed.
End Machine.

Arguments outcome : clear implicits.
Arguments action : clear implicits.
Arguments status : clear implicits.
Arguments config : clear implicits.

(** ** Schedules in short form *)

(** [m] steps of a thread with no choice to make, or one explicit step. *)
Inductive cmd {choice : Type} := Do (i m : nat) | Ex (l : @sched choice).
Arguments cmd : clear implicits.

Section Drive.
Context {shared pc mutex cond choice : Type} `{!EqDecision mutex, !EqDecision cond}.
Context (code : pc → action shared pc mutex cond choice) (tau : choice).
Abbreviation conf := (config shared pc mutex cond).

Fixpoint walk (i m : nat) (c : conf) : option conf :=
  match m with
  | O => Some c
  | S m' => c' ← match exec code c (With i tau) with
                 | Some c' => Some c'
                 | None => exec code c (Go i)
                 end; walk i m' c'
  end.

Fixpoint drive (ls : list (cmd choice)) (c : conf) : option conf :=
  match ls with
  | [] => Some c
  | Do i m :: ls' => c' ← walk i m c; drive ls' c'
  | Ex l :: ls' => c' ← exec code c l; drive ls' c'
  end.

Lemma walk_sound i m c c' : walk i m c = Some c' → rtc (step code) c c'.
Proof.
  revert c. induction m as [|m IH]; intros c H; cbn [walk] in H; [by injection H as ->|].
  destruct (exec code c (With i tau)) as [c1|] eqn:E1.
  - eapply rtc_l; [by eapply exec_sound|by apply IH].
  - destruct (exec code c (Go i)) as [c1|] eqn:E2; [|done].
    eapply rtc_l; [by eapply exec_sound|by apply IH].
Qed.

Lemma drive_sound ls c c' : drive ls c = Some c' → rtc (step code) c c'.
Proof.
  revert c. induction ls as [|[i m|l] ls IH]; intros c H; cbn [drive] in H; [by injection H as ->|..].
  - destruct (walk i m c) as [c1|] eqn:E; [|done].
    eapply rtc_trans; [by eapply walk_sound|by apply IH].
  - destruct (exec code c l) as [c1|] eqn:E; [|done].
    eapply rtc_l; [by eapply exec_sound|by apply IH].
Qed.

(** Runs a schedule and tests the state it ends in. *)
Definition drives_to (c0 : conf) (ls : list (cmd choice)) (P : conf → bool) : bool :=
  match drive ls c0 with Some c => P c | None => false end.

Lemma drives_to_reach c0 ls P :
  drives_to c0 ls P = true → ∃ c, rtc (step code) c0 c ∧ P c = true.
Proof.
  unfold drives_to. destruct (drive _ _) as [c|] eqn:E; [|done]. intros HP. exists c.
  split; [by eapply drive_sound|done].
Qed.
End Drive.
