(* ===== verification/Pool.v ===== *)
(** * Pool: the thread pool as a table of control points
      (src/thread_pool.c, src/internal/struct.h, include/worker.h)

    Each constructor of [pc] is one line (or one critical section on data owned
    by the mutex it runs under) of worker_func, aging_worker or an API function;
    [code] gives its action.  Calls into the priority queue are inlined at the
    granularity of its lock, body, unlock and notification. *)
From S2P Require Export Pthread Aging.
Local Open Scope Z_scope.

(** ** Data *)

Inductive mutex_id := MPq | MDrain | MPause | MAging.
Inductive cond_id := CNotEmpty | CDrain | CPause | CAging.

#[export] Instance mutex_id_eq_dec : EqDecision mutex_id.
Proof. solve_decision. Defined.
#[export] Instance cond_id_eq_dec : EqDecision cond_id.
Proof. solve_decision. Defined.

(** [struct worker_t]; [tid] is the index of the thread. *)
Record worker_t := mk_worker { tid : nat; id : Z; busy : bool }.

(** A task as its submitter and its executor see it. *)
Definition job : Type := Z * Z * Z.
Definition job_of (t : task_t) : job := (task_id t, func t, arg t).

(** [struct thread_pool] with the task store.  The last five fields are ghosts:
    the jobs pushed and the jobs run so far, the number of API calls in progress
    (a submit counts until it has registered in [in_flight_submits]), whether
    destroy was called, and whether a call that starts or stops aging is in
    progress. *)
Record thread_pool := mk_pool {
  p_mem : mem;
  pq : priority_queue_t;
  workers : list worker_t;
  num_workers : Z;                  (* uint32_t *)
  total_task_in_system : Z;         (* atomic_int *)
  shutdown : bool;                  (* atomic_bool *)
  in_flight_submits : Z;            (* atomic_uint *)
  paused : bool;                    (* atomic_bool *)
  aging_tid : nat;
  aging_enable : bool;              (* atomic_bool *)
  aging_interval_ms : Z;            (* long *)
  aging_promote_ms : Z;             (* long *)
  p_freed : bool;                   (* free(pool) was executed *)
  g_accepted : list job;
  g_executed : list job;
  g_calls : Z;
  g_destroying : bool;
  g_aging : bool
}.

Definition p_heap (s : thread_pool) : gmap loc task_t := heap (p_mem s).

(** One setter per field that the code writes. *)
Definition upd_mem (m : mem) (s : thread_pool) : thread_pool :=
  mk_pool m (pq s) (workers s) (num_workers s) (total_task_in_system s) (shutdown s)
    (in_flight_submits s) (paused s) (aging_tid s) (aging_enable s) (aging_interval_ms s)
    (aging_promote_ms s) (p_freed s) (g_accepted s) (g_executed s) (g_calls s) (g_destroying s) (g_aging s).
Definition upd_queue (h : gmap loc task_t) (q : priority_queue_t) (s : thread_pool) : thread_pool :=
  mk_pool (set_heap h (p_mem s)) q (workers s) (num_workers s) (total_task_in_system s) (shutdown s)
    (in_flight_submits s) (paused s) (aging_tid s) (aging_enable s) (aging_interval_ms s)
    (aging_promote_ms s) (p_freed s) (g_accepted s) (g_executed s) (g_calls s) (g_destroying s) (g_aging s).
Definition upd_workers (w : list worker_t) (s : thread_pool) : thread_pool :=
  mk_pool (p_mem s) (pq s) w (num_workers s) (total_task_in_system s) (shutdown s)
    (in_flight_submits s) (paused s) (aging_tid s) (aging_enable s) (aging_interval_ms s)
    (aging_promote_ms s) (p_freed s) (g_accepted s) (g_executed s) (g_calls s) (g_destroying s) (g_aging s).
Definition upd_total (z : Z) (s : thread_pool) : thread_pool :=
  mk_pool (p_mem s) (pq s) (workers s) (num_workers s) z (shutdown s)
    (in_flight_submits s) (paused s) (aging_tid s) (aging_enable s) (aging_interval_ms s)
    (aging_promote_ms s) (p_freed s) (g_accepted s) (g_executed s) (g_calls s) (g_destroying s) (g_aging s).
Definition upd_shutdown (b : bool) (s : thread_pool) : thread_pool :=
  mk_pool (p_mem s) (pq s) (workers s) (num_workers s) (total_task_in_system s) b
    (in_flight_submits s) (paused s) (aging_tid s) (aging_enable s) (aging_interval_ms s)
    (aging_promote_ms s) (p_freed s) (g_accepted s) (g_executed s) (g_calls s) (g_destroying s) (g_aging s).
Definition upd_in_flight (z : Z) (s : thread_pool) : thread_pool :=
  mk_pool (p_mem s) (pq s) (workers s) (num_workers s) (total_task_in_system s) (shutdown s)
    z (paused s) (aging_tid s) (aging_enable s) (aging_interval_ms s)
    (aging_promote_ms s) (p_freed s) (g_accepted s) (g_executed s) (g_calls s) (g_destroying s) (g_aging s).
Definition upd_paused (b : bool) (s : thread_pool) : thread_pool :=
  mk_pool (p_mem s) (pq s) (workers s) (num_workers s) (total_task_in_system s) (shutdown s)
    (in_flight_submits s) b (aging_tid s) (aging_enable s) (aging_interval_ms s)
    (aging_promote_ms s) (p_freed s) (g_accepted s) (g_executed s) (g_calls s) (g_destroying s) (g_aging s).
Definition upd_aging (t : nat) (e : bool) (iv ms : Z) (s : thread_pool) : thread_pool :=
  mk_pool (p_mem s) (pq s) (workers s) (num_workers s) (total_task_in_system s) (shutdown s)
    (in_flight_submits s) (paused s) t e iv
    ms (p_freed s) (g_accepted s) (g_executed s) (g_calls s) (g_destroying s) (g_aging s).
Definition upd_freed (s : thread_pool) : thread_pool :=
  mk_pool (p_mem s) (pq s) (workers s) (num_workers s) (total_task_in_system s) (shutdown s)
    (in_flight_submits s) (paused s) (aging_tid s) (aging_enable s) (aging_interval_ms s)
    (aging_promote_ms s) true (g_accepted s) (g_executed s) (g_calls s) (g_destroying s) (g_aging s).
Definition upd_jobs (a e : list job) (s : thread_pool) : thread_pool :=
  mk_pool (p_mem s) (pq s) (workers s) (num_workers s) (total_task_in_system s) (shutdown s)
    (in_flight_submits s) (paused s) (aging_tid s) (aging_enable s) (aging_interval_ms s)
    (aging_promote_ms s) (p_freed s) a e (g_calls s) (g_destroying s) (g_aging s).
Definition upd_calls (n : Z) (d a : bool) (s : thread_pool) : thread_pool :=
  mk_pool (p_mem s) (pq s) (workers s) (num_workers s) (total_task_in_system s) (shutdown s)
    (in_flight_submits s) (paused s) (aging_tid s) (aging_enable s) (aging_interval_ms s)
    (aging_promote_ms s) (p_freed s) (g_accepted s) (g_executed s) n d a.

(** ** API calls and their results *)

Inductive api :=
| CallSubmit (fn : option Z) (a prio : Z)
| CallWait
| CallPause
| CallResume
| CallSetMax (m : Z)
| CallEnableAging (iv ms : Z)
| CallDisableAging
| CallDestroy.

Inductive errno := EINVAL | ESHUTDOWN | EAGAIN | ENOMEM.

Inductive retval :=
| RNone                       (* no call made yet *)
| RVoid
| RId (task_id : Z)           (* thread_pool_submit succeeded *)
| RErr (e : errno)            (* -1 with errno *)
| RBool (b : bool).

(** ** Control points *)

Inductive pc :=
(* worker_func, pq_pop_until_shutdown inlined *)
| W_top (w : nat)                     (* 23: load paused *)
| W_pause_lock (w : nat)              (* 24 *)
| W_pause_check (w : nat)             (* 26: load paused *)
| W_pause_wait (w : nat)              (* 27 *)
| W_pause_unlock (w : nat)            (* 29 *)
| W_pop_lock (w : nat)                (* pq 163 *)
| W_pop_check (w : nat)               (* pq 166: ready_mask == 0 *)
| W_pop_shut (w : nat)                (* pq 167: load shutdown *)
| W_pop_wait (w : nat)                (* pq 172 *)
| W_pop_null (w : nat)                (* pq 168-169 *)
| W_pop_take (w : nat)                (* pq 175-176 *)
| W_pop_unlock (w : nat) (t : loc)    (* pq 177 *)
| W_busy (w : nat) (t : loc)          (* 38 *)
| W_run (w : nat) (t : loc)           (* 39: task->func(task->arg) *)
| W_free (w : nat) (t : loc)          (* 40: task_destroy *)
| W_unbusy (w : nat)                  (* 41 *)
| W_dec (w : nat)                     (* 43-46 *)
| W_drain_lock (w : nat)              (* 47 *)
| W_drain_signal (w : nat)            (* 48 *)
| W_drain_unlock (w : nat)            (* 49 *)
| W_exit (w : nat)                    (* 53 *)
(* client threads *)
| C_idle (r : retval)
| C_ret (r : retval)
(* thread_pool_submit, pq_try_push inlined *)
| S_enter (f a p : Z)                 (* 225 *)
| S_shut (f a p : Z)                  (* 228 *)
| S_full (f a p : Z)                  (* 235, pq 130-131: load max_tasks *)
| S_depth (f a p max : Z)             (* pq 134: load depth *)
| S_create (f a p : Z)                (* 241 *)
| S_count (t : loc) (i : Z)           (* 250 *)
| S_aging (t : loc) (i : Z)           (* 252-253 *)
| S_push_lock (t : loc) (i : Z)       (* pq 102 *)
| S_push_check (t : loc) (i : Z)      (* pq 105-106 *)
| S_push_insert (t : loc) (i : Z)     (* pq 111 *)
| S_push_unlock (i : Z)               (* pq 112 *)
| S_push_signal (i : Z)               (* pq 113 *)
| S_done (i : Z)                      (* 265-266 *)
| S_full_unlock (t : loc)             (* pq 107-108 *)
| S_undo (t : loc)                    (* 258 *)
| S_undo_free (t : loc)               (* 259 *)
| S_reject (e : errno)                (* 229, 236, 244, 260: in_flight - 1 *)
(* thread_pool_wait *)
| T_paused                            (* 307 *)
| T_lock                              (* 310 *)
| T_check                             (* 312 *)
| T_wait                              (* 313 *)
| T_unlock                            (* 315 *)
(* thread_pool_pause *)
| P_store                             (* 282 *)
| P_lock | P_bcast | P_unlock         (* pq_wake_all *)
(* thread_pool_resume; [k]: called by thread_pool_wait *)
| R_store (k : bool)                  (* 298 *)
| R_lock (k : bool)                   (* 288 *)
| R_bcast (k : bool)                  (* 289 *)
| R_unlock (k : bool)                 (* 290 *)
(* thread_pool_set_max_tasks *)
| M_store (m : Z)                     (* 274 *)
(* thread_pool_enable_aging *)
| E_lock (iv ms : Z)                  (* 409 *)
| E_check (iv ms : Z)                 (* 410 *)
| E_dup                               (* 411-412 *)
| E_set (iv ms : Z)                   (* 414-416 *)
| E_unlock                            (* 417 *)
| E_create                            (* 419-424 *)
(* thread_pool_disable_aging; [k]: called by thread_pool_destroy *)
| X_load (k : bool)                   (* 432 *)
| X_store (k : bool)                  (* 435 *)
| X_lock (k : bool)                   (* 436 *)
| X_signal (k : bool)                 (* 437 *)
| X_unlock (k : bool)                 (* 438 *)
| X_plock (k : bool)                  (* 439: thread_pool_wake_pause *)
| X_pbcast (k : bool)
| X_punlock (k : bool)
| X_join (k : bool)                   (* 440 *)
(* aging_worker; [iv] is its local copy of the interval *)
| A_start                             (* 73 *)
| A_lock (iv : Z)                     (* 75 *)
| A_top (iv : Z)                      (* 77 *)
| A_p_unlock (iv : Z)                 (* 78 *)
| A_p_lock (iv : Z)                   (* 79 *)
| A_p_check (iv : Z)                  (* 81 *)
| A_p_shut (iv : Z)                   (* 83 *)
| A_p_enable (iv : Z)                 (* 87 *)
| A_p_wait (iv : Z)                   (* 91 *)
| A_p_end (iv : Z)                    (* 93 *)
| A_p_relock (iv : Z)                 (* 94 *)
| A_shut (iv : Z)                     (* 97 *)
| A_enable (iv : Z)                   (* 100 *)
| A_clock (iv : Z)                    (* 105-106 *)
| A_wait (iv : Z)                     (* 108: timed wait *)
| A_end                               (* 112 *)
| A_exit                              (* 114 *)
(* pq_aging: [up] = MEDIUM to HIGH, else LOW to MEDIUM *)
| G_call (iv : Z)                                  (* 110: load aging_promote_ms *)
| G_clock (up : bool) (iv ms : Z)                  (* pq 256 *)
| G_shut (up : bool) (iv ms : Z) (now : timespec)  (* pq 258 *)
| G_lock (up : bool) (iv ms : Z) (now : timespec)  (* pq 261 *)
| G_body (up : bool) (iv ms : Z) (now : timespec)  (* pq 263-292 *)
| G_unlock (up : bool) (iv ms : Z) (moved : bool)  (* pq 265, 294 *)
| G_bcast (up : bool) (iv ms : Z)                  (* pq 295 *)
| G_mid (iv ms : Z)                                (* pq 306 *)
(* thread_pool_destroy *)
| D_idle
| D_shut                              (* 365 *)
| D_unpause                           (* 366 *)
| D_spin                              (* 369 *)
| D_wlock | D_wbcast | D_wunlock      (* 372: pq_wake_all *)
| D_plock | D_pbcast | D_punlock      (* 373: thread_pool_wake_pause *)
| D_lock                              (* 377 *)
| D_check                             (* 379 *)
| D_wait                              (* 380 *)
| D_unlock                            (* 382 *)
| D_monitor                           (* 384: monitor_stop *)
| D_next (i : nat)                    (* 386: loop test *)
| D_join (i : nat)                    (* 387 *)
| D_pqlock | D_pqfree | D_pqunlock    (* 389: pq_destroy, pq 47-62 *)
| D_pqkill                            (* pq 63-64: destroys not_empty and the mutex *)
| D_kill                              (* 390-398: frees the workers, destroys the other six *)
| D_free                              (* 399-400: free(pool) *)
| D_done.

(** The choices the environment makes. *)
Inductive choice :=
| Tau
| Call (a : api)
| Malloc (r : option loc)
| Clock (now : timespec).

Abbreviation paction := (action thread_pool pc mutex_id cond_id choice).
Abbreviation poutcome := (outcome thread_pool pc).
Abbreviation pconfig := (config thread_pool pc mutex_id cond_id).

(** A clock reading as [ts_ok] describes it. *)
Definition ts_okb (t : timespec) : bool :=
  (0 <=? tv_sec t) && (tv_sec t <? 2 ^ 33) && (0 <=? tv_nsec t) && (tv_nsec t <? NSEC_PER_SEC).

(** ** The actions *)

(** An access to the pool, which faults once the pool is freed; an atomic step
    without choice, and a branch on the shared state. *)
Definition guarded (f : choice → thread_pool → poutcome) : paction :=
  AStep (λ z s, if p_freed s then Crash UseAfterFree else f z s).
Definition atom (f : thread_pool → thread_pool * pc) : paction :=
  guarded (λ _ s, let '(s', p) := f s in Next s' p).
Definition branch (b : thread_pool → bool) (yes no : pc) : paction :=
  guarded (λ _ s, Next s (if b s then yes else no)).

(** Runs a body of the queue on the heap and the queue of the pool. *)
Definition queue_step {A} (m : QM A) (k : A → thread_pool → thread_pool * pc) : paction :=
  guarded (λ _ s,
    match m (p_heap s, pq s) with
    | Ok (a, (h', q')) => let '(s', p) := k a (upd_queue h' q' s) in Next s' p
    | Blocks => Stuck
    | Fault f => Crash f
    end).

Definition set_busy (w : nat) (b : bool) (s : thread_pool) : thread_pool :=
  upd_workers (alter (λ wk, mk_worker (tid wk) (id wk) b) w (workers s)) s.

Section Code.
(** The calls client threads make, how many task nodes the memory holds, and
    whether clients respect the contract of the API: no call is in progress when
    destroy is called, none is made afterwards, and calls that start or stop
    aging do not overlap.  A submit counts as in progress up to line 225, where
    it registers; from there on destroy itself waits for it. *)
Context (allowed : api → bool) (capacity : nat) (contract : bool).

Definition malloc_admits (r : option loc) (h : gmap loc task_t) : bool :=
  match r with
  | None => true
  | Some l => bool_decide (h !! l = None) && bool_decide (base.size h < capacity)%nat
  end.

(** The beginning of an API call: the guards that do not touch the pool. *)
Definition start_call (a : api) (s : thread_pool) : poutcome :=
  let enter p := if contract && g_destroying s then Stuck
                 else Next (upd_calls (g_calls s + 1) (g_destroying s) (g_aging s) s) p in
  let enter_aging p :=
    if contract && (g_destroying s || g_aging s) then Stuck
    else Next (upd_calls (g_calls s + 1) (g_destroying s) true s) p in
  match a with
  | CallSubmit None _ _ => Next s (C_idle (RErr EINVAL))
  | CallSubmit (Some f) a p => enter (S_enter f a p)
  | CallWait => enter T_paused
  | CallPause => enter P_store
  | CallResume => enter (R_store false)
  | CallSetMax m => enter (M_store m)
  | CallEnableAging iv ms =>
      if (iv <=? 0) || (ms <=? 0) then Next s (C_idle (RBool false))
      else enter_aging (E_lock iv ms)
  | CallDisableAging => enter_aging (X_load false)
  | CallDestroy => Stuck
  end.

(** worker_func, with pq_pop_until_shutdown inlined. *)
Definition worker_func (p : pc) : paction :=
  match p with
  | W_top w => branch paused (W_pause_lock w) (W_pop_lock w)
  | W_pause_lock w => ALock MPause (W_pause_check w)
  | W_pause_check w => branch paused (W_pause_wait w) (W_pause_unlock w)
  | W_pause_wait w => AWait CPause MPause (W_pause_check w)
  | W_pause_unlock w => AUnlock MPause (W_pop_lock w)
  | W_pop_lock w => ALock MPq (W_pop_check w)
  | W_pop_check w => branch (λ s, ready_mask (pq s) =? 0) (W_pop_shut w) (W_pop_take w)
  | W_pop_shut w => branch shutdown (W_pop_null w) (W_pop_wait w)
  | W_pop_wait w => AWait CNotEmpty MPq (W_pop_check w)
  | W_pop_null w => AUnlock MPq (W_exit w)
  | W_pop_take w =>
      queue_step
        (q ← get_pq; p ← lift (_get_highest_priority (ready_mask q)); _pq_pop_locked p)
        (λ task s, (s, match task with
                       | Some t => W_pop_unlock w t
                       | None => W_pop_null w
                       end))
  | W_pop_unlock w t => AUnlock MPq (W_busy w t)
  | W_busy w t => atom (λ s, (set_busy w true s, W_run w t))
  | W_run w t =>
      queue_step (load_task (Some t))
        (λ task s, (upd_jobs (g_accepted s) (job_of task :: g_executed s) s, W_free w t))
  | W_free w t => queue_step (free_task (Some t)) (λ _ s, (s, W_unbusy w))
  | W_unbusy w => atom (λ s, (set_busy w false s, W_dec w))
  | W_dec w => guarded (λ _ s,
      let old := total_task_in_system s in
      if is_i32 (old - 1) then
        Next (upd_total (i32 (old - 1)) s) (if old - 1 =? 0 then W_drain_lock w else W_top w)
      else Crash SignedOverflow)
  | W_drain_lock w => ALock MDrain (W_drain_signal w)
  | W_drain_signal w => ASignal CDrain (W_drain_unlock w)
  | W_drain_unlock w => AUnlock MDrain (W_top w)
  | W_exit _ => AExit
  | _ => AExit
  end.

(** A client thread between its calls. *)
Definition client (p : pc) : paction :=
  match p with
  | C_idle _ => AStep (λ z s,
      match z with
      | Call a => if allowed a then start_call a s else Stuck
      | _ => Stuck
      end)
  | C_ret r => AStep (λ _ s,
      Next (upd_calls (g_calls s - 1) (g_destroying s)
              (match r with RBool _ => false | _ => g_aging s end) s) (C_idle r))
  | _ => AExit
  end.

(** thread_pool_submit, with pq_is_full_approx, task_create and pq_try_push inlined. *)
Definition thread_pool_submit (p : pc) : paction :=
  match p with
  | S_enter f a p => atom (λ s,
      (upd_calls (g_calls s - 1) (g_destroying s) (g_aging s)
         (upd_in_flight (u32 (in_flight_submits s + 1)) s), S_shut f a p))
  | S_shut f a p => branch shutdown (S_reject ESHUTDOWN) (S_full f a p)
  | S_full f a p => guarded (λ _ s,
      Next s (if max_tasks (pq s) =? 0 then S_create f a p
              else S_depth f a p (max_tasks (pq s))))
  | S_depth f a p max => branch (λ s, max <=? depth (pq s)) (S_reject EAGAIN) (S_create f a p)
  | S_create f a p => guarded (λ z s,
      match z with
      | Malloc r =>
          if malloc_admits r (p_heap s) then
            let '(task, m') := task_create r (Some f) a p (p_mem s) in
            match task with
            | None => Next (upd_mem m' s) (S_reject ENOMEM)
            | Some l => Next (upd_mem m' s) (S_count l (i64 (g_task_id_count (p_mem s))))
            end
          else Stuck
      | _ => Stuck
      end)
  | S_count t i => atom (λ s,
      (upd_total (i32 (total_task_in_system s + 1)) s, S_aging t i))
  | S_aging t i => guarded (λ z s,
      if aging_enable s then
        match z with
        | Clock now =>
            if ts_okb now then
              match p_heap s !! t with
              | Some task => Next (upd_queue (<[t := set_submit_time now task]> (p_heap s)) (pq s) s)
                               (S_push_lock t i)
              | None => Crash UseAfterFree
              end
            else Stuck
        | _ => Stuck
        end
      else Next s (S_push_lock t i))
  | S_push_lock t i => ALock MPq (S_push_check t i)
  | S_push_check t i => branch (λ s, at_capacity (pq s)) (S_full_unlock t) (S_push_insert t i)
  | S_push_insert t i =>
      queue_step (task ← load_task (Some t); _pq_insert_locked t;; mret task)
        (λ task s, (upd_jobs (job_of task :: g_accepted s) (g_executed s) s, S_push_unlock i))
  | S_push_unlock i => AUnlock MPq (S_push_signal i)
  | S_push_signal i => ASignal CNotEmpty (S_done i)
  | S_done i => atom (λ s,
      (upd_in_flight (u32 (in_flight_submits s - 1)) s, C_idle (RId i)))
  | S_full_unlock t => AUnlock MPq (S_undo t)
  | S_undo t => atom (λ s,
      (upd_total (i32 (total_task_in_system s - 1)) s, S_undo_free t))
  | S_undo_free t => queue_step (free_task (Some t)) (λ _ s, (s, S_reject EAGAIN))
  | S_reject e => atom (λ s,
      (upd_in_flight (u32 (in_flight_submits s - 1)) s, C_idle (RErr e)))
  | _ => AExit
  end.

(** thread_pool_wait. *)
Definition thread_pool_wait (p : pc) : paction :=
  match p with
  | T_paused => branch paused (R_store true) T_lock
  | T_lock => ALock MDrain T_check
  | T_check => branch (λ s, 0 <? total_task_in_system s) T_wait T_unlock
  | T_wait => AWait CDrain MDrain T_check
  | T_unlock => AUnlock MDrain (C_ret RVoid)
  | _ => AExit
  end.

(** thread_pool_pause, with pq_wake_all inlined. *)
Definition thread_pool_pause (p : pc) : paction :=
  match p with
  | P_store => atom (λ s, (upd_paused true s, P_lock))
  | P_lock => ALock MPq P_bcast
  | P_bcast => ABroadcast CNotEmpty P_unlock
  | P_unlock => AUnlock MPq (C_ret RVoid)
  | _ => AExit
  end.

(** thread_pool_resume and thread_pool_wake_pause. *)
Definition thread_pool_resume (p : pc) : paction :=
  match p with
  | R_store k => atom (λ s, (upd_paused false s, R_lock k))
  | R_lock k => ALock MPause (R_bcast k)
  | R_bcast k => ABroadcast CPause (R_unlock k)
  | R_unlock k => AUnlock MPause (if k then T_lock else C_ret RVoid)
  | _ => AExit
  end.

(** thread_pool_set_max_tasks. *)
Definition thread_pool_set_max_tasks (p : pc) : paction :=
  match p with
  | M_store m => atom (λ s,
      (upd_queue (p_heap s) (pq_set_max_tasks true (u64 m) (pq s)) s, C_ret RVoid))
  | _ => AExit
  end.

(** thread_pool_enable_aging. *)
Definition thread_pool_enable_aging (p : pc) : paction :=
  match p with
  | E_lock iv ms => ALock MAging (E_check iv ms)
  | E_check iv ms => branch aging_enable E_dup (E_set iv ms)
  | E_dup => AUnlock MAging (C_ret (RBool true))
  | E_set iv ms => atom (λ s, (upd_aging (aging_tid s) true iv ms s, E_unlock))
  | E_unlock => AUnlock MAging E_create
  | E_create =>
      ASpawn A_start
        (λ n s, (upd_aging n (aging_enable s) (aging_interval_ms s) (aging_promote_ms s) s,
                 C_ret (RBool true)))
        (λ s, (upd_aging (aging_tid s) false (aging_interval_ms s) (aging_promote_ms s) s,
               C_ret (RBool false)))
  | _ => AExit
  end.

(** thread_pool_disable_aging, with thread_pool_wake_pause inlined. *)
Definition thread_pool_disable_aging (p : pc) : paction :=
  match p with
  | X_load k => branch aging_enable (X_store k) (if k then D_lock else C_ret (RBool true))
  | X_store k => atom (λ s,
      (upd_aging (aging_tid s) false (aging_interval_ms s) (aging_promote_ms s) s, X_lock k))
  | X_lock k => ALock MAging (X_signal k)
  | X_signal k => ASignal CAging (X_unlock k)
  | X_unlock k => AUnlock MAging (X_plock k)
  | X_plock k => ALock MPause (X_pbcast k)
  | X_pbcast k => ABroadcast CPause (X_punlock k)
  | X_punlock k => AUnlock MPause (X_join k)
  | X_join k => AJoin aging_tid (if k then D_lock else C_ret (RBool true))
  | _ => AExit
  end.

(** aging_worker. *)
Definition aging_worker (p : pc) : paction :=
  match p with
  | A_start => atom (λ s, (s, A_lock (aging_interval_ms s)))
  | A_lock iv => ALock MAging (A_top iv)
  | A_top iv => branch paused (A_p_unlock iv) (A_shut iv)
  | A_p_unlock iv => AUnlock MAging (A_p_lock iv)
  | A_p_lock iv => ALock MPause (A_p_check iv)
  | A_p_check iv => branch paused (A_p_shut iv) (A_p_end iv)
  | A_p_shut iv => branch shutdown (A_p_end iv) (A_p_enable iv)
  | A_p_enable iv => branch aging_enable (A_p_wait iv) (A_p_end iv)
  | A_p_wait iv => AWait CPause MPause (A_p_check iv)
  | A_p_end iv => AUnlock MPause (A_p_relock iv)
  | A_p_relock iv => ALock MAging (A_shut iv)
  | A_shut iv => branch shutdown A_end (A_enable iv)
  | A_enable iv => branch aging_enable (A_clock iv) A_end
  | A_clock iv => AStep (λ z s,
      match z with
      | Clock now => if ts_okb now then
                       match timespec_add_ms now iv with
                       | Ok _ => Next s (A_wait iv)
                       | Blocks => Stuck
                       | Fault f => Crash f
                       end
                     else Stuck
      | _ => Stuck
      end)
  | A_wait iv => AWait CAging MAging (G_call iv)
  | A_end => AUnlock MAging A_exit
  | A_exit => AExit
  | _ => AExit
  end.

(** pq_aging and pq_aging_promote_prefix as the aging thread runs them. *)
Definition aging_pass (p : pc) : paction :=
  match p with
  | G_call iv => atom (λ s, (s, G_clock true iv (aging_promote_ms s)))
  | G_clock up iv ms => AStep (λ z s,
      match z with
      | Clock now => if ts_okb now then Next s (G_shut up iv ms now) else Stuck
      | _ => Stuck
      end)
  | G_shut up iv ms now =>
      branch shutdown (if up then G_mid iv ms else A_top iv) (G_lock up iv ms now)
  | G_lock up iv ms now => ALock MPq (G_body up iv ms now)
  | G_body up iv ms now =>
      queue_step (promote_locked (if up then PRIORITY_MEDIUM else PRIORITY_LOW)
                    (if up then PRIORITY_HIGH else PRIORITY_MEDIUM) now ms)
        (λ moved s, (s, G_unlock up iv ms moved))
  | G_unlock up iv ms moved =>
      AUnlock MPq (if moved then G_bcast up iv ms else if up then G_mid iv ms else A_top iv)
  | G_bcast up iv ms => ABroadcast CNotEmpty (if up then G_mid iv ms else A_top iv)
  | G_mid iv ms => branch shutdown (A_top iv) (G_clock false iv ms)
  | _ => AExit
  end.

(** thread_pool_destroy, with pq_wake_all, thread_pool_wake_pause and pq_destroy
    inlined.  The monitor is not started here: monitor_stop then finds [running]
    and [tid_valid] false and returns, one access to the pool (Monitor.v has the
    monitor with its thread).  The points D_pqkill and D_kill destroy the mutexes
    and condition variables; POSIX asks that nobody holds, awaits or later uses
    them, which is a property of the other threads ([pool_memory_safe]). *)
Definition thread_pool_destroy (p : pc) : paction :=
  match p with
  | D_idle => AStep (λ z s,
      match z with
      | Call CallDestroy =>
          if allowed CallDestroy && (negb contract || (g_calls s =? 0))
          then Next (upd_calls (g_calls s) true (g_aging s) s) D_shut else Stuck
      | _ => Stuck
      end)
  | D_shut => atom (λ s, (upd_shutdown true s, D_unpause))
  | D_unpause => atom (λ s, (upd_paused false s, D_spin))
  | D_spin => branch (λ s, 0 <? in_flight_submits s) D_spin D_wlock
  | D_wlock => ALock MPq D_wbcast
  | D_wbcast => ABroadcast CNotEmpty D_wunlock
  | D_wunlock => AUnlock MPq D_plock
  | D_plock => ALock MPause D_pbcast
  | D_pbcast => ABroadcast CPause D_punlock
  | D_punlock => AUnlock MPause (X_load true)
  | D_lock => ALock MDrain D_check
  | D_check => branch (λ s, 0 <? total_task_in_system s) D_wait D_unlock
  | D_wait => AWait CDrain MDrain D_check
  | D_unlock => AUnlock MDrain D_monitor
  | D_monitor => atom (λ s, (s, D_next 0))
  | D_next i => branch (λ s, Z.of_nat i <? num_workers s) (D_join i) D_pqlock
  | D_join i => AJoin (λ s, match workers s !! i with
                            | Some w => tid w
                            | None => O
                            end) (D_next (S i))
  | D_pqlock => ALock MPq D_pqfree
  | D_pqfree =>
      queue_step (destroy_lanes (Z.to_nat NUM_PRIORITIES) 0;;
                  upd_pq (λ q, set_depth 0 (set_mask 0 (set_size 0 q))))
        (λ _ s, (s, D_pqunlock))
  | D_pqunlock => AUnlock MPq D_pqkill
  | D_pqkill => atom (λ s, (s, D_kill))
  | D_kill => atom (λ s, (upd_workers [] s, D_free))
  | D_free => atom (λ s, (upd_freed s, D_done))
  | D_done => AExit
  | _ => AExit
  end.

(** The whole table. *)
Definition code (p : pc) : paction :=
  match p with
  | W_top _ | W_pause_lock _ | W_pause_check _ | W_pause_wait _ | W_pause_unlock _
  | W_pop_lock _ | W_pop_check _ | W_pop_shut _ | W_pop_wait _ | W_pop_null _ | W_pop_take _
  | W_pop_unlock _ _ | W_busy _ _ | W_run _ _ | W_free _ _ | W_unbusy _ | W_dec _
  | W_drain_lock _ | W_drain_signal _ | W_drain_unlock _ | W_exit _ => worker_func p
  | C_idle _ | C_ret _ => client p
  | S_enter _ _ _ | S_shut _ _ _ | S_full _ _ _ | S_depth _ _ _ _ | S_create _ _ _
  | S_count _ _ | S_aging _ _ | S_push_lock _ _ | S_push_check _ _ | S_push_insert _ _
  | S_push_unlock _ | S_push_signal _ | S_done _ | S_full_unlock _ | S_undo _ | S_undo_free _
  | S_reject _ => thread_pool_submit p
  | T_paused | T_lock | T_check | T_wait | T_unlock => thread_pool_wait p
  | P_store | P_lock | P_bcast | P_unlock => thread_pool_pause p
  | R_store _ | R_lock _ | R_bcast _ | R_unlock _ => thread_pool_resume p
  | M_store _ => thread_pool_set_max_tasks p
  | E_lock _ _ | E_check _ _ | E_dup | E_set _ _ | E_unlock | E_create => thread_pool_enable_aging p
  | X_load _ | X_store _ | X_lock _ | X_signal _ | X_unlock _ | X_plock _ | X_pbcast _
  | X_punlock _ | X_join _ => thread_pool_disable_aging p
  | A_start | A_lock _ | A_top _ | A_p_unlock _ | A_p_lock _ | A_p_check _ | A_p_shut _
  | A_p_enable _ | A_p_wait _ | A_p_end _ | A_p_relock _ | A_shut _ | A_enable _ | A_clock _
  | A_wait _ | A_end | A_exit => aging_worker p
  | G_call _ | G_clock _ _ _ | G_shut _ _ _ _ | G_lock _ _ _ _ | G_body _ _ _ _
  | G_unlock _ _ _ _ | G_bcast _ _ _ | G_mid _ _ => aging_pass p
  | D_idle | D_shut | D_unpause | D_spin | D_wlock | D_wbcast | D_wunlock | D_plock | D_pbcast
  | D_punlock | D_lock | D_check | D_wait | D_unlock | D_monitor | D_next _ | D_join _
  | D_pqlock | D_pqfree | D_pqunlock | D_pqkill | D_kill | D_free | D_done => thread_pool_destroy p
  end.
End Code.

(** ** Which mutexes a control point holds *)

Definition in_pq (p : pc) : bool :=
  match p with
  | W_pop_check _ | W_pop_shut _ | W_pop_wait _ | W_pop_null _ | W_pop_take _ | W_pop_unlock _ _
  | S_push_check _ _ | S_push_insert _ _ | S_push_unlock _ | S_full_unlock _
  | P_bcast | P_unlock | G_body _ _ _ _ | G_unlock _ _ _ _
  | D_wbcast | D_wunlock | D_pqfree | D_pqunlock => true
  | _ => false
  end.

Definition in_drain (p : pc) : bool :=
  match p with
  | W_drain_signal _ | W_drain_unlock _ | T_check | T_wait | T_unlock
  | D_check | D_wait | D_unlock => true
  | _ => false
  end.

Definition in_pause (p : pc) : bool :=
  match p with
  | W_pause_check _ | W_pause_wait _ | W_pause_unlock _ | R_bcast _ | R_unlock _
  | X_pbcast _ | X_punlock _ | A_p_check _ | A_p_shut _ | A_p_enable _ | A_p_wait _ | A_p_end _
  | D_pbcast | D_punlock => true
  | _ => false
  end.

Definition in_aging (p : pc) : bool :=
  match p with
  | E_check _ _ | E_dup | E_set _ _ | E_unlock | X_signal _ | X_unlock _
  | A_top _ | A_p_unlock _ | A_shut _ | A_enable _ | A_clock _ | A_wait _ | A_end
  | G_call _ | G_clock _ _ _ | G_shut _ _ _ _ | G_lock _ _ _ _ | G_body _ _ _ _
  | G_unlock _ _ _ _ | G_bcast _ _ _ | G_mid _ _ => true
  | _ => false
  end.

Definition holds (p : pc) (m : mutex_id) : bool :=
  match m with
  | MPq => in_pq p
  | MDrain => in_drain p
  | MPause => in_pause p
  | MAging => in_aging p
  end.

(** ** The state thread_pool_init leaves *)

Definition init_pool (n : nat) : thread_pool :=
  mk_pool (mk_mem ∅ 0) pq_zero ((λ i, mk_worker i (u16 (Z.of_nat i)) false) <$> seq 0 n)
    (Z.of_nat n) 0 false 0 false 0 false 0 0 false [] [] 0 false false.

(** [n] workers, then [k] client threads, then the thread that will destroy. *)
Definition init_config (n k : nat) : pconfig :=
  mk_config (init_pool n) (λ _, None)
    ((Running ∘ W_top <$> seq 0 n) ++ replicate k (Running (C_idle RNone)) ++ [Running D_idle]).
