(* ===== verification/PoolSteps.v ===== *)
(** * PoolSteps: the moves of the pool, one by one

    Inversion lemmas and tactics for the steps of [code], the lock discipline of
    the table, and what each move does to every quantity the invariants of
    PoolInv.v count. *)
From S2P Require Export Pool.
Local Open Scope Z_scope.

(** Looks up a control point in the table. *)
Ltac unfold_code H :=
  cbn [code worker_func client thread_pool_submit thread_pool_wait thread_pool_pause thread_pool_resume
    thread_pool_set_max_tasks thread_pool_enable_aging thread_pool_disable_aging aging_worker aging_pass
    thread_pool_destroy] in H.

Section Steps.
(** What an atomic step is able to do, without the arithmetic. *)
Lemma guarded_next f z s s' p' (g : choice → thread_pool → poutcome) :
  (guarded g : paction) = AStep f → f z s = Next s' p' → p_freed s = false ∧ g z s = Next s' p'.
Proof. intros [= <-]. by destruct (p_freed s). Qed.

Lemma branch_next f z s s' p' b yes no :
  branch b yes no = AStep f → f z s = Next s' p' →
  p_freed s = false ∧ s' = s ∧ p' = if b s then yes else no.
Proof. intros Hb Hf. destruct (guarded_next _ _ _ _ _ _ Hb Hf) as [? [= <- <-]]. done. Qed.

Lemma atom_next f z s s' p' g :
  atom g = AStep f → f z s = Next s' p' → p_freed s = false ∧ g s = (s', p').
Proof.
  intros Hb Hf. destruct (guarded_next _ _ _ _ _ _ Hb Hf) as [? Hg].
  destruct (g s). by injection Hg as -> ->.
Qed.

Lemma queue_next {A} f z s s' p' (m : QM A) k :
  queue_step m k = AStep f → f z s = Next s' p' →
  p_freed s = false ∧ ∃ a h q, m (p_heap s, pq s) = Ok (a, (h, q)) ∧ k a (upd_queue h q s) = (s', p').
Proof.
  intros Hb Hf. destruct (guarded_next _ _ _ _ _ _ Hb Hf) as [? Hg].
  destruct (m _) as [[a [h q]]| |]; try done. destruct (k _ _) eqn:E. injection Hg as -> ->.
  split; [done|]. by exists a, h, q.
Qed.
End Steps.

(** Where an API call can start. *)
Definition plain_entry (allowed : api → bool) (p : pc) : bool :=
  match p with
  | S_enter f a y => allowed (CallSubmit (Some f) a y)
  | T_paused | P_store | R_store false | M_store _ => true
  | _ => false
  end.
Definition aging_entry (allowed : api → bool) (p : pc) : bool :=
  match p with
  | E_lock iv ms => allowed (CallEnableAging iv ms) && (0 <? iv) && (0 <? ms)
  | X_load false => true
  | _ => false
  end.

Section Discipline.
Context (allowed : api → bool) (capacity : nat) (contract : bool).
Abbreviation pcode := (code allowed capacity contract).

Inductive call_starts (s : thread_pool) : thread_pool → pc → Prop :=
| cs_none r : call_starts s s (C_idle r)
| cs_plain p : contract && g_destroying s = false → plain_entry allowed p = true →
    call_starts s (upd_calls (g_calls s + 1) (g_destroying s) (g_aging s) s) p
| cs_aging p : contract && g_destroying s = false → contract && g_aging s = false →
    aging_entry allowed p = true →
    call_starts s (upd_calls (g_calls s + 1) (g_destroying s) true s) p.

Lemma call_next r f z s s' p' :
  pcode (C_idle r) = AStep f → f z s = Next s' p' → call_starts s s' p'.
Proof.
  intros [= <-]. destruct z as [|a|r0|now]; try done. destruct (allowed a) eqn:Hal; [|done].
  destruct a as [[f|] x y| | | |m|iv ms| |]; simpl; intros H; try done;
    try (injection H as <- <-; by constructor).
  all: try (destruct ((iv <=? 0) || (ms <=? 0)) eqn:Hp; [injection H as <- <-; by constructor|]).
  all: rewrite ?andb_orb_distrib_r in H; destruct (contract && g_destroying s) eqn:Hd; simpl in H;
    [discriminate|].
  all: try (destruct (contract && g_aging s) eqn:Ha; [discriminate|]).
  all: injection H as <- <-; constructor; try done.
  simpl. rewrite Hal. simpl. lia.
Qed.

Lemma full_next f a p g z s s' p' :
  pcode (S_full f a p) = AStep g → g z s = Next s' p' →
  p_freed s = false ∧ s' = s ∧ (p' = S_create f a p ∨ ∃ m, p' = S_depth f a p m).
Proof.
  intros Hc Hf. destruct (guarded_next _ _ _ _ _ _ Hc Hf) as [? [= <- <-]].
  split_and!; try done. destruct (_ =? 0); eauto.
Qed.

Lemma create_next f a p g z s s' p' :
  pcode (S_create f a p) = AStep g → g z s = Next s' p' →
  p_freed s = false ∧
  ((s' = s ∧ p' = S_reject ENOMEM) ∨
   ∃ l, p_heap s !! l = None ∧ (base.size (p_heap s) < capacity)%nat ∧
     s' = upd_mem (mk_mem (<[l := mk_task (g_task_id_count (p_mem s)) f a p (mk_ts 0 0) None]>
                             (p_heap s)) (u64 (g_task_id_count (p_mem s) + 1))) s ∧
     p' = S_count l (i64 (g_task_id_count (p_mem s)))).
Proof.
  intros Hc Hf. destruct (guarded_next _ _ _ _ _ _ Hc Hf) as [? Hg]. split; [done|].
  destruct z as [|a0|[l|]|now]; try done; simpl in Hg.
  - do 2 (case_bool_decide; [|done]). injection Hg as <- <-. right. by exists l.
  - injection Hg as <- <-. left. split; [by destruct s|done].
Qed.

Lemma stamp_next t i g z s s' p' :
  pcode (S_aging t i) = AStep g → g z s = Next s' p' →
  p_freed s = false ∧ p' = S_push_lock t i ∧
  (s' = s ∨ ∃ now task, ts_okb now = true ∧ p_heap s !! t = Some task ∧
     s' = upd_queue (<[t := set_submit_time now task]> (p_heap s)) (pq s) s).
Proof.
  intros Hc Hf. destruct (guarded_next _ _ _ _ _ _ Hc Hf) as [? Hg].
  destruct (aging_enable s); [|injection Hg as <- <-; auto].
  destruct z as [|a0|r|now]; try done. destruct (ts_okb now) eqn:Hn; [|done].
  destruct (p_heap s !! t) as [task|] eqn:Ht; [|done]. injection Hg as <- <-.
  split_and!; try done. right. by exists now, task.
Qed.

Lemma aclock_next iv g z s s' p' :
  pcode (A_clock iv) = AStep g → g z s = Next s' p' → s' = s ∧ p' = A_wait iv.
Proof.
  intros [= <-]. destruct z as [|a0|r|now]; try done. destruct (ts_okb now); [|done].
  destruct (timespec_add_ms now iv); try done. by intros [= <- <-].
Qed.

Lemma gclock_next up iv ms g z s s' p' :
  pcode (G_clock up iv ms) = AStep g → g z s = Next s' p' →
  s' = s ∧ ∃ now, ts_okb now = true ∧ p' = G_shut up iv ms now.
Proof.
  intros [= <-]. destruct z as [|a0|r|now]; try done. destruct (ts_okb now) eqn:Hn; [|done].
  intros [= <- <-]. eauto.
Qed.

Lemma dec_next w g z s s' p' :
  pcode (W_dec w) = AStep g → g z s = Next s' p' →
  p_freed s = false ∧ s' = upd_total (i32 (total_task_in_system s - 1)) s ∧
  p' = if total_task_in_system s - 1 =? 0 then W_drain_lock w else W_top w.
Proof.
  intros Hc Hf. destruct (guarded_next _ _ _ _ _ _ Hc Hf) as [? Hg]. simpl in Hg.
  destruct (is_i32 _); [|done]. by injection Hg as <- <-.
Qed.

Lemma destroy_next g z s s' p' :
  pcode D_idle = AStep g → g z s = Next s' p' →
  s' = upd_calls (g_calls s) true (g_aging s) s ∧ p' = D_shut ∧ (contract = true → g_calls s = 0).
Proof.
  intros [= <-]. destruct z as [|[]|r|now]; try done.
  destruct (allowed CallDestroy && (negb contract || (g_calls s =? 0))) eqn:E; [|done].
  intros [= <- <-]. split_and!; try done. intros ->. lia.
Qed.
End Discipline.

Set Warnings "-clear-no-such-hyp".
Ltac clear_eqs H1 H2 H3 := try clear H1; try clear H2; try clear H3.

(** Inverts an atomic step [f z s = Next s' p'] of a known control point, where
    [Hc] says which action [AStep f] is. *)
Ltac atom_inv Hc Hf :=
  let E := fresh "E" in
  let Hr := fresh "Hr" in
  pose proof Hc as Hr; unfold_code Hr;
  first
    [ destruct (branch_next _ _ _ _ _ _ _ _ Hr Hf) as (Hfr & -> & ->)
    | destruct (atom_next _ _ _ _ _ _ Hr Hf) as (Hfr & E); injection E as <- <-
    | destruct (queue_next _ _ _ _ _ _ _ Hr Hf) as (Hfr & ret & h' & q' & Hrun & E);
      injection E as <- <-
    | destruct (call_next _ _ _ _ _ _ _ _ _ Hc Hf) as [r'|p' Hnd Hen|p' Hnd Hna Hen]
    | destruct (dec_next _ _ _ _ _ _ _ _ _ Hc Hf) as (Hfr & -> & ->)
    | destruct (full_next _ _ _ _ _ _ _ _ _ _ _ Hc Hf) as (Hfr & -> & [->|[m ->]])
    | destruct (create_next _ _ _ _ _ _ _ _ _ _ _ Hc Hf)
        as (Hfr & [[-> ->]|(l & Hl & Hcap & -> & ->)])
    | destruct (stamp_next _ _ _ _ _ _ _ _ _ _ Hc Hf)
        as (Hfr & -> & [->|(now & task & Hnow & Hnode & ->)])
    | destruct (aclock_next _ _ _ _ _ _ _ _ _ Hc Hf) as (-> & ->)
    | destruct (gclock_next _ _ _ _ _ _ _ _ _ _ _ Hc Hf) as (-> & now & Hnow & ->)
    | destruct (destroy_next _ _ _ _ _ _ _ _ Hc Hf) as (-> & -> & Hcalls)
    | injection Hr as <-; injection Hf as <- <- ];
  clear_eqs Hr Hc Hf.

(** Inverts a [move] at a known control point. *)
Ltac move_inv H :=
  let Hc := fresh "Hc" in let Hf := fresh "Hf" in
  inversion H as [? Hf|? ? ? Hc Hq He|? ? ? ? ? Hc Hf|? ? ? ? ? Hc Hf|? ? ? ? Hc Hf];
  clear H; subst;
  [ simpl in Hf; try (exfalso; exact Hf); try (symmetry in Hf; subst)
  | try discriminate Hc; try (injection Hc as <- <-)
  | try discriminate Hc; try (injection Hc as <- <- <-; injection Hf as <- <-)
  | try discriminate Hc; try (injection Hc as <- <- <-; injection Hf as <- <-)
  | try discriminate Hc; try atom_inv Hc Hf ].

Section Holds.
Context (allowed : api → bool) (capacity : nat) (contract : bool).
Abbreviation pcode := (code allowed capacity contract).

Lemma same_holds_if p (b : bool) p1 p2 :
  same_holds holds p p1 → same_holds holds p p2 → same_holds holds p (if b then p1 else p2).
Proof. by destruct b. Qed.

Lemma atom_holds p f z s s' p' :
  pcode p = AStep f → f z s = Next s' p' → same_holds holds p p'.
Proof.
  intros Hc Hf. destruct p; try discriminate Hc; atom_inv Hc Hf;
    try (by intros []); try (apply same_holds_if; by intros []).
  - by destruct ret; intros [].
  - destruct p'; try discriminate Hen; by intros [].
  - destruct p'; try discriminate Hen; by intros [].
  - destruct k; apply same_holds_if; by intros [].
  - destruct up; apply same_holds_if; by intros [].
Qed.

(** Every action of the code agrees with the annotation [holds]. *)
Lemma code_disciplined : disciplined pcode holds.
Proof.
  intros p. unfold disciplined_at.
  destruct (pcode p) as [m p'|m p'|cv m p'|cv p'|cv p'|tid p'|entry created failed|f|] eqn:Hc;
    try (intros z s s' p'; by apply atom_holds).
  all: destruct p; try discriminate Hc; unfold_code Hc;
    first [injection Hc; intros; subst|clear Hc]; try (by intros []);
    try (split; [done|by intros []]).
  - destruct k; (split; [done|by intros []]).
  - destruct moved, up; (split; [done|by intros []]).
  - destruct up; by intros [].
  - destruct k; by intros [].
  - split_and!; [by intros []|by intros n s s' p' [= <- <-] []|by intros s s' p' [= <- <-] []].
Qed.

Lemma init_initial n k : initial holds (init_config n k).
Proof.
  split; [done|]. intros i st Hi. simpl in Hi.
  apply lookup_app_Some in Hi as [Hi|[_ Hi]].
  - rewrite list_lookup_fmap in Hi. destruct (seq 0 n !! i) as [w|]; [|done].
    injection Hi as <-. exists (W_top w). split; [done|by intros []].
  - apply lookup_app_Some in Hi as [Hi|[_ Hi]].
    + apply lookup_replicate in Hi as [-> _]. exists (C_idle RNone). split; [done|by intros []].
    + apply list_lookup_singleton_Some in Hi as [_ <-]. exists D_idle. split; [done|by intros []].
Qed.
End Holds.

(** ** Measures of the list of control points *)

(** ** What a control point contributes *)

Inductive role := Worker (w : nat) | Client | Destroyer | Ager.

Definition role_of (p : pc) : role :=
  match p with
  | W_top w | W_pause_lock w | W_pause_check w | W_pause_wait w | W_pause_unlock w
  | W_pop_lock w | W_pop_check w | W_pop_shut w | W_pop_wait w | W_pop_null w | W_pop_take w
  | W_pop_unlock w _ | W_busy w _ | W_run w _ | W_free w _ | W_unbusy w | W_dec w
  | W_drain_lock w | W_drain_signal w | W_drain_unlock w | W_exit w => Worker w
  | A_start | A_lock _ | A_top _ | A_p_unlock _ | A_p_lock _ | A_p_check _ | A_p_shut _
  | A_p_enable _ | A_p_wait _ | A_p_end _ | A_p_relock _ | A_shut _ | A_enable _ | A_clock _
  | A_wait _ | A_end | A_exit | G_call _ | G_clock _ _ _ | G_shut _ _ _ _ | G_lock _ _ _ _
  | G_body _ _ _ _ | G_unlock _ _ _ _ | G_bcast _ _ _ | G_mid _ _ => Ager
  | D_idle | D_shut | D_unpause | D_spin | D_wlock | D_wbcast | D_wunlock | D_plock | D_pbcast
  | D_punlock | D_lock | D_check | D_wait | D_unlock | D_monitor | D_next _ | D_join _ | D_pqlock | D_pqfree
  | D_pqunlock | D_pqkill | D_kill | D_free | D_done => Destroyer
  | X_load k | X_store k | X_lock k | X_signal k | X_unlock k | X_plock k | X_pbcast k
  | X_punlock k | X_join k => if k then Destroyer else Client
  | _ => Client
  end.

(** A submit registered in [in_flight_submits]. *)
Definition in_flight (p : pc) : Z :=
  match p with
  | S_shut _ _ _ | S_full _ _ _ | S_depth _ _ _ _ | S_create _ _ _ | S_count _ _ | S_aging _ _
  | S_push_lock _ _ | S_push_check _ _ | S_push_insert _ _ | S_push_unlock _ | S_push_signal _
  | S_done _ | S_full_unlock _ | S_undo _ | S_undo_free _ | S_reject _ => 1
  | _ => 0
  end.

(** A task counted in [total_task_in_system] that is not in the queue: on its
    way in, or taken by a worker. *)
Definition counted (p : pc) : Z :=
  match p with
  | S_aging _ _ | S_push_lock _ _ | S_push_check _ _ | S_push_insert _ _ | S_full_unlock _
  | S_undo _ | W_pop_unlock _ _ | W_busy _ _ | W_run _ _ | W_free _ _ | W_unbusy _ | W_dec _ => 1
  | _ => 0
  end.

(** The task node a thread owns. *)
Definition own (p : pc) : option loc :=
  match p with
  | S_count t _ | S_aging t _ | S_push_lock t _ | S_push_check t _ | S_push_insert t _
  | S_full_unlock t | S_undo t | S_undo_free t
  | W_pop_unlock _ t | W_busy _ t | W_run _ t | W_free _ t => Some t
  | _ => None
  end.

(** The node of a popped task that was not run yet. *)
Definition taken (p : pc) : option loc :=
  match p with W_pop_unlock _ t | W_busy _ t | W_run _ t => Some t | _ => None end.

(** An API call in progress, other than destroy. *)
Definition in_call (p : pc) : Z :=
  match p with
  | S_enter _ _ _ | C_ret _ => 1
  | C_idle _ => 0
  | _ => match role_of p with Client => 1 - in_flight p | _ => 0 end
  end.

(** A call that starts or stops aging. *)
Definition aging_call (p : pc) : Z :=
  match p with
  | E_lock _ _ | E_check _ _ | E_dup | E_set _ _ | E_unlock | E_create | C_ret (RBool _) => 1
  | X_load k | X_store k | X_lock k | X_signal k | X_unlock k | X_plock k | X_pbcast k
  | X_punlock k | X_join k => if k then 0 else 1
  | _ => 0
  end.

(** Control points that touch the task store, the queue or the job lists. *)
Definition touches (p : pc) : bool :=
  match p with
  | S_create _ _ _ | S_aging _ _ | S_push_insert _ _ | S_undo_free _ | W_pop_take _ | W_run _ _
  | W_free _ _ | M_store _ | G_body _ _ _ _ | D_pqfree => true
  | _ => false
  end.

(** All cases of a move, with the branches of the code resolved. *)
Ltac by_cases H :=
  match type of H with move _ _ ?p _ _ _ _ => destruct p end; move_inv H;
  try match goal with Hen : _ _ ?p' = true |- _ =>
        destruct p'; try discriminate Hen end;
  try match goal with
    | Hen : _ _ (R_store ?k) = true |- _ => destruct k; try discriminate Hen
    | Hen : _ _ (X_load ?k) = true |- _ => destruct k; try discriminate Hen
    end;
  repeat match goal with
    | |- context [if ?b then _ else _] => destruct b eqn:?
    | |- context [match ?a with Some _ => _ | None => _ end] => destruct a
    end.

Section Moves.
Context (allowed : api → bool) (capacity : nat) (contract : bool).
Abbreviation pcode := (code allowed capacity contract).
Abbreviation pmove := (move pcode).

Lemma move_spawned ps p s s' p' sp : pmove ps p s s' p' sp → sp = [] ∨ sp = [A_start].
Proof. intros H. destruct H as [| |? ? ? ? ? Hc| |]; auto. destruct p; try discriminate Hc. injection Hc as <- _ _. auto. Qed.

Lemma move_role ps p s s' p' sp : pmove ps p s s' p' sp → role_of p' = role_of p.
Proof. intros H. by_cases H; done. Qed.

Lemma u32_sub_l a b : u32 (u32 a - b) = u32 (a - b).
Proof. apply (u32_add_l a (- b)). Qed.
Lemma i32_sub_l a b : i32 (i32 a - b) = i32 (a - b).
Proof. apply (i32_add_l a (- b)). Qed.

Lemma move_flight ps p s s' p' sp x :
  pmove ps p s s' p' sp → in_flight_submits s = u32 x →
  in_flight_submits s' = u32 (x - in_flight p + in_flight p').
Proof.
  intros H Hx. by_cases H; simpl; rewrite ?Hx, ?u32_add_l, ?u32_sub_l; f_equal; lia.
Qed.

Lemma move_calls ps p s s' p' sp :
  pmove ps p s s' p' sp → g_calls s' = g_calls s - in_call p + in_call p'.
Proof. intros H. by_cases H; simpl; lia. Qed.

Lemma move_total ps p s s' p' sp x :
  pmove ps p s s' p' sp → touches p = false → total_task_in_system s = i32 x →
  total_task_in_system s' = i32 (x - counted p + counted p').
Proof.
  intros H Ht Hx. by_cases H; try discriminate Ht; simpl; rewrite ?Hx, ?i32_add_l, ?i32_sub_l;
    f_equal; lia.
Qed.

Lemma move_quiet ps p s s' p' sp :
  pmove ps p s s' p' sp → touches p = false →
  p_mem s' = p_mem s ∧ pq s' = pq s ∧ g_accepted s' = g_accepted s ∧
  g_executed s' = g_executed s ∧ own p' = own p ∧ taken p' = taken p.
Proof. intros H Ht. by_cases H; try discriminate Ht; done. Qed.
End Moves.
