(* ===== verification/PoolInv.v ===== *)
(** * PoolInv: what every interleaving of the pool preserves *)
From S2P Require Export PoolSteps.
Local Open Scope Z_scope.

(** ** Facts about single control points *)

(** What a thread knows at a control point, whatever the others do. *)
Definition pc_ok (s : thread_pool) (p : pc) : Prop :=
  match p with
  | S_enter _ _ y | S_shut _ _ y | S_full _ _ y | S_depth _ _ y _ | S_create _ _ y =>
      0 ≤ y < NUM_PRIORITIES
  | E_lock iv ms | E_check iv ms | E_set iv ms => ms_ok iv ∧ ms_ok ms
  | E_unlock | E_create | A_start => ms_ok (aging_interval_ms s) ∧ ms_ok (aging_promote_ms s)
  | A_lock iv | A_top iv | A_p_unlock iv | A_p_lock iv | A_p_check iv | A_p_shut iv
  | A_p_enable iv | A_p_wait iv | A_p_end iv | A_p_relock iv | A_shut iv | A_enable iv
  | A_clock iv | A_wait iv | G_call iv => ms_ok iv ∧ ms_ok (aging_promote_ms s)
  | G_clock _ iv ms | G_unlock _ iv ms _ | G_bcast _ iv ms | G_mid iv ms =>
      (ms_ok iv ∧ ms_ok (aging_promote_ms s)) ∧ ms_ok ms
  | G_shut _ iv ms now | G_lock _ iv ms now | G_body _ iv ms now =>
      (ms_ok iv ∧ ms_ok (aging_promote_ms s)) ∧ ms_ok ms ∧ ts_ok now
  | W_pop_null _ | W_exit _ => shutdown s = true
  | _ => True
  end.

(** What clients may ask for: a declared priority, and thresholds that fit. *)
Definition calls_ok (allowed : api → bool) : Prop :=
  ∀ a, allowed a = true →
    match a with
    | CallSubmit _ _ y => 0 ≤ y < NUM_PRIORITIES
    | CallEnableAging iv ms => iv * NSEC_PER_MSEC < 2 ^ 63 ∧ ms * NSEC_PER_MSEC < 2 ^ 63
    | _ => True
    end.

Section Local.
Context (allowed : api → bool) (capacity : nat) (contract : bool).
Abbreviation pcode := (code allowed capacity contract).
Abbreviation pmove := (move pcode).

Lemma ts_okb_ok now : ts_okb now = true → ts_ok now.
Proof. unfold ts_okb, ts_ok. lia. Qed.

(** The fields that the facts mention change only towards valid values. *)
Lemma move_params ps p s s' p' sp :
  pmove ps p s s' p' sp → pc_ok s p →
  (shutdown s = true → shutdown s' = true) ∧
  ((aging_interval_ms s' = aging_interval_ms s ∧ aging_promote_ms s' = aging_promote_ms s) ∨
   (ms_ok (aging_interval_ms s') ∧ ms_ok (aging_promote_ms s'))).
Proof. intros H. by_cases H; simpl; tauto. Qed.

Lemma pc_ok_stable ps p s s' p' sp q :
  pmove ps p s s' p' sp → pc_ok s p → pc_ok s q → pc_ok s' q.
Proof.
  intros H Hp. destruct (move_params _ _ _ _ _ _ H Hp) as [Hs [[Hi Hm]|[Hi Hm]]]; clear H Hp.
  - destruct q; simpl; rewrite ?Hi, ?Hm; tauto.
  - destruct q; simpl; tauto.
Qed.

Lemma pc_ok_move ps p s s' p' sp :
  calls_ok allowed → pmove ps p s s' p' sp → (∀ w, p ≠ W_pop_take w) →
  pc_ok s p → pc_ok s' p' ∧ Forall (pc_ok s') sp.
Proof.
  intros Ha H Ht Hp. by_cases H; simpl in *; split; auto; try tauto.
  - by destruct (Ht w).
  - apply (Ha _ Hen).
  - assert (allowed (CallEnableAging iv ms) = true) as Hal by (destruct (allowed _); done).
    destruct (Ha _ Hal). unfold ms_ok. lia.
  - split; [tauto|]. split; [tauto|by apply ts_okb_ok].
Qed.
End Local.

(** ** The invariant *)

(** The jobs of a list of nodes. *)
Definition jobs (h : gmap loc task_t) (l : list loc) : list job :=
  omap (λ x, job_of <$> h !! x) l.
Arguments jobs : simpl never.

Definition node_ok (t : task_t) : Prop :=
  ts_ok (submit_time t) ∧ 0 ≤ priority t < NUM_PRIORITIES.

(** How far destroy has come. *)
Definition phase (p : pc) : nat :=
  match p with
  | D_shut => 1
  | D_unpause => 2
  | D_spin => 3
  | D_wlock | D_wbcast | D_wunlock | D_plock | D_pbcast | D_punlock
  | X_load true | X_store true | X_lock true | X_signal true | X_unlock true | X_plock true
  | X_pbcast true | X_punlock true | X_join true | D_lock | D_check | D_wait => 4
  | D_unlock | D_monitor | D_next _ | D_join _ => 5
  | D_pqlock | D_pqfree | D_pqunlock | D_pqkill | D_kill | D_free => 6
  | D_done => 7
  | _ => 0
  end%nat.

(** How many workers destroy has joined. *)
Definition joined (n : nat) (p : pc) : nat :=
  match p with
  | D_next i | D_join i => i
  | D_pqlock | D_pqfree | D_pqunlock | D_pqkill | D_kill | D_free | D_done => n
  | _ => O
  end.

(** The array of workers is allocated. *)
Definition has_workers (p : pc) : bool := match p with D_free | D_done => false | _ => true end.

Definition join_bound (n : nat) (p : pc) : Prop :=
  match p with D_join i => (i < n)%nat | D_next i => (i ≤ n)%nat | _ => True end.

(** Threads by role: workers first, then clients, the destroyer, aging threads. *)
Definition roles (n k a : nat) : list role :=
  (Worker <$> seq 0 n) ++ replicate k Client ++ Destroyer :: replicate a Ager.

(** The queue, the task nodes and the counters of the pool agree with where the
    threads are. *)
Record balanced (s : thread_pool) (ps : list pc) (L : Lanes.t) : Prop := {
  b_repr : pq_repr (p_heap s) (pq s) L;
  b_own : omap own ps ++ Lanes.members L ≡ₚ elements (dom (p_heap s));
  b_nodes : map_Forall (λ _ t, node_ok t) (p_heap s);
  b_total : total_task_in_system s = i32 (tally counted ps + Z.of_nat (length (Lanes.members L)));
  b_jobs : g_accepted s ≡ₚ g_executed s ++ jobs (p_heap s) (omap taken ps)
                             ++ jobs (p_heap s) (Lanes.members L)
}.


(** ** Heap changes that keep the jobs *)

Lemma heap_mem m s : p_heap (upd_mem m s) = heap m.
Proof. done. Qed.
Lemma heap_queue h q s : p_heap (upd_queue h q s) = h.
Proof. done. Qed.
Lemma heap_jobs a e s : p_heap (upd_jobs a e s) = p_heap s.
Proof. done. Qed.

Lemma payload_dom (h h' : gmap loc task_t) : payload <$> h' = payload <$> h → dom h' = dom h.
Proof. intros H. by rewrite <- (dom_fmap_L payload h'), H, dom_fmap_L. Qed.

Lemma payload_lookup (h h' : gmap loc task_t) x :
  payload <$> h' = payload <$> h → payload <$> h' !! x = payload <$> h !! x.
Proof. intros H. by rewrite <- !lookup_fmap, H. Qed.

Lemma jobs_agree h h' l :
  (∀ x, x ∈ l → job_of <$> h' !! x = job_of <$> h !! x) → jobs h' l = jobs h l.
Proof.
  unfold jobs. induction l as [|x l IH]; intros H; [done|]. simpl.
  rewrite (H x) by left. destruct (job_of <$> h !! x); [f_equal|]; apply IH; intros y Hy; apply H; by right.
Qed.

Lemma jobs_payload (h h' : gmap loc task_t) l : payload <$> h' = payload <$> h → jobs h' l = jobs h l.
Proof.
  intros H. apply jobs_agree. intros x _. pose proof (payload_lookup h h' x H) as Hx.
  destruct (h' !! x) as [t'|], (h !! x) as [t|]; try done. simpl in *. f_equal.
  injection Hx as Hi Hf Ha _. unfold job_of. congruence.
Qed.

#[export] Instance jobs_proper h : Proper ((≡ₚ) ==> (≡ₚ)) (jobs h).
Proof. intros l l' Hl. unfold jobs. by rewrite Hl. Qed.

Lemma jobs_app h l1 l2 : jobs h (l1 ++ l2) = jobs h l1 ++ jobs h l2.
Proof. unfold jobs. apply omap_app. Qed.

Lemma jobs_cons h x l t : h !! x = Some t → jobs h (x :: l) = job_of t :: jobs h l.
Proof. intros Hx. unfold jobs. simpl. by rewrite Hx. Qed.

Lemma jobs_insert_ne h x t l : x ∉ l → jobs (<[x := t]> h) l = jobs h l.
Proof. intros Hx. apply jobs_agree. intros y Hy. rewrite lookup_insert_ne; [done|]. by intros ->. Qed.

Lemma jobs_delete_ne h x l : x ∉ l → jobs (delete x h) l = jobs h l.
Proof. intros Hx. apply jobs_agree. intros y Hy. rewrite lookup_delete_ne; [done|]. by intros ->. Qed.

(** ** Each touching move keeps the balance *)

Lemma taken_own p t : taken p = Some t → own p = Some t.
Proof. by destruct p. Qed.

Lemma taken_owned (ps : list pc) (t : loc) : t ∈ omap taken ps → t ∈ omap own ps.
Proof.
  rewrite !list_elem_of_omap. intros (p & Hp & Ht). exists p. split; [done|]. by apply taken_own.
Qed.

Lemma nodes_same h h' :
  same_nodes h h' → map_Forall (λ _ t, node_ok t) h → map_Forall (λ _ t, node_ok t) h'.
Proof.
  intros Hs Hn x t' Hx'. destruct (same_nodes_lookup h' h x t') as (t & Hx & Ht); [done|done|].
  specialize (Hn x t Hx). destruct t, t'. unfold node_ok in *. simpl in *. by injection Ht as -> -> -> -> ->.
Qed.

Section Balance.
Context (s : thread_pool) (ps : list pc) (L : Lanes.t) (i : nat) (p : pc).
Hypothesis (B : balanced s ps L) (Hi : ps !! i = Some p).

Lemma owned_nodup : NoDup (omap own ps ++ Lanes.members L).
Proof. rewrite (b_own _ _ _ B). apply NoDup_elements. Qed.

Lemma owned_in_heap x : x ∈ omap own ps ++ Lanes.members L → is_Some (p_heap s !! x).
Proof. rewrite (b_own _ _ _ B), elem_of_elements. apply elem_of_dom. Qed.

Lemma own_elem t : own p = Some t → t ∈ omap own ps.
Proof.
  intros Ht. apply list_elem_of_omap. exists p. split; [|done]. by eapply list_elem_of_lookup_2.
Qed.

Lemma own_node t : own p = Some t → ∃ task, p_heap s !! t = Some task ∧ t ∉ Lanes.members L.
Proof.
  intros Ht. pose proof (own_elem t Ht) as Hin. destruct (owned_in_heap t) as [task Htask].
  { apply elem_of_app. by left. }
  exists task. split; [done|]. pose proof owned_nodup as Hnd.
  apply NoDup_app in Hnd as (_ & Hd & _). by apply Hd.
Qed.

(** Threads that neither start nor end owning a node. *)
Lemma balance_counts s' p' sp L' :
  sp = [] ∨ sp = [A_start] →
  pq_repr (p_heap s') (pq s') L' → payload <$> p_heap s' = payload <$> p_heap s →
  map_Forall (λ _ t, node_ok t) (p_heap s') → Lanes.members L' ≡ₚ Lanes.members L →
  total_task_in_system s' =
    i32 (tally counted ps + Z.of_nat (length (Lanes.members L)) - counted p + counted p') →
  g_accepted s' = g_accepted s → g_executed s' = g_executed s →
  own p' = own p → taken p' = taken p →
  balanced s' (<[i := p']> ps ++ sp) L'.
Proof.
  intros Hsp Hr Hp Hn Hm Ht Ha He Ho Htk.
  assert (Hom : ∀ g : pc → option loc, g A_start = None → g p' = g p →
    omap g (<[i := p']> ps ++ sp) ≡ₚ omap g ps).
  { intros g Hg Hgp. rewrite omap_app, (omap_moved g _ _ _ _ Hi), (omap_at g _ _ _ Hi), Hgp. destruct Hsp as [-> | ->]; simpl; rewrite ?Hg, app_nil_r; done. }
  split.
  - done.
  - rewrite (Hom own), Hm by done. rewrite (payload_dom _ _ Hp). apply B.
  - done.
  - rewrite Ht, Hm, tally_app, (tally_insert _ _ _ _ _ Hi). f_equal.
    destruct Hsp as [-> | ->]; simpl; lia.
  - rewrite Ha, He, (Hom taken), Hm by done. rewrite !(jobs_payload _ _ _ Hp). apply B.
Qed.

(** How the tallies and the owned nodes change when thread [i] moves to [p']. *)
Lemma moved_total p' d :
  total_task_in_system s =
    i32 (tally counted (<[i := p']> ps) + (counted p - counted p') + Z.of_nat (length (Lanes.members L))) ∧
  (d = Z.of_nat (length (Lanes.members L)) + (counted p - counted p') →
   total_task_in_system s = i32 (tally counted (<[i := p']> ps) + d)).
Proof.
  rewrite (b_total _ _ _ B), (tally_insert _ _ _ _ _ Hi). split; [f_equal; lia|].
  intros ->. f_equal. lia.
Qed.

Lemma balance_create f a y l z c :
  p = S_create f a y → p_heap s !! l = None → 0 ≤ y < NUM_PRIORITIES →
  balanced (upd_mem (mk_mem (<[l := mk_task z f a y (mk_ts 0 0) None]> (p_heap s)) c) s)
    (<[i := S_count l (i64 z)]> ps) L.
Proof.
  intros Hpc Hl Hy.
  assert (Hout : l ∉ omap own ps ++ Lanes.members L).
  { intros Hin%owned_in_heap. rewrite Hl in Hin. by destruct Hin. }
  assert (Hm : l ∉ Lanes.members L) by (intros ?; apply Hout, elem_of_app; by right).
  assert (Htk : l ∉ omap taken ps) by (intros ?%taken_owned; apply Hout, elem_of_app; by left).
  pose proof (omap_at own _ _ _ Hi) as HR. pose proof (omap_at taken _ _ _ Hi) as HT.
  rewrite Hpc in HR, HT. simpl in HR, HT.
  split; rewrite ?heap_jobs, ?heap_queue, ?heap_mem; simpl.
  - apply pq_repr_insert; [done|apply B].
  - rewrite (omap_moved own _ _ _ _ Hi). simpl.
    rewrite dom_insert_L, elements_union_singleton, <- (b_own _ _ _ B), HR;
      [done|by apply not_elem_of_dom].
  - apply map_Forall_insert_2; [|apply B]. split; [|done]. unfold ts_ok, NSEC_PER_SEC; simpl; lia.
  - apply (moved_total (S_count l (i64 z)) _). rewrite Hpc. simpl. lia.
  - rewrite (omap_moved taken _ _ _ _ Hi).
    rewrite !jobs_insert_ne; [|done|by rewrite <- HT]. rewrite <- HT. apply B.
Qed.

(** Writing a node one owns, keeping its job. *)
Lemma balance_write t task task' p' :
  own p = Some t → p_heap s !! t = Some task → job_of task' = job_of task → node_ok task' →
  own p' = own p → taken p' = taken p → counted p' = counted p →
  balanced (upd_queue (<[t := task']> (p_heap s)) (pq s) s) (<[i := p']> ps) L.
Proof.
  intros Ht Htask Hj Hn Ho Htk Hc. destruct (own_node t Ht) as (task0 & _ & Hm).
  assert (Hjs : ∀ l, jobs (<[t := task']> (p_heap s)) l = jobs (p_heap s) l).
  { intros l. apply jobs_agree. intros x _. rewrite lookup_insert. case_decide; [subst x|done].
    rewrite Htask. simpl. by rewrite Hj. }
  split; rewrite ?heap_jobs, ?heap_queue, ?heap_mem; simpl.
  - apply pq_repr_insert; [done|apply B].
  - rewrite (omap_moved own _ _ _ _ Hi), Ho, <- (omap_at own _ _ _ Hi).
    rewrite dom_insert_lookup_L by done. apply B.
  - apply map_Forall_insert_2; [done|apply B].
  - apply (moved_total p'). lia.
  - rewrite (omap_moved taken _ _ _ _ Hi), Htk, <- (omap_at taken _ _ _ Hi).
     rewrite !Hjs. apply B.
Qed.

(** Freeing a node one owns. *)
Lemma balance_free t p' :
  own p = Some t → taken p = None → own p' = None → taken p' = None → counted p' = counted p →
  balanced (upd_queue (delete t (p_heap s)) (pq s) s) (<[i := p']> ps) L.
Proof.
  intros Ht Htk0 Ho Htk Hc. destruct (own_node t Ht) as (task & Htask & Hm).
  pose proof (omap_at own _ _ _ Hi) as HR. pose proof (omap_at taken _ _ _ Hi) as HT.
  rewrite Ht in HR. rewrite Htk0 in HT. simpl in HR, HT.
  pose proof owned_nodup as Hnd. rewrite HR in Hnd. simpl in Hnd. apply NoDup_cons in Hnd as [HtR _].
  assert (HTt : t ∉ omap taken ps).
  { rewrite HT. intros Hin%taken_owned. apply HtR, elem_of_app. by left. }
  split; rewrite ?heap_jobs, ?heap_queue, ?heap_mem; simpl.
  - apply pq_repr_delete; [done|apply B].
  - rewrite (omap_moved own _ _ _ _ Hi), Ho. simpl. apply (Permutation_cons_inv (a := t)).
    rewrite dom_delete_L, <- elements_union_singleton by set_solver.
    rewrite <- union_difference_singleton_L by (by apply elem_of_dom_2 in Htask).
    rewrite <- (b_own _ _ _ B), HR. done.
  - apply map_Forall_delete, B.
  - apply (moved_total p'). lia.
  - rewrite (omap_moved taken _ _ _ _ Hi), Htk. simpl. rewrite <- HT.
    rewrite !jobs_delete_ne by done. apply B.
Qed.

(** Running a popped task. *)
Lemma balance_run w t task :
  p = W_run w t → p_heap s !! t = Some task →
  balanced (upd_jobs (g_accepted s) (job_of task :: g_executed s) (upd_queue (p_heap s) (pq s) s))
    (<[i := W_free w t]> ps) L.
Proof.
  intros Hpc Htask.
  pose proof (omap_at own _ _ _ Hi) as HR. pose proof (omap_at taken _ _ _ Hi) as HT.
  rewrite Hpc in HR, HT. simpl in HR, HT.
  split; rewrite ?heap_jobs, ?heap_queue, ?heap_mem; simpl.
  - apply B.
  - by rewrite (omap_moved own _ _ _ _ Hi), <- (b_own _ _ _ B), HR.
  - apply B.
  - apply (moved_total (W_free w t)). rewrite Hpc. simpl. lia.
  - rewrite (omap_moved taken _ _ _ _ Hi), (b_jobs _ _ _ B), HT. simpl.
    rewrite (jobs_cons _ _ _ _ Htask). simpl. by rewrite <- Permutation_middle.
Qed.

(** The node goes from its submitter into the queue. *)
Lemma balance_insert t z task L' h' q' :
  p = S_push_insert t z → p_heap s !! t = Some task →
  pq_repr h' q' L' → Lanes.members L' ≡ₚ t :: Lanes.members L → same_nodes (p_heap s) h' →
  balanced (upd_jobs (job_of task :: g_accepted s) (g_executed s) (upd_queue h' q' s))
    (<[i := S_push_unlock z]> ps) L'.
Proof.
  intros Hpc Htask Hr' HL' Hs.
  pose proof (omap_at own _ _ _ Hi) as HR. pose proof (omap_at taken _ _ _ Hi) as HT.
  rewrite Hpc in HR, HT. simpl in HR, HT. pose proof (same_nodes_payload _ _ Hs) as Hp.
  split; rewrite ?heap_jobs, ?heap_queue, ?heap_mem; simpl.
  - done.
  - rewrite (omap_moved own _ _ _ _ Hi), HL'. simpl. rewrite (payload_dom _ _ Hp), <- (b_own _ _ _ B), HR.
    by rewrite <- Permutation_middle.
  - by eapply nodes_same, B.
  - apply (moved_total (S_push_unlock z)). rewrite Hpc, HL'. simpl. lia.
  - rewrite (omap_moved taken _ _ _ _ Hi), HL'.  rewrite <- HT.
    rewrite !(jobs_payload _ _ _ Hp), (b_jobs _ _ _ B), (jobs_cons _ _ _ _ Htask).
    by rewrite <- !Permutation_middle.
Qed.

(** The node goes from the queue to a worker. *)
Lemma balance_take w t L' h' q' :
  p = W_pop_take w → pq_repr h' q' L' → Lanes.members L ≡ₚ t :: Lanes.members L' →
  same_nodes (p_heap s) h' →
  balanced (upd_queue h' q' s) (<[i := W_pop_unlock w t]> ps) L'.
Proof.
  intros Hpc Hr' HL' Hs.
  pose proof (omap_at own _ _ _ Hi) as HR. pose proof (omap_at taken _ _ _ Hi) as HT.
  rewrite Hpc in HR, HT. simpl in HR, HT. pose proof (same_nodes_payload _ _ Hs) as Hp.
  destruct (owned_in_heap t) as [task Htask].
  { apply elem_of_app. right. rewrite HL'. left. }
  split; rewrite ?heap_jobs, ?heap_queue, ?heap_mem; simpl.
  - done.
  - rewrite (omap_moved own _ _ _ _ Hi). simpl. rewrite <- HR.
    rewrite (payload_dom _ _ Hp), <- (b_own _ _ _ B), HL'. by rewrite <- Permutation_middle.
  - by eapply nodes_same, B.
  - apply (moved_total (W_pop_unlock w t)). rewrite Hpc, HL'. simpl. lia.
  - rewrite (omap_moved taken _ _ _ _ Hi). simpl. rewrite <- HT.
    rewrite !(jobs_payload _ _ _ Hp), (b_jobs _ _ _ B), HL', !(jobs_cons _ _ _ _ Htask).
    simpl. by rewrite <- Permutation_middle.
Qed.

Lemma balance_promote up iv ms now h' q' moved :
  p = G_body up iv ms now → ms_ok ms → ts_ok now →
  promote_locked (if up then PRIORITY_MEDIUM else PRIORITY_LOW)
    (if up then PRIORITY_HIGH else PRIORITY_MEDIUM) now ms (p_heap s, pq s)
  = Ok (moved, (h', q')) →
  ∃ L', balanced (upd_queue h' q' s) (<[i := G_unlock up iv ms moved]> ps) L' ∧
    Lanes.members L' ≡ₚ Lanes.members L.
Proof.
  intros Hpc Hms Hnow Hrun. pose proof (repr_len3 (b_repr _ _ _ B)) as HL.
  assert (∃ src dst, (src < 3)%nat ∧ (dst < 3)%nat ∧ src ≠ dst ∧
    promote_locked (Z.of_nat src) (Z.of_nat dst) now ms (p_heap s, pq s) = Ok (moved, (h', q')))
    as (src & dst & Hs & Hd & Hne & Hrun').
  { destruct up; [exists 1%nat, 2%nat|exists 0%nat, 1%nat]; split_and!; try done; lia. }
  destruct (promote_refines (p_heap s) (pq s) L now ms src dst) as (h1 & q1 & Hr1 & Hrep & Hp & _ & Hout);
    try done; [apply B|intros x t Hx; by apply (b_nodes _ _ _ B x)|].
  rewrite Hrun' in Hr1. injection Hr1 as _ <- <-.
  exists (lanes_promote (node_expired (p_heap s) now ms) src dst L).
  assert (Hmem := lanes_promote_members (node_expired (p_heap s) now ms) src dst L).
  split; [|apply Hmem; lia].
  rewrite <- (app_nil_r (<[i := _]> ps)). apply balance_counts; try done; try (by rewrite Hpc).
  - by left.
  - intros x t' Hx'. rewrite heap_queue in Hx'. destruct (decide (x ∈ Lanes.members L)) as [Hx|Hx].
    + assert (Htm : times_ok h').
      { apply (payload_times _ _ Hp). intros y ty Hy. by apply (b_nodes _ _ _ B y). }
      split; [apply (Htm x t' Hx')|]. eapply pq_repr_prio; [exact Hrep| |exact Hx'].
      rewrite Hmem by lia. done.
    + rewrite Hout in Hx' by done. by apply (b_nodes _ _ _ B x).
  - apply Hmem; lia.
  - simpl. rewrite (b_total _ _ _ B), Hpc. simpl. f_equal. lia.
Qed.

Lemma balance_max m p' :
  own p' = own p → taken p' = taken p → counted p' = counted p →
  balanced (upd_queue (p_heap s) (pq_set_max_tasks true m (pq s)) s) (<[i := p']> ps) L.
Proof.
  intros Ho Htk Hc. rewrite <- (app_nil_r (<[i := _]> ps)).
  apply balance_counts; try done; [by left|apply pq_repr_set_max, B|apply B|].
  simpl. rewrite (b_total _ _ _ B), Hc. f_equal. lia.
Qed.

Lemma balance_clear h' q' :
  p = D_pqfree → Lanes.members L = [] →
  (destroy_lanes (Z.to_nat NUM_PRIORITIES) 0;;
   upd_pq (λ q, set_depth 0 (set_mask 0 (set_size 0 q)))) (p_heap s, pq s) = Ok (tt, (h', q')) →
  balanced (upd_queue h' q' s) (<[i := D_pqunlock]> ps) Lanes.empty.
Proof.
  intros Hpc Hm Hrun. destruct (destroy_body_ok _ _ _ (b_repr _ _ _ B)) as (h1 & q1 & Hr1 & Hf & Hrep & _).
  rewrite Hrun in Hr1. injection Hr1 as <- <-.
  assert (h' = p_heap s) as ->.
  { apply map_eq. intros x. by rewrite Hf, Hm, decide_False by apply not_elem_of_nil. }
  rewrite <- (app_nil_r (<[i := _]> ps)). apply balance_counts; try done; try (by rewrite Hpc).
  - by left.
  - apply B.
  - by rewrite Hm.
  - simpl. rewrite (b_total _ _ _ B), Hpc. simpl. f_equal. lia.
Qed.
End Balance.

(** What a thread has read under the queue's mutex and still holds. *)
Definition peeked (s : thread_pool) (p : pc) : Prop :=
  match p with
  | W_pop_take _ => ready_mask (pq s) ≠ 0
  | W_pop_shut _ | W_pop_wait _ => ready_mask (pq s) = 0
  | _ => True
  end.

(** The critical sections of a worker and of a submitter cannot fault. *)
Lemma take_body_ok s ps L :
  balanced s ps L → ready_mask (pq s) ≠ 0 →
  ∃ t L' h' q',
    (q ← get_pq; p ← lift (_get_highest_priority (ready_mask q)); _pq_pop_locked p)
      (p_heap s, pq s) = Ok (Some t, (h', q')) ∧
    Lanes.pop L = Some (t, L') ∧ pq_repr h' q' L' ∧ same_nodes (p_heap s) h'.
Proof.
  intros B Hnz.
  destruct (pop_highest_refines _ _ _ (b_repr _ _ _ B) Hnz)
    as (p & t & L' & h' & q' & Hget & Hrun & Hpop & Hr' & Hs & _).
  exists t, L', h', q'. split; [|done]. mstep. mstep. done.
Qed.

Lemma insert_body_ok s ps L i t z :
  balanced s ps L → ps !! i = Some (S_push_insert t z) →
  ∃ task L' h' q',
    (task ← load_task (Some t); _pq_insert_locked t;; mret task) (p_heap s, pq s)
      = Ok (task, (h', q')) ∧
    p_heap s !! t = Some task ∧
    L' = Lanes.insert (Z.to_nat (priority task)) t L ∧
    Lanes.members L' ≡ₚ t :: Lanes.members L ∧ pq_repr h' q' L' ∧ same_nodes (p_heap s) h'.
Proof.
  intros B Hi. destruct (own_node s ps L i _ B Hi t eq_refl) as (task & Htask & Hm).
  destruct (b_nodes _ _ _ B t task Htask) as [_ Hp]. pose proof (repr_len3 (b_repr _ _ _ B)) as HL.
  unfold NUM_PRIORITIES, PRIORITY_COUNT in Hp.
  destruct (insert_locked_refines (p_heap s) (pq s) L t task (Z.to_nat (priority task)))
    as (h' & q' & Hrun & Hr' & Hs & _); try done; try lia; [apply B|].
  exists task, (Lanes.insert (Z.to_nat (priority task)) t L), h', q'. split_and!; try done.
  - mstep. mstep. done.
  - apply lanes_insert_perm. lia.
Qed.

Section BalanceStep.
Context (allowed : api → bool) (capacity : nat) (contract : bool).
Abbreviation pcode := (code allowed capacity contract).
Abbreviation pmove := (move pcode).

(** Nodes enter the store only by an allocation that the memory admits. *)
Definition node_budget (s : thread_pool) (p p' : pc) (L L' : Lanes.t) : Prop :=
  let own_len p := length (option_list (own p)) in
  (own_len p' + length (Lanes.members L') ≤ own_len p + length (Lanes.members L))%nat ∨
  (own p = None ∧ length (Lanes.members L') = length (Lanes.members L) ∧
   (base.size (p_heap s) < capacity)%nat).

(** Every move keeps the balance. *)
Lemma balanced_step s ps L i p s' p' sp :
  balanced s ps L → ps !! i = Some p → pmove ps p s s' p' sp →
  pc_ok s p → peeked s p → (p = D_pqfree → Lanes.members L = []) →
  ∃ L', balanced s' (<[i := p']> ps ++ sp) L' ∧ node_budget s p p' L L'.
Proof.
  intros B Hi H Hok Hpk Hdr. pose proof (move_spawned _ _ _ _ _ _ _ _ _ H) as Hsp.
  unfold node_budget. destruct (touches p) eqn:Ht.
  2:{ destruct (move_quiet _ _ _ _ _ _ _ _ _ H Ht) as (Hm & Hq & Ha & He & Ho & Htk).
    assert (Hh : p_heap s' = p_heap s) by (unfold p_heap; by rewrite Hm).
    exists L. rewrite Ho. split; [|by left]. eapply balance_counts; try done.
    - rewrite Hh, Hq. apply B.
    - by rewrite Hh.
    - rewrite Hh. apply B.
    - eapply move_total; try done. apply B. }
  assert (Hsame : ∀ p', own p' = own p → taken p' = taken p → counted p' = counted p →
    balanced s (<[i := p']> ps) L).
  { intros p0 Ho Htk Hc. rewrite <- (app_nil_r (<[i := _]> ps)).
    eapply balance_counts; try done; [by left|apply B..|].
    rewrite (b_total _ _ _ B), Hc. f_equal. lia. }
  destruct p; try discriminate Ht; move_inv H; rewrite app_nil_r; simpl in Hok, Hpk.
  - destruct (take_body_ok s ps L B Hpk) as (t & L' & h1 & q1 & Hr1 & Hpop & Hrep & Hs).
    rewrite Hr1 in Hrun. injection Hrun as <- <- <-. apply lanes_pop_perm in Hpop.
    exists L'. split; [by eapply balance_take|]. left. rewrite Hpop. simpl. lia.
  - destruct (own_node s ps L i _ B Hi t eq_refl) as (task & Htask & _).
    rewrite (load_task_ok _ _ _ _ Htask) in Hrun. injection Hrun as <- <- <-.
    exists L. split; [by eapply balance_run|by left].
  - destruct (own_node s ps L i _ B Hi t eq_refl) as (task & Htask & _).
    rewrite (free_task_ok _ _ _ _ Htask) in Hrun. injection Hrun as _ <- <-.
    exists L. split; [by eapply balance_free|left; simpl; lia].
  - exists L. split; [by apply Hsame|by left].
  - exists L. split; [by eapply balance_create|by right].
  - exists L. split; [by apply Hsame|by left].
  - exists L. split; [|by left]. eapply balance_write; try done.
    split; [by apply ts_okb_ok|apply (b_nodes _ _ _ B t task Hnode)].
  - destruct (insert_body_ok s ps L i t i0 B Hi) as (task & L' & h1 & q1 & Hr1 & Htask & _ & Hm & Hrep & Hs).
    rewrite Hr1 in Hrun. injection Hrun as <- <- <-. exists L'.
    split; [by eapply balance_insert|]. left. rewrite Hm. simpl. lia.
  - destruct (own_node s ps L i _ B Hi t eq_refl) as (task & Htask & _).
    rewrite (free_task_ok _ _ _ _ Htask) in Hrun. injection Hrun as _ <- <-.
    exists L. split; [by eapply balance_free|left; simpl; lia].
  - exists L. split; [by eapply balance_max|by left].
  - destruct Hok as (_ & Hms & Hnow).
    destruct (balance_promote s ps L i _ B Hi up iv ms now h' q' ret) as (L' & B' & Hm); try done.
    exists L'. split; [done|]. left. by rewrite Hm.
  - destruct ret. exists Lanes.empty. split; [|left].
    { eapply (balance_clear s ps L i _ B Hi); [done|by apply Hdr|exact Hrun]. }
    rewrite Hdr by done. simpl. lia.
Qed.
End BalanceStep.

(** ** Roles and phases along the moves *)

Lemma roles_lookup n k a i r :
  roles n k a !! i = Some r →
  ((i < n)%nat ∧ r = Worker i) ∨ ((n ≤ i < n + k)%nat ∧ r = Client) ∨
  (i = (n + k)%nat ∧ r = Destroyer) ∨ ((n + k < i)%nat ∧ r = Ager).
Proof.
  unfold roles. intros H. apply lookup_app_Some in H as [H|[Hi H]].
  - left. rewrite list_lookup_fmap in H. destruct (seq 0 n !! i) as [w|] eqn:E; [|done].
    apply lookup_seq in E as [-> ?]. by injection H as <-.
  - rewrite length_fmap, length_seq in Hi, H.
    apply lookup_app_Some in H as [H|[Hi' H]].
    + apply lookup_replicate in H as [-> ?]. right. left. split; [lia|done].
    + rewrite length_replicate in Hi', H. right. right.
      destruct (i - n - k)%nat as [|j] eqn:E; simpl in H.
      * injection H as <-. left. split; [lia|done].
      * apply lookup_replicate in H as [-> ?]. right. split; [lia|done].
Qed.

Section Phases.
Context (allowed : api → bool) (capacity : nat).
Abbreviation pcode := (code allowed capacity true).
Abbreviation pmove := (move pcode).

Lemma move_phase ps p s s' p' sp :
  pmove ps p s s' p' sp →
  match role_of p with
  | Destroyer =>
      (g_destroying s = bool_decide (1 ≤ phase p)%nat → g_destroying s' = bool_decide (1 ≤ phase p')%nat) ∧
      (shutdown s = bool_decide (2 ≤ phase p)%nat → shutdown s' = bool_decide (2 ≤ phase p')%nat) ∧
      (p_freed s = bool_decide (7 ≤ phase p)%nat → p_freed s' = bool_decide (7 ≤ phase p')%nat) ∧
      (phase p ≤ phase p')%nat ∧ in_call p' = in_call p ∧ in_flight p' = in_flight p ∧
      (phase p = 0%nat → phase p' ≠ 0%nat → g_calls s = 0) ∧
      ((phase p < 4)%nat → (4 ≤ phase p')%nat → in_flight_submits s ≤ 0) ∧
      ((phase p < 5)%nat → (5 ≤ phase p')%nat → total_task_in_system s ≤ 0) ∧
      total_task_in_system s' = total_task_in_system s
  | _ => g_destroying s' = g_destroying s ∧ shutdown s' = shutdown s ∧ p_freed s' = p_freed s
  end.
Proof.
  intros H. by_cases H; try (split_and!; done); simpl; try (split_and!; try done; intros; lia).
  all: match goal with |- context [if ?k then Destroyer else _] => destruct k end;
    split_and!; try done; intros; lia.
Qed.

(** Once destroy was called no call starts, and a registered submit stays
    registered until it returns. *)
Lemma move_no_call ps p s s' p' sp :
  pmove ps p s s' p' sp → g_destroying s = true → in_call p = 0 → in_call p' = 0.
Proof. intros H Hd Hp. by_cases H; simpl in *; try congruence; lia. Qed.

Lemma move_no_flight ps p s s' p' sp :
  pmove ps p s s' p' sp → g_destroying s = true → in_call p = 0 → in_flight p = 0 →
  in_flight p' = 0 ∧ (counted p = 0 → total_task_in_system s' = total_task_in_system s).
Proof. intros H Hd Hp Hf. by_cases H; simpl in *; try done; try congruence; lia. Qed.

Lemma move_mask ps p s s' p' sp :
  pmove ps p s s' p' sp → in_pq p = false → ready_mask (pq s') = ready_mask (pq s).
Proof.
  intros H Hp. by_cases H; simpl in *; try done.
  all: simpl in Hrun; destruct (p_heap s !! t); try discriminate; by injection Hrun as _ _ <-.
Qed.

Lemma move_peek ps p s s' p' sp :
  pmove ps p s s' p' sp → peeked s p → (∀ w, p ≠ W_pop_take w) → peeked s' p'.
Proof.
  intros H Hp Hne. by_cases H; simpl in *; try done; try lia.
Qed.

Lemma move_static ps p s s' p' sp :
  pmove ps p s s' p' sp →
  num_workers s' = num_workers s ∧
  (has_workers p' = true → has_workers p = true ∧ tid <$> workers s' = tid <$> workers s).
Proof. 
  intros H. by_cases H; simpl; try done.
  all: split; [done|]; intros _; split; [done|]; apply list_eq; intros i; rewrite !list_lookup_fmap,
    list_lookup_alter; destruct (decide (w = i)) as [->|]; [|done]; by destruct (workers s !! i).
Qed.

Lemma move_joined ps p s s' p' sp n :
  pmove ps p s s' p' sp → (joined n p' ≤ joined n p)%nat ∨
    (∃ i q, p = D_join i ∧ p' = D_next (S i) ∧ pcode q = AExit ∧
            ps !! (match workers s !! i with Some w => tid w | None => O end) = Some q) ∨
    (∃ i, p = D_next i ∧ p' = D_pqlock ∧ num_workers s ≤ Z.of_nat i).
Proof.
  intros H. by_cases H; try (left; simpl; lia); right.
  - right. exists i. split_and!; try done. lia.
  - left. by exists i, q.
Qed.

Lemma move_bound ps p s s' p' sp n :
  pmove ps p s s' p' sp → num_workers s = Z.of_nat n → join_bound n p → join_bound n p'.
Proof. intros H Hn Hb. by_cases H; simpl in *; try done; lia. Qed.
End Phases.
