(* ===== verification/PoolSafety.v ===== *)
(** * PoolSafety: the invariant of all reachable states, and what follows *)
From S2P Require Export PoolInv.
Local Open Scope Z_scope.

Lemma in_call_nonneg p : 0 ≤ in_call p.
Proof. destruct p; simpl; try lia; by destruct k. Qed.
Lemma in_flight_nonneg p : 0 ≤ in_flight p.
Proof. destruct p; simpl; lia. Qed.
Lemma counted_nonneg p : 0 ≤ counted p.
Proof. destruct p; simpl; lia. Qed.

Lemma heap_size s ps L :
  balanced s ps L →
  base.size (p_heap s) = (length (omap own ps) + length (Lanes.members L))%nat.
Proof.
  intros B. rewrite <- length_app, (b_own _ _ _ B), <- size_dom. done.
Qed.

Lemma tally_moved f (ps : list pc) i p p' sp :
  ps !! i = Some p → sp = [] ∨ sp = [A_start] → f A_start = 0 →
  tally f (<[i := p']> ps ++ sp) = tally f ps - f p + f p'.
Proof.
  intros Hi Hsp Hf. rewrite tally_app, (tally_insert f ps i p p' Hi).
  destruct Hsp as [-> | ->]; simpl; lia.
Qed.

Section Safety.
(** Clients that follow the contract, [n] workers, [k] client threads, memory
    for [capacity] task nodes. *)
Context (allowed : api → bool) (capacity n k : nat).
Abbreviation pcode := (code allowed capacity true).
Abbreviation pmove := (move pcode).
Abbreviation pstep := (step pcode).
Hypothesis (Hcalls : calls_ok allowed).
Hypothesis (Hcap : Z.of_nat (capacity + n) < 2 ^ 31) (Hk : Z.of_nat k < 2 ^ 32).

(** What holds once destroy has come to control point [d]. *)
Record dest_ok (s : thread_pool) (ps : list pc) (d : pc) : Prop := {
  d_destroying : g_destroying s = bool_decide (1 ≤ phase d)%nat;
  d_shutdown : shutdown s = bool_decide (2 ≤ phase d)%nat;
  d_freed : p_freed s = bool_decide (7 ≤ phase d)%nat;
  d_calls : (1 ≤ phase d)%nat → tally in_call ps = 0;
  d_flight : (4 ≤ phase d)%nat → tally in_flight ps = 0;
  d_drained : (5 ≤ phase d)%nat → total_task_in_system s = 0;
  d_tids : has_workers d = true → tid <$> workers s = seq 0 n;
  d_joined : ∀ w, (w < joined n d)%nat → ps !! w = Some (W_exit w);
  d_bound : join_bound n d
}.

Record inv (s : thread_pool) (ps : list pc) : Prop := {
  v_roles : ∃ a, role_of <$> ps = roles n k a;
  v_pcs : Forall (pc_ok s) ps;
  v_peek : ∀ i p, ps !! i = Some p → peeked s p;
  v_flight : in_flight_submits s = u32 (tally in_flight ps);
  v_calls : g_calls s = tally in_call ps;
  v_cap : (base.size (p_heap s) ≤ capacity)%nat;
  v_num : num_workers s = Z.of_nat n;
  v_dest : ∃ d, ps !! (n + k)%nat = Some d ∧ dest_ok s ps d;
  v_balance : ∃ L, balanced s ps L
}.

(** ** Consequences used in the induction *)

Section Facts.
Context (s : thread_pool) (ps : list pc) (I : inv s ps).

Lemma inv_role i p :
  ps !! i = Some p →
  ((i < n)%nat ∧ role_of p = Worker i) ∨ ((n ≤ i < n + k)%nat ∧ role_of p = Client) ∨
  (i = (n + k)%nat ∧ role_of p = Destroyer) ∨ ((n + k < i)%nat ∧ role_of p = Ager).
Proof.
  intros Hi. destruct (v_roles _ _ I) as [a Ha]. apply (roles_lookup n k a).
  by rewrite <- Ha, list_lookup_fmap, Hi.
Qed.

(** A tally with at most [g r] for a thread of role [r]. *)
Lemma tally_roles (f : pc → Z) (g : role → Z) c :
  (∀ p, f p ≤ g (role_of p)) → (∀ w, g (Worker w) = c) → g Ager = 0 →
  tally f ps ≤ Z.of_nat n * c + Z.of_nat k * g Client + g Destroyer.
Proof.
  clear Hcalls Hcap Hk. intros Hf Hw Ha. destruct (v_roles _ _ I) as [a Hr].
  etrans; [by apply (tally_le f g role_of)|]. rewrite Hr. unfold roles.
  rewrite !tally_app. simpl. rewrite (tally_const g c), length_fmap, length_seq.
  - rewrite (tally_const g (g Client)), (tally_const g (g Ager)), !length_replicate.
    + lia.
    + by apply Forall_replicate.
    + by apply Forall_replicate.
  - apply Forall_fmap, Forall_forall. intros w _. apply Hw.
Qed.

Lemma flight_bound : 0 ≤ tally in_flight ps ≤ Z.of_nat k.
Proof.
  clear Hcalls Hcap Hk. split; [apply tally_nonneg, in_flight_nonneg|].
  etrans; [apply (tally_roles in_flight (λ r, match r with Client => 1 | _ => 0 end) 0); try done|lia].
  intros []; simpl; try lia; by destruct k0.
Qed.

(** Tasks in the system: on their way in, queued, or held by a worker. *)
Lemma outstanding_bound L :
  balanced s ps L →
  0 ≤ tally counted ps + Z.of_nat (length (Lanes.members L)) ≤ Z.of_nat (capacity + n).
Proof.
  clear Hcalls Hcap Hk. intros B. pose proof (tally_nonneg counted ps counted_nonneg).
  split; [lia|]. pose (late p := match p with W_unbusy _ | W_dec _ => 1 | _ => 0 end).
  assert (Hc : tally counted ps ≤ Z.of_nat (length (omap own ps)) + tally late ps).
  { clear. unfold tally. induction ps as [|p ps' IH]; [done|]. cbn [foldr].
    destruct p; cbn [counted late omap list_omap own length]; rewrite ?Nat2Z.inj_succ; lia. }
  assert (Hl : tally late ps ≤ Z.of_nat n).
  { etrans; [apply (tally_roles late (λ r, match r with Worker _ => 1 | _ => 0 end) 1); try done|lia].
    intros []; simpl; try lia; by destruct k0. }
  pose proof (heap_size _ _ _ B). pose proof (v_cap _ _ I). lia.
Qed.

Lemma total_exact L :
  balanced s ps L →
  total_task_in_system s = tally counted ps + Z.of_nat (length (Lanes.members L)).
Proof.
  clear Hcalls Hk. intros B. pose proof (outstanding_bound L B). rewrite (b_total _ _ _ B), i32_small; lia.
Qed.
End Facts.

(** ** The invariant is preserved *)

Lemma inv_dest_here s ps i p :
  inv s ps → ps !! i = Some p → role_of p = Destroyer → i = (n + k)%nat ∧ dest_ok s ps p.
Proof.
  intros I Hi Hr. destruct (inv_role s ps I i p Hi) as [[_ ?]|[[_ ?]|[[-> _]|[_ ?]]]]; try congruence.
  split; [done|]. destruct (v_dest _ _ I) as (d & Hd & Hok). by rewrite Hi in Hd; injection Hd as ->.
Qed.

Lemma inv_drained s ps i : inv s ps → ps !! i = Some D_pqfree → ∀ L, balanced s ps L → Lanes.members L = [].
Proof.
  intros I Hi L B. destruct (inv_dest_here _ _ _ _ I Hi eq_refl) as [_ Hd].
  pose proof (d_drained _ _ _ Hd ltac:(simpl; lia)) as H0.
  rewrite (total_exact s ps I L B) in H0. pose proof (tally_nonneg counted ps counted_nonneg).
  apply length_zero_iff_nil. lia.
Qed.

(** Threads other than the one that moves keep what they read under the lock. *)
Lemma peek_stable c i p s' p' sp :
  owned holds c → sleepers_ok pcode holds c → inv (sh c) (pcs c) →
  threads c !! i = Some (Running p) → pmove (pcs c) p (sh c) s' p' sp →
  ∀ j q, pcs c !! j = Some q → j ≠ i → peeked s' q.
Proof.
  intros Ho Hs I Hi H j q Hj Hne. pose proof (v_peek _ _ I j q Hj) as Hq.
  destruct (in_pq p) eqn:Hp.
  - destruct (in_pq q) eqn:Hq'; [|by destruct q].
    assert (Hr : ¬ resume_pc pcode q → False).
    { intros Hnr. apply Hne. eapply (owned_exclusive holds c MPq); [done| |].
      - eapply pcs_hold; try done.
      - unfold hold_at. rewrite Hi. done. }
    destruct q; try done; exfalso; apply Hr; intros (q & cv & m & Hc); destruct q; discriminate Hc.
  - pose proof (move_mask _ _ _ _ _ _ _ _ H Hp) as Hm. destruct q; simpl in *; by rewrite ?Hm.
Qed.

Lemma lookup_moved (ps : list pc) i p' sp j q :
  (<[i := p']> ps ++ sp) !! j = Some q → sp = [] ∨ sp = [A_start] →
  (j = i ∧ q = p') ∨ (j ≠ i ∧ ps !! j = Some q) ∨ q = A_start.
Proof.
  intros H Hsp. apply lookup_app_Some in H as [H|[_ H]].
  - apply list_lookup_insert_Some in H as [(-> & <- & _)|[? H]]; auto.
  - right. right. destruct Hsp as [-> | ->]; [done|].
    by apply list_lookup_singleton_Some in H as [_ <-].
Qed.

Lemma cap_step s ps L i p s' p' sp L' :
  inv s ps → balanced s ps L → ps !! i = Some p → sp = [] ∨ sp = [A_start] →
  balanced s' (<[i := p']> ps ++ sp) L' → node_budget capacity s p p' L L' →
  (base.size (p_heap s') ≤ capacity)%nat.
Proof.
  intros I B Hi Hsp B' Hb. pose proof (v_cap _ _ I) as Hc.
  rewrite (heap_size _ _ _ B) in Hc. rewrite (heap_size _ _ _ B').
  assert (Ho : length (omap own (<[i := p']> ps ++ sp)) =
    (length (option_list (own p')) + length (omap own (delete i ps)))%nat).
  { rewrite omap_app, length_app, (omap_moved own _ _ _ _ Hi), length_app.
    destruct Hsp as [-> | ->]; simpl; lia. }
  rewrite Ho. rewrite (omap_at own _ _ _ Hi), length_app in Hc.
  destruct Hb as [Hb|(Hn & Hl & Hlt)]; [simpl in Hb; lia|].
  rewrite (heap_size _ _ _ B), (omap_at own _ _ _ Hi), length_app in Hlt.
  assert (length (option_list (own p')) ≤ 1)%nat by (destruct (own p'); simpl; lia). lia.
Qed.

(** A worker that has exited stays so. *)
Lemma exit_stable (ps : list pc) i p s s' p' sp w :
  ps !! w = Some (W_exit w) → ps !! i = Some p → pmove ps p s s' p' sp →
  (<[i := p']> ps ++ sp) !! w = Some (W_exit w).
Proof.
  intros Hw Hi H. rewrite lookup_app_l by (rewrite length_insert; by eapply lookup_lt_Some).
  rewrite list_lookup_insert_ne; [done|]. intros ->. rewrite Hw in Hi. injection Hi as <-.
  move_inv H.
Qed.

(** Where the destroyer is and what it established. *)
Lemma dest_step s ps L i p s' p' sp :
  inv s ps → balanced s ps L → ps !! i = Some p → pmove ps p s s' p' sp →
  ∃ d, (<[i := p']> ps ++ sp) !! (n + k)%nat = Some d ∧ dest_ok s' (<[i := p']> ps ++ sp) d.
Proof.
  intros I B Hi H. pose proof (move_spawned _ _ _ _ _ _ _ _ _ H) as Hsp.
  destruct (v_dest _ _ I) as (d & Hd & D).
  assert (Hlt : (n + k < length (<[i := p']> ps))%nat)
    by (rewrite length_insert; by eapply lookup_lt_Some).
  pose proof (move_phase _ _ _ _ _ _ _ _ H) as Hph.
  pose proof (total_exact s ps I L B) as Htot.
  pose proof (flight_bound s ps I) as Hfb.
  pose proof (tally_nonneg counted ps counted_nonneg) as Hcn.
  pose proof (tally_ge counted ps i p counted_nonneg Hi) as Hcp.
  pose proof (tally_ge in_call ps i p in_call_nonneg Hi) as Hcall.
  pose proof (tally_ge in_flight ps i p in_flight_nonneg Hi) as Hfl.
  pose proof (in_call_nonneg p) as Hn1. pose proof (in_flight_nonneg p) as Hn2. pose proof (counted_nonneg p) as Hn3.
  rewrite lookup_app_l by done.
  destruct (decide (i = (n + k)%nat)) as [->|Hne].
  - rewrite Hi in Hd. injection Hd as ->. exists p'.
    rewrite list_lookup_insert_eq by (rewrite length_insert in Hlt; done). split; [done|].
    destruct (inv_role s ps I _ d Hi) as [[? _]|[[? _]|[[_ Hr]|[? _]]]]; try lia.
    rewrite Hr in Hph. destruct Hph as (Hg & Hsh & Hfr & Hle & Hic & Hif & Hz0 & H4 & H5 & Ht).
    split.
    + apply Hg, D.
    + apply Hsh, D.
    + apply Hfr, D.
    + intros H1. rewrite (tally_moved in_call _ _ _ _ _ Hi Hsp eq_refl), Hic.
      destruct (decide (phase d = 0%nat)) as [E|E]; [|pose proof (d_calls _ _ _ D ltac:(lia)); lia].
      rewrite <- (v_calls _ _ I), Hz0 by lia. lia.
    + intros H1. rewrite (tally_moved in_flight _ _ _ _ _ Hi Hsp eq_refl), Hif.
      destruct (decide (4 ≤ phase d)%nat) as [E|E]; [pose proof (d_flight _ _ _ D E); lia|].
      specialize (H4 ltac:(lia) H1). rewrite (v_flight _ _ I), u32_small in H4 by lia. lia.
    + intros H1. rewrite Ht. destruct (decide (5 ≤ phase d)%nat) as [E|E]; [by apply D|].
      specialize (H5 ltac:(lia) H1). lia.
    + intros Hw. destruct (move_static _ _ _ _ _ _ _ _ H) as [_ Hst].
      destruct (Hst Hw) as [Hw0 ->]. by apply D.
    + intros w Hw. eapply exit_stable; [|done|done].
      destruct (move_joined _ _ _ _ _ _ _ _ n H) as [Hj|[(j & q & -> & -> & He & Hq)|(j & -> & -> & Hj)]].
      * apply D. lia.
      * simpl in Hw. pose proof (d_bound _ _ _ D) as Hb. simpl in Hb.
        destruct (decide (w = j)) as [->|]; [|apply D; simpl; lia].
        pose proof (d_tids _ _ _ D eq_refl) as Htid.
        assert (Hlk : (tid <$> workers s) !! j = Some j) by (rewrite Htid; by apply lookup_seq).
        rewrite list_lookup_fmap in Hlk. destruct (workers s !! j) as [wk|]; [|done].
        injection Hlk as Hlk. rewrite Hlk in Hq. rewrite Hq. f_equal.
        destruct (inv_role s ps I _ q Hq) as [[_ Hrq]|[[? _]|[[? _]|[? _]]]]; try lia.
        destruct q; try discriminate He; simpl in Hrq; congruence.
      * pose proof (d_bound _ _ _ D) as Hb. simpl in Hb, Hw. apply D. simpl.
        rewrite (v_num _ _ I) in Hj. lia.
    + eapply move_bound; [exact H|apply I|apply D].
  - exists d. rewrite list_lookup_insert_ne by done. split; [done|].
    assert (Hr : role_of p ≠ Destroyer).
    { intros Hr. by destruct (inv_dest_here _ _ _ _ I Hi Hr). }
    assert (Hsame : g_destroying s' = g_destroying s ∧ shutdown s' = shutdown s ∧ p_freed s' = p_freed s)
      by (destruct (role_of p); done).
    destruct Hsame as (Hg & Hsh & Hfr). pose proof (d_destroying _ _ _ D) as Hgd.
    split.
    + rewrite Hg. apply D.
    + rewrite Hsh. apply D.
    + rewrite Hfr. apply D.
    + intros H1. pose proof (d_calls _ _ _ D H1) as Hc0.
      rewrite (tally_moved in_call _ _ _ _ _ Hi Hsp eq_refl).
      rewrite (move_no_call _ _ _ _ _ _ _ _ H); [lia| |lia]. rewrite Hgd. by apply bool_decide_eq_true.
    + intros H1. pose proof (d_calls _ _ _ D ltac:(lia)) as Hc0. pose proof (d_flight _ _ _ D H1) as Hf0.
      rewrite (tally_moved in_flight _ _ _ _ _ Hi Hsp eq_refl).
      destruct (move_no_flight _ _ _ _ _ _ _ _ H) as [-> _]; try lia. rewrite Hgd.
      apply bool_decide_eq_true. lia.
    + intros H1. pose proof (d_calls _ _ _ D ltac:(lia)) as Hc0.
      pose proof (d_flight _ _ _ D ltac:(lia)) as Hf0. pose proof (d_drained _ _ _ D H1) as Ht0.
      destruct (move_no_flight _ _ _ _ _ _ _ _ H) as [_ Ht]; try lia.
      rewrite Hgd. apply bool_decide_eq_true. lia.
    + intros Hw. destruct (move_static _ _ _ _ _ _ _ _ H) as [_ Hst].
      destruct Hst as [_ ->]; [|by apply D]. pose proof (move_role _ _ _ _ _ _ _ _ _ H) as Hro.
      destruct p'; try done; by rewrite <- Hro in Hr.
    + intros w Hw. eapply exit_stable; [by apply D|done|done].
    + apply D.
Qed.

Lemma inv_step c i p s' p' sp :
  owned holds c → sleepers_ok pcode holds c → inv (sh c) (pcs c) →
  threads c !! i = Some (Running p) → pcs c !! i = Some p →
  pmove (pcs c) p (sh c) s' p' sp → inv s' (<[i := p']> (pcs c) ++ sp).
Proof.
  intros Ho Hs I Hth Hi H. set (s := sh c) in *. set (ps := pcs c) in *.
  pose proof (move_spawned _ _ _ _ _ _ _ _ _ H) as Hsp.
  destruct (v_balance _ _ I) as [L B]. pose proof (v_peek _ _ I i p Hi) as Hpk.
  pose proof (v_pcs _ _ I) as Hpcs. rewrite Forall_lookup in Hpcs. pose proof (Hpcs i p Hi) as Hok.
  destruct (balanced_step _ _ _ _ _ _ _ _ _ _ _ B Hi H Hok Hpk) as (L' & B' & Hb).
  { intros ->. by eapply inv_drained. }
  assert (Hmv : pc_ok s' p' ∧ Forall (pc_ok s') sp ∧ peeked s' p').
  { assert ((∃ w, p = W_pop_take w) ∨ ∀ w, p ≠ W_pop_take w) as [[w ->]|Hne]
      by (destruct p; try (by right); left; by eexists).
    - destruct (take_body_ok s ps L B Hpk) as (t & L1 & h1 & q1 & Hr1 & _).
      move_inv H. rewrite Hr1 in Hrun. injection Hrun as <- <- <-. done.
    - destruct (pc_ok_move _ _ _ _ _ _ _ _ _ Hcalls H) as [? ?]; [done|done|].
      split_and!; [done..|]. by eapply move_peek. }
  destruct Hmv as (Hok' & Hsp' & Hpk').
  split.
  - destruct (v_roles _ _ I) as [a Ha]. destruct Hsp as [-> | ->].
    + exists a. rewrite app_nil_r, list_fmap_insert, (move_role _ _ _ _ _ _ _ _ _ H), <- Ha.
      apply list_insert_id. by rewrite list_lookup_fmap, Hi.
    + exists (S a). rewrite fmap_app, list_fmap_insert, (move_role _ _ _ _ _ _ _ _ _ H).
      rewrite list_insert_id by by rewrite list_lookup_fmap, Hi. rewrite Ha. unfold roles.
      rewrite replicate_S_end. by rewrite <- !app_assoc.
  - apply Forall_app. split; [|done]. apply Forall_insert; [|done]. apply Forall_lookup.
    intros j q Hj. eapply pc_ok_stable; [exact H|done|by eapply Hpcs].
  - intros j q Hj. destruct (lookup_moved _ _ _ _ _ _ Hj Hsp) as [[-> ->]|[[Hne Hq]| ->]]; [done| |done].
    by eapply peek_stable.
  - rewrite (tally_moved in_flight _ _ _ _ _ Hi Hsp eq_refl). eapply move_flight; [exact H|apply I].
  - rewrite (tally_moved in_call _ _ _ _ _ Hi Hsp eq_refl), <- (v_calls _ _ I).
    eapply move_calls; exact H.
  - by eapply cap_step.
  - destruct (move_static _ _ _ _ _ _ _ _ H) as [-> _]. apply I.
  - by eapply dest_step.
  - by exists L'.
Qed.

Lemma init_pcs : pcs (init_config n k) = (W_top <$> seq 0 n) ++ replicate k (C_idle RNone) ++ [D_idle].
Proof.
  unfold pcs, init_config. simpl. rewrite !fmap_app, fmap_replicate, <- list_fmap_compose. done.
Qed.

Lemma init_quiet (f : pc → Z) :
  (∀ w, f (W_top w) = 0) → f (C_idle RNone) = 0 → f D_idle = 0 → tally f (pcs (init_config n k)) = 0.
Proof.
  intros Hw Hc Hd. rewrite init_pcs, !tally_app. simpl.
  rewrite (tally_const f 0), (tally_const f 0); [lia| |].
  - by apply Forall_replicate.
  - apply Forall_fmap, Forall_forall. intros w _. apply Hw.
Qed.

Lemma init_nothing (g : pc → option loc) :
  (∀ w, g (W_top w) = None) → g (C_idle RNone) = None → g D_idle = None →
  omap g (pcs (init_config n k)) = [].
Proof.
  intros Hw Hc Hd. rewrite init_pcs, !omap_app. simpl. rewrite Hd.
  assert (∀ l : list pc, Forall (λ p, g p = None) l → omap g l = []) as Hn.
  { induction 1 as [|p l Hp _ IH]; [done|]. simpl. by rewrite Hp. }
  rewrite !Hn; [done| |].
  - by apply Forall_replicate.
  - apply Forall_fmap, Forall_forall. intros w _. apply Hw.
Qed.

Lemma inv_init : inv (init_pool n) (pcs (init_config n k)).
Proof.
  assert (Hpos : pcs (init_config n k) !! (n + k)%nat = Some D_idle).
  { rewrite init_pcs, app_assoc, lookup_app_r; rewrite length_app, length_fmap, length_seq, length_replicate;
      [by rewrite Nat.sub_diag|lia]. }
  assert (Hall : ∀ P : pc → Prop, (∀ w, P (W_top w)) → P (C_idle RNone) → P D_idle →
    Forall P (pcs (init_config n k))).
  { intros P Hw Hc Hd. rewrite init_pcs. repeat apply Forall_app_2; [|by apply Forall_replicate|by constructor].
    apply Forall_fmap, Forall_forall. intros w _. apply Hw. }
  split.
  - exists 0%nat. rewrite init_pcs, !fmap_app, fmap_replicate, <- list_fmap_compose. done.
  - by apply Hall.
  - intros i p Hi. revert i p Hi. apply Forall_lookup. by apply Hall.
  - by rewrite init_quiet.
  - by rewrite init_quiet.
  - simpl. unfold p_heap. simpl. rewrite map_size_empty. lia.
  - done.
  - exists D_idle. split; [done|]. split; simpl; try done; try lia.
    intros _. rewrite <- list_fmap_compose. by apply list_fmap_id.
  - exists Lanes.empty. split.
    + apply pq_zero_repr.
    + rewrite init_nothing by done. unfold p_heap. simpl. by rewrite dom_empty_L, elements_empty.
    + apply map_Forall_empty.
    + by rewrite init_quiet.
    + by rewrite init_nothing.
Qed.

(** Every reachable state satisfies the invariant. *)
Lemma inv_reachable c : rtc pstep (init_config n k) c → inv (sh c) (pcs c).
Proof.
  intros Hr. eapply (reach_ind pcode holds inv); [apply code_disciplined|apply init_initial| | |exact Hr].
  - apply inv_init.
  - intros c0 i p p' s' sp _ Ho Hs I Hth Hi H. by eapply inv_step.
Qed.
End Safety.
