(* ===== verification/PoolAging.v ===== *)
(** * PoolAging: the life of the aging thread

    At most one aging thread is alive; it is the one [aging_tid] names; and when
    destroy has passed the call of thread_pool_disable_aging there is none. *)
From S2P Require Export PoolSafety.
Local Open Scope Z_scope.

(** An aging thread that has not returned. *)
Definition alive (p : pc) : Z :=
  match role_of p, p with Ager, A_exit => 0 | Ager, _ => 1 | _, _ => 0 end.

(** thread_pool_disable_aging after it has cleared the flag. *)
Definition stopping (p : pc) : Z :=
  match p with
  | X_lock _ | X_signal _ | X_unlock _ | X_plock _ | X_pbcast _ | X_punlock _ | X_join _ => 1
  | _ => 0
  end.

(** A thread inside one of the two aging functions, destroy included. *)
Definition aging_busy (p : pc) : Z :=
  aging_call p +
  match p with
  | X_load true | X_store true | X_lock true | X_signal true | X_unlock true | X_plock true
  | X_pbcast true | X_punlock true | X_join true => 1
  | _ => 0
  end.

(** Destroy past line 375. *)
Definition aging_over (p : pc) : bool :=
  match p with
  | D_lock | D_check | D_wait | D_unlock | D_monitor | D_next _ | D_join _ | D_pqlock | D_pqfree
  | D_pqunlock | D_pqkill | D_kill
  | D_free | D_done => true
  | _ => false
  end.

(** What enable knows about the flag between its critical section and the end. *)
Definition enabling (s : thread_pool) (ps : list pc) (p : pc) : Prop :=
  match p with
  | E_set _ _ => aging_enable s = false
  | E_unlock | E_create => aging_enable s = true ∧ tally alive ps = 0
  | _ => aging_over p = true → tally alive ps = 0
  end.

Record aging_inv (s : thread_pool) (ps : list pc) : Prop := {
  a_calls : tally aging_call ps = Z.b2z (g_aging s);
  a_alive : ∀ i p, ps !! i = Some p → alive p = 1 →
    i = aging_tid s ∧ (aging_enable s = true ∨ 1 ≤ tally stopping ps);
  a_enabling : ∀ i p, ps !! i = Some p → enabling s ps p
}.

Lemma alive_nonneg p : 0 ≤ alive p.
Proof. destruct p; unfold alive; simpl; try lia; by destruct k. Qed.
Lemma stopping_nonneg p : 0 ≤ stopping p.
Proof. destruct p; simpl; lia. Qed.
Lemma aging_call_nonneg p : 0 ≤ aging_call p.
Proof. destruct p; simpl; try lia; try (destruct r; lia); by destruct k. Qed.
Lemma aging_call_le p : aging_call p ≤ in_call p.
Proof. destruct p; simpl; try lia; try (destruct r; lia); by destruct k. Qed.
Lemma aging_busy_nonneg p : 0 ≤ aging_busy p.
Proof. pose proof (aging_call_nonneg p). destruct p; unfold aging_busy; simpl in *; try lia; destruct k; lia. Qed.
Lemma stopping_busy p : stopping p ≤ aging_busy p.
Proof. destruct p; unfold aging_busy; simpl; try lia; try (destruct r; lia); by destruct k. Qed.

(** Two threads cannot both count when the tally is at most one. *)
Lemma tally_unique {A} (f : A → Z) ps i j p q :
  (∀ p, 0 ≤ f p) → tally f ps ≤ 1 → ps !! i = Some p → ps !! j = Some q →
  1 ≤ f p → 1 ≤ f q → i = j.
Proof.
  intros Hf Ht Hi Hj Hp Hq. destruct (decide (i = j)) as [|Hne]; [done|].
  exfalso. assert (f p + f q ≤ tally f ps); [|lia]. clear -Hf Hi Hj Hne. revert i j Hi Hj Hne.
  induction ps as [|x ps IH]; intros [|i] [|j]; simpl; try done.
  - intros [= ->] Hj _. pose proof (tally_ge f ps j q Hf Hj). unfold tally in *. lia.
  - intros Hi [= ->] _. pose proof (tally_ge f ps i p Hf Hi). unfold tally in *. lia.
  - intros Hi Hj Hne. specialize (IH i j Hi Hj ltac:(lia)). specialize (Hf x). unfold tally in *. lia.
Qed.

Section AgingMoves.
Context (allowed : api → bool) (capacity : nat).
Abbreviation pcode := (code allowed capacity true).
Abbreviation pmove := (move pcode).

Lemma move_aging_call ps p s s' p' sp :
  pmove ps p s s' p' sp → aging_call p ≤ Z.b2z (g_aging s) →
  Z.b2z (g_aging s') = Z.b2z (g_aging s) - aging_call p + aging_call p'.
Proof.
  intros H Hp. by_cases H; simpl in *; try lia.
  - rewrite Hna. done.
  - rewrite Hna. done.
  - destruct r, (g_aging s); simpl in *; lia.
Qed.

(** How the flag, the thread id and the aging threads change. *)
Lemma move_flag ps p s s' p' sp :
  pmove ps p s s' p' sp →
  match p with
  | E_set _ _ => aging_enable s' = true
  | E_create => aging_enable s' = true → aging_enable s = true
  | X_store _ => aging_enable s' = false
  | _ => aging_enable s' = aging_enable s
  end.
Proof. intros H. by_cases H; done. Qed.

Lemma move_tid ps p s s' p' sp :
  pmove ps p s s' p' sp →
  (sp = [] ∧ aging_tid s' = aging_tid s) ∨
  (p = E_create ∧ sp = [A_start] ∧ aging_tid s' = length ps ∧ aging_enable s' = aging_enable s).
Proof. intros H. by_cases H; first [by left|by right]. Qed.

Lemma move_alive ps p s s' p' sp : pmove ps p s s' p' sp → alive p' ≤ alive p.
Proof. intros H. by_cases H; try done; by destruct k. Qed.

Lemma move_stopping ps p s s' p' sp :
  pmove ps p s s' p' sp →
  match p with
  | X_join _ => ∃ q, ps !! aging_tid s = Some q ∧ pcode q = AExit
  | X_store _ => stopping p' = 1
  | _ => stopping p' = stopping p
  end.
Proof. intros H. by_cases H; try done; by eexists. Qed.

Definition enabled_by (s s' : thread_pool) (p p' : pc) : Prop :=
  match p' with
  | E_set _ _ => aging_enable s' = false
  | E_unlock => aging_enable s' = true ∧ ∃ iv ms, p = E_set iv ms
  | E_create => p = E_unlock
  | _ => aging_over p' = true →
         aging_over p = true ∨ (∃ k, p = X_join k) ∨ (p = X_load true ∧ aging_enable s = false)
  end.

Lemma move_enabling ps p s s' p' sp : pmove ps p s s' p' sp → enabled_by s s' p p'.
Proof.
  intros H. by_cases H; unfold enabled_by; cbn [aging_over];
    first [intros Ha; discriminate Ha|intros _; left; reflexivity|idtac];
    eauto 6.
Qed.
End AgingMoves.

Section AgingInv.
Context (allowed : api → bool) (capacity n k : nat).
Abbreviation pcode := (code allowed capacity true).
Abbreviation pmove := (move pcode).
Abbreviation pstep := (step pcode).
Hypothesis (Hcalls : calls_ok allowed).
Hypothesis (Hcap : Z.of_nat (capacity + n) < 2 ^ 31) (Hk : Z.of_nat k < 2 ^ 32).
Abbreviation pinv := (inv capacity n k).

(** At most one thread is inside the aging functions. *)
Lemma busy_one s ps : pinv s ps → aging_inv s ps → tally aging_busy ps ≤ 1.
Proof.
  intros I A.
  pose (xd p := aging_busy p - aging_call p).
  assert (Hs : tally aging_busy ps = tally aging_call ps + tally xd ps).
  { clear. unfold tally. induction ps as [|p ps IH]; simpl; [done|]. rewrite IH. unfold xd. lia. }
  destruct (decide (tally xd ps = 0)) as [E|E].
  { rewrite Hs, E, (a_calls _ _ A). destruct (g_aging s); simpl; lia. }
  assert (Hx : ∃ i p, ps !! i = Some p ∧ xd p ≠ 0).
  { clear -E. unfold tally in E. induction ps as [|p ps IH]; [done|]. simpl in E.
    destruct (decide (xd p = 0)) as [Hp|Hp]; [|by exists 0%nat, p].
    destruct IH as (i & q & Hi & Hq); [lia|]. by exists (S i), q. }
  destruct Hx as (i & p & Hi & Hp).
  assert (Hr : role_of p = Destroyer ∧ (1 ≤ phase p)%nat)
    by (unfold xd, aging_busy in Hp; destruct p; simpl in *; try lia; destruct k0; simpl in *; try lia; (split; [done|lia])).
  destruct Hr as [Hr Hph]. destruct (inv_dest_here _ _ _ _ _ _ _ I Hi Hr) as [-> D].
  pose proof (d_calls _ _ _ _ D Hph) as H0.
  assert (Hle : tally aging_call ps ≤ 0).
  { rewrite <- H0. clear. unfold tally. induction ps as [|q ps IH]; simpl; [lia|].
    pose proof (aging_call_le q). lia. }
  assert (Hxd : tally xd ps ≤ 1); [|lia].
  etrans; [apply (tally_roles capacity n k s ps I xd (λ r, match r with Destroyer => 1 | _ => 0 end) 0); try done|lia].
  intros q. unfold xd, aging_busy. destruct q; simpl; try lia; destruct k0; simpl; lia.
Qed.

Lemma alive_zero ps : (∀ i p, ps !! i = Some p → alive p ≠ 1) → tally alive ps = 0.
Proof.
  intros H. unfold tally. induction ps as [|p ps IH]; [done|]. simpl. rewrite IH.
  - pose proof (H 0%nat p eq_refl). destruct p; unfold alive in *; simpl in *; try lia;
      destruct k0; simpl in *; lia.
  - intros i q Hq. by apply (H (S i)).
Qed.

(** Nobody is stopping aging while another thread is in the aging functions. *)
Lemma stopping_zero s ps i p :
  pinv s ps → aging_inv s ps → ps !! i = Some p → 1 ≤ aging_busy p → stopping p = 0 →
  tally stopping ps = 0.
Proof.
  intros I A Hi Hb Hs. pose proof (busy_one s ps I A) as H1.
  pose proof (tally_nonneg stopping ps stopping_nonneg).
  destruct (decide (tally stopping ps = 0)) as [|E]; [done|]. exfalso.
  assert (Hx : ∃ j q, ps !! j = Some q ∧ stopping q ≠ 0).
  { clear -E. unfold tally in E. induction ps as [|q ps IH]; [done|]. simpl in E.
    destruct (decide (stopping q = 0)) as [Hp|Hp]; [|by exists 0%nat, q].
    destruct IH as (j & q' & Hj & Hq); [lia|]. by exists (S j), q'. }
  destruct Hx as (j & q & Hj & Hq). pose proof (stopping_busy q). pose proof (stopping_nonneg q).
  assert (i = j) as -> by (eapply (tally_unique aging_busy); try done; [apply aging_busy_nonneg|lia]).
  rewrite Hi in Hj. by injection Hj as ->.
Qed.

Lemma alive_01 p : alive p = 0 ∨ alive p = 1.
Proof. destruct p; unfold alive; simpl; auto; destruct k0; auto. Qed.

Lemma none_alive ps i p : tally alive ps = 0 → ps !! i = Some p → alive p = 0.
Proof. intros H0 Hi. by apply (tally_zero alive ps alive_nonneg H0 i). Qed.

(** No aging thread lives when the flag is off and nobody is stopping one. *)
Lemma all_stopped s ps :
  aging_inv s ps → aging_enable s = false → tally stopping ps = 0 → tally alive ps = 0.
Proof.
  intros A He Hs. apply alive_zero. intros i p Hi Hp.
  destruct (a_alive _ _ A i p Hi Hp) as [_ [?|?]]; [congruence|lia].
Qed.

(** [pthread_join] on the aging thread returns once it is gone. *)
Lemma joined_stopped s ps q :
  aging_inv s ps → ps !! aging_tid s = Some q → pcode q = AExit → tally alive ps = 0.
Proof.
  intros A Hq He. apply alive_zero. intros i p Hi Hp.
  destruct (a_alive _ _ A i p Hi Hp) as [-> _]. rewrite Hq in Hi. injection Hi as ->.
  destruct p; discriminate.
Qed.

Lemma lookup_moved_at (ps : list pc) i p p' sp j q :
  (<[i := p']> ps ++ sp) !! j = Some q → ps !! i = Some p → sp = [] ∨ sp = [A_start] →
  (j = i ∧ q = p') ∨ (j ≠ i ∧ ps !! j = Some q) ∨ (j = length ps ∧ sp = [A_start] ∧ q = A_start).
Proof.
  intros H Hi Hsp. apply lookup_app_Some in H as [H|[Hl H]].
  - apply list_lookup_insert_Some in H as [(-> & <- & _)|[? H]]; auto.
  - right. right. rewrite length_insert in Hl, H. destruct Hsp as [-> | ->]; [done|].
    apply list_lookup_singleton_Some in H as [? <-]. split_and!; try done. lia.
Qed.

Section Step.
Context (s s' : thread_pool) (ps sp : list pc) (i : nat) (p p' : pc).
Hypothesis (I : pinv s ps) (A : aging_inv s ps).
Hypothesis (Hi : ps !! i = Some p) (H : pmove ps p s s' p' sp).

Lemma spawn_only : sp = [] ∨ sp = [A_start].
Proof. eapply move_spawned, H. Qed.

Lemma alive_not_spawned : sp = [] → tally alive ps = 0 → tally alive (<[i := p']> ps ++ sp) = 0.
Proof.
  intros -> H0. rewrite app_nil_r, (tally_insert alive ps i p p' Hi), H0.
  pose proof (none_alive ps i p H0 Hi). pose proof (move_alive _ _ _ _ _ _ _ _ H).
  pose proof (alive_nonneg p'). lia.
Qed.

(** Another thread inside the aging functions excludes that this one changes
    the flag or starts a thread. *)
Lemma flag_kept j q :
  ps !! j = Some q → j ≠ i → 1 ≤ aging_busy q → sp = [] ∧ aging_enable s' = aging_enable s.
Proof.
  intros Hj Hne Hq.
  assert (Hb : aging_busy p < 1).
  { destruct (decide (1 ≤ aging_busy p)) as [Hp|]; [|lia]. exfalso. apply Hne.
    eapply (tally_unique aging_busy ps); [apply aging_busy_nonneg|by eapply busy_one|done..]. }
  split.
  - destruct (move_tid _ _ _ _ _ _ _ _ H) as [[? _]|(E & _)]; [done|].
    rewrite E in Hb. unfold aging_busy in Hb. simpl in Hb. lia.
  - pose proof (move_flag _ _ _ _ _ _ _ _ H) as Hf.
    destruct p; try exact Hf; unfold aging_busy in Hb; simpl in Hb; try lia; destruct k0; lia.
Qed.

Lemma alive_step j q :
  (<[i := p']> ps ++ sp) !! j = Some q → alive q = 1 →
  j = aging_tid s' ∧ (aging_enable s' = true ∨ 1 ≤ tally stopping (<[i := p']> ps ++ sp)).
Proof.
  intros Hj Hq. pose proof (move_alive _ _ _ _ _ _ _ _ H) as Hal.
  assert (Hold : j ≠ length ps ∨ sp = [] → ∃ q0, ps !! j = Some q0 ∧ alive q0 = 1).
  { intros Hlt. destruct (lookup_moved_at _ _ _ _ _ _ _ Hj Hi spawn_only) as [[-> ->]|[[_ ?]|(-> & -> & _)]].
    - exists p. split; [done|]. destruct (alive_01 p); lia.
    - by exists q.
    - by destruct Hlt. }
  rewrite (tally_moved stopping _ _ _ _ _ Hi spawn_only eq_refl).
  pose proof (move_flag _ _ _ _ _ _ _ _ H) as Hfl. pose proof (move_stopping _ _ _ _ _ _ _ _ H) as Hst.
  destruct (move_tid _ _ _ _ _ _ _ _ H) as [[Hsp Htid]|(Hp & Hsp & Htid & Hen)].
  - destruct (Hold (or_intror Hsp)) as (q0 & Hq0 & Hal0).
    destruct (a_alive _ _ A j q0 Hq0 Hal0) as [-> Hor]. split; [done|].
    assert (Hcase : tally alive ps = 0 → False).
    { intros H0. rewrite (none_alive ps _ _ H0 Hq0) in Hal0. done. }
    pose proof (tally_ge stopping ps i p stopping_nonneg Hi).
    destruct p; try (rewrite Hfl, Hst; destruct Hor; [by left|right; lia]).
    + destruct Hcase. apply (a_enabling _ _ A i _ Hi).
    + right. simpl in *. lia.
    + destruct Hst as (q1 & Hq1 & He). destruct Hcase. eapply joined_stopped; [exact A|exact Hq1|exact He].
  - subst p. destruct (a_enabling _ _ A i _ Hi) as [He H0].
    split; [|left; by rewrite Hen]. rewrite Htid.
    destruct (decide (j = length ps)) as [|Hne]; [done|].
    destruct (Hold (or_introl Hne)) as (q0 & Hq0 & Hal0).
    rewrite (none_alive ps _ _ H0 Hq0) in Hal0. done.
Qed.

Lemma enabling_here : enabling s' (<[i := p']> ps ++ sp) p'.
Proof.
  pose proof (move_enabling _ _ _ _ _ _ _ _ H) as He.
  assert (Hns : p ≠ E_create → sp = [])
    by (intros Hne; destruct (move_tid _ _ _ _ _ _ _ _ H) as [[? _]|(? & _)]; done).
  assert (Hover : aging_over p' = true → aging_over p = true ∨ (∃ k, p = X_join k) ∨
                    (p = X_load true ∧ aging_enable s = false) →
                  tally alive (<[i := p']> ps ++ sp) = 0).
  { intros _ [Ho|[[b Hp]|[Hp Hen]]].
    - apply alive_not_spawned; [apply Hns; by intros ->|].
      pose proof (a_enabling _ _ A i p Hi) as Hp. destruct p; try discriminate Ho; by apply Hp.
    - apply alive_not_spawned; [apply Hns; by rewrite Hp|].
      pose proof (move_stopping _ _ _ _ _ _ _ _ H) as Hst. rewrite Hp in Hst.
      destruct Hst as (q & Hq & Hx). eapply joined_stopped; [exact A|exact Hq|exact Hx].
    - apply alive_not_spawned; [apply Hns; by rewrite Hp|].
      apply (all_stopped s); [done|done|]. eapply (stopping_zero s ps i p); try done; rewrite Hp; done. }
  pose proof alive_not_spawned as Hans. pose proof (move_flag _ _ _ _ _ _ _ _ H) as Hfl.
  destruct p'; simpl; unfold enabled_by in He; simpl in He; try (intros Hx; by auto); try done.
  - destruct He as [He (iv & ms & Hp)]. split; [done|].
    apply Hans; [apply Hns; by rewrite Hp|].
    apply (all_stopped s); [done| |].
    + pose proof (a_enabling _ _ A i p Hi) as Hx. by rewrite Hp in Hx.
    + eapply (stopping_zero s ps i p); try done; rewrite Hp; done.
  - pose proof (a_enabling _ _ A i p Hi) as Hx.
    rewrite He in Hx, Hfl. destruct Hx as [Hx H0]. split; [by rewrite Hfl|].
    apply Hans; [apply Hns; by rewrite He|done].
Qed.

Lemma enabling_other j q : ps !! j = Some q → j ≠ i → enabling s' (<[i := p']> ps ++ sp) q.
Proof.
  intros Hj Hne. pose proof (a_enabling _ _ A j q Hj) as Hq.
  assert (Hover : aging_over q = true → sp = []).
  { intros Ho. destruct (move_tid _ _ _ _ _ _ _ _ H) as [[? _]|(Hp & _)]; [done|]. exfalso.
    assert (Hr : role_of q = Destroyer ∧ (1 ≤ phase q)%nat)
      by (destruct q; try discriminate Ho; simpl; (split; [done|lia])).
    destruct (inv_dest_here _ _ _ _ _ _ _ I Hj (proj1 Hr)) as [_ D].
    pose proof (d_calls _ _ _ _ D (proj2 Hr)) as H0.
    pose proof (tally_ge in_call ps i p in_call_nonneg Hi) as Hc.
    rewrite Hp, H0 in Hc. simpl in Hc. lia. }
  destruct q; simpl in *; try (intros Ho; apply alive_not_spawned; by auto).
  - destruct (flag_kept j _ Hj Hne) as [_ ->]; [done|]. done.
  - destruct (flag_kept j _ Hj Hne) as [Hsp ->]; [done|]. destruct Hq. split; [done|].
    by apply alive_not_spawned.
  - destruct (flag_kept j _ Hj Hne) as [Hsp ->]; [done|]. destruct Hq. split; [done|].
    by apply alive_not_spawned.
Qed.

Lemma aging_step : aging_inv s' (<[i := p']> ps ++ sp).
Proof.
  split.
  - rewrite (tally_moved aging_call _ _ _ _ _ Hi spawn_only eq_refl), (a_calls _ _ A).
    symmetry. eapply move_aging_call; [exact H|]. rewrite <- (a_calls _ _ A).
    apply (tally_ge _ _ i); [apply aging_call_nonneg|done].
  - apply alive_step.
  - intros j q Hj.
    destruct (lookup_moved_at _ _ _ _ _ _ _ Hj Hi spawn_only) as [[-> ->]|[[Hne Hq]|(_ & _ & ->)]].
    + apply enabling_here.
    + by eapply enabling_other.
    + by intros.
Qed.
End Step.

Lemma aging_reachable c : rtc pstep (init_config n k) c → aging_inv (sh c) (pcs c).
Proof.
  intros Hr. eapply (reach_ind pcode holds aging_inv);
    [apply code_disciplined|apply init_initial| | |exact Hr].
  - assert (Hall : ∀ i p, pcs (init_config n k) !! i = Some p →
      (∃ w, p = W_top w) ∨ p = C_idle RNone ∨ p = D_idle).
    { apply Forall_lookup. rewrite init_pcs. repeat apply Forall_app_2.
      - apply Forall_fmap, Forall_forall. intros w _. left. by eexists.
      - apply Forall_replicate. auto.
      - constructor; [auto|constructor]. }
    split; [by rewrite (init_quiet capacity)| |]; intros i p Hi;
      destruct (Hall i p Hi) as [[w ->]|[-> | ->]]; done.
  - intros c0 i p p' s' sp Hr0 _ _ A _ Hi H. eapply aging_step; try done. by eapply inv_reachable.
Qed.
End AgingInv.
