(* ===== verification/PoolTheorems.v ===== *)
(** * PoolTheorems: what the invariants say about the thread pool

    The statements are about every state that [n] workers, [k] client threads and
    the thread that calls thread_pool_destroy can reach in any interleaving. *)
From S2P Require Export PoolAging.
Local Open Scope Z_scope.

(** Which steps can fault. *)
Lemma branch_crash f z s e b yes no :
  branch b yes no = AStep f → f z s = Crash e → p_freed s = false → False.
Proof. intros [= <-] Hx Hf. by rewrite Hf in Hx. Qed.

Lemma atom_crash f z s e g : atom g = AStep f → f z s = Crash e → p_freed s = false → False.
Proof. intros [= <-] Hx Hf. rewrite Hf in Hx. by destruct (g s). Qed.

Lemma queue_crash {A} f z s e (m : QM A) k :
  queue_step m k = AStep f → f z s = Crash e → p_freed s = false → m (p_heap s, pq s) = Fault e.
Proof.
  intros [= <-] Hx Hf. rewrite Hf in Hx. destruct (m _) as [[a [h q]]| |]; try done.
  - by destruct (k _ _).
  - by injection Hx as ->.
Qed.

Section Reachable.
Context (allowed : api → bool) (capacity n k : nat).
Abbreviation pcode := (code allowed capacity true).
Abbreviation pmove := (move pcode).
Abbreviation pstep := (step pcode).

(** The states of a pool whose clients follow the contract, within the limits
    of its counters: fewer than 2^31 task nodes and workers (the width of
    [total_task_in_system]) and fewer than 2^32 client threads (the width of
    [in_flight_submits]). *)
Definition pool_state (c : pconfig) : Prop :=
  (calls_ok allowed ∧ Z.of_nat (capacity + n) < 2 ^ 31 ∧ Z.of_nat k < 2 ^ 32) ∧
  rtc pstep (init_config n k) c.

Lemma pool_state_inv c :
  pool_state c →
  inv capacity n k (sh c) (pcs c) ∧ aging_inv (sh c) (pcs c) ∧
  owned holds c ∧ sleepers_ok pcode holds c.
Proof.
  intros [(Hc & Hcap & Hk) Hr].
  pose proof (reachable_owned pcode holds _ c (code_disciplined allowed capacity true)
    (init_initial n k) Hr) as [Ho Hs].
  split_and!; [by eapply inv_reachable|by eapply aging_reachable|done|done].
Qed.

(** Where a thread can be once the pool is freed. *)
Definition at_rest_pc (p : pc) : bool :=
  match p with C_idle _ | W_exit _ | A_exit | D_done => true | _ => false end.

(** From the joins on, every thread but the destroyer is at rest. *)
Lemma late_quiet s ps d i p :
  inv capacity n k s ps → aging_inv s ps → ps !! (n + k)%nat = Some d → (6 ≤ phase d)%nat →
  ps !! i = Some p → i ≠ (n + k)%nat → at_rest_pc p = true.
Proof.
  intros I A Hd Hph Hi Hne. destruct (v_dest _ _ _ _ _ I) as (d' & Hd' & D).
  rewrite Hd in Hd'. injection Hd' as <-.
  pose proof (tally_zero in_call ps in_call_nonneg (d_calls _ _ _ _ D ltac:(lia)) i p Hi) as Hcall.
  pose proof (tally_zero in_flight ps in_flight_nonneg (d_flight _ _ _ _ D ltac:(lia)) i p Hi) as Hfl.
  pose proof (a_enabling _ _ A _ d Hd) as He.
  assert (Hover : tally alive ps = 0 ∧ joined n d = n).
  { destruct d; simpl in Hph; try lia; try (destruct k0; lia); (split; [by apply He|done]). }
  destruct Hover as (Hov & Hj).
  destruct (inv_role _ _ _ _ _ I i p Hi) as [[Hlt Hr]|[[_ Hr]|[[Heq _]|[_ Hr]]]]; [| |done|].
  - rewrite (d_joined _ _ _ _ D i) in Hi by lia. by injection Hi as <-.
  - destruct p; simpl in *; try done; try lia; destruct k0; try done; lia.
  - pose proof (tally_zero alive ps alive_nonneg Hov i p Hi) as Ha.
    unfold alive in Ha. rewrite Hr in Ha. by destruct p.
Qed.

Lemma freed_done s ps :
  inv capacity n k s ps → p_freed s = true → ps !! (n + k)%nat = Some D_done.
Proof.
  intros I Hf. destruct (v_dest _ _ _ _ _ I) as (d & Hd & D).
  rewrite (d_freed _ _ _ _ D) in Hf. apply bool_decide_eq_true in Hf. rewrite Hd.
  destruct d; simpl in Hf; try lia; try (destruct k0; lia). done.
Qed.

Lemma freed_quiet s ps i p :
  inv capacity n k s ps → aging_inv s ps → p_freed s = true → ps !! i = Some p → at_rest_pc p = true.
Proof.
  intros I A Hf Hi. pose proof (freed_done s ps I Hf) as Hd.
  destruct (decide (i = (n + k)%nat)) as [->|Hne]; [rewrite Hi in Hd; by injection Hd as ->|].
  eapply late_quiet; [done|done|exact Hd|simpl; lia|done|done].
Qed.

(** A thread whose control point is at rest is not asleep. *)
Lemma rest_running c i st :
  sleepers_ok pcode holds c → threads c !! i = Some st → at_rest_pc (pc_of st) = true →
  st = Running (pc_of st).
Proof.
  intros Hs Hi Hr. specialize (Hs i st Hi). destruct st as [p|cv m p|m p]; [done|exfalso..]; simpl in Hr.
  - destruct Hs as (_ & q & Hw). destruct q; try discriminate Hw; injection Hw as _ _ <-; done.
  - destruct Hs as (_ & q & cv & Hw). destruct q; try discriminate Hw; injection Hw as _ _ <-; done.
Qed.

Lemma atomic_safe c i p f z e :
  pool_state c → threads c !! i = Some (Running p) → pcode p = AStep f →
  f z (sh c) ≠ Crash e.
Proof.
  intros Hc Hth Hp Hx. destruct (pool_state_inv c Hc) as (I & A & Ho & Hs).
  pose proof (pcs_lookup _ _ _ Hth) as Hi. simpl in Hi.
  destruct (p_freed (sh c)) eqn:Hf.
  { pose proof (freed_quiet _ _ _ _ I A Hf Hi) as Hq.
    destruct p; try discriminate Hq; try discriminate Hp.
    injection Hp as <-. destruct z as [|[[] ? ?| | | | |iv ms| |]| |]; simpl in Hx; try done;
      repeat case_match; simplify_eq. }
  destruct (v_balance _ _ _ _ _ I) as [L B]. pose proof (v_peek _ _ _ _ _ I i p Hi) as Hpk.
  pose proof (v_pcs _ _ _ _ _ I) as Hok. rewrite Forall_lookup in Hok. specialize (Hok i p Hi).
  destruct p; unfold_code Hp; try discriminate Hp;
    try (by eapply branch_crash; [exact Hp|exact Hx|exact Hf]);
    try (by eapply atom_crash; [exact Hp|exact Hx|exact Hf]);
    try (apply (queue_crash _ _ _ _ _ _ Hp Hx) in Hf as Hq); simpl in Hpk, Hok.
  - destruct (take_body_ok _ _ _ B Hpk) as (t & L' & h' & q' & Hr & _). by rewrite Hr in Hq.
  - destruct (own_node _ _ _ _ _ B Hi t eq_refl) as (task & Ht & _).
    by rewrite (load_task_ok _ _ _ _ Ht) in Hq.
  - destruct (own_node _ _ _ _ _ B Hi t eq_refl) as (task & Ht & _).
    by rewrite (free_task_ok _ _ _ _ Ht) in Hq.
  - injection Hp as <-. rewrite Hf in Hx.
    pose proof (total_exact _ _ _ (proj1 (proj2 (proj1 Hc))) _ _ I L B) as Ht.
    pose proof (outstanding_bound _ _ _ _ _ I L B) as Hb. destruct Hc as [(_ & Hcap & _) _].
    pose proof (tally_ge counted _ i _ counted_nonneg Hi) as Hge. simpl in Hge.
    destruct (is_i32 _) eqn:E; [done|]. unfold is_i32 in E. lia.
  - injection Hp as <-. destruct z as [|call| |]; try done. destruct (allowed call); [|done].
    destruct call as [[]| | | | | | |]; simpl in Hx; repeat case_match; done.
  - by injection Hp as <-.
  - injection Hp as <-. by rewrite Hf in Hx.
  - injection Hp as <-. rewrite Hf in Hx. destruct z as [| |r|]; try done.
    destruct (malloc_admits _ _ _); [|done]. destruct r; done.
  - injection Hp as <-. rewrite Hf in Hx. destruct (own_node _ _ _ _ _ B Hi t eq_refl) as (task & Ht & _).
    rewrite Ht in Hx. destruct (aging_enable _), z; try done. by destruct (ts_okb _).
  - destruct (insert_body_ok _ _ _ _ _ _ B Hi) as (task & L' & h' & q' & Hr & _). by rewrite Hr in Hq.
  - destruct (own_node _ _ _ _ _ B Hi t eq_refl) as (task & Ht & _).
    by rewrite (free_task_ok _ _ _ _ Ht) in Hq.
  - injection Hp as <-. destruct z as [| | |now]; try done.
    destruct (ts_okb now) eqn:Hn; [|done]. apply ts_okb_ok in Hn. destruct Hok as [Hiv _].
    destruct (timespec_add_ms_ok now iv Hn Hiv) as (ts & Hts & _). by rewrite Hts in Hx.
  - injection Hp as <-. destruct z as [| | |now]; try done. by destruct (ts_okb now).
  - destruct Hok as (_ & Hms & Hnow).
    assert (Ht : times_ok (p_heap (sh c))) by (intros x t Hxt; by apply (b_nodes _ _ _ B x)).
    destruct up.
    + destruct (promote_refines _ _ _ now ms 1 2 (b_repr _ _ _ B)) as (h' & q' & Hr & _); try done; try lia.
      by pose proof (eq_trans (eq_sym Hr) Hq).
    + destruct (promote_refines _ _ _ now ms 0 1 (b_repr _ _ _ B)) as (h' & q' & Hr & _); try done; try lia.
      by pose proof (eq_trans (eq_sym Hr) Hq).
  - injection Hp as <-. destruct z as [|[]| |]; try done. by destruct (_ && _).
  - destruct (destroy_body_ok _ _ _ (b_repr _ _ _ B)) as (h' & q' & Hr & _). by rewrite Hr in Hq.
Qed.

(** The control points that destroy the mutexes and condition variables of the
    pool and free it, and the one after them. *)
Definition dismantles (p : pc) : bool :=
  match p with D_pqkill | D_kill | D_free | D_done => true | _ => false end.

(** Thread [i] with status [st] is about to do something undefined: an atomic
    step that faults; a call of the pthread library, or a sleep, on a freed pool;
    locking a mutex it owns, or unlocking or waiting with one it does not own. *)
Definition undefined (c : pconfig) (i : nat) (st : status pc mutex_id cond_id) : Prop :=
  match st with
  | Running p =>
      match pcode p with
      | AStep f => ∃ z e, f z (sh c) = Crash e
      | ALock m _ => p_freed (sh c) = true ∨ owner c m = Some i
      | AUnlock m _ | AWait _ m _ => p_freed (sh c) = true ∨ owner c m ≠ Some i
      | ASignal _ _ | ABroadcast _ _ | AJoin _ _ | ASpawn _ _ _ => p_freed (sh c) = true
      | AExit => False
      end
  | Waiting _ _ _ | Relocking _ _ => p_freed (sh c) = true
  end.

Lemma defined c i st : pool_state c → threads c !! i = Some st → ¬ undefined c i st.
Proof.
  intros Hc Hi. destruct (pool_state_inv c Hc) as (I & A & Ho & Hs).
  assert (Hfree : p_freed (sh c) = true → at_rest_pc (pc_of st) = true ∧ st = Running (pc_of st)).
  { intros Hf. pose proof (freed_quiet _ _ _ _ I A Hf (pcs_lookup _ _ _ Hi)) as Hq.
    split; [done|by eapply rest_running]. }
  destruct st as [p|cv m p|m p]; simpl in Hfree; simpl; try (by intros [_ Hf]%Hfree).
  pose proof (code_disciplined allowed capacity true p) as Hd. unfold disciplined_at in Hd.
  assert (Hown : ∀ m, owner c m = Some i ↔ holds p m = true)
    by (intros m; by rewrite (Ho m i), (hold_at_lookup _ _ _ _ _ Hi)).
  destruct (pcode p) as [m q|m q|cv m q|cv q|cv q|tid q|e cr fl|f|] eqn:Hp.
  all: try (intros (z & e0 & Hx); exact (atomic_safe c i p f z e0 Hc Hi Hp Hx)).
  all: try (by intros []).
  all: try (intros Hf; destruct (Hfree Hf) as [Hq _]; destruct p; try discriminate Hq; discriminate Hp).
  all: intros [Hf|Hno]; [destruct (Hfree Hf) as [Hq _]; destruct p; try discriminate Hq; discriminate Hp|].
  all: rewrite Hown in Hno; destruct Hd as [Hm _]; congruence.
Qed.

Lemma dismantled c i d :
  pool_state c → threads c !! i = Some (Running d) → dismantles d = true →
  (∀ m, owner c m = None) ∧
  ∀ j st, threads c !! j = Some st → j ≠ i → ∃ q, st = Running q ∧ at_rest_pc q = true.
Proof.
  intros Hc Hi Hd. destruct (pool_state_inv c Hc) as (I & A & Ho & Hs).
  assert (Hdest : i = (n + k)%nat).
  { apply pcs_lookup in Hi. destruct (inv_role _ _ _ _ _ I _ _ Hi) as [[_ H]|[[_ H]|[[H _]|[_ H]]]];
      [destruct d; done..|done|by destruct d]. }
  subst i. pose proof (pcs_lookup _ _ _ Hi) as Hpi.
  assert (Hrest : ∀ j st, threads c !! j = Some st → j ≠ (n + k)%nat →
    ∃ q, st = Running q ∧ at_rest_pc q = true).
  { intros j st Hj Hne. exists (pc_of st).
    assert (Hq : at_rest_pc (pc_of st) = true).
    { eapply late_quiet; [exact I|exact A|exact Hpi| |exact (pcs_lookup _ _ _ Hj)|done].
      destruct d; try discriminate Hd; simpl; lia. }
    split; [by eapply rest_running|done]. }
  split; [|done]. intros m. destruct (owner c m) as [j|] eqn:Hm; [exfalso|done].
  apply Ho in Hm. unfold hold_at in Hm. destruct (threads c !! j) as [st|] eqn:Hj; [|done].
  destruct (decide (j = (n + k)%nat)) as [->|Hne].
  - rewrite Hi in Hj. injection Hj as <-. simpl in Hm. by destruct d, m.
  - destruct (Hrest j st Hj Hne) as (q & -> & Hq). simpl in Hm. by destruct q, m.
Qed.


(** C1: Every accepted job is in exactly one place: already run, popped by a worker
    that has not run it yet, or in the queue. *)
Theorem pool_exactly_once c :
  pool_state c →
  ∃ L, pq_repr (p_heap (sh c)) (pq (sh c)) L ∧
    g_accepted (sh c) ≡ₚ g_executed (sh c) ++ jobs (p_heap (sh c)) (omap taken (pcs c))
                           ++ jobs (p_heap (sh c)) (Lanes.members L).
Proof.
  intros Hc. destruct (pool_state_inv c Hc) as (I & _). destruct (v_balance _ _ _ _ _ I) as [L B].
  exists L. split; apply B.
Qed.

(** C13: The two counters of the pool are exact and do not wrap. *)
Theorem pool_counters_exact c :
  pool_state c →
  ∃ L, pq_repr (p_heap (sh c)) (pq (sh c)) L ∧
    total_task_in_system (sh c) = Z.of_nat (length (Lanes.members L)) + tally counted (pcs c) ∧
    0 ≤ total_task_in_system (sh c) < 2 ^ 31 ∧
    in_flight_submits (sh c) = tally in_flight (pcs c).
Proof.
  intros Hc. destruct (pool_state_inv c Hc) as (I & _). destruct Hc as [(_ & Hcap & Hk) _].
  destruct (v_balance _ _ _ _ _ I) as [L B]. exists L. split; [apply B|].
  pose proof (outstanding_bound _ _ _ _ _ I L B). pose proof (total_exact _ _ _ Hcap _ _ I L B).
  split_and!; try lia. rewrite (v_flight _ _ _ _ _ I). pose proof (flight_bound _ _ _ _ _ I).
  apply u32_small. lia.
Qed.

(** C14: Every allocated task node has exactly one owner: the queue, the submitter
    that created it, or the worker that popped it. *)
Theorem pool_no_leak c :
  pool_state c →
  ∃ L, pq_repr (p_heap (sh c)) (pq (sh c)) L ∧
    omap own (pcs c) ++ Lanes.members L ≡ₚ elements (dom (p_heap (sh c))).
Proof.
  intros Hc. destruct (pool_state_inv c Hc) as (I & _). destruct (v_balance _ _ _ _ _ I) as [L B].
  exists L. split; apply B.
Qed.

Lemma drained_done s ps L :
  Z.of_nat (capacity + n) < 2 ^ 31 →
  inv capacity n k s ps → balanced s ps L → total_task_in_system s ≤ 0 →
  Lanes.members L = [] ∧ omap taken ps = [] ∧ g_accepted s ≡ₚ g_executed s.
Proof.
  intros Hcap I B Ht. rewrite (total_exact _ _ _ Hcap _ _ I L B) in Ht.
  pose proof (tally_nonneg counted ps counted_nonneg) as Hn.
  assert (Hm : Lanes.members L = []) by (apply length_zero_iff_nil; lia).
  assert (Htk : omap taken ps = []).
  { assert (H0 : tally counted ps = 0) by lia. apply elem_of_nil_inv. intros x Hx.
    apply list_elem_of_omap in Hx as (p & Hp & Hx). apply list_elem_of_lookup in Hp as [i Hi].
    pose proof (tally_zero counted ps counted_nonneg H0 i p Hi). by destruct p. }
  split_and!; try done. rewrite (b_jobs _ _ _ B), Hm, Htk. unfold jobs. simpl.
  by rewrite app_nil_r.
Qed.

(** The control points behind the two drain loops. *)
Definition past_drain (p : pc) : bool := match p with T_unlock | D_unlock => true | _ => false end.

Lemma move_past_drain ps p s s' p' sp :
  pmove ps p s s' p' sp → past_drain p' = true → total_task_in_system s ≤ 0.
Proof.
  intros H Hp'. destruct p; move_inv H; try discriminate Hp';
    try (by repeat case_match); try (by destruct p');
    by match type of Hp' with
    | past_drain (if ?b then _ else _) = true => destruct b eqn:Hb; [discriminate Hp'|lia]
    end.
Qed.

Lemma wait_not_past_drain cv m q p : pcode q = AWait cv m p → past_drain p = false.
Proof. intros Hw. destruct q; try discriminate Hw; by injection Hw as _ _ <-. Qed.

(** C12: When thread_pool_wait (or destroy) leaves its waiting loop, in whatever way it
    gets behind it, every job accepted so far has been run: the queue is empty and
    no worker holds a task. *)
Theorem pool_wait_barrier c c' i p :
  pool_state c → pstep c c' → past_drain p = true →
  threads c !! i ≠ Some (Running p) → threads c' !! i = Some (Running p) →
  g_accepted (sh c) ≡ₚ g_executed (sh c) ∧ size (pq (sh c)) = 0 ∧ omap taken (pcs c) = [].
Proof.
  intros Hc Hs Hp Hn Hi'. destruct (pool_state_inv c Hc) as (I & _ & _ & Hsl).
  destruct Hc as [(_ & Hcap & _) _]. destruct (v_balance _ _ _ _ _ I) as [L B].
  assert (Hawake : ∀ st, threads c !! i = Some st → pc_of st ≠ p).
  { intros st Hi <-. specialize (Hsl i st Hi). destruct st as [q|cv m q|m q]; [by apply Hn|..].
    - destruct Hsl as (_ & q' & Hw). apply wait_not_past_drain in Hw. simpl in Hp. congruence.
    - destruct Hsl as (_ & q' & cv & Hw). apply wait_not_past_drain in Hw. simpl in Hp. congruence. }
  assert (Ht : total_task_in_system (sh c) ≤ 0).
  { apply pcs_lookup in Hi' as Hpi. simpl in Hpi.
    assert (Hold : pcs c !! i ≠ Some p).
    { unfold pcs. rewrite list_lookup_fmap. intros [st [Hst Hi]]%fmap_Some. by apply (Hawake st). }
    destruct (step_pcs _ c c' Hs) as [[_ E]|(j & q & q' & sp & Hj & Hm & E)]; rewrite E in Hpi; [done|].
    apply pcs_lookup in Hj. simpl in Hj.
    destruct (lookup_moved _ _ _ _ _ _ Hpi (move_spawned _ _ _ _ _ _ _ _ _ Hm)) as [[-> <-]|[[_ ?]|Hsp]];
      [by eapply move_past_drain|done|by subst p]. }
  destruct (drained_done _ _ L Hcap I B Ht) as (Hm & Htk & Hj). split_and!; try done.
  by rewrite (r_size _ _ _ (b_repr _ _ _ B)), Hm.
Qed.

(** C11: Destroy frees the pool only when every accepted job has been run, every task
    node is freed, all workers and aging threads have returned and no client is
    inside the API. *)
Theorem pool_destroy_complete c :
  pool_state c → p_freed (sh c) = true →
  g_accepted (sh c) ≡ₚ g_executed (sh c) ∧ p_heap (sh c) = ∅ ∧
  ∀ i st, threads c !! i = Some st → ∃ p, st = Running p ∧ at_rest_pc p = true.
Proof.
  intros Hc Hf. destruct (pool_state_inv c Hc) as (I & A & _ & Hsl).
  destruct Hc as [(_ & Hcap & _) _]. destruct (v_balance _ _ _ _ _ I) as [L B].
  destruct (v_dest _ _ _ _ _ I) as (d & Hd & D).
  assert (Hph : (7 ≤ phase d)%nat).
  { rewrite (d_freed _ _ _ _ D) in Hf. by apply bool_decide_eq_true in Hf. }
  pose proof (d_drained _ _ _ _ D ltac:(lia)) as Ht.
  destruct (drained_done _ _ L Hcap I B ltac:(lia)) as (Hm & _ & Hj).
  split_and!; [done| |].
  - apply map_size_empty_inv. rewrite (heap_size _ _ _ B), Hm, Nat.add_0_r.
    apply length_zero_iff_nil, elem_of_nil_inv. intros x Hx.
    apply list_elem_of_omap in Hx as (p & Hp & Hx). apply list_elem_of_lookup in Hp as [i Hi].
    pose proof (freed_quiet _ _ _ _ I A Hf Hi). by destruct p.
  - intros i st Hi. pose proof (freed_quiet _ _ _ _ I A Hf (pcs_lookup _ _ _ Hi)) as Hq.
    exists (pc_of st). split; [by eapply rest_running|done].
Qed.
End Reachable.

(** C15: Two threads are never inside critical sections of the same mutex, whatever the
    clients do; the queue's fields are only accessed by the owner of its mutex. *)
Theorem pool_mutual_exclusion allowed capacity contract n k c i j p q m :
  rtc (step (code allowed capacity contract)) (init_config n k) c →
  threads c !! i = Some (Running p) → threads c !! j = Some (Running q) →
  holds p m = true → holds q m = true → i = j.
Proof.
  intros Hr Hi Hj Hp Hq.
  destruct (reachable_owned _ holds _ c (code_disciplined allowed capacity contract)
    (init_initial n k) Hr) as [Ho _].
  eapply (owned_exclusive holds c m); [done| |]; unfold hold_at; by rewrite ?Hi, ?Hj.
Qed.
