(* ===== verification/PoolWakeups.v ===== *)
(** * PoolWakeups: no wakeup of a worker is lost

    A worker that sleeps on [not_empty] while tasks are queued is matched by a
    wakeup that is under way: a submitter that has not signalled yet, or another
    worker that is awake and on its way to the queue. *)
From S2P Require Export PoolTheorems.
Local Open Scope Z_scope.

Abbreviation pstatus := (status pc mutex_id cond_id).

(** A wakeup under way. *)
Definition pending (st : pstatus) : Z :=
  match st with
  | Running (S_push_unlock _) | Running (S_push_signal _)
  | Running (W_pop_check _) | Running (W_pop_take _)
  | Relocking _ (W_pop_check _) => 1
  | _ => 0
  end.

Definition sleeper (st : pstatus) : bool := waits_on CNotEmpty st.

Lemma pending_nonneg st : 0 ≤ pending st.
Proof. destruct st as [p|cv m p|m p]; [destruct p| |destruct p]; simpl; lia. Qed.

Section Wakeups.
Context (allowed : api → bool) (capacity n k : nat).
Abbreviation pcode := (code allowed capacity true).
Abbreviation pmove := (move pcode).
Abbreviation pstep := (step pcode).
Abbreviation pstate := (pool_state allowed capacity n k).

(** Queued tasks never outnumber the wakeups under way while a worker sleeps. *)
Definition covered (c : pconfig) : Prop :=
  ∀ i st L, threads c !! i = Some st → sleeper st = true → balanced (sh c) (pcs c) L →
    Z.of_nat (length (Lanes.members L)) ≤ tally pending (threads c).

(** How many nodes a move puts into the queue. *)
Definition queued_by (p p' : pc) : Z := if touches p then counted p - counted p' else 0.

Lemma touching_total ps p s s' p' sp :
  pmove ps p s s' p' sp → touches p = true → total_task_in_system s' = total_task_in_system s.
Proof. intros H Ht. destruct p; try discriminate Ht; move_inv H; done. Qed.

Lemma members_moved c c' i p p' sp L L' :
  pstate c → pstate c' → balanced (sh c) (pcs c) L → balanced (sh c') (pcs c') L' →
  pcs c !! i = Some p → pmove (pcs c) p (sh c) (sh c') p' sp → pcs c' = <[i := p']> (pcs c) ++ sp →
  Z.of_nat (length (Lanes.members L')) = Z.of_nat (length (Lanes.members L)) + queued_by p p'.
Proof.
  intros Hc Hc' B B' Hi H Hp. destruct (pool_state_inv _ _ _ _ c Hc) as (I & _).
  destruct (pool_state_inv _ _ _ _ c' Hc') as (I' & _). destruct Hc as [(_ & Hcap & _) _].
  pose proof (total_exact _ _ _ Hcap _ _ I L B) as Ht.
  pose proof (total_exact _ _ _ Hcap _ _ I' L' B') as Ht'.
  pose proof (move_spawned _ _ _ _ _ _ _ _ _ H) as Hsp.
  rewrite Hp, (tally_moved counted _ _ _ _ _ Hi Hsp eq_refl) in Ht'. unfold queued_by.
  destruct (touches p) eqn:E.
  - rewrite (touching_total _ _ _ _ _ _ H E) in Ht'. lia.
  - destruct (move_quiet _ _ _ _ _ _ _ _ _ H E) as (_ & Hq & _).
    pose proof (r_size _ _ _ (b_repr _ _ _ B)) as Hs. pose proof (r_size _ _ _ (b_repr _ _ _ B')) as Hs'.
    pose proof (outstanding_bound _ _ _ _ _ I L B). pose proof (outstanding_bound _ _ _ _ _ I' L' B').
    pose proof (tally_nonneg counted (pcs c) counted_nonneg).
    pose proof (tally_nonneg counted (pcs c') counted_nonneg).
    rewrite Hq, Hs, !u64_small in Hs' by lia. lia.
Qed.

(** The nodes a move queues are matched by the wakeups it adds, except when a
    worker finds the queue empty, or signals. *)
Lemma queued_pending ps p s s' p' sp L :
  pmove ps p s s' p' sp → balanced s ps L → peeked s p →
  match p with
  | W_pop_check _ => ready_mask (pq s) = 0 ∨ queued_by p p' ≤ pending (Running p') - pending (Running p)
  | S_push_signal _ => queued_by p p' = 0
  | _ => queued_by p p' ≤ pending (Running p') - pending (Running p)
  end.
Proof.
  intros H B Hpk.
  assert ((∃ w, p = W_pop_take w) ∨ ∀ w, p ≠ W_pop_take w) as [[w ->]|Hne]
    by (destruct p; try (by right); left; by eexists).
  - destruct (take_body_ok s ps L B Hpk) as (t & L1 & h1 & q1 & Hr1 & _).
    move_inv H. rewrite Hr1 in Hrun. injection Hrun as <- <- <-. done.
  - by_cases H; unfold queued_by; simpl; try done.
    + left. lia.
    + by right.
    + by destruct (Hne w).
Qed.

Lemma same_queue s ps L L' :
  Z.of_nat (capacity + n) < 2 ^ 31 → inv capacity n k s ps → balanced s ps L → balanced s ps L' →
  length (Lanes.members L') = length (Lanes.members L).
Proof.
  intros Hcap I B B'. pose proof (total_exact _ _ _ Hcap _ _ I L B).
  pose proof (total_exact _ _ _ Hcap _ _ I L' B'). lia.
Qed.

Lemma cover_delta c c' :
  covered c → pstate c →
  (∀ j st, threads c' !! j = Some st → sleeper st = true →
     ∃ j0 st0, threads c !! j0 = Some st0 ∧ sleeper st0 = true) →
  (∀ L L', balanced (sh c) (pcs c) L → balanced (sh c') (pcs c') L' →
     Z.of_nat (length (Lanes.members L')) - Z.of_nat (length (Lanes.members L))
     ≤ tally pending (threads c') - tally pending (threads c) ∨ Lanes.members L' = []) →
  covered c'.
Proof.
  intros Hcov Hc Hsl Hd j st L' Hj Hst B'. destruct (Hsl j st Hj Hst) as (j0 & st0 & Hj0 & Hst0).
  destruct (pool_state_inv _ _ _ _ c Hc) as (I & _). destruct (v_balance _ _ _ _ _ I) as [L B].
  specialize (Hcov j0 st0 L Hj0 Hst0 B). pose proof (tally_nonneg pending (threads c') pending_nonneg).
  destruct (Hd L L' B B') as [?|Hn]; [lia|]. rewrite Hn. simpl. lia.
Qed.

Lemma sleeper_insert (th : list pstatus) i st j st' :
  <[i := st]> th !! j = Some st' → sleeper st = false → sleeper st' = true → th !! j = Some st'.
Proof.
  intros Hj Hn Hs. apply list_lookup_insert_Some in Hj as [(-> & -> & _)|[_ Hj]]; [congruence|done].
Qed.

(** A thread runs from one control point to the next. *)
Lemma cover_run c c' i p p' sp :
  covered c → pstate c → pstate c' → threads c !! i = Some (Running p) →
  (∀ z, p ≠ S_push_signal z) →
  pmove (pcs c) p (sh c) (sh c') p' sp →
  threads c' = <[i := Running p']> (threads c) ++ (Running <$> sp) → covered c'.
Proof.
  intros Hcov Hc Hc' Hi Hns H Hth. pose proof (pcs_lookup _ _ _ Hi) as Hpi. simpl in Hpi.
  pose proof (move_spawned _ _ _ _ _ _ _ _ _ H) as Hsp.
  assert (Hpcs : pcs c' = <[i := p']> (pcs c) ++ sp).
  { unfold pcs at 1. rewrite Hth, fmap_app, list_fmap_insert, <- list_fmap_compose. simpl.
    f_equal. by apply list_fmap_id. }
  apply (cover_delta c); [done|done| |].
  - intros j st Hj Hst. rewrite Hth in Hj. apply lookup_app_Some in Hj as [Hj|[_ Hj]].
    + exists j, st. split; [|done]. by eapply sleeper_insert.
    + rewrite list_lookup_fmap in Hj. destruct (sp !! _); [|done]. by injection Hj as <-.
  - intros L L' B B'. pose proof (members_moved c c' i p p' sp L L' Hc Hc' B B' Hpi H Hpcs) as Hm.
    rewrite Hth, tally_app, (tally_insert pending _ _ _ _ Hi).
    assert (Hz : tally pending (Running <$> sp) = 0) by by destruct Hsp as [-> | ->].
    destruct (pool_state_inv _ _ _ _ c Hc) as (I & _).
    pose proof (queued_pending _ _ _ _ _ _ L H B (v_peek _ _ _ _ _ I i p Hpi)) as Hq.
    assert (ready_mask (pq (sh c)) = 0 ∧ queued_by p p' = 0 ∨
            queued_by p p' ≤ pending (Running p') - pending (Running p)) as [[Hz0 Hq0]|Hq'];
      [|right|left; lia].
    + destruct p; auto; [destruct Hq; auto|by destruct (Hns i0)].
    + apply (repr_mask_zero (b_repr _ _ _ B)) in Hz0. rewrite Hz0, Hq0 in Hm.
      apply length_zero_iff_nil. simpl in Hm. lia.
Qed.

(** A change of the sleeping state of threads only. *)
Lemma cover_sleep c c' :
  covered c → pstate c → sh c' = sh c → pcs c' = pcs c →
  (∀ j st, threads c' !! j = Some st → sleeper st = true →
     ∃ j0 st0, threads c !! j0 = Some st0 ∧ sleeper st0 = true) →
  tally pending (threads c) ≤ tally pending (threads c') → covered c'.
Proof.
  intros Hcov Hc Hs Hp Hsl Hle. apply (cover_delta c); [done..|]. intros L L' B B'. left.
  rewrite Hs, Hp in B'. destruct (pool_state_inv _ _ _ _ c Hc) as (I & _).
  destruct Hc as [(_ & Hcap & _) _]. rewrite (same_queue _ _ _ _ Hcap I B B'). lia.
Qed.

Lemma pending_relock m p : pending (Relocking m p) ≤ pending (Running p).
Proof. destruct p; simpl; lia. Qed.

Lemma pending_wake cv th : tally pending th ≤ tally pending (wake cv <$> th).
Proof.
  unfold tally. induction th as [|st th IH]; [done|]. rewrite fmap_cons. simpl.
  destruct st as [p|cv' m p|m p]; simpl; try lia.
  destruct (decide (cv' = cv)); simpl; [|lia]. destruct p; lia.
Qed.

Lemma sleeping_at c j m p :
  pstate c → threads c !! j = Some (Waiting CNotEmpty m p) → ∃ w, p = W_pop_check w.
Proof.
  intros Hc Hj. destruct (pool_state_inv _ _ _ _ c Hc) as (_ & _ & _ & Hs).
  destruct (Hs _ _ Hj) as (_ & q & Hq). destruct q; try discriminate Hq.
  injection Hq as _ <-. by eexists.
Qed.

Lemma pcs_set (c c' : pconfig) i st :
  threads c' = <[i := st]> (threads c) → pcs c' = <[i := pc_of st]> (pcs c).
Proof. intros Hth. unfold pcs at 1. by rewrite Hth, list_fmap_insert. Qed.

Lemma cover_wait c c' i p cv m p' :
  covered c → pstate c → pstate c' → threads c !! i = Some (Running p) → pcode p = AWait cv m p' →
  sh c' = sh c → threads c' = <[i := Waiting cv m p']> (threads c) → covered c'.
Proof.
  intros Hcov Hc Hc' Hi Hp Hs Hth. pose proof (pcs_lookup _ _ _ Hi) as Hpi. simpl in Hpi.
  assert (H : pmove (pcs c) p (sh c) (sh c') p' []) by (rewrite Hs; constructor; by rewrite Hp).
  pose proof (pcs_set c c' i _ Hth) as Hpcs. simpl in Hpcs. rewrite <- app_nil_r in Hpcs.
  destruct (pool_state_inv _ _ _ _ c Hc) as (I & _). destruct (v_balance _ _ _ _ _ I) as [L B].
  pose proof (v_peek _ _ _ _ _ I i p Hpi) as Hpk.
  destruct (decide (cv = CNotEmpty)) as [->|Hne].
  - intros j st L' _ _ B'.
    pose proof (members_moved c c' i p p' [] L L' Hc Hc' B B' Hpi H Hpcs) as Hm.
    destruct p; try discriminate Hp. apply (repr_mask_zero (b_repr _ _ _ B)) in Hpk.
    rewrite Hpk in Hm. unfold queued_by in Hm. simpl in Hm. rewrite Hm.
    apply tally_nonneg, pending_nonneg.
  - apply (cover_delta c); [done|done| |].
    + intros j st Hj Hst. exists j, st. split; [|done]. rewrite Hth in Hj.
      eapply sleeper_insert; [done| |done]. simpl. by case_bool_decide.
    + intros L0 L' B0 B'. left.
      pose proof (members_moved c c' i p p' [] L0 L' Hc Hc' B0 B' Hpi H Hpcs) as Hm.
      rewrite Hth, (tally_insert pending _ _ _ _ Hi).
      destruct p; try discriminate Hp; injection Hp as <- <- <-; unfold queued_by in Hm; simpl in *; lia.
Qed.

Lemma cover_signal c c' i p cv p' j m pj :
  covered c → pstate c → pstate c' → threads c !! i = Some (Running p) → pcode p = ASignal cv p' →
  threads c !! j = Some (Waiting cv m pj) → sh c' = sh c →
  threads c' = <[i := Running p']> (<[j := Relocking m pj]> (threads c)) → covered c'.
Proof.
  intros Hcov Hc Hc' Hi Hp Hj Hs Hth. pose proof (pcs_lookup _ _ _ Hi) as Hpi. simpl in Hpi.
  assert (Hne : i ≠ j) by (intros ->; congruence).
  assert (H : pmove (pcs c) p (sh c) (sh c') p' []) by (rewrite Hs; constructor; by rewrite Hp).
  assert (Hpcs : pcs c' = <[i := p']> (pcs c) ++ []).
  { rewrite app_nil_r. unfold pcs at 1. rewrite Hth, !list_fmap_insert. simpl. f_equal.
    apply list_insert_id. apply (pcs_lookup _ _ _ Hj). }
  apply (cover_delta c); [done|done| |].
  - intros j0 st Hj0 Hst. exists j0, st. split; [|done]. rewrite Hth in Hj0.
    apply sleeper_insert in Hj0; [|done..]. by apply sleeper_insert in Hj0.
  - intros L L' B B'. left.
    pose proof (members_moved c c' i p p' [] L L' Hc Hc' B B' Hpi H Hpcs) as Hm.
    rewrite Hth, (tally_insert pending _ i (Running p)), (tally_insert pending _ _ _ _ Hj);
      [|by rewrite list_lookup_insert_ne].
    pose proof (pending_nonneg (Relocking m pj)). simpl.
    destruct p; try discriminate Hp; injection Hp as <- <-; unfold queued_by in Hm; simpl in *; try lia.
    destruct (sleeping_at c j m pj Hc Hj) as [w ->]. lia.
Qed.

Lemma cover_broadcast c c' i p cv p' :
  covered c → pstate c → pstate c' → threads c !! i = Some (Running p) → pcode p = ABroadcast cv p' →
  sh c' = sh c → threads c' = <[i := Running p']> (wake cv <$> threads c) → covered c'.
Proof.
  intros Hcov Hc Hc' Hi Hp Hs Hth. pose proof (pcs_lookup _ _ _ Hi) as Hpi. simpl in Hpi.
  assert (Hold : ∀ j st, threads c' !! j = Some st → sleeper st = true →
    threads c !! j = Some st ∧ cv ≠ CNotEmpty).
  { intros j st Hj Hst. rewrite Hth in Hj. apply sleeper_insert in Hj; [|done..].
    rewrite list_lookup_fmap in Hj. destruct (threads c !! j) as [st0|]; [|done].
    injection Hj as <-. destruct st0 as [|cv' m p0|]; try done. simpl in *.
    destruct (decide (cv' = cv)); [done|]. split; [done|]. unfold sleeper in Hst. simpl in Hst.
    case_bool_decide; congruence. }
  destruct (decide (cv = CNotEmpty)) as [->|Hne].
  { intros j st L Hj Hst _. by destruct (Hold j st Hj Hst). }
  assert (H : pmove (pcs c) p (sh c) (sh c') p' []) by (rewrite Hs; constructor; by rewrite Hp).
  assert (Hpcs : pcs c' = <[i := p']> (pcs c) ++ []).
  { rewrite app_nil_r. unfold pcs at 1. by rewrite Hth, list_fmap_insert, pcs_wake. }
  apply (cover_delta c); [done|done| |].
  - intros j st Hj Hst. exists j, st. by destruct (Hold j st Hj Hst).
  - intros L L' B B'. left.
    pose proof (members_moved c c' i p p' [] L L' Hc Hc' B B' Hpi H Hpcs) as Hm.
    pose proof (pending_wake cv (threads c)).
    rewrite Hth, (tally_insert pending _ i (Running p)) by by rewrite list_lookup_fmap, Hi.
    destruct p; try discriminate Hp; injection Hp as <- <-; unfold queued_by in Hm; simpl in *; try done; lia.
Qed.

Lemma covered_step c c' : pstate c → covered c → pstep c c' → covered c'.
Proof.
  intros Hc Hcov Hstep.
  assert (Hc' : pstate c').
  { destruct Hc as [Hlim Hr]. split; [done|]. by eapply rtc_r. }
  assert (Hkeep : ∀ i st j st', <[i := st]> (threads c) !! j = Some st' → sleeper st = false →
    sleeper st' = true → ∃ j0 st0, threads c !! j0 = Some st0 ∧ sleeper st0 = true).
  { intros i st j st' Hj Hn Hst. exists j, st'. split; [|done]. by eapply sleeper_insert. }
  destruct Hstep as [i p m p' Hi Hp Ho|i p m p' Hi Hp Ho|i p cv m p' Hi Hp Ho|i cv m p' Hi
    |i m p' Hi Ho|i p cv p' Hi Hp Hf|i p cv p' j m pj Hi Hp Hj|i p cv p' Hi Hp
    |i p tid p' Hi Hp He|i p entry created failed s' p' Hi Hp Hcr
    |i p entry created failed s' p' Hi Hp Hcr|i p f z s' p' Hi Hp Hf].
  - eapply (cover_run c _ i p p' []); try done; [by intros ? ->|constructor; by rewrite Hp|by rewrite app_nil_r].
  - eapply (cover_run c _ i p p' []); try done; [by intros ? ->|constructor; by rewrite Hp|by rewrite app_nil_r].
  - by eapply (cover_wait c).
  - apply (cover_sleep c); [done..| | |].
    + unfold pcs. simpl. rewrite list_fmap_insert. apply list_insert_id. by rewrite list_lookup_fmap, Hi.
    + intros j st Hj Hst. by eapply Hkeep.
    + simpl. rewrite (tally_insert pending _ _ _ _ Hi). pose proof (pending_nonneg (Relocking m p')). simpl in *. lia.
  - apply (cover_sleep c); [done..| | |].
    + unfold pcs. simpl. rewrite list_fmap_insert. apply list_insert_id. by rewrite list_lookup_fmap, Hi.
    + intros j st Hj Hst. by eapply Hkeep.
    + simpl. rewrite (tally_insert pending _ _ _ _ Hi). pose proof (pending_relock m p'). lia.
  - destruct (decide (cv = CNotEmpty)) as [->|Hne].
    + intros j st L Hj Hst _. exfalso. simpl in Hj. apply sleeper_insert in Hj; [|done..].
      rewrite Forall_lookup in Hf. unfold sleeper in Hst. by rewrite (Hf j st Hj) in Hst.
    + eapply (cover_run c _ i p p' []); try done; [intros ? ->|constructor; by rewrite Hp|by rewrite app_nil_r].
      injection Hp as <-. done.
  - by eapply (cover_signal c).
  - by eapply (cover_broadcast c).
  - eapply (cover_run c _ i p p' []); try done; [by intros ? ->| |by rewrite app_nil_r].
    destruct He as (q & Hq & He). apply pcs_lookup in Hq. simpl in Hq. by eapply mv_join.
  - eapply (cover_run c _ i p p' [entry]); try done; [by intros ? ->|]. eapply mv_spawn; [done|].
    unfold pcs. by rewrite length_fmap.
  - eapply (cover_run c _ i p p' []); try done; [by intros ? ->|by eapply mv_spawn_fail|by rewrite app_nil_r].
  - eapply (cover_run c _ i p p' []); try done; [by intros ? ->|by eapply mv_atom|by rewrite app_nil_r].
Qed.

Lemma covered_reachable c : pstate c → covered c.
Proof.
  intros [Hlim Hr]. revert c Hr.
  apply (rtc_ind_r (λ c, covered c)).
  - intros i st L Hi Hst. exfalso. simpl in Hi.
    apply lookup_app_Some in Hi as [Hi|[_ Hi]].
    + rewrite list_lookup_fmap in Hi. destruct (seq 0 n !! i); [|done]. by injection Hi as <-.
    + apply lookup_app_Some in Hi as [Hi|[_ Hi]]; [by apply lookup_replicate in Hi as [-> _]|].
      by apply list_lookup_singleton_Some in Hi as [_ <-].
  - intros c c' Hr Hs Hcov. by eapply (covered_step c).
Qed.

(** C4: While a worker sleeps on [not_empty] there are at most as many queued tasks
    as wakeups under way: a submitter that still has to signal, or a worker that
    is awake and about to look at the queue.  So no queued task is stranded:
    when nothing is under way and a worker sleeps, the queue is empty. *)
Theorem pool_no_lost_wakeup c i m p :
  pstate c → threads c !! i = Some (Waiting CNotEmpty m p) →
  0 ≤ size (pq (sh c)) ≤ tally pending (threads c).
Proof.
  intros Hc Hi. destruct (pool_state_inv _ _ _ _ c Hc) as (I & _).
  destruct (v_balance _ _ _ _ _ I) as [L B].
  pose proof (covered_reachable c Hc i _ L Hi eq_refl B) as Hcov.
  pose proof (outstanding_bound _ _ _ _ _ I L B). destruct Hc as [(_ & Hcap & _) _].
  pose proof (tally_nonneg counted (pcs c) counted_nonneg).
  rewrite (r_size _ _ _ (b_repr _ _ _ B)), u64_small; lia.
Qed.
End Wakeups.
