(* ===== verification/PthreadRuns.v ===== *)
(** * PthreadRuns: steps of the pthread machine thread by thread

    Every step is one of four: a sleeper wakes by itself, a woken thread takes its
    mutex back, a thread goes to sleep, or a thread runs on and may wake others.  A
    run in which no thread wakes by itself is what termination is about: POSIX
    allows such wakeups but does not promise them. *)
From S2P Require Export Pthread.

Section Runs.
Context {shared pc mutex cond choice : Type} `{!EqDecision mutex, !EqDecision cond}.
Context (code : pc → action shared pc mutex cond choice).
Abbreviation conf := (config shared pc mutex cond).
Abbreviation stat := (status pc mutex cond).

(** A thread that sleeps on a condition variable [waking] for nobody's sake. *)
Definition spurious (timed : cond → bool) (c c' : conf) : Prop :=
  ∃ i cv m p, timed cv = false ∧ threads c !! i = Some (Waiting cv m p) ∧
    c' = mk_config (sh c) (owner c) (<[i := Relocking m p]> (threads c)).

(** A step that is no spurious wakeup; a wait with a timeout may end at any time. *)
Definition prompted (timed : cond → bool) (c c' : conf) : Prop :=
  step code c c' ∧ ¬ spurious timed c c'.

(** What an action does to the sleepers. *)
Inductive stirs (a : action shared pc mutex cond choice) (th : list stat) : list stat → Prop :=
| stirs_nobody :
    (∀ cv p, a = ASignal cv p → Forall (λ st, waits_on cv st = false) th) →
    (∀ cv p, a ≠ ABroadcast cv p) → stirs a th th
| stirs_one cv p j m pj :
    a = ASignal cv p → th !! j = Some (Waiting cv m pj) → stirs a th (<[j := Relocking m pj]> th)
| stirs_all cv p : a = ABroadcast cv p → stirs a th (wake cv <$> th).

Definition sleeps (a : action shared pc mutex cond choice) : bool :=
  match a with AWait _ _ _ => true | _ => false end.

Inductive deed (c : conf) : conf → Prop :=
| deed_wakes i cv m p :
    threads c !! i = Some (Waiting cv m p) →
    deed c (mk_config (sh c) (owner c) (<[i := Relocking m p]> (threads c)))
| deed_relocks i m p :
    threads c !! i = Some (Relocking m p) → owner c m = None →
    deed c (mk_config (sh c) (set_owner (owner c) m (Some i)) (<[i := Running p]> (threads c)))
| deed_sleeps i p cv m p' :
    threads c !! i = Some (Running p) → code p = AWait cv m p' → owner c m = Some i →
    deed c (mk_config (sh c) (set_owner (owner c) m None) (<[i := Waiting cv m p']> (threads c)))
| deed_runs i p s' o' p' th sp :
    threads c !! i = Some (Running p) → sleeps (code p) = false → stirs (code p) (threads c) th →
    move code (pcs c) p (sh c) s' p' sp →
    deed c (mk_config s' o' (<[i := Running p']> th ++ (Running <$> sp))).

Lemma step_deed c c' : step code c c' → deed c c'.
Proof.
  assert (Hrun : ∀ i p s' o' p' th sp, threads c !! i = Some (Running p) → sleeps (code p) = false →
    stirs (code p) (threads c) th → move code (pcs c) p (sh c) s' p' sp →
    (sp = [] → deed c (mk_config s' o' (<[i := Running p']> th)))).
  { intros i p s' o' p' th sp Hi Hs Ht Hm ->. rewrite <- (app_nil_r (<[i := Running p']> th)).
    by eapply (deed_runs c i p s' o' p' th []). }
  assert (Hstill : ∀ p, (∀ cv q, code p ≠ ASignal cv q) → (∀ cv q, code p ≠ ABroadcast cv q) →
    stirs (code p) (threads c) (threads c)).
  { intros p H1 H2. apply stirs_nobody; [|done]. intros cv q E. by destruct (H1 cv q). }
  destruct 1 as [i p m p' Hi Hp Ho|i p m p' Hi Hp Ho|i p cv m p' Hi Hp Ho|i cv m p' Hi
    |i m p' Hi Ho|i p cv p' Hi Hp Hf|i p cv p' j m pj Hi Hp Hj|i p cv p' Hi Hp
    |i p tid p' Hi Hp He|i p entry created failed s' p' Hi Hp Hc
    |i p entry created failed s' p' Hi Hp Hc|i p f z s' p' Hi Hp Hf].
  - eapply Hrun; [done|by rewrite Hp|apply Hstill; congruence|apply mv_goto; by rewrite Hp|done].
  - eapply Hrun; [done|by rewrite Hp|apply Hstill; congruence|apply mv_goto; by rewrite Hp|done].
  - by eapply deed_sleeps.
  - by eapply deed_wakes.
  - by eapply deed_relocks.
  - eapply Hrun; [done|by rewrite Hp| |apply mv_goto; by rewrite Hp|done].
    apply stirs_nobody; [|congruence]. intros cv' q E. rewrite Hp in E. by injection E as <- _.
  - eapply Hrun; [done|by rewrite Hp|by eapply stirs_one|apply mv_goto; by rewrite Hp|done].
  - eapply Hrun; [done|by rewrite Hp|by eapply stirs_all|apply mv_goto; by rewrite Hp|done].
  - destruct He as (q & Hq & He). eapply Hrun; [done|by rewrite Hp|apply Hstill; congruence| |done].
    eapply mv_join; [done| |exact He]. apply (pcs_lookup _ _ _ Hq).
  - eapply (deed_runs c i p s' (owner c) p' (threads c) [entry]); [done|by rewrite Hp|apply Hstill; congruence|].
    eapply mv_spawn; [done|]. unfold pcs. by rewrite length_fmap.
  - eapply Hrun; [done|by rewrite Hp|apply Hstill; congruence|by eapply mv_spawn_fail|done].
  - eapply Hrun; [done|by rewrite Hp|apply Hstill; congruence|by eapply mv_atom|done].
Qed.


(** ** Sleepers that are woken *)

Lemma stirs_lookup a th th' j st' :
  stirs a th th' → th' !! j = Some st' →
  ∃ st, th !! j = Some st ∧ (st' = st ∨ ∃ cv m q, st = Waiting cv m q ∧ st' = Relocking m q).
Proof.
  intros [_ _|cv p i m pi _ Hi|cv p _] Hj; [by eauto|..].
  - apply list_lookup_insert_Some in Hj as [(-> & <- & _)|[_ Hj]]; [|by eauto].
    exists (Waiting cv m pi). split; [done|]. right. by exists cv, m, pi.
  - rewrite list_lookup_fmap in Hj. destruct (th !! j) as [st|] eqn:E; [|done]. injection Hj as <-.
    exists st. split; [done|]. destruct st as [q|cv' m q|m q]; simpl; auto. case_decide; [|by auto]. right. by exists cv', m, q.
Qed.

Lemma stirs_running a th th' j p :
  stirs a th th' → th' !! j = Some (Running p) ↔ th !! j = Some (Running p).
Proof.
  intros [_ _|cv q i m pi _ Hi|cv q _]; [done|..].
  - rewrite list_lookup_insert_Some. split; [by intros [(_ & ? & _)|[_ ?]]|].
    intros Hj. right. split; [|done]. intros ->. congruence.
  - rewrite list_lookup_fmap. destruct (th !! j) as [[q'|cv' m q'|m q']|]; simpl; [done| |done|done].
    by case_decide.
Qed.

Lemma stirs_length a th th' : stirs a th th' → length th' = length th.
Proof. intros [_ _|cv q i m pi _ Hi|cv q _]; rewrite ?length_insert, ?length_fmap; done. Qed.

Definition stir_cost (w : Z) (size : nat) (a : action shared pc mutex cond choice) : Z :=
  match a with ASignal _ _ => w | ABroadcast _ _ => w * Z.of_nat size | _ => 0 end.

(** Waking costs at most [w] per sleeper. *)
Lemma stirs_tally (f : stat → Z) w a th th' :
  (0 ≤ w)%Z →
  (∀ j cv m q, th !! j = Some (Waiting cv m q) → f (Relocking m q) ≤ f (Waiting cv m q) + w)%Z →
  stirs a th th' →
  (tally f th' ≤ tally f th + stir_cost w (length th) a)%Z.
Proof.
  intros Hw Hf [_ _|cv p j m pj -> Hj|cv p ->]; simpl.
  - destruct a; simpl; nia.
  - rewrite (tally_insert f _ _ _ _ Hj). specialize (Hf j cv m pj Hj). lia.
  - induction th as [|st th IH]; simpl; [lia|]. rewrite Nat2Z.inj_succ.
    specialize (IH (λ j, Hf (S j))). specialize (Hf O).
    change (f (wake cv st) + tally f (wake cv <$> th) ≤ f st + tally f th + w * Z.succ (Z.of_nat (length th)))%Z.
    assert (f (wake cv st) ≤ f st + w)%Z.
    { destruct st as [q|cv' m q|m q]; simpl; [lia| |lia]. case_decide; [by apply Hf|lia]. }
    lia.
Qed.

(** Waking threads does not move them. *)
Lemma stirs_pcs (c : conf) (s : shared) o i p a th sp :
  stirs a (threads c) th →
  pcs (mk_config s o (<[i := Running p]> th ++ (Running <$> sp))) = <[i := p]> (pcs c) ++ sp.
Proof.
  intros Hst. unfold pcs. simpl. rewrite fmap_app, list_fmap_insert, <- list_fmap_compose. f_equal; [f_equal|by apply list_fmap_id].
  apply list_eq. intros j. rewrite !list_lookup_fmap. destruct (th !! j) as [st'|] eqn:Ej.
  - destruct (stirs_lookup _ _ _ _ _ Hst Ej) as (st & -> & [-> | (cv & m & q & -> & ->)]); done.
  - assert (threads c !! j = None) as ->; [|done]. apply lookup_ge_None.
    rewrite <- (stirs_length _ _ _ Hst). by apply lookup_ge_None.
Qed.

Lemma pcs_kept (c : conf) (s : shared) o i (st st' : stat) :
  threads c !! i = Some st → pc_of st' = pc_of st → pcs (mk_config s o (<[i := st']> (threads c))) = pcs c.
Proof.
  intros Hi E. unfold pcs at 1. simpl. rewrite list_fmap_insert, E. apply list_insert_id, (pcs_lookup c), Hi.
Qed.

(** A step that changes a thread which does not sleep is prompted. *)
Lemma prompted_intro timed c c' i st :
  step code c c' → threads c !! i = Some st → (∀ cv m p, st ≠ Waiting cv m p) →
  threads c' !! i ≠ Some st → prompted timed c c'.
Proof.
  intros Hs Hi Hw Hne. split; [done|]. intros (j & cv & m & p & _ & Hj & ->). apply Hne. simpl.
  rewrite list_lookup_insert_ne; [done|]. intros ->. rewrite Hi in Hj. injection Hj as ->. by eapply Hw.
Qed.

End Runs.

(** ** A table that does less *)

Section Restrict.
Context {shared pc mutex cond choice : Type} `{!EqDecision mutex, !EqDecision cond}.
Context (code less : pc → action shared pc mutex cond choice).
Context (less_atom : ∀ p f z s s' p', less p = AStep f → f z s = Next s' p' →
  ∃ f', code p = AStep f' ∧ f' z s = Next s' p').
Context (less_same : ∀ p a, less p = a → (∀ f, a ≠ AStep f) → code p = a).

Lemma restrict_step c c' : step less c c' → step code c c'.
Proof.
  destruct 1 as [i p m p' Hi Hp Ho|i p m p' Hi Hp Ho|i p cv m p' Hi Hp Ho|i cv m p' Hi
    |i m p' Hi Ho|i p cv p' Hi Hp Hf|i p cv p' j m pj Hi Hp Hj|i p cv p' Hi Hp
    |i p tid p' Hi Hp He|i p entry created failed s' p' Hi Hp Hc
    |i p entry created failed s' p' Hi Hp Hc|i p f z s' p' Hi Hp Hf];
    try (apply less_same in Hp; [|done]).
  - by eapply step_lock.
  - by eapply step_unlock.
  - by eapply step_wait.
  - by eapply step_spurious.
  - by eapply step_relock.
  - by eapply step_signal_none.
  - by eapply step_signal.
  - by eapply step_broadcast.
  - eapply step_join; [done|done|]. destruct He as (q & Hq & He). exists q. split; [done|]. by apply less_same.
  - by eapply step_spawn.
  - by eapply step_spawn_fail.
  - destruct (less_atom _ _ _ _ _ _ Hp Hf) as (f' & Hp' & Hf'). by eapply step_atom.
Qed.

Lemma restrict_move ps p s s' p' sp : move less ps p s s' p' sp → move code ps p s s' p' sp.
Proof.
  destruct 1 as [p' Hg|tid q p' Hp Hq He|entry created failed s' p' Hp Hc|entry created failed s' p' Hp Hc|f z s' p' Hp Hf];
    try (apply less_same in Hp; [|done]).
  - apply mv_goto. destruct (less p) eqn:E; try done; apply less_same in E; try done; by rewrite E.
  - eapply mv_join; [done|done|]. by apply less_same.
  - by eapply mv_spawn.
  - by eapply mv_spawn_fail.
  - destruct (less_atom _ _ _ _ _ _ Hp Hf) as (f' & Hp' & Hf'). by eapply mv_atom.
Qed.
End Restrict.

(** ** Where a run stops *)

Section Stops.
Context {shared pc mutex cond choice : Type} `{!EqDecision mutex, !EqDecision cond}.
Context (code : pc → action shared pc mutex cond choice) (holds : pc → mutex → bool) (timed : cond → bool).
Abbreviation conf := (config shared pc mutex cond).
Context (c : conf) (Hdisc : disciplined code holds) (Ho : owned holds c) (Hsl : sleepers_ok code holds c).
Context (Hnf : nf (prompted code timed) c).
Context (Hmoves : ∀ i p s' p' sp, threads c !! i = Some (Running p) → sleeps (code p) = false →
  move code (pcs c) p (sh c) s' p' sp → p' ≠ p).

Lemma nf_change i p c' st' :
  threads c !! i = Some (Running p) → step code c c' → threads c' !! i = Some st' → st' ≠ Running p → False.
Proof.
  intros Hi Hs Hi' Hne. apply Hnf. exists c'. eapply prompted_intro; [done|exact Hi|done|]. rewrite Hi'. congruence.
Qed.

(** Which actions can be stuck. *)
Lemma stuck_action i p :
  threads c !! i = Some (Running p) →
  match code p with
  | ALock m _ => ∃ j, owner c m = Some j
  | AJoin tid _ => ¬ exited code c (tid (sh c))
  | AExit => True
  | AStep f => ∀ z s' p', f z (sh c) ≠ Next s' p'
  | _ => False
  end.
Proof.
  intros Hi. pose proof (lookup_lt_Some _ _ _ Hi) as Hlt.
  assert (Hgo : ∀ s o th p' sp, length th = length (threads c) → sleeps (code p) = false →
    step code c (mk_config s o (<[i := Running p']> th ++ (Running <$> sp))) → move code (pcs c) p (sh c) s p' sp → False).
  { intros s o th p' sp Hl Hs Hst Hm. eapply (nf_change i p _ (Running p')); [done|exact Hst| |].
    - apply lookup_app_l_Some, list_lookup_insert_eq. by rewrite Hl.
    - intros [= E]. by eapply Hmoves. }
  assert (Hgo0 : ∀ s o th p', length th = length (threads c) → sleeps (code p) = false →
    step code c (mk_config s o (<[i := Running p']> th)) → move code (pcs c) p (sh c) s p' [] → False).
  { intros s o th p' Hl Hs Hst Hm. apply (Hgo s o th p' []); [done|done| |done]. simpl. by rewrite app_nil_r. }
  assert (Hown : ∀ m, holds p m = true → owner c m = Some i).
  { intros m Hm. apply Ho. unfold hold_at. by rewrite Hi. }
  pose proof (Hdisc p) as Hdis. unfold disciplined_at in Hdis.
  destruct (code p) as [m p'|m p'|cv m p'|cv p'|cv p'|tid p'|entry created failed|f|] eqn:Hp; try done.
  - destruct (owner c m) as [j|] eqn:Hm; [eauto|exfalso]. eapply Hgo0; [| |by eapply step_lock|constructor; by rewrite Hp]; done.
  - destruct Hdis as [Hh _]. eapply Hgo0; [| |exact (step_unlock _ c i p m p' Hi Hp (Hown m Hh))|constructor; by rewrite Hp]; done.
  - destruct Hdis as [Hh _]. eapply (nf_change i p (mk_config _ _ _) (Waiting cv m p')); [done|exact (step_wait _ c i p cv m p' Hi Hp (Hown m Hh))| |done].
    by apply list_lookup_insert_eq.
  - destruct (decide (Forall (λ st, waits_on cv st = false) (threads c))) as [Hf|Hf].
    + eapply Hgo0; [| |by eapply step_signal_none|constructor; by rewrite Hp]; done.
    + apply not_Forall_Exists in Hf; [|apply _]. apply Exists_exists in Hf as (st & Hst & Hw).
      apply list_elem_of_lookup in Hst as [j Hj]. destruct st as [q|cv' m q|m q]; simpl in Hw; try done.
      destruct (decide (cv' = cv)) as [->|]; [|by rewrite bool_decide_eq_false_2 in Hw].
      eapply Hgo0; [|done|by eapply step_signal|constructor; by rewrite Hp]. by rewrite length_insert.
  - eapply Hgo0; [|done|by eapply step_broadcast|constructor; by rewrite Hp]. by rewrite length_fmap.
  - intros He. eapply Hgo0; [done|done|by eapply step_join|]. destruct He as (q & Hq & He).
    eapply mv_join; [done|exact (pcs_lookup _ _ _ Hq)|done].
  - destruct (created (length (threads c)) (sh c)) as [s' p'] eqn:Hc.
    eapply (Hgo _ _ _ p' [entry]); [done|done|by eapply step_spawn|]. eapply mv_spawn; [done|]. unfold pcs. by rewrite length_fmap.
  - intros z s' p' Hf. eapply Hgo0; [done|done|by eapply step_atom|by eapply mv_atom].
Qed.

(** A mutex belongs to a thread that runs, provided that a sleeper holds no second one. *)
Lemma owner_runs m j :
  (∀ q cv m' p, code q = AWait cv m' p → holds p m = true → m = m') →
  owner c m = Some j → ∃ p, threads c !! j = Some (Running p) ∧ holds p m = true.
Proof.
  intros Hone Hm%Ho. unfold hold_at in Hm.
  destruct (threads c !! j) as [st|] eqn:Hj; [|done]. specialize (Hsl _ _ Hj).
  destruct st as [p|cv m' p|m' p]; simpl in Hm; [eauto|..].
  - case_decide as E; [done|]. destruct Hsl as (_ & q & Hq). by destruct (E (Hone _ _ _ _ Hq Hm)).
  - case_decide as E; [done|]. destruct Hsl as (_ & q & cv & Hq). by destruct (E (Hone _ _ _ _ Hq Hm)).
Qed.

(** When no mutex is taken a thread has ended, waits for an atomic step or for another
    thread, or sleeps. *)
Lemma stuck_status i st :
  (∀ m, owner c m = None) → threads c !! i = Some st →
  (∃ p, st = Running p ∧ (code p = AExit ∨ (∃ f, code p = AStep f ∧ ∀ z s' p', f z (sh c) ≠ Next s' p') ∨
     ∃ tid p', code p = AJoin tid p' ∧ ¬ exited code c (tid (sh c)))) ∨
  (∃ cv m p q, st = Waiting cv m p ∧ code q = AWait cv m p ∧ timed cv = false).
Proof.
  intros Hfree Hi. pose proof (Hsl _ _ Hi) as Hst. destruct st as [p|cv m p|m p].
  - left. exists p. split; [done|]. pose proof (stuck_action _ _ Hi) as Hb.
    destruct (code p) eqn:Hp; try done; eauto; [|by right; right; eauto].
    destruct Hb as [j Hj]. by rewrite Hfree in Hj.
  - right. destruct Hst as (_ & q & Hq). exists cv, m, p, q. split_and!; try done.
    destruct (timed cv) eqn:Ht; [exfalso|done]. apply Hnf. eexists. split; [by eapply step_spurious|].
    intros (j & cv' & m' & p' & Ht' & Hj & E). injection E as E.
    destruct (decide (i = j)) as [->|Hne]; [rewrite Hi in Hj; injection Hj as -> -> ->; congruence|].
    assert (Hat : (<[i := Relocking m p]> (threads c)) !! i = <[j := Relocking m' p']> (threads c) !! i) by by rewrite E.
    rewrite list_lookup_insert_eq, list_lookup_insert_ne, Hi in Hat by (done || by eapply lookup_lt_Some). done.
  - exfalso. apply Hnf. eexists. eapply prompted_intro; [eapply step_relock; [exact Hi|apply Hfree]|exact Hi|done|].
    simpl. rewrite list_lookup_insert_eq by by eapply lookup_lt_Some. done.
Qed.
End Stops.
