(* ===== verification/PoolShutdown.v ===== *)
(** * PoolShutdown: thread_pool_destroy comes to an end

    When no submit is in flight at the moment destroy is called, the pool shuts
    down: once [shutdown] is stored every run without spurious wakeups is finite, and
    it ends with the pool freed.  A measure bounds the runs; the invariants [closing]
    show that no thread is left asleep.  (With a submit in flight destroy may hang, see
    PoolTraces.v.) *)
From S2P Require Export PthreadRuns PoolWakeups.
Local Open Scope Z_scope.

(** Clients that have stopped calling the pool. *)
Definition no_calls (a : api) : bool := false.

(** The waits with a timeout. *)
Definition timed (cv : cond_id) : bool := match cv with CAging => true | _ => false end.

(** ** How far a thread is from its end *)

(** What waking one sleeper costs at most, and waking all of [size] threads. *)
Definition wake_one (n : nat) : Z := 12 + 2 * Z.of_nat n.
Definition wake_every (n size : nat) : Z := wake_one n * Z.of_nat size.

(** What it takes to work off a queued task. *)
Definition task_cost (n : nat) : Z := 17 + wake_one n.

Definition rank (n size : nat) (p : pc) : Z :=
  let w := wake_one n in
  let b := wake_every n size in
  let m := 2 * Z.of_nat n in
  match p with
  | W_top _ => 9
  | W_pause_lock _ => 8
  | W_pause_check _ => 7
  | W_pause_wait _ => 6
  | W_pause_unlock _ => 5
  | W_pop_lock _ => 4
  | W_pop_check _ => 3
  | W_pop_shut _ | W_pop_take _ => 2
  | W_pop_wait _ | W_pop_null _ => 1
  | W_pop_unlock _ _ => 18 + w
  | W_busy _ _ => 17 + w
  | W_run _ _ => 16 + w
  | W_free _ _ => 15 + w
  | W_unbusy _ => 14 + w
  | W_dec _ => 13 + w
  | W_drain_lock _ => 12 + w
  | W_drain_signal _ => 11 + w
  | W_drain_unlock _ => 10
  | A_start => 11
  | A_lock _ => 10
  | A_top _ => 9
  | A_p_unlock _ => 8
  | A_p_lock _ => 7
  | A_p_check _ => 6
  | A_p_shut _ => 5
  | A_p_enable _ => 6
  | A_p_wait _ => 5
  | A_p_end _ => 4
  | A_p_relock _ => 3
  | A_shut _ => 2
  | A_enable _ => 22 + b
  | A_clock _ => 21 + b
  | A_wait _ => 20 + b
  | A_end => 1
  | G_call _ => 17 + b
  | G_clock _ _ _ => 16 + b
  | G_shut _ _ _ _ => 15 + b
  | G_lock _ _ _ _ => 14 + b
  | G_body _ _ _ _ => 13 + b
  | G_unlock _ _ _ _ => 12 + b
  | G_bcast _ _ _ => 11 + b
  | G_mid _ _ => 10
  | D_unpause => 33 + m + w + 3 * b
  | D_spin => 32 + m + w + 3 * b
  | D_wlock => 31 + m + w + 3 * b
  | D_wbcast => 30 + m + w + 3 * b
  | D_wunlock => 29 + m + w + 2 * b
  | D_plock => 28 + m + w + 2 * b
  | D_pbcast => 27 + m + w + 2 * b
  | D_punlock => 26 + m + w + b
  | X_load _ => 25 + m + w + b
  | X_store _ => 24 + m + w + b
  | X_lock _ => 23 + m + w + b
  | X_signal _ => 22 + m + w + b
  | X_unlock _ => 21 + m + b
  | X_plock _ => 20 + m + b
  | X_pbcast _ => 19 + m + b
  | X_punlock _ => 18 + m
  | X_join _ => 17 + m
  | D_lock => 12 + m
  | D_check => 11 + m
  | D_wait => 10 + m
  | D_unlock => 9 + m
  | D_monitor => 8 + m
  | D_next i => 7 + 2 * (Z.of_nat n - Z.of_nat i)
  | D_join i => 6 + 2 * (Z.of_nat n - Z.of_nat i)
  | D_pqlock => 6
  | D_pqfree => 5
  | D_pqunlock => 4
  | D_pqkill => 3
  | D_kill => 2
  | D_free => 1
  | _ => 0
  end.

Definition rank_of (n size : nat) (st : pstatus) : Z :=
  match st with
  | Running p => Z.max 0 (rank n size p)
  | Relocking _ p => Z.max 0 (rank n size p) + 1
  | Waiting CAging _ _ => 19 + wake_every n size
  | Waiting _ _ _ => 0
  end.

Section Measure.
Context (capacity n size : nat).
Abbreviation quiet := (code no_calls capacity true).

Lemma wake_nonneg : 0 ≤ wake_one n ∧ 0 ≤ wake_every n size.
Proof. unfold wake_every, wake_one. nia. Qed.

Lemma idle_stays ps r s s' p' sp : ¬ move quiet ps (C_idle r) s s' p' sp.
Proof.
  intros H. inversion H as [? Hf|? ? ? Hc|? ? ? ? ? Hc|? ? ? ? ? Hc|? z ? ? Hc Hf]; try discriminate Hc; [done|].
  injection Hc as <-. by destruct z.
Qed.

(** A thread that runs on comes nearer to its end, what it stirs included. *)
Lemma move_rank ps p s s' p' sp :
  move quiet ps p s s' p' sp → sleeps (quiet p) = false →
  shutdown s = true → in_flight_submits s = 0 → num_workers s = Z.of_nat n →
  in_call p = 0 → in_flight p = 0 → join_bound n p → p ≠ D_idle → p ≠ D_shut →
  sp = [] ∧ 0 ≤ rank n size p' ∧
  rank n size p' + stir_cost (wake_one n) size (quiet p) + task_cost n * queued_by p p' < rank n size p.
Proof.
  pose proof wake_nonneg as [Hw1 Hw2]. unfold task_cost.
  intros Hm Hs Hsh Hfl Hn Hc Hf Hb Hi Hd.
  assert (Hne : ∀ r, p ≠ C_idle r) by (intros r ->; by eapply idle_stays).
  by_cases Hm; try discriminate Hs; try discriminate Hc; try discriminate Hf; try congruence;
    try (by destruct (Hne r)).
  all: unfold queued_by; cbn -[Z.mul Z.add wake_one wake_every Z.of_nat]; fold (wake_every n size);
    cbn in Hb, Hn; split_and!; [done|lia|lia].
Qed.

Lemma rank_sleep p cv m p' : quiet p = AWait cv m p' → rank_of n size (Waiting cv m p') < Z.max 0 (rank n size p) ∨ in_call p = 1.
Proof.
  pose proof wake_nonneg as [Hw1 Hw2]. intros H. destruct p; try discriminate H; injection H as <- <- <-; simpl; try lia.
Qed.

Lemma rank_wake cv m p :
  (∃ q, quiet q = AWait cv m p) → rank_of n size (Relocking m p) ≤ rank_of n size (Waiting cv m p) + wake_one n.
Proof.
  pose proof wake_nonneg as [Hw1 Hw2]. intros (q & H).
  destruct q; try discriminate H; injection H as <- <- <-; simpl; unfold wake_one; lia.
Qed.
End Measure.

Section Shutdown.
Context (allowed : api → bool) (capacity n k : nat).
Abbreviation pstate := (pool_state allowed capacity n k).
Abbreviation quiet := (code no_calls capacity true).
Abbreviation qstep := (step quiet).

(** Without calls the pool does nothing it could not do with them. *)
Lemma quiet_atom p f z s s' p' :
  quiet p = AStep f → f z s = Next s' p' →
  ∃ f', code allowed capacity true p = AStep f' ∧ f' z s = Next s' p'.
Proof.
  intros Hc Hf. destruct p; try (by exists f); injection Hc as <-; by destruct z as [|[]| |].
Qed.

Lemma quiet_same p a : quiet p = a → (∀ f, a ≠ AStep f) → code allowed capacity true p = a.
Proof. intros <- H. destruct p; try done; by edestruct H. Qed.

Lemma calm_step c c' : qstep c c' → step (code allowed capacity true) c c'.
Proof. apply restrict_step; [apply quiet_atom|apply quiet_same]. Qed.

Lemma calm_move ps p s s' p' sp : move quiet ps p s s' p' sp → move (code allowed capacity true) ps p s s' p' sp.
Proof. apply restrict_move; [apply quiet_atom|apply quiet_same]. Qed.

(** Destroy has been called and no submit is in flight. *)
Record shutting (c : pconfig) (d : pc) : Prop := {
  sd_state : pstate c;
  sd_at : pcs c !! (n + k)%nat = Some d;
  sd_phase : (1 ≤ phase d)%nat;
  sd_flight : tally in_flight (pcs c) = 0
}.

Section Facts.
Context (c : pconfig) (d : pc) (S : shutting c d).

Lemma sd_inv : inv capacity n k (sh c) (pcs c) ∧ aging_inv (sh c) (pcs c).
Proof. destruct (pool_state_inv _ _ _ _ c (sd_state _ _ S)) as (I & A & _). done. Qed.

Lemma sd_sleepers : owned holds c ∧ sleepers_ok quiet holds c.
Proof.
  destruct (pool_state_inv _ _ _ _ c (sd_state _ _ S)) as (_ & _ & Ho & Hs). split; [done|].
  intros i st Hi. specialize (Hs i st Hi). destruct st as [p|cv m p|m p]; [done|..].
  - destruct Hs as (Hh & q & Hq). split; [done|]. exists q. by destruct q.
  - destruct Hs as (Hh & q & cv & Hq). split; [done|]. exists q, cv. by destruct q.
Qed.

Lemma sd_dest : dest_ok n (sh c) (pcs c) d.
Proof.
  destruct sd_inv as [I _]. destruct (v_dest _ _ _ _ _ I) as (d' & Hd & D).
  rewrite (sd_at _ _ S) in Hd. by injection Hd as <-.
Qed.

Lemma sd_calm i p : pcs c !! i = Some p → in_call p = 0 ∧ in_flight p = 0.
Proof.
  intros Hi. split.
  - apply (tally_zero in_call (pcs c) in_call_nonneg (d_calls _ _ _ _ sd_dest (sd_phase _ _ S)) i p Hi).
  - apply (tally_zero in_flight (pcs c) in_flight_nonneg (sd_flight _ _ S) i p Hi).
Qed.

Lemma sd_no_flight : in_flight_submits (sh c) = 0.
Proof. destruct sd_inv as [I _]. rewrite (v_flight _ _ _ _ _ I), (sd_flight _ _ S). done. Qed.

Lemma sd_num : num_workers (sh c) = Z.of_nat n.
Proof. destruct sd_inv as [I _]. apply I. Qed.

Lemma sd_shutdown : (2 ≤ phase d)%nat → shutdown (sh c) = true.
Proof. intros H. rewrite (d_shutdown _ _ _ _ sd_dest). by apply bool_decide_eq_true. Qed.

(** Where a thread can be, by its index. *)
Lemma sd_client i p : pcs c !! i = Some p → role_of p = Client → ∃ r, p = C_idle r.
Proof.
  intros Hi Hr. destruct (sd_calm i p Hi) as [Hc Hf]. destruct p; simpl in *; try done; try lia; eauto; destruct k0; lia || done.
Qed.

Lemma sd_destroyer i p : pcs c !! i = Some p → role_of p = Destroyer → i = (n + k)%nat ∧ p = d.
Proof.
  intros Hi Hr. destruct sd_inv as [I _].
  destruct (inv_dest_here _ _ _ _ _ _ _ I Hi Hr) as [-> _]. rewrite (sd_at _ _ S) in Hi. by injection Hi as ->.
Qed.
End Facts.

Lemma shutting_step c d c' :
  shutting c d → qstep c c' → ∃ d', shutting c' d' ∧ (phase d ≤ phase d')%nat.
Proof.
  intros S Hs. assert (Hst : pstate c').
  { destruct (sd_state _ _ S) as [Hl Hr]. split; [done|]. eapply rtc_r; [done|by apply calm_step]. }
  destruct (step_pcs _ _ _ Hs) as [[_ E]|(i & p & p' & sp & Hi & Hm & E)].
  { exists d. split; [|done]. split; rewrite ?E; try apply S. done. }
  apply pcs_lookup in Hi. simpl in Hi. destruct (sd_calm c d S i p Hi) as [Hc Hf].
  pose proof (d_destroying _ _ _ _ (sd_dest c d S)) as Hd. rewrite (bool_decide_true _ (sd_phase _ _ S)) in Hd.
  destruct (move_no_flight _ _ _ _ _ _ _ _ Hm Hd Hc Hf) as [Hf' _].
  pose proof (move_spawned _ _ _ _ _ _ _ _ _ Hm) as Hsp.
  assert (Hfl : tally in_flight (pcs c') = 0).
  { rewrite E, (tally_moved in_flight _ _ _ _ _ Hi Hsp eq_refl), (sd_flight _ _ S). lia. }
  destruct (decide (i = (n + k)%nat)) as [->|Hne].
  - pose proof (sd_at _ _ S) as Hat. rewrite Hi in Hat. injection Hat as ->. exists p'.
    pose proof (move_phase _ _ _ _ _ _ _ _ Hm) as Hph.
    assert (Hr : role_of d = Destroyer).
    { destruct (sd_inv c d S) as [I _]. by destruct (inv_role _ _ _ _ _ I _ _ Hi) as [[? _]|[[? _]|[[_ ?]|[? _]]]]; try lia. }
    rewrite Hr in Hph. destruct Hph as (_ & _ & _ & Hle & _). split; [|done].
    split; [done| |pose proof (sd_phase _ _ S); lia|done]. rewrite E, lookup_app_l.
    + apply list_lookup_insert_eq. by eapply lookup_lt_Some.
    + rewrite length_insert. by eapply lookup_lt_Some.
  - exists d. split; [|done]. split; [done| |apply S|done]. pose proof (sd_at _ _ S) as Hat.
    rewrite E, lookup_app_l by (rewrite length_insert; by eapply lookup_lt_Some). by rewrite list_lookup_insert_ne.
Qed.

(** ** The measure *)

Definition measure (c : pconfig) : Z :=
  task_cost n * size (pq (sh c)) + tally (rank_of n (length (threads c))) (threads c).

Lemma size_members c d : shutting c d → ∃ L, balanced (sh c) (pcs c) L ∧ size (pq (sh c)) = Z.of_nat (length (Lanes.members L)).
Proof.
  intros S. destruct (sd_inv c d S) as [I _]. destruct (v_balance _ _ _ _ _ I) as [L B]. exists L.
  split; [done|]. rewrite (r_size _ _ _ (b_repr _ _ _ B)). destruct (sd_state _ _ S) as [(_ & Hcap & _) _].
  pose proof (outstanding_bound _ _ _ _ _ I L B). pose proof (tally_nonneg counted (pcs c) counted_nonneg).
  apply Z.mod_small. lia.
Qed.

Lemma rank_of_nonneg m st : 0 ≤ rank_of n m st.
Proof.
  pose proof (wake_nonneg n m). destruct st as [p|cv mx p|mx p]; simpl; [lia| |lia]. destruct cv; lia.
Qed.

Lemma measure_nonneg c d : shutting c d → 0 ≤ measure c.
Proof.
  intros S. destruct (size_members c d S) as (L & _ & E). unfold measure, task_cost. rewrite E.
  pose proof (tally_nonneg (rank_of n (length (threads c))) (threads c) (rank_of_nonneg _)).
  pose proof (wake_nonneg n 0). nia.
Qed.

Lemma sleeper_wake c d (S : shutting c d) j cv m q :
  threads c !! j = Some (Waiting cv m q) →
  rank_of n (length (threads c)) (Relocking m q) ≤ rank_of n (length (threads c)) (Waiting cv m q) + wake_one n.
Proof.
  intros Hj. destruct (sd_sleepers _ _ S) as [_ Hs]. destruct (Hs _ _ Hj) as [_ Hq]. by eapply rank_wake.
Qed.

(** Running on: the rank of the thread falls by more than what it stirs and queues. *)
Lemma measure_runs c d i p s' o' p' th sp :
  shutting c d → (2 ≤ phase d)%nat → qstep c (mk_config s' o' (<[i := Running p']> th ++ (Running <$> sp))) →
  threads c !! i = Some (Running p) → sleeps (quiet p) = false → stirs (quiet p) (threads c) th →
  move quiet (pcs c) p (sh c) s' p' sp →
  measure (mk_config s' o' (<[i := Running p']> th ++ (Running <$> sp))) < measure c.
Proof.
  intros S Hph Hs Hi Hsl Hst Hm. set (c' := mk_config _ _ _).
  destruct (shutting_step _ _ _ S Hs) as (d' & S' & _). pose proof (pcs_lookup _ _ _ Hi) as Hpi. simpl in Hpi.
  destruct (sd_calm _ _ S i p Hpi) as [Hc Hf]. pose proof (sd_shutdown _ _ S Hph) as Hsh.
  assert (Hd : role_of p = Destroyer → p = d) by (intros Hr; by apply (sd_destroyer _ _ S i p)).
  assert (Hidle : p ≠ D_idle) by (intros ->; rewrite <- (Hd eq_refl) in Hph; simpl in Hph; lia).
  assert (Hshut : p ≠ D_shut) by (intros ->; rewrite <- (Hd eq_refl) in Hph; simpl in Hph; lia).
  assert (Hb : join_bound n p).
  { pose proof (d_bound _ _ _ _ (sd_dest _ _ S)) as Hbd. destruct p; try done; by rewrite <- (Hd eq_refl) in Hbd. }
  destruct (move_rank _ n (length (threads c)) _ _ _ _ _ _ Hm Hsl Hsh (sd_no_flight _ _ S) (sd_num _ _ S) Hc Hf Hb Hidle Hshut)
    as (-> & Hp' & Hlt).
  destruct (size_members _ _ S) as (L & B & E). destruct (size_members _ _ S') as (L' & B' & E').
  assert (Hpcs : pcs c' = <[i := p']> (pcs c) ++ []) by by eapply (stirs_pcs c _ _ _ _ _ _ []).
  pose proof (members_moved allowed capacity n k c c' i p p' [] L L' (sd_state _ _ S) (sd_state _ _ S') B B' Hpi
    (calm_move _ _ _ _ _ _ Hm) Hpcs) as Hmem.
  unfold measure, c'. cbn [sh threads] in *. rewrite E, E', Hmem. rewrite app_nil_r, length_insert, (stirs_length _ _ _ Hst).
  assert (Hith : th !! i = Some (Running p)) by (by apply (stirs_running _ _ _ _ _ Hst)).
  rewrite (tally_insert _ _ _ _ _ Hith).
  pose proof (stirs_tally (rank_of n (length (threads c))) (wake_one n) _ _ _ (proj1 (wake_nonneg n 0)) (sleeper_wake c d S) Hst).
  cbn [rank_of]. lia.
Qed.


Lemma measure_insert c o i st st' :
  threads c !! i = Some st → rank_of n (length (threads c)) st' < rank_of n (length (threads c)) st →
  measure (mk_config (sh c) o (<[i := st']> (threads c))) < measure c.
Proof.
  intros Hi Hlt. unfold measure. cbn [sh threads]. rewrite length_insert, (tally_insert _ _ _ _ _ Hi). lia.
Qed.

Lemma measure_step c d c' :
  shutting c d → (2 ≤ phase d)%nat → prompted quiet timed c c' → measure c' < measure c.
Proof.
  intros S Hph [Hs Hns]. destruct (sd_sleepers _ _ S) as [_ Hsl].
  destruct (step_deed _ _ _ Hs) as [i cv m p Hi|i m p Hi Ho|i p cv m p' Hi Hp Ho|i p s' o' p' th sp Hi Hp Ht Hm].
  - apply (measure_insert _ _ _ _ _ Hi). destruct (timed cv) eqn:Ht; [|destruct Hns; by exists i, cv, m, p].
    destruct (Hsl _ _ Hi) as (_ & q & Hq). destruct cv; try done. destruct q; try discriminate Hq.
    injection Hq as <- <-. simpl. pose proof (wake_nonneg n (length (threads c))). lia.
  - apply (measure_insert _ _ _ _ _ Hi). simpl. lia.
  - apply (measure_insert _ _ _ _ _ Hi). destruct (rank_sleep _ n (length (threads c)) _ _ _ _ Hp) as [?|Hc]; [done|].
    apply pcs_lookup in Hi. destruct (sd_calm _ _ S _ _ Hi). simpl in *. lia.
  - by eapply measure_runs.
Qed.

(** Every run without spurious wakeups is finite. *)
Lemma shutting_sn c d : shutting c d → (2 ≤ phase d)%nat → sn (prompted quiet timed) c.
Proof.
  remember (Z.to_nat (measure c)) as x eqn:Hx. revert c d Hx.
  induction x as [x IH] using lt_wf_ind. intros c d -> S Hph. constructor. intros c' Hs.
  destruct (shutting_step _ _ _ S (proj1 Hs)) as (d' & S' & Hle).
  pose proof (measure_step _ _ _ S Hph Hs). pose proof (measure_nonneg _ _ S').
  eapply (IH (Z.to_nat (measure c'))); [lia|done|exact S'|lia].
Qed.

End Shutdown.
