(* ===== verification/PoolProgress.v ===== *)
(** * PoolProgress: thread_pool_destroy leaves no thread asleep

    Behind each of its broadcasts nobody sleeps on the condition variable again
    ([closed]); workers leave only when the queue is empty; the last decrement of the
    task counter is followed by a signal on [drain_cond]; and the thread that
    thread_pool_disable_aging joins is an aging thread.  So a run of PoolShutdown.v can
    only end with the pool freed. *)
From S2P Require Export PoolShutdown.
Local Open Scope Z_scope.

(** ** The thread that disable joins *)

Definition ager_at (s : thread_pool) (ps : list pc) : Prop :=
  ∃ q, ps !! aging_tid s = Some q ∧ role_of q = Ager.

(** Enable between setting the flag and storing the thread id. *)
Definition creating (p : pc) : bool := match p with E_unlock | E_create => true | _ => false end.

(** Disable once it has seen the flag. *)
Definition disabling (p : pc) : bool := match p with X_store _ => true | _ => stopping p =? 1 end.

Record tid_ok (s : thread_pool) (ps : list pc) : Prop := {
  t_on : aging_enable s = true → (∃ i p, ps !! i = Some p ∧ creating p = true) ∨ ager_at s ps;
  t_off : ∀ i p, ps !! i = Some p → disabling p = true → ager_at s ps
}.

Section Tid.
Context (allowed : api → bool) (capacity n k : nat).
Abbreviation pcode := (code allowed capacity true).
Abbreviation pmove := (move pcode).

Lemma move_creating ps p s s' p' sp :
  pmove ps p s s' p' sp → creating p = true →
  creating p' = true ∨ (p = E_create ∧ (aging_enable s' = false ∨ sp = [A_start])).
Proof. intros H Hp. by_cases H; try discriminate Hp; auto. Qed.

Lemma move_disabling ps p s s' p' sp :
  pmove ps p s s' p' sp → disabling p' = true → disabling p = true ∨ (aging_enable s = true ∧ ∃ b, p = X_load b).
Proof. intros H. by_cases H; intros Hp; try discriminate Hp; eauto. Qed.

Lemma creating_busy p : creating p = true → 1 ≤ aging_busy p.
Proof. destruct p; try discriminate; done. Qed.

Lemma disabling_busy p : disabling p = true → 1 ≤ aging_busy p.
Proof. destruct p; try discriminate; by destruct k0. Qed.

Section Step.
Context (s s' : thread_pool) (ps sp : list pc) (i : nat) (p p' : pc).
Hypothesis (Hcap : Z.of_nat (capacity + n) < 2 ^ 31).
Hypothesis (I : inv capacity n k s ps) (A : aging_inv s ps) (T : tid_ok s ps).
Hypothesis (Hi : ps !! i = Some p) (H : pmove ps p s s' p' sp).

Lemma ager_kept : (p = E_create → sp = []) → ager_at s ps → ager_at s' (<[i := p']> ps ++ sp).
Proof.
  intros Hs (q & Hq & Hr). unfold ager_at.
  destruct (move_tid _ _ _ _ _ _ _ _ H) as [[_ ->]|(Hp & E & _)]; [|by rewrite (Hs Hp) in E].
  rewrite lookup_app_l by (rewrite length_insert; by eapply lookup_lt_Some).
  destruct (decide (i = aging_tid s)) as [->|Hne].
  - exists p'. rewrite Hi in Hq. injection Hq as <-. rewrite (move_role _ _ _ _ _ _ _ _ _ H).
    split; [|done]. apply list_lookup_insert_eq. by eapply lookup_lt_Some.
  - exists q. by rewrite list_lookup_insert_ne.
Qed.

(** Only one thread is inside the two functions. *)
Lemma busy_here j q : ps !! j = Some q → 1 ≤ aging_busy q → 1 ≤ aging_busy p → j = i.
Proof.
  intros Hj Hq Hp. eapply (tally_unique aging_busy ps); [apply aging_busy_nonneg| |exact Hj|exact Hi|done|done].
  by eapply busy_one.
Qed.

Lemma on_step :
  aging_enable s' = true →
  (∃ j q, (<[i := p']> ps ++ sp) !! j = Some q ∧ creating q = true) ∨ ager_at s' (<[i := p']> ps ++ sp).
Proof.
  intros Hfl. assert (Hat : (<[i := p']> ps ++ sp) !! i = Some p').
  { rewrite lookup_app_l by (rewrite length_insert; by eapply lookup_lt_Some).
    apply list_lookup_insert_eq. by eapply lookup_lt_Some. }
  destruct (creating p) eqn:Hc.
  - destruct (move_creating _ _ _ _ _ _ H Hc) as [?|[-> [?|Hsp]]]; [left; eauto|congruence|right].
    destruct (move_tid _ _ _ _ _ _ _ _ H) as [[E _]|(_ & _ & Ht & _)]; [congruence|].
    exists A_start. split; [|done]. rewrite Hsp, lookup_app_r, Ht, length_insert, Nat.sub_diag by (rewrite length_insert; lia). done.
  - destruct (creating p') eqn:Hc'; [left; eauto|].
    assert (Hon : aging_enable s = true).
    { pose proof (move_flag _ _ _ _ _ _ _ _ H) as Hf.
      destruct p; simpl in Hf, Hc; try congruence. exfalso. move_inv H. discriminate Hc'. }
    destruct (t_on _ _ T Hon) as [(j & q & Hj & Hq)|?].
    + left. exists j, q. split; [|done]. assert (j ≠ i) by (intros ->; congruence).
      rewrite lookup_app_l by (rewrite length_insert; by eapply lookup_lt_Some). by rewrite list_lookup_insert_ne.
    + right. apply ager_kept; [|done]. by intros ->.
Qed.

Lemma off_step j q :
  (<[i := p']> ps ++ sp) !! j = Some q → disabling q = true → ager_at s' (<[i := p']> ps ++ sp).
Proof.
  intros Hj Hq.
  destruct (lookup_moved _ _ _ _ _ _ Hj (move_spawned _ _ _ _ _ _ _ _ _ H)) as [[-> ->]|[[Hne Hj']| ->]]; [| |done].
  - destruct (move_disabling _ _ _ _ _ _ H Hq) as [Hp|[He [b Hb]]].
    + apply ager_kept; [by intros ->|by eapply (t_off _ _ T)].
    + apply ager_kept; [by rewrite Hb|]. destruct (t_on _ _ T He) as [(j & r & Hr & Hc)|?]; [exfalso|done].
      assert (Hij : j = i) by (apply (busy_here j r); [done|by apply creating_busy|rewrite Hb; by destruct b]).
      rewrite Hij, Hi, Hb in Hr. by injection Hr as <-.
  - apply ager_kept; [|by eapply (t_off _ _ T)]. intros Hp. exfalso. apply Hne.
    apply (busy_here j q); [done|by apply disabling_busy|by rewrite Hp].
Qed.

Lemma tid_step : tid_ok s' (<[i := p']> ps ++ sp).
Proof. split; [apply on_step|apply off_step]. Qed.
End Step.

Lemma tid_reachable c : pool_state allowed capacity n k c → tid_ok (sh c) (pcs c).
Proof.
  intros [Hlim Hr]. eapply (reach_ind pcode holds tid_ok); [apply code_disciplined|apply init_initial| | |exact Hr].
  - assert (Hno : Forall (λ p, disabling p = false) (pcs (init_config n k))).
    { rewrite init_pcs. repeat apply Forall_app_2; [|by apply Forall_replicate|by constructor].
      apply Forall_fmap, Forall_forall. by intros w _. }
    split; [done|]. intros i p Hi Hp. rewrite Forall_lookup in Hno. by rewrite (Hno i p Hi) in Hp.
  - intros c0 i p p' s' sp Hr0 _ _ T _ Hi H.
    destruct (pool_state_inv allowed capacity n k c0 (conj Hlim Hr0)) as (I & A & _).
    destruct Hlim as (_ & Hcap & _). by eapply tid_step.
Qed.
End Tid.

(** ** What destroy leaves behind *)

(** About to sleep on [cv], under its mutex. *)
Definition near (cv : cond_id) (p : pc) : bool :=
  match cv, p with
  | CNotEmpty, W_pop_wait _ => true
  | CPause, (W_pause_wait _ | A_p_shut _ | A_p_enable _ | A_p_wait _) => true
  | CAging, (A_enable _ | A_clock _ | A_wait _) => true
  | _, _ => false
  end.

Definition guard_of (cv : cond_id) : mutex_id :=
  match cv with CNotEmpty => MPq | CDrain => MDrain | CPause => MPause | CAging => MAging end.

Definition dozing (cv : cond_id) (st : pstatus) : bool :=
  match st with
  | Running p => near cv p
  | Waiting cv' _ _ => bool_decide (cv' = cv)
  | Relocking _ _ => false
  end.

Definition closed (cv : cond_id) (th : list pstatus) : Prop :=
  ∀ i st, th !! i = Some st → dozing cv st = false.

(** Destroy has woken the sleepers on [cv] for the last time. *)
Definition past (cv : cond_id) (d : pc) : bool :=
  match cv, d with
  | CNotEmpty, (D_wlock | D_wbcast) => false
  | CPause, (D_wlock | D_wbcast | D_wunlock | D_plock | D_pbcast) => false
  | (CNotEmpty | CPause), _ => (4 <=? phase d)%nat
  | CAging, (X_unlock b | X_plock b | X_pbcast b | X_punlock b | X_join b) => b
  | _, _ => false
  end.

(** A worker that has given up on the queue. *)
Definition leaving (p : pc) : bool := match p with W_pop_null _ | W_exit _ => true | _ => false end.

(** A worker that has counted the last task off and will signal. *)
Definition signalling (p : pc) : bool := match p with W_drain_lock _ | W_drain_signal _ => true | _ => false end.

(** Destroy sleeps until the tasks are done, or is about to. *)
Definition drowsy (st : pstatus) : bool :=
  match st with Running D_wait => true | Waiting CDrain _ _ => true | _ => false end.

Section Doze.
Context (capacity : nat).
Abbreviation quiet := (code no_calls capacity true).

Lemma near_guard cv p : near cv p = true → holds p (guard_of cv) = true.
Proof. by destruct cv, p. Qed.

Lemma near_role cv p : role_of p = Destroyer → near cv p = false.
Proof. by destruct cv, p. Qed.

Lemma near_move cv ps p s s' p' sp :
  move quiet ps p s s' p' sp → shutdown s = true → paused s = false → near cv p' = true → near cv p = true.
Proof. intros H Hs Hp. by_cases H; simpl; try congruence; destruct cv; done. Qed.

Lemma wait_near cv m p p' : quiet p = AWait cv m p' → cv = CDrain ∨ near cv p = true.
Proof. destruct p; try discriminate; intros [= <- <- <-]; auto. Qed.

Lemma resume_not_near cv cv' m p p' : quiet p = AWait cv m p' → near cv' p' = false.
Proof. destruct p; try discriminate; intros [= <- <- <-]; by destruct cv'. Qed.

Lemma past_phase cv d : past cv d = true → (4 ≤ phase d)%nat.
Proof. destruct cv, d; simpl; try discriminate; try lia; destruct k; try discriminate; lia. Qed.

(** How destroy gets behind its wakeups. *)
Lemma move_past cv ps p s s' p' sp :
  move quiet ps p s s' p' sp → role_of p = Destroyer → past cv p' = true →
  past cv p = true ∨
  (holds p (guard_of cv) = true ∧ (quiet p = ABroadcast cv p' ∨ (cv = CAging ∧ quiet p = ASignal cv p'))).
Proof.
  intros H Hr. by_cases H; try discriminate Hr; try (destruct cv; by auto).
  all: try (destruct k; try discriminate Hr); destruct cv; by auto.
Qed.

Lemma move_paused ps p s s' p' sp :
  move quiet ps p s s' p' sp → in_call p = 0 →
  paused s' = false ∨
  (paused s' = paused s ∧ (role_of p = Destroyer → (3 ≤ phase p')%nat → (3 ≤ phase p)%nat)).
Proof.
  intros H Hc. by_cases H; try discriminate Hc; auto; right; (split; [done|]); try (intros _; simpl; lia); try discriminate.
  all: destruct k; try discriminate; simpl; lia.
Qed.

Lemma move_leaving ps p s s' p' sp :
  move quiet ps p s s' p' sp → leaving p' = true →
  leaving p = true ∨ (∃ w, p = W_pop_shut w) ∨ ∃ w, p = W_pop_take w.
Proof. intros H. by_cases H; intros Hp; try discriminate Hp; eauto. Qed.

(** Only workers count tasks off by now. *)
Lemma move_counted ps p s s' p' sp :
  move quiet ps p s s' p' sp → in_call p = 0 → in_flight p = 0 →
  total_task_in_system s' = total_task_in_system s ∨
  ∃ w, p = W_dec w ∧ total_task_in_system s' = i32 (total_task_in_system s - 1) ∧
    (total_task_in_system s = 1 → p' = W_drain_lock w).
Proof.
  intros H Hc Hf. by_cases H; try discriminate Hc; try discriminate Hf; auto;
  right; exists w; (split_and!; [done..|]); [done|intros; exfalso; lia].
Qed.

Lemma move_drowsy ps p s s' p' sp :
  move quiet ps p s s' p' sp → p' = D_wait → 0 < total_task_in_system s'.
Proof. intros H. by_cases H; intros E; try discriminate E; lia. Qed.

Lemma move_signalling ps p s s' p' sp :
  move quiet ps p s s' p' sp → signalling p = true →
  signalling p' = true ∨ (holds p MDrain = true ∧ quiet p = ASignal CDrain p').
Proof. intros H. by_cases H; intros E; try discriminate E; auto. Qed.

(** A worker that has seen a task gets it. *)
Lemma take_stays ps w s s' p' sp L :
  move quiet ps (W_pop_take w) s s' p' sp → balanced s ps L → ready_mask (pq s) ≠ 0 → leaving p' = false.
Proof.
  intros H B Hpk. destruct (take_body_ok _ _ _ B Hpk) as (t & L1 & h1 & q1 & Hr1 & _).
  move_inv H. rewrite Hr1 in Hrun. by injection Hrun as <- _ _.
Qed.

Lemma queued_none ps p s s' p' sp : move quiet ps p s s' p' sp → in_flight p = 0 → queued_by p p' ≤ 0.
Proof. intros H Hf. by_cases H; try discriminate Hf; unfold queued_by; simpl; lia. Qed.
End Doze.

Section Closing.
Context (allowed : api → bool) (capacity n k : nat).
Abbreviation pstate := (pool_state allowed capacity n k).
Abbreviation quiet := (code no_calls capacity true).
Abbreviation qstep := (step quiet).
Abbreviation shutting := (shutting allowed capacity n k).

Record closing (c : pconfig) (d : pc) : Prop := {
  c_shut : shutting c d;
  c_paused : (3 ≤ phase d)%nat → paused (sh c) = false;
  c_closed cv : past cv d = true → closed cv (threads c);
  c_empty i p : pcs c !! i = Some p → leaving p = true → size (pq (sh c)) = 0;
  c_signal st : threads c !! (n + k)%nat = Some st → drowsy st = true → total_task_in_system (sh c) = 0 →
    ∃ i p, threads c !! i = Some (Running p) ∧ signalling p = true
}.

(** What the step of one thread means for destroy. *)
Lemma dest_same c c' d d' : shutting c d → shutting c' d' → pcs c' = pcs c → d' = d.
Proof.
  intros S S' E. pose proof (sd_at _ _ _ _ _ _ S) as H. pose proof (sd_at _ _ _ _ _ _ S') as H'.
  rewrite E in H'. rewrite H in H'. by injection H' as ->.
Qed.

Lemma dest_move c c' d d' i p p' sp :
  shutting c d → shutting c' d' → pcs c !! i = Some p → pcs c' = <[i := p']> (pcs c) ++ sp →
  (i = (n + k)%nat ∧ p = d ∧ p' = d' ∧ role_of p = Destroyer) ∨ (i ≠ (n + k)%nat ∧ role_of p ≠ Destroyer ∧ d' = d).
Proof.
  intros S S' Hi E. pose proof (sd_at _ _ _ _ _ _ S) as H. pose proof (sd_at _ _ _ _ _ _ S') as H'.
  rewrite E, lookup_app_l in H' by (rewrite length_insert; by eapply lookup_lt_Some).
  destruct (decide (i = (n + k)%nat)) as [->|Hne]; [left|right].
  - rewrite Hi in H. injection H as ->. rewrite list_lookup_insert_eq in H' by by eapply lookup_lt_Some.
    injection H' as ->. split_and!; try done. destruct (sd_inv _ _ _ _ _ _ S) as [I _].
    destruct (inv_role _ _ _ _ _ I _ _ Hi) as [[? _]|[[? _]|[[_ ?]|[? _]]]]; done || lia.
  - rewrite list_lookup_insert_ne, H in H' by done. injection H' as ->. split_and!; try done.
    intros Hr. destruct (sd_destroyer _ _ _ _ _ _ S i p Hi Hr). done.
Qed.

Section Now.
Context (c : pconfig) (d : pc) (S : shutting c d).

Lemma spawn_lookup (th : list pstatus) i p' sp j st :
  (<[i := Running p']> th ++ (Running <$> sp)) !! j = Some st → sp = [] ∨ sp = [A_start] →
  (j = i ∧ st = Running p') ∨ (j ≠ i ∧ th !! j = Some st) ∨ st = Running A_start.
Proof.
  intros H Hsp. apply lookup_app_Some in H as [H|[_ H]].
  - apply list_lookup_insert_Some in H as [(-> & <- & _)|[? H]]; auto.
  - right. right. destruct Hsp as [-> | ->]; [done|]. by apply list_lookup_singleton_Some in H as [_ <-].
Qed.

Lemma alone i j p st m :
  threads c !! i = Some (Running p) → threads c !! j = Some st → holds p m = true → status_holds holds st m = true → i = j.
Proof.
  intros Hi Hj Hp Hst. destruct (sd_sleepers _ _ _ _ _ _ S) as [Ho _].
  apply (owned_exclusive holds c m); [done|..]; unfold hold_at; by rewrite ?Hi, ?Hj.
Qed.

(** Only the living aging thread sleeps on [aging_cond], only destroy on [drain_cond]. *)
Lemma aging_sleeper i m p : threads c !! i = Some (Waiting CAging m p) → i = aging_tid (sh c).
Proof.
  intros Hi. destruct (sd_sleepers _ _ _ _ _ _ S) as [_ Hsl]. destruct (Hsl _ _ Hi) as (_ & q & Hq).
  destruct (sd_inv _ _ _ _ _ _ S) as [_ A]. apply pcs_lookup in Hi. simpl in Hi.
  destruct (a_alive _ _ A i p Hi) as [? _]; [|done]. destruct q; try discriminate Hq. by injection Hq as <- <-.
Qed.

Lemma drain_sleeper i m p : threads c !! i = Some (Waiting CDrain m p) → i = (n + k)%nat.
Proof.
  intros Hi. destruct (sd_sleepers _ _ _ _ _ _ S) as [_ Hsl]. destruct (Hsl _ _ Hi) as (_ & q & Hq).
  apply pcs_lookup in Hi. simpl in Hi. destruct (sd_calm _ _ _ _ _ _ S i p Hi) as [Hc _].
  destruct q; try discriminate Hq; injection Hq as <- <-; [done|].
  by apply (sd_destroyer _ _ _ _ _ _ S i D_check).
Qed.

(** A broadcast closes out all sleepers, and so does the signal for the one aging thread. *)
Lemma now_closed cv i p p' th sp :
  threads c !! i = Some (Running p) → stirs (quiet p) (threads c) th → sp = [] ∨ sp = [A_start] →
  near cv p' = false →
  holds p (guard_of cv) = true → quiet p = ABroadcast cv p' ∨ (cv = CAging ∧ quiet p = ASignal cv p') →
  closed cv (<[i := Running p']> th ++ (Running <$> sp)).
Proof.
  intros Hi Ht Hsp Hn Hg Hq j st Hj.
  destruct (spawn_lookup _ _ _ _ _ _ Hj Hsp) as [[-> ->]|[[Hne Hj']| ->]]; [done| |by destruct cv].
  assert (Hrun : ∀ q, threads c !! j = Some (Running q) → near cv q = false).
  { intros q Hr. destruct (near cv q) eqn:E; [|done]. exfalso. apply Hne. symmetry.
    eapply alone; [exact Hi|exact Hr|exact Hg|by apply near_guard]. }
  destruct Ht as [Hsig Hbc|cv' q j0 m0 pj Ha Hj0|cv' q Ha]; [|rewrite Ha in Hq..].
  - destruct Hq as [Hq|[-> Hq]]; [by destruct (Hbc _ _ Hq)|]. specialize (Hsig _ _ Hq).
    rewrite Forall_lookup in Hsig. specialize (Hsig _ _ Hj'). destruct st as [q|cv' m q|m q]; simpl in *; auto.
  - destruct Hq as [Hq|[-> Hq]]; [discriminate Hq|]. injection Hq as -> ->.
    apply list_lookup_insert_Some in Hj' as [(-> & <- & _)|[Hn' Hj']]; [done|].
    destruct st as [q|cv' m q|m q]; simpl in *; [by auto| |done]. case_bool_decide as E; [|done]. subst cv'. exfalso. apply Hn'.
    by rewrite (aging_sleeper _ _ _ Hj0), (aging_sleeper _ _ _ Hj').
  - destruct Hq as [Hq|[-> Hq]]; [|discriminate Hq]. injection Hq as -> _.
    rewrite list_lookup_fmap in Hj'. destruct (threads c !! j) as [st0|] eqn:E; [|done]. injection Hj' as <-.
    destruct st0 as [q'|cv' m q'|m q']; simpl; [by auto| |done]. case_decide; [done|]. simpl. by case_bool_decide.
Qed.

(** A signal on [drain_cond] wakes destroy. *)
Lemma drain_signalled i p p' th st st' :
  threads c !! i = Some (Running p) → holds p MDrain = true → quiet p = ASignal CDrain p' →
  stirs (quiet p) (threads c) th → threads c !! (n + k)%nat = Some st → drowsy st = true →
  th !! (n + k)%nat = Some st' → drowsy st' = false.
Proof.
  intros Hi Hh Hq Ht Hd Hw Hd'. destruct st as [q|cv m q|m q]; [| |done].
  { destruct q; try discriminate Hw. pose proof (alone _ _ _ _ MDrain Hi Hd Hh eq_refl) as ->.
    rewrite Hd in Hi. injection Hi as <-. discriminate Hq. }
  destruct cv; try discriminate Hw.
  destruct Ht as [Hsig Hbc|cv' q' j0 m0 pj Ha Hj0|cv' q' Ha]; [|rewrite Ha in Hq; injection Hq as -> ->|congruence].
  - specialize (Hsig _ _ Hq). rewrite Forall_lookup in Hsig. by specialize (Hsig _ _ Hd).
  - rewrite (drain_sleeper _ _ _ Hj0) in Hd'. rewrite list_lookup_insert_eq in Hd' by by eapply lookup_lt_Some.
    by injection Hd' as <-.
Qed.
End Now.

Section Step.
Context (c c' : pconfig) (d d' : pc).
Context (C : closing c d) (S' : shutting c' d') (Hs : qstep c c').
Let S : shutting c d := c_shut c d C.

Lemma paused_step : (3 ≤ phase d')%nat → paused (sh c') = false.
Proof.
  destruct (step_pcs _ _ _ Hs) as [[E1 E2]|(i & p & p' & sp & Hi & Hm & E)].
  - rewrite E1, (dest_same c c' d d' S S' E2). apply C.
  - apply pcs_lookup in Hi. simpl in Hi. destruct (sd_calm _ _ _ _ _ _ S i p Hi) as [Hc _].
    intros Hph. destruct (move_paused _ _ _ _ _ _ _ Hm Hc) as [?|[-> Hd]]; [done|]. apply (c_paused _ _ C).
    destruct (dest_move c c' d d' i p p' sp S S' Hi E) as [(-> & -> & -> & Hr)|(_ & _ & ->)]; auto.
Qed.

Lemma size_members_moved i p p' sp :
  pcs c !! i = Some p → move quiet (pcs c) p (sh c) (sh c') p' sp → pcs c' = <[i := p']> (pcs c) ++ sp →
  size (pq (sh c')) = size (pq (sh c)) + queued_by p p' ∧ 0 ≤ size (pq (sh c')).
Proof.
  intros Hi Hm E. destruct (size_members _ _ _ _ _ _ S) as (L & B & ->). destruct (size_members _ _ _ _ _ _ S') as (L' & B' & ->).
  split; [|lia].
  eapply (members_moved allowed capacity n k c c'); try done; [apply S|apply S'|by apply calm_move].
Qed.

Lemma empty_step i p : pcs c' !! i = Some p → leaving p = true → size (pq (sh c')) = 0.
Proof.
  destruct (step_pcs _ _ _ Hs) as [[E1 E2]|(j & q & q' & sp & Hj & Hm & E)].
  { rewrite E1, E2. apply C. }
  apply pcs_lookup in Hj. simpl in Hj. intros Hi Hl. destruct (size_members_moved j q q' sp Hj Hm E) as [Hsz Hge].
  destruct (sd_calm _ _ _ _ _ _ S j q Hj) as [_ Hf]. pose proof (queued_none _ _ _ _ _ _ _ Hm Hf).
  assert (Hold : size (pq (sh c)) = 0 → size (pq (sh c')) = 0) by lia.
  rewrite E in Hi. destruct (lookup_moved _ _ _ _ _ _ Hi (move_spawned _ _ _ _ _ _ _ _ _ Hm)) as [[-> ->]|[[_ ?]| ->]];
    [|by apply Hold, (c_empty _ _ C i p)|done].
  destruct (sd_inv _ _ _ _ _ _ S) as [I _]. destruct (size_members _ _ _ _ _ _ S) as (L & B & Hsize).
  pose proof (v_peek _ _ _ _ _ I _ _ Hj) as Hpk.
  destruct (move_leaving _ _ _ _ _ _ _ Hm Hl) as [?|[[w ->]|[w ->]]]; [by eapply Hold, (c_empty _ _ C)| |].
  - apply Hold. rewrite Hsize. simpl in Hpk. apply (repr_mask_zero (b_repr _ _ _ B)) in Hpk. by rewrite Hpk.
  - by rewrite (take_stays _ _ _ _ _ _ _ _ Hm B Hpk) in Hl.
Qed.

(** Sleepers stay closed out when destroy is past their broadcast. *)
Lemma still_closed cv : past cv d = true → closed cv (threads c').
Proof.
  intros Hp. pose proof (c_closed _ _ C cv Hp) as Hcl. pose proof (past_phase _ _ Hp) as Hph.
  assert (Hins : ∀ i st, dozing cv st = false → closed cv (<[i := st]> (threads c))).
  { intros i st Hst j st' Hj. apply list_lookup_insert_Some in Hj as [(-> & <- & _)|[_ Hj]]; [done|by eapply Hcl]. }
  destruct (step_deed _ _ _ Hs) as [i cv' m p Hi|i m p Hi Ho|i p cv' m p' Hi Hq Ho|i p s' o' p' th sp Hi Hq Ht Hm]; simpl.
  - by apply Hins.
  - apply Hins. destruct (sd_sleepers _ _ _ _ _ _ S) as [_ Hsl]. destruct (Hsl _ _ Hi) as (_ & q & cv' & Hq).
    by eapply resume_not_near.
  - apply Hins. simpl. case_bool_decide as E; [|done]. subst cv'. pose proof (Hcl _ _ Hi) as Hn. simpl in Hn.
    destruct (wait_near _ _ _ _ _ Hq) as [-> |?]; [discriminate Hp|congruence].
  - pose proof (move_spawned _ _ _ _ _ _ _ _ _ Hm) as Hsp. intros j st Hj.
    destruct (spawn_lookup _ _ _ _ _ _ Hj Hsp) as [[-> ->]|[[_ Hj']| ->]]; [| |by destruct cv].
    + simpl. destruct (near cv p') eqn:Hn; [|done].
      rewrite <- (Hcl i _ Hi). symmetry. simpl. eapply near_move; [exact Hm| | |done].
      * apply (sd_shutdown _ _ _ _ _ _ S). lia.
      * apply C. lia.
    + destruct (stirs_lookup _ _ _ _ _ Ht Hj') as (st0 & H0 & [-> |(cv' & m & q & _ & ->)]); [by eapply Hcl|done].
Qed.

Lemma closed_step cv : past cv d' = true → closed cv (threads c').
Proof.
  intros Hp'. destruct (past cv d) eqn:Hp; [by apply still_closed|].
  assert (Hsame : pcs c' = pcs c → False) by (intros E; rewrite (dest_same c c' d d' S S' E) in Hp'; congruence).
  assert (Hget : ∀ i p p' sp, threads c !! i = Some (Running p) → pcs c' = <[i := p']> (pcs c) ++ sp →
    move quiet (pcs c) p (sh c) (sh c') p' sp →
    near cv p' = false ∧ holds p (guard_of cv) = true ∧
    (quiet p = ABroadcast cv p' ∨ (cv = CAging ∧ quiet p = ASignal cv p'))).
  { intros i p p' sp Hi E Hm. apply pcs_lookup in Hi. simpl in Hi.
    destruct (dest_move c c' d d' i p p' sp S S' Hi E) as [(-> & -> & -> & Hr)|(_ & _ & ->)]; [|congruence].
    destruct (move_past _ _ _ _ _ _ _ _ Hm Hr Hp'); [congruence|]. split; [|done].
    rewrite <- (move_role _ _ _ _ _ _ _ _ _ Hm) in Hr. by eapply near_role. }
  destruct (step_deed _ _ _ Hs) as [i cv' m p Hi|i m p Hi Ho|i p cv' m p' Hi Hq Ho|i p s' o' p' th sp Hi Hq Ht Hm].
  - destruct Hsame. by apply (pcs_kept c _ _ _ _ _ Hi).
  - destruct Hsame. by apply (pcs_kept c _ _ _ _ _ Hi).
  - destruct (Hget i p p' [] Hi) as (_ & _ & [E|[_ E]]); [|constructor; by rewrite Hq|congruence..].
    rewrite app_nil_r. by apply pcs_insert.
  - destruct (Hget i p p' sp Hi) as (Hn & Hg & Hw); [by eapply stirs_pcs|done|].
    eapply (now_closed c d S); try done. by eapply move_spawned.
Qed.

Lemma drowsy_step st' :
  threads c' !! (n + k)%nat = Some st' → drowsy st' = true → total_task_in_system (sh c') = 0 →
  ∃ st, threads c !! (n + k)%nat = Some st ∧ drowsy st = true.
Proof.
  intros Hd' Hw Ht. revert Hd'.
  destruct (step_deed _ _ _ Hs) as [i cv m p Hi|i m p Hi Ho|i p cv m p' Hi Hq Ho|i p s' o' p' th sp Hi Hq Hst Hm]; simpl; intros Hd'.
  - apply list_lookup_insert_Some in Hd' as [(_ & <- & _)|[_ Hd']]; [done|eauto].
  - apply list_lookup_insert_Some in Hd' as [(_ & <- & _)|[_ Hd']]; [|eauto]. exfalso.
    destruct (sd_sleepers _ _ _ _ _ _ S) as [_ Hsl]. destruct (Hsl _ _ Hi) as (_ & q & cv & Hq).
    destruct q; try discriminate Hq; by injection Hq as _ _ <-.
  - apply list_lookup_insert_Some in Hd' as [(-> & <- & _)|[_ Hd']]; [|eauto]. exists (Running p).
    split; [done|]. apply pcs_lookup in Hi. simpl in Hi. destruct (sd_calm _ _ _ _ _ _ S _ _ Hi) as [Hc _].
    destruct p; try discriminate Hq; injection Hq as <- <- <-; done.
  - destruct (spawn_lookup _ _ _ _ _ _ Hd' (move_spawned _ _ _ _ _ _ _ _ _ Hm)) as [[_ ->]|[[_ Hj]| ->]]; [exfalso| |done].
    + simpl in Ht. pose proof (move_drowsy _ _ _ _ _ _ _ Hm) as H0. destruct p'; try discriminate Hw. specialize (H0 eq_refl). lia.
    + destruct (stirs_lookup _ _ _ _ _ Hst Hj) as (st & H0 & [-> |(cv' & m & q & _ & ->)]); [eauto|done].
Qed.

Lemma signal_step st' :
  threads c' !! (n + k)%nat = Some st' → drowsy st' = true → total_task_in_system (sh c') = 0 →
  ∃ i p, threads c' !! i = Some (Running p) ∧ signalling p = true.
Proof.
  intros Hd' Hw Ht. destruct (drowsy_step st' Hd' Hw Ht) as (st & Hd & Hw0). pose proof (c_signal _ _ C st Hd Hw0) as Hold.
  revert Hd' Ht.
  destruct (step_deed _ _ _ Hs) as [i cv m p Hi|i m p Hi Ho|i p cv m p' Hi Hq Ho|i p s' o' p' th sp Hi Hq Hst Hm];
    cbn [threads sh]; intros Hd' Ht.
  - destruct (Hold Ht) as (j & q & Hj & Hq). exists j, q. split; [|done]. rewrite list_lookup_insert_ne; [done|congruence].
  - destruct (Hold Ht) as (j & q & Hj & Hq). exists j, q. split; [|done]. rewrite list_lookup_insert_ne; [done|congruence].
  - destruct (Hold Ht) as (j & q & Hj & Hq'). exists j, q. split; [|done]. rewrite list_lookup_insert_ne; [done|].
    intros ->. rewrite Hi in Hj. injection Hj as ->. destruct q; discriminate.
  - assert (Hat : (<[i := Running p']> th ++ (Running <$> sp)) !! i = Some (Running p')).
    { apply lookup_app_l_Some, list_lookup_insert_eq. rewrite (stirs_length _ _ _ Hst). by eapply lookup_lt_Some. }
    pose proof (pcs_lookup _ _ _ Hi) as Hpi. simpl in Hpi. destruct (sd_calm _ _ _ _ _ _ S _ _ Hpi) as [Hc Hf].
    destruct (move_counted _ _ _ _ _ _ _ Hm Hc Hf) as [E|(w & -> & E & Hone)].
    + rewrite E in Ht. destruct (Hold Ht) as (j & q & Hj & Hq'). destruct (decide (j = i)) as [->|Hne].
      * rewrite Hi in Hj. injection Hj as <-.
        destruct (move_signalling _ _ _ _ _ _ _ Hm Hq') as [?|[Hh Ha]]; [eauto|exfalso].
        destruct (spawn_lookup _ _ _ _ _ _ Hd' (move_spawned _ _ _ _ _ _ _ _ _ Hm)) as [[E' _]|[[_ Hj]| ->]]; [| |done].
        -- rewrite E', Hi in Hd. injection Hd as <-. destruct p; discriminate.
        -- by rewrite (drain_signalled c d S _ _ _ _ _ _ Hi Hh Ha Hst Hd Hw0 Hj) in Hw.
      * exists j, q. split; [|done]. apply lookup_app_l_Some. rewrite list_lookup_insert_ne by done.
        by apply (stirs_running _ _ _ _ _ Hst).
    + exists i, (W_drain_lock w). split; [|done]. rewrite <- Hone; [done|]. rewrite E in Ht.
      destruct (sd_inv _ _ _ _ _ _ S) as [I _]. destruct (v_balance _ _ _ _ _ I) as [L B].
      destruct (sd_state _ _ _ _ _ _ S) as [(_ & Hcap & _) _].
      rewrite (total_exact _ _ _ Hcap _ _ I L B) in *. pose proof (outstanding_bound _ _ _ _ _ I L B).
      rewrite i32_small in Ht by lia. lia.
Qed.
End Step.

Lemma closing_step c d c' : closing c d → qstep c c' → ∃ d', closing c' d'.
Proof.
  intros C Hs. destruct (shutting_step _ _ _ _ _ _ _ (c_shut _ _ C) Hs) as (d' & S' & _). exists d'.
  split; [done|by eapply paused_step|by eapply closed_step|by eapply empty_step|by eapply signal_step].
Qed.

(** Destroy is called with no submit in flight. *)
Lemma closing_start c :
  pstate c → threads c !! (n + k)%nat = Some (Running D_shut) → in_flight_submits (sh c) = 0 → closing c D_shut.
Proof.
  intros Hc Hd Hf. destruct (pool_state_inv _ _ _ _ c Hc) as (I & _). destruct Hc as [(Ha & Hcap & Hk) Hr].
  pose proof (pcs_lookup _ _ _ Hd) as Hpd. simpl in Hpd.
  assert (S : shutting c D_shut).
  { split; [done|done|simpl; lia|]. rewrite (v_flight _ _ _ _ _ I) in Hf. pose proof (flight_bound _ _ _ _ _ I).
    rewrite u32_small in Hf; lia. }
  split; [done|simpl; lia|by destruct cv| |].
  - intros i p Hi Hl. pose proof (v_pcs _ _ _ _ _ I) as Hok. rewrite Forall_lookup in Hok. specialize (Hok i p Hi).
    pose proof (d_shutdown _ _ _ _ (sd_dest _ _ _ _ _ _ S)) as Hsh. destruct p; try discriminate Hl; simpl in Hok, Hsh; congruence.
  - rewrite Hd. by intros st [= <-].
Qed.

Lemma closing_run c d c' : closing c d → rtc qstep c c' → ∃ d', closing c' d'.
Proof.
  intros C Hr. revert d C. induction Hr as [c|c c1 c' Hs Hr IH]; intros d C; [eauto|].
  destruct (closing_step _ _ _ C Hs) as [d1 C1]. by eapply IH.
Qed.

(** ** Where a run stops *)

Section Stuck.
Context (c : pconfig) (d : pc) (C : closing c d) (Hnf : nf (prompted quiet timed) c).
Let S : shutting c d := c_shut c d C.

Lemma branch_runs f s b yes no :
  branch b yes no = AStep f → p_freed s = false → ∃ z s' p', f z s = Next s' p'.
Proof. intros [= <-] Hf. exists Tau. rewrite Hf. eauto. Qed.

Lemma atom_runs f s g : atom g = AStep f → p_freed s = false → ∃ z s' p', f z s = Next s' p'.
Proof. intros [= <-] Hf. exists Tau. rewrite Hf. destruct (g s). eauto. Qed.

Lemma queue_runs {A} f s (m : QM A) g a h q :
  queue_step m g = AStep f → p_freed s = false → m (p_heap s, pq s) = Ok (a, (h, q)) →
  ∃ z s' p', f z s = Next s' p'.
Proof. intros [= <-] Hf Hm. exists Tau. rewrite Hf, Hm. destruct (g _ _). eauto. Qed.

(** No atomic step of the pool waits for anything. *)
Lemma step_runs i p f :
  threads c !! i = Some (Running p) → quiet p = AStep f →
  (∃ r, p = C_idle r) ∨ ∃ z s' p', f z (sh c) = Next s' p'.
Proof.
  intros Hth Hp. pose proof (pcs_lookup _ _ _ Hth) as Hi. simpl in Hi.
  destruct (sd_inv _ _ _ _ _ _ S) as [I A]. destruct (sd_calm _ _ _ _ _ _ S i p Hi) as [Hc Hf].
  destruct (p_freed (sh c)) eqn:Hfr.
  { pose proof (freed_quiet _ _ _ _ _ _ _ I A Hfr Hi) as Hq. destruct p; try discriminate Hq; try discriminate Hp. eauto. }
  destruct (v_balance _ _ _ _ _ I) as [L B]. pose proof (v_peek _ _ _ _ _ I i p Hi) as Hpk.
  pose proof (v_pcs _ _ _ _ _ I) as Hok. rewrite Forall_lookup in Hok. specialize (Hok i p Hi).
  assert (Hts : ts_okb (mk_ts 0 0) = true) by done.
  destruct p; unfold_code Hp; try discriminate Hp; try discriminate Hc; try discriminate Hf; try (left; by eexists); right;
    try (by eapply branch_runs); try (by eapply atom_runs); simpl in Hpk, Hok.
  - destruct (take_body_ok _ _ _ B Hpk) as (t & L' & h' & q' & Hr & _). by eapply queue_runs.
  - destruct (own_node _ _ _ _ _ B Hi t eq_refl) as (task & Ht & _). eapply queue_runs; [done..|by eapply load_task_ok].
  - destruct (own_node _ _ _ _ _ B Hi t eq_refl) as (task & Ht & _). eapply queue_runs; [done..|by eapply free_task_ok].
  - injection Hp as <-. exists Tau. rewrite Hfr.
    destruct (sd_state _ _ _ _ _ _ S) as [(_ & Hcap & _) _]. pose proof (total_exact _ _ _ Hcap _ _ I L B) as Ht.
    pose proof (outstanding_bound _ _ _ _ _ I L B). pose proof (tally_ge counted _ i _ counted_nonneg Hi) as Hge.
    simpl in Hge. assert (is_i32 (total_task_in_system (sh c) - 1) = true) as -> by (unfold is_i32; lia). eauto.
  - injection Hp as <-. exists (Clock (mk_ts 0 0)). rewrite Hts.
    destruct (timespec_add_ms_ok (mk_ts 0 0) iv (ts_okb_ok _ Hts) (proj1 Hok)) as (ts & -> & _). eauto.
  - injection Hp as <-. exists (Clock (mk_ts 0 0)). rewrite Hts. eauto.
  - destruct Hok as (_ & Hms & Hnow).
    assert (Ht : times_ok (p_heap (sh c))) by (intros x t Hxt; by apply (b_nodes _ _ _ B x)).
    destruct up.
    + destruct (promote_refines _ _ _ now ms 1 2 (b_repr _ _ _ B)) as (h' & q' & Hr & _); try done; try lia. by eapply queue_runs.
    + destruct (promote_refines _ _ _ now ms 0 1 (b_repr _ _ _ B)) as (h' & q' & Hr & _); try done; try lia. by eapply queue_runs.
  - exfalso. pose proof (sd_phase _ _ _ _ _ _ S). destruct (sd_destroyer _ _ _ _ _ _ S i D_idle Hi eq_refl) as [_ <-]. simpl in *. lia.
  - destruct (destroy_body_ok _ _ _ (b_repr _ _ _ B)) as (h' & q' & Hr & _). by eapply queue_runs.
Qed.

(** Destroy is past its first step. *)
Lemma nf_phase : (2 ≤ phase d)%nat.
Proof.
  pose proof (sd_phase _ _ _ _ _ _ S) as H1. destruct (decide (phase d = 1%nat)) as [E|]; [exfalso|lia].
  assert (d = D_shut) as Ed by (destruct d; try discriminate E; try done; by destruct k0).
  pose proof (sd_at _ _ _ _ _ _ S) as Hd. rewrite Ed in Hd. unfold pcs in Hd. rewrite list_lookup_fmap in Hd.
  destruct (threads c !! (n + k)%nat) as [st|] eqn:Hst; [|done]. injection Hd as Hd.
  destruct (sd_sleepers _ _ _ _ _ _ S) as [_ Hsl]. specialize (Hsl _ _ Hst).
  destruct st as [q|cv m q|m q]; simpl in Hd; subst q.
  - pose proof (d_freed _ _ _ _ (sd_dest _ _ _ _ _ _ S)) as Hfr. rewrite Ed in Hfr. simpl in Hfr.
    eapply (nf_change quiet timed c Hnf _ _ (mk_config _ _ _) (Running D_unpause)); [exact Hst| | |done].
    + eapply (step_atom _ _ _ D_shut _ Tau); [exact Hst|reflexivity|]. cbn beta. by rewrite Hfr.
    + apply list_lookup_insert_eq. by eapply lookup_lt_Some.
  - destruct Hsl as (_ & q & Hq). destruct q; discriminate Hq.
  - destruct Hsl as (_ & q & cv & Hq). destruct q; discriminate Hq.
Qed.

(** A thread that moves comes nearer to its end, so it does move. *)
Lemma nf_moves i p s' p' sp :
  threads c !! i = Some (Running p) → sleeps (quiet p) = false → move quiet (pcs c) p (sh c) s' p' sp → p' ≠ p.
Proof.
  intros Hi Hsl Hm ->.
  apply pcs_lookup in Hi as Hp. simpl in Hp. destruct (sd_calm _ _ _ _ _ _ S i p Hp) as [Hc Hf].
  pose proof nf_phase as Hph.
  assert (Hd : role_of p = Destroyer → p = d) by (intros Hr; by apply (sd_destroyer _ _ _ _ _ _ S i p)).
  assert (Hidle : p ≠ D_idle) by (intros ->; rewrite <- (Hd eq_refl) in Hph; simpl in Hph; lia).
  assert (Hshut : p ≠ D_shut) by (intros ->; rewrite <- (Hd eq_refl) in Hph; simpl in Hph; lia).
  assert (Hb : join_bound n p).
  { pose proof (d_bound _ _ _ _ (sd_dest _ _ _ _ _ _ S)) as Hbd. destruct p; try done; by rewrite <- (Hd eq_refl) in Hbd. }
  destruct (move_rank _ n 0 _ _ _ _ _ _ Hm Hsl (sd_shutdown _ _ _ _ _ _ S Hph) (sd_no_flight _ _ _ _ _ _ S)
    (sd_num _ _ _ _ _ _ S) Hc Hf Hb Hidle Hshut) as (_ & _ & Hlt).
  assert (queued_by p p = 0) as Hq by (unfold queued_by; destruct (touches p); lia).
  assert (0 ≤ stir_cost (wake_one n) 0 (quiet p)); [|lia].
  pose proof (wake_nonneg n 0). destruct (quiet p); simpl; lia.
Qed.

(** Which actions can be stuck. *)
Lemma nf_blocked i p :
  threads c !! i = Some (Running p) →
  match quiet p with
  | ALock m _ => ∃ j, owner c m = Some j
  | AJoin tid _ => ¬ exited quiet c (tid (sh c))
  | AExit => True
  | AStep _ => ∃ r, p = C_idle r
  | _ => False
  end.
Proof.
  intros Hi. destruct (sd_sleepers _ _ _ _ _ _ S) as [Ho Hsl].
  pose proof (stuck_action quiet holds timed c (code_disciplined no_calls capacity true) Ho Hnf nf_moves i p Hi) as Hb.
  destruct (quiet p) as [m p'|m p'|cv m p'|cv p'|cv p'|tid p'|entry created failed|f|] eqn:Hp; try done.
  destruct (step_runs i p f Hi Hp) as [?|(z & s' & p' & Hf)]; [done|by destruct (Hb z s' p')].
Qed.

Lemma resume_holds m q cv m' p : quiet q = AWait cv m' p → holds p m = true → m = m'.
Proof. destruct q; try discriminate; intros [= <- <- <-]; by destruct m. Qed.

Lemma nf_owner m j : owner c m = Some j → ∃ p, threads c !! j = Some (Running p) ∧ holds p m = true.
Proof. destruct (sd_sleepers _ _ _ _ _ _ S) as [Ho Hsl]. eapply (owner_runs quiet holds); [done..|apply resume_holds]. Qed.

(** Inside a critical section a thread only ever waits for the lock of the queue. *)
Lemma nf_unowned m : owner c m = None.
Proof.
  assert (Hpq : ∀ m, m ≠ MAging → owner c m = None).
  { intros m' Hne. destruct (owner c m') as [j|] eqn:E; [exfalso|done]. destruct (nf_owner _ _ E) as (p & Hj & Hp).
    pose proof (nf_blocked j p Hj) as Hb.
    destruct m'; [| | |done]; destruct p; try discriminate Hp; simpl in Hb; try done; by destruct Hb. }
  destruct (decide (m = MAging)) as [->|]; [|by apply Hpq].
  destruct (owner c MAging) as [j|] eqn:E; [exfalso|done]. destruct (nf_owner _ _ E) as (p & Hj & Hp).
  pose proof (nf_blocked j p Hj) as Hb. pose proof (Hpq MPq ltac:(done)) as Hq.
  destruct p; try discriminate Hp; simpl in Hb; try done; destruct Hb as [x Hb]; congruence.
Qed.

(** So a thread has ended, or joins one that has not, or sleeps. *)
Lemma nf_status i st :
  threads c !! i = Some st →
  (∃ p, st = Running p ∧ (quiet p = AExit ∨ (∃ r, p = C_idle r) ∨
     ∃ tid p', quiet p = AJoin tid p' ∧ ¬ exited quiet c (tid (sh c)))) ∨
  (∃ cv m p q, st = Waiting cv m p ∧ quiet q = AWait cv m p ∧ past cv d = false ∧ timed cv = false).
Proof.
  intros Hi. destruct (sd_sleepers _ _ _ _ _ _ S) as [Ho Hsl].
  destruct (stuck_status quiet holds timed c (code_disciplined no_calls capacity true) Ho Hsl Hnf nf_moves i st nf_unowned Hi)
    as [(p & -> & [Hx|[(f & Hp & _)|Hj]])|(cv & m & p & q & -> & Hq & Ht)].
  - left. eauto.
  - left. exists p. split; [done|]. right. left. pose proof (nf_blocked i p Hi) as Hb. by rewrite Hp in Hb.
  - left. eauto.
  - right. exists cv, m, p, q. split_and!; try done. destruct (past cv d) eqn:Hp; [|done].
    pose proof (c_closed _ _ C cv Hp _ _ Hi) as Hz. simpl in Hz. by rewrite bool_decide_eq_true_2 in Hz.
Qed.

(** Behind the broadcasts a worker, or an aging thread behind the signal, has ended. *)
Lemma nf_ended i p :
  pcs c !! i = Some p → past CNotEmpty d = true → past CPause d = true →
  (∃ w, role_of p = Worker w) ∨ (role_of p = Ager ∧ past CAging d = true) →
  threads c !! i = Some (Running p) ∧ quiet p = AExit.
Proof.
  intros Hi Hne Hpa Hr. unfold pcs in Hi. rewrite list_lookup_fmap in Hi.
  destruct (threads c !! i) as [st|] eqn:Hst; [|done]. injection Hi as <-.
  destruct (nf_status i st Hst) as [(p & -> & [Hx|[[r ->]|(tid & p' & Hj & _)]])|(cv & m & p & q & -> & Hq & Hp & Ht)]; cbn [pc_of] in Hr |- *.
  - done.
  - by destruct Hr as [[? Hr]|[Hr _]].
  - destruct p; try discriminate Hj; destruct Hr as [[? Hr]|[Hr _]]; try discriminate Hr; by destruct k0.
  - destruct cv; try congruence; try discriminate Ht; destruct q; try discriminate Hq; injection Hq as <- <-; by destruct Hr as [[? Hr]|[Hr _]].
Qed.

Lemma nf_uncounted : tally counted (pcs c) = 0.
Proof.
  rewrite (tally_const counted 0); [lia|]. unfold pcs. apply Forall_fmap, Forall_lookup. intros i st Hi.
  destruct (nf_status i st Hi) as [(p & -> & [Hx|[[r ->]|(tid & p' & Hj & _)]])|(cv & m & p & q & -> & Hq & _)]; simpl.
  - by destruct p.
  - done.
  - by destruct p.
  - destruct q; try discriminate Hq; by injection Hq as _ _ <-.
Qed.

Lemma nf_no_join b : d = X_join b → False.
Proof.
  intros Ed. pose proof nf_phase as Hph. destruct (tid_reachable _ _ _ _ _ (sd_state _ _ _ _ _ _ S)) as [_ Hoff].
  pose proof (sd_at _ _ _ _ _ _ S) as Hat. rewrite Ed in Hat, Hph. destruct b; simpl in Hph; [|lia].
  destruct (Hoff _ _ Hat eq_refl) as (q & Hq & Hr).
  assert (Hst : threads c !! (n + k)%nat = Some (Running d)).
  { rewrite <- Ed in Hat. unfold pcs in Hat. rewrite list_lookup_fmap in Hat.
    destruct (threads c !! (n + k)%nat) as [st|] eqn:Hst; [|done]. injection Hat as Hd. rewrite Ed in Hd. rewrite Ed.
    destruct (nf_status _ _ Hst) as [(p & -> & _)|(cv & m & p & q' & -> & Hq' & _)]; simpl in Hd; [by rewrite Hd|].
    subst p. destruct q'; discriminate Hq'. }
  apply nf_blocked in Hst. rewrite Ed in Hst. simpl in Hst. apply Hst.
  destruct (nf_ended _ _ Hq) as [Ht Hx]; [by rewrite Ed..|right; by rewrite Ed|]. by exists q.
Qed.

Lemma nf_no_worker_join j : d = D_join j → threads c !! (n + k)%nat = Some (Running d) → False.
Proof.
  intros Ed Hst. apply nf_blocked in Hst. rewrite Ed in Hst. simpl in Hst.
  pose proof (sd_dest _ _ _ _ _ _ S) as D. pose proof (d_bound _ _ _ _ D) as Hb.
  rewrite Ed in Hb. simpl in Hb. destruct (sd_inv _ _ _ _ _ _ S) as [I _].
  pose proof (d_tids _ _ _ _ D) as Htid. rewrite Ed in Htid. specialize (Htid eq_refl).
  assert (Hlk : (tid <$> workers (sh c)) !! j = Some j) by (rewrite Htid; by apply lookup_seq).
  rewrite list_lookup_fmap in Hlk. destruct (workers (sh c) !! j) as [wk|]; [|done]. injection Hlk as Hlk. rewrite Hlk in Hst.
  destruct (lookup_lt_is_Some_2 (pcs c) j) as [p Hp].
  { pose proof (lookup_lt_Some _ _ _ (sd_at _ _ _ _ _ _ S)). lia. }
  destruct (inv_role _ _ _ _ _ I j p Hp) as [[_ Hr]|[[? _]|[[? _]|[? _]]]]; try lia.
  destruct (nf_ended _ _ Hp) as [Ht Hx]; [by rewrite Ed..|eauto|]. apply Hst. by exists p.
Qed.
Lemma nf_not_drowsy m p : (0 < n)%nat → threads c !! (n + k)%nat = Some (Waiting CDrain m p) → p = D_check → False.
Proof.
  intros Hn Hst ->. pose proof (sd_at _ _ _ _ _ _ S) as Hat. rewrite (pcs_lookup _ _ _ Hst) in Hat. injection Hat as Ed.
  destruct (sd_inv _ _ _ _ _ _ S) as [I _]. destruct (lookup_lt_is_Some_2 (pcs c) 0) as [p Hp].
  { pose proof (lookup_lt_Some _ _ _ (sd_at _ _ _ _ _ _ S)). lia. }
  destruct (inv_role _ _ _ _ _ I _ p Hp) as [[_ Hr]|[[? _]|[[? _]|[? _]]]]; try lia.
  destruct (nf_ended _ _ Hp) as [Ht Hx]; [by rewrite <- Ed..|eauto|].
  assert (Hl : leaving p = true) by (destruct p; done).
  destruct (v_balance _ _ _ _ _ I) as [L B]. destruct (sd_state _ _ _ _ _ _ S) as [(_ & Hcap & _) _].
  assert (H0 : total_task_in_system (sh c) = 0).
  { pose proof (c_empty _ _ C _ _ Hp Hl) as Hz. destruct (size_members _ _ _ _ _ _ S) as (L' & B' & Hs').
    rewrite (total_exact _ _ _ Hcap _ _ I L' B'), nf_uncounted. lia. }
  destruct (c_signal _ _ C _ Hst eq_refl H0) as (i & q & Hi & Hq). apply nf_blocked in Hi.
  destruct q; try discriminate Hq; [|done]. destruct Hi as [j Hj]. by rewrite nf_unowned in Hj.
Qed.

Lemma nf_done : (0 < n)%nat → threads c !! (n + k)%nat = Some (Running D_done).
Proof.
  intros Hn. pose proof (sd_at _ _ _ _ _ _ S) as Hat. destruct (sd_inv _ _ _ _ _ _ S) as [I _].
  assert (Hr : role_of d = Destroyer).
  { destruct (inv_role _ _ _ _ _ I _ _ Hat) as [[? _]|[[? _]|[[_ ?]|[? _]]]]; done || lia. }
  unfold pcs in Hat. rewrite list_lookup_fmap in Hat. destruct (threads c !! (n + k)%nat) as [st|] eqn:Hst; [|done].
  injection Hat as Hd.
  destruct (nf_status _ st Hst) as [(p & -> & [Hx|[[r ->]|(tid & p' & Hj & _)]])|(cv & m & p & q & -> & Hq & _)]; cbn [pc_of] in Hd.
  - subst p. by destruct d.
  - by subst d.
  - exfalso. subst p. assert ((∃ b, d = X_join b) ∨ ∃ j, d = D_join j) as [[b Ed]|[j Ed]].
    { clear -Hj. destruct d; try discriminate Hj; eauto. }
    + exact (nf_no_join _ Ed).
    + exact (nf_no_worker_join _ Ed Hst).
  - exfalso. assert (cv = CDrain ∧ p = D_check) as [-> ->].
    { clear -Hq Hd Hr. subst d. destruct q; try discriminate Hq; injection Hq as <- <- <-; try discriminate Hr; done. }
    exact (nf_not_drowsy _ _ Hn Hst eq_refl).
Qed.
End Stuck.

(** C5: When thread_pool_destroy is called while no submit is in flight (and no other
    call is in progress, which the contract demands), it returns: from the moment
    [shutdown] is stored every run without spurious wakeups is finite, and a state in
    which nothing more can happen is one where destroy has freed the pool.  This holds
    whatever wakes up spuriously before. *)
Theorem pool_destroy_terminates c0 c :
  pstate c0 → threads c0 !! (n + k)%nat = Some (Running D_shut) → in_flight_submits (sh c0) = 0 → (0 < n)%nat →
  rtc qstep c0 c →
  (shutdown (sh c) = true → sn (prompted quiet timed) c) ∧
  (nf (prompted quiet timed) c → threads c !! (n + k)%nat = Some (Running D_done) ∧ p_freed (sh c) = true).
Proof.
  intros Hc Hd Hf Hn Hr. destruct (closing_run _ _ _ (closing_start c0 Hc Hd Hf) Hr) as [d C].
  pose proof (sd_dest _ _ _ _ _ _ (c_shut _ _ C)) as D. split.
  - intros Hsh. rewrite (d_shutdown _ _ _ _ D) in Hsh. apply bool_decide_eq_true in Hsh.
    by eapply shutting_sn; [apply C|].
  - intros Hnf. pose proof (nf_done c d C Hnf Hn) as Hdone. split; [done|].
    rewrite (d_freed _ _ _ _ D). apply pcs_lookup in Hdone. rewrite (sd_at _ _ _ _ _ _ (c_shut _ _ C)) in Hdone.
    by injection Hdone as ->.
Qed.
End Closing.
