(* ===== verification/Worker.v ===== *)
(** * Worker: the busy flags and the two gauges read from them
      (src/worker.c, thread_pool_num_working and thread_pool_queue_depth)

    A gauge performs one atomic load per worker, and the pool moves on between
    them: a call sees a [view], the state of the pool at each of its loads. *)
From S2P Require Export PoolTheorems.
Local Open Scope Z_scope.

(** [v j] is the pool when a call performs its load number [j]; [still s] is a pool
    that does not move, [later d v] what is left of [v] after [d] loads. *)
Definition view : Type := nat → thread_pool.
Definition still (s : thread_pool) : view := λ _, s.
Definition later (d : nat) (v : view) : view := λ j, v (d + j)%nat.

(** ** Operations *)

(** The loop of worker_capacity_busy from index [i] on, with [left] rounds to go;
    [ws j] is the array at its round [j]. *)
Fixpoint count_busy (left : nat) (ws : nat → list worker_t) (i : nat) (count : Z) : res Z :=
  match left with
  | O => Ok count
  | S left' =>
      w ← arr_get (ws i) (Z.of_nat i);
      count_busy left' ws (S i) (if busy w then u16 (count + 1) else count)
  end.

Definition worker_capacity_busy (ws : nat → list worker_t) (num_of_worker : Z) : res Z :=
  count_busy (Z.to_nat num_of_worker) ws 0 0.

(** The [uint32_t] number of workers is converted to [uint16_t] by the call;
    [None] is a NULL pool. *)
Definition thread_pool_num_working (pool : option view) : res Z :=
  match pool with
  | None => Ok 0
  | Some v => worker_capacity_busy (workers ∘ v) (u16 (num_workers (v 0%nat)))
  end.

(** The first load is that of [total_task_in_system]. *)
Definition thread_pool_queue_depth (pool : option view) : res Z :=
  match pool with
  | None => Ok 0
  | Some v =>
      let total := total_task_in_system (v 0%nat) in
      busy ← worker_capacity_busy (workers ∘ later 1 v) (u16 (num_workers (v 0%nat)));
      if total <=? busy then Ok 0 else Ok (u64 (total - busy))
  end.

(** ** The loop counts *)

Definition busy_z (w : worker_t) : Z := if busy w then 1 else 0.

(** The flag of worker [j] at round [j]. *)
Definition flag_seen (ws : nat → list worker_t) (j : nat) : Z :=
  match ws j !! j with Some w => busy_z w | None => 0 end.

Lemma tally_unit {A} (f : A → Z) l : (∀ x, 0 ≤ f x ≤ 1) → 0 ≤ tally f l ≤ Z.of_nat (length l).
Proof.
  intros Hf. induction l as [|x l IH]; [done|]. change (tally f (x :: l)) with (f x + tally f l).
  specialize (Hf x). simpl length. lia.
Qed.

Lemma flag_seen_bound ws j : 0 ≤ flag_seen ws j ≤ 1.
Proof. unfold flag_seen, busy_z. destruct (_ !! _) as [w|]; [destruct (busy w)|]; lia. Qed.

Lemma count_busy_ok left ws (i : nat) count :
  (∀ j, (i ≤ j < i + left)%nat → (j < length (ws j))%nat) → 0 ≤ count → count + Z.of_nat left < 2 ^ 16 →
  count_busy left ws i count = Ok (count + tally (flag_seen ws) (seq i left)).
Proof.
  revert i count. induction left as [|left IH]; intros i count Hi Hc Hb; simpl.
  { by rewrite Z.add_0_r. }
  destruct (lookup_lt_is_Some_2 (ws i) i) as [w Hw]; [apply Hi; lia|].
  rewrite (arr_get_ok _ _ _ Hw). unfold mbind, res_bind.
  assert (Hflag : flag_seen ws i = busy_z w) by (unfold flag_seen; by rewrite Hw).
  unfold tally in *. cbn [foldr]. rewrite Hflag. unfold busy_z.
  assert (Hu : u16 (count + 1) = count + 1) by (apply Z.mod_small; lia).
  destruct (busy w); rewrite ?Hu, IH by (lia || (intros j ?; apply Hi; lia)); f_equal; lia.
Qed.

(** worker_capacity_busy counts the busy flags of the first [n] workers, each as it is
    when the loop comes to it. *)
Lemma worker_capacity_busy_ok ws n :
  0 ≤ n < 2 ^ 16 → (∀ j, (j < Z.to_nat n)%nat → (j < length (ws j))%nat) →
  worker_capacity_busy ws n = Ok (tally (flag_seen ws) (seq 0 (Z.to_nat n))).
Proof.
  intros Hn Hl. unfold worker_capacity_busy. apply (count_busy_ok (Z.to_nat n) ws 0 0); [|lia..].
  intros j Hj. apply Hl. lia.
Qed.

(** Beyond 65535 workers the gauge looks at the first [num_workers mod 2^16] only. *)
Theorem num_working_counts (v : view) :
  (∀ j, (j < Z.to_nat (num_workers (v 0%nat) mod 2 ^ 16))%nat → (j < length (workers (v j)))%nat) →
  thread_pool_num_working (Some v) =
    Ok (tally (flag_seen (workers ∘ v)) (seq 0 (Z.to_nat (num_workers (v 0%nat) mod 2 ^ 16)))).
Proof.
  intros Hl. simpl. apply worker_capacity_busy_ok; [|done]. apply Z.mod_pos_bound. lia.
Qed.

(** ** The flags of a running pool *)

(** Between lines 38 and 41 of worker_func. *)
Definition at_work (p : pc) : bool :=
  match p with W_run _ _ | W_free _ _ | W_unbusy _ => true | _ => false end.

Definition busy_ok (s : thread_pool) (ps : list pc) : Prop :=
  ∀ w wk, workers s !! w = Some wk → ∃ p, ps !! w = Some p ∧ busy wk = at_work p.

Section Flags.
Context (allowed : api → bool) (capacity n k : nat).
Abbreviation pcode := (code allowed capacity true).
Abbreviation pmove := (move pcode).

Lemma move_busy ps p s s' p' sp :
  pmove ps p s s' p' sp →
  (workers s' = workers s ∧ at_work p' = at_work p) ∨
  (∃ w, role_of p = Worker w ∧ s' = set_busy w (at_work p') s) ∨ workers s' = [].
Proof.
  intros H. by_cases H; try (left; done); try (right; left; eexists; done); right; right; done.
Qed.

Lemma busy_step s ps i p p' s' sp :
  inv capacity n k s ps → busy_ok s ps → ps !! i = Some p → pmove ps p s s' p' sp →
  busy_ok s' (<[i := p']> ps ++ sp).
Proof.
  intros I Hb Hi Hm. pose proof (lookup_lt_Some _ _ _ Hi) as Hlt.
  assert (Hlook : ∀ w q, ps !! w = Some q → w ≠ i → (<[i := p']> ps ++ sp) !! w = Some q).
  { intros w q Hq Hne. rewrite lookup_app_l by (rewrite length_insert; by eapply lookup_lt_Some).
    by rewrite list_lookup_insert_ne. }
  assert (Hself : (<[i := p']> ps ++ sp) !! i = Some p').
  { rewrite lookup_app_l by (by rewrite length_insert). by apply list_lookup_insert_eq. }
  destruct (move_busy _ _ _ _ _ _ Hm) as [(Hw & Ha)|[(w0 & Hr & ->)|Hf]].
  - intros w wk Hwk. rewrite Hw in Hwk. destruct (Hb w wk Hwk) as (q & Hq & E).
    destruct (decide (w = i)) as [->|Hne]; [|eauto]. exists p'. split; [done|].
    rewrite Hi in Hq. injection Hq as <-. by rewrite Ha.
  - assert (w0 = i) as ->.
    { destruct (inv_role _ _ _ _ _ I i p Hi) as [[_ E]|[[_ E]|[[_ E]|[_ E]]]]; congruence. }
    intros w wk Hwk. unfold set_busy in Hwk. simpl in Hwk.
    destruct (decide (w = i)) as [->|Hne].
    + exists p'. split; [done|]. rewrite list_lookup_alter_eq in Hwk.
      destruct (workers s !! i); [|done]. by injection Hwk as <-.
    + rewrite list_lookup_alter_ne in Hwk by done.
      destruct (Hb w wk Hwk) as (q & Hq & E). eauto.
  - intros w wk Hwk. by rewrite Hf in Hwk.
Qed.

Lemma busy_reachable c : pool_state allowed capacity n k c → busy_ok (sh c) (pcs c).
Proof.
  intros [(Hc & Hcap & Hk) Hr]. eapply (reach_ind pcode holds busy_ok);
    [apply code_disciplined|apply init_initial| | |exact Hr].
  - intros w wk Hw. simpl in Hw. rewrite init_pcs. rewrite list_lookup_fmap in Hw.
    destruct (seq 0 n !! w) as [j|] eqn:Hj; [|done]. injection Hw as <-.
    exists (W_top j). split; [|done]. rewrite lookup_app_l.
    + by rewrite list_lookup_fmap, Hj.
    + rewrite length_fmap. by eapply lookup_lt_Some.
  - intros c0 i p p' s' sp Hr0 _ _ A _ Hi H. eapply busy_step; try done. by eapply inv_reachable.
Qed.
End Flags.

(** ** The gauges of a running pool *)

Definition at_work_z (p : pc) : Z := if at_work p then 1 else 0.

(** A task counted by the pool that no worker has marked itself busy with: on its
    way into the queue, just popped, or finished and not yet subtracted. *)
Definition not_running (p : pc) : Z := counted p - at_work_z p.

Lemma not_running_bound p : 0 ≤ not_running p ≤ 1.
Proof. unfold not_running, at_work_z. destruct p; simpl; lia. Qed.

Lemma tally_sub {A} (f g : A → Z) ps : tally (λ p, f p - g p) ps = tally f ps - tally g ps.
Proof. unfold tally. induction ps as [|p ps IH]; simpl; lia. Qed.

Lemma tally_ext_in {A} (f g : A → Z) l : (∀ x, x ∈ l → f x = g x) → tally f l = tally g l.
Proof.
  unfold tally. induction l as [|x l IH]; intros H; [done|]. simpl.
  rewrite (H x), IH; [done| |by left]. intros y Hy. apply H. by right.
Qed.

Lemma tally_seq {A} (f : A → Z) (l : list A) :
  tally (λ j, match l !! j with Some x => f x | None => 0 end) (seq 0 (length l)) = tally f l.
Proof.
  induction l as [|x l IH]; [done|]. simpl length. cbn [seq]. unfold tally in *. cbn [foldr lookup list_lookup].
  rewrite <- IH. f_equal. rewrite <- fmap_S_seq, foldr_fmap. done.
Qed.

Section Gauges.
Context (allowed : api → bool) (capacity n k : nat).
Abbreviation pcode := (code allowed capacity true).

(** The pool in use: from each load to the next the threads take any number of
    steps, and destroy has not freed the workers. *)
Definition pool_run (c : nat → pconfig) : Prop :=
  pool_state allowed capacity n k (c 0%nat) ∧ (∀ j, rtc (step pcode) (c j) (c (S j))) ∧
  (∀ j d, pcs (c j) !! (n + k)%nat = Some d → has_workers d = true).

(** Whether worker [j] is running a task. *)
Definition works_at (c : nat → pconfig) (j : nat) : Z :=
  match pcs (c j) !! j with Some p => at_work_z p | None => 0 end.

Lemma at_work_z_bound p : 0 ≤ at_work_z p ≤ 1.
Proof. unfold at_work_z. destruct (at_work p); lia. Qed.

Lemma works_at_bound c j : 0 ≤ works_at c j ≤ 1.
Proof. unfold works_at. destruct (_ !! _); [apply at_work_z_bound|lia]. Qed.

Lemma run_state c j : pool_run c → pool_state allowed capacity n k (c j).
Proof.
  intros ([Hl H0] & Hs & _). split; [done|]. induction j as [|j IH]; [done|].
  etrans; [exact IH|apply Hs].
Qed.

Lemma run_workers c j : pool_run c → length (workers (sh (c j))) = n ∧ num_workers (sh (c j)) = Z.of_nat n.
Proof.
  intros R. destruct (pool_state_inv _ _ _ _ _ (run_state c j R)) as (I & _).
  destruct (v_dest _ _ _ _ _ I) as (d & Hd & D). destruct R as (_ & _ & Hw). split; [|apply I].
  by rewrite <- (length_fmap tid), (d_tids _ _ _ _ D (Hw _ _ Hd)), length_seq.
Qed.

(** A flag read by the loop says where its worker is. *)
Lemma flag_works c j : pool_run c → (j < n)%nat → flag_seen (workers ∘ (sh ∘ c)) j = works_at c j.
Proof.
  intros R Hj. destruct (run_workers c j R) as [Hl _]. unfold flag_seen, works_at. simpl.
  destruct (lookup_lt_is_Some_2 (workers (sh (c j))) j) as [wk Hwk]; [lia|]. rewrite Hwk.
  destruct (busy_reachable _ _ _ _ _ (run_state c j R) j wk Hwk) as (p & -> & E).
  unfold busy_z, at_work_z. by rewrite E.
Qed.

Lemma capacity_busy_run c :
  pool_run c → Z.of_nat n < 2 ^ 16 →
  worker_capacity_busy (workers ∘ (sh ∘ c)) (u16 (Z.of_nat n)) = Ok (tally (works_at c) (seq 0 n)).
Proof.
  intros R Hn. assert (Hu : u16 (Z.of_nat n) = Z.of_nat n) by (apply Z.mod_small; lia).
  rewrite Hu, worker_capacity_busy_ok; [|lia|].
  - rewrite Nat2Z.id. f_equal. apply tally_ext_in. intros j Hj%elem_of_seq. apply flag_works; [done|lia].
  - intros j Hj. simpl. destruct (run_workers c j R) as [-> _]. lia.
Qed.

Lemma run_later c : pool_run c → pool_run (λ j, c (S j)).
Proof.
  intros R. split; [by apply run_state|]. destruct R as (_ & Hs & Hw). split; intros j; [apply Hs|apply Hw].
Qed.

(** Workers at work are found among the first [n] threads only. *)
Lemma works_still c :
  pool_state allowed capacity n k c → tally (works_at (λ _, c)) (seq 0 n) = tally at_work_z (pcs c).
Proof.
  intros Hc. destruct (pool_state_inv _ _ _ _ c Hc) as (I & _).
  assert (Hlen : (n ≤ length (pcs c))%nat).
  { destruct (v_dest _ _ _ _ _ I) as (d & Hd & _). apply lookup_lt_Some in Hd. lia. }
  rewrite <- (tally_seq at_work_z (pcs c)).
  replace (length (pcs c)) with (n + (length (pcs c) - n))%nat by lia.
  rewrite seq_app, tally_app.
  rewrite (tally_const _ 0 (seq (0 + n) _)); [unfold works_at; lia|].
  apply Forall_forall. intros j Hj%list_elem_of_In%in_seq. destruct (pcs c !! j) as [p|] eqn:Hp; [|done].
  destruct (inv_role _ _ _ _ _ I _ p Hp) as [[? _]|[[_ Hr]|[[_ Hr]|[_ Hr]]]]; [lia|..]; by destruct p.
Qed.

(** C29: The gauges of a running pool of fewer than 2^16 workers that destroy has not
    freed, each load of a call made in a later state than the one before. num_working
    is the number of workers that ran a task when their flag was loaded. queue_depth
    is the number of tasks in the queue, on their way in (to be rejected or not), or
    popped and not yet subtracted at its first load, less the workers found running by
    the later loads, and never below zero. When the pool does not move meanwhile this
    is the number of queued tasks and of those counted that no worker is marked busy
    with. *)
Theorem pool_gauges_exact c :
  pool_run c → Z.of_nat n < 2 ^ 16 →
  let first := c 0%nat in
  let working := tally (works_at c) (seq 0 n) in
  let working_later := tally (works_at (λ j, c (S j))) (seq 0 n) in
  let in_system := size (pq (sh first)) + tally counted (pcs first) in
  thread_pool_num_working (Some (sh ∘ c)) = Ok working ∧ 0 ≤ working ≤ Z.of_nat n ∧
  thread_pool_queue_depth (Some (sh ∘ c)) = Ok (Z.max 0 (in_system - working_later)) ∧
  ((∀ j, c j = first) →
     working = tally at_work_z (pcs first) ∧ working_later = working ∧
     Z.max 0 (in_system - working_later) = size (pq (sh first)) + tally not_running (pcs first)).
Proof.
  intros R Hn first working working_later in_system.
  pose proof (run_state c 0 R) as Hc. destruct (run_workers c 0 R) as [_ Hnum].
  destruct (pool_state_inv _ _ _ _ _ Hc) as (I & _). pose proof Hc as [(_ & Hcap & _) _].
  destruct (v_balance _ _ _ _ _ I) as [L B].
  pose proof (outstanding_bound _ _ _ _ _ I L B) as Hob. pose proof (total_exact _ _ _ Hcap _ _ I L B) as Ht.
  assert (Hw : 0 ≤ working ≤ Z.of_nat n).
  { pose proof (tally_unit (works_at c) (seq 0 n) (works_at_bound c)) as H. by rewrite length_seq in H. }
  assert (Hl : 0 ≤ working_later ≤ Z.of_nat n).
  { pose proof (tally_unit _ (seq 0 n) (works_at_bound (λ j, c (S j)))) as H. by rewrite length_seq in H. }
  assert (Hsys : in_system = total_task_in_system (sh (c 0%nat))).
  { unfold in_system, first. rewrite (r_size _ _ _ (b_repr _ _ _ B)), u64_small; [lia|].
    pose proof (tally_nonneg counted (pcs (c 0%nat)) counted_nonneg). lia. }
  split_and!; try lia.
  - simpl. rewrite Hnum. by apply capacity_busy_run.
  - simpl. rewrite Hnum, <- Hsys.
    change (workers ∘ later 1 (sh ∘ c)) with (workers ∘ (sh ∘ (λ j, c (S j)))).
    rewrite (capacity_busy_run _ (run_later c R) Hn). unfold mbind, res_bind. fold working_later.
    destruct (Z.leb_spec in_system working_later); f_equal; [lia|]. rewrite u64_small; lia.
  - intros Hstill.
    assert (E1 : working = tally at_work_z (pcs first)).
    { rewrite <- (works_still first Hc). apply tally_ext_in. intros j _. unfold works_at. by rewrite Hstill. }
    assert (E2 : working_later = working).
    { apply tally_ext_in. intros j _. unfold works_at. by rewrite !Hstill. }
    split_and!; try done. rewrite E2, E1. unfold in_system.
    pose proof (tally_sub counted at_work_z (pcs first)) as Hsub.
    change (λ p, counted p - at_work_z p) with not_running in Hsub.
    assert (0 ≤ tally not_running (pcs first)) by (apply tally_nonneg; intros p; apply not_running_bound).
    assert (0 ≤ size (pq (sh first))).
    { unfold first. rewrite (r_size _ _ _ (b_repr _ _ _ B)). apply Z.mod_pos_bound. lia. }
    lia.
Qed.
End Gauges.
