(* ===== verification/PoolTraces.v ===== *)
(** * PoolTraces: schedules of the pool, run step by step

    Concrete interleavings that reach states the code should not be in. *)
From S2P Require Export PoolProgress Worker.
Local Open Scope Z_scope.

(** Clients that pass valid arguments. *)
Definition valid_calls (a : api) : bool :=
  match a with
  | CallSubmit _ _ y => (0 <=? y) && (y <? NUM_PRIORITIES)
  | CallEnableAging iv ms => (iv * NSEC_PER_MSEC <? 2 ^ 63) && (ms * NSEC_PER_MSEC <? 2 ^ 63)
  | _ => true
  end.

Lemma valid_calls_ok : calls_ok valid_calls.
Proof. intros a Ha. destruct a; simpl in Ha |- *; try done; lia. Qed.

Abbreviation cmd := (Pthread.cmd choice).

(** Runs a schedule from the initial state and tests the state it ends in. *)
Definition ends_in (contract : bool) (n k : nat) (ls : list cmd) (P : pconfig → bool) : bool :=
  drives_to (code valid_calls 16 contract) Tau (init_config n k) ls P.

Lemma ends_in_reach contract n k ls P :
  ends_in contract n k ls P = true →
  ∃ c, rtc (step (code valid_calls 16 contract)) (init_config n k) c ∧ P c = true.
Proof. apply drives_to_reach. Qed.

(** Nobody can move before a new call, a timeout or a spurious wakeup. *)
Definition dormant (st : pstatus) : bool :=
  match st with
  | Waiting _ _ _ | Running (C_idle _) | Running D_idle | Running (W_exit _) => true
  | _ => false
  end.
Definition all_dormant (c : pconfig) : bool := forallb dormant (threads c).

Definition waits (cv : cond_id) (c : pconfig) (i : nat) : bool :=
  match threads c !! i with Some st => waits_on cv st | None => false end.

(** A submit up to the lock of the queue, and from there to its end. *)
Definition submit_begin (i : nat) (l : loc) (bounded : bool) : list cmd :=
  [Ex (With i (Call (CallSubmit (Some 7) 0 PRIORITY_LOW))); Do i (if bounded then 4 else 3);
   Ex (With i (Malloc (Some l))); Do i 2].
Definition submit_end (i : nat) (wakes : option nat) : list cmd :=
  [Do i 4; match wakes with Some j => Ex (Sig i j) | None => Do i 1 end; Do i 1].

(** ** A rejected submit loses the wakeup of thread_pool_wait *)

Definition lost_wakeup_schedule : list cmd :=
  [Do 0 5;                                          (* the worker sleeps *)
   Ex (With 1 (Call (CallSetMax 1))); Do 1 2] ++
  submit_begin 2 2 true ++                          (* B passes the approximate check *)
  submit_begin 1 1 true ++ submit_end 1 (Some 0%nat) ++   (* A fills the queue *)
  [Ex (With 1 (Call CallWait)); Do 1 4;             (* A waits for the drain *)
   Do 2 3;                                          (* B finds the queue full *)
   Do 0 14;                                         (* the worker runs A's task: remaining = 1 *)
   Do 2 3].                                         (* B takes back its count: total = 0, no signal *)

Definition lost_wakeup (c : pconfig) : bool :=
  waits CDrain c 1 && (total_task_in_system (sh c) =? 0) && all_dormant c &&
  bool_decide (g_accepted (sh c) = g_executed (sh c)) && negb (g_destroying (sh c)).

Example lost_wakeup_run : ends_in true 1 2 lost_wakeup_schedule lost_wakeup = true.
Proof. vm_compute. reflexivity. Qed.

(** ** One signal for several waiters *)

Definition two_waiters_schedule : list cmd :=
  [Do 0 5] ++ submit_begin 1 1 false ++ submit_end 1 (Some 0%nat) ++
  [Ex (With 1 (Call CallWait)); Do 1 4; Ex (With 2 (Call CallWait)); Do 2 4;
   Do 0 10; Ex (Sig 0 1); Do 0 6;                   (* the last task ends: one signal *)
   Do 1 4].                                         (* A returns, B sleeps on *)

Definition stuck_waiter (c : pconfig) : bool :=
  waits CDrain c 2 && (total_task_in_system (sh c) =? 0) && all_dormant c &&
  bool_decide (g_accepted (sh c) = g_executed (sh c)) && negb (g_destroying (sh c)).

Example two_waiters_run : ends_in true 1 2 two_waiters_schedule stuck_waiter = true.
Proof. vm_compute. reflexivity. Qed.

(** ** A paused pool runs a task *)

Definition pause_leak_schedule : list cmd :=
  [Do 0 5; Ex (With 1 (Call CallPause)); Do 1 5;    (* pause has returned *)
   Do 0 4] ++                                       (* the woken worker sleeps again *)
  submit_begin 1 1 false ++ submit_end 1 (Some 0%nat) ++ [Do 0 6].

Definition pause_leaked (c : pconfig) : bool :=
  paused (sh c) && bool_decide (g_executed (sh c) = [(0, 7, 0)]) &&
  match threads c !! 1%nat with Some (Running (C_idle (RId _))) => true | _ => false end.

Example pause_leak_run : ends_in true 1 1 pause_leak_schedule pause_leaked = true.
Proof. vm_compute. reflexivity. Qed.

(** ** Destroy waits for a task that no worker is left to run *)

Definition destroy_hang_schedule : list cmd :=
  [Ex (With 1 (Call (CallSubmit (Some 7) 0 PRIORITY_LOW))); Do 1 2;  (* registered, not shut down *)
   Ex (With 2 (Call CallDestroy)); Do 2 2;          (* shutdown is set *)
   Do 0 5;                                          (* the worker sees an empty queue and exits *)
   Do 1 1; Ex (With 1 (Malloc (Some 1%positive))); Do 1 2] ++
  submit_end 1 None ++                              (* the submit succeeds *)
  [Do 2 11].                                        (* destroy waits for the drain *)

Definition destroy_hung (c : pconfig) : bool :=
  waits CDrain c 2 && (total_task_in_system (sh c) =? 1) && (size (pq (sh c)) =? 1) && all_dormant c &&
  match threads c !! 0%nat with Some (Running (W_exit _)) => true | _ => false end.

Example destroy_hang_run : ends_in true 1 1 destroy_hang_schedule destroy_hung = true.
Proof. vm_compute. reflexivity. Qed.

(** ** A submit that has not registered yet touches a freed pool *)

Definition late_submit_schedule : list cmd :=
  [Ex (With 1 (Call (CallSubmit (Some 7) 0 PRIORITY_LOW)));
   Ex (With 2 (Call CallDestroy)); Do 2 2; Do 0 5; Do 2 21].

Definition late_submit (c : pconfig) : bool :=
  match threads c !! 1%nat with
  | Some (Running (S_enter f a p)) =>
      match code valid_calls 16 false (S_enter f a p) with
      | AStep g => match g Tau (sh c) with Crash UseAfterFree => true | _ => false end
      | _ => false
      end
  | _ => false
  end.

Example late_submit_run : ends_in false 1 1 late_submit_schedule late_submit = true.
Proof. vm_compute. reflexivity. Qed.

(** ** A worker is paused while the pool is destroyed *)

(** The monitor thread calls thread_pool_pause when [p] is pressed (monitor.c:344), and it
    runs until thread_pool_destroy has come to monitor_stop: a pause behind the store of
    line 366 puts a worker to sleep, and destroy joins it.  The client stands for the
    monitor. *)
Definition paused_destroy_schedule : list cmd :=
  [Ex (With 2 (Call CallDestroy)); Do 2 13;         (* up to monitor_stop *)
   Ex (With 1 (Call CallPause)); Do 1 5;
   Do 0 4; Do 2 2].                                 (* the worker sleeps, destroy joins it *)

Definition paused_destroy (c : pconfig) : bool :=
  waits CPause c 0 && shutdown (sh c) && (total_task_in_system (sh c) =? 0) &&
  match threads c !! 2%nat with Some (Running (D_join 0)) => true | _ => false end.

Example paused_destroy_run : ends_in false 1 1 paused_destroy_schedule paused_destroy = true.
Proof. vm_compute. reflexivity. Qed.

(** ** The findings as theorems *)

(** The state after a schedule. *)
Definition after (contract : bool) (n k : nat) (ls : list cmd) : pconfig :=
  default (init_config n k) (drive (code valid_calls 16 contract) Tau ls (init_config n k)).

Lemma after_reach contract n k ls :
  ends_in contract n k ls (λ _, true) = true →
  rtc (step (code valid_calls 16 contract)) (init_config n k) (after contract n k ls).
Proof.
  unfold ends_in, drives_to, after. destruct (drive _ _ _ _) as [c|] eqn:E; [|done]. intros _. by eapply drive_sound.
Qed.

Lemma after_state n k ls :
  ends_in true n k ls (λ _, true) = true → (n < 100)%nat → (k < 100)%nat →
  pool_state valid_calls 16 n k (after true n k ls).
Proof. intros H Hn Hk. split; [split_and!; [apply valid_calls_ok|lia|lia]|by apply after_reach]. Qed.

Lemma ends_in_state n k ls P :
  ends_in true n k ls P = true → (n < 100)%nat → (k < 100)%nat →
  ∃ c, pool_state valid_calls 16 n k c ∧ P c = true.
Proof.
  intros H Hn Hk. destruct (ends_in_reach _ _ _ _ _ H) as (c & Hr & HP). exists c.
  split; [|done]. split; [split_and!; [apply valid_calls_ok|lia|lia]|done].
Qed.

(** In a dormant state only a new call or a spurious wakeup can happen. *)
Lemma dormant_step contract c c' :
  all_dormant c = true → step (code valid_calls 16 contract) c c' →
  (∃ i cv m p, threads c !! i = Some (Waiting cv m p)) ∨
  (∃ i z f p, threads c !! i = Some (Running p) ∧ code valid_calls 16 contract p = AStep f ∧
     f z (sh c) = Next (sh c') (default p (pcs c' !! i)) ∧ (p = D_idle ∨ ∃ r, p = C_idle r)).
Proof.
  intros Hd Hs. unfold all_dormant in Hd. rewrite forallb_forall in Hd.
  assert (Hdo : ∀ i st, threads c !! i = Some st → dormant st = true)
    by (intros i st Hi; apply Hd, list_elem_of_In; by eapply list_elem_of_lookup_2).
  destruct Hs as [i p m p' Hi Hp Ho|i p m p' Hi Hp Ho|i p cv m p' Hi Hp Ho|i cv m p' Hi
      |i m p' Hi Ho|i p cv p' Hi Hp Hf|i p cv p' j m pj Hi Hp Hj|i p cv p' Hi Hp
      |i p tid p' Hi Hp He|i p entry created failed s' p' Hi Hp Hcr
      |i p entry created failed s' p' Hi Hp Hcr|i p f z s' p' Hi Hp Hf];
    pose proof (Hdo i _ Hi) as Hst; try (destruct p; simpl in Hst; discriminate).
  - left. by eexists _, _, _, _.
  - done.
  - right. exists i, z, f, p. split_and!; try done.
    + unfold pcs. simpl. rewrite list_fmap_insert, list_lookup_insert_eq; [done|].
      rewrite length_fmap. by eapply lookup_lt_Some.
    + destruct p; try discriminate Hst; eauto. by discriminate Hp.
Qed.

(** C37: thread_pool_wait can sleep for ever although every accepted task has been run:
    a submit that is rejected because the queue is full takes its count back
    without signalling [drain_cond]. *)
Theorem wait_misses_rejected_submit :
  ∃ c, pool_state valid_calls 16 1 2 c ∧
    threads c !! 1%nat = Some (Waiting CDrain MDrain T_check) ∧
    threads c !! 2%nat = Some (Running (C_idle (RErr EAGAIN))) ∧
    total_task_in_system (sh c) = 0 ∧ g_accepted (sh c) = g_executed (sh c) ∧ all_dormant c = true.
Proof.
  exists (after true 1 2 lost_wakeup_schedule). split; [apply after_state; [vm_compute; reflexivity|lia..]|].
  split_and!; vm_compute; reflexivity.
Qed.

(** The last worker wakes one waiter only: a second thread that waits for the same
    drain sleeps on. *)
Theorem wait_wakes_one_waiter :
  ∃ c, pool_state valid_calls 16 1 2 c ∧
    threads c !! 1%nat = Some (Running (C_idle RVoid)) ∧
    threads c !! 2%nat = Some (Waiting CDrain MDrain T_check) ∧
    total_task_in_system (sh c) = 0 ∧ g_accepted (sh c) = g_executed (sh c) ∧ all_dormant c = true.
Proof.
  exists (after true 1 2 two_waiters_schedule). split; [apply after_state; [vm_compute; reflexivity|lia..]|].
  split_and!; vm_compute; reflexivity.
Qed.

(** A worker that sleeps in the queue when thread_pool_pause is called runs tasks
    submitted after pause has returned. *)
Theorem pause_does_not_stop_idle_worker :
  ∃ c0 c, pool_state valid_calls 16 1 1 c0 ∧ paused (sh c0) = true ∧
    threads c0 !! 1%nat = Some (Running (C_idle RVoid)) ∧ g_accepted (sh c0) = [] ∧
    rtc (step (code valid_calls 16 true)) c0 c ∧ paused (sh c) = true ∧ g_executed (sh c) = [(0, 7, 0)].
Proof.
  exists (after true 1 1 (take 3 pause_leak_schedule)), (after true 1 1 pause_leak_schedule).
  split; [apply after_state; [vm_compute; reflexivity|lia..]|].
  do 3 (split; [vm_compute; reflexivity|]). split; [|split; vm_compute; reflexivity].
  apply (drive_sound _ Tau (drop 3 pause_leak_schedule)). vm_compute. reflexivity.
Qed.

(** Once a submit runs into a destroyed pool: without the contract a thread that
    has called thread_pool_submit but has not registered in [in_flight_submits]
    touches freed memory. *)
Theorem late_submit_use_after_free :
  ∃ c f, rtc (step (code valid_calls 16 false)) (init_config 1 1) c ∧
    threads c !! 1%nat = Some (Running (S_enter 7 0 0)) ∧ p_freed (sh c) = true ∧
    code valid_calls 16 false (S_enter 7 0 0) = AStep f ∧ f Tau (sh c) = Crash UseAfterFree.
Proof.
  eexists (after false 1 1 late_submit_schedule), _.
  split; [apply after_reach; vm_compute; reflexivity|].
  split_and!; [vm_compute; reflexivity..|reflexivity|vm_compute; reflexivity].
Qed.

(** The states of a destroy that waits for a drain nobody will complete. *)
Definition hung (s : thread_pool) (ps : list pc) : Prop :=
  (∃ r d, ps = [W_exit 0; C_idle r; d] ∧ (d = D_check ∨ d = D_wait)) ∧
  total_task_in_system s = 1 ∧ p_freed s = false ∧ g_destroying s = true.

Lemma hung_move ps i p s s' p' sp :
  hung s ps → ps !! i = Some p → move (code valid_calls 16 true) ps p s s' p' sp →
  hung s' (<[i := p']> ps ++ sp).
Proof.
  intros [(r & d & -> & Hd) (Ht & Hf & Hg)] Hi H.
  destruct i as [|[|[|i]]]; simpl in Hi; try done; injection Hi as <-.
  - move_inv H.
  - inversion H as [? Hx|? ? ? Hx|? ? ? ? ? Hx|? ? ? ? ? Hx|f z ? ? Hx Hn]; subst; try done.
    destruct (call_next _ _ _ _ _ _ _ _ _ Hx Hn) as [r'|? Hnd|? Hnd]; [|simpl in Hnd; congruence..].
    split; [|done]. by exists r', d.
  - destruct Hd as [-> | ->].
    + inversion H as [? Hx|? ? ? Hx|? ? ? ? ? Hx|? ? ? ? ? Hx|f z ? ? Hx Hn]; subst; try done.
      destruct (branch_next _ _ _ _ _ _ _ _ Hx Hn) as (_ & -> & ->). rewrite Ht. simpl.
      split; [|done]. exists r, D_wait. auto.
    + inversion H as [? Hx|? ? ? Hx|? ? ? ? ? Hx|? ? ? ? ? Hx|f z ? ? Hx Hn]; subst; try done.
      simpl in Hx. subst. split; [|done]. exists r, D_check. auto.
Qed.

Lemma hung_for_ever c c' :
  hung (sh c) (pcs c) → rtc (step (code valid_calls 16 true)) c c' → hung (sh c') (pcs c').
Proof.
  intros Hh Hr. induction Hr as [|c c1 c2 Hs _ IH]; [done|]. apply IH.
  destruct (step_pcs _ c c1 Hs) as [[-> ->]|(i & p & p' & sp & Hi & Hm & ->)]; [done|].
  apply pcs_lookup in Hi. by eapply hung_move.
Qed.

(** C38: thread_pool_destroy can hang: when every worker finds the queue empty after
    [shutdown] was set and a registered submit pushes its task afterwards, no worker
    is left to run it and the drain never completes. *)
Theorem destroy_can_hang :
  ∃ c, pool_state valid_calls 16 1 1 c ∧ g_accepted (sh c) = [(0, 7, 0)] ∧ g_executed (sh c) = [] ∧
    threads c !! 0%nat = Some (Running (W_exit 0)) ∧
    threads c !! 1%nat = Some (Running (C_idle (RId 0))) ∧
    ∀ c', rtc (step (code valid_calls 16 true)) c c' → p_freed (sh c') = false.
Proof.
  exists (after true 1 1 destroy_hang_schedule).
  split; [apply after_state; [vm_compute; reflexivity|lia..]|].
  do 4 (split; [vm_compute; reflexivity|]). intros c' Hr.
  apply (hung_for_ever _ c') in Hr as [_ (_ & Hf & _)]; [done|].
  split; [|split_and!; vm_compute; reflexivity]. exists (RId 0), D_check.
  split; [vm_compute; reflexivity|by left].
Qed.

(** ** The invariants at concrete states *)

(** One task: the worker was woken, has popped it and is about to run it. *)
Definition busy_schedule : list cmd :=
  [Do 0 5] ++ submit_begin 1 1 false ++ submit_end 1 (Some 0%nat) ++ [Do 0 5].

(** The same task run, and the pool destroyed. *)
Definition life_schedule : list cmd :=
  busy_schedule ++ [Do 0 4] ++
  [Do 0 3; Do 0 5; Ex (With 2 (Call CallDestroy)); Do 2 6; Do 0 4; Do 2 17].

Abbreviation vcode := (code valid_calls 16 true).
Abbreviation vstate := (pool_state valid_calls 16 1 1).

Definition busy_state : pconfig := after true 1 1 busy_schedule.
Definition final_state : pconfig := after true 1 1 life_schedule.

Lemma busy_reached : vstate busy_state.
Proof. apply after_state; [vm_compute; reflexivity|lia..]. Qed.
Lemma final_reached : vstate final_state.
Proof. apply after_state; [vm_compute; reflexivity|lia..]. Qed.


Lemma pool_exactly_once_witness :
  vstate busy_state ∧ ∃ L, pq_repr (p_heap (sh busy_state)) (pq (sh busy_state)) L ∧
    g_accepted (sh busy_state) ≡ₚ g_executed (sh busy_state)
      ++ jobs (p_heap (sh busy_state)) (omap taken (pcs busy_state))
      ++ jobs (p_heap (sh busy_state)) (Lanes.members L).
Proof. split; [apply busy_reached|]. apply (pool_exactly_once valid_calls 16 1 1), busy_reached. Defined.

Lemma pool_counters_exact_witness :
  vstate busy_state ∧ ∃ L, pq_repr (p_heap (sh busy_state)) (pq (sh busy_state)) L ∧
    total_task_in_system (sh busy_state) = Z.of_nat (length (Lanes.members L)) + tally counted (pcs busy_state) ∧
    0 ≤ total_task_in_system (sh busy_state) < 2 ^ 31 ∧
    in_flight_submits (sh busy_state) = tally in_flight (pcs busy_state).
Proof. split; [apply busy_reached|]. apply (pool_counters_exact valid_calls 16 1 1), busy_reached. Defined.

Lemma pool_no_leak_witness :
  vstate busy_state ∧ ∃ L, pq_repr (p_heap (sh busy_state)) (pq (sh busy_state)) L ∧
    omap own (pcs busy_state) ++ Lanes.members L ≡ₚ elements (dom (p_heap (sh busy_state))).
Proof. split; [apply busy_reached|]. apply (pool_no_leak valid_calls 16 1 1), busy_reached. Defined.

(** thread_pool_wait after the task was run. *)
Definition wait_schedule : list cmd :=
  busy_schedule ++ [Do 0 4; Do 0 3; Ex (With 1 (Call CallWait)); Do 1 2].
Definition waiting_state : pconfig := after true 1 1 wait_schedule.
Definition released_state : pconfig := after true 1 1 (wait_schedule ++ [Do 1 1]).

Lemma pool_wait_barrier_witness :
  g_accepted (sh waiting_state) ≡ₚ g_executed (sh waiting_state) ∧
  size (pq (sh waiting_state)) = 0 ∧ omap taken (pcs waiting_state) = [].
Proof.
  apply (pool_wait_barrier valid_calls 16 1 1 waiting_state released_state 1 T_unlock).
  - apply after_state; [vm_compute; reflexivity|lia..].
  - apply (exec_sound vcode waiting_state (With 1 Tau)). vm_compute. reflexivity.
  - reflexivity.
  - vm_compute. discriminate.
  - vm_compute. reflexivity.
Defined.

Lemma pool_destroy_complete_witness :
  vstate final_state ∧ g_accepted (sh final_state) = [(0, 7, 0)] ∧
  (g_accepted (sh final_state) ≡ₚ g_executed (sh final_state) ∧ p_heap (sh final_state) = ∅ ∧
   ∀ i st, threads final_state !! i = Some st → ∃ p, st = Running p ∧ at_rest_pc p = true).
Proof.
  split; [apply final_reached|]. split; [vm_compute; reflexivity|].
  apply (pool_destroy_complete valid_calls 16 1 1 final_state); [apply final_reached|].
  vm_compute. reflexivity.
Defined.

(** Destroy is called while the worker is about to run a task, and stores [shutdown]. *)
Definition called_state : pconfig := after true 1 1 (busy_schedule ++ [Ex (With 2 (Call CallDestroy))]).
Definition stopping_state : pconfig :=
  default called_state (drive (code no_calls 16 true) Tau [Do 2 1] called_state).

Lemma pool_destroy_terminates_witness :
  shutdown (sh stopping_state) = true ∧ sn (prompted (code no_calls 16 true) timed) stopping_state.
Proof.
  split; [vm_compute; reflexivity|].
  apply (pool_destroy_terminates valid_calls 16 1 1 called_state stopping_state).
  - apply after_state; [vm_compute; reflexivity|lia..].
  - vm_compute. reflexivity.
  - vm_compute. reflexivity.
  - lia.
  - apply (drive_sound (code no_calls 16 true) Tau [Do 2 1]). vm_compute. reflexivity.
  - vm_compute. reflexivity.
Defined.

Lemma pool_mutual_exclusion_witness :
  threads (after true 1 1 [Do 0 2]) !! 0%nat = Some (Running (W_pop_check 0)) ∧ 0%nat = 0%nat.
Proof.
  split; [vm_compute; reflexivity|].
  apply (pool_mutual_exclusion valid_calls 16 true 1 1 (after true 1 1 [Do 0 2]) 0 0
           (W_pop_check 0) (W_pop_check 0) MPq);
    [apply after_reach; vm_compute; reflexivity|vm_compute; reflexivity..].
Defined.

(** The worker sleeps while a submitter has queued its task and not signalled yet. *)
Definition unsignalled : pconfig := after true 1 1 ([Do 0 5] ++ submit_begin 1 1 false ++ [Do 1 3]).

Lemma pool_no_lost_wakeup_witness :
  size (pq (sh unsignalled)) = 1 ∧
  0 ≤ size (pq (sh unsignalled)) ≤ tally pending (threads unsignalled).
Proof.
  split; [vm_compute; reflexivity|].
  apply (pool_no_lost_wakeup valid_calls 16 1 1 unsignalled 0 MPq (W_pop_check 0)).
  - apply after_state; [vm_compute; reflexivity|lia..].
  - vm_compute. reflexivity.
Defined.

(** The worker runs its task at the first load and has finished it at the next: the
    depth counts a task that num_working counted too. *)
Definition finished_state : pconfig := after true 1 1 (busy_schedule ++ [Do 0 4]).
Definition seen_states (j : nat) : pconfig := match j with O => busy_state | S _ => finished_state end.

Lemma seen_states_run : pool_run valid_calls 16 1 1 seen_states.
Proof.
  split; [apply busy_reached|]. split.
  - intros [|j]; [|apply rtc_refl]. apply (drive_sound vcode Tau [Do 0 4]). vm_compute. reflexivity.
  - intros [|j] d Hd; (assert (d = D_idle) as ->; [|done]); vm_compute in Hd; congruence.
Qed.

Lemma pool_gauges_exact_witness :
  thread_pool_num_working (Some (sh ∘ seen_states)) = Ok 1 ∧
  thread_pool_queue_depth (Some (sh ∘ seen_states)) = Ok 1 ∧
  thread_pool_num_working (Some (sh ∘ seen_states)) = Ok (tally (works_at seen_states) (seq 0 1)).
Proof.
  split; [vm_compute; reflexivity|]. split; [vm_compute; reflexivity|].
  apply (pool_gauges_exact valid_calls 16 1 1 seen_states); [apply seen_states_run|lia].
Defined.

Lemma num_working_counts_witness :
  thread_pool_num_working (Some (sh ∘ seen_states)) =
    Ok (tally (flag_seen (workers ∘ (sh ∘ seen_states))) (seq 0 1)).
Proof.
  apply num_working_counts. intros j Hj. vm_compute in Hj. assert (j = 0)%nat as -> by lia. vm_compute. lia.
Defined.
