(* ===== verification/MonitorUi.v ===== *)
(** * MonitorUi: what the monitor draws (src/monitor.c, the drawing helpers and draw_ui)

    A frame is the list of screen lines the code writes, each with the row and
    column it starts at and its cells.  Colour and weight attributes, which do not
    move the cursor, are left out.  The cursor column after a sequence of writes
    is the start column plus the number of cells: the lines of a frame that fits
    the terminal do not wrap. *)
From S2P Require Export Worker Text.
Local Open Scope Z_scope.

Record line := mk_line { ln_row : Z; ln_col : Z; ln_cells : list string }.

(** [addstr] and [printw] at the cursor. *)
Definition put_cells (cs : list string) (l : line) : line :=
  mk_line (ln_row l) (ln_col l) (ln_cells l ++ cs).
Definition addstr (s : string) : line → line := put_cells (cells s).
Definition glyph (g : string) : line → line := put_cells [g].
Definition glyphs (n : Z) (g : string) : line → line := put_cells (replicate (Z.to_nat n) g).

(** The column [getyx] reports. *)
Definition cursor (l : line) : Z := ln_col l + Z.of_nat (length (ln_cells l)).

(** [move] to column [x] of the same row and [addstr] of one glyph there; cells
    not written since [clear] are blank. *)
Definition put_at (x : Z) (g : string) (l : line) : line :=
  let i := Z.to_nat (x - ln_col l) in
  mk_line (ln_row l) (ln_col l)
    (take i (ln_cells l ++ replicate (i - length (ln_cells l)) " "%string)
       ++ g :: drop (S i) (ln_cells l)).

(** ** Drawing helpers *)

Definition fmt_uptime (elapsed : Z) (len : nat) : string :=
  snprintf len
    (pad_left 2 "0" (dec (i32 (Z.quot elapsed 3600))) +:+ ":" +:+
     pad_left 2 "0" (dec (i32 (Z.quot (Z.rem elapsed 3600) 60))) +:+ ":" +:+
     pad_left 2 "0" (dec (i32 (Z.rem elapsed 60)))).

Definition fill_close (start_x box_width : Z) (l : line) : line :=
  let right := start_x + box_width - 1 in
  glyph "║" (glyphs (right - cursor l) " " l).

(** [title] is [None] for NULL. *)
Definition draw_rule (row start_x box_width : Z) (title : option string) (heavy : bool) : line :=
  let h := (if heavy then "═" else "─")%string in
  let inner := box_width - 2 in
  let l := glyph "╠" (mk_line row start_x []) in
  let l :=
    match title with
    | Some (String _ _ as t) =>
        let l := addstr " " (addstr t (addstr " " (glyph h (glyph h l)))) in
        let used := 2 + 1 + Z.of_nat (String.length t) + 1 in
        let fill := inner - used in
        let fill := if fill <? 0 then 0 else fill in
        glyphs fill h l
    | _ => glyphs inner h l
    end in
  glyph "╣" l.

(** The cells of a bar; the product is an [int]. *)
Definition draw_bar (width current total : Z) (l : line) : res line :=
  if width <=? 0 then Ok l
  else
    fill ← (if 0 <? total then prod ← chk_i32 (current * width); Ok (Z.quot prod total) else Ok 0);
    let fill := if width <? fill then width else fill in
    Ok (glyphs (width - fill) "░" (glyphs fill "█" l)).

(** ** draw_ui *)

(** Box width, left column and bar widths for a terminal of [max_x] columns. *)
Definition box_w (max_x : Z) : Z :=
  let w := max_x - 4 in
  let w := if w <? 52 then 52 else w in
  if 72 <? w then 72 else w.
Definition start_col (max_x : Z) : Z :=
  let sx := Z.quot (max_x - box_w max_x) 2 in
  if sx <? 0 then 0 else sx.
Definition bw_worker (inner : Z) : Z :=
  let w := inner - 7 - 6 in if w <? 4 then 4 else w.
Definition bw_util (inner : Z) : Z :=
  let w := inner - 17 - 1 - 5 in if w <? 4 then 4 else w.

Definition border (row sx bw : Z) (left right : string) : line :=
  glyph right (glyphs (bw - 2) "═" (glyph left (mk_line row sx []))).

Definition title_row (row sx bw : Z) (paused : bool) (elapsed : Z) : line :=
  let uptime := fmt_uptime elapsed 16 in
  let l := glyph "║" (mk_line row sx []) in
  let l := addstr "  Thread Pool Monitor" l in
  let l := if paused then addstr "   !  PAUSED" l
           else addstr "  RUNNING" (glyph "●" (addstr "   " l)) in
  let ubuf := snprintf 24 ("   " +:+ uptime +:+ "  ") in
  let target := sx + bw - 1 - Z.of_nat (String.length ubuf) in
  let l := addstr ubuf (glyphs (target - cursor l) " " l) in
  put_at (sx + bw - 1) "║" l.

(** One line per worker while there is room, [ws i] being the array when the loop reads
    the flag of worker [i]; returns the lines and the next row. *)
Fixpoint worker_rows (left i : nat) (row max_y sx bw : Z) (ws : nat → list worker_t)
    : res (list line * Z) :=
  match left with
  | O => Ok ([], row)
  | S left' =>
      if negb (row <? max_y - 6) then Ok ([], row)
      else
        w ← arr_get (ws i) (Z.of_nat i);
        let b := busy w in
        let l := addstr ("  #" +:+ pad_right 2 (dec (id w)) +:+ "  ")
                   (glyph "║" (mk_line row sx [])) in
        l ← draw_bar (bw_worker (bw - 2)) (if b then 1 else 0) 1 l;
        let l := fill_close sx bw (addstr (if b then "  BUSY" else "  IDLE") l) in
        '(ls, row') ← worker_rows left' (S i) (row + 1) max_y sx bw ws;
        Ok (l :: ls, row')
  end.

Definition util_row (row sx bw nw busy : Z) : res line :=
  let pct := if 0 <? nw then i32 (u32 (busy * 100) / nw) else 0 in
  let l := addstr "  Utilization  [" (glyph "║" (mk_line row sx [])) in
  l ← draw_bar (bw_util (bw - 2)) busy (i32 nw) l;
  Ok (fill_close sx bw (addstr ("  " +:+ pad_left 3 " " (dec pct) +:+ "%") (addstr "]" l))).

Fixpoint stat_rows (stats : list (string * Z * string)) (row max_y sx bw : Z) : list line * Z :=
  match stats with
  | [] => ([], row)
  | (label, value, unit) :: rest =>
      if row <? max_y - 3 then
        let l := addstr ("  " +:+ label) (glyph "║" (mk_line row sx [])) in
        let l := addstr unit (addstr (pad_right 5 (dec value)) (addstr "  " l)) in
        let '(ls, row') := stat_rows rest (row + 1) max_y sx bw in
        (fill_close sx bw l :: ls, row')
      else ([], row)
  end.

Definition hint_row (row sx bw : Z) (paused : bool) : line :=
  let l := glyph "║" (mk_line row sx []) in
  fill_close sx bw (addstr "        [q] detach"
    (addstr (if paused then " [r] resume" else " [p] pause") l)).

(** The whole frame: [None] is a NULL pool (nothing is drawn); [now] is the wall
    clock and [start_time] the pool's.  The loads are those of num_working, then the
    total, [paused], and the flag of each worker as its row is drawn. *)
Definition draw_ui (max_y max_x : Z) (pool : option view) (now start_time : Z)
    : res (list line) :=
  match pool with
  | None => Ok []
  | Some v =>
      let nw := num_workers (v 0%nat) in
      let loads := Z.to_nat nw in
      busy ← thread_pool_num_working (Some v);
      let in_sys := total_task_in_system (v loads) in
      let paused := paused (v (loads + 1)%nat) in
      let bw := box_w max_x in
      let sx := start_col max_x in
      let top := border 1 sx bw "╔" "╗" in
      let title := title_row 2 sx bw paused (now - start_time) in
      let sec := snprintf 48 ("WORKERS  " +:+ dec busy +:+ " / " +:+ dec nw +:+ " busy") in
      let workers_rule := draw_rule 3 sx bw (Some sec) true in
      '(wl, row) ← worker_rows loads 0 4 max_y sx bw (workers ∘ later (loads + 2) v);
      let stats_rule := draw_rule row sx bw (Some "STATS"%string) true in
      let row := row + 1 in
      '(ul, row) ← (if row <? max_y - 4
                    then u ← util_row row sx bw nw busy; Ok ([u], row + 1)
                    else Ok ([], row));
      pending ← chk_i32 (in_sys - busy);
      let pending := if pending <? 0 then 0 else pending in
      let '(sl, row) :=
        stat_rows [("Active   ", busy, " workers busy"); ("Pending  ", pending, " tasks in queue");
                   ("In system", in_sys, " total")]%string row max_y sx bw in
      let rule := draw_rule row sx bw None false in
      let row := row + 1 in
      let '(hl, row) := if row <? max_y - 1 then ([hint_row row sx bw paused], row + 1)
                        else ([], row) in
      let bl := if row <? max_y then [border row sx bw "╚" "╝"] else [] in
      Ok (top :: title :: workers_rule :: wl ++ stats_rule :: ul ++ sl ++ rule :: hl ++ bl)
  end.

(** ** Frames fit their box *)

Definition width (l : line) : Z := Z.of_nat (length (ln_cells l)).

Create Rewrite HintDb ui.

Lemma width_glyph g l : width (glyph g l) = width l + 1.
Proof. unfold width, glyph, put_cells. simpl. rewrite length_app. simpl. lia. Qed.
Lemma width_glyphs n g l : width (glyphs n g l) = width l + Z.max 0 n.
Proof. unfold width, glyphs, put_cells. simpl. rewrite length_app, length_replicate. lia. Qed.
Lemma width_addstr s l : width (addstr s l) = width l + Z.of_nat (String.length s).
Proof. unfold width, addstr, put_cells. simpl. rewrite length_app, length_cells. lia. Qed.
Lemma width_start row col : width (mk_line row col []) = 0.
Proof. done. Qed.
#[export] Hint Rewrite width_glyph width_glyphs width_addstr width_start length_append
  length_pad_right : ui.
Ltac widths := autorewrite with ui; rewrite ?length_pad_left by reflexivity; cbn [String.length].

(** Line [l] is row [row] of a box of [bw] columns at column [sx]. *)
Definition framed (sx bw row : Z) (l : line) : Prop :=
  ln_row l = row ∧ ln_col l = sx ∧ width l = bw.

(** [ls] are consecutive rows of the box from [row] on. *)
Fixpoint framed_from (sx bw row : Z) (ls : list line) : Prop :=
  match ls with
  | [] => True
  | l :: ls' => framed sx bw row l ∧ framed_from sx bw (row + 1) ls'
  end.

Lemma framed_app sx bw row l1 l2 :
  framed_from sx bw row (l1 ++ l2) ↔
  framed_from sx bw row l1 ∧ framed_from sx bw (row + Z.of_nat (length l1)) l2.
Proof.
  revert row. induction l1 as [|l l1 IH]; intros row; simpl.
  - rewrite Z.add_0_r. tauto.
  - rewrite IH. replace (row + 1 + Z.of_nat (length l1)) with (row + Z.of_nat (S (length l1))) by lia.
    tauto.
Qed.

Lemma framed_rows sx bw row ls :
  framed_from sx bw row ls → ln_row <$> ls = seqZ row (Z.of_nat (length ls)).
Proof.
  revert row. induction ls as [|l ls IH]; intros row H; [done|].
  destruct H as [(Hr & _) H]. rewrite fmap_cons, (IH _ H), Hr.
  rewrite (seqZ_cons row (Z.of_nat (length (l :: ls)))) by (simpl; lia).
  f_equal. f_equal; simpl; lia.
Qed.

Lemma framed_all sx bw row ls :
  framed_from sx bw row ls → Forall (λ l, ln_col l = sx ∧ width l = bw) ls.
Proof.
  revert row. induction ls as [|l ls IH]; intros row; [done|].
  intros [(_ & Hc & Hw) Hl]. constructor; [done|]. by apply (IH _ Hl).
Qed.

Lemma fill_close_framed sx bw row l :
  ln_row l = row → ln_col l = sx → width l ≤ bw - 1 → framed sx bw row (fill_close sx bw l).
Proof.
  intros Hr Hc Hw. unfold framed. split_and!; [done|done|]. unfold fill_close. widths.
  unfold cursor. fold (width l). lia.
Qed.

Lemma draw_rule_framed row sx bw title heavy :
  2 ≤ bw → Z.of_nat (from_option String.length O title) + 6 ≤ bw →
  framed sx bw row (draw_rule row sx bw title heavy).
Proof.
  intros Hb Ht. unfold framed, draw_rule.
  destruct title as [[|a t]|]; simpl in Ht; (split_and!; [done|done|]); widths; try lia.
  destruct (Z.ltb_spec (bw - 2 - (2 + 1 + Z.of_nat (S (String.length t)) + 1)) 0); lia.
Qed.

Lemma draw_bar_ok w current total l :
  0 < w → 0 ≤ current → current * w < 2 ^ 31 →
  ∃ l', draw_bar w current total l = Ok l' ∧ ln_row l' = ln_row l ∧ ln_col l' = ln_col l ∧
    width l' = width l + w.
Proof.
  intros Hw Hc Hp. unfold draw_bar. destruct (Z.leb_spec w 0); [lia|].
  assert (Hf : ∃ fill, (if 0 <? total then prod ← chk_i32 (current * w); Ok (Z.quot prod total)
                        else Ok 0) = Ok fill ∧ 0 ≤ fill).
  { destruct (Z.ltb_spec 0 total); [|by exists 0]. rewrite chk_i32_ok by nia.
    exists (Z.quot (current * w) total). split; [done|]. apply Z.quot_pos; nia. }
  destruct Hf as (fill & Hf & H0). unfold mbind, res_bind in *. rewrite Hf.
  eexists. split; [done|]. split_and!; [done|done|]. widths.
  destruct (Z.ltb_spec w fill); lia.
Qed.

Lemma border_framed row sx bw left right :
  2 ≤ bw → framed sx bw row (border row sx bw left right).
Proof. intros. unfold framed, border. split_and!; [done|done|]. widths. lia. Qed.

Lemma hint_framed row sx bw p : 52 ≤ bw → framed sx bw row (hint_row row sx bw p).
Proof.
  intros. unfold hint_row. apply fill_close_framed; [done|done|]. widths. destruct p; simpl; lia.
Qed.

Lemma put_at_width x g l :
  0 ≤ x - ln_col l → width l ≤ x - ln_col l → width (put_at x g l) = x - ln_col l + 1.
Proof.
  intros Hx Hw. unfold width, put_at in *. simpl. rewrite length_app. simpl.
  rewrite length_take, length_app, length_replicate, length_drop. lia.
Qed.

(** Hours, minutes and seconds of an uptime. *)
Lemma uptime_parts e h :
  0 ≤ e < 3600 * h → h ≤ 2 ^ 31 →
  i32 (Z.quot e 3600) = e / 3600 ∧ 0 ≤ e / 3600 < h ∧
  i32 (Z.quot (Z.rem e 3600) 60) = e mod 3600 / 60 ∧ 0 ≤ e mod 3600 / 60 < 60 ∧
  i32 (Z.rem e 60) = e mod 60 ∧ 0 ≤ e mod 60 < 60.
Proof.
  intros He Hh. assert (Hd : 0 ≤ e / 3600 < h).
  { split; [apply Z.div_pos; lia|apply Z.div_lt_upper_bound; lia]. }
  assert (Hm := Z.mod_pos_bound e 3600 ltac:(lia)). assert (Hs := Z.mod_pos_bound e 60 ltac:(lia)).
  assert (Hn : 0 ≤ e mod 3600 / 60 < 60).
  { split; [apply Z.div_pos; lia|apply Z.div_lt_upper_bound; lia]. }
  rewrite (Z.quot_div_nonneg e) by lia. rewrite !(Z.rem_mod_nonneg e) by lia.
  rewrite (Z.quot_div_nonneg (e mod 3600)) by lia. rewrite !i32_small by lia. done.
Qed.

Lemma uptime_length e k :
  (2 ≤ k ≤ 9)%nat → 0 ≤ e < 3600 * 10 ^ Z.of_nat k → (String.length (fmt_uptime e 16) ≤ k + 6)%nat.
Proof.
  intros Hk He.
  assert (Hp : 10 ^ Z.of_nat k ≤ 10 ^ 9) by (apply Z.pow_le_mono_r; lia).
  destruct (uptime_parts e (10 ^ Z.of_nat k)) as (E1 & H1 & E2 & H2 & E3 & H3); [lia|lia|].
  unfold fmt_uptime. rewrite length_snprintf, E1, E2, E3. widths.
  pose proof (length_dec (e / 3600) k ltac:(lia) H1).
  pose proof (length_dec (e mod 3600 / 60) 2 ltac:(lia) ltac:(simpl; lia)).
  pose proof (length_dec (e mod 60) 2 ltac:(lia) ltac:(simpl; lia)). lia.
Qed.

Lemma title_framed row sx bw p e :
  52 ≤ bw → 0 ≤ e < 3600 * 10 ^ 5 → framed sx bw row (title_row row sx bw p e).
Proof.
  intros Hb He. pose proof (uptime_length e 5 ltac:(lia) He) as Hu.
  unfold framed, title_row.
  set (up := fmt_uptime e 16) in *. set (ubuf := snprintf 24 _).
  assert (Hub : (String.length ubuf ≤ 16)%nat).
  { unfold ubuf. rewrite length_snprintf. widths. lia. }
  clearbody ubuf. split_and!; [by destruct p|by destruct p|].
  set (l := if p then _ else _).
  assert (Hl : ln_col l = sx ∧ width l ≤ 35).
  { unfold l. destruct p; (split; [done|]); widths; lia. }
  destruct Hl as [Hc Hl]. clearbody l.
  set (l' := addstr ubuf _).
  assert (Hl' : ln_col l' = sx ∧ width l' = bw - 1).
  { unfold l'. split; [done|]. widths. unfold cursor. fold (width l). lia. }
  destruct Hl' as [Hc' Hl'].
  rewrite put_at_width; lia.
Qed.

Lemma worker_rows_ok left i row max_y sx bw ws :
  52 ≤ bw ≤ 72 → (∀ j, (i + left ≤ length (ws j))%nat) →
  (∀ j, Forall (λ w, 0 ≤ id w < 100) (ws j)) →
  ∃ ls, worker_rows left i row max_y sx bw ws = Ok (ls, row + Z.of_nat (length ls)) ∧
    framed_from sx bw row ls ∧ (length ls ≤ left)%nat ∧
    (ls = [] ∨ row + Z.of_nat (length ls) ≤ max_y - 6).
Proof.
  intros Hb. revert i row. induction left as [|left IH]; intros i row Hi Hid.
  { exists []. rewrite Z.add_0_r. simpl. auto. }
  cbn [worker_rows]. destruct (Z.ltb_spec row (max_y - 6)); simpl negb; cbv iota;
    [|exists []; rewrite Z.add_0_r; split_and!; [done|done|simpl; lia|by left]].
  destruct (lookup_lt_is_Some_2 (ws i) i) as [w Hw]; [specialize (Hi i); lia|].
  rewrite (arr_get_ok _ _ _ Hw). unfold mbind, res_bind.
  pose proof (proj1 (Forall_lookup _ (ws i)) (Hid i) i w Hw) as Hidw. simpl in Hidw.
  set (l := addstr _ _).
  assert (Hl : ln_row l = row ∧ ln_col l = sx ∧ width l = 8).
  { unfold l. split_and!; [done|done|]. widths.
    pose proof (length_dec (id w) 2 ltac:(lia) ltac:(simpl; lia)). lia. }
  destruct Hl as (Hr & Hc & Hwl). clearbody l.
  assert (Hbw : bw_worker (bw - 2) = bw - 15) by (unfold bw_worker; destruct (Z.ltb_spec (bw - 2 - 7 - 6) 4); lia).
  rewrite Hbw.
  destruct (draw_bar_ok (bw - 15) (if busy w then 1 else 0) 1 l) as (l' & -> & Hr' & Hc' & Hw');
    [lia|destruct (busy w); lia|destruct (busy w); lia|].
  destruct (IH (S i) (row + 1) ltac:(intros j; specialize (Hi j); lia) Hid) as (ls & -> & Hf & Hlen & Hend).
  eexists. split; [f_equal; f_equal; simpl length; lia|]. split_and!.
  - split; [|done]. apply fill_close_framed; [simpl; congruence|simpl; congruence|].
    widths. destruct (busy w); simpl; lia.
  - simpl length. lia.
  - right. simpl length. destruct Hend as [-> |Hend]; simpl; lia.
Qed.

Lemma box_w_range max_x : 52 ≤ box_w max_x ≤ 72.
Proof.
  unfold box_w. destruct (Z.ltb_spec (max_x - 4) 52);
    [destruct (Z.ltb_spec 72 52)|destruct (Z.ltb_spec 72 (max_x - 4))]; lia.
Qed.

Lemma box_on_screen max_x : 52 ≤ max_x → 0 ≤ start_col max_x ∧ start_col max_x + box_w max_x ≤ max_x.
Proof.
  intros Hx. assert (Hb : box_w max_x ≤ max_x).
  { unfold box_w. destruct (Z.ltb_spec (max_x - 4) 52);
      [destruct (Z.ltb_spec 72 52)|destruct (Z.ltb_spec 72 (max_x - 4))]; lia. }
  unfold start_col. rewrite Z.quot_div_nonneg by lia.
  pose proof (Z.div_mod (max_x - box_w max_x) 2 ltac:(lia)).
  pose proof (Z.mod_pos_bound (max_x - box_w max_x) 2 ltac:(lia)).
  destruct (Z.ltb_spec ((max_x - box_w max_x) / 2) 0); lia.
Qed.

Lemma util_row_ok row sx bw nw b :
  52 ≤ bw ≤ 72 → 0 ≤ b ≤ nw → b < 2 ^ 16 →
  ∃ l, util_row row sx bw nw b = Ok l ∧ framed sx bw row l.
Proof.
  intros Hb Hn Hs. unfold util_row.
  assert (Hbw : bw_util (bw - 2) = bw - 25) by (unfold bw_util; destruct (Z.ltb_spec (bw - 2 - 17 - 1 - 5) 4); lia).
  rewrite Hbw. set (l := addstr _ _).
  destruct (draw_bar_ok (bw - 25) b (i32 nw) l) as (l' & Hd & Hr & Hc & Hw); [lia|lia|nia|].
  unfold mbind, res_bind. rewrite Hd. eexists. split; [done|].
  set (pct := if 0 <? nw then _ else _).
  assert (Hp : 0 ≤ pct < 10 ^ Z.of_nat 3).
  { unfold pct. destruct (Z.ltb_spec 0 nw); [|simpl; lia]. rewrite u32_small by lia.
    assert (0 ≤ b * 100 / nw ≤ 100).
    { split; [apply Z.div_pos; lia|]. apply Z.div_le_upper_bound; lia. }
    rewrite i32_small by lia. simpl. lia. }
  clearbody pct. apply fill_close_framed; [done|done|]. widths.
  pose proof (length_dec pct 3 ltac:(lia) Hp). rewrite Hw. unfold l. widths. lia.
Qed.

Lemma stat_rows_ok stats row max_y sx bw :
  52 ≤ bw →
  Forall (λ '(label, v, unit), String.length label = 9%nat ∧ 0 ≤ v < 2 ^ 31 ∧
            (String.length unit ≤ 15)%nat) stats →
  ∃ ls, stat_rows stats row max_y sx bw = (ls, row + Z.of_nat (length ls)) ∧
    framed_from sx bw row ls ∧ (ls = [] ∨ row + Z.of_nat (length ls) ≤ max_y - 3).
Proof.
  intros Hb Hs. revert row. induction Hs as [|[[label v] unit] stats (Hl & Hv & Hu) Hs IH]; intros row.
  { exists []. rewrite Z.add_0_r. simpl. auto. }
  cbn [stat_rows]. destruct (Z.ltb_spec row (max_y - 3));
    [|exists []; rewrite Z.add_0_r; split_and!; [done|done|by left]].
  destruct (IH (row + 1)) as (ls & -> & Hf & Hend).
  eexists. split; [f_equal; simpl length; lia|]. split; [split; [|done]|].
  - apply fill_close_framed; [done|done|]. widths.
    pose proof (length_dec v 10 ltac:(lia) ltac:(simpl; lia)). lia.
  - right. simpl length. destruct Hend as [-> |Hend]; simpl; lia.
Qed.

Lemma framed_last sx bw row ls l :
  framed_from sx bw row (ls ++ [l]) → ln_row l = row + Z.of_nat (length ls).
Proof. rewrite framed_app. intros (_ & (Hr & _) & _). done. Qed.

(** What draw_ui needs to know about the pool at its loads: as many workers as it
    says, at most 100 of them with ids of two digits, and a task counter in range. *)
Record drawable (v : view) : Prop := {
  dr_workers : ∀ j, num_workers (v 0%nat) = Z.of_nat (length (workers (v j)));
  dr_max : num_workers (v 0%nat) ≤ 100;
  dr_ids : ∀ j, Forall (λ w, 0 ≤ id w < 100) (workers (v j));
  dr_total : ∀ j, 0 ≤ total_task_in_system (v j) < 2 ^ 31
}.

Lemma drawable_busy v :
  drawable v → ∃ b, thread_pool_num_working (Some v) = Ok b ∧ 0 ≤ b ≤ num_workers (v 0%nat).
Proof.
  intros D. pose proof (dr_workers _ D) as Hl. pose proof (dr_max _ D). pose proof (Hl 0%nat) as Hl0.
  assert (Hu : num_workers (v 0%nat) mod 2 ^ 16 = num_workers (v 0%nat)) by (apply Z.mod_small; lia).
  eexists. rewrite num_working_counts, Hu by (rewrite Hu; intros j ?; specialize (Hl j); lia).
  split; [done|]. pose proof (tally_unit _ (seq 0 (Z.to_nat (num_workers (v 0%nat)))) (flag_seen_bound (workers ∘ v))) as Hb.
  rewrite length_seq in Hb. lia.
Qed.

Lemma section_framed sx bw b nw :
  52 ≤ bw → 0 ≤ b ≤ nw → nw ≤ 100 →
  framed sx bw 3 (draw_rule 3 sx bw
    (Some (snprintf 48 ("WORKERS  " +:+ dec b +:+ " / " +:+ dec nw +:+ " busy"))) true).
Proof.
  intros Hbw Hb Hn. apply draw_rule_framed; [lia|]. cbn [from_option]. rewrite length_snprintf. widths.
  pose proof (length_dec b 3 ltac:(lia) ltac:(simpl; lia)).
  pose proof (length_dec nw 3 ltac:(lia) ltac:(simpl; lia)). lia.
Qed.

Lemma draw_ui_framed max_y max_x v now start_time :
  10 ≤ max_y → 0 ≤ now - start_time < 3600 * 10 ^ 5 → drawable v →
  ∃ ls row, draw_ui max_y max_x (Some v) now start_time =
              Ok (ls ++ [border row (start_col max_x) (box_w max_x) "╚" "╝"]) ∧
    framed_from (start_col max_x) (box_w max_x) 1
      (ls ++ [border row (start_col max_x) (box_w max_x) "╚" "╝"]) ∧ row < max_y.
Proof.
  intros Hy Htime D. pose proof (box_w_range max_x) as Hb.
  pose proof (dr_workers _ D 0%nat) as Hnw. pose proof (dr_max _ D) as Hmax.
  set (nw := num_workers (v 0%nat)) in *. pose proof (dr_total _ D (Z.to_nat nw)) as Htot.
  unfold draw_ui. fold nw. destruct (drawable_busy v D) as (b & -> & Hbz). unfold mbind, res_bind.
  set (sx := start_col max_x) in *. set (bw := box_w max_x) in *. clearbody sx bw.
  destruct (worker_rows_ok (Z.to_nat nw) 0 4 max_y sx bw (workers ∘ later (Z.to_nat nw + 2) v)) as
    (wl & Hwl & Fw & Lw & Ew); [lia| |intros j; apply D|].
  { intros j. pose proof (dr_workers _ D (Z.to_nat nw + 2 + j)%nat). simpl. unfold later. lia. }
  rewrite Hwl. clear Hwl. set (in_sys := total_task_in_system (v (Z.to_nat nw))) in *.
  set (row := 4 + Z.of_nat (length wl)).
  assert (Hrow : row ≤ max_y - 6) by (unfold row; destruct Ew as [-> |]; simpl; lia).
  destruct (Z.ltb_spec (row + 1) (max_y - 4)); [|lia].
  destruct (util_row_ok (row + 1) sx bw nw b) as (u & -> & Fu); [lia..|].
  rewrite chk_i32_ok by lia. set (pending := if in_sys - b <? 0 then _ else _).
  assert (Hpend : 0 ≤ pending < 2 ^ 31).
  { unfold pending. destruct (Z.ltb_spec (in_sys - b) 0); lia. }
  destruct (stat_rows_ok [("Active   ", b, " workers busy"); ("Pending  ", pending, " tasks in queue");
     ("In system", in_sys, " total")]%string (row + 1 + 1) max_y sx bw)
    as (sl & -> & Fs & Es); [lia|repeat constructor; simpl; lia|].
  set (row' := row + 1 + 1 + Z.of_nat (length sl)) in *.
  assert (Hrow' : row' ≤ max_y - 3) by (unfold row'; destruct Es as [-> |]; simpl; lia).
  destruct (Z.ltb_spec (row' + 1) (max_y - 1)); [|lia].
  destruct (Z.ltb_spec (row' + 1 + 1) max_y); [|lia].
  eexists (_ :: _ :: _ :: wl ++ _ :: [u] ++ sl ++ [_; _]), _.
  split; [f_equal; simpl; rewrite <- !app_assoc; simpl; by rewrite <- !app_assoc|]. split; [|done].
  rewrite <- !app_comm_cons, <- !app_assoc, <- !app_comm_cons, <- !app_assoc.
  split; [by apply border_framed; lia|]. split; [by apply title_framed; lia|].
  split; [by apply section_framed; lia|]. change (1 + 1 + 1 + 1) with 4.
  apply framed_app. split; [done|]. split; [by apply draw_rule_framed; simpl; lia|]. split; [done|].
  simpl app at 1. apply framed_app. split; [done|]. split; [by apply draw_rule_framed; simpl; lia|].
  split; [by apply hint_framed; lia|]. split; [by apply border_framed; lia|done].
Qed.

(** C30: On a terminal of at least 52 columns and 10 rows a frame stays on the screen
    and is a closed box: consecutive rows from row 1, all of the box's width, the last
    one the bottom border. The pool has at most 100 workers, with ids of two digits, and
    a task counter in range, whatever it does between the loads, and the uptime is below
    100000 hours. *)
Theorem frame_fits max_y max_x v now start_time :
  10 ≤ max_y → 52 ≤ max_x → 0 ≤ now - start_time < 3600 * 10 ^ 5 → drawable v →
  ∃ ls, draw_ui max_y max_x (Some v) now start_time = Ok ls ∧
    ln_row <$> ls = seqZ 1 (Z.of_nat (length ls)) ∧ Z.of_nat (length ls) < max_y ∧
    Forall (λ l, ln_col l = start_col max_x ∧ width l = box_w max_x) ls ∧
    0 ≤ start_col max_x ∧ start_col max_x + box_w max_x ≤ max_x ∧
    last ls = Some (border (Z.of_nat (length ls)) (start_col max_x) (box_w max_x) "╚" "╝").
Proof.
  intros Hy Hx Ht D. destruct (draw_ui_framed max_y max_x v now start_time Hy Ht D) as (ls & row & E & F & Hr).
  destruct (box_on_screen max_x Hx) as [H1 H2]. pose proof (framed_last _ _ _ _ _ F) as Hl. simpl in Hl.
  exists (ls ++ [border row (start_col max_x) (box_w max_x) "╚" "╝"]).
  rewrite length_app, last_snoc. simpl length.
  replace (Z.of_nat (length ls + 1)) with row by lia. split_and!; try done.
  - rewrite (framed_rows _ _ _ _ F). f_equal. rewrite length_app. simpl. lia.
  - by eapply framed_all.
Qed.

(** The displayed uptime reads back as the elapsed time. *)
Theorem uptime_roundtrip e :
  0 ≤ e < 3600 * 10 ^ 9 →
  ∃ h m s, fmt_uptime e 16 = h +:+ ":" +:+ m +:+ ":" +:+ s ∧
    String.length m = 2%nat ∧ String.length s = 2%nat ∧
    value m < 60 ∧ value s < 60 ∧ 3600 * value h + 60 * value m + value s = e.
Proof.
  intros He. destruct (uptime_parts e (10 ^ 9)) as (E1 & H1 & E2 & H2 & E3 & H3); [lia|lia|].
  unfold fmt_uptime. rewrite E1, E2, E3.
  pose proof (length_dec (e / 3600) 9 ltac:(lia) ltac:(simpl; lia)).
  pose proof (length_dec (e mod 3600 / 60) 2 ltac:(lia) ltac:(simpl; lia)).
  pose proof (length_dec (e mod 60) 2 ltac:(lia) ltac:(simpl; lia)).
  do 3 eexists. split; [apply snprintf_fits; widths; lia|].
  rewrite !value_pad by lia. split_and!; try (widths; lia); try lia.
  pose proof (Z.div_mod e 3600 ltac:(lia)). pose proof (Z.div_mod (e mod 3600) 60 ltac:(lia)).
  assert (e mod 60 = (e mod 3600) mod 60); [|lia].
  replace 3600 with (60 * 60) by lia. rewrite Z.rem_mul_r by lia.
  rewrite (Z.mul_comm 60), Z_mod_plus_full, Z.mod_mod; lia.
Qed.

(** ** The theorems at concrete values *)

Lemma frame_fits_witness :
  ∃ ls, draw_ui 24 80 (Some (still (init_pool 3))) 4000 100 = Ok ls ∧
    ln_row <$> ls = seqZ 1 (Z.of_nat (length ls)) ∧ Z.of_nat (length ls) < 24 ∧
    Forall (λ l, ln_col l = start_col 80 ∧ width l = box_w 80) ls ∧
    0 ≤ start_col 80 ∧ start_col 80 + box_w 80 ≤ 80 ∧
    last ls = Some (border (Z.of_nat (length ls)) (start_col 80) (box_w 80) "╚" "╝").
Proof.
  apply (frame_fits 24 80 (still (init_pool 3)) 4000 100); [lia..|].
  split; [done|done| |done]. intros j. repeat constructor; vm_compute; done.
Defined.

Example uptime_text : fmt_uptime 3725 16 = "01:02:05"%string.
Proof. reflexivity. Qed.

Lemma uptime_roundtrip_witness :
  ∃ h m s, fmt_uptime 3725 16 = h +:+ ":" +:+ m +:+ ":" +:+ s ∧
    String.length m = 2%nat ∧ String.length s = 2%nat ∧
    value m < 60 ∧ value s < 60 ∧ 3600 * value h + 60 * value m + value s = 3725.
Proof. apply (uptime_roundtrip 3725). lia. Defined.
