(* ===== verification/Monitor.v ===== *)
(** * Monitor: the life cycle of the monitor thread
      (src/monitor.c, src/internal/struct.h; monitor_thread, monitor_start,
      monitor_stop, monitor_detach, monitor_reattach, monitor_attached)

    A program of the machine of Pthread.v: thread 0 makes the API calls, one after
    the other, and every other thread runs monitor_thread.  A call does not depend
    on the thread that makes it, so thread 0 stands for all callers that do not
    overlap; the functions take no lock, and two calls that do overlap can join the
    same thread twice ([detach_twice]).  What a frame looks like is in MonitorUi.v;
    here drawing is a step that touches nothing. *)
From S2P Require Export Pthread.
From Stdlib Require Import Ascii.
Local Open Scope Z_scope.

Module Monitor.

(** [struct monitor_t]; [tid] is the index of the thread. *)
Record monitor_t := mk_monitor {
  tid : nat;
  tid_valid : bool;
  running : bool;             (* atomic_bool *)
  ever_init : bool            (* atomic_bool *)
}.

(** With the pool's [paused] flag, the ncurses screen (initscr or refresh to
    endwin, counted by threads), and two ghosts: whether monitor_start was called
    and the threads joined so far. *)
Record state := mk_state {
  m : monitor_t;
  paused : bool;
  screen : Z;
  g_started : bool;
  g_joined : list nat
}.

Definition upd (f : monitor_t → monitor_t) (s : state) : state :=
  mk_state (f (m s)) (paused s) (screen s) (g_started s) (g_joined s).
Definition set_tid (t : nat) : state → state :=
  upd (λ m, mk_monitor t (tid_valid m) (running m) (ever_init m)).
Definition set_valid (b : bool) : state → state :=
  upd (λ m, mk_monitor (tid m) b (running m) (ever_init m)).
Definition set_running (b : bool) : state → state :=
  upd (λ m, mk_monitor (tid m) (tid_valid m) b (ever_init m)).
Definition set_init : state → state :=
  upd (λ m, mk_monitor (tid m) (tid_valid m) (running m) true).
Definition set_paused (b : bool) (s : state) : state :=
  mk_state (m s) b (screen s) (g_started s) (g_joined s).
Definition set_screen (n : Z) (s : state) : state :=
  mk_state (m s) (paused s) n (g_started s) (g_joined s).
Definition set_started (s : state) : state :=
  mk_state (m s) (paused s) (screen s) true (g_joined s).
(** [tid_valid = false] after a join, which the ghost records. *)
Definition clear_joined (s : state) : state :=
  set_valid false (mk_state (m s) (paused s) (screen s) (g_started s) (tid (m s) :: g_joined s)).

Inductive call := Start | Stop | Detach | Reattach | Attached.
Inductive answer := ANone | AVoid (c : call) | AInt (c : call) (z : Z) | ABool (b : bool).

Inductive pc :=
| K_idle (a : answer)
| St_load | St_store | St_create | St_fail | St_valid                  (* 374-384 *)
| Sp_load | Sp_store | Sp_check | Sp_join | Sp_clear                   (* 392-397 *)
| Dt_load | Dt_store | Dt_join | Dt_clear                              (* 407-413 *)
| Ra_load | Ra_init | Ra_check | Ra_join | Ra_clear | Ra_store
| Ra_create | Ra_fail | Ra_valid                                       (* 421-440 *)
| At_load                                                              (* 446 *)
| MT_start                            (* 306: load ever_init *)
| MT_mark                             (* 307 *)
| MT_screen                           (* 308-331 *)
| MT_loop                             (* 335: load running *)
| MT_key                              (* 336-341: draw, getch *)
| MT_p_load | MT_pause                (* 343-344 *)
| MT_r_load | MT_resume               (* 347-348 *)
| MT_quit                             (* 355 *)
| MT_end                              (* 364: endwin *)
| MT_exit.                            (* 366 *)

Inductive choice := Tau | Call (c : call) | Key (ch : Ascii.ascii) | NoKey.

Abbreviation maction := (action state pc Empty_set Empty_set choice).
Abbreviation mconfig := (config state pc Empty_set Empty_set).

Definition atom (f : state → state * pc) : maction :=
  AStep (λ _ s, let '(s', p) := f s in Next s' p).
Definition branch (b : state → bool) (yes no : pc) : maction :=
  atom (λ s, (s, if b s then yes else no)).

(** The key table of lines 341-361. *)
Definition key_action (ch : Ascii.ascii) : pc :=
  if decide (ch = "p"%char ∨ ch = "P"%char) then MT_p_load
  else if decide (ch = "r"%char ∨ ch = "R"%char) then MT_r_load
  else if decide (ch = "q"%char ∨ ch = "Q"%char) then MT_quit
  else MT_loop.

Section Code.
(** [once]: the caller follows the header's rule that monitor_start is called at
    most once. *)
Context (once : bool).

Definition client (p : pc) : maction :=
  match p with
  | K_idle _ => AStep (λ z s,
      match z with
      | Call Start => if once && g_started s then Stuck else Next (set_started s) St_load
      | Call Stop => Next s Sp_load
      | Call Detach => Next s Dt_load
      | Call Reattach => Next s Ra_load
      | Call Attached => Next s At_load
      | _ => Stuck
      end)
  | _ => AExit
  end.

Definition monitor_start (p : pc) : maction :=
  match p with
  | St_load => branch (λ s, running (m s)) (K_idle (AVoid Start)) St_store
  | St_store => atom (λ s, (set_running true s, St_create))
  | St_create => ASpawn MT_start (λ n s, (set_tid n s, St_valid)) (λ s, (s, St_fail))
  | St_fail => atom (λ s, (set_running false s, K_idle (AVoid Start)))
  | St_valid => atom (λ s, (set_valid true s, K_idle (AVoid Start)))
  | _ => AExit
  end.

Definition monitor_stop (p : pc) : maction :=
  match p with
  | Sp_load => branch (λ s, running (m s)) Sp_store Sp_check
  | Sp_store => atom (λ s, (set_running false s, Sp_check))
  | Sp_check => branch (λ s, tid_valid (m s)) Sp_join (K_idle (AVoid Stop))
  | Sp_join => AJoin (λ s, tid (m s)) Sp_clear
  | Sp_clear => atom (λ s, (clear_joined s, K_idle (AVoid Stop)))
  | _ => AExit
  end.

Definition monitor_detach (p : pc) : maction :=
  match p with
  | Dt_load => branch (λ s, running (m s)) Dt_store (K_idle (AInt Detach (-1)))
  | Dt_store => atom (λ s, (set_running false s, Dt_join))
  | Dt_join => AJoin (λ s, tid (m s)) Dt_clear
  | Dt_clear => atom (λ s, (clear_joined s, K_idle (AInt Detach 0)))
  | _ => AExit
  end.

Definition monitor_reattach (p : pc) : maction :=
  match p with
  | Ra_load => branch (λ s, running (m s)) (K_idle (AInt Reattach (-1))) Ra_init
  | Ra_init => branch (λ s, ever_init (m s)) Ra_check (K_idle (AInt Reattach (-1)))
  | Ra_check => branch (λ s, tid_valid (m s)) Ra_join Ra_store
  | Ra_join => AJoin (λ s, tid (m s)) Ra_clear
  | Ra_clear => atom (λ s, (clear_joined s, Ra_store))
  | Ra_store => atom (λ s, (set_running true s, Ra_create))
  | Ra_create => ASpawn MT_start (λ n s, (set_tid n s, Ra_valid)) (λ s, (s, Ra_fail))
  | Ra_fail => atom (λ s, (set_running false s, K_idle (AInt Reattach (-1))))
  | Ra_valid => atom (λ s, (set_valid true s, K_idle (AInt Reattach 0)))
  | _ => AExit
  end.

Definition monitor_attached (p : pc) : maction :=
  match p with
  | At_load => atom (λ s, (s, K_idle (ABool (running (m s)))))
  | _ => AExit
  end.

(** thread_pool_pause and thread_pool_resume are their store of the flag here, since
    nothing else of theirs touches the monitor; Pool.v has them in full. *)
Definition monitor_thread (p : pc) : maction :=
  match p with
  | MT_start => branch (λ s, ever_init (m s)) MT_screen MT_mark
  | MT_mark => atom (λ s, (set_init s, MT_screen))
  | MT_screen => atom (λ s, (set_screen (screen s + 1) s, MT_loop))
  | MT_loop => branch (λ s, running (m s)) MT_key MT_end
  | MT_key => AStep (λ z s,
      match z with
      | Key ch => Next s (key_action ch)
      | NoKey => Next s MT_loop
      | _ => Stuck
      end)
  | MT_p_load => branch paused MT_loop MT_pause
  | MT_pause => atom (λ s, (set_paused true s, MT_loop))
  | MT_r_load => branch paused MT_resume MT_loop
  | MT_resume => atom (λ s, (set_paused false s, MT_loop))
  | MT_quit => atom (λ s, (set_running false s, MT_loop))
  | MT_end => atom (λ s, (set_screen (screen s - 1) s, MT_exit))
  | _ => AExit
  end.

Definition code (p : pc) : maction :=
  match p with
  | K_idle _ => client p
  | St_load | St_store | St_create | St_fail | St_valid => monitor_start p
  | Sp_load | Sp_store | Sp_check | Sp_join | Sp_clear => monitor_stop p
  | Dt_load | Dt_store | Dt_join | Dt_clear => monitor_detach p
  | Ra_load | Ra_init | Ra_check | Ra_join | Ra_clear | Ra_store | Ra_create | Ra_fail
  | Ra_valid => monitor_reattach p
  | At_load => monitor_attached p
  | MT_start | MT_mark | MT_screen | MT_loop | MT_key | MT_p_load | MT_pause | MT_r_load
  | MT_resume | MT_quit | MT_end | MT_exit => monitor_thread p
  end.
End Code.

(** The state thread_pool_init leaves. *)
Definition init_state : state := mk_state (mk_monitor 0 false false false) false 0 false [].
Definition init_config : mconfig := mk_config init_state (λ _, None) [Running (K_idle ANone)].

(** ** The invariant *)

Definition is_client (p : pc) : bool :=
  match p with
  | MT_start | MT_mark | MT_screen | MT_loop | MT_key | MT_p_load | MT_pause | MT_r_load
  | MT_resume | MT_quit | MT_end | MT_exit => false
  | _ => true
  end.

(** A monitor thread exists that [tid_valid] does not show yet. *)
Definition fresh (k : pc) : bool := match k with St_valid | Ra_valid => true | _ => false end.
(** [running] was set for a thread that does not exist yet. *)
Definition starting (k : pc) : bool :=
  match k with St_create | St_fail | Ra_create | Ra_fail => true | _ => fresh k end.
(** Control points that rely on [tid_valid] being true, or false. *)
Definition joining (k : pc) : bool :=
  match k with
  | Sp_join | Sp_clear | Dt_store | Dt_join | Dt_clear | Ra_join | Ra_clear => true
  | _ => false
  end.
Definition empty (k : pc) : bool :=
  match k with
  | St_store | St_create | St_fail | St_valid | Ra_store | Ra_create | Ra_fail | Ra_valid
  | K_idle (AVoid Stop) => true
  | _ => false
  end.
Definition after_join (k : pc) : bool :=
  match k with Sp_clear | Dt_clear | Ra_clear => true | _ => false end.
(** Control points reached with [running] false. *)
Definition stopping (k : pc) : bool :=
  match k with
  | Sp_check | Sp_join | Sp_clear | K_idle (AVoid Stop) | Dt_join | Dt_clear
  | Ra_init | Ra_check | Ra_join | Ra_clear | Ra_store | St_store => true
  | _ => false
  end.
Definition first_start (k : pc) : bool :=
  match k with St_load | St_store | St_create => true | _ => false end.

(** Control points after monitor_start was called, or a thread seen initialised. *)
Definition begun (k : pc) : bool :=
  match k with
  | St_load | St_store | St_create | St_fail | St_valid
  | Ra_check | Ra_join | Ra_clear | Ra_store | Ra_create | Ra_fail | Ra_valid => true
  | _ => false
  end.

(** Threads between the start of ncurses and endwin, and past line 307. *)
Definition on_screen (p : pc) : Z :=
  match p with
  | MT_loop | MT_key | MT_p_load | MT_pause | MT_r_load | MT_resume | MT_quit | MT_end => 1
  | _ => 0
  end.
Definition initialised (p : pc) : bool :=
  match p with MT_start | MT_mark => false | _ => negb (is_client p) end.

Definition alive (p : pc) : bool :=
  match p with MT_exit => false | _ => negb (is_client p) end.

Record client_ok (s : state) (ps : list pc) (k : pc) : Prop := {
  c_live : ∀ i p, ps !! i = Some p → i ≠ O → p ≠ MT_exit →
             i = tid (m s) ∧ (tid_valid (m s) = true ∨ fresh k = true);
  c_slot : tid_valid (m s) = true ∨ fresh k = true →
             (0 < tid (m s) < length ps)%nat ∧ tid (m s) ∉ g_joined s;
  c_run : running (m s) = true → tid_valid (m s) = true ∨ starting k = true;
  c_valid : joining k = true → tid_valid (m s) = true;
  c_empty : empty k = true → tid_valid (m s) = false;
  c_done : after_join k = true → ps !! tid (m s) = Some MT_exit;
  c_stop : stopping k = true → running (m s) = false;
  c_first : g_started s = false ∨ first_start k = true →
              (∀ i p, ps !! i = Some p → i ≠ O → p = MT_exit) ∧ tid_valid (m s) = false;
  c_begun : ever_init (m s) = true ∨ begun k = true → g_started s = true;
  c_joined : Forall (λ t, t < length ps)%nat (g_joined s)
}.

Record slot_inv (s : state) (ps : list pc) : Prop := {
  i_client : ∃ k, ps !! 0%nat = Some k ∧ is_client k = true ∧ client_ok s ps k;
  i_threads : ∀ i p, ps !! i = Some p → i ≠ O → is_client p = false
}.

Record monitor_inv (s : state) (ps : list pc) : Prop := {
  i_slot : slot_inv s ps;
  i_init : ∀ i p, ps !! i = Some p → initialised p = true → ever_init (m s) = true
}.

Section Inv.
Context (once : bool).
Abbreviation mmove := (move (code once)).

(** A step of a monitor thread: it leaves the thread slot alone, can only clear
    [running], and marks the monitor initialised before it goes on. *)
Lemma thread_move ps p s s' p' sp :
  mmove ps p s s' p' sp → is_client p = false →
  (sp = [] ∧ is_client p' = false ∧ p ≠ MT_exit) ∧
  (tid (m s') = tid (m s) ∧ tid_valid (m s') = tid_valid (m s) ∧
   g_started s' = g_started s ∧ g_joined s' = g_joined s) ∧
  (running (m s') = true → running (m s) = true) ∧
  (ever_init (m s) = true → ever_init (m s') = true) ∧
  (initialised p = false → initialised p' = true → ever_init (m s') = true).
Proof.
  intros H Hc. destruct H as [q Hg|t q p2 Hcd|e cr fl s1 p1 Hcd|e cr fl s1 p1 Hcd|f z s1 p1 Hcd Hf];
    destruct p; try discriminate Hc; try done; try discriminate Hcd; injection Hcd as <-;
    try (injection Hf as <- <-; simpl; destruct (ever_init (m s)), (running (m s)), (paused s); done).
  destruct z as [| |ch|]; try done; injection Hf as <- <-; [|done].
  unfold key_action. repeat case_decide; done.
Qed.

(** The record only depends on the length and on the entries of the others. *)
Lemma client_ok_set s ps k k0 : client_ok s ps k → client_ok s (<[0%nat := k0]> ps) k.
Proof.
  intros [Hl Hs Hr Hv He Hd Hst Hf Hb Hj]. split; rewrite ?length_insert; try done.
  - intros i p Hi Hne. rewrite list_lookup_insert_ne in Hi by done. by apply Hl.
  - intros Ha. destruct (decide (tid (m s) = O)) as [E|E].
    + assert (Hj0 : joining k = true) by (by destruct k). destruct Hs as [? _]; [left; by apply Hv|lia].
    + rewrite list_lookup_insert_ne by done. by apply Hd.
  - intros Hg. destruct (Hf Hg) as [Hx ?]. split; [|done]. intros i p Hi Hne.
    rewrite list_lookup_insert_ne in Hi by done. by apply (Hx i).
Qed.

Ltac client_fields := intros [Hl Hs Hr Hv He Hd Hst Hf Hb Hj]; split; simpl in *; try done;
  try solve [auto | intros; congruence | intuition congruence];
  try (match goal with |- ∀ i p, _ => idtac end; intros i q Hi Hne Hq; destruct (Hl i q Hi Hne Hq) as [-> Hl'];
       first [by auto | rewrite Hd in Hi by done; congruence]);
  try (constructor; [apply Hs; auto|done]);
  try (intros [Hg|Hg]; [|done]; destruct Hs as [? _]; [by auto|]; destruct Hf as [? _]; [by auto|lia]).

Lemma client_atom p f z s s' p' ps :
  once = true → code once p = AStep f → f z s = Next s' p' → is_client p = true →
  client_ok s ps p → is_client p' = true ∧ ever_init (m s') = ever_init (m s) ∧ client_ok s' ps p'.
Proof.
  intros -> Hcd Hx Hc. destruct p; try discriminate Hc; try discriminate Hcd; injection Hcd as <-.
  1: destruct z as [|[]| |]; try discriminate Hx; simpl in Hx;
     try (destruct (g_started s) eqn:?; [discriminate Hx|]).
  all: injection Hx as <- <-;
    try (destruct (running (m s)) eqn:?); try (destruct (tid_valid (m s)) eqn:?);
    try (destruct (ever_init (m s)) eqn:?); intros HC; (split; [done|]); (split; [done|]);
    revert HC; client_fields.
Qed.

(** A new thread takes the slot, which was free. *)
Lemma client_spawn s ps k k' :
  client_ok s ps k → empty k = true → fresh k = false → fresh k' = true → joining k' = false →
  empty k' = true → after_join k' = false → stopping k' = false → first_start k' = false →
  begun k = true → (0 < length ps)%nat →
  client_ok (set_tid (length ps) s) (ps ++ [MT_start]) k'.
Proof.
  intros [Hl Hs Hr Hv He Hd Hst Hf Hb Hj] Hek Hfk Hfk' Hj' He' Ha' Hst' Hf' Hg Hlen. specialize (Hb (or_intror Hg)).
  split; simpl; rewrite ?length_app; simpl; try (intros; congruence).
  - intros i p Hi Hne Hp. apply lookup_app_Some in Hi as [Hi|[Hge Hi]].
    + destruct (Hl i p Hi Hne Hp) as [_ [Ht|Ht]]; [rewrite He in Ht|]; congruence.
    + apply list_lookup_singleton_Some in Hi as [Hi _]. split; [lia|auto].
  - intros _. split; [lia|]. intros Hin. rewrite Forall_forall in Hj. specialize (Hj _ Hin). simpl in Hj. lia.
  - intros _. right. unfold starting. destruct k'; done.
  - intros _. by apply He.
  - intros [?|?]; congruence.
  - eapply Forall_impl; [exact Hj|]. simpl. lia.
Qed.

Lemma client_join s ps k k' :
  client_ok s ps k → joining k = true → fresh k = false → after_join k' = true →
  fresh k' = false → empty k' = false → first_start k' = false →
  (stopping k' = true → stopping k = true) → (begun k' = true → begun k = true) → ps !! tid (m s) = Some MT_exit →
  client_ok s ps k'.
Proof.
  intros [Hl Hs Hr Hv He Hd Hst Hf Hb Hj] Hk Hfk Ha Hfk' He' Hf' Hstop Hbg Hx. specialize (Hv Hk).
  split; try done; try (intros; congruence); auto.
  - intros i p Hi Hne Hp. destruct (Hl i p Hi Hne Hp) as [-> _]. congruence.
  - intros [Hg|?]; [|congruence]. by apply Hf; left.
  - intros [Hg|Hg]; apply Hb; auto.
Qed.

Lemma client_step ps p s s' p' sp :
  once = true → mmove ps p s s' p' sp → is_client p = true → (0 < length ps)%nat →
  (∀ i q, ps !! i = Some q → i ≠ O → is_client q = false) → client_ok s ps p →
  is_client p' = true ∧ ever_init (m s') = ever_init (m s) ∧
  (sp = [] ∨ sp = [MT_start]) ∧ client_ok s' (ps ++ sp) p'.
Proof.
  intros Honce H Hc Hlen Hth C.
  destruct H as [q Hg|t q p2 Hcd Hq Hx|e cr fl s1 p1 Hcd Hn|e cr fl s1 p1 Hcd Hn|f z s1 p1 Hcd Hf].
  - destruct p; done.
  - assert (Hj : joining p = true) by (destruct p; done).
    destruct (c_slot _ _ _ C (or_introl (c_valid _ _ _ C Hj))) as [Ht _].
    assert (Hq' : ps !! tid (m s) = Some MT_exit).
    { destruct p; try discriminate Hcd; injection Hcd as <- _; rewrite Hq; f_equal;
        (assert (Hcq : is_client q = false) by (eapply Hth; [exact Hq|lia]));
        destruct q; try discriminate Hcq; try done. }
    rewrite app_nil_r. destruct p; try discriminate Hcd; injection Hcd as _ <-;
      (split_and!; [done|done|by left|]); eapply client_join; try done; exact C.
  - destruct p; try discriminate Hcd; injection Hcd as <- <- <-; injection Hn as <- <-;
      (split_and!; [done|done|by right|]); eapply client_spawn; try done; exact C.
  - rewrite app_nil_r.
    destruct p; try discriminate Hcd; injection Hcd as <- <- <-; injection Hn as <- <-;
      (split_and!; [done|done|by left|]); destruct C as [Hl Hs Hr Hv He Hd Hst Hf Hb Hj]; split;
      simpl in *; try done; auto; intuition congruence.
  - rewrite app_nil_r. destruct (client_atom _ _ _ _ _ _ _ Honce Hcd Hf Hc C) as (? & ? & ?).
    auto.
Qed.

Lemma thread_step ps i p s s' p' k :
  mmove ps p s s' p' [] → is_client p = false → ps !! i = Some p → i ≠ O →
  client_ok s ps k → client_ok s' (<[i := p']> ps) k.
Proof.
  intros H Hc Hi Hne [Hl Hs Hr Hv He Hd Hst Hf Hb Hj].
  destruct (thread_move _ _ _ _ _ _ H Hc) as ((_ & Hc' & Hx) & (Et & Ev & Eg & Ej) & Hrun & Hin & Hin').
  split; rewrite ?Et, ?Ev, ?Eg, ?Ej, ?length_insert; auto.
  - intros j q Hj' Hnej Hq. destruct (decide (j = i)) as [->|Hne'].
    + by apply (Hl i p).
    + rewrite list_lookup_insert_ne in Hj' by done. by apply (Hl j q).
  - intros Ha. destruct (decide (tid (m s) = i)) as [E|E].
    + rewrite E in Hd. rewrite Hd in Hi by done. congruence.
    + rewrite list_lookup_insert_ne by done. by apply Hd.
  - intros Hs'. destruct (running (m s')) eqn:E; [|done]. rewrite Hst in Hrun by done. by symmetry; apply Hrun.
  - intros Hg. destruct (Hf Hg) as [Hf' _]. by destruct (Hx (Hf' i p Hi Hne)).
  - intros [_|Hk]; [|auto]. destruct (g_started s) eqn:E; [done|].
    destruct (Hf (or_introl eq_refl)) as [Hf' _]. by destruct (Hx (Hf' i p Hi Hne)).
Qed.

(** The thread that moved, the others, and the one that was created. *)
Lemma moved_at (ps : list pc) i p' sp j q :
  (<[i := p']> ps ++ sp) !! j = Some q → (i < length ps)%nat → sp = [] ∨ sp = [MT_start] →
  (j = i ∧ q = p') ∨ (j ≠ i ∧ ps !! j = Some q) ∨ (j ≠ i ∧ q = MT_start).
Proof.
  intros H Hi Hsp. apply lookup_app_Some in H as [H|[Hge H]].
  - apply list_lookup_insert_Some in H as [(-> & <- & _)|[? H]]; auto.
  - rewrite length_insert in Hge. destruct Hsp as [-> | ->]; [done|].
    apply list_lookup_singleton_Some in H as [_ <-]. right. right. split; [lia|done].
Qed.

Lemma slot_step ps i p s s' p' sp :
  once = true → mmove ps p s s' p' sp → ps !! i = Some p → slot_inv s ps →
  slot_inv s' (<[i := p']> ps ++ sp) ∧ (sp = [] ∨ sp = [MT_start]) ∧
  (ever_init (m s) = true → ever_init (m s') = true) ∧
  (initialised p = false → initialised p' = true → ever_init (m s') = true).
Proof.
  intros Honce H Hi [(k & Hk & Hck & C) Hth]. pose proof (lookup_lt_Some _ _ _ Hk) as Hlen.
  pose proof (lookup_lt_Some _ _ _ Hi) as Hlt.
  destruct (decide (i = O)) as [->|Hne].
  - rewrite Hk in Hi. injection Hi as ->.
    destruct (client_step _ _ _ _ _ _ Honce H Hck Hlen Hth C) as (Hc' & He & Hsp & C').
    split; [|split_and!; [done|by rewrite He|by destruct p']]. split.
    + exists p'. split_and!; [|done|].
      * rewrite lookup_app_l by (by rewrite length_insert). by apply list_lookup_insert_eq.
      * rewrite <- insert_app_l by done. by apply client_ok_set.
    + intros j q Hj Hne. destruct (moved_at _ _ _ _ _ _ Hj Hlt Hsp) as [[? _]|[[_ Ho]|[_ ->]]]; [done|by eapply Hth|done].
  - pose proof (Hth _ _ Hi Hne) as Hc.
    destruct (thread_move _ _ _ _ _ _ H Hc) as ((-> & Hc' & Hx) & _ & _ & He & He').
    split; [|split_and!; [by left|done|done]]. split.
    + exists k. rewrite app_nil_r, list_lookup_insert_ne by done. split_and!; [done|done|by eapply thread_step].
    + intros j q Hj Hnej. destruct (moved_at _ _ _ _ _ _ Hj Hlt (or_introl eq_refl)) as [[_ ->]|[[_ Ho]|[_ ->]]];
        [done|by eapply Hth|done].
Qed.

Lemma monitor_step ps i p s s' p' sp :
  once = true → mmove ps p s s' p' sp → ps !! i = Some p → monitor_inv s ps →
  monitor_inv s' (<[i := p']> ps ++ sp).
Proof.
  intros Honce H Hi [S Hin]. destruct (slot_step _ _ _ _ _ _ _ Honce H Hi S) as (S' & Hsp & He & He').
  split; [done|]. intros j q Hj Hq.
  destruct (moved_at _ _ _ _ _ _ Hj (lookup_lt_Some _ _ _ Hi) Hsp) as [[_ ->]|[[_ Ho]|[_ ->]]]; [| |done].
  - destruct (initialised p) eqn:E; [apply He, (Hin _ _ Hi E)|by apply He'].
  - apply He. by eapply Hin.
Qed.
End Inv.

(** ** Reachable states *)

Definition no_locks (p : pc) (l : Empty_set) : bool := false.

Lemma monitor_disciplined once : disciplined (code once) no_locks.
Proof.
  intros p. unfold disciplined_at. destruct (code once p) as [[]|[]|? []|[]|[]| | | |] eqn:E; try done.
Qed.

Lemma monitor_initial : initial no_locks init_config.
Proof.
  split; [done|]. intros i st Hi. apply list_lookup_singleton_Some in Hi as [_ <-].
  by exists (K_idle ANone).
Qed.

Lemma init_slot : slot_inv init_state [K_idle ANone].
Proof.
  split.
  - exists (K_idle ANone). split; [done|]. split; [done|].
    assert (Hone : ∀ i p, [K_idle ANone] !! i = Some p → i ≠ O → p = MT_exit).
    { intros i p Hi. by apply list_lookup_singleton_Some in Hi as [<- _]. }
    split; simpl; try done; try (intros; intuition congruence).
    intros i p Hi Hne Hp. by destruct (Hp (Hone i p Hi Hne)).
  - intros i p Hi. by apply list_lookup_singleton_Some in Hi as [<- _].
Qed.

Lemma init_inv : monitor_inv init_state [K_idle ANone].
Proof. split; [apply init_slot|]. intros i p Hi. by apply list_lookup_singleton_Some in Hi as [_ <-]. Qed.

Lemma monitor_reachable c : rtc (step (code true)) init_config c → monitor_inv (sh c) (pcs c).
Proof.
  intros Hr. eapply (reach_ind (code true) no_locks monitor_inv);
    [apply monitor_disciplined|apply monitor_initial|apply init_inv| |exact Hr].
  intros c0 i p p' s' sp _ _ _ I _ Hi H. by eapply monitor_step.
Qed.

(** C31: As long as monitor_start is called at most once and the API calls do not
    overlap (one thread makes them all), two monitor threads never run at the same
    time, whatever keys are pressed and in whatever order the calls come, and every
    join is of a thread that exists and was not joined before. *)
Theorem monitor_single_thread c :
  rtc (step (code true)) init_config c →
  (∀ i j p q, pcs c !! i = Some p → pcs c !! j = Some q → alive p = true → alive q = true → i = j) ∧
  (∀ k, pcs c !! 0%nat = Some k → joining k = true →
     tid (m (sh c)) ∉ g_joined (sh c) ∧ (0 < tid (m (sh c)) < length (pcs c))%nat).
Proof.
  intros Hr. destruct (monitor_reachable c Hr) as [[(k & Hk & Hck & C) Hth] _]. split.
  - assert (Hal : ∀ i p, pcs c !! i = Some p → alive p = true → i = tid (m (sh c))).
    { intros i p Hi Ha. apply (c_live _ _ _ C i p Hi); [|by destruct p].
      intros ->. rewrite Hk in Hi. injection Hi as ->. by destruct p. }
    intros i j p q Hi Hj Hp Hq. by rewrite (Hal i p Hi Hp), (Hal j q Hj Hq).
  - intros k' Hk' Hj. rewrite Hk in Hk'. injection Hk' as <-.
    destruct (c_slot _ _ _ C); [left; by apply C|done].
Qed.

(** When monitor_stop has returned (as thread_pool_destroy needs it), no monitor
    thread is left and the monitor is detached. *)
Theorem monitor_stop_quiet c :
  rtc (step (code true)) init_config c → pcs c !! 0%nat = Some (K_idle (AVoid Stop)) →
  running (m (sh c)) = false ∧ tid_valid (m (sh c)) = false ∧
  ∀ i p, pcs c !! i = Some p → i ≠ O → p = MT_exit.
Proof.
  intros Hr H0. destruct (monitor_reachable c Hr) as [[(k & Hk & Hck & C) Hth] _].
  rewrite H0 in Hk. injection Hk as <-. split_and!; [by apply C|by apply C|].
  intros i p Hi Hne. pose proof (Hth _ _ Hi Hne) as Hp.
  destruct (decide (alive p = true)) as [Ha|Ha].
  - destruct (c_live _ _ _ C i p Hi Hne) as [_ [Hv|?]]; [by destruct p| |done].
    rewrite (c_empty _ _ _ C eq_refl) in Hv. done.
  - by destruct p.
Qed.

(** A reattach that finds the monitor not initialised is right: no monitor
    thread has reached its screen, so monitor_start had no effect yet. *)
Theorem monitor_reattach_refused c i p :
  rtc (step (code true)) init_config c → ever_init (m (sh c)) = false →
  pcs c !! i = Some p → i ≠ O → p = MT_start ∨ p = MT_mark.
Proof.
  intros Hr He Hi Hne. destruct (monitor_reachable c Hr) as [[_ Hth] Hin].
  pose proof (Hth _ _ Hi Hne). destruct (initialised p) eqn:E.
  - rewrite (Hin _ _ Hi E) in He. done.
  - destruct p; auto; done.
Qed.

(** ** Schedules *)

Abbreviation drives once ls P := (drives_to (code once) Tau init_config ls P).

Definition count_alive (c : mconfig) : nat := length (filter (λ p, alive p = true) (pcs c)).

(** start, the thread comes up, [q]; start again before the thread looks at
    [running]; stop.  The first thread never learns that it was detached. *)
Definition restart_schedule : list (cmd choice) :=
  [Ex (With 0 (Call Start)); Do 0 4; Do 1 4; Ex (With 1 (Key "q")); Do 1 1;
   Ex (With 0 (Call Start)); Do 0 4; Do 2 2; Do 1 1; Ex (With 1 NoKey)].

Definition leaked (c : mconfig) : bool :=
  (count_alive c =? 2)%nat && (screen (sh c) =? 2) && (tid (m (sh c)) =? 2)%nat &&
  match pcs c !! 0%nat, pcs c !! 1%nat with
  | Some (K_idle (AVoid Start)), Some MT_loop => true
  | _, _ => false
  end.

(** Calling monitor_start again after [q] leaves two threads drawing on the same
    screen, the first of which no call can join any more. *)
Theorem monitor_restart_leaks :
  ∃ c, rtc (step (code false)) init_config c ∧ leaked c = true.
Proof. apply (drives_to_reach _ Tau _ restart_schedule). vm_compute. reflexivity. Qed.

(** Two threads that call monitor_detach at the same time. *)
Definition two_callers : mconfig :=
  mk_config init_state (λ _, None) [Running (K_idle ANone); Running (K_idle ANone)].
Definition overlapping_detach : list (cmd choice) :=
  [Ex (With 0 (Call Start)); Do 0 4; Do 2 4; Ex (With 0 (Call Detach)); Ex (With 1 (Call Detach));
   Do 0 1; Do 1 1; Do 0 1; Do 1 1; Ex (With 2 NoKey); Do 2 2; Do 0 2; Do 1 2].

(** Both saw [running] and both join the monitor thread. *)
Example detach_twice :
  option_map (λ c, (g_joined (sh c), pcs c)) (drive (code true) Tau overlapping_detach two_callers) =
  Some ([2%nat; 2%nat], [K_idle (AInt Detach 0); K_idle (AInt Detach 0); MT_exit]).
Proof. vm_compute. reflexivity. Qed.

(** ** The theorems at concrete states *)

(** start, the thread comes up, detach, the thread ends, reattach, [q], stop. *)
Definition session : list (cmd choice) :=
  [Ex (With 0 (Call Start)); Do 0 4; Do 1 4; Ex (With 1 NoKey);
   Ex (With 0 (Call Detach)); Do 0 2; Do 1 2; Do 0 2;
   Ex (With 0 (Call Reattach)); Do 0 6; Do 2 3; Ex (With 2 (Key "q")); Do 2 3;
   Ex (With 0 (Call Stop))].
Definition at_end (ls : list (cmd choice)) : mconfig :=
  default init_config (drive (code true) Tau ls init_config).

Lemma at_end_reach ls :
  drives_to (code true) Tau init_config ls (λ _, true) = true →
  rtc (step (code true)) init_config (at_end ls).
Proof.
  unfold drives_to, at_end. destruct (drive _ _ _ _) as [c|] eqn:E; [|done]. intros _.
  by eapply drive_sound.
Qed.

Definition joining_now : mconfig := at_end (session ++ [Do 0 2]).
Definition stopped : mconfig := at_end (session ++ [Do 0 4]).

Lemma monitor_single_thread_witness :
  pcs joining_now !! 0%nat = Some Sp_join ∧ g_joined (sh joining_now) = [1%nat] ∧
  tid (m (sh joining_now)) ∉ g_joined (sh joining_now) ∧
  (0 < tid (m (sh joining_now)) < length (pcs joining_now))%nat.
Proof.
  split; [vm_compute; reflexivity|]. split; [vm_compute; reflexivity|].
  apply (proj2 (monitor_single_thread joining_now ltac:(apply at_end_reach; vm_compute; reflexivity)) Sp_join);
    [vm_compute; reflexivity|reflexivity].
Defined.

Lemma monitor_stop_quiet_witness :
  running (m (sh stopped)) = false ∧ tid_valid (m (sh stopped)) = false ∧
  ∀ i p, pcs stopped !! i = Some p → i ≠ O → p = MT_exit.
Proof.
  apply (monitor_stop_quiet stopped); [apply at_end_reach|]; vm_compute; reflexivity.
Defined.

Lemma monitor_reattach_refused_witness :
  MT_start = MT_start ∨ MT_start = MT_mark.
Proof.
  apply (monitor_reattach_refused (at_end (take 2 session)) 1 MT_start);
    [apply at_end_reach; vm_compute; reflexivity|vm_compute; reflexivity..|done].
Defined.
End Monitor.
