(* ===== verification/PoolInit.v ===== *)
(** * PoolInit: building a pool and undoing a half-built one
      (src/thread_pool.c, thread_pool_init)

    What the calls of the C library answer is a parameter, and so is which of the
    created workers sleep on the empty queue when another creation fails; the live
    resources and the worker threads are kept as Resources.v describes. *)
From S2P Require Export Resources QueueTheorems Pool Monitor.
Local Open Scope Z_scope.

Inductive resource :=
| RPool | RPq (o : pq_object) | RDrainMutex | RDrainCond | RAgingMutex | RAgingAttr | RAgingCond
| RPauseMutex | RPauseCond | RWorkers.

#[export] Instance pq_object_eq_dec : EqDecision pq_object.
Proof. solve_decision. Defined.
#[export] Instance resource_eq_dec : EqDecision resource.
Proof. solve_decision. Defined.

(** The answers: success of each call, the clock, and the contents of the memory
    that malloc returns for a worker. *)
Record answers := mk_answers {
  a_pool : bool;
  a_pq_mutex : bool; a_pq_cond : bool;
  a_drain_mutex : bool; a_drain_cond : bool;
  a_aging_mutex : bool; a_attr : bool; a_clock : bool; a_aging_cond : bool;
  a_pause_mutex : bool; a_pause_cond : bool;
  a_workers : bool;
  a_create : nat → bool;
  a_sleeps : nat → bool;
  a_time : Z;
  a_garbage : worker_t
}.

Record init_st := mk_init {
  i_pool : thread_pool;
  i_monitor : Monitor.monitor_t;
  i_start_time : Z;
  i_errno : option errno;
  i_live : list resource;
  i_threads : list nat;
  i_asleep : list nat
}.
Abbreviation IM := (M init_st).

Definition on_pool (f : thread_pool → thread_pool) (st : init_st) : init_st :=
  mk_init (f (i_pool st)) (i_monitor st) (i_start_time st) (i_errno st) (i_live st) (i_threads st) (i_asleep st).
Definition upd_i (f : thread_pool → thread_pool) : IM unit := modify (on_pool f).
Definition put_live (l : list resource) (st : init_st) : init_st :=
  mk_init (i_pool st) (i_monitor st) (i_start_time st) (i_errno st) l (i_threads st) (i_asleep st).
Definition put_threads (l : list nat) (st : init_st) : init_st :=
  mk_init (i_pool st) (i_monitor st) (i_start_time st) (i_errno st) (i_live st) l (i_asleep st).
Definition put_asleep (l : list nat) (st : init_st) : init_st :=
  mk_init (i_pool st) (i_monitor st) (i_start_time st) (i_errno st) (i_live st) (i_threads st) l.

#[export] Instance init_holder : Holder init_st resource :=
  {| live := i_live; set_live := put_live; crew := i_threads; set_crew := put_threads;
     asleep := i_asleep; set_asleep := put_asleep; told st := shutdown (i_pool st) |}.
#[export] Instance init_holder_laws : HolderLaws init_st resource.
Proof. split; try done. by intros []. Qed.

Definition upd_pool_queue (q : priority_queue_t) (s : thread_pool) : thread_pool :=
  upd_queue (p_heap s) q s.
Definition upd_num (n : Z) (s : thread_pool) : thread_pool :=
  mk_pool (p_mem s) (pq s) (workers s) n (total_task_in_system s) (shutdown s)
    (in_flight_submits s) (paused s) (aging_tid s) (aging_enable s) (aging_interval_ms s)
    (aging_promote_ms s) (p_freed s) (g_accepted s) (g_executed s) (g_calls s) (g_destroying s) (g_aging s).

(** The call broadcast the queue's condition. *)
Definition broadcasted (w : pq_world) : bool :=
  existsb (λ n, match n with Broadcasted => true | _ => false end) (w_notes w).

(** A call of the queue's API on the pool's queue, whose mutex is free. *)
Definition on_queue {A} (f : WM A) : IM A := λ st,
  match f (mk_world (p_heap (i_pool st), pq (i_pool st)) Unlocked []) with
  | Ok (a, w) =>
      let st' := on_pool (upd_queue (fst (w_store w)) (snd (w_store w))) st in
      Ok (a, if broadcasted w then wake_crew st' else st')
  | Blocks => Blocks
  | Fault f => Fault f
  end.

Definition create_queue (a : answers) : IM Z := λ st,
  let '(rc, q, objs) := pq_init (Some (pq (i_pool st))) (a_pq_mutex a) (a_pq_cond a) in
  let pool := match q with Some q => upd_pool_queue q (i_pool st) | None => i_pool st end in
  Ok (rc, mk_init pool (i_monitor st) (i_start_time st) (i_errno st)
            ((RPq <$> objs) ++ i_live st) (i_threads st) (i_asleep st)).

(** The error labels, each falling through to the next. *)
Definition err_free_pool : IM bool := release RPool;; mret false.
Definition err_pq : IM bool :=
  on_queue (pq_destroy true);; release (RPq PqCond);; release (RPq PqMutex);; err_free_pool.
Definition err_drain_mutex : IM bool := release RDrainMutex;; err_pq.
Definition err_drain_cond : IM bool := release RDrainCond;; err_drain_mutex.
Definition err_aging_mutex : IM bool := release RAgingMutex;; err_drain_cond.
Definition err_aging_cond : IM bool := release RAgingCond;; err_aging_mutex.
Definition err_pause_mutex : IM bool := release RPauseMutex;; err_aging_cond.
Definition err_pause_cond : IM bool := release RPauseCond;; err_pause_mutex.
Definition err_workers : IM bool := release RWorkers;; err_pause_cond.

Definition worker_tid (j : nat) (st : init_st) : res nat :=
  w ← arr_get (workers (i_pool st)) (Z.of_nat j); Ok (tid w).

(** Worker [i] runs; it may go to sleep on the empty queue. *)
Definition started (a : answers) (i : nat) (st : init_st) : init_st :=
  put_asleep (i_asleep st ++ if a_sleeps a i then [i] else []) (put_threads (i_threads st ++ [i]) st).

(** The loop over the workers from [i] on; [true]: all were created. *)
Fixpoint spawn_workers (a : answers) (left : nat) (i : nat) : IM bool :=
  match left with
  | O => mret true
  | S left' =>
      st ← get;
      old ← lift (arr_get (workers (i_pool st)) (Z.of_nat i));
      ws ← lift (arr_set (workers (i_pool st)) (Z.of_nat i)
                   (mk_worker (tid old) (u16 (Z.of_nat i)) false));
      upd_i (upd_workers ws);;
      if a_create a i then
        ws' ← lift (arr_set ws (Z.of_nat i) (mk_worker i (u16 (Z.of_nat i)) false));
        upd_i (upd_workers ws');;
        modify (started a i);;
        spawn_workers a left' (S i)
      else
        upd_i (upd_shutdown true);;
        on_queue (pq_wake_all true);;
        join_from worker_tid i 0;;
        mret false
  end.

Definition thread_pool_init (a : answers) (n : Z) : IM bool :=
  if n <=? 0 then
    modify (λ st, mk_init (i_pool st) (i_monitor st) (i_start_time st) (Some EINVAL) (i_live st)
                    (i_threads st) (i_asleep st));; mret false
  else
  pool ← acquire (a_pool a) RPool;
  if negb pool then mret false else
  upd_i (upd_num (u32 n));;
  upd_i (λ s, upd_aging (aging_tid s) false 0 0 s);;
  upd_i (upd_in_flight 0);;
  upd_i (upd_total 0);;
  upd_i (upd_shutdown false);;
  upd_i (upd_paused false);;
  rc ← create_queue a;
  if negb (rc =? 0) then err_free_pool else
  ok ← acquire (a_drain_mutex a) RDrainMutex;
  if negb ok then err_pq else
  ok ← acquire (a_drain_cond a) RDrainCond;
  if negb ok then err_drain_mutex else
  ok ← acquire (a_aging_mutex a) RAgingMutex;
  if negb ok then err_drain_cond else
  ok ← acquire (a_attr a) RAgingAttr;
  if negb ok then err_aging_mutex else
  if negb (a_clock a) then release RAgingAttr;; err_aging_mutex else
  ok ← acquire (a_aging_cond a) RAgingCond;
  if negb ok then release RAgingAttr;; err_aging_mutex else
  release RAgingAttr;;
  ok ← acquire (a_pause_mutex a) RPauseMutex;
  if negb ok then err_aging_cond else
  ok ← acquire (a_pause_cond a) RPauseCond;
  if negb ok then err_pause_mutex else
  ok ← acquire (a_workers a) RWorkers;
  if negb ok then err_pause_cond else
  upd_i (upd_workers (replicate (Z.to_nat n) (a_garbage a)));;
  ok ← spawn_workers a (Z.to_nat n) 0;
  if negb ok then err_workers else
  modify (λ st, mk_init (i_pool st) (Monitor.mk_monitor (Monitor.tid (i_monitor st)) false false false)
                  (a_time a) (i_errno st) (i_live st) (i_threads st) (i_asleep st));;
  mret true.

(** ** Undoing *)

Definition queue_empty (st : init_st) : Prop := pq (i_pool st) = pq_zero.
Abbreviation quiet := (settled queue_empty).

Definition live_pq : list resource := [RPq PqCond; RPq PqMutex; RPool].
Definition live_aging : list resource := [RAgingMutex; RDrainCond; RDrainMutex] ++ live_pq.
Definition live_all : list resource :=
  [RWorkers; RPauseCond; RPauseMutex; RAgingCond] ++ live_aging.

Lemma undo_pool (Q : init_st → Prop) st :
  (∀ l st, Q st → Q (set_live l st)) → settled Q [RPool] st → undone err_free_pool st.
Proof.
  intros HQ H. eapply release_next; [exact HQ| |exact H|]; [absent|].
  intros st' (? & ? & _). by exists st'.
Qed.
Lemma undo_pq st : quiet live_pq st → undone err_pq st.
Proof.
  intros H. assert (Hq : ∃ st1, on_queue (pq_destroy true) st = Ok (tt, st1) ∧ settled (λ _, True) live_pq st1).
  { destruct H as (Hl & Ht & Hq). unfold on_queue. rewrite Hq.
    destruct (pq_destroy_run (mk_world (p_heap (i_pool st), pq_zero) Unlocked []) Lanes.empty)
      as ([[h' q'] mu notes] & -> & _); [by split; [|apply pq_zero_repr]|].
    eexists. split; [reflexivity|]. destruct (broadcasted _); unfold wake_crew, told; simpl;
      [destruct (shutdown _)|]; by split_and!. }
  destruct Hq as (st1 & Hrun & H1). unfold undone, err_pq. unfold mbind at 1, M_bind at 1. rewrite Hrun.
  eapply release_next; [| |exact H1|]; [done|absent|]. intros st2 H2.
  eapply release_next; [| |exact H2|]; [done|absent|]. intros st3. by apply undo_pool.
Qed.

Lemma undo_drain_mutex st : quiet (RDrainMutex :: live_pq) st → undone err_drain_mutex st.
Proof. intros H. release_then H undo_pq. Qed.
Lemma undo_drain_cond st : quiet (RDrainCond :: RDrainMutex :: live_pq) st → undone err_drain_cond st.
Proof. intros H. release_then H undo_drain_mutex. Qed.
Lemma undo_aging_mutex st : quiet live_aging st → undone err_aging_mutex st.
Proof. intros H. release_then H undo_drain_cond. Qed.
Lemma undo_attr st : quiet (RAgingAttr :: live_aging) st → undone (release RAgingAttr;; err_aging_mutex) st.
Proof. intros H. release_then H undo_aging_mutex. Qed.
Lemma undo_aging_cond st : quiet (RAgingCond :: live_aging) st → undone err_aging_cond st.
Proof. intros H. release_then H undo_aging_mutex. Qed.
Lemma undo_pause_mutex st : quiet (RPauseMutex :: RAgingCond :: live_aging) st → undone err_pause_mutex st.
Proof. intros H. release_then H undo_aging_cond. Qed.
Lemma undo_pause_cond st :
  quiet (RPauseCond :: RPauseMutex :: RAgingCond :: live_aging) st → undone err_pause_cond st.
Proof. intros H. release_then H undo_pause_mutex. Qed.
Lemma undo_workers st : quiet live_all st → undone err_workers st.
Proof. intros H. release_then H undo_pause_cond. Qed.

(** ** The workers *)

Definition made (i : nat) : list worker_t := (λ j, mk_worker j (u16 (Z.of_nat j)) false) <$> seq 0 i.

Lemma made_S i : made (S i) = made i ++ [mk_worker i (u16 (Z.of_nat i)) false].
Proof. unfold made. by rewrite seq_S, fmap_app. Qed.
Lemma length_made i : length (made i) = i.
Proof. unfold made. by rewrite length_fmap, length_seq. Qed.
Lemma made_lookup i j : (j < i)%nat → made i !! j = Some (mk_worker j (u16 (Z.of_nat j)) false).
Proof. intros H. unfold made. rewrite list_lookup_fmap, lookup_seq_lt by done. done. Qed.

(** The state after [i] workers were created: [l] is the worker array and [zs] the
    sleepers there were before. *)
Definition created (a : answers) (i : nat) (l : list worker_t) (zs : list nat) (st : init_st) : init_st :=
  mk_init (upd_workers l (i_pool st)) (i_monitor st) (i_start_time st) (i_errno st) (i_live st) (seq 0 i)
    (zs ++ filter (λ j, a_sleeps a j) (seq 0 i)).

(** The broadcast after the store wakes every worker. *)
Lemma wake_all_ok st :
  shutdown (i_pool st) = true →
  ∃ st', on_queue (pq_wake_all true) st = Ok (tt, st') ∧ i_live st' = i_live st ∧
    i_threads st' = i_threads st ∧ i_asleep st' = [] ∧ shutdown (i_pool st') = true ∧
    workers (i_pool st') = workers (i_pool st) ∧ pq (i_pool st') = pq (i_pool st).
Proof.
  intros Hs. eexists. split; [reflexivity|]. simpl. unfold wake_crew, told. simpl. rewrite Hs. done.
Qed.

(** One round of the loop, up to pthread_create. *)
Lemma spawn_round a left g i zs st :
  spawn_workers a (S left) i (created a i (made i ++ replicate (S left) g) zs st) =
  if a_create a i
  then spawn_workers a left (S i) (created a (S i) (made (S i) ++ replicate left g) zs st)
  else (upd_i (upd_shutdown true);; on_queue (pq_wake_all true);; join_from worker_tid i 0;; mret false)
         (created a i (made i ++ mk_worker (tid g) (u16 (Z.of_nat i)) false :: replicate left g) zs st).
Proof.
  cbn [spawn_workers]. unfold mbind at 1 2, M_bind, get, lift.
  cbn [created i_pool upd_workers workers].
  assert (Hi : (made i ++ replicate (S left) g) !! i = Some g).
  { rewrite lookup_app_r by (rewrite length_made; lia). by rewrite length_made, Nat.sub_diag. }
  rewrite (arr_get_ok _ _ _ Hi). cbn [mbind res_bind]. unfold mbind at 1.
  rewrite arr_set_ok by (by eapply lookup_lt_Some). cbn [mbind res_bind].
  assert (Hset : ∀ w w', <[i := w]> (made i ++ w' :: replicate left g) = made i ++ w :: replicate left g).
  { intros. rewrite insert_app_r_alt by (rewrite length_made; lia). by rewrite length_made, Nat.sub_diag. }
  cbn [replicate]. rewrite !Hset. destruct (a_create a i); [|done].
  unfold mbind at 1, upd_i at 1, modify at 1. unfold mbind at 1.
  rewrite arr_set_ok by (rewrite length_app, length_made; simpl; lia). cbn [mbind res_bind].
  rewrite Hset. unfold upd_i, modify, mbind, M_bind, started, put_asleep, put_threads, created, on_pool.
  cbn [i_threads i_pool i_monitor i_start_time i_errno i_live i_asleep].
  rewrite sleepers_S, made_S, <- app_assoc, seq_S. done.
Qed.

(** A failed pthread_create: the workers made so far are told to stop and joined. *)
Lemma spawn_fails a left g i zs st :
  a_create a i = false →
  ∃ st', spawn_workers a (S left) i (created a i (made i ++ replicate (S left) g) zs st) = Ok (false, st') ∧
    i_live st' = i_live st ∧ i_threads st' = [] ∧ pq (i_pool st') = pq (i_pool st).
Proof.
  intros Hc. rewrite spawn_round, Hc. unfold mbind at 1, M_bind at 1, upd_i, modify.
  set (st1 := on_pool _ _). destruct (wake_all_ok st1) as (st2 & Hw & Hl & Ht & Hz & Hs & Hws & Hq); [done|].
  unfold mbind at 1, M_bind at 1. rewrite Hw.
  unfold mbind, M_bind. rewrite join_from_ok; [|..|exact Hs|exact Hz|simpl; by rewrite Ht].
  - eexists. split; [done|]. simpl. by rewrite Hl, Hq.
  - intros j ts Hj. unfold worker_tid. simpl. rewrite Hws. simpl.
    rewrite (arr_get_ok _ _ (mk_worker j (u16 (Z.of_nat j)) false)); [done|].
    rewrite lookup_app_l by (rewrite length_made; lia). apply made_lookup. lia.
Qed.

Lemma spawn_workers_ok a left g i zs st :
  if forallb (a_create a) (seq i left)
  then spawn_workers a left i (created a i (made i ++ replicate left g) zs st) =
         Ok (true, created a (i + left) (made (i + left)) zs st)
  else ∃ st', spawn_workers a left i (created a i (made i ++ replicate left g) zs st) = Ok (false, st') ∧
    i_live st' = i_live st ∧ i_threads st' = [] ∧ pq (i_pool st') = pq (i_pool st).
Proof.
  revert i. induction left as [|left IH]; intros i; [cbn [seq forallb replicate]; by rewrite app_nil_r, Nat.add_0_r|].
  cbn [seq forallb]. destruct (a_create a i) eqn:Hc; cbn [andb]; [|by apply spawn_fails].
  rewrite spawn_round, Hc. replace (i + S left)%nat with (S i + left)%nat by lia. apply IH.
Qed.

(** ** The whole function *)

(** Every call succeeds. *)
Definition all_succeed (a : answers) (n : nat) : bool :=
  a_pool a && (a_pq_mutex a && a_pq_cond a) && a_drain_mutex a && a_drain_cond a && a_aging_mutex a &&
  a_attr a && a_clock a && a_aging_cond a && a_pause_mutex a && a_pause_cond a && a_workers a &&
  forallb (a_create a) (seq 0 n).

Lemma create_then a (e k : IM bool) st :
  (create_queue a ≫= λ rc, if negb (rc =? 0) then e else k) st =
  let st' l := put_live (l ++ i_live st) (on_pool (upd_pool_queue pq_zero) st) in
  if a_pq_mutex a && a_pq_cond a then k (st' [RPq PqCond; RPq PqMutex]) else e (st' []).
Proof. unfold mbind, M_bind, create_queue. by destruct (a_pq_mutex a), (a_pq_cond a). Qed.

(** Before the call: nothing of the pool exists; the ghosts of its memory are blank. *)
Definition blank (st : init_st) : Prop :=
  i_live st = [] ∧ i_threads st = [] ∧ p_freed (i_pool st) = false ∧ g_accepted (i_pool st) = [] ∧
  g_executed (i_pool st) = [] ∧ g_calls (i_pool st) = 0 ∧ g_destroying (i_pool st) = false ∧
  g_aging (i_pool st) = false.

(** The pool a successful call returns: the initial state of the machine of
    Pool.v, on the task store of the process; [aging_tid] is not set. *)
Definition built (n : nat) (st : init_st) : thread_pool :=
  upd_mem (p_mem (i_pool st)) (upd_aging (aging_tid (i_pool st)) false 0 0 (init_pool n)).

Lemma built_ok n st :
  blank st → Z.of_nat n < 2 ^ 31 →
  upd_workers (made n) (upd_pool_queue pq_zero (upd_paused false (upd_shutdown false (upd_total 0
    (upd_in_flight 0 (upd_aging (aging_tid (i_pool st)) false 0 0
      (upd_num (u32 (Z.of_nat n)) (i_pool st)))))))) = built n st.
Proof.
  intros (_ & _ & Hf & Ha & He & Hc & Hd & Hg) Hn. unfold built, upd_pool_queue, p_heap.
  destruct (i_pool st) as [[] ? ? ? ? ? ? ? ? ? ? ? ? ? ? ? ? ?]. simpl in *. subst.
  rewrite u32_small by lia. done.
Qed.


(** ** The theorem at concrete answers *)

Definition answers_ok (create : nat → bool) : answers :=
  mk_answers true true true true true true true true true true true true create (λ _, true) 0
    (mk_worker 9 9 true).
Definition st_blank : init_st :=
  mk_init (upd_shutdown true (upd_total 77 (init_pool 0))) (Monitor.mk_monitor 5 true true true) 0 None [] [] [].

