(* ===== verification/Baseline.v ===== *)
(** * Baseline: the FIFO pool used for comparison (src/baseline/baseline.c)

    The queue is modelled as the linked list it is; the pool is a program of the
    machine of Pthread.v, one control point per atomic access, library call or
    body run under [q_mutex]. *)
From S2P Require Export Pthread Task Resources.
Local Open Scope Z_scope.

Module Baseline.

(** ** Data *)

(** [struct baseline_task_t]; its [task_id] is never written or read. *)
Record baseline_task_t := mk_task { func : Z; arg : Z; next : ptr }.
(** [struct baseline_queue_t], its two pointers. *)
Record baseline_queue_t := mk_queue { head : ptr; tail : ptr }.

Definition set_next (p : ptr) (t : baseline_task_t) : baseline_task_t := mk_task (func t) (arg t) p.

Abbreviation heap_t := (gmap loc baseline_task_t).
Abbreviation QM := (M (heap_t * baseline_queue_t)).

(** ** The queue *)

Definition load (p : ptr) : QM baseline_task_t := λ '(h, q),
  match p with
  | None => Fault NullDeref
  | Some l => match h !! l with Some t => Ok (t, (h, q)) | None => Fault UseAfterFree end
  end.
Definition store (l : loc) (t : baseline_task_t) : QM unit := λ '(h, q), Ok (tt, (<[l := t]> h, q)).
Definition get_queue : QM baseline_queue_t := λ '(h, q), Ok (q, (h, q)).
Definition put_queue (q : baseline_queue_t) : QM unit := λ '(h, _), Ok (tt, (h, q)).

(** The body of q_push. *)
Definition q_push (task : loc) : QM unit :=
  q ← get_queue;
  match tail q with
  | Some tl => t ← load (Some tl); store tl (set_next (Some task) t);; put_queue (mk_queue (head q) (Some task))
  | None => put_queue (mk_queue (Some task) (Some task))
  end.

(** The body of q_pop_until_shutdown once the queue is not empty (lines 91-95). *)
Definition q_pop : QM ptr :=
  q ← get_queue;
  t ← load (head q);
  put_queue (mk_queue (next t) (match next t with None => None | Some _ => tail q end));;
  mret (head q).

(** ** The pool *)

Inductive mutex_id := MQueue | MDrain.
Inductive cond_id := CQueue | CDrain.
#[export] Instance baseline_mutex_eq_dec : EqDecision mutex_id.
Proof. solve_decision. Defined.
#[export] Instance baseline_cond_eq_dec : EqDecision cond_id.
Proof. solve_decision. Defined.

Definition job : Type := Z * Z.
Definition job_of (t : baseline_task_t) : job := (func t, arg t).

(** [struct baseline_pool_t] with the task nodes; the last three fields are ghosts. *)
Record pool := mk_pool {
  b_heap : heap_t;
  queue : baseline_queue_t;
  num_workers : Z;                 (* uint32_t *)
  shutdown : bool;                 (* atomic_bool *)
  in_flight_submits : Z;           (* atomic_int *)
  total_task_in_system : Z;        (* atomic_int *)
  freed : bool;
  accepted : list job;
  executed : list job
}.

Definition upd_store (h : heap_t) (q : baseline_queue_t) (s : pool) : pool :=
  mk_pool h q (num_workers s) (shutdown s) (in_flight_submits s) (total_task_in_system s) (freed s)
    (accepted s) (executed s).
Definition upd_shutdown (s : pool) : pool :=
  mk_pool (b_heap s) (queue s) (num_workers s) true (in_flight_submits s) (total_task_in_system s)
    (freed s) (accepted s) (executed s).
Definition upd_flight (d : Z) (s : pool) : pool :=
  mk_pool (b_heap s) (queue s) (num_workers s) (shutdown s) (i32 (in_flight_submits s + d))
    (total_task_in_system s) (freed s) (accepted s) (executed s).
Definition upd_total (d : Z) (s : pool) : pool :=
  mk_pool (b_heap s) (queue s) (num_workers s) (shutdown s) (in_flight_submits s)
    (i32 (total_task_in_system s + d)) (freed s) (accepted s) (executed s).
Definition upd_freed (s : pool) : pool :=
  mk_pool (b_heap s) (queue s) (num_workers s) (shutdown s) (in_flight_submits s)
    (total_task_in_system s) true (accepted s) (executed s).
Definition upd_jobs (a e : list job) (s : pool) : pool :=
  mk_pool (b_heap s) (queue s) (num_workers s) (shutdown s) (in_flight_submits s)
    (total_task_in_system s) (freed s) a e.

Inductive call := CallSubmit (f : option Z) (a : Z) | CallWait | CallShutdown.
Inductive answer := RNone | RVoid | RInt (z : Z).

Inductive pc :=
(* worker_func *)
| W_lock                              (* 81 *)
| W_check                             (* 83, 91-95 *)
| W_shut                              (* 84 *)
| W_wait                              (* 89 *)
| W_null                              (* 85-86 *)
| W_unlock (t : loc)                  (* 97 *)
| W_run (t : loc)                     (* 116 *)
| W_free (t : loc)                    (* 117 *)
| W_dec                               (* 118-119 *)
| W_dlock | W_dbcast | W_dunlock      (* 120-122 *)
| W_exit                              (* 125 *)
(* clients *)
| C_idle (r : answer)
| S_shut (f a : Z)                    (* 187 *)
| S_enter (f a : Z)                   (* 190 *)
| S_malloc (f a : Z)                  (* 192-200 *)
| S_nomem                             (* 194 *)
| S_count (t : loc)                   (* 202 *)
| S_lock (t : loc)                    (* 66 *)
| S_insert (t : loc)                  (* 67-72 *)
| S_unlock                            (* 73 *)
| S_signal                            (* 74 *)
| S_done                              (* 204 *)
| T_lock | T_check | T_wait | T_unlock   (* 209-212 *)
(* baseline_pool_shutdown *)
| D_idle
| D_store                             (* 220 *)
| D_wlock | D_wbcast | D_wunlock      (* 221 *)
| D_spin                              (* 223 *)
| D_lock | D_check | D_wait | D_unlock   (* 225-230 *)
| D_next (i : nat) | D_join (i : nat) (* 232-233 *)
| D_free                              (* 235-241 *)
| D_done.

Inductive choice := Tau | Call (c : call) | Malloc (r : option loc).
Abbreviation baction := (action pool pc mutex_id cond_id choice).
Abbreviation bconfig := (config pool pc mutex_id cond_id).

Definition guarded (f : choice → pool → outcome pool pc) : baction :=
  AStep (λ z s, if freed s then Crash UseAfterFree else f z s).
Definition atom (f : pool → pool * pc) : baction :=
  guarded (λ _ s, let '(s', p) := f s in Next s' p).
Definition branch (b : pool → bool) (yes no : pc) : baction :=
  atom (λ s, (s, if b s then yes else no)).
Definition queue_step {A} (m : QM A) (k : A → pool → pool * pc) : baction :=
  guarded (λ _ s,
    match m (b_heap s, queue s) with
    | Ok (a, (h', q')) => let '(s', p) := k a (upd_store h' q' s) in Next s' p
    | Blocks => Stuck
    | Fault f => Crash f
    end).

Definition worker_func (p : pc) : baction :=
  match p with
  | W_lock => ALock MQueue W_check
  | W_check => queue_step (q ← get_queue; match head q with None => mret None | Some _ => q_pop end)
      (λ task s, (s, match task with None => W_shut | Some t => W_unlock t end))
  | W_shut => branch shutdown W_null W_wait
  | W_wait => AWait CQueue MQueue W_check
  | W_null => AUnlock MQueue W_exit
  | W_unlock t => AUnlock MQueue (W_run t)
  | W_run t => queue_step (load (Some t))
      (λ task s, (upd_jobs (accepted s) (job_of task :: executed s) s, W_free t))
  | W_free t => guarded (λ _ s,
      match b_heap s !! t with
      | Some _ => Next (upd_store (delete t (b_heap s)) (queue s) s) W_dec
      | None => Crash UseAfterFree
      end)
  | W_dec => atom (λ s,
      (upd_total (-1) s, if i32 (total_task_in_system s - 1) <=? 0 then W_dlock else W_lock))
  | W_dlock => ALock MDrain W_dbcast
  | W_dbcast => ABroadcast CDrain W_dunlock
  | W_dunlock => AUnlock MDrain W_lock
  | _ => AExit
  end.

Definition client (p : pc) : baction :=
  match p with
  | C_idle _ => AStep (λ z s,
      match z with
      | Call (CallSubmit None _) => Next s (C_idle (RInt (-1)))
      | Call (CallSubmit (Some f) a) => Next s (S_shut f a)
      | Call CallWait => Next s T_lock
      | _ => Stuck
      end)
  | _ => AExit
  end.

Definition baseline_pool_submit (p : pc) : baction :=
  match p with
  | S_shut f a => branch shutdown (C_idle (RInt (-1))) (S_enter f a)
  | S_enter f a => atom (λ s, (upd_flight 1 s, S_malloc f a))
  | S_malloc f a => guarded (λ z s,
      match z with
      | Malloc None => Next s S_nomem
      | Malloc (Some l) =>
          if bool_decide (b_heap s !! l = None)
          then Next (upd_store (<[l := mk_task f a None]> (b_heap s)) (queue s) s) (S_count l)
          else Stuck
      | _ => Stuck
      end)
  | S_nomem => atom (λ s, (upd_flight (-1) s, C_idle (RInt (-1))))
  | S_count t => atom (λ s, (upd_total 1 s, S_lock t))
  | S_lock t => ALock MQueue (S_insert t)
  | S_insert t => queue_step (task ← load (Some t); q_push t;; mret task)
      (λ task s, (upd_jobs (job_of task :: accepted s) (executed s) s, S_unlock))
  | S_unlock => AUnlock MQueue S_signal
  | S_signal => ASignal CQueue S_done
  | S_done => atom (λ s, (upd_flight (-1) s, C_idle (RInt 0)))
  | _ => AExit
  end.

Definition baseline_pool_wait (p : pc) : baction :=
  match p with
  | T_lock => ALock MDrain T_check
  | T_check => branch (λ s, negb (total_task_in_system s =? 0)) T_wait T_unlock
  | T_wait => AWait CDrain MDrain T_check
  | T_unlock => AUnlock MDrain (C_idle RVoid)
  | _ => AExit
  end.

(** The workers are threads 0 to [num_workers - 1]. *)
Definition baseline_pool_shutdown (p : pc) : baction :=
  match p with
  | D_idle => AStep (λ z s, match z with Call CallShutdown => Next s D_store | _ => Stuck end)
  | D_store => atom (λ s, (upd_shutdown s, D_wlock))
  | D_wlock => ALock MQueue D_wbcast
  | D_wbcast => ABroadcast CQueue D_wunlock
  | D_wunlock => AUnlock MQueue D_spin
  | D_spin => branch (λ s, negb (in_flight_submits s =? 0)) D_spin D_lock
  | D_lock => ALock MDrain D_check
  | D_check => branch (λ s, negb (total_task_in_system s =? 0)) D_wait D_unlock
  | D_wait => AWait CDrain MDrain D_check
  | D_unlock => AUnlock MDrain (D_next 0)
  | D_next i => branch (λ s, Z.of_nat i <? num_workers s) (D_join i) D_free
  | D_join i => AJoin (λ _, i) (D_next (S i))
  | D_free => atom (λ s, (upd_freed s, D_done))
  | _ => AExit
  end.

Definition code (p : pc) : baction :=
  match p with
  | W_lock | W_check | W_shut | W_wait | W_null | W_unlock _ | W_run _ | W_free _ | W_dec
  | W_dlock | W_dbcast | W_dunlock | W_exit => worker_func p
  | C_idle _ => client p
  | S_shut _ _ | S_enter _ _ | S_malloc _ _ | S_nomem | S_count _ | S_lock _ | S_insert _
  | S_unlock | S_signal | S_done => baseline_pool_submit p
  | T_lock | T_check | T_wait | T_unlock => baseline_pool_wait p
  | D_idle | D_store | D_wlock | D_wbcast | D_wunlock | D_spin | D_lock | D_check | D_wait
  | D_unlock | D_next _ | D_join _ | D_free | D_done => baseline_pool_shutdown p
  end.

Definition holds (p : pc) (m : mutex_id) : bool :=
  match m, p with
  | MQueue, (W_check | W_shut | W_wait | W_null | W_unlock _ | S_insert _ | S_unlock
            | D_wbcast | D_wunlock) => true
  | MDrain, (W_dbcast | W_dunlock | T_check | T_wait | T_unlock | D_check | D_wait | D_unlock) => true
  | _, _ => false
  end.

Definition init_pool (n : nat) : pool :=
  mk_pool ∅ (mk_queue None None) (Z.of_nat n) false 0 0 false [] [].
Definition init_config (n k : nat) : bconfig :=
  mk_config (init_pool n) (λ _, None)
    (replicate n (Running W_lock) ++ replicate k (Running (C_idle RNone)) ++ [Running D_idle]).
End Baseline.
