(* ===== verification/BaselineProofs.v ===== *)
(** * BaselineProofs: the FIFO pool keeps every task

    The linked queue refines a list; in every interleaving each accepted task is
    run, taken or queued, and the counter is exact. *)
From S2P Require Export Baseline.
Local Open Scope Z_scope.

Module BaselineProofs.
Import Baseline.

(** ** The linked queue is a list *)

Fixpoint linked (h : heap_t) (p : ptr) (l : list loc) : Prop :=
  match l with
  | [] => p = None
  | x :: l' => p = Some x ∧ ∃ t, h !! x = Some t ∧ linked h (next t) l'
  end.

Record fifo (h : heap_t) (q : baseline_queue_t) (l : list loc) : Prop := {
  f_head : linked h (head q) l;
  f_tail : tail q = last l;
  f_nodup : NoDup l
}.

Lemma linked_frame h x t p l : x ∉ l → linked h p l → linked (<[x := t]> h) p l.
Proof.
  revert p. induction l as [|y l IH]; intros p Hx; [done|]. rewrite not_elem_of_cons in Hx.
  destruct Hx as [Hxy Hx]. intros (-> & u & Hu & Hl). split; [done|]. exists u.
  rewrite lookup_insert_ne by done. auto.
Qed.

Lemma linked_delete h x p l : x ∉ l → linked h p l → linked (delete x h) p l.
Proof.
  revert p. induction l as [|y l IH]; intros p Hx; [done|]. rewrite not_elem_of_cons in Hx.
  destruct Hx as [Hxy Hx]. intros (-> & u & Hu & Hl). split; [done|]. exists u.
  rewrite lookup_delete_ne by done. auto.
Qed.

(** Linking a detached node [x] behind the last node [z]. *)
Lemma linked_snoc h p l z tz x tx :
  linked h p (l ++ [z]) → NoDup (l ++ [z]) → x ∉ l ++ [z] → h !! z = Some tz →
  h !! x = Some tx → next tx = None →
  linked (<[z := set_next (Some x) tz]> h) p (l ++ [z; x]).
Proof.
  intros Hl Hnd Hx Hz Htx Hn. revert p Hl Hnd Hx.
  induction l as [|y l IH]; intros p Hl Hnd Hx; simpl in *.
  - destruct Hl as (-> & t & Ht & Hnt). rewrite Ht in Hz. injection Hz as <-. split; [done|].
    exists (set_next (Some x) t). rewrite lookup_insert_eq. split; [done|]. split; [done|].
    exists tx. rewrite lookup_insert_ne by set_solver. done.
  - destruct Hl as (-> & t & Ht & Hl). apply NoDup_cons in Hnd as [Hy Hnd]. split; [done|]. exists t.
    rewrite lookup_insert_ne by set_solver. split; [done|]. apply IH; [done|done|set_solver].
Qed.

Lemma linked_nodes h p l x : linked h p l → x ∈ l → ∃ t, h !! x = Some t.
Proof.
  revert p. induction l as [|y l IH]; intros p; [set_solver|].
  intros (_ & t & Ht & Hl) [->|Hx]%elem_of_cons; [eauto|by eapply IH].
Qed.

(** Same payloads. *)
Definition same_jobs (h h' : heap_t) : Prop := job_of <$> h' = job_of <$> h.

Lemma q_push_ok h q l x t :
  fifo h q l → x ∉ l → h !! x = Some t → next t = None →
  ∃ h' q', q_push x (h, q) = Ok (tt, (h', q')) ∧ fifo h' q' (l ++ [x]) ∧ same_jobs h h' ∧
    (∀ y, y ∉ l → h' !! y = h !! y).
Proof.
  intros [Hh Ht Hn] Hx Hxt Hnx. unfold q_push, mbind, M_bind, get_queue. rewrite Ht.
  destruct (last l) as [z|] eqn:Hlast.
  - apply last_Some in Hlast as [l' ->]. destruct (linked_nodes _ _ _ z Hh) as [tz Htz]; [set_solver|].
    unfold load. rewrite Htz. unfold store. cbn. do 2 eexists. split; [reflexivity|]. split_and!.
    + split; simpl.
      * rewrite <- app_assoc. by eapply linked_snoc.
      * by rewrite last_snoc.
      * apply NoDup_app. split_and!; [done|set_solver|apply NoDup_singleton].
    + unfold same_jobs. rewrite fmap_insert. apply map_eq. intros y. rewrite !lookup_fmap.
      destruct (decide (y = z)) as [->|]; [by rewrite lookup_insert_eq, Htz|].
      by rewrite lookup_insert_ne, lookup_fmap.
    + intros y Hy. rewrite lookup_insert_ne by set_solver. done.
  - apply last_None in Hlast as ->. simpl in Hh. unfold put_queue. do 2 eexists. split; [reflexivity|].
    split_and!; [|done|done]. split; [|done|apply NoDup_singleton]. split; [done|]. exists t. done.
Qed.

Lemma q_pop_ok h q x l :
  fifo h q (x :: l) → ∃ q', q_pop (h, q) = Ok (Some x, (h, q')) ∧ fifo h q' l.
Proof.
  intros [(Hh & t & Ht & Hl) Htl Hn]. unfold q_pop, mbind, M_bind, get_queue, load. rewrite Hh, Ht.
  unfold put_queue. eexists. split; [reflexivity|]. apply NoDup_cons in Hn as [_ Hn].
  split; [done| |done]. simpl. destruct l as [|y l]; simpl in Hl; [by rewrite Hl|].
  destruct Hl as (-> & _). by rewrite Htl.
Qed.

(** Pushing a list of nodes, and popping [n] of them. *)
Fixpoint push_nodes (xs : list loc) : QM unit :=
  match xs with [] => mret tt | x :: xs' => q_push x;; push_nodes xs' end.
Fixpoint pop_some (n : nat) : QM (list ptr) :=
  match n with O => mret [] | S n' => x ← q_pop; xs ← pop_some n'; mret (x :: xs) end.

Lemma push_nodes_ok h q l xs :
  fifo h q l → NoDup xs → (∀ x, x ∈ xs → x ∉ l ∧ ∃ t, h !! x = Some t ∧ next t = None) →
  ∃ h' q', push_nodes xs (h, q) = Ok (tt, (h', q')) ∧ fifo h' q' (l ++ xs) ∧ same_jobs h h'.
Proof.
  revert h q l. induction xs as [|x xs IH]; intros h q l Hf Hn Hx; simpl.
  { exists h, q. by rewrite app_nil_r. }
  apply NoDup_cons in Hn as [Hxn Hn]. destruct (Hx x) as (Hxl & t & Ht & Hnx); [by left|].
  destruct (q_push_ok h q l x t Hf Hxl Ht Hnx) as (h1 & q1 & Hr & Hf1 & Hs1 & Hfr).
  unfold mbind, M_bind. rewrite Hr.
  destruct (IH h1 q1 (l ++ [x]) Hf1 Hn) as (h2 & q2 & Hr2 & Hf2 & Hs2).
  - intros y Hy. destruct (Hx y) as (Hyl & u & Hu & Hnu); [by right|]. split; [set_solver|].
    exists u. by rewrite Hfr.
  - exists h2, q2. split_and!; [done|by rewrite <- app_assoc in Hf2|].
    unfold same_jobs in *. by rewrite Hs2.
Qed.

Lemma pop_some_ok h q l1 l2 :
  fifo h q (l1 ++ l2) → ∃ q', pop_some (length l1) (h, q) = Ok (Some <$> l1, (h, q')) ∧ fifo h q' l2.
Proof.
  revert q. induction l1 as [|x l1 IH]; intros q Hf; simpl; [by exists q|].
  destruct (q_pop_ok _ _ _ _ Hf) as (q1 & Hr & Hf1). unfold mbind at 1, M_bind at 1. rewrite Hr.
  destruct (IH q1 Hf1) as (q2 & Hr2 & Hf2). exists q2. split; [|done].
  unfold mbind, M_bind. by rewrite Hr2.
Qed.

(** C34: The queue is first in, first out: what was queued before and then the pushed
    nodes come out in that order, whatever is left behind stays. *)
Theorem baseline_fifo_order h q l xs n :
  fifo h q l → NoDup xs → (∀ x, x ∈ xs → x ∉ l ∧ ∃ t, h !! x = Some t ∧ next t = None) →
  (n ≤ length (l ++ xs))%nat →
  ∃ h' q' q'', push_nodes xs (h, q) = Ok (tt, (h', q')) ∧
    pop_some n (h', q') = Ok (Some <$> take n (l ++ xs), (h', q'')) ∧ fifo h' q'' (drop n (l ++ xs)).
Proof.
  intros Hf Hn Hx Hlen. destruct (push_nodes_ok h q l xs Hf Hn Hx) as (h' & q' & Hr & Hf' & _).
  rewrite <- (take_drop n (l ++ xs)) in Hf'. destruct (pop_some_ok _ _ _ _ Hf') as (q'' & Hp & Hf'').
  rewrite length_take_le in Hp by done. exists h', q', q''. done.
Qed.

(** ** Where the tasks are *)

(** The node a thread owns, the popped node not run yet, and the node on its way in. *)
Definition own (p : pc) : option loc :=
  match p with
  | S_count t | S_lock t | S_insert t | W_unlock t | W_run t | W_free t => Some t
  | _ => None
  end.
Definition taken (p : pc) : option loc :=
  match p with W_unlock t | W_run t => Some t | _ => None end.
Definition incoming (p : pc) : option loc :=
  match p with S_count t | S_lock t | S_insert t => Some t | _ => None end.

(** A task counted in [total_task_in_system] that is not in the queue. *)
Definition counted (p : pc) : Z :=
  match p with
  | S_lock _ | S_insert _ | W_unlock _ | W_run _ | W_free _ | W_dec => 1
  | _ => 0
  end.

Definition jobs (m : gmap loc job) (l : list loc) : list job := omap (λ x, m !! x) l.
Arguments jobs : simpl never.
Definition job_map (s : pool) : gmap loc job := job_of <$> b_heap s.

Record balanced (s : pool) (ps : list pc) (l : list loc) : Prop := {
  b_fifo : fifo (b_heap s) (queue s) l;
  b_own : omap own ps ++ l ≡ₚ elements (dom (b_heap s));
  b_in : ∀ i p t, ps !! i = Some p → incoming p = Some t →
           ∃ task, b_heap s !! t = Some task ∧ next task = None;
  b_total : total_task_in_system s = i32 (tally counted ps + Z.of_nat (length l));
  b_jobs : accepted s ≡ₚ executed s ++ jobs (job_map s) (omap taken ps) ++ jobs (job_map s) l
}.

Definition touches (p : pc) : bool :=
  match p with S_malloc _ _ | S_insert _ | W_check | W_run _ | W_free _ => true | _ => false end.

(** Steps that leave the nodes and the queue alone. *)
Lemma quiet_move ps p s s' p' sp x :
  move code ps p s s' p' sp → touches p = false → total_task_in_system s = i32 x →
  (sp = [] ∧ own p' = own p ∧ taken p' = taken p ∧ (incoming p' = incoming p ∨ incoming p' = None)) ∧
  (b_heap s' = b_heap s ∧ queue s' = queue s ∧ accepted s' = accepted s ∧ executed s' = executed s) ∧
  total_task_in_system s' = i32 (x - counted p + counted p').
Proof.
  intros H Ht Hx.
  assert (Hsame : ∀ a, i32 x = i32 (x - a + a)) by (intros; f_equal; lia).
  destruct H as [q Hg|t q p2 Hcd|e cr fl s1 p1 Hcd|e cr fl s1 p1 Hcd|f z s1 p1 Hcd Hf].
  - destruct p; simpl in Hg; try done; subst q; (split_and!; auto); simpl; rewrite Hx; auto.
  - destruct p; try discriminate Hcd. injection Hcd as _ <-. (split_and!; auto). simpl. rewrite Hx. auto.
  - destruct p; discriminate Hcd.
  - destruct p; discriminate Hcd.
  - destruct p; try discriminate Ht; try discriminate Hcd; injection Hcd as <-;
      try (destruct z as [|[[]| |]|]; try discriminate Hf; injection Hf as <- <-; (split_and!; auto);
           simpl; rewrite Hx; auto);
      try (destruct (freed s); [discriminate Hf|]); simpl in Hf; injection Hf as <- <-; simpl;
      repeat case_match; (split_and!; auto); simpl; rewrite Hx; auto; rewrite ?i32_add_l; f_equal; lia.
Qed.

(** ** Every step keeps the balance *)

Lemma b_guarded_next f g z s s' p' :
  guarded f = AStep g → g z s = Next s' p' → freed s = false ∧ f z s = Next s' p'.
Proof. intros [= <-]. by destruct (freed s). Qed.

Lemma b_queue_next {A} (m : QM A) k g z s s' p' :
  queue_step m k = AStep g → g z s = Next s' p' →
  ∃ a h q, m (b_heap s, queue s) = Ok (a, (h, q)) ∧ k a (upd_store h q s) = (s', p').
Proof.
  intros Hc Hg. destruct (b_guarded_next _ _ _ _ _ _ Hc Hg) as [_ Hf].
  destruct (m _) as [[a [h q]]| |]; try done. exists a, h, q. split; [done|].
  destruct (k _ _). by injection Hf as <- <-.
Qed.

#[export] Instance b_jobs_proper m : Proper ((≡ₚ) ==> (≡ₚ)) (jobs m).
Proof. intros l l' H. unfold jobs. by rewrite H. Qed.

Lemma b_jobs_app m l1 l2 : jobs m (l1 ++ l2) = jobs m l1 ++ jobs m l2.
Proof. apply omap_app. Qed.

Lemma b_jobs_cons m x j k : m !! x = Some j → jobs m (x :: k) = j :: jobs m k.
Proof. intros H. unfold jobs. cbn. by rewrite H. Qed.

Lemma b_jobs_agree (m m' : gmap loc job) l : (∀ x, x ∈ l → m' !! x = m !! x) → jobs m' l = jobs m l.
Proof.
  intros H. induction l as [|x l IH]; [done|]. unfold jobs in *. cbn. rewrite H by (by left).
  destruct (m !! x); [f_equal|]; apply IH; intros y Hy; apply H; by right.
Qed.

Section Step.
Context (s : pool) (ps : list pc) (l : list loc) (i : nat) (p : pc).
Hypothesis (B : balanced s ps l) (Hi : ps !! i = Some p).

Lemma node_of x : x ∈ omap own ps ++ l → ∃ t, b_heap s !! x = Some t.
Proof. rewrite (b_own _ _ _ B), elem_of_elements, elem_of_dom. done. Qed.

Lemma nodup_all : NoDup (omap own ps ++ l).
Proof. rewrite (b_own _ _ _ B). apply NoDup_elements. Qed.

Lemma b_taken_owned x : x ∈ omap taken ps → x ∈ omap own ps.
Proof.
  rewrite !list_elem_of_omap. intros (q & Hq & Hx). exists q. split; [done|]. by destruct q.
Qed.

Lemma own_apart x : own p = Some x → x ∉ l ∧ x ∉ omap own (delete i ps).
Proof.
  intros Hx. pose proof nodup_all as Hn. rewrite (omap_at own ps i p Hi), Hx in Hn. simpl in Hn.
  apply NoDup_cons in Hn as [Hn _]. set_solver.
Qed.

(** Other threads' incoming nodes are untouched by a change to other nodes. *)
Lemma incoming_frame (h' : heap_t) p' :
  (∀ x, x ∈ omap own (delete i ps) → h' !! x = b_heap s !! x) →
  (∀ x, incoming p' = Some x → ∃ task, h' !! x = Some task ∧ next task = None) →
  ∀ j q t, <[i := p']> ps !! j = Some q → incoming q = Some t →
    ∃ task, h' !! t = Some task ∧ next task = None.
Proof.
  intros Hfr Hp' j q t Hj Hq. destruct (decide (j = i)) as [->|Hne].
  - rewrite list_lookup_insert_eq in Hj by (by eapply lookup_lt_Some). injection Hj as <-. auto.
  - rewrite list_lookup_insert_ne in Hj by done. rewrite Hfr; [by eapply (b_in _ _ _ B)|].
    apply list_elem_of_omap. exists q. split; [by eapply elem_of_others|by destruct q].
Qed.

Abbreviation ps' p' := (<[i := p']> ps).

Lemma tally_new p' : tally counted (ps' p') = tally counted ps - counted p + counted p'.
Proof. by apply tally_insert. Qed.

(** The balance after a step of thread [i], from its parts. *)
Lemma quiet_step s' p' :
  b_heap s' = b_heap s → queue s' = queue s → accepted s' = accepted s → executed s' = executed s →
  own p' = own p → taken p' = taken p → incoming p' = incoming p ∨ incoming p' = None →
  total_task_in_system s' = i32 (tally counted ps + Z.of_nat (length l) - counted p + counted p') →
  balanced s' (ps' p') l.
Proof.
  intros Hh Hq Ha He Ho Ht Hin Htot. split; unfold job_map; rewrite ?Hh, ?Hq, ?Ha, ?He.
  - apply B.
  - rewrite (omap_moved own _ _ _ _ Hi), Ho, <- (omap_at own ps i p Hi). apply B.
  - apply incoming_frame; [done|]. intros x Hx. destruct Hin as [E|E]; [|congruence].
    eapply (b_in _ _ _ B); [exact Hi|congruence].
  - rewrite Htot, tally_new. f_equal. lia.
  - rewrite (omap_moved taken _ _ _ _ Hi), Ht, <- (omap_at taken ps i p Hi). apply B.
Qed.
End Step.

Section Touch.
Context (s : pool) (ps : list pc) (l : list loc) (i : nat).
Hypothesis (B : balanced s ps l).
Abbreviation ps' p' := (<[i := p']> ps).

(** malloc of a task node. *)
Lemma malloc_step f a x :
  ps !! i = Some (S_malloc f a) → b_heap s !! x = None →
  balanced (upd_store (<[x := mk_task f a None]> (b_heap s)) (queue s) s) (ps' (S_count x)) l.
Proof.
  intros Hi Hx.
  assert (Hfresh : ∀ y, y ∈ omap own ps ++ l → y ≠ x).
  { intros y Hy ->. destruct (node_of _ _ _ B _ Hy) as [t Ht]. congruence. }
  pose proof (omap_at own ps i _ Hi) as Ho. simpl in Ho.
  split; simpl.
  - destruct (b_fifo _ _ _ B) as [Hl Ht Hn]. split; [|done|done]. apply linked_frame; [|done].
    intros Hin. by apply (Hfresh x); [set_solver|].
  - rewrite (omap_moved own _ _ _ _ Hi). simpl. rewrite <- Ho, (b_own _ _ _ B), dom_insert_L.
    by rewrite elements_union_singleton by (by apply not_elem_of_dom).
  - eapply incoming_frame; [exact B|exact Hi|..].
    + intros y Hy. apply lookup_insert_ne. intros ->. apply (Hfresh y); [|done]. rewrite Ho. set_solver.
    + intros y [= <-]. rewrite lookup_insert_eq. eauto.
  - rewrite (b_total _ _ _ B), (tally_new _ _ _ Hi). f_equal. simpl. lia.
  - unfold job_map. simpl. rewrite (b_jobs _ _ _ B). unfold job_map.
    rewrite (omap_moved taken _ _ _ _ Hi), (omap_at taken ps i _ Hi). simpl.
    assert (Hj : ∀ k, (∀ y, y ∈ k → y ≠ x) →
      jobs (job_of <$> <[x := mk_task f a None]> (b_heap s)) k = jobs (job_of <$> b_heap s) k).
    { intros k Hk. apply b_jobs_agree. intros y Hy. rewrite !lookup_fmap, lookup_insert_ne; [done|].
      specialize (Hk y Hy). congruence. }
    rewrite !Hj; [done| |].
    + intros y Hy. apply Hfresh. set_solver.
    + intros y Hy. apply Hfresh. apply elem_of_app. left. apply b_taken_owned.
      rewrite (omap_at taken ps i _ Hi). set_solver.
Qed.

(** q_push of the thread's node. *)
Lemma insert_step x h' q' task :
  ps !! i = Some (S_insert x) → b_heap s !! x = Some task → q_push x (b_heap s, queue s) = Ok (tt, (h', q')) →
  balanced (upd_jobs (job_of task :: accepted s) (executed s) (upd_store h' q' s)) (ps' S_unlock) (l ++ [x]).
Proof.
  intros Hi Hx Hpush. destruct (own_apart _ _ _ _ _ B Hi x eq_refl) as [Hxl Hxo].
  destruct (b_in _ _ _ B i _ x Hi eq_refl) as (task' & Hx' & Hnx). rewrite Hx in Hx'. injection Hx' as <-.
  destruct (q_push_ok _ _ _ _ _ (b_fifo _ _ _ B) Hxl Hx Hnx) as (h1 & q1 & Hr & Hf & Hs & Hfr).
  rewrite Hpush in Hr. injection Hr as <- <-.
  pose proof (omap_at own ps i _ Hi) as Ho. simpl in Ho.
  split; simpl.
  - done.
  - assert (Hd : dom h' = dom (b_heap s)).
    { rewrite <- (dom_fmap_L job_of h'), <- (dom_fmap_L job_of (b_heap s)). by rewrite Hs. }
    rewrite Hd, <- (b_own _ _ _ B), (omap_moved own _ _ _ _ Hi), Ho. simpl.
    rewrite app_assoc. by rewrite <- Permutation_cons_append.
  - eapply incoming_frame; [exact B|exact Hi| |done]. intros y Hy. apply Hfr. intros Hyl. pose proof (nodup_all _ _ _ B) as Hn.
    rewrite Ho in Hn. simpl in Hn. apply NoDup_cons in Hn as [_ Hn]. apply NoDup_app in Hn as (_ & Hn & _).
    by apply (Hn y).
  - rewrite (b_total _ _ _ B), (tally_new _ _ _ Hi), length_app. f_equal. simpl. lia.
  - unfold job_map. simpl. rewrite (b_jobs _ _ _ B). unfold job_map. rewrite Hs, b_jobs_app.
    rewrite (omap_moved taken _ _ _ _ Hi), (omap_at taken ps i _ Hi). simpl.
    rewrite (b_jobs_cons _ x (job_of task)) by (by rewrite lookup_fmap, Hx).
    rewrite !app_assoc. apply Permutation_cons_append.
Qed.

(** The head of the queue goes to a worker. *)
Lemma take_step x l' q' :
  ps !! i = Some W_check → l = x :: l' → fifo (b_heap s) q' l' →
  balanced (upd_store (b_heap s) q' s) (ps' (W_unlock x)) l'.
Proof.
  intros Hi -> Hf. pose proof (omap_at own ps i _ Hi) as Ho. simpl in Ho.
  split; simpl.
  - done.
  - rewrite (omap_moved own _ _ _ _ Hi), <- (b_own _ _ _ B), Ho. simpl. by rewrite Permutation_middle.
  - by eapply incoming_frame; [exact B|exact Hi|..].
  - rewrite (b_total _ _ _ B), (tally_new _ _ _ Hi). f_equal. simpl. lia.
  - unfold job_map. simpl. rewrite (b_jobs _ _ _ B). unfold job_map.
    rewrite (omap_moved taken _ _ _ _ Hi), (omap_at taken ps i _ Hi). simpl. f_equiv.
    change (x :: l') with ([x] ++ l'). change (x :: omap taken (delete i ps)) with ([x] ++ omap taken (delete i ps)).
    rewrite !b_jobs_app, !app_assoc. f_equiv. apply Permutation_app_comm.
Qed.

Lemma run_step x task :
  ps !! i = Some (W_run x) → b_heap s !! x = Some task →
  balanced (upd_jobs (accepted s) (job_of task :: executed s) s) (ps' (W_free x)) l.
Proof.
  intros Hi Hx. split; simpl.
  - apply B.
  - rewrite (omap_moved own _ _ _ _ Hi). simpl.
    rewrite <- (b_own _ _ _ B), (omap_at own ps i _ Hi). done.
  - by eapply incoming_frame; [exact B|exact Hi|..].
  - rewrite (b_total _ _ _ B), (tally_new _ _ _ Hi). f_equal. simpl. lia.
  - unfold job_map. simpl. rewrite (b_jobs _ _ _ B). unfold job_map.
    rewrite (omap_moved taken _ _ _ _ Hi), (omap_at taken ps i _ Hi). simpl.
    rewrite (b_jobs_cons _ x (job_of task)) by (by rewrite lookup_fmap, Hx). simpl.
    symmetry. apply Permutation_middle.
Qed.

Lemma free_step x :
  ps !! i = Some (W_free x) → balanced (upd_store (delete x (b_heap s)) (queue s) s) (ps' W_dec) l.
Proof.
  intros Hi. destruct (own_apart _ _ _ _ _ B Hi x eq_refl) as [Hxl Hxo].
  pose proof (omap_at own ps i _ Hi) as Ho. simpl in Ho.
  assert (Hx : x ∈ dom (b_heap s)).
  { apply elem_of_dom. apply (node_of _ _ _ B). rewrite Ho. set_solver. }
  split; simpl.
  - destruct (b_fifo _ _ _ B) as [Hl Ht Hn]. split; [|done|done]. by apply linked_delete.
  - rewrite (omap_moved own _ _ _ _ Hi). simpl. apply (Permutation_cons_inv (a := x)).
    rewrite dom_delete_L, <- elements_union_singleton by set_solver.
    rewrite <- union_difference_singleton_L by done. rewrite <- (b_own _ _ _ B), Ho. done.
  - eapply incoming_frame; [exact B|exact Hi| |done]. intros y Hy. apply lookup_delete_ne. intros ->. done.
  - rewrite (b_total _ _ _ B), (tally_new _ _ _ Hi). f_equal. simpl. lia.
  - unfold job_map. simpl. rewrite (b_jobs _ _ _ B). unfold job_map.
    rewrite (omap_moved taken _ _ _ _ Hi), (omap_at taken ps i _ Hi). simpl.
    assert (Hj : ∀ k, x ∉ k → jobs (job_of <$> delete x (b_heap s)) k = jobs (job_of <$> b_heap s) k).
    { intros k Hk. apply b_jobs_agree. intros y Hy. rewrite !lookup_fmap, lookup_delete_ne; [done|].
      intros ->. done. }
    rewrite !Hj; [done|done|]. intros Hin. apply Hxo.
    apply list_elem_of_omap in Hin as (q & Hq & Hx'). apply list_elem_of_omap. exists q.
    split; [done|]. by destruct q.
Qed.
End Touch.

Lemma fifo_balanced_step s ps l i p s' p' sp :
  balanced s ps l → ps !! i = Some p → move code ps p s s' p' sp →
  sp = [] ∧ ∃ l', balanced s' (<[i := p']> ps) l'.
Proof.
  intros B Hi H. destruct (touches p) eqn:Ht.
  - destruct H as [q Hg|t q p2 Hcd|e cr fl s1 p1 Hcd|e cr fl s1 p1 Hcd|f z s1 p1 Hcd Hf];
      destruct p; try discriminate Ht; try discriminate Hcd; try done; (split; [done|]); simpl in Hcd.
    + destruct (b_queue_next _ _ _ _ _ _ _ Hcd Hf) as (a & h & q & Hm & Hk). injection Hk as <- <-.
      unfold mbind, M_bind, get_queue in Hm. pose proof (f_head _ _ _ (b_fifo _ _ _ B)) as Hh.
      destruct l as [|x l]; simpl in Hh.
      * rewrite Hh in Hm. injection Hm as <- <- <-. exists [].
        eapply quiet_step; [exact B|exact Hi|..]; try done; auto.
        simpl. rewrite (b_total _ _ _ B). f_equal. simpl. lia.
      * destruct Hh as [Hh _]. rewrite Hh in Hm.
        destruct (q_pop_ok _ _ _ _ (b_fifo _ _ _ B)) as (q' & Hq & Hff). rewrite Hm in Hq.
        injection Hq as -> -> ->. exists l. by eapply take_step.
    + destruct (b_queue_next _ _ _ _ _ _ _ Hcd Hf) as (task & h & q & Hm & Hk). injection Hk as <- <-.
      unfold load in Hm. destruct (b_heap s !! t) as [task'|] eqn:Hx; [|done]. injection Hm as <- <- <-.
      exists l. replace (upd_store (b_heap s) (queue s) s) with s by (by destruct s). by eapply run_step.
    + destruct (b_guarded_next _ _ _ _ _ _ Hcd Hf) as [_ Hn].
      destruct (b_heap s !! t) eqn:Hx; [|done]. injection Hn as <- <-. exists l. by eapply free_step.
    + destruct (b_guarded_next _ _ _ _ _ _ Hcd Hf) as [_ Hn]. destruct z as [| |[x|]]; try done.
      * case_bool_decide; [|done]. injection Hn as <- <-. exists l. by eapply malloc_step.
      * injection Hn as <- <-. exists l. eapply quiet_step; [exact B|exact Hi|..]; try done; auto.
        simpl. rewrite (b_total _ _ _ B). f_equal. simpl. lia.
    + destruct (b_queue_next _ _ _ _ _ _ _ Hcd Hf) as (task & h & q & Hm & Hk). injection Hk as <- <-.
      unfold mbind, M_bind, load in Hm. destruct (b_heap s !! t) as [task'|] eqn:Hx; [|done].
      destruct (q_push t (b_heap s, queue s)) as [[[] [h1 q1]]| |] eqn:Hp; try done.
      injection Hm as <- <- <-. exists (l ++ [t]). by eapply insert_step.
  - destruct (quiet_move _ _ _ _ _ _ _ H Ht (b_total _ _ _ B)) as ((-> & Ho & Htk & Hin) & (Hh & Hq & Ha & He) & Htot).
    split; [done|]. exists l. by eapply quiet_step.
Qed.

(** ** Reachable states *)

Lemma baseline_disciplined : disciplined code holds.
Proof.
  intros p. unfold disciplined_at, same_holds. destruct p; simpl;
    try (split; [done|by intros []]); try (by intros []);
    try (intros z s s' p'; destruct (freed s); [done|]; simpl; repeat case_match; intros [= <- <-]; by intros []);
    try (intros z s s' p'; repeat case_match; try discriminate; intros [= <- <-]; by intros []).
Qed.

Lemma baseline_initial n k : initial holds (init_config n k).
Proof.
  split; [done|]. intros i st Hi. simpl in Hi.
  apply lookup_app_Some in Hi as [Hi|[_ Hi]].
  - apply lookup_replicate in Hi as [-> _]. exists W_lock. split; [done|by intros []].
  - apply lookup_app_Some in Hi as [Hi|[_ Hi]].
    + apply lookup_replicate in Hi as [-> _]. exists (C_idle RNone). split; [done|by intros []].
    + apply list_lookup_singleton_Some in Hi as [_ <-]. exists D_idle. split; [done|by intros []].
Qed.

Lemma init_balanced n k : balanced (init_pool n) (pcs (init_config n k)) [].
Proof.
  assert (Hp : pcs (init_config n k) = replicate n W_lock ++ replicate k (C_idle RNone) ++ [D_idle]).
  { unfold pcs. simpl. by rewrite !fmap_app, !fmap_replicate. }
  assert (Hom : ∀ g : pc → option loc, g W_lock = None → g (C_idle RNone) = None → g D_idle = None →
            omap g (pcs (init_config n k)) = []).
  { intros g H1 H2 H3. rewrite Hp, !omap_app. simpl. rewrite H3.
    assert (Hr : ∀ m p, g p = None → omap g (replicate m p) = []).
    { intros m p Hg. induction m as [|m IH]; [done|]. cbn. by rewrite Hg. }
    by rewrite !Hr. }
  split; simpl.
  - split; [done|done|constructor].
  - rewrite (Hom own) by done. by rewrite dom_empty_L, elements_empty.
  - intros i p t Hi Hin. assert (Ht : t ∈ omap incoming (pcs (init_config n k))).
    { apply list_elem_of_omap. exists p. split; [by eapply list_elem_of_lookup_2|done]. }
    rewrite (Hom incoming) in Ht by done. by apply elem_of_nil in Ht.
  - rewrite Hp, !tally_app. rewrite !(tally_const counted 0) by first [by apply Forall_replicate|by repeat constructor].
    by rewrite !Z.mul_0_r.
  - rewrite (Hom taken) by done. done.
Qed.

Lemma balanced_reachable n k c :
  rtc (step code) (init_config n k) c → ∃ l, balanced (sh c) (pcs c) l.
Proof.
  intros Hr. eapply (reach_ind code holds (λ s ps, ∃ l, balanced s ps l));
    [apply baseline_disciplined|apply baseline_initial|exists []; apply init_balanced| |exact Hr].
  intros c0 i p p' s' sp _ _ _ [l B] _ Hi H.
  destruct (fifo_balanced_step _ _ _ _ _ _ _ _ B Hi H) as [-> Hl]. by rewrite app_nil_r.
Qed.

(** C32: Whatever the clients do, shutdown included: every accepted task has been run, is
    held by a worker that popped it, or waits in the queue, and in exactly one of
    these places; every task node in memory has exactly one owner; and the counter
    is the number of tasks not finished (modulo its width). *)
Theorem baseline_exactly_once n k c :
  rtc (step code) (init_config n k) c →
  ∃ l, fifo (b_heap (sh c)) (queue (sh c)) l ∧
    accepted (sh c) ≡ₚ executed (sh c) ++ jobs (job_map (sh c)) (omap taken (pcs c)) ++ jobs (job_map (sh c)) l ∧
    omap own (pcs c) ++ l ≡ₚ elements (dom (b_heap (sh c))) ∧
    total_task_in_system (sh c) = i32 (tally counted (pcs c) + Z.of_nat (length l)).
Proof. intros Hr. destruct (balanced_reachable n k c Hr) as [l B]. exists l. split_and!; apply B. Qed.

(** ** Two schedules *)

Definition submit_to_lock (i : nat) (x : loc) : list (cmd choice) :=
  [Ex (With i (Call (CallSubmit (Some 7) 0))); Do i 2; Ex (With i (Malloc (Some x))); Do i 1].

(** A submit has passed the test of [shutdown] (line 187) and not registered yet
    (line 190); shutdown runs to its end; the submit registers in freed memory. *)
Definition late_schedule : list (cmd choice) :=
  [Ex (With 1 (Call (CallSubmit (Some 7) 0))); Do 1 1;
   Ex (With 2 (Call CallShutdown)); Do 2 5; Do 0 4; Do 2 3; Do 2 4].

Definition crashes_at (c : bconfig) (i : nat) : bool :=
  match threads c !! i with
  | Some (Running p) =>
      match code p with
      | AStep f => match f Tau (sh c) with Crash UseAfterFree => true | _ => false end
      | _ => false
      end
  | _ => false
  end.

(** A submit that began before shutdown can use the pool after it was freed. *)
Theorem baseline_submit_use_after_free :
  ∃ c, rtc (step code) (init_config 1 1) c ∧ (freed (sh c) && crashes_at c 1) = true.
Proof. apply (drives_to_reach _ Tau _ late_schedule). vm_compute. reflexivity. Qed.

(** A registered submit pushes after the only worker has seen the empty queue and
    the shutdown flag: its task is never run and shutdown waits for it. *)
Definition hang_schedule : list (cmd choice) :=
  submit_to_lock 1 1 ++
  [Ex (With 2 (Call CallShutdown)); Do 2 4; Do 0 4;
   Do 1 5; Do 2 4].

Definition hangs (c : bconfig) : bool :=
  match threads c !! 0%nat, threads c !! 1%nat, threads c !! 2%nat with
  | Some (Running W_exit), Some (Running (C_idle (RInt 0))), Some (Waiting CDrain MDrain D_check) =>
      total_task_in_system (sh c) =? 1
  | _, _, _ => false
  end.

(** baseline_pool_shutdown can hang on a task pushed after every worker has
    left. *)
Theorem baseline_shutdown_can_hang :
  ∃ c, rtc (step code) (init_config 1 1) c ∧ hangs c = true.
Proof. apply (drives_to_reach _ Tau _ hang_schedule). vm_compute. reflexivity. Qed.

(** ** The theorems at concrete values *)

Definition three : heap_t := {[ 1%positive := mk_task 7 0 None; 2%positive := mk_task 8 0 None;
                                3%positive := mk_task 9 0 None ]}.

Lemma baseline_fifo_order_witness :
  ∃ h' q' q'', push_nodes [2; 1; 3]%positive (three, mk_queue None None) = Ok (tt, (h', q')) ∧
    pop_some 2 (h', q') = Ok ([Some 2; Some 1]%positive, (h', q'')) ∧ fifo h' q'' [3%positive].
Proof.
  apply (baseline_fifo_order three (mk_queue None None) [] [2; 1; 3]%positive 2).
  - split; [done|done|constructor].
  - repeat constructor; set_solver.
  - intros x Hx. split; [by apply not_elem_of_nil|].
    repeat (apply elem_of_cons in Hx as [-> |Hx]; [by eexists|]). by apply elem_of_nil in Hx.
  - simpl. lia.
Defined.

Definition one_queued : bconfig :=
  default (init_config 1 1) (drive code Tau (submit_to_lock 1 1 ++ [Do 1 2]) (init_config 1 1)).

Lemma baseline_exactly_once_witness :
  accepted (sh one_queued) = [(7, 0)] ∧
  ∃ l, fifo (b_heap (sh one_queued)) (queue (sh one_queued)) l ∧
    accepted (sh one_queued) ≡ₚ executed (sh one_queued)
      ++ jobs (job_map (sh one_queued)) (omap taken (pcs one_queued)) ++ jobs (job_map (sh one_queued)) l ∧
    omap own (pcs one_queued) ++ l ≡ₚ elements (dom (b_heap (sh one_queued))) ∧
    total_task_in_system (sh one_queued) = i32 (tally counted (pcs one_queued) + Z.of_nat (length l)).
Proof.
  split; [vm_compute; reflexivity|]. apply (baseline_exactly_once 1 1 one_queued).
  apply (drive_sound code Tau (submit_to_lock 1 1 ++ [Do 1 2])). vm_compute. reflexivity.
Defined.
End BaselineProofs.
