(* ===== verification/BaselineSteps.v ===== *)
(** * BaselineSteps: the steps of the FIFO pool, and what holds in every state of it

    [works] lists the moves of Baseline.v; [base]: which thread is where, what the
    counters of workers and submits are, and what a worker that is about to sleep or
    to leave has seen. *)
From S2P Require Export BaselineProofs PthreadRuns.
Local Open Scope Z_scope.

Module BaselineSteps.
Import Baseline BaselineProofs.

(** ** The moves *)

Inductive works (s : pool) : pc → pool → pc → Prop :=
| w_lock : works s W_lock s W_check
| w_take x h q : head (queue s) ≠ None → works s W_check (upd_store h q s) (W_unlock x)
| w_empty : head (queue s) = None → works s W_check s W_shut
| w_leave : shutdown s = true → works s W_shut s W_null
| w_stay : shutdown s = false → works s W_shut s W_wait
| w_wait : works s W_wait s W_check
| w_null : works s W_null s W_exit
| w_unlock x : works s (W_unlock x) s (W_run x)
| w_run x task : works s (W_run x) (upd_jobs (accepted s) (job_of task :: executed s) s) (W_free x)
| w_free x : works s (W_free x) (upd_store (delete x (b_heap s)) (queue s) s) W_dec
| w_last : i32 (total_task_in_system s - 1) ≤ 0 → works s W_dec (upd_total (-1) s) W_dlock
| w_next : 0 < i32 (total_task_in_system s - 1) → works s W_dec (upd_total (-1) s) W_lock
| w_dlock : works s W_dlock s W_dbcast
| w_dbcast : works s W_dbcast s W_dunlock
| w_dunlock : works s W_dunlock s W_lock
| c_refused r a : works s (C_idle r) s (C_idle a)
| c_submit r f a : works s (C_idle r) s (S_shut f a)
| c_wait r : works s (C_idle r) s T_lock
| s_closed f a r : works s (S_shut f a) s (C_idle r)
| s_open f a : works s (S_shut f a) s (S_enter f a)
| s_enter f a : works s (S_enter f a) (upd_flight 1 s) (S_malloc f a)
| s_nomem f a : works s (S_malloc f a) s S_nomem
| s_malloc f a l t : works s (S_malloc f a) (upd_store (<[l := t]> (b_heap s)) (queue s) s) (S_count l)
| s_giveup r : works s S_nomem (upd_flight (-1) s) (C_idle r)
| s_count t : works s (S_count t) (upd_total 1 s) (S_lock t)
| s_lock t : works s (S_lock t) s (S_insert t)
| s_insert t a h q : works s (S_insert t) (upd_jobs a (executed s) (upd_store h q s)) S_unlock
| s_unlock : works s S_unlock s S_signal
| s_signal : works s S_signal s S_done
| s_done r : works s S_done (upd_flight (-1) s) (C_idle r)
| t_lock : works s T_lock s T_check
| t_more : works s T_check s T_wait
| t_none : works s T_check s T_unlock
| t_wait : works s T_wait s T_check
| t_unlock r : works s T_unlock s (C_idle r)
| d_call : works s D_idle s D_store
| d_store : works s D_store (upd_shutdown s) D_wlock
| d_wlock : works s D_wlock s D_wbcast
| d_wbcast : works s D_wbcast s D_wunlock
| d_wunlock : works s D_wunlock s D_spin
| d_spin : in_flight_submits s ≠ 0 → works s D_spin s D_spin
| d_spun : in_flight_submits s = 0 → works s D_spin s D_lock
| d_lock : works s D_lock s D_check
| d_more : total_task_in_system s ≠ 0 → works s D_check s D_wait
| d_none : total_task_in_system s = 0 → works s D_check s D_unlock
| d_wait : works s D_wait s D_check
| d_unlock : works s D_unlock s (D_next 0)
| d_next j : Z.of_nat j < num_workers s → works s (D_next j) s (D_join j)
| d_last j : num_workers s ≤ Z.of_nat j → works s (D_next j) s D_free
| d_join j : works s (D_join j) s (D_next (S j))
| d_free : works s D_free (upd_freed s) D_done.

Lemma upd_store_same s : upd_store (b_heap s) (queue s) s = s.
Proof. by destruct s. Qed.

Lemma check_queue s a h q :
  (q ← get_queue; match head q with None => mret None | Some _ => q_pop end) (b_heap s, queue s) = Ok (a, (h, q)) →
  (head (queue s) = None ∧ a = None ∧ h = b_heap s ∧ q = queue s) ∨ (head (queue s) ≠ None ∧ a = head (queue s)).
Proof.
  unfold mbind, M_bind, get_queue. destruct (head (queue s)) as [x|] eqn:Hh; [|intros [= <- <- <-]; by left].
  unfold q_pop, mbind, M_bind, get_queue, load. rewrite Hh. destruct (b_heap s !! x); [|done]. intros [= <- <- <-]. by right.
Qed.

Lemma guarded_works f g z s s' p' :
  guarded f = AStep g → g z s = Next s' p' → f z s = Next s' p'.
Proof. intros H1 H2. by destruct (b_guarded_next _ _ _ _ _ _ H1 H2). Qed.

Lemma code_works ps p s s' p' sp :
  move code ps p s s' p' sp →
  sp = [] ∧ works s p s' p' ∧ (∀ j, p = D_join j → ∃ q, ps !! j = Some q ∧ code q = AExit).
Proof.
  destruct 1 as [q Hg|t q p2 Hcd Hq Hx|e cr fl s1 p1 Hcd|e cr fl s1 p1 Hcd|f z s1 p1 Hcd Hf].
  - destruct p; simpl in Hg; try done; subst q; (split_and!; [done|constructor|done]).
  - destruct p; try discriminate Hcd. injection Hcd as <- <-. split_and!; [done|constructor|]. intros j [= <-]. eauto.
  - destruct p; discriminate Hcd.
  - destruct p; discriminate Hcd.
  - split; [done|]. split; [|destruct p; try discriminate Hcd; done].
    destruct p; try discriminate Hcd; simpl in Hcd;
      try (lazymatch type of Hcd with queue_step _ _ = _ => fail | _ => apply (guarded_works _ _ _ _ _ _ Hcd) in Hf; simpl in Hf end);
      try (injection Hcd as <-; destruct z as [|[[]| |]|]; try discriminate Hf; injection Hf as <- <-; constructor).
    + destruct (b_queue_next _ _ _ _ _ _ _ Hcd Hf) as (a & h & q & Hm & Hk). injection Hk as <- <-.
      destruct (check_queue _ _ _ _ Hm) as [(Hh & -> & -> & ->)|[Hh ->]]; [rewrite upd_store_same; by constructor|].
      destruct (head (queue s)) eqn:E; [|done]. constructor. by rewrite E.
    + injection Hf as <- <-. destruct (shutdown s) eqn:E; by constructor.
    + destruct (b_queue_next _ _ _ _ _ _ _ Hcd Hf) as (task & h & q & Hm & Hk). injection Hk as <- <-.
      unfold load in Hm. destruct (b_heap s !! t); [|done]. injection Hm as <- <- <-. rewrite upd_store_same. constructor.
    + destruct (b_heap s !! t); [|done]. injection Hf as <- <-. constructor.
    + destruct (i32 (total_task_in_system s - 1) <=? 0) eqn:E; injection Hf as <- <-; constructor; lia.
    + injection Hf as <- <-. destruct (shutdown s); constructor.
    + destruct z as [| |[l|]]; try done; [|injection Hf as <- <-; constructor].
      case_bool_decide; [|done]. injection Hf as <- <-. constructor.
    + destruct (b_queue_next _ _ _ _ _ _ _ Hcd Hf) as (task & h & q & Hm & Hk). injection Hk as <- <-. constructor.
    + injection Hf as <- <-. destruct (total_task_in_system s =? 0); constructor.
    + injection Hf as <- <-. destruct (Z.eqb_spec (in_flight_submits s) 0); by constructor.
    + injection Hf as <- <-. destruct (Z.eqb_spec (total_task_in_system s) 0); by constructor.
    + injection Hf as <- <-. destruct (Z.ltb_spec (Z.of_nat i) (num_workers s)); constructor; lia.
Qed.

(** ** Who is who *)

Inductive role := Worker | Client | Destroyer.
Definition role_of (p : pc) : role :=
  match p with
  | W_lock | W_check | W_shut | W_wait | W_null | W_unlock _ | W_run _ | W_free _ | W_dec
  | W_dlock | W_dbcast | W_dunlock | W_exit => Worker
  | D_idle | D_store | D_wlock | D_wbcast | D_wunlock | D_spin | D_lock | D_check | D_wait
  | D_unlock | D_next _ | D_join _ | D_free | D_done => Destroyer
  | _ => Client
  end.
#[export] Instance role_eq_dec : EqDecision role.
Proof. solve_decision. Defined.

Definition working (p : pc) : Z := match role_of p with Worker => 1 | _ => 0 end.

(** A submit between its two changes of [in_flight_submits]. *)
Definition flying (p : pc) : Z :=
  match p with
  | S_malloc _ _ | S_nomem | S_count _ | S_lock _ | S_insert _ | S_unlock | S_signal | S_done => 1
  | _ => 0
  end.

(** shutdown has been stored. *)
Definition stored (d : pc) : bool := match d with D_idle | D_store => false | _ => true end.
Definition gone (d : pc) : bool := match d with D_done => true | _ => false end.

(** A worker that has seen the empty queue, and one that has given up on it. *)
Definition seen (p : pc) : bool := match p with W_shut | W_wait => true | _ => false end.
Definition left (p : pc) : bool := match p with W_null | W_exit => true | _ => false end.

Section Base.
Context (n k : nat).

Definition role_at (i : nat) : role :=
  if decide (i < n)%nat then Worker else if decide (i < n + k)%nat then Client else Destroyer.

Record base (s : pool) (ps : list pc) : Prop := {
  g_len : length ps = (n + k + 1)%nat;
  g_role i p : ps !! i = Some p → role_of p = role_at i;
  g_workers : tally working ps = Z.of_nat n;
  g_num : num_workers s = Z.of_nat n;
  g_flight : in_flight_submits s = i32 (tally flying ps);
  g_dest d : ps !! (n + k)%nat = Some d → shutdown s = stored d ∧ freed s = gone d;
  g_young i p : shutdown s = false → ps !! i = Some p → left p = false;
  g_seen i p : ps !! i = Some p → seen p = true → head (queue s) = None
}.

Lemma works_role s p s' p' : works s p s' p' → role_of p' = role_of p.
Proof. by destruct 1. Qed.

Lemma works_fields s p s' p' :
  works s p s' p' →
  num_workers s' = num_workers s ∧
  (role_of p ≠ Destroyer → shutdown s' = shutdown s ∧ freed s' = freed s) ∧
  (role_of p = Destroyer → shutdown s = stored p → freed s = gone p → shutdown s' = stored p' ∧ freed s' = gone p') ∧
  (in_flight_submits s' = i32 (in_flight_submits s + flying p' - flying p) ∨
   (in_flight_submits s' = in_flight_submits s ∧ flying p' = flying p)).
Proof.
  destruct 1; (split_and!; [done|try done|try done; simpl; intros; congruence|]); simpl; auto; left; f_equal; lia.
Qed.

(** Who sees the empty queue; who fills it. *)
Lemma works_seen s p s' p' :
  works s p s' p' →
  (seen p' = true → head (queue s') = None ∨ seen p = true) ∧
  (head (queue s) = None → head (queue s') = None ∨ ∃ t, p = S_insert t) ∧
  (left p' = true → left p = true ∨ shutdown s = true).
Proof. destruct 1; simpl; split_and!; try done; eauto; by intros. Qed.

Lemma working_le p : 0 ≤ working p ≤ 1.
Proof. unfold working. destruct (role_of p); lia. Qed.

Lemma flying_nonneg p : 0 ≤ flying p.
Proof. by destruct p. Qed.

Lemma stored_kept s p s' p' : works s p s' p' → stored p = true → stored p' = true.
Proof. by destruct 1. Qed.

Lemma dest_only i : role_at i = Destroyer → (i < n + k + 1)%nat → i = (n + k)%nat.
Proof. unfold role_at. repeat case_decide; try done. lia. Qed.

Section Step.
Context (s s' : pool) (ps : list pc) (i : nat) (p p' : pc).
Context (G : base s ps) (Hi : ps !! i = Some p) (H : works s p s' p').

Lemma moved_role j q : <[i := p']> ps !! j = Some q → role_of q = role_at j.
Proof.
  intros Hj. apply list_lookup_insert_Some in Hj as [(-> & <- & _)|[_ Hj]]; [|by apply (g_role _ _ G)].
  rewrite (works_role _ _ _ _ H). by apply (g_role _ _ G).
Qed.

Lemma mover_at : role_of p = Destroyer → i = (n + k)%nat.
Proof.
  intros Hr. apply dest_only; [by rewrite <- (g_role _ _ G i p Hi)|]. rewrite <- (g_len _ _ G). by eapply lookup_lt_Some.
Qed.

Lemma moved_dest d : <[i := p']> ps !! (n + k)%nat = Some d → shutdown s' = stored d ∧ freed s' = gone d.
Proof.
  destruct (works_fields _ _ _ _ H) as (_ & Hother & Hdest & _).
  intros Hd. apply list_lookup_insert_Some in Hd as [(Hik & <- & _)|[Hne Hd]].
  - pose proof Hi as Hi'. rewrite Hik in Hi'. destruct (g_dest _ _ G p Hi'). apply Hdest; try done.
    rewrite (g_role _ _ G _ _ Hi'). unfold role_at. by repeat (rewrite decide_False by lia).
  - destruct Hother as [-> ->]; [|by apply (g_dest _ _ G)]. intros Hr. by destruct (Hne (mover_at Hr)).
Qed.

Lemma was_open : shutdown s' = false → shutdown s = false.
Proof.
  destruct (works_fields _ _ _ _ H) as (_ & Hother & Hdest & _). intros Hsh.
  destruct (decide (role_of p = Destroyer)) as [Hd|Hd]; [|by rewrite <- (proj1 (Hother Hd))].
  pose proof Hi as Hi'. rewrite (mover_at Hd) in Hi'. destruct (g_dest _ _ G p Hi') as [E1 E2].
  destruct (Hdest Hd E1 E2) as [E _]. rewrite E1. destruct (stored p) eqn:Hs; [|done].
  rewrite (stored_kept _ _ _ _ H Hs) in E. congruence.
Qed.

Lemma base_step :
  (∀ t j q, p = S_insert t → ps !! j = Some q → seen q = true → j = i) → base s' (<[i := p']> ps).
Proof.
  intros Hx. destruct (works_fields _ _ _ _ H) as (Hn & _ & _ & Hfl). destruct (works_seen _ _ _ _ H) as (Hs & Hq & Hl).
  split.
  - rewrite length_insert. apply G.
  - apply moved_role.
  - rewrite (tally_insert working _ _ _ _ Hi), (g_workers _ _ G). unfold working. rewrite (works_role _ _ _ _ H). lia.
  - rewrite Hn. apply G.
  - rewrite (tally_insert flying _ _ _ _ Hi). destruct Hfl as [E|[E1 E2]].
    + rewrite E, (g_flight _ _ G), <- Z.add_sub_assoc, i32_add_l. f_equal. lia.
    + rewrite E1, E2, (g_flight _ _ G). f_equal. lia.
  - apply moved_dest.
  - intros j q Hsh Hj. pose proof (was_open Hsh) as Hsh0.
    apply list_lookup_insert_Some in Hj as [(_ & <- & _)|[_ Hj]]; [|by eapply (g_young _ _ G)].
    destruct (left p') eqn:E; [|done]. destruct (Hl eq_refl) as [E'|]; [|congruence].
    by rewrite (g_young _ _ G i p Hsh0 Hi) in E'.
  - intros j q Hj Hsq. apply list_lookup_insert_Some in Hj as [(_ & <- & _)|[Hne Hj]].
    + destruct (Hs Hsq) as [?|Hp]; [done|]. destruct (Hq (g_seen _ _ G i p Hi Hp)) as [?|[t E]]; [done|by rewrite E in Hp].
    + destruct (Hq (g_seen _ _ G j q Hj Hsq)) as [?|[t Ht]]; [done|]. by destruct (Hne (eq_sym (Hx t j q Ht Hj Hsq))).
Qed.
End Step.

Lemma init_lookup i p :
  pcs (init_config n k) !! i = Some p →
  (p = W_lock ∧ (i < n)%nat) ∨ (p = C_idle RNone ∧ (n ≤ i < n + k)%nat) ∨ (p = D_idle ∧ i = (n + k)%nat).
Proof.
  unfold pcs. simpl. rewrite !fmap_app, !fmap_replicate. simpl. intros Hi.
  apply lookup_app_Some in Hi as [Hi|[Hge Hi]]; [apply lookup_replicate in Hi; naive_solver|].
  rewrite length_replicate in *. apply lookup_app_Some in Hi as [Hi|[Hge' Hi]].
  - apply lookup_replicate in Hi as [-> ?]. right. left. split; [done|lia].
  - rewrite length_replicate in *. apply list_lookup_singleton_Some in Hi as [? <-]. right. right. split; [done|lia].
Qed.

Lemma init_base : base (init_pool n) (pcs (init_config n k)).
Proof.
  assert (Hp : pcs (init_config n k) = replicate n W_lock ++ replicate k (C_idle RNone) ++ [D_idle]).
  { unfold pcs. simpl. by rewrite !fmap_app, !fmap_replicate. }
  split; try done.
  - rewrite Hp, !length_app, !length_replicate. simpl. lia.
  - intros i p Hi. unfold role_at. destruct (init_lookup i p Hi) as [[-> ?]|[[-> ?]|[-> ?]]].
    + by rewrite decide_True.
    + rewrite decide_False, decide_True by lia. done.
    + repeat rewrite decide_False by lia. done.
  - rewrite Hp, !tally_app, (tally_const working 1) by by apply Forall_replicate.
    rewrite (tally_const working 0) by by apply Forall_replicate. rewrite length_replicate. simpl. unfold working. simpl. lia.
  - rewrite (tally_const flying 0); [by rewrite Z.mul_0_r|]. apply Forall_lookup. intros i p Hi.
    by destruct (init_lookup i p Hi) as [[-> ?]|[[-> ?]|[-> ?]]].
  - intros d Hd. destruct (init_lookup _ _ Hd) as [[-> ?]|[[-> ?]|[-> ?]]]; try lia. done.
  - intros i p _ Hi. by destruct (init_lookup i p Hi) as [[-> ?]|[[-> ?]|[-> ?]]].
Qed.

Lemma base_reachable c : rtc (step code) (init_config n k) c → base (sh c) (pcs c).
Proof.
  intros Hr. eapply (reach_ind code holds base); [apply baseline_disciplined|apply baseline_initial|apply init_base| |exact Hr].
  intros c0 i p p' s' sp _ Ho Hsl G Hth Hi Hm. destruct (code_works _ _ _ _ _ _ Hm) as (-> & H & _). rewrite app_nil_r.
  eapply base_step; [exact G|exact Hi|exact H|]. intros t j q -> Hj Hq.
  apply (owned_exclusive holds c0 MQueue); [done| |].
  - eapply (pcs_hold code holds); [done|exact Hj| |by destruct q].
    intros (r & cv & m & Hr0). destruct q; try discriminate Hq; destruct r; discriminate Hr0.
  - unfold hold_at. by rewrite Hth.
Qed.
End Base.

End BaselineSteps.
