(* ===== verification/BaselineShutdown.v ===== *)
(** * BaselineShutdown: baseline_pool_shutdown comes to an end

    When no client is inside the pool as baseline_pool_shutdown begins, every run
    without spurious wakeups is finite and ends with the pool freed and all
    accepted tasks run.  A measure bounds the runs; [closing] shows that nobody is
    left asleep.  (With a submit under way shutdown can hang, see BaselineProofs.v.) *)
From S2P Require Export BaselineSteps.
Local Open Scope Z_scope.

Module BaselineShutdown.
Import Baseline BaselineProofs BaselineSteps.

(** ** No new calls *)

Definition quiet (p : pc) : baction :=
  match p with C_idle _ | D_idle => AStep (λ _ _, Stuck) | _ => code p end.

Definition untimed (cv : cond_id) : bool := false.

Lemma b_quiet_atom p f z s s' p' :
  quiet p = AStep f → f z s = Next s' p' → ∃ f', code p = AStep f' ∧ f' z s = Next s' p'.
Proof. intros Hp Hf. destruct p; try (by exists f); injection Hp as <-; discriminate Hf. Qed.

Lemma b_quiet_same p a : quiet p = a → (∀ f, a ≠ AStep f) → code p = a.
Proof. intros <- H. destruct p; try done; by destruct (H (λ _ _, Stuck)). Qed.

Lemma b_quiet_step c c' : step quiet c c' → step code c c'.
Proof. apply restrict_step; [apply b_quiet_atom|apply b_quiet_same]. Qed.

Lemma quiet_works ps p s s' p' sp :
  move quiet ps p s s' p' sp →
  sp = [] ∧ works s p s' p' ∧ (∀ j, p = D_join j → ∃ q, ps !! j = Some q ∧ code q = AExit) ∧
  (∀ r, p ≠ C_idle r) ∧ p ≠ D_idle.
Proof.
  intros H. assert (Hn : (∀ r, p ≠ C_idle r) ∧ p ≠ D_idle).
  { split; [intros r E|intros E]; rewrite E in H;
      (inversion H as [q Hg|t q p2 Hcd Hq Hx|e cr fl s1 p1 Hcd Hn|e cr fl s1 p1 Hcd Hn|f z s1 p1 Hcd Hf]; subst;
        [done|discriminate Hcd..|injection Hcd as <-; discriminate Hf]). }
  destruct (code_works ps p s s' p' sp) as (? & ? & ?); [|done].
  by apply (restrict_move code quiet b_quiet_atom b_quiet_same).
Qed.

Lemma quiet_disciplined : disciplined quiet holds.
Proof.
  intros p. pose proof (baseline_disciplined p) as H. unfold disciplined_at in *. destruct p; try exact H; by intros z s s' p'.
Qed.

Lemma quiet_wait cv m p : (∃ q, code q = AWait cv m p) → ∃ q, quiet q = AWait cv m p.
Proof. intros [q Hq]. exists q. by destruct q. Qed.

Lemma quiet_sleepers c : sleepers_ok code holds c → sleepers_ok quiet holds c.
Proof.
  intros H i st Hi. specialize (H i st Hi). destruct st as [p|cv m p|m p]; [done|..].
  - destruct H as [? H]. split; [done|by apply quiet_wait].
  - destruct H as (? & q & cv & Hq). split; [done|]. destruct (quiet_wait cv m p) as [q' ?]; [by exists q|]. by exists q', cv.
Qed.

(** ** How far a thread is from its end *)

Definition wake_one (n : nat) : Z := 10 + 2 * Z.of_nat n.
Definition task_cost (n size : nat) : Z := 9 + wake_one n * Z.of_nat size.

Definition rank (n size : nat) (p : pc) : Z :=
  let m := 2 * Z.of_nat n in
  let b := wake_one n * Z.of_nat size in
  match p with
  | W_lock => 10
  | W_check => 9
  | W_unlock _ => 8
  | W_run _ => 7
  | W_free _ => 6
  | W_dec => 5
  | W_dlock => 13 + b
  | W_dbcast => 12 + b
  | W_dunlock => 11
  | W_shut => 3
  | W_wait => 2
  | W_null => 1
  | D_store => 11 + m + b
  | D_wlock => 10 + m + b
  | D_wbcast => 9 + m + b
  | D_wunlock => 8 + m
  | D_spin => 7 + m
  | D_lock => 6 + m
  | D_check => 5 + m
  | D_wait => 4 + m
  | D_unlock => 3 + m
  | D_next i => 2 + 2 * (Z.of_nat n - Z.of_nat i)
  | D_join i => 1 + 2 * (Z.of_nat n - Z.of_nat i)
  | D_free => 1
  | _ => 0
  end.

Definition rank_of (n size : nat) (st : status pc mutex_id cond_id) : Z :=
  match st with
  | Running p => Z.max 0 (rank n size p)
  | Relocking _ p => Z.max 0 (rank n size p) + 1
  | Waiting _ _ _ => 0
  end.

(** The workers that shutdown has joined. *)
Definition joined (n : nat) (d : pc) : option nat :=
  match d with D_next j | D_join j => Some j | D_free | D_done => Some n | _ => None end.
Definition join_ok (n : nat) (d : pc) : Prop :=
  match d with D_next j => (j ≤ n)%nat | D_join j => (j < n)%nat | _ => True end.

(** A thread that runs on comes nearer to its end, what it wakes included. *)
Lemma works_rank n size s p s' p' :
  works s p s' p' → role_of p ≠ Client → p ≠ D_idle → sleeps (quiet p) = false →
  in_flight_submits s = 0 → num_workers s = Z.of_nat n → join_ok n p →
  (counted p = 1 → 0 < total_task_in_system s < 2 ^ 31) →
  0 ≤ rank n size p' ∧
  rank n size p' + stir_cost (wake_one n) size (quiet p)
    + task_cost n size * (total_task_in_system s' - total_task_in_system s) < rank n size p.
Proof.
  intros H Hr Hi Hs Hf Hn Hj Ht. assert (0 ≤ wake_one n * Z.of_nat size) by (unfold wake_one; nia).
  unfold task_cost.
  destruct H; try done; try discriminate Hs; cbn -[Z.mul Z.add wake_one Z.of_nat i32] in *;
    try (split; [lia|]; rewrite ?Z.sub_diag, ?Z.mul_0_r; lia).
  all: specialize (Ht eq_refl); rewrite (i32_small (_ + -1)) by lia; split; [lia|];
    replace (total_task_in_system s + -1 - total_task_in_system s) with (-1) by lia; lia.
Qed.

Lemma b_rank_wake n size cv m p :
  (∃ q, quiet q = AWait cv m p) → rank_of n size (Relocking m p) ≤ rank_of n size (Waiting cv m p) + wake_one n.
Proof. intros (q & H). destruct q; try discriminate H; injection H as <- <- <-; unfold wake_one; simpl; lia. Qed.

Lemma b_rank_sleep n size cv m p p' :
  quiet p = AWait cv m p' → rank_of n size (Waiting cv m p') < rank_of n size (Running p) ∨ role_of p = Client.
Proof. intros H. destruct p; try discriminate H; injection H as <- <- <-; simpl; try lia. by right. Qed.

(** ** Shutting down *)

(** Behind its broadcast nobody sleeps on the queue again. *)
Definition past (d : pc) : bool :=
  match d with D_idle | D_store | D_wlock | D_wbcast => false | _ => true end.
Definition dozing (st : status pc mutex_id cond_id) : bool :=
  match st with Running W_wait => true | Waiting CQueue _ _ => true | _ => false end.

Definition drained (d : pc) : bool :=
  match d with D_unlock | D_next _ | D_join _ | D_free | D_done => true | _ => false end.
Definition drowsy (st : status pc mutex_id cond_id) : bool :=
  match st with Running D_wait => true | Waiting CDrain _ _ => true | _ => false end.

(** A worker that has counted the last task off and will wake shutdown. *)
Definition announcing (p : pc) : bool := match p with W_dlock | W_dbcast => true | _ => false end.

Lemma tally_mono {A} (f g : A → Z) ps : (∀ i p, ps !! i = Some p → f p ≤ g p) → tally f ps ≤ tally g ps.
Proof.
  induction ps as [|p ps IH]; intros H; simpl; [lia|].
  pose proof (H O p eq_refl). specialize (IH (λ i, H (S i))). lia.
Qed.

(** What the steps of workers and shutdown leave b_alone. *)
Lemma works_inner s p s' p' :
  works s p s' p' → role_of p ≠ Client →
  accepted s' = accepted s ∧ in_flight_submits s' = in_flight_submits s ∧
  (head (queue s) = None → head (queue s') = None) ∧
  (left p' = true → left p = true ∨ seen p = true) ∧
  (total_task_in_system s' = total_task_in_system s ∨
   (p = W_dec ∧ total_task_in_system s' = i32 (total_task_in_system s - 1) ∧
    (total_task_in_system s' ≤ 0 → p' = W_dlock))).
Proof.
  destruct 1; intros Hr; try done; simpl; (split_and!; [done|done|done|by auto|]); auto; right;
    (split_and!; [done|f_equal; lia|]).
  intros Hle. replace (total_task_in_system s + -1) with (total_task_in_system s - 1) in Hle by lia. lia.
Qed.

Section Closing.
Context (n k : nat).
Abbreviation qstep := (step quiet).

Record closing (c : bconfig) (d : pc) : Prop := {
  c_reach : rtc (step code) (init_config n k) c;
  c_dest : pcs c !! (n + k)%nat = Some d;
  c_called : d ≠ D_idle;
  c_idle i p : pcs c !! i = Some p → role_of p = Client → ∃ r, p = C_idle r;
  c_bound : Z.of_nat n + Z.of_nat (length (accepted (sh c))) < 2 ^ 31;
  c_past : past d = true → ∀ i st, threads c !! i = Some st → dozing st = false;
  c_left i p : pcs c !! i = Some p → left p = true → head (queue (sh c)) = None;
  c_join : join_ok n d;
  c_joined m i p : joined n d = Some m → (i < m)%nat → pcs c !! i = Some p → p = W_exit;
  c_drained : drained d = true → total_task_in_system (sh c) = 0;
  c_signal st : threads c !! (n + k)%nat = Some st → drowsy st = true → total_task_in_system (sh c) = 0 →
    ∃ i p, threads c !! i = Some (Running p) ∧ announcing p = true
}.

Section Facts.
Context (c : bconfig) (d : pc) (C : closing c d).

Lemma c_base : base n k (sh c) (pcs c).
Proof. apply base_reachable, C. Qed.

Lemma c_machine : owned holds c ∧ sleepers_ok quiet holds c.
Proof.
  destruct (reachable_owned code holds _ _ baseline_disciplined (baseline_initial n k) (c_reach _ _ C)) as [Ho Hs].
  split; [done|by apply quiet_sleepers].
Qed.

Lemma c_role : role_of d = Destroyer.
Proof. rewrite (g_role _ _ _ _ c_base _ _ (c_dest _ _ C)). unfold role_at. by repeat (rewrite decide_False by lia). Qed.

Lemma c_destroyer i p : pcs c !! i = Some p → role_of p = Destroyer → i = (n + k)%nat ∧ p = d.
Proof.
  intros Hi Hr. assert (i = (n + k)%nat) as ->.
  { apply (dest_only n k); [by rewrite <- (g_role _ _ _ _ c_base i p Hi)|]. rewrite <- (g_len _ _ _ _ c_base). by eapply lookup_lt_Some. }
  rewrite (c_dest _ _ C) in Hi. by injection Hi as ->.
Qed.

Lemma c_no_flight : in_flight_submits (sh c) = 0.
Proof.
  rewrite (g_flight _ _ _ _ c_base), (tally_const flying 0); [by rewrite Z.mul_0_r|]. apply Forall_lookup. intros i p Hi.
  destruct (role_of p) eqn:Hr; [by destruct p| |by destruct p]. by destruct (c_idle _ _ C i p Hi Hr) as [r ->].
Qed.

(** The counter is the number of tasks that workers hold or that wait. *)
Lemma c_total : ∃ l, balanced (sh c) (pcs c) l ∧
  total_task_in_system (sh c) = tally counted (pcs c) + Z.of_nat (length l) ∧ total_task_in_system (sh c) < 2 ^ 31.
Proof.
  destruct (balanced_reachable n k c (c_reach _ _ C)) as [l B]. exists l. split; [done|].
  assert (Hl : (length l ≤ length (accepted (sh c)))%nat).
  { rewrite (b_jobs _ _ _ B), !length_app. assert (length (jobs (job_map (sh c)) l) = length l) as ->; [|lia].
    assert (Hin : ∀ x, x ∈ l → ∃ j, job_map (sh c) !! x = Some j).
    { intros x Hx. destruct (node_of _ _ _ B x) as [t Ht]; [set_solver|]. exists (job_of t). unfold job_map. by rewrite lookup_fmap, Ht. }
    clear B. induction l as [|x l IH]; [done|]. destruct (Hin x) as [j Hj]; [by left|].
    rewrite (b_jobs_cons _ x j l Hj). simpl. f_equal. apply IH. intros y Hy. apply Hin. by right. }
  assert (Hc : tally counted (pcs c) ≤ Z.of_nat n).
  { rewrite <- (g_workers _ _ _ _ c_base). apply tally_mono. intros i p Hi. unfold working.
    destruct (role_of p) eqn:Hr; [by destruct p| |by destruct p]. by destruct (c_idle _ _ C i p Hi Hr) as [r ->]. }
  assert (0 ≤ tally counted (pcs c)) by (apply tally_nonneg; by intros []).
  pose proof (c_bound _ _ C). rewrite (b_total _ _ _ B), i32_small by lia. lia.
Qed.

Lemma c_counted i p : pcs c !! i = Some p → counted p = 1 → 0 < total_task_in_system (sh c) < 2 ^ 31.
Proof.
  intros Hi Hp. destruct c_total as (l & B & Ht & Hlt). split; [|done].
  pose proof (tally_ge counted (pcs c) i p ltac:(by intros []) Hi). lia.
Qed.

Lemma c_seen i p : pcs c !! i = Some p → left p = true ∨ seen p = true → head (queue (sh c)) = None.
Proof. intros Hi [H|H]; [by eapply (c_left _ _ C)|by eapply (g_seen _ _ _ _ c_base)]. Qed.

Lemma b_alone i j p st m :
  threads c !! i = Some (Running p) → threads c !! j = Some st → holds p m = true → status_holds holds st m = true → i = j.
Proof.
  intros Hi Hj Hp Hst. apply (owned_exclusive holds c m); [apply c_machine|..]; unfold hold_at; by rewrite ?Hi, ?Hj.
Qed.

Lemma b_drain_sleeper i m p : threads c !! i = Some (Waiting CDrain m p) → i = (n + k)%nat.
Proof.
  intros Hi. destruct c_machine as [_ Hsl]. destruct (Hsl _ _ Hi) as (_ & q & Hq). apply pcs_lookup in Hi. simpl in Hi.
  destruct q; try discriminate Hq; injection Hq as <- <-; [by destruct (c_idle _ _ C _ _ Hi eq_refl)|].
  by apply (c_destroyer i D_check).
Qed.
End Facts.
Section Step.
Context (c c' : bconfig) (d d' : pc).
Context (C : closing c d) (Hs : qstep c c') (Hd' : pcs c' !! (n + k)%nat = Some d').

(** The step of a thread at [p]. *)
Definition moved (i : nat) (p p' : pc) : Prop :=
  pcs c !! i = Some p ∧ move quiet (pcs c) p (sh c) (sh c') p' [] ∧ works (sh c) p (sh c') p' ∧
  role_of p ≠ Client ∧ pcs c' = <[i := p']> (pcs c) ∧
  ((i = (n + k)%nat ∧ p = d ∧ p' = d') ∨ (i ≠ (n + k)%nat ∧ role_of p = Worker ∧ d' = d)).

Lemma moved_intro i p p' sp :
  pcs c !! i = Some p → move quiet (pcs c) p (sh c) (sh c') p' sp → pcs c' = <[i := p']> (pcs c) ++ sp →
  moved i p p' ∧ sp = [].
Proof.
  intros Hi Hm E. destruct (quiet_works _ _ _ _ _ _ Hm) as (Hsp & H & _ & Hidle & _). rewrite Hsp in Hm, E.
  rewrite app_nil_r in E. split; [|done].
  assert (Hr : role_of p ≠ Client) by (intros Hr; destruct (c_idle _ _ C i p Hi Hr) as [r ->]; by destruct (Hidle r)).
  split_and!; try done. pose proof (c_dest _ _ C) as Hd. pose proof Hd' as Hd1. rewrite E in Hd1.
  destruct (decide (i = (n + k)%nat)) as [Hik|Hne]; [left|right].
  - rewrite Hik in Hi, Hd1. rewrite Hd in Hi. rewrite list_lookup_insert_eq in Hd1 by by eapply lookup_lt_Some.
    injection Hi as Ep. injection Hd1 as Ep'. by rewrite Ep, Ep'.
  - rewrite list_lookup_insert_ne, Hd in Hd1 by done. injection Hd1 as Ed. split_and!; try done.
    destruct (role_of p) eqn:E'; try done. by destruct (c_destroyer c d C i p Hi E').
Qed.

Lemma mover : (sh c' = sh c ∧ pcs c' = pcs c ∧ d' = d) ∨ ∃ i p p', threads c !! i = Some (Running p) ∧ moved i p p'.
Proof.
  destruct (step_pcs _ _ _ Hs) as [[E1 E2]|(i & p & p' & sp & Hi & Hm & E)].
  - left. split_and!; try done. pose proof Hd' as Hd1. rewrite E2, (c_dest _ _ C) in Hd1. by injection Hd1.
  - right. exists i, p, p'. split; [done|]. by destruct (moved_intro i p p' sp (pcs_lookup _ _ _ Hi) Hm E).
Qed.

Lemma b_moved_at i p p' j q : moved i p p' → pcs c' !! j = Some q → (j = i ∧ q = p') ∨ (j ≠ i ∧ pcs c !! j = Some q).
Proof.
  intros (Hi & _ & _ & _ & E & _) Hj. rewrite E in Hj.
  apply list_lookup_insert_Some in Hj as [(-> & <- & _)|[? Hj]]; auto.
Qed.

Lemma idle_step i p : pcs c' !! i = Some p → role_of p = Client → ∃ r, p = C_idle r.
Proof.
  destruct mover as [(_ & -> & _)|(j & q & q' & _ & M)]; [by apply C|]. intros Hi Hr.
  destruct (b_moved_at _ _ _ _ _ M Hi) as [[-> ->]|[_ ?]]; [|by eapply (c_idle _ _ C)].
  destruct M as (_ & _ & H & Hc & _). by rewrite (works_role _ _ _ _ H) in Hr.
Qed.

Lemma head_step : head (queue (sh c)) = None → head (queue (sh c')) = None.
Proof.
  destruct mover as [(-> & _ & _)|(j & q & q' & _ & (_ & _ & H & Hc & _))]; [done|]. by apply (works_inner _ _ _ _ H Hc).
Qed.

Lemma left_step i p : pcs c' !! i = Some p → left p = true → head (queue (sh c')) = None.
Proof.
  intros Hi Hl. apply head_step. destruct mover as [(_ & E & _)|(j & q & q' & _ & M)].
  { rewrite E in Hi. by eapply (c_left _ _ C). }
  destruct (b_moved_at _ _ _ _ _ M Hi) as [[-> ->]|[_ ?]]; [|by eapply (c_left _ _ C)].
  destruct M as (Hj & _ & H & Hc & _). destruct (works_inner _ _ _ _ H Hc) as (_ & _ & _ & Hp & _).
  eapply c_seen; [exact C|exact Hj|auto].
Qed.

Lemma accepted_step : accepted (sh c') = accepted (sh c).
Proof. destruct mover as [(-> & _)|(j & q & q' & _ & (_ & _ & H & Hc & _))]; [done|]. by apply (works_inner _ _ _ _ H Hc). Qed.

(** What shutdown has joined. *)
Lemma works_joined s s' :
  works s d s' d' → num_workers s = Z.of_nat n → join_ok n d →
  join_ok n d' ∧ (∀ m, joined n d' = Some m → m = O ∨ joined n d = Some m ∨ ∃ j, d = D_join j ∧ m = S j).
Proof.
  intros H Hn Hj. destruct H; try done; simpl in *; split; try lia; intros m [= <-]; eauto.
  right. left. f_equal. lia.
Qed.

Lemma join_step :
  join_ok n d' ∧ ∀ m i p, joined n d' = Some m → (i < m)%nat → pcs c' !! i = Some p → p = W_exit.
Proof.
  assert (Hkeep : d' = d → (∀ i p, pcs c !! i = Some p → p = W_exit → pcs c' !! i = Some p) →
    join_ok n d' ∧ ∀ m i p, joined n d' = Some m → (i < m)%nat → pcs c' !! i = Some p → p = W_exit).
  { intros -> Hk. split; [apply C|]. intros m i p Hm Hi Hp. destruct (pcs c !! i) as [q|] eqn:Hq.
    - pose proof (c_joined _ _ C m i q Hm Hi Hq) as ->. specialize (Hk _ _ Hq eq_refl). rewrite Hp in Hk. by injection Hk.
    - exfalso. apply lookup_ge_None in Hq. pose proof (lookup_lt_Some _ _ _ (c_dest _ _ C)). pose proof (c_join _ _ C) as Hb.
      destruct d; simpl in Hm, Hb; try discriminate Hm; injection Hm as <-; lia. }
  destruct mover as [(_ & E & Ed)|(j & q & q' & _ & M)]; [apply Hkeep; [done|by rewrite E]|].
  pose proof M as (Hj & Hm & H & Hc & E & [(Hjk & Eq & Eq')|(Hne & Hr & Ed)]).
  - rewrite Eq, Eq' in H. pose proof (g_num _ _ _ _ (c_base c d C)) as Hn. destruct (works_joined _ _ H Hn (c_join _ _ C)) as [Hok Hw].
    split; [done|]. intros m i p Hjm Hi Hp.
    destruct (b_moved_at _ _ _ _ _ M Hp) as [[Ei _]|[Hne Hp0]].
    { exfalso. rewrite Ei, Hjk in Hi. clear -Hok Hjm Hi. destruct d'; simpl in Hok, Hjm; try discriminate Hjm; injection Hjm as <-; lia. }
    destruct (Hw m Hjm) as [->|[Hold|(x & Hx & ->)]]; [lia|by eapply (c_joined _ _ C)|].
    destruct (decide (i = x)) as [->|]; [|apply (c_joined _ _ C x i p); [by rewrite Hx|lia|done]].
    destruct (quiet_works _ _ _ _ _ _ Hm) as (_ & _ & Hq & _). destruct (Hq x) as (r & Hr & He); [by rewrite Eq|].
    rewrite Hp0 in Hr. injection Hr as <-.
    assert (role_of p = Worker); [|by destruct p].
    rewrite (g_role _ _ _ _ (c_base c d C) _ _ Hp0). unfold role_at. rewrite decide_True; [done|].
    pose proof (c_join _ _ C) as Hb. rewrite Hx in Hb. exact Hb.
  - apply Hkeep; [done|]. intros i p Hi Hp. rewrite E, list_lookup_insert_ne; [done|]. intros <-.
    rewrite Hj in Hi. injection Hi as ->. rewrite Hp in H. inversion H.
Qed.

Lemma drained_step : drained d' = true → total_task_in_system (sh c') = 0.
Proof.
  destruct mover as [(-> & _ & ->)|(j & q & q' & _ & (Hj & _ & H & Hc & _ & Hw))]; [apply C|]. intros Hd.
  assert (H0 : total_task_in_system (sh c) = 0).
  { destruct Hw as [(_ & -> & ->)|(_ & _ & Ed)]; [|rewrite Ed in Hd; by apply C].
    destruct (drained d) eqn:E; [by apply C|]. destruct H; try discriminate Hd; try discriminate E; done. }
  destruct (works_inner _ _ _ _ H Hc) as (_ & _ & _ & _ & [->|(Hq & _)]); [done|]. exfalso.
  pose proof (c_counted c d C _ _ Hj) as Ht. rewrite Hq in Ht. specialize (Ht eq_refl). lia.
Qed.

(** The step seen from the threads, with the new state kept. *)
Lemma deed_of : ∃ c1, deed quiet c c1 ∧ c' = c1.
Proof. exists c'. split; [|done]. by apply step_deed. Qed.

(** Nobody sleeps on the queue behind the broadcast. *)
Lemma works_past s p s' p' :
  works s p s' p' → past p' = true → past p = true ∨ (holds p MQueue = true ∧ quiet p = ABroadcast CQueue p').
Proof. destruct 1; intros Hp; try discriminate Hp; auto. Qed.

Lemma works_dozing s p s' p' : works s p s' p' → shutdown s = true → p' ≠ W_wait.
Proof. destruct 1; congruence. Qed.

Lemma past_stored : past d = true → shutdown (sh c) = true.
Proof. rewrite (proj1 (g_dest _ _ _ _ (c_base c d C) d (c_dest _ _ C))). by destruct d. Qed.

Lemma deed_moved i p s' o' p' th sp :
  threads c !! i = Some (Running p) → stirs (quiet p) (threads c) th → move quiet (pcs c) p (sh c) s' p' sp →
  c' = mk_config s' o' (<[i := Running p']> th ++ (Running <$> sp)) → moved i p p' ∧ sp = [].
Proof.
  intros Hi Hst Hm E. eapply (moved_intro i p p' sp (pcs_lookup _ _ _ Hi)); [by rewrite E|].
  rewrite E. by eapply stirs_pcs.
Qed.

Lemma run_lookup (th : list (status pc mutex_id cond_id)) i p' j st :
  (<[i := Running p']> th ++ (Running <$> [])) !! j = Some st → (j = i ∧ st = Running p') ∨ (j ≠ i ∧ th !! j = Some st).
Proof.
  rewrite app_nil_r. intros H. apply list_lookup_insert_Some in H as [(-> & <- & _)|[? H]]; auto.
Qed.

Lemma still_past : past d = true → ∀ j st, threads c' !! j = Some st → dozing st = false.
Proof.
  intros Hp. pose proof (c_past _ _ C Hp) as Hcl.
  assert (Hins : ∀ i st, dozing st = false → ∀ j st', <[i := st]> (threads c) !! j = Some st' → dozing st' = false).
  { intros i st Hst j st' Hj. apply list_lookup_insert_Some in Hj as [(_ & <- & _)|[_ Hj]]; [done|by eapply Hcl]. }
  destruct (step_deed _ _ _ Hs) as [i cv m p Hi|i m p Hi Ho|i p cv m p' Hi Hq Ho|i p s' o' p' th sp Hi Hq Ht Hm]; simpl.
  - by apply Hins.
  - apply Hins. destruct (c_machine c d C) as [_ Hsl]. destruct (Hsl _ _ Hi) as (_ & q & cv & Hq). by destruct q; try discriminate Hq; injection Hq as <- <- <-.
  - apply Hins. destruct p; try discriminate Hq; injection Hq as <- <- <-; try done. by specialize (Hcl _ _ Hi).
  - destruct (quiet_works _ _ _ _ _ _ Hm) as (-> & H & _). intros j st Hj.
    destruct (run_lookup _ _ _ _ _ Hj) as [[_ ->]|[_ Hj']].
    + pose proof (works_dozing _ _ _ _ H (past_stored Hp)). by destruct p'.
    + destruct (stirs_lookup _ _ _ _ _ Ht Hj') as (st0 & H0 & [-> |(cv' & m & q & _ & ->)]); [by eapply Hcl|done].
Qed.

Lemma past_step : past d' = true → ∀ j st, threads c' !! j = Some st → dozing st = false.
Proof.
  intros Hp'. destruct (past d) eqn:Hp; [by apply still_past|].
  assert (Hsame : pcs c' = pcs c → False).
  { intros E. pose proof Hd' as Hd1. rewrite E, (c_dest _ _ C) in Hd1. injection Hd1 as E1. rewrite E1 in Hp. congruence. }
  assert (Hget : ∀ i p p', moved i p p' → holds p MQueue = true ∧ quiet p = ABroadcast CQueue p').
  { intros i p p' (_ & _ & H & _ & _ & [(_ & Ep & Ep')|(_ & _ & Ed)]); [|rewrite Ed in Hp'; congruence].
    rewrite Ep in H |- *. rewrite Ep' in H |- *. destruct (works_past _ _ _ _ H Hp'); [congruence|done]. }
  destruct deed_of as (c1 & [i cv m p Hi|i m p Hi Ho|i p cv m p' Hi Hq Ho|i p s' o' p' th sp Hi Hq Ht Hm] & Ec).
  - destruct Hsame. rewrite Ec. by apply (pcs_kept c _ _ _ _ _ Hi).
  - destruct Hsame. rewrite Ec. by apply (pcs_kept c _ _ _ _ _ Hi).
  - destruct (moved_intro i p p' [] (pcs_lookup _ _ _ Hi)) as [M _]; [rewrite Ec; constructor; by rewrite Hq|rewrite Ec, app_nil_r; by apply pcs_insert|].
    destruct (Hget _ _ _ M) as [_ ?]. congruence.
  - destruct (deed_moved _ _ _ _ _ _ _ Hi Ht Hm Ec) as [M Hsp]. destruct (Hget _ _ _ M) as [Hh Hb].
    rewrite Ec, Hsp. intros j st Hj. simpl in Hj. destruct (run_lookup _ _ _ _ _ Hj) as [[_ ->]|[Hne Hj']].
    + destruct p; try discriminate Hb; by injection Hb as <-.
    + destruct Ht as [_ Hbc|cv' q j0 m0 pj Ha _|cv' q Ha]; [by destruct (Hbc _ _ Hb)|congruence|].
      rewrite Ha in Hb. injection Hb as -> _. rewrite list_lookup_fmap in Hj'.
      destruct (threads c !! j) as [st0|] eqn:E; [|done]. injection Hj' as <-.
      destruct st0 as [q'|cv m q'|m q']; simpl; [|by destruct cv|done]. destruct q'; try done.
      destruct Hne. symmetry. by eapply (b_alone c d C i j p (Running W_wait) MQueue).
Qed.

(** Shutdown goes to sleep on a counter that is not zero. *)
Lemma b_drowsy_step st' :
  threads c' !! (n + k)%nat = Some st' → drowsy st' = true → total_task_in_system (sh c') = 0 →
  ∃ st, threads c !! (n + k)%nat = Some st ∧ drowsy st = true.
Proof.
  intros Hst Hw Ht. revert Hst Ht.
  destruct deed_of as (c1 & [i cv m p Hi|i m p Hi Ho|i p cv m p' Hi Hq Ho|i p s' o' p' th sp Hi Hq Ht' Hm] & Ec); rewrite Ec; simpl; intros Hst Ht.
  - apply list_lookup_insert_Some in Hst as [(_ & <- & _)|[_ Hst]]; [done|eauto].
  - apply list_lookup_insert_Some in Hst as [(_ & <- & _)|[_ Hst]]; [|eauto]. exfalso.
    destruct (c_machine c d C) as [_ Hsl]. destruct (Hsl _ _ Hi) as (_ & q & cv & Hq).
    destruct q; try discriminate Hq; by injection Hq as _ _ <-.
  - apply list_lookup_insert_Some in Hst as [(-> & <- & _)|[_ Hst]]; [|eauto]. exists (Running p).
    split; [done|]. apply pcs_lookup in Hi. simpl in Hi. destruct p; try discriminate Hq; injection Hq as <- <- <-; try done.
    by destruct (c_idle _ _ C _ _ Hi eq_refl).
  - destruct (quiet_works _ _ _ _ _ _ Hm) as (Hsp & H & _). rewrite Hsp in Hst.
    destruct (run_lookup _ _ _ _ _ Hst) as [[_ ->]|[_ Hj]].
    + exfalso. simpl in Ht. destruct p'; try discriminate Hw. inversion H. congruence.
    + destruct (stirs_lookup _ _ _ _ _ Ht' Hj) as (st & H0 & [-> |(cv' & m & q & _ & ->)]); [eauto|done].
Qed.

(** The broadcast on [drain_cond] wakes shutdown. *)
Lemma drain_woken i p p' th st st' :
  threads c !! i = Some (Running p) → holds p MDrain = true → quiet p = ABroadcast CDrain p' →
  stirs (quiet p) (threads c) th → threads c !! (n + k)%nat = Some st → drowsy st = true →
  th !! (n + k)%nat = Some st' → drowsy st' = false.
Proof.
  intros Hi Hh Hq Ht Hst Hw Hst'. destruct st as [q|cv m q|m q]; [| |done].
  { destruct q; try discriminate Hw. pose proof (b_alone c d C _ _ _ _ MDrain Hi Hst Hh eq_refl) as ->.
    rewrite Hst in Hi. injection Hi as <-. discriminate Hq. }
  destruct cv; try discriminate Hw.
  destruct Ht as [_ Hbc|cv' q' j0 m0 pj Ha Hj0|cv' q' Ha]; [by destruct (Hbc _ _ Hq)|congruence|].
  rewrite Ha in Hq. injection Hq as -> _. rewrite list_lookup_fmap, Hst in Hst'. by injection Hst' as <-.
Qed.

Lemma works_announcing s p s' p' :
  works s p s' p' → announcing p = true →
  announcing p' = true ∨ (holds p MDrain = true ∧ quiet p = ABroadcast CDrain p').
Proof. destruct 1; intros E; try discriminate E; auto. Qed.

Lemma b_signal_step st' :
  threads c' !! (n + k)%nat = Some st' → drowsy st' = true → total_task_in_system (sh c') = 0 →
  ∃ i p, threads c' !! i = Some (Running p) ∧ announcing p = true.
Proof.
  intros Hst' Hw Ht. destruct (b_drowsy_step st' Hst' Hw Ht) as (st & Hst & Hw0). pose proof (c_signal _ _ C st Hst Hw0) as Hold.
  revert Hst' Ht.
  destruct deed_of as (c1 & [i cv m p Hi|i m p Hi Ho|i p cv m p' Hi Hq Ho|i p s' o' p' th sp Hi Hq Hst1 Hm] & Ec);
    rewrite Ec; cbn [threads sh]; intros Hst' Ht.
  - destruct (Hold Ht) as (j & q & Hj & Hq). exists j, q. split; [|done]. rewrite list_lookup_insert_ne; [done|congruence].
  - destruct (Hold Ht) as (j & q & Hj & Hq). exists j, q. split; [|done]. rewrite list_lookup_insert_ne; [done|congruence].
  - destruct (Hold Ht) as (j & q & Hj & Hq'). exists j, q. split; [|done]. rewrite list_lookup_insert_ne; [done|].
    intros ->. rewrite Hi in Hj. injection Hj as ->. destruct q; discriminate.
  - destruct (deed_moved _ _ _ _ _ _ _ Hi Hst1 Hm Ec) as [(Hpi & _ & H & Hc & _) Hsp]. rewrite Ec in H. rewrite Hsp in Hst' |- *.
    assert (Hat : (<[i := Running p']> th ++ (Running <$> [])) !! i = Some (Running p')).
    { apply lookup_app_l_Some, list_lookup_insert_eq. rewrite (stirs_length _ _ _ Hst1). by eapply lookup_lt_Some. }
    destruct (works_inner _ _ _ _ H Hc) as (_ & _ & _ & _ & [E|(Ep & _ & Hlast)]); simpl in *.
    + rewrite E in Ht. destruct (Hold Ht) as (j & q & Hj & Hq'). destruct (decide (j = i)) as [->|Hne].
      * rewrite Hi in Hj. injection Hj as <-.
        destruct (works_announcing _ _ _ _ H Hq') as [?|[Hh Ha]]; [eauto|exfalso].
        destruct (run_lookup _ _ _ _ _ Hst') as [[E' _]|[_ Hj]].
        -- rewrite E', Hi in Hst. injection Hst as <-. destruct p; discriminate.
        -- by rewrite (drain_woken _ _ _ _ _ _ Hi Hh Ha Hst1 Hst Hw0 Hj) in Hw.
      * exists j, q. split; [|done]. apply lookup_app_l_Some. rewrite list_lookup_insert_ne by done.
        by apply (stirs_running _ _ _ _ _ Hst1).
    + exists i, W_dlock. rewrite <- Hlast at 1 by lia. done.
Qed.
End Step.

Lemma b_closing_step c d c' : closing c d → qstep c c' → ∃ d', closing c' d'.
Proof.
  intros C Hs. assert (Hr : rtc (step code) (init_config n k) c') by (eapply rtc_r; [apply C|by apply b_quiet_step]).
  destruct (lookup_lt_is_Some_2 (pcs c') (n + k)) as [d' Hd'].
  { rewrite (g_len _ _ _ _ (base_reachable n k c' Hr)). lia. }
  exists d'. destruct (join_step c c' d d' C Hs Hd') as [Hj Hjn]. split; try done.
  - intros ->. destruct (mover c c' d _ C Hs Hd') as [(_ & _ & E)|(i & p & p' & _ & (_ & _ & H & _ & _ & [(_ & _ & E)|(_ & _ & E)]))].
    + by destruct (c_called _ _ C).
    + rewrite E in H. inversion H.
    + by destruct (c_called _ _ C).
  - by eapply idle_step.
  - rewrite (accepted_step c c' d d' C Hs Hd'). apply C.
  - by eapply past_step.
  - by eapply left_step.
  - by eapply drained_step.
  - by eapply b_signal_step.
Qed.

(** Shutdown is called with no client inside the pool. *)
Lemma b_closing_start c :
  rtc (step code) (init_config n k) c → threads c !! (n + k)%nat = Some (Running D_store) →
  (∀ i p, pcs c !! i = Some p → role_of p = Client → ∃ r, p = C_idle r) →
  Z.of_nat n + Z.of_nat (length (accepted (sh c))) < 2 ^ 31 → closing c D_store.
Proof.
  intros Hr Hd Hidle Hb. pose proof (pcs_lookup _ _ _ Hd) as Hpd. simpl in Hpd. split; try done.
  - intros i p Hi Hl. pose proof (base_reachable n k c Hr) as G. destruct (g_dest _ _ _ _ G _ Hpd) as [Hsh _].
    by rewrite (g_young _ _ _ _ G i p Hsh Hi) in Hl.
  - rewrite Hd. by intros st [= <-].
Qed.

Lemma b_closing_run c d c' : closing c d → rtc qstep c c' → ∃ d', closing c' d'.
Proof.
  intros C Hr. revert d C. induction Hr as [c|c c1 c' Hs Hr IH]; intros d C; [eauto|].
  destruct (b_closing_step _ _ _ C Hs) as [d1 C1]. by eapply IH.
Qed.

(** ** The measure *)

Definition measure (c : bconfig) : Z :=
  task_cost n (length (threads c)) * total_task_in_system (sh c) + tally (rank_of n (length (threads c))) (threads c).

Lemma b_measure_nonneg c d : closing c d → 0 ≤ measure c.
Proof.
  intros C. unfold measure, task_cost, wake_one. destruct (c_total c d C) as (l & _ & -> & _).
  assert (0 ≤ tally counted (pcs c)) by (apply tally_nonneg; by intros []).
  assert (0 ≤ tally (rank_of n (length (threads c))) (threads c)) by (apply tally_nonneg; intros []; simpl; lia).
  apply Z.add_nonneg_nonneg; [apply Z.mul_nonneg_nonneg; nia|done].
Qed.

Lemma b_measure_insert c o i st st' :
  threads c !! i = Some st → rank_of n (length (threads c)) st' < rank_of n (length (threads c)) st →
  measure (mk_config (sh c) o (<[i := st']> (threads c))) < measure c.
Proof.
  intros Hi Hlt. unfold measure. cbn [sh threads]. rewrite length_insert, (tally_insert _ _ _ _ _ Hi). lia.
Qed.

Lemma moved_rank c d i p s' p' sp :
  closing c d → threads c !! i = Some (Running p) → sleeps (quiet p) = false → move quiet (pcs c) p (sh c) s' p' sp →
  sp = [] ∧ 0 ≤ rank n (length (threads c)) p' ∧
  rank n (length (threads c)) p' + stir_cost (wake_one n) (length (threads c)) (quiet p)
    + task_cost n (length (threads c)) * (total_task_in_system s' - total_task_in_system (sh c)) < rank n (length (threads c)) p.
Proof.
  intros C Hi Hs Hm. destruct (quiet_works _ _ _ _ _ _ Hm) as (Hsp & H & _ & Hidle & Hdi). split; [done|].
  pose proof (pcs_lookup _ _ _ Hi) as Hpi. simpl in Hpi. apply (works_rank _ _ _ _ _ _ H); try done.
  - intros Hr. destruct (c_idle _ _ C i p Hpi Hr) as [r ->]. by destruct (Hidle r).
  - by apply (c_no_flight c d).
  - apply (g_num _ _ _ _ (c_base c d C)).
  - destruct (role_of p) eqn:Hr; [by destruct p|by destruct p|].
    destruct (c_destroyer c d C i p Hpi Hr) as [_ ->]. apply C.
  - by apply (c_counted c d C i).
Qed.

Lemma b_measure_step c d c' : closing c d → prompted quiet untimed c c' → measure c' < measure c.
Proof.
  intros C [Hs Hns]. destruct (c_machine c d C) as [_ Hsl].
  destruct (step_deed _ _ _ Hs) as [i cv m p Hi|i m p Hi Ho|i p cv m p' Hi Hp Ho|i p s' o' p' th sp Hi Hp Ht Hm].
  - destruct Hns. by exists i, cv, m, p.
  - apply (b_measure_insert _ _ _ _ _ Hi). simpl. lia.
  - apply (b_measure_insert _ _ _ _ _ Hi). destruct (b_rank_sleep n (length (threads c)) _ _ _ _ Hp) as [?|Hr]; [done|].
    apply pcs_lookup in Hi. destruct (c_idle _ _ C _ _ Hi Hr) as [r E]. simpl in E. by rewrite E in Hp.
  - destruct (moved_rank _ _ _ _ _ _ _ C Hi Hp Hm) as (-> & Hp' & Hlt).
    unfold measure. cbn [sh threads]. rewrite app_nil_r, length_insert, (stirs_length _ _ _ Ht).
    assert (Hith : th !! i = Some (Running p)) by (by apply (stirs_running _ _ _ _ _ Ht)).
    rewrite (tally_insert _ _ _ _ _ Hith).
    assert (Hwk : ∀ j cv m q, threads c !! j = Some (Waiting cv m q) →
      rank_of n (length (threads c)) (Relocking m q) ≤ rank_of n (length (threads c)) (Waiting cv m q) + wake_one n).
    { intros j cv m q Hj. destruct (Hsl _ _ Hj) as [_ Hq]. by apply b_rank_wake. }
    pose proof (stirs_tally (rank_of n (length (threads c))) (wake_one n) _ _ _ ltac:(unfold wake_one; lia) Hwk Ht).
    cbn [rank_of]. lia.
Qed.

(** Every run without spurious wakeups is finite. *)
Lemma closing_sn c d : closing c d → sn (prompted quiet untimed) c.
Proof.
  remember (Z.to_nat (measure c)) as x eqn:Hx. revert c d Hx.
  induction x as [x IH] using lt_wf_ind. intros c d -> C. constructor. intros c' Hs.
  destruct (b_closing_step _ _ _ C (proj1 Hs)) as [d' C'].
  pose proof (b_measure_step _ _ _ C Hs). pose proof (b_measure_nonneg _ _ C').
  eapply (IH (Z.to_nat (measure c'))); [lia|done|exact C'].
Qed.

(** ** Where a run stops *)

Section Stuck.
Context (c : bconfig) (d : pc) (C : closing c d) (Hnf : nf (prompted quiet untimed) c).

(** After the end nobody is left to run. *)
Lemma freed_over i p : pcs c !! i = Some p → freed (sh c) = true → (∃ r, p = C_idle r) ∨ quiet p = AExit.
Proof.
  intros Hi Hf. rewrite (proj2 (g_dest _ _ _ _ (c_base c d C) d (c_dest _ _ C))) in Hf.
  assert (d = D_done) as Ed by (clear -Hf; by destruct d).
  destruct (role_of p) eqn:Hr.
  - right. assert (p = W_exit) as ->; [|done]. apply (c_joined _ _ C n i p); [by rewrite Ed| |done].
    pose proof (g_role _ _ _ _ (c_base c d C) i p Hi) as Hat. rewrite Hr in Hat. unfold role_at in Hat.
    by repeat case_decide.
  - left. by apply (c_idle _ _ C i).
  - right. destruct (c_destroyer c d C i p Hi Hr) as [_ ->]. by rewrite Ed.
Qed.

Lemma b_branch_runs f s b yes no : branch b yes no = AStep f → freed s = false → ∃ z s' p', f z s = Next s' p'.
Proof. intros [= <-] Hf. exists Tau. rewrite Hf. eauto. Qed.

Lemma b_atom_runs f s g : atom g = AStep f → freed s = false → ∃ z s' p', f z s = Next s' p'.
Proof. intros [= <-] Hf. exists Tau. rewrite Hf. destruct (g s). eauto. Qed.

Lemma b_queue_runs {A} f s (m : QM A) g a h q :
  queue_step m g = AStep f → freed s = false → m (b_heap s, queue s) = Ok (a, (h, q)) → ∃ z s' p', f z s = Next s' p'.
Proof. intros [= <-] Hf Hm. exists Tau. rewrite Hf, Hm. destruct (g _ _). eauto. Qed.

(** No atomic step of a worker or of shutdown waits for anything. *)
Lemma b_step_runs i p f :
  threads c !! i = Some (Running p) → quiet p = AStep f →
  (∃ r, p = C_idle r) ∨ ∃ z s' p', f z (sh c) = Next s' p'.
Proof.
  intros Hth Hp. pose proof (pcs_lookup _ _ _ Hth) as Hi. simpl in Hi.
  destruct (freed (sh c)) eqn:Hfr.
  { destruct (freed_over i p Hi Hfr) as [?|E]; [by left|congruence]. }
  assert (Hr : role_of p = Client → ∃ r, p = C_idle r) by by apply (c_idle _ _ C i).
  destruct (c_total c d C) as (l & B & _).
  assert (Hnode : ∀ x, own p = Some x → ∃ t, b_heap (sh c) !! x = Some t).
  { intros x Hx. apply (node_of _ _ _ B). apply elem_of_app. left. apply list_elem_of_omap. exists p.
    split; [by eapply list_elem_of_lookup_2|done]. }
  destruct p; try discriminate Hp; simpl in Hp; try (by left; eauto); try (left; by apply Hr);
    try (by right; eapply b_branch_runs); try (by right; eapply b_atom_runs).
  - right. destruct (head (queue (sh c))) as [x|] eqn:Hh.
    + pose proof (b_fifo _ _ _ B) as Hf. destruct l as [|y l].
      { pose proof (f_head _ _ _ Hf) as Hn. simpl in Hn. congruence. }
      destruct (q_pop_ok _ _ _ _ Hf) as (q' & Hq & _). eapply b_queue_runs; [exact Hp|done|].
      unfold mbind, M_bind, get_queue. by rewrite Hh.
    + eapply b_queue_runs; [exact Hp|done|]. unfold mbind, M_bind, get_queue. by rewrite Hh.
  - right. destruct (Hnode t eq_refl) as [task Ht]. eapply b_queue_runs; [exact Hp|done|]. unfold load. by rewrite Ht.
  - right. destruct (Hnode t eq_refl) as [task Ht]. injection Hp as <-. exists Tau. rewrite Hfr, Ht. eauto.
  - destruct (c_destroyer c d C i D_idle Hi eq_refl) as [_ E]. by destruct (c_called _ _ C).
Qed.

Lemma works_moves s p s' p' : works s p s' p' → role_of p ≠ Client → in_flight_submits s = 0 → p' ≠ p.
Proof. destruct 1; intros Hr Hf; try done; congruence. Qed.

Lemma b_nf_moves i p s' p' sp :
  threads c !! i = Some (Running p) → sleeps (quiet p) = false → move quiet (pcs c) p (sh c) s' p' sp → p' ≠ p.
Proof.
  intros Hi _ Hm. destruct (quiet_works _ _ _ _ _ _ Hm) as (_ & H & _ & Hidle & _). apply (works_moves _ _ _ _ H).
  - intros Hr. apply pcs_lookup in Hi. destruct (c_idle _ _ C i p Hi Hr) as [r ->]. by destruct (Hidle r).
  - by apply (c_no_flight c d).
Qed.

Lemma b_nf_blocked i p :
  threads c !! i = Some (Running p) →
  match quiet p with
  | ALock m _ => ∃ j, owner c m = Some j
  | AJoin tid _ => ¬ exited quiet c (tid (sh c))
  | AExit => True
  | AStep _ => ∃ r, p = C_idle r
  | _ => False
  end.
Proof.
  intros Hi. destruct (c_machine c d C) as [Ho Hsl].
  pose proof (stuck_action quiet holds untimed c quiet_disciplined Ho Hnf b_nf_moves i p Hi) as Hb.
  destruct (quiet p) as [m p'|m p'|cv m p'|cv p'|cv p'|tid p'|entry created failed|f|] eqn:Hp; try done.
  destruct (b_step_runs i p f Hi Hp) as [?|(z & s' & p' & Hf)]; [done|by destruct (Hb z s' p')].
Qed.

(** Inside a critical section no thread waits. *)
Lemma b_nf_unowned m : owner c m = None.
Proof.
  destruct (c_machine c d C) as [Ho Hsl]. destruct (owner c m) as [j|] eqn:E; [exfalso|done].
  destruct (owner_runs quiet holds c Ho Hsl m j) as (p & Hj & Hp); [|done|].
  - intros q cv m' p Hq Hm. destruct q; try discriminate Hq; injection Hq as <- <- <-; by destruct m.
  - pose proof (b_nf_blocked j p Hj) as Hb. destruct m, p; try discriminate Hp; simpl in Hb; try done; by destruct Hb.
Qed.

Lemma b_nf_status i st :
  threads c !! i = Some st →
  (∃ p, st = Running p ∧ (quiet p = AExit ∨ (∃ r, p = C_idle r) ∨
     ∃ tid p', quiet p = AJoin tid p' ∧ ¬ exited quiet c (tid (sh c)))) ∨
  (∃ cv m p q, st = Waiting cv m p ∧ quiet q = AWait cv m p).
Proof.
  intros Hi. destruct (c_machine c d C) as [Ho Hsl].
  destruct (stuck_status quiet holds untimed c quiet_disciplined Ho Hsl Hnf b_nf_moves i st b_nf_unowned Hi)
    as [(p & -> & [Hx|[(f & Hp & _)|Hj]])|(cv & m & p & q & -> & Hq & _)].
  - left. eauto.
  - left. exists p. split; [done|]. right. left. pose proof (b_nf_blocked i p Hi) as Hb. by rewrite Hp in Hb.
  - left. eauto.
  - right. by exists cv, m, p, q.
Qed.

(** A worker has left once shutdown has woken it. *)
Lemma nf_worker i : past d = true → (i < n)%nat → threads c !! i = Some (Running W_exit).
Proof.
  intros Hp Hin. destruct (lookup_lt_is_Some_2 (threads c) i) as [st Hst].
  { pose proof (g_len _ _ _ _ (c_base c d C)) as Hl. unfold pcs in Hl. rewrite length_fmap in Hl. lia. }
  pose proof (c_past _ _ C Hp i st Hst) as Hdz.
  pose proof (g_role _ _ _ _ (c_base c d C) i _ (pcs_lookup _ _ _ Hst)) as Hr.
  unfold role_at in Hr. rewrite decide_True in Hr by done.
  destruct (b_nf_status i st Hst) as [(p & -> & [Hx|[[r ->]|(tid & p' & Hj & _)]])|(cv & m & p & q & -> & Hq)]; simpl in Hr.
  - destruct p; try discriminate Hx; try discriminate Hr. done.
  - discriminate Hr.
  - destruct p; try discriminate Hj; discriminate Hr.
  - destruct q; try discriminate Hq; injection Hq as <- <- <-; try discriminate Hr; discriminate Hdz.
Qed.

Lemma b_nf_not_drowsy m : (0 < n)%nat → past d = true → threads c !! (n + k)%nat ≠ Some (Waiting CDrain m D_check).
Proof.
  intros Hn Hp Hst. pose proof (nf_worker 0 Hp Hn) as Hw.
  assert (Hh : head (queue (sh c)) = None) by (apply (c_left _ _ C 0%nat W_exit); [exact (pcs_lookup _ _ _ Hw)|done]).
  destruct (c_total c d C) as (l & B & Ht & _).
  assert (l = []) as Hl.
  { pose proof (f_head _ _ _ (b_fifo _ _ _ B)) as Hf. destruct l; [done|]. simpl in Hf. destruct Hf as [Hf _]. congruence. }
  assert (H0 : total_task_in_system (sh c) = 0).
  { rewrite Ht, Hl, (tally_const counted 0); [simpl; lia|]. apply Forall_lookup. intros i p Hi.
    destruct (role_of p) eqn:Hr; [|by destruct (c_idle _ _ C i p Hi Hr) as [r ->]|by destruct p].
    pose proof (g_role _ _ _ _ (c_base c d C) i p Hi) as Hat. rewrite Hr in Hat. unfold role_at in Hat. case_decide as Hin; [|by case_decide].
    pose proof (pcs_lookup _ _ _ (nf_worker i Hp Hin)) as Hi'. simpl in Hi'. rewrite Hi in Hi'. by injection Hi' as ->. }
  destruct (c_signal _ _ C _ Hst eq_refl H0) as (i & q & Hi & Hq). apply b_nf_blocked in Hi.
  destruct q; try discriminate Hq; [|done]. destruct Hi as [j Hj]. by rewrite b_nf_unowned in Hj.
Qed.

Lemma b_nf_done : (0 < n)%nat → threads c !! (n + k)%nat = Some (Running D_done).
Proof.
  intros Hn. pose proof (c_dest _ _ C) as Hat. unfold pcs in Hat. rewrite list_lookup_fmap in Hat.
  destruct (threads c !! (n + k)%nat) as [st|] eqn:Hst; [|done]. injection Hat as Hd. pose proof (c_role c d C) as Hr.
  destruct (b_nf_status _ st Hst) as [(p & -> & [Hx|[[r ->]|(tid & p' & Hj & Hno)]])|(cv & m & p & q & -> & Hq)]; simpl in Hd.
  - rewrite Hd in Hx |- *. by destruct d.
  - by rewrite <- Hd in Hr.
  - exfalso. rewrite Hd in Hj. pose proof (c_join _ _ C) as Hb.
    assert (∃ j, d = D_join j) as [j Ed] by (clear -Hj; destruct d; try discriminate Hj; eauto).
    rewrite Ed in Hj, Hb. injection Hj as <- _. apply Hno. exists W_exit. split; [|done]. apply nf_worker; [by rewrite Ed|exact Hb].
  - exfalso. rewrite Hd in Hq. assert (cv = CDrain ∧ d = D_check) as [-> Ed].
    { clear -Hq Hr. destruct q; try discriminate Hq; injection Hq as <- <- E; rewrite <- E in Hr |- *; by try discriminate Hr. }
    apply (b_nf_not_drowsy m Hn); [by rewrite Ed|]. by rewrite Hst, Hd, Ed.
Qed.

(** All is done then. *)
Lemma done_clean : d = D_done → accepted (sh c) ≡ₚ executed (sh c) ∧ b_heap (sh c) = ∅.
Proof.
  intros Ed. assert (H0 : total_task_in_system (sh c) = 0) by (apply (c_drained _ _ C); by rewrite Ed).
  destruct (c_total c d C) as (l & B & Ht & _). rewrite H0 in Ht.
  assert (0 ≤ tally counted (pcs c)) by (apply tally_nonneg; by intros []).
  assert (l = []) as Hl by (apply nil_length_inv; lia).
  assert (Hown : ∀ g : pc → option loc, (∀ r, g (C_idle r) = None) → g W_exit = None → g D_done = None → omap g (pcs c) = []).
  { intros g H1 H2 H3. assert (Hall : ∀ p, p ∈ pcs c → g p = None).
    { intros p Hp. apply list_elem_of_lookup in Hp as [i Hi]. destruct (role_of p) eqn:Hr.
      - rewrite (c_joined _ _ C n i p); [done|by rewrite Ed| |done].
        pose proof (g_role _ _ _ _ (c_base c d C) i p Hi) as Hat. rewrite Hr in Hat. unfold role_at in Hat. by repeat case_decide.
      - by destruct (c_idle _ _ C i p Hi Hr) as [r ->].
      - destruct (c_destroyer c d C i p Hi Hr) as [_ ->]. by rewrite Ed. }
    clear -Hall. induction (pcs c) as [|p ps IH]; [done|]. cbn. rewrite Hall by by left. apply IH. intros q Hq. apply Hall. by right. }
  pose proof (b_jobs _ _ _ B) as Hj. pose proof (b_own _ _ _ B) as Ho. rewrite Hl in Hj, Ho.
  rewrite (Hown taken) in Hj by done. rewrite (Hown own) in Ho by done.
  split; [by rewrite Hj, !app_nil_r|]. apply (dom_empty_inv_L (D := gset loc)), leibniz_equiv, elements_empty_inv.
  apply Permutation_nil. simpl in Ho. exact Ho.
Qed.
End Stuck.

(** C33: When no client is inside the pool as baseline_pool_shutdown begins and none
    makes a call after that, it returns: every run without spurious wakeups is finite,
    and a state in which nothing more can happen is one where the pool is freed, every
    accepted task has been run and every task node has been freed. *)
Theorem baseline_shutdown_terminates c0 c :
  rtc (step code) (init_config n k) c0 → threads c0 !! (n + k)%nat = Some (Running D_store) →
  (∀ i p, pcs c0 !! i = Some p → role_of p = Client → ∃ r, p = C_idle r) →
  (0 < n)%nat → Z.of_nat n + Z.of_nat (length (accepted (sh c0))) < 2 ^ 31 →
  rtc qstep c0 c →
  sn (prompted quiet untimed) c ∧
  (nf (prompted quiet untimed) c →
     threads c !! (n + k)%nat = Some (Running D_done) ∧ freed (sh c) = true ∧
     accepted (sh c) ≡ₚ executed (sh c) ∧ b_heap (sh c) = ∅).
Proof.
  intros Hr Hd Hidle Hn Hb Hrun. destruct (b_closing_run _ _ _ (b_closing_start c0 Hr Hd Hidle Hb) Hrun) as [d C].
  split; [by eapply closing_sn|]. intros Hnf. pose proof (b_nf_done c d C Hnf Hn) as Hdone. split; [done|].
  pose proof (c_dest _ _ C) as Hat. rewrite (pcs_lookup _ _ _ Hdone) in Hat. injection Hat as Ed.
  split; [|by apply (done_clean c d C)].
  rewrite (proj2 (g_dest _ _ _ _ (c_base c d C) d (c_dest _ _ C))). by rewrite <- Ed.
Qed.
End Closing.


(** ** A run to the end *)

(** One task is queued and shutdown is called; the worker runs the task. *)
Definition queued_then_shutdown : list (cmd choice) :=
  submit_to_lock 1 1 ++ [Do 1 5; Ex (With 2 (Call CallShutdown))].
Definition called : bconfig :=
  default (init_config 1 1) (drive code Tau queued_then_shutdown (init_config 1 1)).
Definition over : bconfig := default called (drive quiet Tau [Do 2 8; Do 0 13; Do 2 7] called).

Lemma baseline_shutdown_terminates_witness :
  threads over !! 2%nat = Some (Running D_done) ∧ executed (sh over) = [(7, 0)] ∧
  sn (prompted quiet untimed) over.
Proof.
  split; [vm_compute; reflexivity|]. split; [vm_compute; reflexivity|].
  apply (baseline_shutdown_terminates 1 1 called over).
  - apply (drive_sound code Tau queued_then_shutdown). vm_compute. reflexivity.
  - vm_compute. reflexivity.
  - intros i p Hi Hr. assert (Hp : pcs called = [W_lock; C_idle (RInt 0); D_store]) by (vm_compute; reflexivity).
    rewrite Hp in Hi. destruct i as [|[|[|i]]]; try discriminate Hi; injection Hi as <-; try discriminate Hr. eauto.
  - lia.
  - vm_compute. reflexivity.
  - apply (drive_sound quiet Tau [Do 2 8; Do 0 13; Do 2 7]). vm_compute. reflexivity.
Defined.

End BaselineShutdown.
