(* ===== verification/BaselineInit.v ===== *)
(** * BaselineInit: building the baseline pool (baseline_pool_init)

    The same pattern as PoolInit.v with fewer resources; the worker threads are
    created in order and threads 0, 1, ... are their ids.  Which of the created
    workers have gone to sleep on the empty queue when another creation fails is up
    to the scheduler, so a parameter. *)
From S2P Require Export Baseline.
Local Open Scope Z_scope.

Module BaselineInit.
Import Baseline.

Inductive resource := RPool | RWorkers | RDrainMutex | RDrainCond | RQueueMutex | RQueueCond.
#[export] Instance baseline_resource_eq_dec : EqDecision resource.
Proof. solve_decision. Defined.

Record answers := mk_answers {
  a_pool : bool; a_workers : bool; a_drain_mutex : bool; a_drain_cond : bool;
  a_queue_mutex : bool; a_queue_cond : bool; a_create : nat → bool;
  a_sleeps : nat → bool
}.

(** The pool, the [worker_thread] array, the live resources, the threads, and those
    of them that wait on [q_cond]. *)
Record init_st := mk_init {
  i_pool : pool;
  i_workers : list nat;
  i_live : list resource;
  i_threads : list nat;
  i_asleep : list nat
}.
Abbreviation IM := (M init_st).

#[export] Instance baseline_holder : Holder init_st resource :=
  {| live := i_live;
     set_live l st := mk_init (i_pool st) (i_workers st) l (i_threads st) (i_asleep st);
     crew := i_threads;
     set_crew ts st := mk_init (i_pool st) (i_workers st) (i_live st) ts (i_asleep st);
     asleep := i_asleep;
     set_asleep ts st := mk_init (i_pool st) (i_workers st) (i_live st) (i_threads st) ts;
     told st := shutdown (i_pool st) |}.
#[export] Instance baseline_holder_laws : HolderLaws init_st resource.
Proof. split; try done. by intros []. Qed.

Definition on_pool (f : pool → pool) (st : init_st) : init_st :=
  mk_init (f (i_pool st)) (i_workers st) (i_live st) (i_threads st) (i_asleep st).
Definition upd_i (f : pool → pool) : IM unit := modify (on_pool f).
Definition upd_flags (n : Z) (s : pool) : pool :=
  mk_pool (b_heap s) (queue s) n false 0 0 (freed s) (accepted s) (executed s).
Definition upd_queue (q : baseline_queue_t) (s : pool) : pool := upd_store (b_heap s) q s.
Definition worker_thread (j : nat) (st : init_st) : res nat := arr_get (i_workers st) (Z.of_nat j).

Definition error_pool : IM bool := release RPool;; mret false.
Definition error_worker : IM bool := release RWorkers;; error_pool.
Definition error_mutex : IM bool := release RDrainMutex;; error_worker.
Definition error_cond : IM bool := release RDrainCond;; error_mutex.
Definition error_mutex_q : IM bool := release RQueueMutex;; error_cond.
Definition error_cond_q : IM bool := release RQueueCond;; error_mutex_q.

(** The broadcast on [q_cond], with the queue's mutex held. *)
Definition q_wake_all : IM unit := modify wake_crew.

(** Worker [i] runs; it may go to sleep on the empty queue. *)
Definition started (a : answers) (i : nat) (ws : list nat) (st : init_st) : init_st :=
  mk_init (i_pool st) ws (i_live st) (i_threads st ++ [i])
    (i_asleep st ++ if a_sleeps a i then [i] else []).

(** The creation loop. *)
Fixpoint spawn_workers (a : answers) (left i : nat) : IM bool :=
  match left with
  | O => mret true
  | S left' =>
      if a_create a i then
        st ← get;
        ws ← lift (arr_set (i_workers st) (Z.of_nat i) i);
        modify (started a i ws);;
        spawn_workers a left' (S i)
      else
        upd_i upd_shutdown;;
        q_wake_all;;
        join_from worker_thread i 0;;
        mret false
  end.

Definition baseline_pool_init (a : answers) (garbage : nat) (n : Z) : IM bool :=
  if n <=? 0 then mret false else
  pool ← acquire (a_pool a) RPool;
  if negb pool then mret false else
  ok ← acquire (a_workers a) RWorkers;
  if negb ok then error_pool else
  modify (λ st, mk_init (i_pool st) (replicate (Z.to_nat n) garbage) (i_live st) (i_threads st) (i_asleep st));;
  upd_i (upd_flags (u32 n));;
  ok ← acquire (a_drain_mutex a) RDrainMutex;
  if negb ok then error_worker else
  ok ← acquire (a_drain_cond a) RDrainCond;
  if negb ok then error_mutex else
  upd_i (upd_queue (mk_queue None None));;
  ok ← acquire (a_queue_mutex a) RQueueMutex;
  if negb ok then error_cond else
  ok ← acquire (a_queue_cond a) RQueueCond;
  if negb ok then error_mutex_q else
  ok ← spawn_workers a (Z.to_nat n) 0;
  if negb ok then error_cond_q else
  mret true.

(** ** Undoing *)

Definition nothing (st : init_st) : Prop := True.
Abbreviation quiet := (settled nothing).

Lemma undo_error_pool st : quiet [RPool] st → undone error_pool st.
Proof.
  intros H. eapply release_next; [| |exact H|]; [done|absent|].
  intros st' (? & ? & _). by exists st'.
Qed.
Lemma undo_worker st : quiet [RWorkers; RPool] st → undone error_worker st.
Proof. intros H. release_then H undo_error_pool. Qed.
Lemma undo_mutex st : quiet [RDrainMutex; RWorkers; RPool] st → undone error_mutex st.
Proof. intros H. release_then H undo_worker. Qed.
Lemma undo_cond st : quiet [RDrainCond; RDrainMutex; RWorkers; RPool] st → undone error_cond st.
Proof. intros H. release_then H undo_mutex. Qed.
Lemma undo_mutex_q st :
  quiet [RQueueMutex; RDrainCond; RDrainMutex; RWorkers; RPool] st → undone error_mutex_q st.
Proof. intros H. release_then H undo_cond. Qed.
Definition live_all : list resource := [RQueueCond; RQueueMutex; RDrainCond; RDrainMutex; RWorkers; RPool].
Lemma undo_cond_q st : quiet live_all st → undone error_cond_q st.
Proof. intros H. release_then H undo_mutex_q. Qed.

(** ** The workers *)

Definition with_workers (ws ts zs : list nat) (st : init_st) : init_st :=
  mk_init (i_pool st) ws (i_live st) ts zs.

(** The array, the threads and the sleepers after [i] creations. *)
Definition created (a : answers) (i : nat) (g left : nat) (zs : list nat) (st : init_st) : init_st :=
  with_workers (seq 0 i ++ replicate left g) (seq 0 i) (zs ++ filter (λ j, a_sleeps a j) (seq 0 i)) st.

Lemma b_spawn_round a left g i zs st :
  spawn_workers a (S left) i (created a i g (S left) zs st) =
  if a_create a i
  then spawn_workers a left (S i) (created a (S i) g left zs st)
  else (upd_i upd_shutdown;; q_wake_all;; join_from worker_thread i 0;; mret false)
         (created a i g (S left) zs st).
Proof.
  cbn [spawn_workers]. destruct (a_create a i); [|done].
  unfold mbind, M_bind, get, lift. cbn [created with_workers i_workers].
  rewrite arr_set_ok by (rewrite length_app, length_seq, length_replicate; lia). cbn [mbind res_bind].
  rewrite insert_app_r_alt by (rewrite length_seq; lia). rewrite length_seq, Nat.sub_diag.
  unfold modify, started, created, with_workers. cbn [i_pool i_live i_threads i_asleep].
  rewrite sleepers_S, seq_S, <- app_assoc. done.
Qed.

(** A failed creation: the store and the broadcast reach every worker, asleep or
    not, so each join returns. *)
Lemma b_spawn_fails a left g i zs st :
  ∃ st', (upd_i upd_shutdown;; q_wake_all;; join_from worker_thread i 0;; mret false)
           (created a i g (S left) zs st) = Ok (false, st') ∧ i_live st' = i_live st ∧ i_threads st' = [].
Proof.
  unfold mbind, M_bind, q_wake_all, upd_i, modify.
  rewrite join_from_ok; [by eexists| |done..].
  intros j ts Hj. unfold worker_thread. simpl. apply arr_get_ok.
  rewrite lookup_app_l by (rewrite length_seq; lia). by apply lookup_seq_lt; lia.
Qed.

Lemma b_spawn_ok a left g i zs st :
  if forallb (a_create a) (seq i left)
  then spawn_workers a left i (created a i g left zs st) = Ok (true, created a (i + left) g 0 zs st)
  else ∃ st', spawn_workers a left i (created a i g left zs st) =
           Ok (false, st') ∧ i_live st' = i_live st ∧ i_threads st' = [].
Proof.
  revert i. induction left as [|left IH]; intros i; [by rewrite Nat.add_0_r|].
  cbn [seq forallb]. destruct (a_create a i) eqn:Hc; cbn [andb]; rewrite b_spawn_round, Hc.
  - replace (i + S left)%nat with (S i + left)%nat by lia. apply IH.
  - apply b_spawn_fails.
Qed.

Definition all_succeed (a : answers) (n : nat) : bool :=
  a_pool a && a_workers a && a_drain_mutex a && a_drain_cond a && a_queue_mutex a && a_queue_cond a &&
  forallb (a_create a) (seq 0 n).

Definition blank (st : init_st) : Prop :=
  i_live st = [] ∧ i_threads st = [] ∧ freed (i_pool st) = false ∧ accepted (i_pool st) = [] ∧
  executed (i_pool st) = [] ∧ b_heap (i_pool st) = ∅.


(** ** The theorem at concrete answers *)

Definition st_blank : init_st := mk_init (upd_shutdown (init_pool 0)) [] [] [] [].

End BaselineInit.
