(* ===== verification/FilterLock.v ===== *)
(** * FilterLock: the filter lock experiment (proof/filter-lock/filter_lock.c)

    Every shared read and write is a step of its own; in particular check_k reads
    the other threads' levels one after the other.  The values of [level], [victim]
    and [t_id] are thread numbers and levels, never above [N_THREAD]; an index out
    of range, or an overflow of the [int] counter, makes the step undefined.  Shared accesses are sequentially consistent. *)
From S2P Require Export Prelude.
Local Open Scope Z_scope.

Module FilterLock.
Local Open Scope nat_scope.

Definition N_THREAD : nat := 8.
Definition ITER : Z := 100.

(** The globals; [entries] is a ghost that counts the increments made. *)
Record globals := mk_globals {
  level : list nat;
  victim : list nat;
  t_id : list nat;
  count : Z;
  shutdown : bool;
  entries : Z
}.

Definition set_level (a : list nat) (g : globals) : globals :=
  mk_globals a (victim g) (t_id g) (count g) (shutdown g) (entries g).
Definition set_victim (a : list nat) (g : globals) : globals :=
  mk_globals (level g) a (t_id g) (count g) (shutdown g) (entries g).
Definition set_t_id (a : list nat) (g : globals) : globals :=
  mk_globals (level g) (victim g) a (count g) (shutdown g) (entries g).
Definition set_count (c : Z) (g : globals) : globals :=
  mk_globals (level g) (victim g) (t_id g) c (shutdown g) (entries g + 1)%Z.
Definition set_shutdown (g : globals) : globals :=
  mk_globals (level g) (victim g) (t_id g) (count g) true (entries g).

Inductive pc :=
| NotCreated
| F_level (i : nat)                 (* 34: level[id] = i *)
| F_victim (i : nat)                (* 35: victim[i] = id *)
| F_scan (i k : nat)                (* 21-24: loop test, read t_id[k].id *)
| F_read (i k v : nat)              (* 24: read level[v] *)
| F_test (i : nat)                  (* 39: read victim[i] *)
| F_cs                              (* 45: temp = count *)
| F_write (temp : Z)                (* 46 *)
| F_check                           (* 47: read count *)
| F_stop                            (* 47: shutdown = 1 *)
| F_unlock                          (* 53 *)
| F_loop                            (* 54 *)
| F_done.

Inductive main_pc :=
| M_init (i : nat)                  (* 59-61 *)
| M_id (i : nat)                    (* 64 *)
| M_create (i : nat)                (* 65 *)
| M_join (i : nat)                  (* 68-69 *)
| M_done.

Section Lock.
(** The number of threads ([N_THREAD] in the program). *)
Context (N : nat).

(** After the wait at level [i]: the next level, or the critical section. *)
Definition next_level (i : nat) : pc := if S i <? N then F_level (S i) else F_cs.

(** One step of thread [id]: [None] when it cannot step (not created, done), an
    index is out of range or the [int] counter overflows. *)
Definition routine (id : nat) (p : pc) (g : globals) : option (globals * pc) :=
  match p with
  | NotCreated | F_done => None
  | F_level i =>
      if id <? length (level g) then Some (set_level (<[id := i]> (level g)) g, F_victim i) else None
  | F_victim i =>
      if i <? length (victim g) then Some (set_victim (<[i := id]> (victim g)) g, F_scan i 0) else None
  | F_scan i k =>
      if k <? N then
        if k =? id then Some (g, F_scan i (S k))
        else v ← t_id g !! k; Some (g, F_read i k v)
      else Some (g, next_level i)
  | F_read i k v =>
      l ← level g !! v;
      Some (g, if i <=? l then F_test i else F_scan i (S k))
  | F_test i =>
      v ← victim g !! i;
      Some (g, if v =? id then F_scan i 0 else next_level i)
  | F_cs => Some (g, F_write (count g))
  | F_write temp => if is_i32 (temp + 1)%Z then Some (set_count (temp + 1)%Z g, F_check) else None
  | F_check => Some (g, if (ITER <? count g)%Z then F_stop else F_unlock)
  | F_stop => Some (set_shutdown g, F_unlock)
  | F_unlock =>
      if id <? length (level g) then Some (set_level (<[id := 0]> (level g)) g, F_loop) else None
  | F_loop => Some (g, if shutdown g then F_done else next_level 0)
  end.

Record config := mk_config { gl : globals; pcs : list pc; mpc : main_pc }.

Inductive step (c : config) : config → Prop :=
| step_thread id p g' p' :
    pcs c !! id = Some p → routine id p (gl c) = Some (g', p') →
    step c (mk_config g' (<[id := p']> (pcs c)) (mpc c))
| step_init i :
    mpc c = M_init i → i < N →
    step c (mk_config (set_level (<[i := 0]> (level (gl c))) (gl c)) (pcs c) (M_init (S i)))
| step_init_done i :
    mpc c = M_init i → ¬ i < N → step c (mk_config (gl c) (pcs c) (M_id 0))
| step_id i :
    mpc c = M_id i → i < N →
    step c (mk_config (set_t_id (<[i := i]> (t_id (gl c))) (gl c)) (pcs c) (M_create i))
| step_id_done i :
    mpc c = M_id i → ¬ i < N → step c (mk_config (gl c) (pcs c) (M_join 0))
| step_create i :
    mpc c = M_create i → pcs c !! i = Some NotCreated →
    step c (mk_config (gl c) (<[i := next_level 0]> (pcs c)) (M_id (S i)))
| step_join i :
    mpc c = M_join i → i < N → pcs c !! i = Some F_done →
    step c (mk_config (gl c) (pcs c) (M_join (S i)))
| step_join_done i :
    mpc c = M_join i → ¬ i < N → step c (mk_config (gl c) (pcs c) M_done).

(** The globals are zero at program start. *)
Definition init : config :=
  mk_config (mk_globals (replicate N 0) (replicate N 0) (replicate N 0) 0 false 0)
    (replicate N NotCreated) (M_init 0).

(** ** Stages

    A thread has entered level [j] when it has written [victim[j]], and has
    passed it when its wait there is over. *)
Definition entered (p : pc) : nat :=
  match p with
  | F_level i | F_victim i => i - 1
  | F_scan i _ | F_read i _ _ | F_test i => i
  | F_cs | F_write _ | F_check | F_stop | F_unlock => N - 1
  | _ => 0
  end.
Definition passed (p : pc) : nat :=
  match p with
  | F_level i | F_victim i | F_scan i _ | F_read i _ _ | F_test i => i - 1
  | F_cs | F_write _ | F_check | F_stop | F_unlock => N - 1
  | _ => 0
  end.

(** What the thread has written to its entry of [level], at least. *)
Definition claimed (p : pc) : nat := match p with F_victim i => i | _ => entered p end.

Definition pc_ok (p : pc) : Prop :=
  match p with
  | F_level i | F_victim i | F_test i => 1 ≤ i < N
  | F_scan i k => 1 ≤ i < N ∧ k ≤ N
  | F_read i k v => 1 ≤ i < N ∧ k < N ∧ v < N
  | _ => True
  end.

(** Two threads at a level: the level's victim is there and still waits. *)
Definition victims_wait (vi : list nat) (ps : list pc) : Prop :=
  ∀ j a b pa pb, 1 ≤ j < N → a ≠ b → ps !! a = Some pa → ps !! b = Some pb →
    j ≤ entered pa → j ≤ entered pb →
    ∃ v pv, vi !! j = Some v ∧ ps !! v = Some pv ∧ j ≤ entered pv ∧ passed pv < j.

(** As long as the scanning thread is the victim, the threads it has looked at
    have not entered the level. *)
Definition scan_ok (vi : list nat) (ps : list pc) (id : nat) (p : pc) : Prop :=
  match p with
  | F_scan i k => vi !! i = Some id →
      ∀ q pq, q < k → q ≠ id → ps !! q = Some pq → entered pq < i
  | F_read i k v => vi !! i = Some id →
      (∀ q pq, q < k → q ≠ id → ps !! q = Some pq → entered pq < i) ∧
      (v = k ∨ ∀ pq, ps !! k = Some pq → entered pq < i)
  | _ => True
  end.

Definition main_ok (g : globals) (ps : list pc) (m : main_pc) : Prop :=
  match m with
  | M_init _ => ∀ k p, ps !! k = Some p → p = NotCreated
  | M_id i => ∀ k p, i ≤ k → ps !! k = Some p → p = NotCreated
  | M_create i => t_id g !! i = Some i ∧ ∀ k p, i ≤ k → ps !! k = Some p → p = NotCreated
  | _ => True
  end.

Record inv (g : globals) (ps : list pc) (m : main_pc) : Prop := {
  v_len : length (level g) = N ∧ length (victim g) = N ∧ length (t_id g) = N ∧ length ps = N;
  v_pcs : Forall pc_ok ps;
  v_level : ∀ id p, ps !! id = Some p → ∃ l, level g !! id = Some l ∧ claimed p ≤ l;
  v_t_id : ∀ k v, t_id g !! k = Some v → v < N ∧ (v = k ∨ ps !! k = Some NotCreated);
  v_victims : victims_wait (victim g) ps;
  v_scan : ∀ id p, ps !! id = Some p → scan_ok (victim g) ps id p;
  v_main : main_ok g ps m;
  v_count : entries g = count g;
  v_temp : ∀ id temp, ps !! id = Some (F_write temp) → temp = count g
}.

Lemma passed_entered p : passed p ≤ entered p ≤ S (passed p).
Proof. destruct p; simpl; lia. Qed.

Lemma next_level_stage i :
  i < N → entered (next_level i) = i ∧ passed (next_level i) = i ∧ claimed (next_level i) = i ∧ pc_ok (next_level i).
Proof. intros H. unfold next_level. destruct (Nat.ltb_spec (S i) N); simpl; lia. Qed.

Lemma next_level_scan i vi ps id : scan_ok vi ps id (next_level i).
Proof. unfold next_level. by destruct (_ <? _). Qed.

Lemma next_level_temp i temp : next_level i ≠ F_write temp.
Proof. unfold next_level. by destruct (_ <? _). Qed.

(** A step of thread [id] that keeps [victim]: its stage stays, drops to zero from
    the critical section, or it passes a level of which it is not the only victim. *)
Lemma victims_kept vi ps id p p' :
  ps !! id = Some p → victims_wait vi ps →
  (entered p' ≤ entered p) →
  (∀ j, 1 ≤ j < N → j ≤ entered p → passed p < j → j ≤ entered p' ∧
     (passed p' < j ∨ vi !! j ≠ Some id ∨
      ∀ b pb, b ≠ id → ps !! b = Some pb → entered pb < j)) →
  victims_wait vi (<[id := p']> ps).
Proof.
  intros Hid Hv Hle Hstay j a b pa pb Hj Hab Ha Hb Hea Heb.
  assert (Hold : ∀ c pc, <[id := p']> ps !! c = Some pc → j ≤ entered pc →
            ∃ pc0, ps !! c = Some pc0 ∧ j ≤ entered pc0).
  { intros c pc Hc He. destruct (changed _ _ _ _ _ _ Hid Hc) as [[-> ->]|[_ Hc']]; [|eauto].
    exists p. split; [done|lia]. }
  destruct (Hold a pa Ha Hea) as (pa0 & Ha0 & Hea0). destruct (Hold b pb Hb Heb) as (pb0 & Hb0 & Heb0).
  destruct (Hv j a b pa0 pb0 Hj Hab Ha0 Hb0 Hea0 Heb0) as (v & pv & Hvj & Hpv & Hev & Hpass).
  destruct (decide (v = id)) as [->|Hne].
  - rewrite Hid in Hpv. injection Hpv as ->. destruct (Hstay j Hj Hev Hpass) as [He' [Hp'|[Hn|Hn]]].
    + exists id, p'. rewrite list_lookup_insert_eq by (by eapply lookup_lt_Some). done.
    + congruence.
    + exfalso. assert (a ≠ id ∨ b ≠ id) as [Hne|Hne] by (destruct (decide (a = id)); [right; congruence|by left]).
      * specialize (Hn a pa0 Hne Ha0). lia.
      * specialize (Hn b pb0 Hne Hb0). lia.
  - exists v, pv. by rewrite list_lookup_insert_ne.
Qed.

(** Scans of other threads survive a step that does not raise a stage. *)
Lemma scan_kept vi ps id p p' r pr :
  ps !! id = Some p → entered p' ≤ entered p → scan_ok vi ps r pr → scan_ok vi (<[id := p']> ps) r pr.
Proof.
  intros Hid Hle Hr.
  assert (Hold : ∀ c pc n, <[id := p']> ps !! c = Some pc → (∀ pc0, ps !! c = Some pc0 → entered pc0 < n) →
            entered pc < n).
  { intros c pc n Hc Hn. destruct (changed _ _ _ _ _ _ Hid Hc) as [[-> ->]|[_ Hc']]; [|auto].
    specialize (Hn p Hid). lia. }
  destruct pr; simpl in *; try done.
  - intros Hvi q pq Hq Hne Hpq. eapply Hold; [exact Hpq|]. intros pc0. by apply Hr.
  - intros Hvi. destruct (Hr Hvi) as [H1 H2]. split.
    + intros q pq Hq Hne Hpq. eapply Hold; [exact Hpq|]. intros pc0. by apply H1.
    + destruct H2 as [->|H2]; [by left|right]. intros pq Hpq. eapply Hold; [exact Hpq|]. apply H2.
Qed.

(** ** Counting: at most [N - j] threads pass level [j] *)

Definition n_entered (j : nat) (ps : list pc) : nat := length (filter (λ p, j ≤ entered p) ps).
Definition n_passed (j : nat) (ps : list pc) : nat := length (filter (λ p, j ≤ passed p) ps).

Lemma filter_le (P Q : pc → Prop) `{!∀ p, Decision (P p), !∀ p, Decision (Q p)} ps :
  (∀ p, P p → Q p) → length (filter P ps) ≤ length (filter Q ps).
Proof.
  intros Himp. induction ps as [|p ps IH]; [done|]. rewrite !filter_cons.
  destruct (decide (P p)), (decide (Q p)); simpl; try lia. exfalso; auto.
Qed.

Lemma filter_lt (P Q : pc → Prop) `{!∀ p, Decision (P p), !∀ p, Decision (Q p)} ps v pv :
  (∀ p, P p → Q p) → ps !! v = Some pv → Q pv → ¬ P pv → length (filter P ps) < length (filter Q ps).
Proof.
  intros Himp Hv HQ HP. apply list_elem_of_lookup_2 in Hv as Hin.
  apply list_elem_of_split in Hin as (l1 & l2 & ->).
  rewrite !filter_app, !length_app, filter_cons_False, filter_cons_True by done. simpl.
  pose proof (filter_le P Q l1 Himp). pose proof (filter_le P Q l2 Himp). lia.
Qed.

Lemma filter_two (P : pc → Prop) `{!∀ p, Decision (P p)} ps a b pa pb :
  ps !! a = Some pa → ps !! b = Some pb → a ≠ b → P pa → P pb → 2 ≤ length (filter P ps).
Proof.
  revert a b. induction ps as [|p ps IH]; intros a b Ha Hb Hne HPa HPb; [done|].
  assert (Hone : ∀ c pc, ps !! c = Some pc → P pc → 1 ≤ length (filter P ps)).
  { intros c pc Hc Hp. assert (Hin : pc ∈ filter P ps).
    { apply list_elem_of_filter. split; [done|]. by eapply list_elem_of_lookup_2. }
    destruct (filter P ps); [by apply elem_of_nil in Hin|simpl; lia]. }
  destruct a as [|a], b as [|b]; simpl in Ha, Hb; try done; simplify_eq.
  - rewrite filter_cons_True by done. simpl. specialize (Hone b pb Hb HPb). lia.
  - rewrite filter_cons_True by done. simpl. specialize (Hone a pa Ha HPa). lia.
  - rewrite filter_cons. specialize (IH a b Ha Hb ltac:(lia) HPa HPb). destruct (decide (P p)); simpl; lia.
Qed.

Lemma two_of_filter (P : pc → Prop) `{!∀ p, Decision (P p)} ps :
  2 ≤ length (filter P ps) →
  ∃ a b pa pb, ps !! a = Some pa ∧ ps !! b = Some pb ∧ a ≠ b ∧ P pa ∧ P pb.
Proof.
  induction ps as [|p ps IH]; [simpl; lia|]. rewrite filter_cons. intros Hl.
  destruct (decide (P p)) as [Hp|Hp].
  - simpl in Hl. destruct (filter P ps) as [|q r] eqn:E; [simpl in Hl; lia|].
    assert (Hin : q ∈ filter P ps) by (rewrite E; by left).
    apply list_elem_of_filter in Hin as [Hq Hin]. apply list_elem_of_lookup in Hin as [b Hb].
    exists 0, (S b), p, q. done.
  - destruct (IH Hl) as (a & b & pa & pb & Ha & Hb & Hne & HPa & HPb).
    exists (S a), (S b), pa, pb. split_and!; try done. lia.
Qed.

Lemma passed_bound vi ps j :
  length ps = N → victims_wait vi ps → j < N → n_passed j ps ≤ Nat.max 1 (N - j).
Proof.
  intros Hlen Hv. induction j as [|j IH]; intros Hj.
  { unfold n_passed. rewrite Nat.sub_0_r. pose proof (length_filter (λ p, 0 ≤ passed p) ps). lia. }
  specialize (IH ltac:(lia)).
  assert (H1 : n_passed (S j) ps ≤ n_entered (S j) ps).
  { apply filter_le. intros p. pose proof (passed_entered p). lia. }
  assert (H2 : n_entered (S j) ps ≤ n_passed j ps).
  { apply filter_le. intros p. pose proof (passed_entered p). lia. }
  destruct (decide (2 ≤ n_entered (S j) ps)) as [Htwo|]; [|lia].
  destruct (two_of_filter _ ps Htwo) as (a & b & pa & pb & Ha & Hb & Hab & Hea & Heb).
  destruct (Hv (S j) a b pa pb) as (v & pv & _ & Hpv & Hev & Hpass); try done; [lia|].
  assert (n_passed (S j) ps < n_entered (S j) ps); [|lia].
  apply (filter_lt _ _ ps v pv); [|done|done|lia]. intros p. pose proof (passed_entered p). lia.
Qed.

Definition in_cs (p : pc) : bool :=
  match p with F_cs | F_write _ | F_check | F_stop | F_unlock => true | _ => false end.

Lemma exclusive vi ps a b pa pb :
  length ps = N → victims_wait vi ps → ps !! a = Some pa → ps !! b = Some pb →
  in_cs pa = true → in_cs pb = true → a = b.
Proof.
  intros Hlen Hv Ha Hb Hca Hcb. destruct (decide (a = b)) as [|Hne]; [done|exfalso].
  pose proof (lookup_lt_Some _ _ _ Ha). pose proof (lookup_lt_Some _ _ _ Hb).
  pose proof (passed_bound vi ps (N - 1) Hlen Hv ltac:(lia)) as Hp.
  assert (2 ≤ n_passed (N - 1) ps); [|lia].
  apply (filter_two _ ps a b pa pb); try done; [by destruct pa|by destruct pb].
Qed.

(** ** Every step keeps the invariant *)

Lemma main_kept g g' ps m id p p' :
  ps !! id = Some p → p ≠ NotCreated → t_id g' = t_id g →
  main_ok g ps m → main_ok g' (<[id := p']> ps) m.
Proof.
  intros Hid Hp Ht Hm. destruct m as [i|i|i|i|]; simpl in *; rewrite ?Ht; try done.
  - by specialize (Hm id p Hid).
  - intros k q Hk Hq. destruct (changed _ _ _ _ _ _ Hid Hq) as [[-> ->]|[_ Hq']]; [|by eapply Hm].
    by specialize (Hm id p Hk Hid).
  - destruct Hm as [Ht' Hm]. split; [done|].
    intros k q Hk Hq. destruct (changed _ _ _ _ _ _ Hid Hq) as [[-> ->]|[_ Hq']]; [|by eapply Hm].
    by specialize (Hm id p Hk Hid).
Qed.

(** A step of thread [id] that does not write [victim] or [t_id]. *)
Lemma inv_keep g ps m id p g' p' :
  inv g ps m → ps !! id = Some p → p ≠ NotCreated →
  victim g' = victim g → t_id g' = t_id g → length (level g') = N →
  (∀ k, k ≠ id → level g' !! k = level g !! k) → (∃ l, level g' !! id = Some l ∧ claimed p' ≤ l) →
  pc_ok p' → entered p' ≤ entered p →
  (∀ j, 1 ≤ j < N → j ≤ entered p → passed p < j → j ≤ entered p' ∧
     (passed p' < j ∨ victim g !! j ≠ Some id ∨ ∀ b pb, b ≠ id → ps !! b = Some pb → entered pb < j)) →
  scan_ok (victim g) ps id p' →
  entries g' = count g' → (∀ temp, p' = F_write temp → temp = count g') →
  (count g' = count g ∨ ∀ r temp, r ≠ id → ps !! r ≠ Some (F_write temp)) →
  inv g' (<[id := p']> ps) m.
Proof.
  intros I Hid Hp Hvi Hti Hll Hlo Hls Hok Hle Hstay Hsc He Htemp Hcount.
  destruct (v_len _ _ _ I) as (H1 & H2 & H3 & H4). split; rewrite ?Hvi, ?Hti.
  - rewrite length_insert. done.
  - apply Forall_insert; [apply I|done].
  - intros r q Hr. destruct (changed _ _ _ _ _ _ Hid Hr) as [[-> ->]|[Hne Hr']]; [done|].
    rewrite Hlo by done. by apply (v_level _ _ _ I).
  - intros k v Hk. destruct (v_t_id _ _ _ I k v Hk) as [Hv Hor]. split; [done|].
    destruct Hor as [->|Hn]; [by left|right]. rewrite list_lookup_insert_ne; [done|].
    intros ->. congruence.
  - eapply victims_kept; [done|apply I|done|done].
  - intros r q Hr. destruct (changed _ _ _ _ _ _ Hid Hr) as [[-> ->]|[Hne Hr']].
    + by eapply scan_kept.
    + eapply scan_kept; [done|done|]. by apply (v_scan _ _ _ I).
  - eapply main_kept; try done. apply I.
  - done.
  - intros r temp Hr. destruct (changed _ _ _ _ _ _ Hid Hr) as [[-> E]|[Hne Hr']]; [by apply Htemp|].
    destruct Hcount as [->|Hn]; [by eapply (v_temp _ _ _ I)|by specialize (Hn r temp Hne)].
Qed.

(** A step that leaves the globals alone. *)
Lemma inv_read g ps m id p p' :
  inv g ps m → ps !! id = Some p → p ≠ NotCreated → pc_ok p' → entered p' = entered p →
  claimed p' ≤ claimed p →
  (passed p' = passed p ∨ (passed p' = S (passed p) ∧
     (victim g !! S (passed p) ≠ Some id ∨ ∀ b pb, b ≠ id → ps !! b = Some pb → entered pb < S (passed p)))) →
  scan_ok (victim g) ps id p' → (∀ temp, p' = F_write temp → temp = count g) →
  inv g (<[id := p']> ps) m.
Proof.
  intros I Hid Hp Hok He Hcl Hpas Hsc Ht.
  eapply inv_keep; [exact I|exact Hid|exact Hp|done|done|apply I|done| |exact Hok|lia| |exact Hsc|apply I|exact Ht|by left].
  - destruct (v_level _ _ _ I id p Hid) as (l & Hl & Hle). exists l. split; [done|lia].
  - intros j Hj Hej Hpj. split; [lia|]. destruct Hpas as [E|(E & Hor)]; [left; lia|].
    destruct (decide (j = S (passed p))) as [->|Hne]; [by right|left; lia].
Qed.

Lemma inv_victim g ps m id i :
  inv g ps m → ps !! id = Some (F_victim i) →
  inv (set_victim (<[i := id]> (victim g)) g) (<[id := F_scan i 0]> ps) m.
Proof.
  intros I Hid. destruct (v_len _ _ _ I) as (H1 & H2 & H3 & H4).
  pose proof (v_pcs _ _ _ I) as Hok. rewrite Forall_lookup in Hok. pose proof (Hok _ _ Hid) as Hi. simpl in Hi.
  assert (Hother : ∀ j, j ≠ i → <[i := id]> (victim g) !! j = victim g !! j)
    by (intros; by rewrite list_lookup_insert_ne).
  assert (Hself : <[i := id]> (victim g) !! i = Some id) by (apply list_lookup_insert_eq; lia).
  assert (Hold : ∀ c pc j, j ≠ i → <[id := F_scan i 0]> ps !! c = Some pc →
            ∃ pc0, ps !! c = Some pc0 ∧ (j ≤ entered pc → j ≤ entered pc0)).
  { intros c pc j Hj Hc. destruct (changed _ _ _ _ _ _ Hid Hc) as [[-> ->]|[_ Hc']]; [|eauto].
    exists (F_victim i). split; [done|]. simpl. lia. }
  split; simpl.
  - by rewrite !length_insert.
  - apply Forall_insert; [apply I|simpl; lia].
  - intros r q Hr. destruct (changed _ _ _ _ _ _ Hid Hr) as [[-> ->]|[Hne Hr']]; [|by apply (v_level _ _ _ I)].
    by apply (v_level _ _ _ I id (F_victim i)).
  - intros k v Hk. destruct (v_t_id _ _ _ I k v Hk) as [Hv Hor]. split; [done|].
    destruct Hor as [->|Hn]; [by left|right]. rewrite list_lookup_insert_ne; [done|]. intros ->. congruence.
  - intros j a b pa pb Hj Hab Ha Hb Hea Heb. destruct (decide (j = i)) as [->|Hne].
    { exists id, (F_scan i 0).
      split_and!; [done|apply list_lookup_insert_eq; by eapply lookup_lt_Some|simpl; lia..]. }
    destruct (Hold a pa j Hne Ha) as (pa0 & Ha0 & Hea0). destruct (Hold b pb j Hne Hb) as (pb0 & Hb0 & Heb0).
    destruct (v_victims _ _ _ I j a b pa0 pb0 Hj Hab Ha0 Hb0) as (v & pv & Hvj & Hpv & Hev & Hpass); [auto..|].
    destruct (decide (v = id)) as [->|Hv].
    + rewrite Hid in Hpv. injection Hpv as <-. simpl in Hev, Hpass. lia.
    + exists v, pv. rewrite Hother, list_lookup_insert_ne by done. done.
  - intros r q Hr. destruct (changed _ _ _ _ _ _ Hid Hr) as [[-> ->]|[Hne Hr']]; [simpl; intros; lia|].
    assert (Hlift : ∀ n c pc, n ≠ i → <[id := F_scan i 0]> ps !! c = Some pc →
              (∀ pc0, ps !! c = Some pc0 → entered pc0 < n) → entered pc < n).
    { intros n c pc Hn Hc Hall. destruct (Hold c pc n Hn Hc) as (pc0 & Hc0 & Himp).
      specialize (Hall pc0 Hc0). destruct (decide (n ≤ entered pc)); [|lia]. specialize (Himp ltac:(lia)). lia. }
    pose proof (v_scan _ _ _ I r q Hr') as Hs.
    destruct q as [| | |i0 k|i0 k v| | | | | | | |]; simpl in *; try done;
      intros Hvi; (destruct (decide (i0 = i)) as [->|Hni]; [congruence|]); rewrite Hother in Hvi by done.
    + intros q pq Hq Hqr Hpq. apply (Hlift i0 q pq Hni Hpq). intros pc0. by apply Hs.
    + destruct (Hs Hvi) as [Hs1 Hs2]. split.
      * intros q pq Hq Hqr Hpq. apply (Hlift i0 q pq Hni Hpq). intros pc0. by apply Hs1.
      * destruct Hs2 as [->|Hs2]; [by left|right]. intros pq Hpq. by apply (Hlift i0 k pq Hni Hpq).
  - eapply main_kept; [exact Hid|done|done|apply I].
  - apply I.
  - intros r temp Hr. destruct (changed _ _ _ _ _ _ Hid Hr) as [[-> E]|[Hne Hr']]; [done|].
    by apply (v_temp _ _ _ I r).
Qed.

(** The scan is over without a thread seen at the level: nobody else entered it,
    or the victim changed. *)
Lemma scan_over g ps m id i :
  inv g ps m → ps !! id = Some (F_scan i N) →
  victim g !! i ≠ Some id ∨ ∀ b pb, b ≠ id → ps !! b = Some pb → entered pb < i.
Proof.
  intros I Hid. destruct (decide (victim g !! i = Some id)) as [Hv|]; [right|by left].
  intros b pb Hne Hb. apply (v_scan _ _ _ I id _ Hid Hv b pb); [|done|done].
  destruct (v_len _ _ _ I) as (_ & _ & _ & <-). by eapply lookup_lt_Some.
Qed.

(** The wait at level [i] is over. *)
Lemma inv_pass g ps m id p i :
  inv g ps m → ps !! id = Some p → p ≠ NotCreated → 1 ≤ i < N → entered p = i → passed p = i - 1 →
  (victim g !! i ≠ Some id ∨ ∀ b pb, b ≠ id → ps !! b = Some pb → entered pb < i) →
  inv g (<[id := next_level i]> ps) m.
Proof.
  intros I Hid Hp Hi He Hpa Hor. destruct (next_level_stage i) as (He' & Hpa' & Hcl & Hok); [lia|].
  eapply inv_read; [exact I|exact Hid|done|exact Hok|lia| | |apply next_level_scan|].
  - assert (entered p ≤ claimed p) by (destruct p; simpl; lia). lia.
  - right. rewrite Hpa', Hpa. replace (S (i - 1)) with i by lia. split; [lia|done].
  - intros temp E. by apply next_level_temp in E.
Qed.

Lemma inv_thread g ps m id p g' p' :
  inv g ps m → ps !! id = Some p → routine id p g = Some (g', p') → inv g' (<[id := p']> ps) m.
Proof.
  intros I Hid Hr. destruct (v_len _ _ _ I) as (H1 & H2 & H3 & H4).
  pose proof (v_pcs _ _ _ I) as Hok. rewrite Forall_lookup in Hok. pose proof (Hok _ _ Hid) as Hp. clear Hok.
  pose proof (lookup_lt_Some _ _ _ Hid) as Hlt. rewrite H4 in Hlt.
  destruct p as [|i|i|i k|i k v|i| |temp| | | | |]; simpl in Hr, Hp; try done.
  - destruct (Nat.ltb_spec id (length (level g))); [|done]. injection Hr as <- <-.
    eapply inv_keep; [exact I|exact Hid|done|done|done|simpl; by rewrite length_insert| | |exact Hp|simpl; lia| |done|apply I|done|by left].
    + intros k Hk. simpl. by rewrite list_lookup_insert_ne.
    + exists i. simpl. rewrite list_lookup_insert_eq by done. split; [done|lia].
    + intros j Hj Hej Hpj. simpl in Hej, Hpj. lia.
  - destruct (Nat.ltb_spec i (length (victim g))); [|done]. injection Hr as <- <-. by apply inv_victim.
  - destruct (Nat.ltb_spec k N) as [Hk|Hk].
    + destruct (Nat.eqb_spec k id) as [->|Hne].
      * injection Hr as <- <-. eapply inv_read; [exact I|exact Hid|done|simpl; lia|done|done|by left| |done].
        intros Hv q pq Hq Hqi Hpq. apply (v_scan _ _ _ I id _ Hid Hv q pq); [|done|done]. lia.
      * destruct (t_id g !! k) as [v|] eqn:Hti; [|done]. injection Hr as <- <-.
        destruct (v_t_id _ _ _ I k v Hti) as [Hv Hor].
        eapply inv_read; [exact I|exact Hid|done|simpl; lia|done|done|by left| |done].
        intros Hvi. split; [apply (v_scan _ _ _ I id _ Hid Hvi)|].
        destruct Hor as [->|Hn]; [by left|right]. intros pq Hpq. rewrite Hn in Hpq. injection Hpq as <-. simpl. lia.
    + injection Hr as <- <-. assert (k = N) as -> by lia.
      eapply inv_pass; try done; [lia|by apply (scan_over g ps m)].
  - destruct (level g !! v) as [l|] eqn:Hl; [|done]. injection Hr as <- <-.
    destruct (Nat.leb_spec i l).
    + eapply inv_read; [exact I|exact Hid|done|simpl; lia|done|done|by left|done|done].
    + eapply inv_read; [exact I|exact Hid|done|simpl; lia|done|done|by left| |done].
      intros Hvi. destruct (v_scan _ _ _ I id _ Hid Hvi) as [Hs1 Hs2].
      intros q pq Hq Hqi Hpq. destruct (decide (q = k)) as [->|Hne]; [|apply (Hs1 q pq); [lia|done|done]].
      destruct Hs2 as [->|Hs2]; [|by apply Hs2].
      destruct (v_level _ _ _ I k pq Hpq) as (l' & Hl' & Hc). rewrite Hl in Hl'. injection Hl' as <-.
      assert (entered pq ≤ claimed pq) by (destruct pq; simpl; lia). lia.
  - destruct (victim g !! i) as [v|] eqn:Hv; [|done]. injection Hr as <- <-.
    destruct (Nat.eqb_spec v id) as [->|Hne].
    + eapply inv_read; [exact I|exact Hid|done|simpl; lia|done|done|by left| |done]. simpl. intros. lia.
    + eapply inv_pass; try done. left. congruence.
  - injection Hr as <- <-. eapply inv_read; [exact I|exact Hid|..]; try done; [by left|]. by intros temp [= <-].
  - case_match; [|done]. injection Hr as <- <-. pose proof (v_temp _ _ _ I id temp Hid) as ->.
    eapply inv_keep; [exact I|exact Hid|done|done|done|done|done| |done|done| |done| |done|].
    + by apply (v_level _ _ _ I id _ Hid).
    + intros j Hj Hej Hpj. simpl in *. lia.
    + simpl. by rewrite (v_count _ _ _ I).
    + right. intros r temp Hne Hr. apply Hne. by eapply (exclusive _ ps r id); [exact H4|apply I|..].
  - injection Hr as <- <-. destruct (ITER <? count g)%Z;
      (eapply inv_read; [exact I|exact Hid|done|done|done|done|by left|done|done]).
  - injection Hr as <- <-.
    eapply inv_keep; [exact I|exact Hid|done|done|done|done|done
      |by apply (v_level _ _ _ I id _ Hid)|done|done| |done|simpl; apply I|done|by left].
    intros j Hj Hej Hpj. simpl in *. lia.
  - destruct (Nat.ltb_spec id (length (level g))); [|done]. injection Hr as <- <-.
    eapply inv_keep; [exact I|exact Hid|done|done|done|simpl; by rewrite length_insert| | |done|simpl; lia| |done|apply I|done|by left].
    + intros k Hk. simpl. by rewrite list_lookup_insert_ne.
    + exists 0. simpl. by rewrite list_lookup_insert_eq by done.
    + intros j Hj Hej Hpj. simpl in Hej, Hpj. lia.
  - injection Hr as <- <-. destruct (next_level_stage 0) as (He & Hpa & Hcl & Hpo); [lia|].
    destruct (shutdown g); [eapply inv_read; [exact I|exact Hid|done|done|done|done|by left|done|done]|].
    eapply inv_read; [exact I|exact Hid|done|exact Hpo|by rewrite He|by rewrite Hcl|left; by rewrite Hpa|apply next_level_scan|].
    intros temp E. by apply next_level_temp in E.
Qed.

(** The main thread: initialisation and creation. *)
Lemma inv_main c c' : inv (gl c) (pcs c) (mpc c) → step c c' → inv (gl c') (pcs c') (mpc c').
Proof.
  intros I Hs. pose proof (v_main _ _ _ I) as Hm. destruct (v_len _ _ _ I) as (H1 & H2 & H3 & H4).
  destruct Hs as [id p g' p' Hid Hr|i Hp Hi|i Hp Hi|i Hp Hi|i Hp Hi|i Hp Hi|i Hp Hi Hd|i Hp Hi];
    [by eapply inv_thread|rewrite Hp in Hm; simpl in Hm..]; simpl.
  - split; simpl; try apply I; [by rewrite length_insert|..].
    + intros id p Hid. rewrite (Hm _ _ Hid). simpl.
      destruct (decide (id = i)) as [->|Hne].
      * exists 0. rewrite list_lookup_insert_eq by lia. done.
      * destruct (v_level _ _ _ I id p Hid) as (l & Hl & _). exists l.
        rewrite list_lookup_insert_ne by done. split; [done|lia].
    + exact Hm.
  - split; simpl; try apply I. intros k p _. apply Hm.
  - split; simpl; try apply I; [by rewrite length_insert|..].
    + intros k v Hk. destruct (decide (k = i)) as [->|Hne].
      * rewrite list_lookup_insert_eq in Hk by lia. injection Hk as <-. split; [lia|by left].
      * rewrite list_lookup_insert_ne in Hk by done. by apply (v_t_id _ _ _ I).
    + split; [apply list_lookup_insert_eq; lia|done].
  - split; simpl; try apply I. done.
  - destruct Hm as [Ht Hm]. destruct (next_level_stage 0) as (He & Hpa & Hcl & Hok).
    { apply lookup_lt_Some in Hi. lia. }
    split; simpl; try apply I.
    + by rewrite length_insert.
    + apply Forall_insert; [apply I|done].
    + intros r q Hr. destruct (changed _ _ _ _ _ _ Hi Hr) as [[-> ->]|[_ Hr']]; [|by apply (v_level _ _ _ I)].
      rewrite Hcl. destruct (v_level _ _ _ I i _ Hi) as (l & Hl & _). exists l. split; [done|lia].
    + intros k v Hk. destruct (v_t_id _ _ _ I k v Hk) as [Hv Hor]. split; [done|].
      destruct (decide (k = i)) as [->|Hne]; [left; congruence|]. by rewrite list_lookup_insert_ne.
    + eapply victims_kept; [exact Hi|apply I|rewrite He; simpl; lia|]. intros j Hj Hej. simpl in Hej. lia.
    + intros r q Hr. eapply scan_kept; [exact Hi|rewrite He; simpl; lia|].
      destruct (changed _ _ _ _ _ _ Hi Hr) as [[-> ->]|[_ Hr']]; [apply next_level_scan|by apply (v_scan _ _ _ I)].
    + intros k q Hk Hq. rewrite list_lookup_insert_ne in Hq by lia. apply (Hm k q); [lia|done].
    + intros r temp Hr. destruct (changed _ _ _ _ _ _ Hi Hr) as [[-> E]|[_ Hr']];
        [by symmetry in E; apply next_level_temp in E|by apply (v_temp _ _ _ I r)].
  - split; simpl; try apply I; done.
  - split; simpl; try apply I; done.
Qed.

Lemma inv_start : inv (gl init) (pcs init) (mpc init).
Proof.
  split; simpl; rewrite ?length_replicate; try done.
  - by apply Forall_replicate.
  - intros id p [-> Hid]%lookup_replicate. exists 0. split; [by apply lookup_replicate|simpl; lia].
  - intros k v [-> Hk]%lookup_replicate. split; [lia|right]. by apply lookup_replicate.
  - intros j a b pa pb Hj Hab [-> _]%lookup_replicate _ Hea. simpl in Hea. lia.
  - by intros id p [-> _]%lookup_replicate.
  - by intros k p [-> _]%lookup_replicate.
  - by intros id temp [? _]%lookup_replicate.
Qed.

Lemma reachable_inv c : rtc step init c → inv (gl c) (pcs c) (mpc c).
Proof.
  apply (rtc_ind_r (λ c, inv (gl c) (pcs c) (mpc c))); [apply inv_start|].
  intros c1 c2 _ Hs Hi. by eapply inv_main.
Qed.

(** ** How far the counter gets *)

(** A thread that has made its last increment, if the counter is past [ITER]. *)
Definition late (sd : bool) (p : pc) : Z :=
  match p with
  | F_check | F_stop | F_done => 1
  | F_unlock | F_loop => if sd then 1 else 0
  | _ => 0
  end.

Definition counted (g : globals) (ps : list pc) : Prop :=
  (0 ≤ count g ≤ ITER + tally (late (shutdown g)) ps)%Z.

Lemma f_late_bounds sd p : (0 ≤ late sd p ≤ 1)%Z.
Proof. destruct p, sd; simpl; lia. Qed.

Lemma tally_f_late sd ps : (tally (late sd) ps ≤ tally (late true) ps)%Z.
Proof.
  induction ps as [|p ps IH]; simpl; [lia|].
  assert (late sd p ≤ late true p)%Z by (destruct p, sd; simpl; lia). lia.
Qed.

(** A step that does not increment. *)
Lemma counted_same g g' ps id p p' :
  counted g ps → ps !! id = Some p → count g' = count g →
  (shutdown g = true → shutdown g' = true) →
  (late (shutdown g') p ≤ late (shutdown g') p' ∨ count g ≤ ITER)%Z →
  counted g' (<[id := p']> ps).
Proof.
  unfold counted. intros C Hid -> Hsd Hl. rewrite (tally_insert _ _ _ _ _ Hid).
  assert (tally (late (shutdown g)) ps ≤ tally (late (shutdown g')) ps)%Z.
  { destruct (shutdown g'); [apply tally_f_late|]. by destruct (shutdown g); [discriminate (Hsd eq_refl)|]. }
  destruct Hl as [Hl|Hl]; [lia|]. rewrite <- (tally_insert _ _ _ _ _ Hid).
  pose proof (tally_nonneg (late (shutdown g')) (<[id := p']> ps) (λ x, proj1 (f_late_bounds _ x))). lia.
Qed.

Lemma late_next_level sd i : late sd (next_level i) = 0%Z.
Proof. unfold next_level. by case_match. Qed.

Lemma counted_thread g ps m id p g' p' :
  inv g ps m → counted g ps → ps !! id = Some p → routine id p g = Some (g', p') → counted g' (<[id := p']> ps).
Proof.
  intros I C Hid Hr.
  destruct p as [|i|i|i k|i k v|i| |temp| | | | |]; simpl in Hr; try done.
  - case_match; [|done]. injection Hr as <- <-. by apply (counted_same _ _ _ _ _ _ C Hid); [..|left].
  - case_match; [|done]. injection Hr as <- <-. by apply (counted_same _ _ _ _ _ _ C Hid); [..|left].
  - case_match; [case_match|].
    + injection Hr as <- <-. by apply (counted_same _ _ _ _ _ _ C Hid); [..|left].
    + apply bind_Some in Hr as (v & _ & [= <- <-]). by apply (counted_same _ _ _ _ _ _ C Hid); [..|left].
    + injection Hr as <- <-. apply (counted_same _ _ _ _ _ _ C Hid); [..|left; rewrite late_next_level]; done.
  - apply bind_Some in Hr as (l & _ & [= <- <-]). apply (counted_same _ _ _ _ _ _ C Hid); [done..|]. left. by case_match.
  - apply bind_Some in Hr as (v & _ & [= <- <-]). apply (counted_same _ _ _ _ _ _ C Hid); [done..|]. left.
    case_match; [done|by rewrite late_next_level].
  - injection Hr as <- <-. by apply (counted_same _ _ _ _ _ _ C Hid); [..|left].
  - case_match; [|done]. injection Hr as <- <-. pose proof (v_temp _ _ _ I id temp Hid) as ->.
    unfold counted in *. simpl. rewrite (tally_insert _ _ _ _ _ Hid). simpl. lia.
  - injection Hr as <- <-. apply (counted_same _ _ _ _ _ _ C Hid); [done..|].
    destruct (Z.ltb_spec ITER (count g)); [by left|right; lia].
  - injection Hr as <- <-. by apply (counted_same _ _ _ _ _ _ C Hid); [..|left].
  - case_match; [|done]. injection Hr as <- <-. by apply (counted_same _ _ _ _ _ _ C Hid); [..|left].
  - injection Hr as <- <-. apply (counted_same _ _ _ _ _ _ C Hid); [done..|]. left. simpl.
    destruct (shutdown g); [done|by rewrite late_next_level].
Qed.

Lemma reachable_counted c : rtc step init c → counted (gl c) (pcs c).
Proof.
  revert c. apply (rtc_ind_r (λ c, counted (gl c) (pcs c))).
  - unfold counted. simpl. rewrite (tally_const _ 0); [unfold ITER; lia|]. by apply Forall_replicate.
  - intros c c' Hr Hs C. pose proof (reachable_inv c Hr) as I. destruct Hs as [id p g' p' Hid Hp| | | | |i Hm Hi| |];
      [by eapply counted_thread|try exact C..].
    simpl. apply (counted_same _ _ _ _ _ _ C Hi); [done..|]. left. by rewrite late_next_level.
Qed.

(** ** What the lock gives *)

(** C6: Two threads are never in the critical section together, although each checks
    the others' levels one at a time. *)
Theorem filter_lock_mutual_exclusion c a b pa pb :
  rtc step init c → pcs c !! a = Some pa → pcs c !! b = Some pb →
  in_cs pa = true → in_cs pb = true → a = b.
Proof.
  intros Hr Ha Hb Hca Hcb. pose proof (reachable_inv c Hr) as I.
  eapply exclusive; [|apply I|exact Ha|exact Hb|done|done]. apply I.
Qed.

(** At most [N - j] threads are past level [j]. *)
Theorem filter_lock_levels c j :
  rtc step init c → j < N → length (filter (λ p, j ≤ passed p) (pcs c)) ≤ Nat.max 1 (N - j).
Proof.
  intros Hr Hj. pose proof (reachable_inv c Hr) as I. eapply passed_bound; [|apply I|done]. apply I.
Qed.

(** No increment of [count] is lost and the program makes at most [ITER + N] of
    them, so the [int] does not overflow; no thread ever indexes outside the arrays:
    a created thread that has not finished can always step. *)
Theorem filter_lock_count c :
  rtc step init c → (ITER + Z.of_nat N < 2 ^ 31 - 1)%Z →
  count (gl c) = entries (gl c) ∧ (count (gl c) ≤ ITER + Z.of_nat N)%Z ∧
  ∀ id p, pcs c !! id = Some p → p ≠ NotCreated → p ≠ F_done → is_Some (routine id p (gl c)).
Proof.
  intros Hr HN. pose proof (reachable_inv c Hr) as I. destruct (v_len _ _ _ I) as (H1 & H2 & H3 & H4).
  pose proof (reachable_counted c Hr) as Hc. unfold counted in Hc.
  pose proof (tally_upto (late (shutdown (gl c))) (pcs c) (f_late_bounds _)) as Ht.
  split_and!; [symmetry; apply I|lia|]. intros id p Hid Hn Hd.
  pose proof (v_pcs _ _ _ I) as Hok. rewrite Forall_lookup in Hok. specialize (Hok _ _ Hid).
  pose proof (lookup_lt_Some _ _ _ Hid).
  destruct p as [|i|i|i k|i k v|i| |temp| | | | |]; simpl in *; try done; try (by eexists).
  - destruct (Nat.ltb_spec id (length (level (gl c)))); [by eexists|lia].
  - destruct (Nat.ltb_spec i (length (victim (gl c)))); [by eexists|lia].
  - destruct (Nat.ltb_spec k N); [|by eexists]. destruct (k =? id); [by eexists|].
    destruct (lookup_lt_is_Some_2 (t_id (gl c)) k ltac:(lia)) as [v ->]. by eexists.
  - destruct (lookup_lt_is_Some_2 (level (gl c)) v ltac:(lia)) as [l ->]. by eexists.
  - destruct (lookup_lt_is_Some_2 (victim (gl c)) i ltac:(lia)) as [v ->]. by eexists.
  - rewrite (v_temp _ _ _ I id temp Hid). unfold is_i32. replace (_ && _) with true by lia. by eexists.
  - destruct (Nat.ltb_spec id (length (level (gl c)))); [by eexists|lia].
Qed.

(** ** Running the program *)

Definition main_step (c : config) : option config :=
  match mpc c with
  | M_init i => Some (if i <? N
      then mk_config (set_level (<[i := 0]> (level (gl c))) (gl c)) (pcs c) (M_init (S i))
      else mk_config (gl c) (pcs c) (M_id 0))
  | M_id i => Some (if i <? N
      then mk_config (set_t_id (<[i := i]> (t_id (gl c))) (gl c)) (pcs c) (M_create i)
      else mk_config (gl c) (pcs c) (M_join 0))
  | M_create i =>
      match pcs c !! i with
      | Some NotCreated => Some (mk_config (gl c) (<[i := next_level 0]> (pcs c)) (M_id (S i)))
      | _ => None
      end
  | _ => None
  end.

(** [None] is a step of main, [Some id] one of thread [id]. *)
Definition sched_step (c : config) (who : option nat) : option config :=
  match who with
  | None => main_step c
  | Some id =>
      p ← pcs c !! id;
      '(g', p') ← routine id p (gl c);
      Some (mk_config g' (<[id := p']> (pcs c)) (mpc c))
  end.

Fixpoint sched_run (ws : list (option nat)) (c : config) : option config :=
  match ws with [] => Some c | w :: ws' => c' ← sched_step c w; sched_run ws' c' end.

Lemma sched_step_sound c w c' : sched_step c w = Some c' → step c c'.
Proof.
  destruct w as [id|]; simpl.
  - destruct (pcs c !! id) as [p|] eqn:Hp; [|done]. simpl.
    destruct (routine id p (gl c)) as [[g' p']|] eqn:Hr; [|done]. intros [= <-]. by eapply step_thread.
  - unfold main_step. destruct (mpc c) as [i|i|i|i|] eqn:Hm; try done.
    + intros [= <-]. destruct (Nat.ltb_spec i N); [by apply step_init|eapply step_init_done; [done|lia]].
    + intros [= <-]. destruct (Nat.ltb_spec i N); [by apply step_id|eapply step_id_done; [done|lia]].
    + destruct (pcs c !! i) as [[]|] eqn:Hi; try done. intros [= <-]. by eapply step_create.
Qed.

Lemma sched_run_sound ws c c' : sched_run ws c = Some c' → rtc step c c'.
Proof.
  revert c. induction ws as [|w ws IH]; intros c; simpl; [by intros [= ->]|].
  destruct (sched_step c w) as [c1|] eqn:E; [|done]. simpl. intros Hr.
  eapply rtc_l; [by eapply sched_step_sound|by apply IH].
Qed.
End Lock.

(** ** The theorems at a run of three threads

    All three are created; thread 0 goes through while thread 1 waits at level 1. *)
Definition three_schedule : list (option nat) :=
  replicate 11 None ++ replicate 2 (Some 0) ++ replicate 2 (Some 1) ++
  replicate 6 (Some 0) ++ replicate 4 (Some 1) ++ replicate 9 (Some 0).
Definition three_state : config := default (init 3) (sched_run 3 three_schedule (init 3)).

Lemma three_reach : rtc (step 3) (init 3) three_state.
Proof. apply (sched_run_sound 3 three_schedule). vm_compute. reflexivity. Qed.

Lemma filter_lock_mutual_exclusion_witness :
  pcs three_state !! 0 = Some F_unlock ∧ 0 = 0.
Proof.
  split; [vm_compute; reflexivity|].
  apply (filter_lock_mutual_exclusion 3 three_state 0 0 F_unlock F_unlock);
    [apply three_reach|vm_compute; reflexivity..].
Defined.

Lemma filter_lock_levels_witness :
  length (filter (λ p, 1 ≤ passed 3 p) (pcs three_state)) ≤ Nat.max 1 (3 - 1).
Proof. apply (filter_lock_levels 3 three_state 1); [apply three_reach|lia]. Defined.

Lemma filter_lock_count_witness :
  count (gl three_state) = entries (gl three_state) ∧ (count (gl three_state) ≤ ITER + 3)%Z ∧
  ∀ id p, pcs three_state !! id = Some p → p ≠ NotCreated → p ≠ F_done →
    is_Some (routine 3 id p (gl three_state)).
Proof. apply (filter_lock_count 3 three_state); [apply three_reach|unfold ITER; lia]. Defined.
End FilterLock.
