(* ===== verification/BakeryLock.v ===== *)
(** * BakeryLock: the bakery lock experiment (proof/bakery-lock/main.c)

    Every shared read and write is a step of its own: the scan of max_label reads
    each label once for the test and once more for the assignment, check_k_i reads
    the labels it compares one by one.  Labels and the counter are C [int]s: a step
    that would overflow one is not possible in the model, and the theorems show
    that none is ever about to. *)
From S2P Require Export Prelude.
Local Open Scope Z_scope.

Module BakeryLock.

Definition N_THREAD : nat := 3.
Definition ITER : Z := 15.

(** The globals.  Two ghosts: [chosen] counts the labels taken, [entries] the
    increments made. *)
Record globals := mk_globals {
  flag : list bool;
  label : list Z;
  t_id : list nat;
  count : Z;
  shutdown : bool;
  chosen : Z;
  entries : Z
}.

Definition set_flag (a : list bool) (g : globals) : globals :=
  mk_globals a (label g) (t_id g) (count g) (shutdown g) (chosen g) (entries g).
Definition set_label (a : list Z) (g : globals) : globals :=
  mk_globals (flag g) a (t_id g) (count g) (shutdown g) (chosen g) (entries g).
Definition set_t_id (a : list nat) (g : globals) : globals :=
  mk_globals (flag g) (label g) a (count g) (shutdown g) (chosen g) (entries g).
Definition take_label (a : list Z) (g : globals) : globals :=
  mk_globals (flag g) a (t_id g) (count g) (shutdown g) (chosen g + 1) (entries g).
Definition set_count (c : Z) (g : globals) : globals :=
  mk_globals (flag g) (label g) (t_id g) c (shutdown g) (chosen g) (entries g + 1).
Definition set_shutdown (g : globals) : globals :=
  mk_globals (flag g) (label g) (t_id g) (count g) true (chosen g) (entries g).

Inductive pc :=
| NotCreated
| B_start                           (* 47: id = arg->id *)
| B_flag                            (* 50: flag[id] = true *)
| B_max (i : nat) (max : Z)         (* 23-24: loop test, label[i] > max *)
| B_max_set (i : nat) (max : Z)     (* 24: max = label[i] *)
| B_label (max : Z)                 (* 51: label[id] = max + 1 *)
| B_scan (k : nat)                  (* 39-41: loop test, read flag[k] *)
| B_less (k : nat)                  (* 31: read label[k] *)
| B_less_own (k : nat) (lk : Z)     (* 31: read label[i] *)
| B_equal (k : nat)                 (* 33: read label[k] *)
| B_equal_own (k : nat) (lk : Z)    (* 33: read label[i] *)
| B_cs                              (* 58: temp = count *)
| B_write (temp : Z)                (* 59 *)
| B_check                           (* 60: read count *)
| B_stop                            (* 60: shutdown = 1 *)
| B_unlock                          (* 66 *)
| B_loop                            (* 67 *)
| B_done.

(** A thread: its local [id] and where it is. *)
Record thread := mk_thread { my_id : nat; at_pc : pc }.

Inductive main_pc :=
| M_flag (i : nat)                  (* 74-75 *)
| M_label (i : nat)                 (* 76 *)
| M_id (i : nat)                    (* 79-80 *)
| M_create (i : nat)                (* 81 *)
| M_join (i : nat)                  (* 84-85 *)
| M_done.

Section Lock.
(** [N] is N_THREAD. *)
Context (N : nat).

(** One step of the thread created with argument [&t_id[arg]]: [None] when it is
    not created or done, when an index is out of range, or when an [int] would
    overflow. *)
Definition routine (arg : nat) (t : thread) (g : globals) : option (globals * thread) :=
  let id := my_id t in
  let to (g' : globals) (p : pc) := Some (g', mk_thread id p) in
  match at_pc t with
  | NotCreated | B_done => None
  | B_start => v ← t_id g !! arg; Some (g, mk_thread v B_flag)
  | B_flag =>
      if (id <? length (flag g))%nat
      then to (set_flag (<[id := true]> (flag g)) g) (B_max 0 (-1)) else None
  | B_max i max =>
      if (i <? N)%nat then
        l ← label g !! i;
        to g (if max <? l then B_max_set i max else B_max (S i) max)
      else to g (B_label max)
  | B_max_set i _ => l ← label g !! i; to g (B_max (S i) l)
  | B_label max =>
      if (id <? length (label g))%nat && is_i32 (max + 1)
      then to (take_label (<[id := max + 1]> (label g)) g) (B_scan 0) else None
  | B_scan k =>
      if (k <? N)%nat then
        if (k =? id)%nat then to g (B_scan (S k))
        else f ← flag g !! k; to g (if (f : bool) then B_less k else B_scan (S k))
      else to g B_cs
  | B_less k => lk ← label g !! k; to g (B_less_own k lk)
  | B_less_own k lk => l ← label g !! id; to g (if lk <? l then B_scan 0 else B_equal k)
  | B_equal k => lk ← label g !! k; to g (B_equal_own k lk)
  | B_equal_own k lk =>
      l ← label g !! id;
      to g (if (lk =? l) && (k <? id)%nat then B_scan 0 else B_scan (S k))
  | B_cs => to g (B_write (count g))
  | B_write temp => if is_i32 (temp + 1) then to (set_count (temp + 1) g) B_check else None
  | B_check => to g (if ITER <? count g then B_stop else B_unlock)
  | B_stop => to (set_shutdown g) B_unlock
  | B_unlock =>
      if (id <? length (flag g))%nat
      then to (set_flag (<[id := false]> (flag g)) g) B_loop else None
  | B_loop => to g (if shutdown g then B_done else B_flag)
  end.

Record config := mk_config { gl : globals; threads : list thread; mpc : main_pc }.

(** The main thread; a join waits for its thread. *)
Definition main_step (c : config) : option config :=
  let g := gl c in
  let to (g' : globals) (m : main_pc) := Some (mk_config g' (threads c) m) in
  match mpc c with
  | M_flag i =>
      if (i <? N)%nat then to (set_flag (<[i := false]> (flag g)) g) (M_label i) else to g (M_id 0)
  | M_label i => to (set_label (<[i := 0]> (label g)) g) (M_flag (S i))
  | M_id i =>
      if (i <? N)%nat then to (set_t_id (<[i := i]> (t_id g)) g) (M_create i) else to g (M_join 0)
  | M_create i =>
      Some (mk_config g (<[i := mk_thread 0 B_start]> (threads c)) (M_id (S i)))
  | M_join i =>
      if (i <? N)%nat then
        t ← threads c !! i;
        match at_pc t with B_done => to g (M_join (S i)) | _ => None end
      else to g M_done
  | M_done => None
  end.

Inductive step (c : config) : config → Prop :=
| step_thread i t g' t' :
    threads c !! i = Some t → routine i t (gl c) = Some (g', t') →
    step c (mk_config g' (<[i := t']> (threads c)) (mpc c))
| step_main c' : main_step c = Some c' → step c c'.

(** The globals are zero at program start. *)
Definition init : config :=
  mk_config (mk_globals (replicate N false) (replicate N 0) (replicate N 0%nat) 0 false 0 0)
    (replicate N (mk_thread 0 NotCreated)) (M_flag 0).

(** ** The invariant *)

Definition lab (g : globals) (i : nat) : Z := default 0 (label g !! i).

(** Between the writes of [flag[id]]. *)
Definition flagged (p : pc) : bool :=
  match p with NotCreated | B_start | B_flag | B_loop | B_done => false | _ => true end.
(** Its label is taken. *)
Definition labelled (p : pc) : bool :=
  match p with
  | B_max _ _ | B_max_set _ _ | B_label _ => false
  | _ => flagged p
  end.
Definition in_cs (p : pc) : bool :=
  match p with B_cs | B_write _ | B_check | B_stop | B_unlock => true | _ => false end.
Definition started (p : pc) : bool := match p with NotCreated | B_start => false | _ => true end.

(** A waiting thread has let the threads below this one pass. *)
Definition passed (p : pc) (a : nat) : Prop :=
  match p with
  | B_scan k | B_less k | B_less_own k _ | B_equal k | B_equal_own k _ => (a < k)%nat
  | _ => in_cs p = true
  end.

(** Thread [b] goes before thread [a]. *)
Definition before (g : globals) (b a : nat) : Prop :=
  lab g b < lab g a ∨ lab g b = lab g a ∧ (b < a)%nat.

(** What a thread knows about the labels it has read. *)
Definition local_ok (g : globals) (i : nat) (p : pc) : Prop :=
  match p with
  | B_max k m => (k ≤ N)%nat ∧ ((i < k)%nat → lab g i ≤ m)
  | B_max_set k m => (k < N)%nat ∧ m < lab g k ∧ ((i < k)%nat → lab g i ≤ m)
  | B_label m => lab g i ≤ m
  | B_scan k => (k ≤ N)%nat
  | B_less k => (k < N)%nat ∧ k ≠ i
  | B_less_own k lk => (k < N)%nat ∧ k ≠ i ∧ lk ≤ lab g k
  | B_equal k => (k < N)%nat ∧ k ≠ i ∧ lab g i ≤ lab g k
  | B_equal_own k lk => (k < N)%nat ∧ k ≠ i ∧ lab g i ≤ lk ≤ lab g k
  | _ => True
  end.

(** Once [b] has let [a] pass, [a] is behind [b], or is going to take a label behind
    that of [b]. *)
Definition behind (g : globals) (b a : nat) (pa : pc) : Prop :=
  match pa with
  | B_max k m | B_max_set k m => before g b a ∨ ((b < k)%nat → lab g b ≤ m)
  | B_label m => before g b a ∨ lab g b ≤ m
  | _ => flagged pa = true → before g b a
  end.

Definition main_ok (g : globals) (ths : list thread) (m : main_pc) : Prop :=
  match m with
  | M_flag i => ∀ k t, ths !! k = Some t → at_pc t = NotCreated
  | M_label i => (i < N)%nat ∧ ∀ k t, ths !! k = Some t → at_pc t = NotCreated
  | M_id i => ∀ k t, (i ≤ k)%nat → ths !! k = Some t → at_pc t = NotCreated
  | M_create i => (i < N)%nat ∧ t_id g !! i = Some i ∧
      ∀ k t, (i ≤ k)%nat → ths !! k = Some t → at_pc t = NotCreated
  | _ => True
  end.

Record inv (g : globals) (ths : list thread) : Prop := {
  v_len : length (flag g) = N ∧ length (label g) = N ∧ length (t_id g) = N ∧ length ths = N;
  v_id : ∀ i t, ths !! i = Some t →
    if started (at_pc t) then my_id t = i
    else at_pc t = B_start → t_id g !! i = Some i;
  v_flag : ∀ i t, ths !! i = Some t → flag g !! i = Some (flagged (at_pc t));
  v_local : ∀ i t, ths !! i = Some t → local_ok g i (at_pc t);
  v_behind : ∀ a b ta tb, a ≠ b → ths !! a = Some ta → ths !! b = Some tb →
    labelled (at_pc tb) = true → passed (at_pc tb) a → behind g b a (at_pc ta)
}.

(** ** Steps of a thread *)

(** Labels only grow, so what others know about them stays true. *)
Lemma local_mono g g' j p :
  lab g' j = lab g j → (∀ k, lab g k ≤ lab g' k) → local_ok g j p → local_ok g' j p.
Proof.
  intros Hj Hk. destruct p; simpl; rewrite ?Hj; try done;
    try (pose proof (Hk i); intuition lia); try (pose proof (Hk k); intuition lia).
Qed.

Lemma before_mono g g' b a :
  lab g' b = lab g b → lab g a ≤ lab g' a → before g b a → before g' b a.
Proof. unfold before. intros -> Ha. intuition lia. Qed.

Lemma behind_mono g g' b a p :
  lab g' b = lab g b → lab g a ≤ lab g' a → behind g b a p → behind g' b a p.
Proof.
  intros Hb Ha. pose proof (before_mono g g' b a Hb Ha).
  destruct p; simpl; rewrite ?Hb; intuition.
Qed.

Lemma inv_move g g' ths i t p' :
  inv g ths → ths !! i = Some t → started p' = true →
  length (flag g') = N → length (label g') = N → t_id g' = t_id g →
  (∀ j, j ≠ i → flag g' !! j = flag g !! j) → flag g' !! i = Some (flagged p') →
  (∀ j, j ≠ i → lab g' j = lab g j) → lab g i ≤ lab g' i →
  local_ok g' i p' →
  (∀ b, (b < N)%nat → lab g' b = lab g b → behind g b i (at_pc t) → behind g' b i p') →
  (∀ a ta, a ≠ i → ths !! a = Some ta → labelled p' = true → passed p' a →
     (labelled (at_pc t) = true ∧ passed (at_pc t) a ∧ lab g' i = lab g i) ∨ behind g' i a (at_pc ta)) →
  inv g' (<[i := mk_thread i p']> ths).
Proof.
  intros I Hi Hst Hlf Hll Hti Hf Hfi Hl Hli Hloc Hother Hown.
  assert (Hmono : ∀ k, lab g k ≤ lab g' k).
  { intros k. destruct (decide (k = i)) as [->|?]; [done|]. by rewrite Hl. }
  split.
  - rewrite length_insert, Hti. split_and!; try done; apply I.
  - intros j u Hj. destruct (changed _ _ _ _ _ _ Hi Hj) as [[-> ->]|[_ Hj']]; simpl; [by rewrite Hst|].
    rewrite Hti. by apply (v_id _ _ I).
  - intros j u Hj. destruct (changed _ _ _ _ _ _ Hi Hj) as [[-> ->]|[Hne Hj']]; [done|].
    rewrite Hf by done. by apply (v_flag _ _ I).
  - intros j u Hj. destruct (changed _ _ _ _ _ _ Hi Hj) as [[-> ->]|[Hne Hj']]; [done|].
    apply (local_mono g); [by apply Hl|done|by apply (v_local _ _ I)].
  - intros a b ta tb Hab Ha Hb Hlb Hpb.
    destruct (changed _ _ _ _ _ _ Hi Ha) as [[-> ->]|[Hna Ha']],
      (changed _ _ _ _ _ _ Hi Hb) as [[-> ->]|[Hnb Hb']]; simpl in *; [done|..].
    + apply Hother; [|by apply Hl|by apply (v_behind _ _ I _ _ _ tb)].
      apply lookup_lt_Some in Hb'. destruct (v_len _ _ I) as (_ & _ & _ & <-). done.
    + destruct (Hown a ta Hna Ha' Hlb Hpb) as [(Hlt & Hpt & Heq)|?]; [|done].
      apply (behind_mono g); [done|by rewrite Hl|]. by apply (v_behind _ _ I _ _ _ t).
    + apply (behind_mono g); [by apply Hl|by rewrite Hl|]. by apply (v_behind _ _ I _ _ _ tb).
Qed.

(** A step that writes neither flags nor labels. *)
Lemma inv_quiet g g' ths i t p' :
  inv g ths → ths !! i = Some t → my_id t = i → started p' = true →
  flag g' = flag g → label g' = label g → t_id g' = t_id g →
  flagged p' = flagged (at_pc t) → local_ok g i p' →
  (∀ b, (b < N)%nat → behind g b i (at_pc t) → behind g b i p') →
  (∀ a ta, a ≠ i → ths !! a = Some ta → labelled p' = true → passed p' a →
     (labelled (at_pc t) = true ∧ passed (at_pc t) a) ∨ behind g i a (at_pc ta)) →
  inv g' (<[i := mk_thread (my_id t) p']> ths).
Proof.
  intros I Hi Hid Hst Hf Hl Ht Hfl Hloc Hother Hown. rewrite Hid.
  assert (E : ∀ j, lab g' j = lab g j) by (intros; unfold lab; by rewrite Hl).
  apply (inv_move g _ _ _ t); rewrite ?Hf, ?Hl; try done; try apply I.
  - rewrite Hfl. by apply (v_flag _ _ I).
  - by rewrite E.
  - apply (local_mono g); [done|by intros; rewrite E|done].
  - intros b HbN _ Hb. apply (behind_mono g); [done|by rewrite E|auto].
  - intros a ta Hne Ha Hlp Hpp. destruct (Hown a ta Hne Ha Hlp Hpp) as [[? ?]|?]; [left; by rewrite E|right].
    apply (behind_mono g); [done|by rewrite E|done].
Qed.

Lemma lab_at g i l : label g !! i = Some l → lab g i = l.
Proof. unfold lab. by intros ->. Qed.

Lemma inv_flag_on g ths i t :
  inv g ths → ths !! i = Some t → my_id t = i → at_pc t = B_flag → (i < length (flag g))%nat →
  inv (set_flag (<[i := true]> (flag g)) g) (<[i := mk_thread i (B_max 0 (-1))]> ths).
Proof.
  intros I Hi Hid Hp Hlt. destruct (v_len _ _ I) as (L1 & L2 & L3 & L4).
  apply (inv_move g _ _ _ t); try done; simpl.
  - by rewrite length_insert.
  - intros j Hj. by rewrite list_lookup_insert_ne.
  - by rewrite list_lookup_insert_eq.
  - split; lia.
  - intros b _ _ _. right. lia.
Qed.

Lemma inv_label g ths i t m :
  inv g ths → ths !! i = Some t → my_id t = i → at_pc t = B_label m → (i < length (label g))%nat →
  inv (take_label (<[i := m + 1]> (label g)) g) (<[i := mk_thread i (B_scan 0)]> ths).
Proof.
  intros I Hi Hid Hp Hlt. destruct (v_len _ _ I) as (L1 & L2 & L3 & L4).
  pose proof (v_local _ _ I i t Hi) as Hloc. rewrite Hp in Hloc. simpl in Hloc.
  assert (Hnew : lab (take_label (<[i := m + 1]> (label g)) g) i = m + 1).
  { apply lab_at. simpl. by rewrite list_lookup_insert_eq. }
  apply (inv_move g _ _ _ t); try done.
  - simpl. by rewrite length_insert.
  - simpl. rewrite (v_flag _ _ I i t Hi), Hp. done.
  - intros j Hj. unfold lab. simpl. by rewrite list_lookup_insert_ne.
  - rewrite Hnew. lia.
  - simpl. lia.
  - intros b _ Hb Hbeh. simpl. intros _. left. rewrite Hb, Hnew. rewrite Hp in Hbeh. simpl in Hbeh.
    unfold before in Hbeh. intuition lia.
  - simpl. lia.
Qed.

Lemma inv_flag_off g ths i t :
  inv g ths → ths !! i = Some t → my_id t = i → (i < length (flag g))%nat →
  inv (set_flag (<[i := false]> (flag g)) g) (<[i := mk_thread i B_loop]> ths).
Proof.
  intros I Hi Hid Hlt. destruct (v_len _ _ I) as (L1 & L2 & L3 & L4).
  apply (inv_move g _ _ _ t); try done; simpl.
  - by rewrite length_insert.
  - intros j Hj. by rewrite list_lookup_insert_ne.
  - by rewrite list_lookup_insert_eq.
Qed.

(** A thread that reads flag [k] lowered lets [k] pass. *)
Lemma flag_down_behind g ths i k tk :
  inv g ths → ths !! k = Some tk → flag g !! k = Some false → behind g i k (at_pc tk).
Proof.
  intros I Hk Hf. rewrite (v_flag _ _ I k tk Hk) in Hf. injection Hf as Hf.
  destruct (at_pc tk); try discriminate Hf; done.
Qed.

(** So does one whose label is ahead. *)
Lemma label_ahead_behind g i k lk p :
  lab g i ≤ lk ≤ lab g k → k ≠ i → (lk =? lab g i) && (k <? i)%nat = false → behind g i k p.
Proof.
  intros Hl Hne Ht. assert (Hb : before g i k).
  { unfold before. destruct (Z.eqb_spec lk (lab g i)); simpl in Ht; [|lia]. apply Nat.ltb_ge in Ht. lia. }
  destruct p; simpl; auto.
Qed.

Lemma bakery_inv_thread g ths i t g' t' :
  inv g ths → ths !! i = Some t → routine i t g = Some (g', t') → inv g' (<[i := t']> ths).
Proof.
  intros I Hi Hr. destruct (v_len _ _ I) as (L1 & L2 & L3 & L4).
  pose proof (v_local _ _ I i t Hi) as Hloc. pose proof (v_id _ _ I i t Hi) as Hid.
  destruct (at_pc t) as [| | |k m|k m|m|k|k|k lk|k|k lk| |temp| | | | |] eqn:Hp;
    unfold routine in Hr; rewrite Hp in Hr; simpl in Hr, Hloc, Hid; try done.
  - rewrite (Hid eq_refl) in Hr. injection Hr as <- <-.
    apply (inv_move g _ _ _ t); rewrite ?Hp; try done.
    rewrite (v_flag _ _ I i t Hi), Hp. done.
  - rewrite Hid in Hr. destruct (Nat.ltb_spec i (length (flag g))); [|done]. injection Hr as <- <-.
    by apply (inv_flag_on _ _ _ t).
  - destruct Hloc as [Hk Hown]. destruct (Nat.ltb_spec k N) as [HkN|HkN].
    + destruct (label g !! k) as [l|] eqn:Hl; [|done]. injection Hr as <- <-. apply lab_at in Hl.
      destruct (Z.ltb_spec m l); apply (inv_quiet g); rewrite ?Hp; try done; simpl.
      * split_and!; [done|lia|done].
      * split; [lia|]. intros Hik. destruct (decide (i = k)) as [->|?]; [lia|]. apply Hown. lia.
      * intros b _ [?|Hb]; [by left|right]. intros Hbk.
        destruct (decide (b = k)) as [->|?]; [lia|]. apply Hb. lia.
    + injection Hr as <- <-. apply (inv_quiet g); rewrite ?Hp; try done; simpl.
      * apply Hown. apply lookup_lt_Some in Hi. lia.
      * intros b HbN [?|Hb]; [by left|right]. apply Hb. lia.
  - destruct Hloc as (Hk & Hm & Hown). destruct (label g !! k) as [l|] eqn:Hl; [|done].
    injection Hr as <- <-. apply lab_at in Hl. apply (inv_quiet g); rewrite ?Hp; try done; simpl.
    + split; [lia|]. intros Hik. destruct (decide (i = k)) as [->|?]; [lia|].
      specialize (Hown ltac:(lia)). lia.
    + intros b _ [?|Hb]; [by left|right]. intros Hbk.
      destruct (decide (b = k)) as [->|?]; [lia|]. specialize (Hb ltac:(lia)). lia.
  - rewrite Hid in Hr. destruct (Nat.ltb_spec i (length (label g))); [|done].
    destruct (is_i32 (m + 1)); [|done]. injection Hr as <- <-. by apply (inv_label _ _ _ t).
  - destruct (Nat.ltb_spec k N) as [HkN|HkN].
    + destruct (Nat.eqb_spec k (my_id t)) as [Hk|Hne].
      * injection Hr as <- <-. apply (inv_quiet g); rewrite ?Hp; try done; simpl.
        intros a ta Ha _ _ Hpa. left. split; [done|]. lia.
      * destruct (flag g !! k) as [[]|] eqn:Hf; [..|done]; injection Hr as <- <-;
          apply (inv_quiet g); rewrite ?Hp; try done; simpl; try lia.
        intros a ta Ha Hta _ Hpa. destruct (decide (a = k)) as [->|?]; [right|left; split; [done|lia]].
        by eapply flag_down_behind.
    + injection Hr as <- <-. apply (inv_quiet g); rewrite ?Hp; try done; simpl.
      intros a ta Ha Hta _ _. left. split; [done|]. apply lookup_lt_Some in Hta. lia.
  - destruct (label g !! k) as [l|] eqn:Hl; [|done]. injection Hr as <- <-. apply lab_at in Hl.
    apply (inv_quiet g); rewrite ?Hp; try done; simpl; try lia.
  - destruct (label g !! my_id t) as [l|] eqn:Hl; [|done]. injection Hr as <- <-. apply lab_at in Hl.
    rewrite Hid in Hl. destruct Hloc as (Hk & Hne & Hlk).
    destruct (Z.ltb_spec lk l); apply (inv_quiet g); rewrite ?Hp; try done; simpl; try lia.
  - destruct (label g !! k) as [l|] eqn:Hl; [|done]. injection Hr as <- <-. apply lab_at in Hl.
    destruct Hloc as (Hk & Hne & Hlk).
    apply (inv_quiet g); rewrite ?Hp; try done; simpl; try lia.
  - destruct (label g !! my_id t) as [l|] eqn:Hl; [|done]. injection Hr as <- <-. apply lab_at in Hl.
    rewrite Hid in Hl. destruct Hloc as (Hk & Hne & Hlk).
    destruct ((lk =? l) && (k <? my_id t)%nat) eqn:Ht; rewrite Hid in Ht;
      apply (inv_quiet g); rewrite ?Hp; try done; simpl; try lia.
    intros a ta Ha Hta _ Hpa. destruct (decide (a = k)) as [->|?]; [right|left; split; [done|lia]].
    apply (label_ahead_behind g i k lk); [done|done|]. by rewrite Hl.
  - injection Hr as <- <-. apply (inv_quiet g); rewrite ?Hp; try done. by left.
  - destruct (is_i32 (temp + 1)); [|done]. injection Hr as <- <-.
    apply (inv_quiet g); rewrite ?Hp; try done. by left.
  - injection Hr as <- <-. destruct (ITER <? count g); apply (inv_quiet g); rewrite ?Hp; try done; by left.
  - injection Hr as <- <-. apply (inv_quiet g); rewrite ?Hp; try done. by left.
  - rewrite Hid in Hr. destruct (Nat.ltb_spec i (length (flag g))); [|done]. injection Hr as <- <-.
    by apply (inv_flag_off _ _ _ t).
  - injection Hr as <- <-. destruct (shutdown g); apply (inv_quiet g); rewrite ?Hp; done.
Qed.

(** ** The main thread *)

Definition all_inv (c : config) : Prop := inv (gl c) (threads c) ∧ main_ok (gl c) (threads c) (mpc c).

(** A write of main before any thread exists. *)
Lemma inv_before_start g g' ths :
  inv g ths → (∀ k t, ths !! k = Some t → at_pc t = NotCreated) →
  length (flag g') = N → length (label g') = N → t_id g' = t_id g →
  (∀ k t, ths !! k = Some t → flag g' !! k = Some false) → inv g' ths.
Proof.
  intros I Hn H1 H2 H3 Hf. split.
  - rewrite H3. split_and!; try done; apply I.
  - intros i t Hi. by rewrite (Hn _ _ Hi).
  - intros i t Hi. rewrite (Hn _ _ Hi). by eapply Hf.
  - intros i t Hi. by rewrite (Hn _ _ Hi).
  - intros a b ta tb _ _ Hb. by rewrite (Hn _ _ Hb).
Qed.

Lemma main_keeps c c' : all_inv c → main_step c = Some c' → all_inv c'.
Proof.
  intros [I Hm] Hs. destruct (v_len _ _ I) as (L1 & L2 & L3 & L4).
  destruct c as [g ths m]. simpl in *. unfold main_step in Hs. simpl in Hs.
  destruct m as [i|i|i|i|i|]; simpl in Hm; try done.
  - destruct (Nat.ltb_spec i N); injection Hs as <-; (split; simpl; [|try done]).
    + apply (inv_before_start g); simpl; rewrite ?length_insert; try done.
      intros k t Hk. destruct (decide (k = i)) as [->|?].
      * by rewrite list_lookup_insert_eq by lia.
      * rewrite list_lookup_insert_ne by done. rewrite (v_flag _ _ I k t Hk). by rewrite (Hm _ _ Hk).
    + done.
    + intros k t _. apply Hm.
  - injection Hs as <-. destruct Hm as [Hi Hm]. split; [|done].
    apply (inv_before_start g); simpl; rewrite ?length_insert; try done.
    intros k t Hk. rewrite (v_flag _ _ I k t Hk). by rewrite (Hm _ _ Hk).
  - destruct (Nat.ltb_spec i N); injection Hs as <-; (split; simpl; [|try done]).
    + split; try apply I; simpl; [by rewrite length_insert|].
      intros k t Hk. pose proof (v_id _ _ I k t Hk) as Hid.
      destruct (started (at_pc t)) eqn:Hst; [done|]. intros Hp.
      destruct (decide (i ≤ k)%nat) as [Hik|]; [by rewrite (Hm k t Hik Hk) in Hp|].
      rewrite list_lookup_insert_ne by lia. by apply Hid.
    + split_and!; [done|by rewrite list_lookup_insert_eq by lia|done].
    + done.
  - injection Hs as <-. destruct Hm as (Hi & Ht & Hm).
    destruct (lookup_lt_is_Some_2 ths i ltac:(lia)) as [t Hit]. pose proof (Hm i t ltac:(lia) Hit) as Hp.
    split; simpl; [split|].
    + by rewrite length_insert.
    + intros j u Hj. destruct (changed _ _ _ _ _ _ Hit Hj) as [[-> ->]|[_ Hj']]; [by intros _|by apply (v_id _ _ I)].
    + intros j u Hj. destruct (changed _ _ _ _ _ _ Hit Hj) as [[-> ->]|[_ Hj']]; [|by apply (v_flag _ _ I)].
      rewrite (v_flag _ _ I i t Hit). by rewrite Hp.
    + intros j u Hj. destruct (changed _ _ _ _ _ _ Hit Hj) as [[-> ->]|[_ Hj']]; [done|by apply (v_local _ _ I)].
    + intros a b ta tb Hab Ha Hb Hlb Hpb.
      destruct (changed _ _ _ _ _ _ Hit Hb) as [[-> ->]|[_ Hb']]; [done|].
      destruct (changed _ _ _ _ _ _ Hit Ha) as [[-> ->]|[_ Ha']]; [done|by apply (v_behind _ _ I _ _ _ tb)].
    + intros k u Hk Hu. destruct (changed _ _ _ _ _ _ Hit Hu) as [[-> ->]|[_ Hu']]; [lia|].
      apply (Hm k u); [lia|done].
  - destruct (i <? N)%nat; [|by injection Hs as <-]. destruct (ths !! i) as [t|]; [|done]. simpl in Hs.
    destruct (at_pc t); try done; by injection Hs as <-.
Qed.

Lemma thread_keeps_main g ths m i t g' t' :
  inv g ths → main_ok g ths m → ths !! i = Some t → routine i t g = Some (g', t') →
  main_ok g' (<[i := t']> ths) m.
Proof.
  intros I Hm Hi Hr.
  assert (Hp : at_pc t ≠ NotCreated) by (intros E; unfold routine in Hr; by rewrite E in Hr).
  assert (Ht : t_id g' = t_id g).
  { unfold routine in Hr. destruct (at_pc t); simpl in Hr; try done;
      repeat (case_match; simpl in Hr; try discriminate Hr); try (by injection Hr as <- _);
      by apply bind_Some in Hr as (? & _ & [= <- _]). }
  destruct m; simpl in *; rewrite ?Ht; try done.
  - by specialize (Hm i t Hi).
  - destruct Hm as [_ Hm]. by specialize (Hm i t Hi).
  - intros k u Hk Hu. destruct (changed _ _ _ _ _ _ Hi Hu) as [[-> ->]|[_ Hu']]; [|by apply (Hm k)].
    by specialize (Hm i t Hk Hi).
  - destruct Hm as (? & ? & Hm). split_and!; try done. intros k u Hk Hu.
    destruct (changed _ _ _ _ _ _ Hi Hu) as [[-> ->]|[_ Hu']]; [|by apply (Hm k)].
    by specialize (Hm i t Hk Hi).
Qed.

Lemma bakery_inv_start : all_inv init.
Proof.
  split; [split|]; simpl; rewrite ?length_replicate; try done.
  - by intros i t [-> _]%lookup_replicate.
  - intros i t [-> ?]%lookup_replicate. by apply lookup_replicate.
  - by intros i t [-> _]%lookup_replicate.
  - by intros a b ta tb _ _ [-> _]%lookup_replicate.
  - by intros i t [-> _]%lookup_replicate.
Qed.

Lemma step_keeps c c' : all_inv c → step c c' → all_inv c'.
Proof.
  intros [I Hm] [i t g' t' Hi Hr|c1 Hs]; [|by eapply main_keeps; [split|]].
  split; simpl; [by eapply bakery_inv_thread|by eapply thread_keeps_main].
Qed.

Lemma bakery_reachable_inv c : rtc step init c → all_inv c.
Proof. apply (rtc_ind_r all_inv); [apply bakery_inv_start|]. intros ? ? _ Hs Hi. by eapply step_keeps. Qed.

Lemma bakery_exclusive g ths a b ta tb :
  inv g ths → ths !! a = Some ta → ths !! b = Some tb →
  in_cs (at_pc ta) = true → in_cs (at_pc tb) = true → a = b.
Proof.
  intros I Ha Hb Ca Cb. destruct (decide (a = b)) as [|Hne]; [done|exfalso].
  assert (Hcs : ∀ p x y, in_cs p = true → labelled p = true ∧ passed p x ∧ (behind g y x p → before g y x)).
  { intros p x y Hp. destruct p; try discriminate Hp; split_and!; try done; by intros H; apply H. }
  destruct (Hcs _ b b Ca) as (La & Pa & _), (Hcs _ a a Cb) as (Lb & Pb & _).
  destruct (Hcs _ a b Ca) as (_ & _ & Ba), (Hcs _ b a Cb) as (_ & _ & Bb).
  pose proof (Ba (v_behind _ _ I a b ta tb Hne Ha Hb Lb Pb)).
  pose proof (Bb (v_behind _ _ I b a tb ta (not_eq_sym Hne) Hb Ha La Pa)).
  unfold before in *. lia.
Qed.

(** ** Counting: no increment is lost and no number grows too large *)

(** A label is taken and the counter not yet incremented for it. *)
Definition queued (t : thread) : Z :=
  match at_pc t with
  | B_scan _ | B_less _ | B_less_own _ _ | B_equal _ | B_equal_own _ _ | B_cs | B_write _ => 1
  | _ => 0
  end.
(** A thread that has made its last increment, if the counter is past [ITER]. *)
Definition late (sd : bool) (t : thread) : Z :=
  match at_pc t with
  | B_check | B_stop | B_done => 1
  | B_unlock | B_loop => if sd then 1 else 0
  | _ => 0
  end.
Definition max_ok (n : Z) (p : pc) : Prop :=
  match p with
  | B_max _ m | B_max_set _ m | B_label m => -1 ≤ m ≤ n
  | _ => True
  end.

Record counts (g : globals) (ths : list thread) : Prop := {
  n_count : entries g = count g ∧ 0 ≤ count g;
  n_chosen : chosen g = entries g + tally queued ths;
  n_labels : ∀ k, 0 ≤ lab g k ≤ chosen g;
  n_max : ∀ i t, ths !! i = Some t → max_ok (chosen g) (at_pc t);
  n_temp : ∀ i t temp, ths !! i = Some t → at_pc t = B_write temp → temp = count g;
  n_late : count g ≤ ITER + tally (late (shutdown g)) ths
}.

Lemma late_bounds sd t : 0 ≤ late sd t ≤ 1.
Proof. unfold late. destruct (at_pc t), sd; lia. Qed.
Lemma queued_bounds t : 0 ≤ queued t ≤ 1.
Proof. unfold queued. destruct (at_pc t); lia. Qed.

Lemma tally_late sd ths : tally (late sd) ths ≤ tally (late true) ths.
Proof.
  induction ths as [|t ths IH]; simpl; [lia|]. unfold late at 1 3. destruct (at_pc t), sd; lia.
Qed.

(** A step that takes no label and makes no increment. *)
Lemma counts_quiet g g' ths i t t' :
  counts g ths → ths !! i = Some t →
  label g' = label g → chosen g' = chosen g → entries g' = entries g → count g' = count g →
  (shutdown g = true → shutdown g' = true) →
  queued t' = queued t →
  (∀ temp, at_pc t' = B_write temp → temp = count g) → max_ok (chosen g) (at_pc t') →
  late (shutdown g') t ≤ late (shutdown g') t' ∨ count g ≤ ITER →
  counts g' (<[i := t']> ths).
Proof.
  intros C Hi Hl Hc He Hn Hsd Hq Ht Hm Hlate. split.
  - rewrite He, Hn. apply C.
  - rewrite Hc, He, (tally_insert _ _ _ _ _ Hi), Hq, (n_chosen _ _ C). lia.
  - intros k. unfold lab. rewrite Hl, Hc. apply C.
  - intros j u Hj. rewrite Hc. destruct (changed _ _ _ _ _ _ Hi Hj) as [[-> ->]|[_ Hj']]; [done|].
    by apply (n_max _ _ C j).
  - intros j u temp Hj E. rewrite Hn. destruct (changed _ _ _ _ _ _ Hi Hj) as [[-> ->]|[_ Hj']];
      [by apply Ht|by apply (n_temp _ _ C j u)].
  - rewrite Hn. pose proof (n_late _ _ C) as Hn'.
    assert (Hnew : 0 ≤ tally (late (shutdown g')) (<[i := t']> ths))
      by (apply tally_nonneg; intros; apply late_bounds).
    destruct Hlate as [Hlate|?]; [|lia].
    assert (Hle : tally (late (shutdown g)) ths ≤ tally (late (shutdown g')) ths).
    { destruct (shutdown g'); [apply tally_late|]. by destruct (shutdown g); [discriminate (Hsd eq_refl)|]. }
    rewrite (tally_insert _ _ _ _ _ Hi). lia.
Qed.

Lemma counts_label g ths i t m :
  inv g ths → counts g ths → ths !! i = Some t → my_id t = i → at_pc t = B_label m →
  counts (take_label (<[i := m + 1]> (label g)) g) (<[i := mk_thread i (B_scan 0)]> ths).
Proof.
  intros I C Hi Hid Hp. destruct (v_len _ _ I) as (_ & L2 & _ & L4).
  pose proof (n_max _ _ C i t Hi) as Hm. rewrite Hp in Hm. simpl in Hm.
  assert (Hq : queued t = 0) by (unfold queued; by rewrite Hp).
  assert (Hlate : late (shutdown g) t = 0) by (unfold late; by rewrite Hp).
  apply lookup_lt_Some in Hi as Hlt. split; simpl.
  - apply C.
  - rewrite (tally_insert _ _ _ _ _ Hi), (n_chosen _ _ C), Hq. unfold queued at 3. simpl. lia.
  - intros k. unfold lab. simpl. destruct (decide (k = i)) as [->|?].
    + rewrite list_lookup_insert_eq by lia. simpl. lia.
    + rewrite list_lookup_insert_ne by done. pose proof (n_labels _ _ C k) as Hk. unfold lab in Hk. lia.
  - intros j u Hj. destruct (changed _ _ _ _ _ _ Hi Hj) as [[-> ->]|[_ Hj']]; [done|].
    pose proof (n_max _ _ C j u Hj') as Hu. destruct (at_pc u); simpl in *; lia.
  - intros j u temp Hj E. destruct (changed _ _ _ _ _ _ Hi Hj) as [[-> ->]|[_ Hj']]; [done|].
    by apply (n_temp _ _ C j u).
  - rewrite (tally_insert _ _ _ _ _ Hi), Hlate. unfold late at 2. simpl. pose proof (n_late _ _ C). lia.
Qed.

Lemma counts_write g ths i t temp :
  inv g ths → counts g ths → ths !! i = Some t → my_id t = i → at_pc t = B_write temp →
  counts (set_count (temp + 1) g) (<[i := mk_thread i B_check]> ths).
Proof.
  intros I C Hi Hid Hp. pose proof (n_temp _ _ C i t temp Hi Hp) as ->.
  assert (Hq : queued t = 1) by (unfold queued; by rewrite Hp).
  assert (Hlate : late (shutdown g) t = 0) by (unfold late; by rewrite Hp).
  destruct (n_count _ _ C) as [Hn H0]. split; simpl.
  - lia.
  - rewrite (tally_insert _ _ _ _ _ Hi), (n_chosen _ _ C), Hq. unfold queued at 3. simpl. lia.
  - intros k. apply C.
  - intros j u Hj. destruct (changed _ _ _ _ _ _ Hi Hj) as [[-> ->]|[_ Hj']]; [done|by apply (n_max _ _ C j)].
  - intros j u temp Hj E. destruct (changed _ _ _ _ _ _ Hi Hj) as [[-> ->]|[Hne Hj']]; [done|].
    exfalso. apply Hne. eapply (bakery_exclusive g ths j i); [done|exact Hj'|exact Hi|by rewrite E|by rewrite Hp].
  - rewrite (tally_insert _ _ _ _ _ Hi), Hlate. unfold late at 2. simpl. pose proof (n_late _ _ C). lia.
Qed.

(** The side conditions of [counts_quiet] at a known control point. *)
Ltac quiet C Hi Hp :=
  eapply (counts_quiet _ _ _ _ _ _ C Hi); try done;
  try (unfold queued; rewrite Hp; done); try (left; unfold late; rewrite Hp; simpl; done).

Lemma counts_thread g ths i t g' t' :
  inv g ths → counts g ths → ths !! i = Some t → routine i t g = Some (g', t') →
  counts g' (<[i := t']> ths).
Proof.
  intros I C Hi Hr. pose proof (v_id _ _ I i t Hi) as Hid. pose proof (n_max _ _ C i t Hi) as Hm.
  destruct (at_pc t) as [| | |k m|k m|m|k|k|k lk|k|k lk| |temp| | | | |] eqn:Hp;
    unfold routine in Hr; rewrite Hp in Hr; simpl in Hr, Hid, Hm; try done.
  - apply bind_Some in Hr as (v & Hv & [= <- <-]). rewrite (Hid eq_refl) in Hv. injection Hv as <-.
    quiet C Hi Hp.
  - case_match; [|done]. injection Hr as <- <-. quiet C Hi Hp. simpl. pose proof (n_labels _ _ C 0). lia.
  - case_match; [|injection Hr as <- <-; quiet C Hi Hp].
    apply bind_Some in Hr as (l & Hl & [= <- <-]). case_match; quiet C Hi Hp.
  - apply bind_Some in Hr as (l & Hl & [= <- <-]). quiet C Hi Hp. simpl. rewrite <- (lab_at _ _ _ Hl).
    pose proof (n_labels _ _ C k). lia.
  - rewrite Hid in Hr. case_match; [|done]. injection Hr as <- <-. by apply (counts_label _ _ _ t).
  - case_match; [|injection Hr as <- <-; quiet C Hi Hp].
    case_match; [injection Hr as <- <-; quiet C Hi Hp|].
    apply bind_Some in Hr as (f & Hf & [= <- <-]). destruct f; quiet C Hi Hp.
  - apply bind_Some in Hr as (l & Hl & [= <- <-]). quiet C Hi Hp.
  - apply bind_Some in Hr as (l & Hl & [= <- <-]). case_match; quiet C Hi Hp.
  - apply bind_Some in Hr as (l & Hl & [= <- <-]). quiet C Hi Hp.
  - apply bind_Some in Hr as (l & Hl & [= <- <-]). case_match; quiet C Hi Hp.
  - injection Hr as <- <-. quiet C Hi Hp. by intros temp [= <-].
  - rewrite Hid in Hr. case_match; [|done]. injection Hr as <- <-. by apply (counts_write _ _ _ t).
  - injection Hr as <- <-. destruct (Z.ltb_spec ITER (count g)); quiet C Hi Hp. right. lia.
  - injection Hr as <- <-. quiet C Hi Hp.
  - rewrite Hid in Hr. case_match; [|done]. injection Hr as <- <-. quiet C Hi Hp.
  - injection Hr as <- <-. destruct (shutdown g) eqn:Hsd; quiet C Hi Hp;
      left; unfold late; rewrite Hp, Hsd; simpl; done.
Qed.

Lemma counts_main c c' : all_inv c → counts (gl c) (threads c) → main_step c = Some c' → counts (gl c') (threads c').
Proof.
  intros [I Hm] C Hs. destruct (v_len _ _ I) as (L1 & L2 & L3 & L4).
  assert (H0 : 0 ≤ chosen (gl c)) by (pose proof (n_labels _ _ C 0); lia).
  destruct c as [g ths m]. simpl in *. unfold main_step in Hs. simpl in Hs.
  destruct m as [i|i|i|i|i|]; simpl in Hm; try done.
  - case_match; injection Hs as <-; [split; apply C|done].
  - injection Hs as <-. split; simpl; try apply C. intros k. unfold lab. simpl.
    destruct (decide (k = i)) as [->|?].
    + rewrite list_lookup_insert_eq by lia. simpl. lia.
    + rewrite list_lookup_insert_ne by done. apply C.
  - case_match; injection Hs as <-; [split; apply C|done].
  - injection Hs as <-. destruct Hm as (Hi & _ & Hm).
    destruct (lookup_lt_is_Some_2 ths i ltac:(lia)) as [t Hit]. pose proof (Hm i t ltac:(lia) Hit) as Hp.
    quiet C Hit Hp.
  - case_match; [|by injection Hs as <-]. apply bind_Some in Hs as (t & _ & Hs).
    destruct (at_pc t); try done; by injection Hs as <-.
Qed.

Lemma reachable_counts c : rtc step init c → counts (gl c) (threads c).
Proof.
  intros Hr. assert (all_inv c ∧ counts (gl c) (threads c)) as [_ H]; [|done]. revert c Hr.
  apply (rtc_ind_r (λ c, all_inv c ∧ counts (gl c) (threads c))).
  - split; [apply bakery_inv_start|]. simpl. assert (Hz : ∀ f, f (mk_thread 0 NotCreated) = 0 →
      tally f (replicate N (mk_thread 0 NotCreated)) = 0).
    { intros f Hf. rewrite (tally_const f 0); [lia|]. by apply Forall_replicate. }
    split; simpl; rewrite ?Hz; try done.
    + intros k. unfold lab. simpl. destruct (replicate N 0 !! k) as [z|] eqn:E; [|done].
      apply lookup_replicate in E as [-> _]. done.
    + by intros i t [-> _]%lookup_replicate.
    + by intros i t temp [-> _]%lookup_replicate.
  - intros c c' _ Hs [A C]. split; [by eapply step_keeps|]. destruct Hs as [i t g' t' Hi Hr|c1 Hm].
    + simpl. eapply counts_thread; [apply A|done..].
    + by eapply counts_main.
Qed.

(** ** What the lock gives *)

(** C10: Two threads are never in the critical section together. *)
Theorem bakery_mutual_exclusion c a b ta tb :
  rtc step init c → threads c !! a = Some ta → threads c !! b = Some tb →
  in_cs (at_pc ta) = true → in_cs (at_pc tb) = true → a = b.
Proof. intros Hr. eapply bakery_exclusive, (bakery_reachable_inv c Hr). Qed.

(** C36: No increment of [count] is lost; the program makes at most [ITER + N] of them
    and no label exceeds [ITER + 2 N]; so no [int] overflows, no thread leaves the
    arrays, and a created thread that has not finished can always step. *)
Theorem bakery_counts c :
  rtc step init c → ITER + 2 * Z.of_nat N < 2 ^ 31 - 1 →
  count (gl c) = entries (gl c) ∧ count (gl c) ≤ ITER + Z.of_nat N ∧
  (∀ k l, label (gl c) !! k = Some l → 0 ≤ l ≤ ITER + 2 * Z.of_nat N) ∧
  ∀ i t, threads c !! i = Some t → at_pc t ≠ NotCreated → at_pc t ≠ B_done → is_Some (routine i t (gl c)).
Proof.
  intros Hr HN. destruct (bakery_reachable_inv c Hr) as [I _]. pose proof (reachable_counts c Hr) as C.
  destruct (v_len _ _ I) as (L1 & L2 & L3 & L4). destruct (n_count _ _ C) as [Hn H0].
  pose proof (tally_upto (late (shutdown (gl c))) (threads c) (late_bounds _)).
  pose proof (tally_upto queued (threads c) queued_bounds).
  pose proof (n_late _ _ C). pose proof (n_chosen _ _ C). split_and!; [done|lia|..].
  - intros k l Hl. pose proof (n_labels _ _ C k) as Hk. rewrite (lab_at _ _ _ Hl) in Hk. lia.
  - intros i t Hi Hnc Hnd. apply lookup_lt_Some in Hi as HiN.
    pose proof (v_id _ _ I i t Hi) as Hid. pose proof (v_local _ _ I i t Hi) as Hloc.
    pose proof (n_max _ _ C i t Hi) as Hm. pose proof (n_temp _ _ C i t) as Ht.
    assert (Hlab : ∀ k, (k < N)%nat → is_Some (label (gl c) !! k)) by (intros; apply lookup_lt_is_Some; lia).
    assert (Hi32 : ∀ z, 0 ≤ z ≤ ITER + 2 * Z.of_nat N + 1 → is_i32 z = true).
    { intros z Hz. unfold is_i32. apply andb_true_intro. split; lia. }
    assert (Hb : ∀ A B (o : option A) (f : A → B), is_Some o → is_Some (x ← o; Some (f x)))
      by (intros A B o f [x ->]; by eexists).
    unfold routine. destruct (at_pc t) as [| | |k m|k m|m|k|k|k lk|k|k lk| |temp| | | | |] eqn:Hp;
      simpl in *; rewrite ?Hid in *; try done; try (apply Hb, Hlab; lia).
    + destruct (Nat.ltb_spec i (length (flag (gl c)))); [done|lia].
    + destruct (Nat.ltb_spec k N); [|done]. by apply Hb, Hlab.
    + destruct (Nat.ltb_spec i (length (label (gl c)))); [|lia]. rewrite Hi32 by lia. done.
    + destruct (Nat.ltb_spec k N); [|done]. destruct (k =? i)%nat; [done|]. apply Hb, lookup_lt_is_Some. lia.
    + rewrite (Ht temp Hi eq_refl), Hi32 by lia. done.
    + destruct (Nat.ltb_spec i (length (flag (gl c)))); [done|lia].
Qed.

(** ** First come, first served *)

Definition waiting (p : pc) : bool := labelled p && negb (in_cs p).
Definition waits (a : nat) (c : config) : Prop :=
  ∃ ta, threads c !! a = Some ta ∧ waiting (at_pc ta) = true.

(** Steps during which thread [a] keeps waiting. *)
Definition while_waiting (a : nat) (c c' : config) : Prop := step c c' ∧ waits a c'.

(** A step of thread [i] changes no other label, and its own only before the wait. *)
Lemma routine_lab i t g g' t' :
  routine i t g = Some (g', t') → (started (at_pc t) = true → my_id t = i) →
  (∀ k, k ≠ i → lab g' k = lab g k) ∧ (labelled (at_pc t) = true → lab g' i = lab g i).
Proof.
  intros Hr Hid.
  assert (H : label g' = label g ∨
    (∃ m, at_pc t = B_label m ∧ label g' = <[my_id t := m + 1]> (label g))).
  { unfold routine in Hr. destruct (at_pc t); simpl in Hr; try done;
      repeat (case_match; simpl in Hr; try discriminate Hr);
      try (apply bind_Some in Hr as (? & _ & Hr)); injection Hr as <- _; eauto. }
  unfold lab. destruct H as [->|(m & Hp & ->)]; [done|]. rewrite Hp in Hid |- *. simpl in *.
  rewrite Hid by done. split; [|done]. intros k Hk. by rewrite list_lookup_insert_ne.
Qed.

(** What thread [b] knows of a label [l] that was there before it set its flag. *)
Definition served_later (l lb : Z) (a : nat) (p : pc) : Prop :=
  match p with
  | B_max k m | B_max_set k m => (a < k)%nat → l ≤ m
  | B_label m => l ≤ m
  | B_scan k | B_less k => (k ≤ a)%nat ∧ l < lb
  | B_less_own k lk => (k ≤ a)%nat ∧ l < lb ∧ (k = a → lk = l)
  | B_equal k | B_equal_own k _ => (k < a)%nat ∧ l < lb
  | _ => flagged p = false
  end.

Lemma served_later_step g ths a b ta t g' t' :
  inv g ths → a ≠ b → ths !! a = Some ta → waiting (at_pc ta) = true → ths !! b = Some t →
  routine b t g = Some (g', t') →
  served_later (lab g a) (lab g b) a (at_pc t) → served_later (lab g' a) (lab g' b) a (at_pc t').
Proof.
  intros I Hab Ha Hw Hb Hr Hs. destruct (v_len _ _ I) as (L1 & L2 & L3 & L4).
  pose proof (lookup_lt_Some _ _ _ Ha) as HaN. pose proof (lookup_lt_Some _ _ _ Hb) as HbN.
  pose proof (v_id _ _ I b t Hb) as Hid. pose proof (v_local _ _ I b t Hb) as Hloc.
  assert (Hfa : flag g !! a = Some true).
  { rewrite (v_flag _ _ I a ta Ha). by destruct (at_pc ta). }
  destruct (routine_lab _ _ _ _ _ Hr) as [Hla Hlb].
  { intros E. by rewrite E in Hid. }
  rewrite (Hla a Hab). clear Hla.
  unfold routine in Hr.
  destruct (at_pc t) as [| | |k m|k m|m|k|k|k lk|k|k lk| |temp| | | | |] eqn:Hp; simpl in *; try done.
  - by apply bind_Some in Hr as (v & _ & [= _ <-]).
  - case_match; [|done]. injection Hr as _ <-. simpl. lia.
  - destruct (Nat.ltb_spec k N) as [HkN|HkN]; [|injection Hr as _ <-; simpl; apply Hs; lia].
    apply bind_Some in Hr as (l & Hl%lab_at & [= _ <-]).
    destruct (Z.ltb_spec m l); simpl; [done|]. intros Hak.
    destruct (decide (a = k)) as [->|?]; [lia|]. apply Hs. lia.
  - apply bind_Some in Hr as (l & Hl%lab_at & [= _ <-]). simpl. intros Hak.
    destruct (decide (a = k)) as [->|?]; [lia|]. specialize (Hs ltac:(lia)). lia.
  - rewrite Hid in Hr. destruct (Nat.ltb_spec b (length (label g))); [|done].
    destruct (is_i32 (m + 1)); [|done]. injection Hr as <- <-. simpl. split; [lia|].
    unfold lab at 2. simpl. rewrite list_lookup_insert_eq by done. simpl. lia.
  - rewrite Hlb by done. destruct (Nat.ltb_spec k N); [|lia].
    destruct (Nat.eqb_spec k (my_id t)) as [Hk|Hk]; [injection Hr as _ <-; simpl; lia|].
    apply bind_Some in Hr as (f & Hf & [= _ <-]). destruct f; simpl; [lia|].
    destruct (decide (k = a)) as [->|?]; [congruence|lia].
  - rewrite Hlb by done. apply bind_Some in Hr as (l & Hl%lab_at & [= _ <-]). simpl.
    split_and!; [lia|lia|]. by intros ->.
  - rewrite Hlb by done. apply bind_Some in Hr as (l & Hl%lab_at & [= _ <-]). rewrite Hid in Hl.
    destruct Hs as (Hk & Hl' & Hlk). destruct (Z.ltb_spec lk l); simpl; [lia|]. split; [|done].
    destruct (decide (k = a)) as [->|?]; [specialize (Hlk eq_refl); lia|lia].
  - rewrite Hlb by done. apply bind_Some in Hr as (l & Hl%lab_at & [= _ <-]). simpl. lia.
  - rewrite Hlb by done. apply bind_Some in Hr as (l & Hl%lab_at & [= _ <-]).
    case_match; simpl; lia.
  - injection Hr as _ <-. case_match; done.
Qed.

Definition later_inv (a b : nat) (c : config) : Prop :=
  all_inv c ∧ waits a c ∧
  ∃ tb, threads c !! b = Some tb ∧ served_later (lab (gl c) a) (lab (gl c) b) a (at_pc tb).

Lemma later_main a b c c' :
  a ≠ b → later_inv a b c → main_step c = Some c' → waits a c' → later_inv a b c'.
Proof.
  intros Hab (A & (ta & Ha & Hw) & tb & Hb & Hs) Hm Hw'. split_and!; [by eapply main_keeps|done|].
  destruct A as [I Hmo]. destruct c as [g ths m]. simpl in *. unfold main_step in Hm. simpl in Hm.
  destruct m as [i|i|i|i|i|]; simpl in Hmo; try done.
  - by rewrite (Hmo a ta Ha) in Hw.
  - destruct Hmo as [_ Hmo]. by rewrite (Hmo a ta Ha) in Hw.
  - case_match; injection Hm as <-; eauto.
  - injection Hm as <-. simpl. destruct Hmo as (Hi & _ & Hn). destruct (decide (b = i)) as [->|Hne].
    + exists (mk_thread 0 B_start). split; [|done]. apply list_lookup_insert_eq. by eapply lookup_lt_Some.
    + exists tb. by rewrite list_lookup_insert_ne.
  - case_match; [|injection Hm as <-; eauto]. apply bind_Some in Hm as (t & _ & Hm).
    destruct (at_pc t); try done; injection Hm as <-; eauto.
Qed.

Lemma later_step a b c c' : a ≠ b → later_inv a b c → while_waiting a c c' → later_inv a b c'.
Proof.
  intros Hab J [Hs Hw']. destruct Hs as [i t g' t' Hi Hr|c1 Hm]; [|by apply (later_main a b c)].
  destruct J as (A & (ta & Ha & Hw) & tb & Hb & Hl). destruct A as [I Hmo].
  split_and!; [by apply (step_keeps c); [split|eapply step_thread]|done|]. simpl in *.
  destruct (routine_lab _ _ _ _ _ Hr) as [Hla Hlb].
  { intros E. pose proof (v_id _ _ I i t Hi) as Hid. by rewrite E in Hid. }
  destruct (decide (b = i)) as [->|Hbi].
  - rewrite Hi in Hb. injection Hb as ->. exists t'. split.
    + apply list_lookup_insert_eq. by eapply lookup_lt_Some.
    + by eapply (served_later_step (gl c) (threads c) a i ta).
  - exists tb. rewrite list_lookup_insert_ne by done. split; [done|]. rewrite (Hla b Hbi).
    destruct (decide (a = i)) as [->|Hai]; [|by rewrite (Hla a Hai)].
    rewrite Ha in Hi. injection Hi as ->. rewrite Hlb; [done|].
    unfold waiting in Hw. apply andb_true_iff in Hw as [? _]. done.
Qed.

(** C24: A thread that sets its flag while [a] waits with its label does not enter the
    critical section before [a] has. *)
Theorem bakery_first_come c c' a b tb tb' :
  rtc step init c → waits a c → threads c !! b = Some tb → flagged (at_pc tb) = false →
  rtc (while_waiting a) c c' → threads c' !! b = Some tb' → in_cs (at_pc tb') = false.
Proof.
  intros Hr Hw Hb Hf Hrun Hb'. assert (Hab : a ≠ b).
  { intros ->. destruct Hw as (ta & Ha & Hw). rewrite Hb in Ha. injection Ha as <-.
    by destruct (at_pc tb). }
  assert (J : later_inv a b c).
  { split_and!; [by apply bakery_reachable_inv|done|]. exists tb. split; [done|]. by destruct (at_pc tb). }
  assert (J' : later_inv a b c').
  { clear -Hab J Hrun. induction Hrun as [|c c1 c2 Hs _ IH]; [done|]. apply IH. by apply (later_step a b c). }
  destruct J' as (_ & _ & tb2 & Hb2 & Hl). rewrite Hb' in Hb2. injection Hb2 as <-. by destruct (at_pc tb').
Qed.

(** ** Running the program *)

(** [None] is a step of main, [Some i] one of thread [i]. *)
Definition sched_step (c : config) (who : option nat) : option config :=
  match who with
  | None => main_step c
  | Some i =>
      t ← threads c !! i;
      '(g', t') ← routine i t (gl c);
      Some (mk_config g' (<[i := t']> (threads c)) (mpc c))
  end.
Fixpoint sched_run (ws : list (option nat)) (c : config) : option config :=
  match ws with [] => Some c | w :: ws' => c' ← sched_step c w; sched_run ws' c' end.

Lemma sched_step_ok c w c' : sched_step c w = Some c' → step c c'.
Proof.
  destruct w as [i|]; simpl; [|by apply step_main].
  intros (t & Hi & H)%bind_Some. apply bind_Some in H as ([g' t'] & Hr & [= <-]). by eapply step_thread.
Qed.

Lemma sched_run_ok ws c c' : sched_run ws c = Some c' → rtc step c c'.
Proof.
  revert c. induction ws as [|w ws IH]; intros c; simpl; [by intros [= ->]|].
  intros (c1 & H1 & H2)%bind_Some. eapply rtc_l; [by eapply sched_step_ok|by apply IH].
Qed.

(** A run during which thread [a] waits all the time. *)
Definition waits_b (a : nat) (c : config) : bool :=
  match threads c !! a with Some t => waiting (at_pc t) | None => false end.
Fixpoint run_while (a : nat) (ws : list (option nat)) (c : config) : option config :=
  match ws with
  | [] => Some c
  | w :: ws' => c' ← sched_step c w; if waits_b a c' then run_while a ws' c' else None
  end.

Lemma waits_b_ok a c : waits_b a c = true → waits a c.
Proof. unfold waits_b, waits. destruct (threads c !! a); [eauto|done]. Qed.

Lemma run_while_ok a ws c c' : run_while a ws c = Some c' → rtc (while_waiting a) c c'.
Proof.
  revert c. induction ws as [|w ws IH]; intros c; simpl; [by intros [= ->]|].
  intros (c1 & H1 & H2)%bind_Some. destruct (waits_b a c1) eqn:E; [|done].
  eapply rtc_l; [split; [by eapply sched_step_ok|by apply waits_b_ok]|by apply IH].
Qed.
End Lock.

(** ** The theorems at a run of the three threads

    Main creates the threads; thread 0 takes label 1 and enters, thread 1 takes
    label 2 and waits, then thread 2 begins. *)
Definition run_schedule : list (option nat) :=
  replicate 14 None ++ replicate 14 (Some 0%nat) ++ replicate 14 (Some 1%nat).
Definition first_in : config := default (init N_THREAD) (sched_run N_THREAD run_schedule (init N_THREAD)).
Definition later_in : config := default first_in (sched_run N_THREAD (replicate 14 (Some 2%nat)) first_in).

Lemma first_reached : rtc (step N_THREAD) (init N_THREAD) first_in.
Proof. apply (sched_run_ok N_THREAD run_schedule). vm_compute. reflexivity. Qed.

Lemma bakery_mutual_exclusion_witness : in_cs B_check = true ∧ 0%nat = 0%nat.
Proof.
  split; [reflexivity|].
  apply (bakery_mutual_exclusion N_THREAD first_in 0 0 (mk_thread 0 B_check) (mk_thread 0 B_check));
    [apply first_reached|vm_compute; reflexivity..].
Defined.

Lemma bakery_counts_witness :
  count (gl first_in) = 1 ∧ count (gl first_in) = entries (gl first_in) ∧ count (gl first_in) ≤ ITER + 3 ∧
  (∀ k l, label (gl first_in) !! k = Some l → 0 ≤ l ≤ ITER + 2 * 3) ∧
  ∀ i t, threads first_in !! i = Some t → at_pc t ≠ NotCreated → at_pc t ≠ B_done →
    is_Some (routine N_THREAD i t (gl first_in)).
Proof.
  split; [vm_compute; reflexivity|].
  apply (bakery_counts N_THREAD first_in); [apply first_reached|vm_compute; reflexivity].
Defined.

Lemma bakery_first_come_witness : threads later_in !! 2%nat = Some (mk_thread 2 (B_less_own 0 1)) ∧
  in_cs (B_less_own 0 1) = false.
Proof.
  split; [vm_compute; reflexivity|].
  apply (bakery_first_come N_THREAD first_in later_in 1 2 (mk_thread 0 B_start) (mk_thread 2 (B_less_own 0 1))).
  - apply first_reached.
  - apply waits_b_ok. vm_compute. reflexivity.
  - vm_compute. reflexivity.
  - reflexivity.
  - apply (run_while_ok N_THREAD 1 (replicate 14 (Some 2%nat))). vm_compute. reflexivity.
  - vm_compute. reflexivity.
Defined.
End BakeryLock.
