(* ===== verification/Mandelbrot.v ===== *)
(** * Mandelbrot: the render task of the demo server (demo/mandelbrot.c)

    The image buffer is a list of bytes; every write is checked against its
    bounds, [int] arithmetic is checked and [size_t] arithmetic wraps.  The type
    [double] is IEEE binary64 as SpecFloat computes it (round to nearest even,
    every operation rounded). *)
From S2P Require Export Prelude.
From Stdlib Require Import SpecFloat.
Local Open Scope Z_scope.

Module Mandelbrot.

(** ** Doubles *)

Definition double : Type := spec_float.
Definition dadd : double → double → double := SFadd 53 1024.
Definition dsub : double → double → double := SFsub 53 1024.
Definition dmul : double → double → double := SFmul 53 1024.
Definition ddiv : double → double → double := SFdiv 53 1024.
Definition dleb : double → double → bool := SFleb.
Definition of_int (z : Z) : double := binary_normalize 53 1024 z 0 false.
(** The literal nearest to [p / q]. *)
Definition lit (p q : Z) : double := ddiv (of_int p) (of_int q).

(** ** Writing to the buffer *)

Definition BMP_HEADER_SIZE : Z := 54.

Abbreviation BM := (M (list Z)).

(** [p[i] = b] for a byte pointer into the buffer. *)
Definition poke (i b : Z) : BM unit :=
  a ← get;
  a' ← lift (arr_set a i b);
  put a'.

Definition put_u16 (p v : Z) : BM unit :=
  poke p (u8 (Z.land v 0xff));;
  poke (p + 1) (u8 (Z.land (Z.shiftr v 8) 0xff)).

Definition put_u32 (p v : Z) : BM unit :=
  poke p (u8 (Z.land v 0xff));;
  poke (p + 1) (u8 (Z.land (Z.shiftr v 8) 0xff));;
  poke (p + 2) (u8 (Z.land (Z.shiftr v 16) 0xff));;
  poke (p + 3) (u8 (Z.land (Z.shiftr v 24) 0xff)).

Definition color_pixel (iter max_iter bgr : Z) : BM unit :=
  if max_iter <=? iter then
    poke bgr 8;; poke (bgr + 1) 8;; poke (bgr + 2) 12
  else
    n ← lift (chk_i32 (iter * 255));
    let t := Z.quot n max_iter in
    b ← lift (chk_i32 (t * 120));
    poke bgr (u8 (80 + Z.quot b 255));;
    g ← lift (chk_i32 (t * t));
    poke (bgr + 1) (u8 (Z.quot g 255));;
    poke (bgr + 2) (u8 (255 - Z.quot t 3)).

(** ** The escape time *)

(** The loop of lines 75-80; it runs at most [max_iter] times. *)
Fixpoint escape (fuel : nat) (cx cy zx zy : double) (iter max_iter : Z) : Z :=
  match fuel with
  | O => iter
  | S fuel' =>
      if dleb (dadd (dmul zx zx) (dmul zy zy)) (of_int 4) && (iter <? max_iter) then
        let nx := dadd (dsub (dmul zx zx) (dmul zy zy)) cx in
        let zy' := dadd (dmul (dmul (of_int 2) zx) zy) cy in
        escape fuel' cx cy nx zy' (iter + 1) max_iter
      else iter
  end.

Definition cy_of (y height : Z) : double :=
  dsub (dmul (ddiv (of_int y) (of_int (height - 1))) (lit 24 10)) (lit 12 10).
Definition cx_of (x width : Z) : double :=
  dsub (dmul (ddiv (of_int x) (of_int (width - 1))) (lit 35 10)) (lit 25 10).

Definition iterations (x y width height max_iter : Z) : Z :=
  escape (Z.to_nat max_iter) (cx_of x width) (cy_of y height) (of_int 0) (of_int 0) 0 max_iter.

(** ** The image *)

(** [~3u] is an [unsigned]: widened to [size_t] its upper half is zero. *)
Definition row_size (width : Z) : Z := Z.land (u64 (width * 3 + 3)) (u32 (Z.lnot 3)).

Fixpoint draw_row (left : nat) (x y dst width height max_iter : Z) : BM unit :=
  match left with
  | O => mret tt
  | S left' =>
      color_pixel (iterations x y width height max_iter) max_iter (dst + u64 (x * 3));;
      draw_row left' (x + 1) y dst width height max_iter
  end.

Fixpoint draw_rows (left : nat) (y row width height max_iter : Z) : BM unit :=
  match left with
  | O => mret tt
  | S left' =>
      let dst := BMP_HEADER_SIZE + u64 (u64 (height - 1 - y) * row) in
      draw_row (Z.to_nat width) 0 y dst width height max_iter;;
      draw_rows left' (y + 1) row width height max_iter
  end.

(** [out] and [out_len] say whether the pointers are not NULL, [calloc_ok] whether
    the allocation succeeds; [None] is the result -1. *)
Definition mandelbrot_bmp (out out_len calloc_ok : bool) (width height max_iter : Z)
    : res (option (list Z)) :=
  if negb out || negb out_len || (width <=? 0) || (height <=? 0) || (max_iter <=? 0) then Ok None else
  let row := row_size width in
  let pixels := u64 (row * u64 height) in
  let total := u64 (BMP_HEADER_SIZE + pixels) in
  if total <? pixels then Ok None else
  if negb calloc_ok then Ok None else
  '(_, bmp) ←
    (poke 0 66;;                               (* 'B' *)
     poke 1 77;;                               (* 'M' *)
     put_u32 2 (u32 total);;
     put_u32 10 BMP_HEADER_SIZE;;
     put_u32 14 40;;
     put_u32 18 (u32 width);;
     put_u32 22 (u32 height);;
     put_u16 26 1;;
     put_u16 28 24;;
     put_u32 34 (u32 pixels);;
     draw_rows (Z.to_nat height) 0 row width height max_iter) (replicate (Z.to_nat total) 0);
  Ok (Some bmp).

(** ** The reference image *)

(** Little-endian bytes. *)
Fixpoint le_bytes (n : nat) (v : Z) : list Z :=
  match n with O => [] | S n' => v mod 256 :: le_bytes n' (v / 256) end.
Fixpoint le_value (bs : list Z) : Z :=
  match bs with [] => 0 | b :: bs' => b + 256 * le_value bs' end.

Definition shade (iter max_iter : Z) : list Z :=
  if max_iter <=? iter then [8; 8; 12]
  else let t := iter * 255 / max_iter in [80 + t * 120 / 255; t * t / 255; 255 - t / 3].

(** The number of padding bytes that bring a row to a multiple of four. *)
Definition padding (width : Z) : Z := (- (width * 3)) mod 4.

Definition image_row (width height max_iter y : Z) : list Z :=
  concat ((λ x, shade (iterations x y width height max_iter) max_iter) <$> seqZ 0 width) ++
  replicate (Z.to_nat (padding width)) 0.

Definition header (width height total pixels : Z) : list Z :=
  [66; 77] ++ le_bytes 4 total ++ replicate 4 0 ++ le_bytes 4 54 ++ le_bytes 4 40 ++
  le_bytes 4 width ++ le_bytes 4 height ++ le_bytes 2 1 ++ le_bytes 2 24 ++ replicate 4 0 ++
  le_bytes 4 pixels ++ replicate 16 0.

(** Rows go from the bottom of the picture to its top. *)
Definition image (width height max_iter : Z) : list Z :=
  let pixels := (width * 3 + padding width) * height in
  header width height (54 + pixels) pixels ++
  concat (image_row width height max_iter <$> reverse (seqZ 0 height)).

(** ** Writes in range *)

Lemma poke_ok i b a :
  0 ≤ i < Z.of_nat (length a) → poke i b a = Ok (tt, <[Z.to_nat i := b]> a).
Proof.
  intros Hi. unfold poke, arr_set. munfold.
  replace ((i <? 0) || (Z.of_nat (length a) <=? i)) with false by lia. done.
Qed.

Lemma poke_at (l r : list Z) i b0 b :
  i = Z.of_nat (length l) → poke i b (l ++ b0 :: r) = Ok (tt, l ++ b :: r).
Proof.
  intros ->. rewrite poke_ok by (rewrite length_app; simpl; lia).
  rewrite Nat2Z.id. by rewrite insert_app_r_alt, Nat.sub_diag by lia.
Qed.

(** Consecutive writes. *)
Fixpoint pokes (p : Z) (bs : list Z) : BM unit :=
  match bs with [] => mret tt | b :: bs' => poke p b;; pokes (p + 1) bs' end.

Lemma pokes_at (bs l old r : list Z) p :
  p = Z.of_nat (length l) → length old = length bs →
  pokes p bs (l ++ old ++ r) = Ok (tt, l ++ bs ++ r).
Proof.
  revert l old p. induction bs as [|b bs IH]; intros l [|o old] p Hp Hl; try done.
  simpl. erewrite M_bind_ok by (by apply poke_at).
  replace (l ++ b :: old ++ r) with ((l ++ [b]) ++ old ++ r) by (by rewrite <- app_assoc).
  rewrite IH; [by rewrite <- app_assoc|rewrite length_app; simpl; lia|by injection Hl].
Qed.

Lemma pokes_last p b a : pokes p [b] a = poke p b a.
Proof. simpl. munfold. by destruct (poke p b a) as [[[] ?]| |]. Qed.

Lemma byte_of v n : 0 ≤ n → u8 (Z.land (Z.shiftr v n) 0xff) = (v / 2 ^ n) mod 256.
Proof.
  intros Hn. change 0xff with (Z.ones 8). rewrite Z.land_ones by lia. rewrite Z.shiftr_div_pow2 by done.
  unfold u8. apply Z.mod_mod. lia.
Qed.
Lemma byte_of_0 v : u8 (Z.land v 0xff) = v mod 256.
Proof. change 0xff with (Z.ones 8). rewrite Z.land_ones by lia. unfold u8. apply Z.mod_mod. lia. Qed.

Lemma le_bytes_4 v :
  le_bytes 4 v = [v mod 256; (v / 2 ^ 8) mod 256; (v / 2 ^ 16) mod 256; (v / 2 ^ 24) mod 256].
Proof. simpl. rewrite !Z.div_div by lia. done. Qed.

Lemma put_u16_pokes p v a : put_u16 p v a = pokes p (le_bytes 2 v) a.
Proof.
  unfold put_u16. rewrite (byte_of_0 v), byte_of by lia. cbn [le_bytes pokes].
  unfold mbind at 1 2, M_bind at 1 2. destruct (poke p _ a) as [[[] a1]| |]; try done.
  symmetry. apply pokes_last.
Qed.

Lemma put_u32_pokes p v a : put_u32 p v a = pokes p (le_bytes 4 v) a.
Proof.
  unfold put_u32. rewrite (byte_of_0 v), !byte_of, le_bytes_4 by lia. cbn [pokes].
  replace (p + 1 + 1) with (p + 2) by lia. replace (p + 2 + 1) with (p + 3) by lia.
  unfold mbind, M_bind. destruct (poke p _ a) as [[[] a1]| |]; try done.
  destruct (poke (p + 1) _ a1) as [[[] a2]| |]; try done.
  destruct (poke (p + 2) _ a2) as [[[] a3]| |]; try done. symmetry. apply pokes_last.
Qed.

Lemma shade_range iter max_iter :
  0 ≤ iter < max_iter → max_iter * 255 < 2 ^ 31 →
  let t := iter * 255 / max_iter in
  0 ≤ t < 255 ∧ Z.quot (iter * 255) max_iter = t ∧ is_i32 (iter * 255) = true ∧
  is_i32 (t * 120) = true ∧ is_i32 (t * t) = true.
Proof.
  intros Hi Hm t. assert (Ht : 0 ≤ t < 255).
  { split; [apply Z.div_pos; lia|]. apply Z.div_lt_upper_bound; nia. }
  split_and!; try lia; [by rewrite Z.quot_div_nonneg by lia|..]; unfold is_i32; apply andb_true_intro;
    split; nia.
Qed.

Lemma color_pixel_pokes iter max_iter p a :
  0 ≤ iter ≤ max_iter → 0 < max_iter → max_iter * 255 < 2 ^ 31 →
  color_pixel iter max_iter p a = pokes p (shade iter max_iter) a.
Proof.
  intros Hi H0 Hm. unfold color_pixel, shade. destruct (Z.leb_spec max_iter iter).
  - cbn [pokes]. replace (p + 1 + 1) with (p + 2) by lia.
    unfold mbind, M_bind. destruct (poke p _ a) as [[[] a1]| |]; try done.
    destruct (poke (p + 1) _ a1) as [[[] a2]| |]; try done. symmetry. apply pokes_last.
  - destruct (shade_range iter max_iter ltac:(lia) Hm) as (Ht & Hq & Hn & Hb & Hg).
    set (t := iter * 255 / max_iter) in *. unfold chk_i32. rewrite Hn. cbn [lift].
    erewrite M_bind_ok by done. rewrite Hq, Hb. erewrite M_bind_ok by done. rewrite Hg.
    assert (E1 : u8 (80 + Z.quot (t * 120) 255) = 80 + t * 120 / 255).
    { assert (0 ≤ t * 120 / 255 ≤ 120)
        by (split; [apply Z.div_pos; lia|apply Z.div_le_upper_bound; lia]).
      rewrite Z.quot_div_nonneg by lia. apply Z.mod_small. lia. }
    assert (E2 : u8 (Z.quot (t * t) 255) = t * t / 255).
    { rewrite Z.quot_div_nonneg by nia. apply Z.mod_small.
      split; [apply Z.div_pos; nia|]. apply Z.div_lt_upper_bound; nia. }
    assert (E3 : u8 (255 - Z.quot t 3) = 255 - t / 3).
    { assert (0 ≤ t / 3 ≤ 85) by (split; [apply Z.div_pos; lia|apply Z.div_le_upper_bound; lia]).
      rewrite Z.quot_div_nonneg by lia. apply Z.mod_small. lia. }
    rewrite E1, E3.
    cbn [pokes]. replace (p + 1 + 1) with (p + 2) by lia.
    unfold mbind, M_bind, lift, res_bind, mbind. destruct (poke p _ a) as [[[] a1]| |]; try done.
    rewrite E2. destruct (poke (p + 1) _ a1) as [[[] a2]| |]; try done. symmetry. apply pokes_last.
Qed.

(** ** The loops *)

Lemma length_shade iter max_iter : length (shade iter max_iter) = 3%nat.
Proof. unfold shade. by destruct (_ <=? _). Qed.

Lemma escape_bounds fuel cx cy zx zy iter max_iter :
  iter ≤ max_iter → iter ≤ escape fuel cx cy zx zy iter max_iter ≤ max_iter.
Proof.
  revert zx zy iter. induction fuel as [|fuel IH]; intros zx zy iter Hi; simpl; [lia|].
  destruct (dleb _ _); simpl; [|lia]. destruct (Z.ltb_spec iter max_iter); [|lia].
  match goal with |- context [escape fuel cx cy ?a ?b _ _] => pose proof (IH a b (iter + 1) ltac:(lia)) end. lia.
Qed.

Lemma iterations_bounds x y width height max_iter :
  0 < max_iter → 0 ≤ iterations x y width height max_iter ≤ max_iter.
Proof. intros H. apply escape_bounds. lia. Qed.

Section Loops.
Context (width height max_iter : Z).
Hypothesis Hw : 0 < width.
Hypothesis Hh : 0 < height < 2 ^ 31.
Hypothesis Hm : 0 < max_iter ∧ max_iter * 255 < 2 ^ 31.
Hypothesis Hsize : (width * 3 + 3) * height < 2 ^ 32.

Definition pixel (y x : Z) : list Z := shade (iterations x y width height max_iter) max_iter.

Lemma draw_row_ok left x y dst (l r : list Z) :
  0 ≤ x → x + Z.of_nat left ≤ width → Z.of_nat (length l) = dst + x * 3 →
  draw_row left x y dst width height max_iter (l ++ replicate (3 * left) 0 ++ r) =
  Ok (tt, l ++ concat (pixel y <$> seqZ x (Z.of_nat left)) ++ r).
Proof.
  revert x l. induction left as [|left IH]; intros x l Hx Hlt Hl; [done|].
  rewrite seqZ_cons by lia. cbn [draw_row]. rewrite fmap_cons. cbn [concat].
  replace (3 * S left)%nat with (3 + 3 * left)%nat by lia. rewrite replicate_add, <- app_assoc.
  assert (Hu : u64 (x * 3) = x * 3).
  { apply Z.mod_small. nia. }
  erewrite M_bind_ok.
  2:{ rewrite color_pixel_pokes; [|apply iterations_bounds; lia|lia|lia].
      apply pokes_at; [by rewrite Hu, Hl|by rewrite length_shade]. }
  rewrite app_assoc, (IH (x + 1)); [|lia|lia|].
  - rewrite <- !app_assoc. by replace (Z.pred (Z.of_nat (S left))) with (Z.of_nat left) by lia.
  - rewrite length_app, length_shade. lia.
Qed.

Lemma row_size_padded : row_size width = width * 3 + padding width.
Proof.
  unfold row_size, padding. assert (Hb : width * 3 + 3 < 2 ^ 32) by nia.
  unfold u64. rewrite Z.mod_small by lia.
  replace (u32 (Z.lnot 3)) with (Z.shiftl (Z.ones 30) 2) by reflexivity.
  assert (E : Z.land (width * 3 + 3) (Z.shiftl (Z.ones 30) 2) = Z.shiftl ((width * 3 + 3) / 2 ^ 2) 2).
  { rewrite <- Z.shiftr_div_pow2 by lia. apply Z.bits_inj'. intros n Hn. rewrite Z.land_spec.
    destruct (Z.ltb_spec n 2).
    - rewrite !Z.shiftl_spec_low by lia. by rewrite andb_false_r.
    - rewrite !Z.shiftl_spec_high, Z.shiftr_spec by lia. replace (n - 2 + 2) with n by lia.
      destruct (Z.ltb_spec n 32).
      + rewrite Z.ones_spec_low by lia. by rewrite andb_true_r.
      + rewrite Z.ones_spec_high by lia. rewrite andb_false_r. symmetry.
        apply Z.bits_above_log2; [lia|]. apply Z.log2_lt_pow2; [lia|].
        pose proof (Z.pow_le_mono_r 2 32 n ltac:(lia) ltac:(lia)). lia. }
  rewrite E, Z.shiftl_mul_pow2 by lia. change (2 ^ 2) with 4.
  pose proof (Z.div_mod (width * 3 + 3) 4 ltac:(lia)).
  pose proof (Z.mod_pos_bound (width * 3 + 3) 4 ltac:(lia)).
  pose proof (Z.div_mod (- (width * 3)) 4 ltac:(lia)).
  pose proof (Z.mod_pos_bound (- (width * 3)) 4 ltac:(lia)). lia.
Qed.

Lemma padding_bounds : 0 ≤ padding width ≤ 3.
Proof. unfold padding. pose proof (Z.mod_pos_bound (- (width * 3)) 4). lia. Qed.

Lemma draw_rows_ok left y (hd dn : list Z) :
  let row := row_size width in
  0 ≤ y → y + Z.of_nat left = height → Z.of_nat (length hd) = BMP_HEADER_SIZE →
  draw_rows left y row width height max_iter (hd ++ replicate (left * Z.to_nat row) 0 ++ dn) =
  Ok (tt, hd ++ concat (image_row width height max_iter <$> reverse (seqZ y (Z.of_nat left))) ++ dn).
Proof.
  intros row. pose proof padding_bounds as Hpad. unfold row. rewrite row_size_padded. clear row.
  set (row := width * 3 + padding width). assert (Hrow : 0 < row ≤ width * 3 + 3) by (unfold row; lia).
  revert y dn. induction left as [|left IH]; intros y dn Hy Hlt Hl; [done|]. cbn [draw_rows].
  rewrite seqZ_cons, reverse_cons, fmap_app, concat_app by lia. simpl.
  assert (Hd : u64 (u64 (height - 1 - y) * row) = Z.of_nat left * row).
  { unfold u64. rewrite (Z.mod_small (height - 1 - y)) by lia. rewrite Z.mod_small by nia. lia. }
  rewrite Hd.
  replace (Z.to_nat row + left * Z.to_nat row)%nat
    with (left * Z.to_nat row + (3 * Z.to_nat width + Z.to_nat (padding width)))%nat by (unfold row; lia).
  rewrite !replicate_add, <- !app_assoc, (app_assoc hd).
  erewrite M_bind_ok.
  2:{ rewrite (draw_row_ok _ 0 y); [reflexivity|lia|lia|].
      rewrite length_app, length_replicate. nia. }
  rewrite <- app_assoc, Z2Nat.id by lia.
  rewrite (app_assoc (concat _)). change (concat _ ++ replicate _ 0) with (image_row width height max_iter y).
  rewrite IH by lia. replace (Z.of_nat left) with (Z.pred (Z.of_nat (S left))) by lia.
  done.
Qed.
End Loops.

Lemma le_value_bytes n v : 0 ≤ v < 256 ^ Z.of_nat n → le_value (le_bytes n v) = v.
Proof.
  revert v. induction n as [|n IH]; intros v Hv; simpl; [simpl in Hv; lia|].
  rewrite Nat2Z.inj_succ, Z.pow_succ_r in Hv by lia. rewrite IH.
  - pose proof (Z.div_mod v 256). lia.
  - split; [apply Z.div_pos; lia|apply Z.div_lt_upper_bound; lia].
Qed.

(** Writing a field of the header over zeros. *)
Lemma put_u32_at (l r : list Z) p v :
  p = Z.of_nat (length l) → put_u32 p v (l ++ replicate 4 0 ++ r) = Ok (tt, l ++ le_bytes 4 v ++ r).
Proof. intros Hp. rewrite put_u32_pokes. by apply pokes_at. Qed.
Lemma put_u16_at (l r : list Z) p v :
  p = Z.of_nat (length l) → put_u16 p v (l ++ replicate 2 0 ++ r) = Ok (tt, l ++ le_bytes 2 v ++ r).
Proof. intros Hp. rewrite put_u16_pokes. by apply pokes_at. Qed.

Lemma header_written total pixels width height (r : list Z) (k : BM unit) :
  (poke 0 66;; poke 1 77;; put_u32 2 total;; put_u32 10 BMP_HEADER_SIZE;; put_u32 14 40;;
   put_u32 18 width;; put_u32 22 height;; put_u16 26 1;; put_u16 28 24;; put_u32 34 pixels;; k)
    (replicate 54 0 ++ r) = k (header width height total pixels ++ r).
Proof.
  rewrite (M_bind_ok _ _ _ _ _ (poke_at [] (replicate 53 0 ++ r) 0 0 66 eq_refl)).
  rewrite (M_bind_ok _ _ _ _ _ (poke_at [66] (replicate 52 0 ++ r) 1 0 77 eq_refl)).
  rewrite (M_bind_ok _ _ _ _ _ (put_u32_at [66; 77] (replicate 48 0 ++ r) 2 total eq_refl)).
  rewrite (M_bind_ok _ _ _ _ _ (put_u32_at ([66; 77] ++ le_bytes 4 total ++ replicate 4 0)
    (replicate 40 0 ++ r) 10 BMP_HEADER_SIZE eq_refl)).
  rewrite (M_bind_ok _ _ _ _ _ (put_u32_at ([66; 77] ++ le_bytes 4 total ++ replicate 4 0 ++ le_bytes 4 54)
    (replicate 36 0 ++ r) 14 40 eq_refl)).
  rewrite (M_bind_ok _ _ _ _ _ (put_u32_at ([66; 77] ++ le_bytes 4 total ++ replicate 4 0 ++ le_bytes 4 54 ++
    le_bytes 4 40) (replicate 32 0 ++ r) 18 width eq_refl)).
  rewrite (M_bind_ok _ _ _ _ _ (put_u32_at ([66; 77] ++ le_bytes 4 total ++ replicate 4 0 ++ le_bytes 4 54 ++
    le_bytes 4 40 ++ le_bytes 4 width) (replicate 28 0 ++ r) 22 height eq_refl)).
  rewrite (M_bind_ok _ _ _ _ _ (put_u16_at ([66; 77] ++ le_bytes 4 total ++ replicate 4 0 ++ le_bytes 4 54 ++
    le_bytes 4 40 ++ le_bytes 4 width ++ le_bytes 4 height) (replicate 26 0 ++ r) 26 1 eq_refl)).
  rewrite (M_bind_ok _ _ _ _ _ (put_u16_at ([66; 77] ++ le_bytes 4 total ++ replicate 4 0 ++ le_bytes 4 54 ++
    le_bytes 4 40 ++ le_bytes 4 width ++ le_bytes 4 height ++ le_bytes 2 1) (replicate 24 0 ++ r) 28 24 eq_refl)).
  rewrite (M_bind_ok _ _ _ _ _ (put_u32_at ([66; 77] ++ le_bytes 4 total ++ replicate 4 0 ++ le_bytes 4 54 ++
    le_bytes 4 40 ++ le_bytes 4 width ++ le_bytes 4 height ++ le_bytes 2 1 ++ le_bytes 2 24 ++ replicate 4 0)
    (replicate 16 0 ++ r) 34 pixels eq_refl)).
  reflexivity.
Qed.

Lemma u32_id z : 0 ≤ z < 2 ^ 32 → u32 z = z.
Proof. intros. by apply Z.mod_small. Qed.

Lemma image_drawn width height max_iter :
  0 < width < 2 ^ 31 → 0 < height < 2 ^ 31 → 0 < max_iter → max_iter * 255 < 2 ^ 31 →
  54 + (width * 3 + 3) * height < 2 ^ 32 →
  mandelbrot_bmp true true true width height max_iter = Ok (Some (image width height max_iter)).
Proof.
  intros Hw Hh Hm0 Hm Hs. unfold mandelbrot_bmp.
  replace (negb true || negb true || (width <=? 0) || (height <=? 0) || (max_iter <=? 0)) with false by lia.
  pose proof (padding_bounds width) as Hpad.
  rewrite (row_size_padded width height) by lia. cbv zeta.
  set (row := width * 3 + padding width). assert (Hrow : 0 < row ≤ width * 3 + 3) by (unfold row; lia).
  assert (Hpx : u64 (row * u64 height) = row * height).
  { unfold u64. rewrite (Z.mod_small height) by lia. apply Z.mod_small. nia. }
  rewrite Hpx. assert (Htot : u64 (BMP_HEADER_SIZE + row * height) = 54 + row * height).
  { apply Z.mod_small. unfold BMP_HEADER_SIZE. nia. }
  rewrite Htot. destruct (Z.ltb_spec (54 + row * height) (row * height)); [lia|]. cbn [negb].
  rewrite !u32_id by nia.
  replace (Z.to_nat (54 + row * height)) with (54 + Z.to_nat height * Z.to_nat row)%nat by nia.
  rewrite replicate_add, header_written.
  pose proof (draw_rows_ok width height max_iter) as Hd. cbv zeta in Hd.
  rewrite (row_size_padded width height) in Hd by lia. fold row in Hd.
  rewrite <- (app_nil_r (replicate (Z.to_nat height * Z.to_nat row) 0)).
  rewrite Hd by (done || lia). rewrite Z2Nat.id, app_nil_r by lia. reflexivity.
Qed.

Lemma header_fields width height max_iter :
  let row := width * 3 + padding width in
  let bmp := image width height max_iter in
  let field at_ n := le_value (take n (drop at_ bmp)) in
  0 < width < 2 ^ 32 → 0 < height < 2 ^ 32 → 54 + row * height < 2 ^ 32 →
  field 2%nat 4%nat = Z.of_nat (length bmp) ∧ field 10%nat 4%nat = 54 ∧ field 14%nat 4%nat = 40 ∧
  field 18%nat 4%nat = width ∧ field 22%nat 4%nat = height ∧ field 28%nat 2%nat = 24 ∧
  field 34%nat 4%nat = row * height ∧ Z.of_nat (length bmp) = 54 + row * height ∧ row mod 4 = 0.
Proof.
  intros row bmp field Hw Hh Hs.
  assert (Hpad : 0 ≤ padding width ≤ 3) by (unfold padding; pose proof (Z.mod_pos_bound (- (width * 3)) 4); lia).
  assert (Hlen : Z.of_nat (length bmp) = 54 + row * height).
  { unfold bmp, image, header. rewrite !length_app. simpl length.
    rewrite (length_concat (image_row width height max_iter <$> _)).
    assert (Hsum : ∀ l, sum_list (length <$> (image_row width height max_iter <$> l)) =
        (length l * Z.to_nat row)%nat).
    { intros l. induction l as [|y l IH]; [done|]. cbn [fmap list_fmap sum_list length]. rewrite IH.
      unfold image_row. rewrite length_app, length_replicate.
      assert (Hpix : ∀ xs, length (concat ((λ x, shade (iterations x y width height max_iter) max_iter) <$> xs)) =
        (3 * length xs)%nat).
      { intros xs. induction xs as [|x xs IHx]; [done|]. cbn [fmap list_fmap concat length].
        rewrite length_app, length_shade, IHx. lia. }
      rewrite Hpix, length_seqZ.
      replace (3 * Z.to_nat width + Z.to_nat (padding width))%nat with (Z.to_nat row) by (unfold row; lia). done. }
    rewrite Hsum, length_reverse, length_seqZ. nia. }
  assert (Hrow : 0 < row) by (unfold row; lia).
  assert (Hle : ∀ n v, 0 ≤ v < 256 ^ Z.of_nat n → le_value (le_bytes n v) = v) by apply le_value_bytes.
  split_and!; try done; try (rewrite Hlen);
    match goal with
    | |- field 10%nat _ = _ => reflexivity
    | |- field 14%nat _ = _ => reflexivity
    | |- field 28%nat _ = _ => reflexivity
    | |- row mod 4 = 0 => unfold row, padding; rewrite Z.add_mod_idemp_r by lia;
        by replace (width * 3 + - (width * 3)) with 0 by lia
    | |- _ = ?v => exact (Hle 4%nat v ltac:(simpl; nia))
    end.
Qed.

(** ** What the renderer guarantees *)

(** C18: For sizes that fit the 32-bit fields of the format, and escape counts whose
    product with 255 fits an [int], the renderer writes exactly the reference
    image: it stays inside the buffer, no arithmetic overflows, rows are padded to
    multiples of four bytes and stored bottom up. *)
Theorem mandelbrot_bmp_image width height max_iter :
  0 < width < 2 ^ 31 → 0 < height < 2 ^ 31 → 0 < max_iter → max_iter * 255 < 2 ^ 31 →
  54 + (width * 3 + 3) * height < 2 ^ 32 →
  mandelbrot_bmp true true true width height max_iter = Ok (Some (image width height max_iter)).
Proof. apply image_drawn. Qed.


Lemma empty_rows_fault width :
  0 < width → row_size width = 0 → mandelbrot_bmp true true true width 1 1 = Fault OutOfBounds.
Proof.
  intros Hw Hrow. unfold mandelbrot_bmp. rewrite Hrow.
  replace (negb true || negb true || (width <=? 0) || (1 <=? 0) || (1 <=? 0)) with false by lia.
  replace (replicate (Z.to_nat (u64 (BMP_HEADER_SIZE + u64 (0 * u64 1)))) 0)
    with (replicate 54 0 ++ []) by reflexivity.
  cbv zeta. cbn [negb]. replace (u64 (BMP_HEADER_SIZE + u64 (0 * u64 1)) <? u64 (0 * u64 1)) with false by reflexivity.
  rewrite header_written. change (Z.to_nat 1) with 1%nat. cbn [draw_rows].
  replace (Z.to_nat width) with (S (Z.to_nat (width - 1))) by lia. cbn [draw_row].
  assert (E : iterations 0 0 width 1 1 = 1) by reflexivity. rewrite E. unfold color_pixel.
  replace (1 <=? 1) with true by reflexivity. unfold mbind, M_bind, poke, get, lift, mbind, M_bind, res_bind, mbind.
  done.
Qed.

(** A width of 1431655765, which is a positive [int], makes the row size wrap at 32
    bits: the buffer holds the header only, and the first pixel is written behind
    its end. *)
Theorem bmp_row_wraps : mandelbrot_bmp true true true 1431655765 1 1 = Fault OutOfBounds.
Proof. apply empty_rows_fault; [lia|reflexivity]. Qed.

Lemma mandelbrot_bmp_image_witness :
  mandelbrot_bmp true true true 5 4 30 = Ok (Some (image 5 4 30)).
Proof. apply (mandelbrot_bmp_image 5 4 30); lia. Defined.


End Mandelbrot.
