(* ===== verification/HttpText.v ===== *)
(** * HttpText: parsing in the demo server (demo/http_server.c)

    The C library functions on strings the server uses ([strtol], [atoi],
    [strtoull], [sscanf("%15s %1023s")], [strchr]), the query parser query_int and
    the command line.  A C string is a [string] without its terminating zero; a
    pointer into it is the rest of the string from there. *)
From S2P Require Export Text.
From Stdlib Require Import Ascii.
Local Open Scope Z_scope.

Module HttpText.

(** ** The C library *)

Definition LONG_MAX : Z := 2 ^ 63 - 1.
Definition LONG_MIN : Z := - 2 ^ 63.
Definition ULLONG_MAX : Z := 2 ^ 64 - 1.

Definition isspace (c : ascii) : bool :=
  let n := Z.of_nat (nat_of_ascii c) in (n =? 32) || (9 <=? n) && (n <=? 13).
Definition isdigit (c : ascii) : bool :=
  let n := Z.of_nat (nat_of_ascii c) in (48 <=? n) && (n <=? 57).

Fixpoint skip_space (s : string) : string :=
  match s with
  | String c s' => if isspace c then skip_space s' else s
  | EmptyString => s
  end.

(** The digits at the front of [s], accumulated onto [acc]; [None] without any. *)
Fixpoint digits_from (acc : option Z) (s : string) : option Z :=
  match s with
  | String c s' =>
      if isdigit c then digits_from (Some (10 * default 0 acc + digit_value c)) s' else acc
  | EmptyString => acc
  end.

(** Sign and digits behind the white space: whether the number is negated, and its
    absolute value. *)
Definition signed (s : string) : bool * option Z :=
  match skip_space s with
  | String "-" s' => (true, digits_from None s')
  | String "+" s' => (false, digits_from None s')
  | s' => (false, digits_from None s')
  end.

(** [strtol(s, &end, 10)]: [None] when [end] is left at the start. *)
Definition strtol (s : string) : option Z :=
  let '(neg, n) := signed s in
  (λ n, Z.max LONG_MIN (Z.min LONG_MAX (if neg then - n else n))) <$> n.

(** [atoi] is the [int] part of [strtol]. *)
Definition atoi (s : string) : Z := i32 (default 0 (strtol s)).

(** [strtoull(s, NULL, 10)]: a negated number wraps, one out of range saturates. *)
Definition strtoull (s : string) : Z :=
  let '(neg, n) := signed s in
  match n with
  | None => 0
  | Some n => if ULLONG_MAX <? n then ULLONG_MAX else if neg then u64 (- n) else n
  end.

(** [strchr(s, c)]: what comes before [c] and what comes after it. *)
Fixpoint strchr (c : ascii) (s : string) : option (string * string) :=
  match s with
  | EmptyString => None
  | String a s' =>
      if (a =? c)%char then Some (EmptyString, s')
      else '(pre, post) ← strchr c s'; Some (String a pre, post)
  end.

(** At most [n] characters that are not white space, and the rest. *)
Fixpoint word (n : nat) (s : string) : string * string :=
  match n, s with
  | S n', String c s' =>
      if isspace c then (EmptyString, s) else let '(w, r) := word n' s' in (String c w, r)
  | _, _ => (EmptyString, s)
  end.

(** [sscanf(req, "%15s %1023s", method, target)]: the words it stores. *)
Definition sscanf_request (req : string) : option string * option string :=
  let '(m, r) := word 15 (skip_space req) in
  if (String.length m =? 0)%nat then (None, None) else
  let '(t, _) := word 1023 (skip_space r) in
  (Some m, if (String.length t =? 0)%nat then None else Some t).

Fixpoint strip_prefix (key s : string) : option string :=
  match key, s with
  | EmptyString, _ => Some s
  | String a key', String b s' => if (a =? b)%char then strip_prefix key' s' else None
  | _, _ => None
  end.

(** ** query_int *)

Definition clamp (v min max : Z) : Z := if v <? min then min else if max <? v then max else v.

(** The loop over the parameters of the query. *)
Fixpoint query_loop (fuel : nat) (p key : string) (def min max : Z) : res Z :=
  match fuel with
  | O => Fault OutOfFuel
  | S fuel' =>
      match p with
      | EmptyString => Ok def
      | _ =>
          match strip_prefix (key +:+ "=") p with
          | Some val =>
              match strtol val with
              | None => Ok def
              | Some v => Ok (i32 (clamp v min max))
              end
          | None =>
              match strchr "&" p with
              | None => Ok def
              | Some (_, p') => query_loop fuel' p' key def min max
              end
          end
      end
  end.

Definition query_int (query key : string) (def min max : Z) : res Z :=
  query_loop (S (String.length query)) query key def min max.

(** ** parse_args *)

Inductive server_mode_t := MODE_POOL | MODE_NAIVE.

(** The settings of [server_ctx_t]. *)
Record settings := mk_settings {
  port : Z;
  admin_port : Z;
  workers : Z;
  max_tasks : Z;
  mode : server_mode_t;
  monitor : bool;
  host : string
}.

Definition set_port (p : Z) (c : settings) : settings :=
  mk_settings p (admin_port c) (workers c) (max_tasks c) (mode c) (monitor c) (host c).
Definition set_admin_port (p : Z) (c : settings) : settings :=
  mk_settings (port c) p (workers c) (max_tasks c) (mode c) (monitor c) (host c).
Definition set_workers (n : Z) (c : settings) : settings :=
  mk_settings (port c) (admin_port c) n (max_tasks c) (mode c) (monitor c) (host c).
Definition set_max_tasks (n : Z) (c : settings) : settings :=
  mk_settings (port c) (admin_port c) (workers c) n (mode c) (monitor c) (host c).
Definition set_mode (m : server_mode_t) (c : settings) : settings :=
  mk_settings (port c) (admin_port c) (workers c) (max_tasks c) m (monitor c) (host c).
Definition set_monitor (b : bool) (c : settings) : settings :=
  mk_settings (port c) (admin_port c) (workers c) (max_tasks c) (mode c) b (host c).
Definition set_host (h : string) (c : settings) : settings :=
  mk_settings (port c) (admin_port c) (workers c) (max_tasks c) (mode c) (monitor c) h.

Definition DEFAULT_PORT : Z := 8080.
Definition DEFAULT_ADMIN_PORT : Z := 9090.
Definition DEFAULT_HOST : string := "127.0.0.1".

(** [cores] is what get_num_core returns. *)
Definition server_defaults (cores : Z) : settings :=
  mk_settings DEFAULT_PORT DEFAULT_ADMIN_PORT (if cores <=? 0 then 4 else cores) 0 MODE_POOL true
    (snprintf 64 DEFAULT_HOST).

Definition usage : Z := 2.

(** The option loop; [inr] carries the exit code of usage. *)
Fixpoint parse_options (args : list string) (ctx : settings) : settings + Z :=
  match args with
  | [] => inl ctx
  | a :: rest =>
      match rest with
      | v :: rest' =>
          if bool_decide (a = "--port") then parse_options rest' (set_port (atoi v) ctx)
          else if bool_decide (a = "--workers") then parse_options rest' (set_workers (atoi v) ctx)
          else if bool_decide (a = "--max-tasks") then parse_options rest' (set_max_tasks (strtoull v) ctx)
          else if bool_decide (a = "--mode") then
            if bool_decide (v = "pool") then parse_options rest' (set_mode MODE_POOL ctx)
            else if bool_decide (v = "naive") then parse_options rest' (set_mode MODE_NAIVE ctx)
            else inr usage
          else if bool_decide (a = "--admin-port") then parse_options rest' (set_admin_port (atoi v) ctx)
          else if bool_decide (a = "--host") then parse_options rest' (set_host (snprintf 64 v) ctx)
          else if bool_decide (a = "--no-monitor") then parse_options rest (set_monitor false ctx)
          else inr usage
      | [] =>
          if bool_decide (a = "--no-monitor") then inl (set_monitor false ctx) else inr usage
      end
  end.

Definition parse_args (args : list string) (ctx : settings) : settings + Z :=
  match parse_options args ctx with
  | inr code => inr code
  | inl ctx =>
      if (port ctx <=? 0) || (65535 <? port ctx) || (admin_port ctx <=? 0) || (65535 <? admin_port ctx)
         || (workers ctx <=? 0) || (port ctx =? admin_port ctx)
      then inr usage else inl ctx
  end.

(** ** The query string as a list of parameters *)

Fixpoint split_amp (s : string) : list string :=
  match s with
  | EmptyString => [EmptyString]
  | String a s' =>
      if (a =? "&")%char then EmptyString :: split_amp s'
      else match split_amp s' with seg :: r => String a seg :: r | [] => [] end
  end.

(** The number given for [key] by the first parameter of that name. *)
Definition query_spec (query key : string) (def min max : Z) : Z :=
  match head (omap (strip_prefix (key +:+ "=")) (split_amp query)) with
  | None => def
  | Some val => match strtol val with None => def | Some v => clamp v min max end
  end.

Lemma strchr_amp p :
  match strchr "&" p with
  | None => split_amp p = [p]
  | Some (pre, post) => p = pre +:+ String "&" post ∧ split_amp p = pre :: split_amp post
  end.
Proof.
  induction p as [|a p IH]; [done|]. simpl. destruct (Ascii.eqb_spec a "&") as [->|Hne]; [done|].
  destruct (strchr "&" p) as [[pre post]|]; simpl.
  - destruct IH as [-> ->]. done.
  - by rewrite IH.
Qed.

Lemma strip_prefix_amp key pre post :
  strchr "&" key = None →
  strip_prefix key (pre +:+ String "&" post) = (λ v, v +:+ String "&" post) <$> strip_prefix key pre.
Proof.
  revert pre. induction key as [|a key IH]; intros pre Hk; [done|]. simpl in Hk.
  destruct (Ascii.eqb_spec a "&") as [->|Hne]; [done|].
  destruct (strchr "&" key) as [[]|] eqn:E; [done|]. destruct pre as [|b pre]; simpl.
  - destruct (Ascii.eqb_spec a "&"); done.
  - destruct (a =? b)%char; [by apply IH|done].
Qed.

Lemma strchr_append c s t : strchr c s = None → strchr c t = None → strchr c (s +:+ t) = None.
Proof.
  intros Hs Ht. induction s as [|a s IH]; [done|]. simpl in Hs |- *. destruct (a =? c)%char; [done|].
  destruct (strchr c s) as [[]|]; [done|]. by rewrite (IH eq_refl).
Qed.

Lemma skip_space_amp v post :
  skip_space (v +:+ String "&" post) = skip_space v +:+ String "&" post.
Proof. induction v as [|a v IH]; [done|]. simpl. destruct (isspace a); [exact IH|done]. Qed.

Lemma digits_from_stop c acc v post :
  isdigit c = false → digits_from acc (v +:+ String c post) = digits_from acc v.
Proof.
  intros Hc. revert acc. induction v as [|a v IH]; intros acc; simpl; [by rewrite Hc|].
  destruct (isdigit a); [apply IH|done].
Qed.

(** A number ends at the end of its parameter. *)
Lemma strtol_amp v post : strtol (v +:+ String "&" post) = strtol v.
Proof.
  unfold strtol, signed. rewrite skip_space_amp. destruct (skip_space v) as [|a s]; [done|]. simpl.
  destruct a as [[] [] [] [] [] [] [] []]; simpl; rewrite ?digits_from_stop by done; try done;
    unfold String.append; fold String.append; by rewrite ?digits_from_stop by done.
Qed.

Lemma clamp_bounds v min max : min ≤ max → min ≤ clamp v min max ≤ max.
Proof. unfold clamp. intros. destruct (Z.ltb_spec v min), (Z.ltb_spec max v); lia. Qed.

Lemma query_loop_spec fuel p key def min max :
  strchr "&" key = None → min ≤ max → - 2 ^ 31 ≤ min → max < 2 ^ 31 → (String.length p < fuel)%nat →
  query_loop fuel p key def min max = Ok (query_spec p key def min max).
Proof.
  intros Hk Hmm Hmin Hmax. pose proof (strchr_append "&" key "=" Hk eq_refl) as Hk'.
  revert p. induction fuel as [|fuel IH]; intros p Hf; [lia|]. cbn [query_loop]. unfold query_spec.
  pose proof (strchr_amp p) as Hp. destruct p as [|a p']; [by destruct key|].
  set (p := String a p') in *.
  assert (Hdone : ∀ v, Ok (i32 (clamp v min max)) = Ok (clamp v min max)).
  { intros v. rewrite i32_small; [done|]. pose proof (clamp_bounds v min max Hmm). lia. }
  destruct (strchr "&" p) as [[pre post]|].
  - destruct Hp as [Heq ->]. rewrite Heq, (strip_prefix_amp _ _ _ Hk'). cbn [omap list_omap].
    destruct (strip_prefix (key +:+ "=") pre) as [v|]; simpl.
    + rewrite strtol_amp. by destruct (strtol v).
    + apply IH. rewrite Heq, length_append in Hf. simpl in Hf. lia.
  - rewrite Hp. cbn [omap list_omap]. destruct (strip_prefix (key +:+ "=") p) as [v|]; simpl; [|done].
    by destruct (strtol v).
Qed.

(** ** Numbers the server prints and reads *)

Fixpoint all_digits (s : string) : bool :=
  match s with EmptyString => true | String c s' => isdigit c && all_digits s' end.

Lemma all_digits_append s t : all_digits (s +:+ t) = all_digits s && all_digits t.
Proof. induction s as [|c s IH]; [done|]. simpl. rewrite <- andb_assoc. f_equal. exact IH. Qed.

Lemma digit_isdigit d : 0 ≤ d < 10 → isdigit (ascii_of_nat (48 + Z.to_nat d)) = true.
Proof.
  intros. unfold isdigit. rewrite nat_ascii_embedding by lia. cbv zeta.
  apply andb_true_intro. split; [apply Z.leb_le|apply Z.leb_le]; lia.
Qed.

Lemma digit_all d : 0 ≤ d < 10 → all_digits (digit d) = true.
Proof. intros. unfold digit. cbn [all_digits]. by rewrite digit_isdigit. Qed.

Lemma digits_all fuel n : 0 ≤ n → all_digits (digits fuel n) = true.
Proof.
  revert n. induction fuel as [|f IH]; intros n Hn; [done|]. cbn [digits].
  destruct (Z.ltb_spec n 10).
  - by apply digit_all.
  - rewrite all_digits_append, IH by (apply Z.div_pos; lia).
    pose proof (Z.mod_pos_bound n 10 ltac:(lia)). by apply digit_all.
Qed.

Lemma digits_nonempty fuel n : digits (S fuel) n ≠ EmptyString.
Proof. cbn [digits]. destruct (n <? 10); [done|]. by destruct (digits fuel (n / 10)). Qed.

Lemma digits_from_value s acc :
  all_digits s = true → s ≠ EmptyString ∨ acc ≠ None →
  digits_from acc s =
    Some (foldl (λ z a, 10 * z + digit_value a) (default 0 acc) (String.list_ascii_of_string s)).
Proof.
  revert acc. induction s as [|c s IH]; intros acc Hs Hne; simpl.
  - destruct acc; [done|]. by destruct Hne.
  - simpl in Hs. apply andb_true_iff in Hs as [Hc Hs]. rewrite Hc. rewrite IH; [done|done|by right].
Qed.

(** No digit is white space, a sign or an ampersand. *)
Lemma digit_plain c : isdigit c = true → isspace c = false ∧ c ≠ "-"%char ∧ c ≠ "+"%char ∧ c ≠ "&"%char.
Proof. destruct c as [[] [] [] [] [] [] [] []]; done. Qed.

Lemma digits_no_amp s : all_digits s = true → strchr "&" s = None.
Proof.
  induction s as [|c s IH]; [done|]. simpl. intros [Hc Hs]%andb_true_iff.
  destruct (Ascii.eqb_spec c "&") as [->|_]; [by destruct (digit_plain _ Hc) as (_ & _ & _ & [])|].
  by rewrite IH.
Qed.

(** Behind a digit no white space is skipped and no sign is read. *)
Lemma strtol_digit c s :
  isdigit c = true →
  strtol (String c s) = (λ n, Z.max LONG_MIN (Z.min LONG_MAX n)) <$> digits_from None (String c s).
Proof.
  intros Hc. destruct (digit_plain _ Hc) as (Hs & _). unfold strtol, signed. cbn [skip_space]. rewrite Hs.
  revert Hc. destruct c as [[] [] [] [] [] [] [] []]; done.
Qed.

(** A number is read back when it stands alone, and in front of another character. *)
Lemma strtol_dec_stop n c post :
  0 ≤ n ≤ LONG_MAX → isdigit c = false →
  strtol (dec n) = Some n ∧ strtol (dec n +:+ String c post) = Some n.
Proof.
  intros Hn Hstop. unfold LONG_MAX in Hn. unfold dec. destruct (Z.ltb_spec n 0); [lia|].
  pose proof (digits_all 20 n ltac:(lia)) as Hd. pose proof (digits_nonempty 19 n) as Hne.
  assert (Hv : digits_from None (digits 20 n) = Some n).
  { rewrite digits_from_value by (done || by left). f_equal. apply (value_digits 20). lia. }
  pose proof (digits_from_stop c None (digits 20 n) post Hstop) as Hv'. rewrite Hv in Hv'.
  destruct (digits 20 n) as [|d s]; [done|].
  simpl in Hd. apply andb_true_iff in Hd as [Hc _].
  change (String d s +:+ String c post) with (String d (s +:+ String c post)) in Hv' |- *.
  rewrite !strtol_digit by done. rewrite Hv, Hv'. simpl. unfold LONG_MIN, LONG_MAX.
  split; f_equal; lia.
Qed.

Lemma strtol_dec n : 0 ≤ n ≤ LONG_MAX → strtol (dec n) = Some n.
Proof. intros Hn. by apply (strtol_dec_stop n "&" ""). Qed.

Lemma split_amp_append s t :
  strchr "&" s = None → split_amp (s +:+ String "&" t) = s :: split_amp t.
Proof.
  induction s as [|a s IH]; [done|]. simpl. destruct (Ascii.eqb_spec a "&") as [->|Hne]; [done|].
  destruct (strchr "&" s) as [[]|]; [done|]. intros _. by rewrite (IH eq_refl).
Qed.

(** ** What the parsers guarantee *)

(** C25: query_int returns the value the first parameter named [key] gives, brought into
    the range, and the default if there is none or it has no number; so it never
    leaves the range when the default is in it. *)
Theorem query_int_first query key def min max :
  strchr "&" key = None → min ≤ max → - 2 ^ 31 ≤ min → max < 2 ^ 31 →
  query_int query key def min max = Ok (query_spec query key def min max) ∧
  (min ≤ def ≤ max → min ≤ query_spec query key def min max ≤ max).
Proof.
  intros Hk Hmm Hmin Hmax. split; [apply query_loop_spec; try done; lia|]. intros Hd. unfold query_spec.
  destruct (head _) as [v|]; [|done]. destruct (strtol v); [|done]. by apply clamp_bounds.
Qed.

(** The query a client writes for a picture is read back number by number. *)
Theorem query_roundtrip w h it :
  0 ≤ w ≤ LONG_MAX → 0 ≤ h ≤ LONG_MAX → 0 ≤ it ≤ LONG_MAX →
  let q := ("w=" +:+ dec w +:+ "&h=" +:+ dec h +:+ "&iter=" +:+ dec it)%string in
  query_int q "w" 640 16 2048 = Ok (clamp w 16 2048) ∧
  query_int q "h" 420 16 2048 = Ok (clamp h 16 2048) ∧
  query_int q "iter" 800 1 5000 = Ok (clamp it 1 5000).
Proof.
  intros Hw Hh Hi q.
  assert (Hno : ∀ n, 0 ≤ n → strchr "&" (dec n) = None).
  { intros n Hn. apply digits_no_amp. unfold dec. destruct (Z.ltb_spec n 0); [lia|]. by apply digits_all. }
  assert (Hsplit : split_amp q = [String "w" (String "=" (dec w)); String "h" (String "=" (dec h));
    String "i" (String "t" (String "e" (String "r" (String "=" (dec it)))))]).
  { assert (E : q = (("w=" +:+ dec w) +:+ String "&" (("h=" +:+ dec h) +:+ String "&" ("iter=" +:+ dec it)))%string)
      by (unfold q; by rewrite !append_assoc).
    rewrite E, (split_amp_append ("w=" +:+ dec w)) by (apply strchr_append; [done|apply Hno; lia]).
    rewrite (split_amp_append ("h=" +:+ dec h)) by (apply strchr_append; [done|apply Hno; lia]).
    pose proof (strchr_amp ("iter=" +:+ dec it)) as Hl. rewrite strchr_append in Hl; [|done|apply Hno; lia].
    by rewrite Hl. }
  unfold query_int. rewrite !query_loop_spec by (done || lia). unfold query_spec. rewrite Hsplit.
  change ("w" +:+ "=")%string with "w="%string. change ("h" +:+ "=")%string with "h="%string.
  change ("iter" +:+ "=")%string with "iter="%string.
  split_and!; simpl; rewrite strtol_dec by lia; done.
Qed.

(** Settings that pass parse_args are usable: two different valid ports, at least
    one worker, a host name that fits its buffer. *)
Theorem parse_args_valid args ctx ctx' :
  (String.length (host ctx) < 64)%nat → parse_args args ctx = inl ctx' →
  0 < port ctx' < 2 ^ 16 ∧ 0 < admin_port ctx' < 2 ^ 16 ∧ port ctx' ≠ admin_port ctx' ∧
  0 < workers ctx' ∧ (String.length (host ctx') < 64)%nat.
Proof.
  unfold parse_args. intros Hh Hp. destruct (parse_options args ctx) as [c|] eqn:E; [|done].
  destruct (_ || _) eqn:Hv in Hp; [done|]. injection Hp as ->.
  assert (Hlen : (String.length (host ctx') < 64)%nat).
  { assert (Hfit : ∀ v, (String.length (snprintf 64 v) < 64)%nat)
      by (intros v; rewrite length_snprintf; lia).
    clear Hv. revert ctx Hh E. induction args as [args IH] using (induction_ltof1 _ length).
    intros ctx Hh E. destruct args as [|a [|v rest]]; cbn [parse_options] in E; [by injection E as <-|..].
    - case_bool_decide; [|done]. by injection E as <-.
    - assert (Hrest : ∀ c, (String.length (host c) < 64)%nat → parse_options rest c = inl ctx' →
        (String.length (host ctx') < 64)%nat) by (intros c; apply IH; unfold ltof; simpl; lia).
      destruct (bool_decide (a = "--port")); [by eapply Hrest; [|exact E]|].
      destruct (bool_decide (a = "--workers")); [by eapply Hrest; [|exact E]|].
      destruct (bool_decide (a = "--max-tasks")); [by eapply Hrest; [|exact E]|].
      destruct (bool_decide (a = "--mode")).
      { destruct (bool_decide (v = "pool")); [by eapply Hrest; [|exact E]|].
        destruct (bool_decide (v = "naive")); [by eapply Hrest; [|exact E]|done]. }
      destruct (bool_decide (a = "--admin-port")); [by eapply Hrest; [|exact E]|].
      destruct (bool_decide (a = "--host")); [apply (Hrest (set_host (snprintf 64 v) ctx) (Hfit v) E)|].
      destruct (bool_decide (a = "--no-monitor")); [|done].
      apply (IH (v :: rest)) with (ctx := set_monitor false ctx); [unfold ltof; simpl; lia|done|exact E]. }
  repeat split; try done; try lia.
Qed.

Lemma query_int_first_witness :
  query_int "a=1&w=70000&w=3" "w" 640 16 2048 = Ok (query_spec "a=1&w=70000&w=3" "w" 640 16 2048) ∧
  query_spec "a=1&w=70000&w=3" "w" 640 16 2048 = 2048 ∧
  (16 ≤ 640 ≤ 2048 → 16 ≤ query_spec "a=1&w=70000&w=3" "w" 640 16 2048 ≤ 2048).
Proof.
  destruct (query_int_first "a=1&w=70000&w=3" "w" 640 16 2048) as [H1 H2]; [reflexivity|lia..|].
  split; [exact H1|]. split; [vm_compute; reflexivity|exact H2].
Defined.

Lemma query_roundtrip_witness :
  let q := ("w=" +:+ dec 800 +:+ "&h=" +:+ dec 600 +:+ "&iter=" +:+ dec 9000)%string in
  query_int q "w" 640 16 2048 = Ok (clamp 800 16 2048) ∧
  query_int q "h" 420 16 2048 = Ok (clamp 600 16 2048) ∧
  query_int q "iter" 800 1 5000 = Ok (clamp 9000 1 5000).
Proof. apply (query_roundtrip 800 600 9000); unfold LONG_MAX; lia. Defined.

Lemma parse_args_valid_witness :
  let ctx' := set_workers 8 (set_port 80 (server_defaults 4)) in
  parse_args ["--port"; "80"; "--workers"; "8"] (server_defaults 4) = inl ctx' ∧
  0 < port ctx' < 2 ^ 16 ∧ 0 < admin_port ctx' < 2 ^ 16 ∧ port ctx' ≠ admin_port ctx' ∧
  0 < workers ctx' ∧ (String.length (host ctx') < 64)%nat.
Proof.
  split; [vm_compute; reflexivity|].
  apply (parse_args_valid ["--port"; "80"; "--workers"; "8"] (server_defaults 4));
    [vm_compute; lia|vm_compute; reflexivity].
Defined.

End HttpText.
