(* ===== verification/CpuCore.v ===== *)
(** * CpuCore: what the system says about its processors (src/include/cpu_core.h)

    The answers of sysconf and fopen are arguments, and so is what the local variable
    [max_threads] holds before it is assigned. *)
From S2P Require Export HttpText.
From Stdlib Require Import Ascii.
Local Open Scope Z_scope.

Module CpuCore.
Import HttpText.

(** [sysconf] returns a long, which is converted to int. *)
Definition get_num_core (sysconf : Z) : Z := i32 sysconf.

(** [fscanf(f, "%d", &v)]: what is assigned to the variable, if anything. *)
Definition fscanf_d (contents : string) : option Z := i32 <$> strtol contents.

(** [fopen]: the contents of threads-max, or [None] when it cannot be opened;
    [garbage]: the value of the uninitialised [max_threads]. *)
Definition get_num_thread (fopen : option string) (garbage : Z) : Z :=
  match fopen with
  | None => -1
  | Some f => default garbage (fscanf_d f)
  end.

(** The server starts with at least one worker and an int of them, whatever sysconf
    answers, -1 for an error included. *)
Lemma default_workers sysconf :
  0 < workers (server_defaults (get_num_core sysconf)) < 2 ^ 31.
Proof.
  unfold get_num_core. assert (i32 sysconf < 2 ^ 31).
  { unfold i32. pose proof (Z.mod_pos_bound (sysconf + 2 ^ 31) (2 ^ 32) ltac:(lia)). lia. }
  change (workers (server_defaults ?c)) with (if c <=? 0 then 4 else c).
  destruct (Z.leb_spec (i32 sysconf) 0); lia.
Qed.

(** The decimal line of the file is read back; a file without a number leaves the
    uninitialised variable as the result. *)
Lemma get_num_thread_spec n garbage :
  0 ≤ n < 2 ^ 31 →
  get_num_thread (Some (dec n +:+ String "010"%char "")) garbage = n ∧
  get_num_thread None garbage = -1 ∧ get_num_thread (Some "") garbage = garbage.
Proof.
  intros Hn. split_and!; [|done|done]. unfold get_num_thread, fscanf_d.
  destruct (strtol_dec_stop n "010"%char "" ltac:(unfold LONG_MAX; lia) eq_refl) as [_ ->].
  apply i32_small. lia.
Qed.

End CpuCore.
