(* ===== verification/HttpLog.v ===== *)
(** * HttpLog: the ring of request lines (demo/http_server.c, log_ring_t)

    The functions run under the mutex of the ring, so each is one transition of its
    state.  [size_t] arithmetic wraps and every access to the array is checked.
    The ring refines a list of at most 256 lines. *)
From S2P Require Export Text.
Local Open Scope Z_scope.

Module HttpLog.

Definition LOG_RING_SIZE : Z := 256.
Definition LOG_LINE_MAX : nat := 256.

Record log_ring_t := mk_ring {
  lines : list string;
  start : Z;                (* size_t *)
  count : Z                 (* size_t *)
}.

(** log_ring_init: [memset] and the creation of the mutex, whose answer is the
    result. *)
Definition log_ring_init (mutex_rc : Z) : log_ring_t * Z :=
  (mk_ring (replicate (Z.to_nat LOG_RING_SIZE) EmptyString) 0 0, mutex_rc).

Definition log_ring_append (line : string) (ring : log_ring_t) : res log_ring_t :=
  let pos := u64 (start ring + count ring) mod LOG_RING_SIZE in
  let '(pos, start', count') :=
    if count ring =? LOG_RING_SIZE
    then (start ring, u64 (start ring + 1) mod LOG_RING_SIZE, count ring)
    else (pos, start ring, u64 (count ring + 1)) in
  lines' ← arr_set (lines ring) pos (snprintf LOG_LINE_MAX line);
  Ok (mk_ring lines' start' count').

(** The loop of log_ring_copy: [buf] is what has been written so far, [used] its
    length. *)
Fixpoint copy_loop (left : nat) (i : Z) (len : Z) (buf : string) (ring : log_ring_t) : res string :=
  match left with
  | O => Ok buf
  | S left' =>
      let used := Z.of_nat (String.length buf) in
      if (i <? count ring) && (used <? len) then
        let pos := u64 (start ring + i) mod LOG_RING_SIZE in
        line ← arr_get (lines ring) pos;
        let buf' := (buf +:+ snprintf (Z.to_nat (len - used)) line)%string in
        if len - used <=? Z.of_nat (String.length line) then Ok buf'
        else copy_loop left' (i + 1) len buf' ring
      else Ok buf
  end.

(** log_ring_copy(ring, buf, len): the string left in [buf]; the terminating zero is
    written at index [used]. *)
Definition log_ring_copy (len : Z) (ring : log_ring_t) : res string :=
  buf ← copy_loop (S (Z.to_nat (count ring))) 0 len EmptyString ring;
  if Z.of_nat (String.length buf) <? len then Ok buf else Fault OutOfBounds.

(** ** The lines of a ring, oldest first *)

Definition slot (r : log_ring_t) (i : Z) : nat := Z.to_nat ((start r + i) mod LOG_RING_SIZE).
Definition contents (r : log_ring_t) : list string :=
  (λ i, default EmptyString (lines r !! slot r i)) <$> seqZ 0 (count r).

Record ring_ok (r : log_ring_t) : Prop := {
  ro_len : length (lines r) = Z.to_nat LOG_RING_SIZE;
  ro_start : 0 ≤ start r < LOG_RING_SIZE;
  ro_count : 0 ≤ count r ≤ LOG_RING_SIZE;
  ro_lines : Forall (λ s, String.length s < LOG_LINE_MAX)%nat (lines r)
}.

(** The last [n] elements. *)
Definition lastn {A} (n : nat) (l : list A) : list A := drop (length l - n) l.

Lemma slot_lt r i : (slot r i < Z.to_nat LOG_RING_SIZE)%nat.
Proof. unfold slot, LOG_RING_SIZE. pose proof (Z.mod_pos_bound (start r + i) 256). lia. Qed.

Lemma slot_inj s i j :
  0 ≤ i < 256 → 0 ≤ j < 256 → (s + i) mod 256 = (s + j) mod 256 → i = j.
Proof.
  intros Hi Hj E. pose proof (Z.div_mod (s + i) 256 ltac:(lia)). pose proof (Z.div_mod (s + j) 256 ltac:(lia)). lia.
Qed.

Lemma ring_index r i :
  ring_ok r → 0 ≤ i ≤ LOG_RING_SIZE → u64 (start r + i) mod LOG_RING_SIZE = (start r + i) mod LOG_RING_SIZE.
Proof.
  intros [_ Hs _ _] Hi. unfold LOG_RING_SIZE in *. unfold u64. by rewrite (Z.mod_small (start r + i)) by lia.
Qed.

Lemma length_contents r : 0 ≤ count r → length (contents r) = Z.to_nat (count r).
Proof. intros. unfold contents. by rewrite length_fmap, length_seqZ. Qed.

Lemma append_room r line :
  ring_ok r → count r < LOG_RING_SIZE →
  ∃ r', log_ring_append line r = Ok r' ∧ ring_ok r' ∧
    contents r' = contents r ++ [snprintf LOG_LINE_MAX line].
Proof.
  intros R Hc. pose proof R as [Hl Hs Hcc Hf]. unfold log_ring_append.
  replace (count r =? LOG_RING_SIZE) with false by lia. cbv zeta iota. rewrite ring_index by (done || lia).
  pose proof (slot_lt r (count r)) as Hslot.
  pose proof (Z.mod_pos_bound (start r + count r) LOG_RING_SIZE ltac:(unfold LOG_RING_SIZE; lia)) as Hm.
  unfold arr_set.
  match goal with |- context [if ?b then _ else _] => replace b with false by (unfold LOG_RING_SIZE in *; lia) end.
  unfold mbind, res_bind. assert (Hu : u64 (count r + 1) = count r + 1).
  { apply Z.mod_small. unfold LOG_RING_SIZE in *. lia. }
  rewrite Hu. eexists. split; [done|]. split; [split; simpl|].
  - by rewrite length_insert.
  - done.
  - lia.
  - apply Forall_insert; [done|]. rewrite length_snprintf. unfold LOG_LINE_MAX. lia.
  - unfold contents. simpl. rewrite seqZ_app, fmap_app by lia. f_equal.
    + apply list_fmap_ext. intros k i Hi. apply lookup_seqZ in Hi as [-> Hi]. unfold slot. simpl.
      rewrite list_lookup_insert_ne; [done|]. intros E. apply Z2Nat.inj in E;
        [|by apply Z.mod_pos_bound|by apply Z.mod_pos_bound].
      apply slot_inj in E; unfold LOG_RING_SIZE in *; lia.
    + rewrite seqZ_cons, seqZ_nil by lia. simpl. unfold slot. simpl.
      rewrite list_lookup_insert_eq; [done|]. unfold slot in Hslot. lia.
Qed.

Lemma append_full r line :
  ring_ok r → count r = LOG_RING_SIZE →
  ∃ r', log_ring_append line r = Ok r' ∧ ring_ok r' ∧
    contents r' = tail (contents r) ++ [snprintf LOG_LINE_MAX line].
Proof.
  intros R Hc. pose proof R as [Hl Hs Hcc Hf]. unfold log_ring_append. rewrite Hc, Z.eqb_refl. cbv zeta iota.
  unfold arr_set.
  match goal with |- context [if ?b then _ else _] => replace b with false by (unfold LOG_RING_SIZE in *; lia) end.
  rewrite (ring_index r 1) by (done || unfold LOG_RING_SIZE; lia).
  unfold mbind, res_bind. eexists. split; [done|]. split; [split; simpl|].
  - by rewrite length_insert.
  - apply Z.mod_pos_bound. unfold LOG_RING_SIZE. lia.
  - unfold LOG_RING_SIZE. lia.
  - apply Forall_insert; [done|]. rewrite length_snprintf. unfold LOG_LINE_MAX. lia.
  - unfold contents. rewrite Hc. cbn [lines start count].
    assert (E1 : seqZ 0 LOG_RING_SIZE = 0 :: (Z.add 1 <$> seqZ 0 255)).
    { rewrite seqZ_cons, fmap_add_seqZ by (unfold LOG_RING_SIZE; lia). done. }
    assert (E2 : seqZ 0 LOG_RING_SIZE = seqZ 0 255 ++ [255]).
    { change LOG_RING_SIZE with (255 + 1). by rewrite seqZ_app by lia. }
    rewrite E1 at 2. rewrite E2, fmap_app, (fmap_cons _ 0). cbn [tail].
    assert (Hmod : ∀ i, ((start r + 1) mod LOG_RING_SIZE + i) mod LOG_RING_SIZE = (start r + (1 + i)) mod LOG_RING_SIZE).
    { intros i. unfold LOG_RING_SIZE. rewrite Z.add_mod_idemp_l by lia. f_equal. lia. }
    f_equal.
      rewrite <- list_fmap_compose.
      apply list_fmap_ext. intros k i Hi. apply lookup_seqZ in Hi as [-> Hi]. unfold slot, compose.
      cbn [lines start]. rewrite Hmod.
      rewrite list_lookup_insert_ne; [done|]. intros E.
      assert (E' : (start r + (1 + (0 + Z.of_nat k))) mod 256 = (start r + 0) mod 256).
      { rewrite (Z.mod_small (start r + 0)) by (unfold LOG_RING_SIZE in *; lia).
        pose proof (Z.mod_pos_bound (start r + (1 + (0 + Z.of_nat k))) 256). unfold LOG_RING_SIZE in *. lia. }
      apply slot_inj in E'; lia.
    + cbn [fmap list_fmap]. unfold slot. cbn [lines start]. rewrite Hmod.
      replace ((start r + (1 + 255)) mod LOG_RING_SIZE) with (start r).
      2:{ unfold LOG_RING_SIZE in *. replace (start r + (1 + 255)) with (start r + 1 * 256) by lia.
          rewrite Z.mod_add by lia. rewrite Z.mod_small by lia. done. }
      rewrite list_lookup_insert_eq; [done|]. unfold LOG_RING_SIZE in *. lia.
Qed.

Lemma append_refines r line :
  ring_ok r →
  ∃ r', log_ring_append line r = Ok r' ∧ ring_ok r' ∧
    contents r' = lastn 256 (contents r ++ [snprintf LOG_LINE_MAX line]).
Proof.
  intros R. pose proof (ro_count _ R) as Hc. pose proof (length_contents r ltac:(lia)) as Hlen.
  unfold lastn. rewrite length_app. cbn [length]. destruct (decide (count r = LOG_RING_SIZE)) as [E|E].
  - destruct (append_full r line R E) as (r' & H1 & H2 & H3). exists r'. split_and!; try done. rewrite H3.
    rewrite Hlen, E. change (Z.to_nat LOG_RING_SIZE + 1 - 256)%nat with 1%nat.
    destruct (contents r); [|done]. rewrite E in Hlen. done.
  - destruct (append_room r line R) as (r' & H1 & H2 & H3); [lia|]. exists r'. split_and!; try done. rewrite H3.
    unfold LOG_RING_SIZE in *. replace (length (contents r) + 1 - 256)%nat with 0%nat by lia. done.
Qed.

(** ** Copying *)

Fixpoint cat (l : list string) : string :=
  match l with [] => EmptyString | s :: l' => (s +:+ cat l')%string end.

Lemma substring_beyond n s t :
  (String.length s ≤ n)%nat →
  String.substring 0 n (s +:+ t) = (s +:+ String.substring 0 (n - String.length s) t)%string.
Proof.
  revert n. induction s as [|a s IH]; intros n Hn; [by rewrite Nat.sub_0_r|].
  destruct n as [|n]; simpl in Hn; [lia|]. rewrite !append_step. simpl. f_equal. apply IH. lia.
Qed.

Lemma substring_within n s t :
  (n ≤ String.length s)%nat → String.substring 0 n (s +:+ t) = String.substring 0 n s.
Proof.
  revert n. induction s as [|a s IH]; intros n Hn; [simpl in Hn; by destruct n, t; try lia|].
  destruct n as [|n]; [done|]. rewrite append_step. simpl. f_equal. apply IH. simpl in Hn. lia.
Qed.

Lemma contents_at r i :
  ring_ok r → 0 ≤ i < count r →
  ∃ s, arr_get (lines r) ((start r + i) mod LOG_RING_SIZE) = Ok s ∧ contents r !! Z.to_nat i = Some s.
Proof.
  intros R Hi. pose proof (slot_lt r i) as Hs. rewrite <- (ro_len _ R) in Hs.
  apply lookup_lt_is_Some in Hs as [s Hs]. exists s.
  pose proof (Z.mod_pos_bound (start r + i) LOG_RING_SIZE ltac:(unfold LOG_RING_SIZE; lia)).
  split.
  - unfold arr_get. replace (_ <? 0) with false by lia. unfold slot in Hs. by rewrite Hs.
  - unfold contents. rewrite list_lookup_fmap, lookup_seqZ_lt, Z2Nat.id, Z.add_0_l by lia.
    change (Some (default EmptyString (lines r !! slot r i)) = Some s). by rewrite Hs.
Qed.

Lemma copy_loop_ok left i len buf r :
  ring_ok r → 0 ≤ i ≤ count r → (Z.to_nat (count r - i) < left)%nat →
  Z.of_nat (String.length buf) < len →
  copy_loop left i len buf r =
    Ok (snprintf (Z.to_nat len) (buf +:+ cat (drop (Z.to_nat i) (contents r)))%string).
Proof.
  intros R. revert i buf. induction left as [|left IH]; intros i buf Hi Hf Hb; [lia|]. cbn [copy_loop].
  pose proof (ro_count _ R) as Hc. replace (Z.of_nat (String.length buf) <? len) with true by lia.
  rewrite andb_true_r. destruct (Z.ltb_spec i (count r)).
  - rewrite (ring_index r i R) by (unfold LOG_RING_SIZE in *; lia).
    destruct (contents_at r i R ltac:(lia)) as (s & -> & Hs). unfold mbind, res_bind.
    rewrite (drop_S _ _ _ Hs). cbn [cat].
    destruct (Z.leb_spec (len - Z.of_nat (String.length buf)) (Z.of_nat (String.length s))).
    + unfold snprintf. rewrite substring_beyond by lia. f_equal. f_equal.
      rewrite substring_within by lia. f_equal. lia.
    + rewrite (snprintf_fits _ s) by lia. rewrite IH; [|lia|lia|rewrite length_append; lia].
      rewrite append_assoc. by replace (Z.to_nat (i + 1)) with (S (Z.to_nat i)) by lia.
  - replace i with (count r) by lia. rewrite drop_ge by (rewrite length_contents by lia; lia).
    cbn [cat]. rewrite append_nil, snprintf_fits by lia. done.
Qed.

Lemma copy_ok len r :
  ring_ok r → 0 < len → log_ring_copy len r = Ok (snprintf (Z.to_nat len) (cat (contents r))).
Proof.
  intros R Hl. pose proof (ro_count _ R). unfold log_ring_copy.
  rewrite copy_loop_ok by (done || simpl; lia). cbn. rewrite length_snprintf.
  destruct (Z.ltb_spec (Z.of_nat (Nat.min (Z.to_nat len - 1)
    (String.length ("" +:+ cat (drop (Z.to_nat 0) (contents r)))))) len); [done|lia].
Qed.

Lemma init_ok rc : ring_ok (fst (log_ring_init rc)) ∧ contents (fst (log_ring_init rc)) = [].
Proof.
  unfold log_ring_init. split; [split|done]; cbn [fst lines start count].
  - by rewrite length_replicate.
  - unfold LOG_RING_SIZE. lia.
  - unfold LOG_RING_SIZE. lia.
  - apply Forall_replicate. unfold LOG_LINE_MAX. simpl. lia.
Qed.

(** ** What the log keeps *)

Fixpoint append_all (ls : list string) (r : log_ring_t) : res log_ring_t :=
  match ls with [] => Ok r | l :: ls' => r' ← log_ring_append l r; append_all ls' r' end.

Lemma lastn_app_lastn {A} n (l1 l2 : list A) : lastn n (lastn n l1 ++ l2) = lastn n (l1 ++ l2).
Proof.
  unfold lastn. rewrite !length_app, length_drop.
  destruct (decide (length l1 ≤ n)%nat).
  - replace (length l1 - n)%nat with 0%nat by lia. rewrite drop_0. f_equal. lia.
  - assert (E : l1 ++ l2 = take (length l1 - n) l1 ++ (drop (length l1 - n) l1 ++ l2))
      by (by rewrite app_assoc, take_drop).
    rewrite E, (drop_app_ge (take _ _)) by (rewrite length_take; lia). f_equal. rewrite length_take. lia.
Qed.

Lemma append_all_ok ls r :
  ring_ok r → ∃ r', append_all ls r = Ok r' ∧ ring_ok r' ∧
    contents r' = lastn 256 (contents r ++ (snprintf LOG_LINE_MAX <$> ls)).
Proof.
  revert r. induction ls as [|l ls IH]; intros r R; simpl.
  - exists r. split_and!; try done. rewrite app_nil_r. unfold lastn. pose proof (ro_count _ R) as Hc.
    rewrite length_contents by lia. unfold LOG_RING_SIZE in Hc. by replace (_ - 256)%nat with 0%nat by lia.
  - destruct (append_refines r l R) as (r1 & H1 & R1 & C1). rewrite H1.
    destruct (IH r1 R1) as (r2 & H2 & R2 & C2). exists r2. split_and!; try done.
    rewrite C2, C1, lastn_app_lastn, <- app_assoc. done.
Qed.

(** C21: Whatever requests are logged, the ring holds the last 256 lines, oldest first
    and each cut to 255 characters; a buffer of [LOG_RING_SIZE * LOG_LINE_MAX + 1]
    bytes, as /admin/logs uses, receives them all, and a smaller one their
    beginning. *)
Theorem log_ring_keeps_last rc ls len :
  0 < len →
  ∃ r, append_all ls (fst (log_ring_init rc)) = Ok r ∧
    contents r = lastn 256 (snprintf LOG_LINE_MAX <$> ls) ∧
    log_ring_copy len r = Ok (snprintf (Z.to_nat len) (cat (contents r))) ∧
    (LOG_RING_SIZE * Z.of_nat LOG_LINE_MAX < len → log_ring_copy len r = Ok (cat (contents r))).
Proof.
  intros Hl. destruct (init_ok rc) as [R0 C0]. destruct (append_all_ok ls _ R0) as (r & H1 & R & C).
  exists r. rewrite C0 in C. split_and!; try done; [by apply copy_ok|]. intros Hbig. rewrite copy_ok by done.
  rewrite snprintf_fits; [done|]. pose proof (ro_count _ R) as Hc.
  assert (Hall : Forall (λ s, String.length s < 256)%nat (contents r)).
  { rewrite C. apply Forall_drop, Forall_fmap, Forall_true. intros s. unfold compose.
    rewrite length_snprintf. unfold LOG_LINE_MAX. lia. }
  assert (Hcat : ∀ l, Forall (λ s, String.length s < 256)%nat l → (String.length (cat l) ≤ 255 * length l)%nat).
  { intros l. induction 1 as [|s l Hs _ IH]; [done|]. cbn [cat length]. rewrite length_append. lia. }
  specialize (Hcat _ Hall). rewrite length_contents in Hcat by lia.
  unfold LOG_RING_SIZE, LOG_LINE_MAX in *. lia.
Qed.

Lemma log_ring_keeps_last_witness :
  ∃ r, append_all ["a"; "b"] (fst (log_ring_init 0)) = Ok r ∧
    contents r = lastn 256 (snprintf LOG_LINE_MAX <$> ["a"; "b"]) ∧
    log_ring_copy 65537 r = Ok (snprintf (Z.to_nat 65537) (cat (contents r))) ∧
    (LOG_RING_SIZE * Z.of_nat LOG_LINE_MAX < 65537 → log_ring_copy 65537 r = Ok (cat (contents r))).
Proof. apply (log_ring_keeps_last 0 ["a"; "b"] 65537). lia. Defined.

End HttpLog.
