(* ===== verification/HttpNet.v ===== *)
(** * HttpNet: sockets and event-stream subscribers (demo/http_server.c)

    Descriptors are open or closed; using or closing one that is not open is a
    fault ([BadFd]).  What [send] answers is a list the environment provides: a
    number of bytes taken, an interruption, or an error.  A call that finds no
    answer left blocks. *)
From S2P Require Export Text.
Local Open Scope Z_scope.

Module HttpNet.

Inductive send_answer := Sent (n : nat) | Eintr | SendError.

(** The open descriptors, what each peer has received, the answers to come. *)
Record net := mk_net {
  n_open : gset Z;
  n_sent : gmap Z string;
  n_answers : list send_answer
}.
Abbreviation NM := (M net).

Definition close (fd : Z) : NM unit := λ w,
  if bool_decide (fd ∈ n_open w)
  then Ok (tt, mk_net (n_open w ∖ {[fd]}) (n_sent w) (n_answers w)) else Fault BadFd.

Definition rest (n : nat) (s : string) : string := String.substring n (String.length s - n) s.

(** The loop of write_all: the result, the bytes delivered and the answers left. *)
Fixpoint send_loop (answers : list send_answer) (buf : string)
    : option (bool * string * list send_answer) :=
  match buf with
  | EmptyString => Some (true, EmptyString, answers)
  | _ =>
      match answers with
      | [] => None
      | Eintr :: l => send_loop l buf
      | SendError :: l => Some (false, EmptyString, l)
      | Sent n :: l =>
          let n := Nat.min n (String.length buf) in
          if (n =? 0)%nat then Some (false, EmptyString, l)
          else '(ok, d, l') ← send_loop l (rest n buf); Some (ok, String.substring 0 n buf +:+ d, l')%string
      end
  end.

(** [true] is the result 0, [false] the result -1. *)
Definition write_all (fd : Z) (buf : string) : NM bool := λ w,
  if bool_decide (fd ∈ n_open w) then
    match send_loop (n_answers w) buf with
    | Some (ok, d, l) =>
        Ok (ok, mk_net (n_open w) (<[fd := (default "" (n_sent w !! fd) +:+ d)%string]> (n_sent w)) l)
    | None => Blocks
    end
  else Fault BadFd.

(** ** Subscribers *)

Definition MAX_SSE_CLIENTS : Z := 64.

Record sse_t := mk_sse { fds : list Z; sse_count : Z }.
Definition sse_init : sse_t := mk_sse (replicate (Z.to_nat MAX_SSE_CLIENTS) 0) 0.

(** The functions below run under [sse_clients.mutex]. *)
Definition sse_register (fd : Z) (t : sse_t) : res (Z * sse_t) :=
  if sse_count t <? MAX_SSE_CLIENTS then
    a ← arr_set (fds t) (sse_count t) fd;
    Ok (0, mk_sse a (sse_count t + 1))
  else Ok (-1, t).

(** The loop of sse_send_all: [i] is read, [n] is where the live ones go. *)
Fixpoint sse_send_loop (left : nat) (i n : Z) (frame : string) (a : list Z) : NM (list Z * Z) :=
  match left with
  | O => mret (a, n)
  | S left' =>
      cfd ← lift (arr_get a i);
      ok ← write_all cfd frame;
      if (ok : bool) then
        a' ← lift (arr_set a n cfd);
        sse_send_loop left' (i + 1) (n + 1) frame a'
      else
        close cfd;;
        sse_send_loop left' (i + 1) n frame a
  end.

Definition sse_send_all (frame : string) (t : sse_t) : NM sse_t :=
  '(a, n) ← sse_send_loop (Z.to_nat (sse_count t)) 0 0 frame (fds t);
  mret (mk_sse a n).

Fixpoint sse_close_loop (left : nat) (i : Z) (a : list Z) : NM unit :=
  match left with
  | O => mret tt
  | S left' => cfd ← lift (arr_get a i); close cfd;; sse_close_loop left' (i + 1) a
  end.

Definition sse_close_all (t : sse_t) : NM sse_t :=
  sse_close_loop (Z.to_nat (sse_count t)) 0 (fds t);;
  mret (mk_sse (fds t) 0).

(** ** Sending *)

Definition received (w : net) (fd : Z) : string := default "" (n_sent w !! fd).

Lemma substring_rest n s : (n ≤ String.length s)%nat → (String.substring 0 n s +:+ rest n s = s)%string.
Proof.
  unfold rest. revert n. induction s as [|a s IH]; intros [|n] Hn; simpl in *; try done; try lia.
  - rewrite substring_all; [done|]. simpl. lia.
  - rewrite append_step. f_equal. apply IH. lia.
Qed.

Lemma rest_empty n s : (n < String.length s)%nat → rest n s ≠ "".
Proof.
  unfold rest. revert n. induction s as [|a s IH]; intros [|n] Hn; simpl in *; try lia; [done|]. apply IH. lia.
Qed.

Lemma length_rest n s : String.length (rest n s) = (String.length s - n)%nat.
Proof.
  unfold rest. revert n. induction s as [|a s IH]; intros [|n]; simpl; try done; try apply IH.
  f_equal. rewrite length_substring. lia.
Qed.

Lemma send_loop_empty answers : send_loop answers "" = Some (true, "", answers).
Proof. by destruct answers. Qed.

Lemma send_loop_cons a l b :
  b ≠ "" → send_loop (a :: l) b =
    match a with
    | Eintr => send_loop l b
    | SendError => Some (false, "", l)
    | Sent n =>
        let n := Nat.min n (String.length b) in
        if (n =? 0)%nat then Some (false, "", l)
        else '(ok, d, l') ← send_loop l (rest n b); Some (ok, String.substring 0 n b +:+ d, l')%string
    end.
Proof. by destruct b. Qed.

Lemma nonempty_length (b : string) : b ≠ "" → (0 < String.length b)%nat.
Proof. destruct b; [done|]. simpl. lia. Qed.

Lemma send_loop_ok answers buf ok d l :
  send_loop answers buf = Some (ok, d, l) →
  (ok = true ∧ d = buf) ∨ (ok = false ∧ ∃ r, buf = (d +:+ r)%string ∧ r ≠ "").
Proof.
  revert buf ok d l. induction answers as [|a answers IH]; intros b ok d l H;
    (destruct (decide (b = "")) as [->|Hne]; [rewrite send_loop_empty in H; injection H as <- <- _; by left|]).
  { by destruct b. }
  rewrite send_loop_cons in H by done. pose proof (nonempty_length b Hne).
  destruct a as [n| |]; [|by eapply IH|injection H as <- <- _; right; split; [done|by exists b]].
  cbv zeta in H. destruct (Nat.eqb_spec (Nat.min n (String.length b)) 0).
  - injection H as <- <- _. right. split; [done|]. by exists b.
  - apply bind_Some in H as ([[ok' d'] l'] & Hs & [= <- <- <-]).
    destruct (IH _ _ _ _ Hs) as [[-> ->]|(-> & r & Hr & Hrn)].
    + left. split; [done|]. apply substring_rest. lia.
    + right. split; [done|]. exists r. split; [|done]. rewrite append_assoc, <- Hr. symmetry.
      apply substring_rest. lia.
Qed.

(** Answers that make progress suffice: at most one per byte is needed. *)
Definition progress (a : send_answer) : nat := match a with Sent (S _) => 1 | _ => 0 end.

Definition willing (k : nat) (l : list send_answer) : Prop :=
  Forall (λ a, a ≠ SendError ∧ a ≠ Sent 0) l ∧ (k ≤ sum_list (progress <$> l))%nat.

Lemma send_loop_returns answers buf k :
  willing (String.length buf + k) answers →
  ∃ l, send_loop answers buf = Some (true, buf, l) ∧ willing k l.
Proof.
  intros [Hall Hl]. revert buf Hl. induction Hall as [|a answers [Ha Hz] Hall IH]; intros b Hl;
    (destruct (decide (b = "")) as [->|Hne]; [rewrite send_loop_empty; eexists; split; [done|]|]).
  { by split. }
  { pose proof (nonempty_length b Hne). simpl in Hl. lia. }
  { split; [by constructor|]. simpl String.length in Hl. lia. }
  rewrite send_loop_cons by done. pose proof (nonempty_length b Hne).
  destruct a as [[|n]| |]; try done; [|apply IH; exact Hl]. cbv zeta.
  destruct (Nat.eqb_spec (Nat.min (S n) (String.length b)) 0); [lia|].
  change (String.length b + k ≤ 1 + sum_list (progress <$> answers))%nat in Hl.
  destruct (IH (rest (Nat.min (S n) (String.length b)) b)) as (l & Hs & Hw); [rewrite length_rest; lia|].
  exists l. rewrite Hs. unfold mbind, option_bind. rewrite substring_rest by lia. done.
Qed.

(** write_all either delivers the whole buffer or reports an error having delivered
    a proper prefix of it; it touches no other connection and no descriptor. *)
Lemma write_all_run fd buf w :
  fd ∈ n_open w →
  match write_all fd buf w with
  | Ok (ok, w') => ∃ d r, buf = (d +:+ r)%string ∧ (ok = true ↔ r = "") ∧
      received w' fd = (received w fd +:+ d)%string ∧
      (∀ fd', fd' ≠ fd → received w' fd' = received w fd') ∧ n_open w' = n_open w
  | Blocks => True
  | Fault _ => False
  end.
Proof.
  intros Ho. unfold write_all. rewrite bool_decide_true by done.
  destruct (send_loop (n_answers w) buf) as [[[ok d] l]|] eqn:Hs; [|done].
  assert (Hrest : ∃ r, buf = (d +:+ r)%string ∧ (ok = true ↔ r = "")).
  { destruct (send_loop_ok _ _ _ _ _ Hs) as [[-> ->]|(-> & r & -> & Hr)].
    - exists "". by rewrite append_nil.
    - exists r. split; [done|]. by split. }
  destruct Hrest as (r & Hb & Hok). exists d, r. unfold received. simpl. split_and!; try done.
  - by rewrite lookup_insert_eq.
  - intros fd' Hne. by rewrite lookup_insert_ne.
Qed.

Lemma write_all_returns fd buf k w :
  fd ∈ n_open w → willing (String.length buf + k) (n_answers w) →
  ∃ w', write_all fd buf w = Ok (true, w') ∧ received w' fd = (received w fd +:+ buf)%string ∧
    n_open w' = n_open w ∧ willing k (n_answers w').
Proof.
  intros Ho Hw. unfold write_all. rewrite bool_decide_true by done.
  destruct (send_loop_returns _ _ _ Hw) as (l & -> & Hl). eexists. split; [done|].
  unfold received. simpl. by rewrite lookup_insert_eq.
Qed.

(** ** The table of subscribers *)

Definition subs (t : sse_t) : list Z := take (Z.to_nat (sse_count t)) (fds t).

(** The table is within its bounds; its descriptors are open, each entered once. *)
Record sse_ok (w : net) (t : sse_t) : Prop := {
  so_len : length (fds t) = Z.to_nat MAX_SSE_CLIENTS;
  so_count : 0 ≤ sse_count t ≤ MAX_SSE_CLIENTS;
  so_nodup : NoDup (subs t);
  so_open : Forall (λ fd, fd ∈ n_open w) (subs t)
}.

Lemma length_subs w t : sse_ok w t → length (subs t) = Z.to_nat (sse_count t).
Proof. intros [Hl Hc _ _]. unfold subs. rewrite length_take, Hl. unfold MAX_SSE_CLIENTS in *. lia. Qed.

Lemma close_ok fd w :
  fd ∈ n_open w → close fd w = Ok (tt, mk_net (n_open w ∖ {[fd]}) (n_sent w) (n_answers w)).
Proof. intros H. unfold close. by rewrite bool_decide_true. Qed.

Lemma register_ok w t fd :
  sse_ok w t → fd ∈ n_open w → fd ∉ subs t →
  ∃ t', sse_register fd t = Ok ((if sse_count t <? MAX_SSE_CLIENTS then 0 else -1), t') ∧ sse_ok w t' ∧
    subs t' = if sse_count t <? MAX_SSE_CLIENTS then subs t ++ [fd] else subs t.
Proof.
  intros T Ho Hn. pose proof T as [Hl Hc Hnd Hop]. unfold sse_register.
  destruct (Z.ltb_spec (sse_count t) MAX_SSE_CLIENTS) as [Hlt|]; [|by exists t].
  unfold arr_set. replace ((sse_count t <? 0) || (Z.of_nat (length (fds t)) <=? sse_count t)) with false
    by (unfold MAX_SSE_CLIENTS in *; lia).
  eexists. split; [done|].
  assert (Hsubs : subs (mk_sse (<[Z.to_nat (sse_count t) := fd]> (fds t)) (sse_count t + 1)) = subs t ++ [fd]).
  { unfold subs. cbn [fds sse_count]. replace (Z.to_nat (sse_count t + 1)) with (S (Z.to_nat (sse_count t))) by lia.
    rewrite (take_S_r _ _ fd) by (apply list_lookup_insert_eq; unfold MAX_SSE_CLIENTS in *; lia).
    by rewrite take_insert_ge by lia. }
  rewrite Hsubs. split; [|done]. split; rewrite ?Hsubs; cbn [fds sse_count].
  - by rewrite length_insert.
  - unfold MAX_SSE_CLIENTS in *. lia.
  - apply NoDup_app. split_and!; [done|by intros x Hx ->%list_elem_of_singleton|apply NoDup_singleton].
  - apply Forall_app. split; [done|]. by apply Forall_singleton.
Qed.

(** The writes of a frame to [todo], one after the other, as the answers of the peers
    decide them: for each descriptor the result of write_all and the bytes delivered. *)
Fixpoint write_results (frame : string) (todo : list Z) (answers : list send_answer)
    : option (list (Z * (bool * string)) * list send_answer) :=
  match todo with
  | [] => Some ([], answers)
  | fd :: todo' =>
      '(ok, d, l) ← send_loop answers frame;
      '(rs, l') ← write_results frame todo' l;
      Some ((fd, (ok, d)) :: rs, l')
  end.

(** The descriptors whose write had result [b]. *)
Definition picked (b : bool) (rs : list (Z * (bool * string))) : list Z :=
  (filter (λ r, fst (snd r) = b) rs).*1.

Lemma picked_cons b fd ok d rs :
  picked b ((fd, (ok, d)) :: rs) = if bool_decide (ok = b) then fd :: picked b rs else picked b rs.
Proof. unfold picked. rewrite filter_cons. simpl. case_decide; case_bool_decide; done. Qed.

Lemma picked_split rs : rs.*1 ≡ₚ picked true rs ++ picked false rs.
Proof.
  induction rs as [|[fd [[] d]] rs IH]; [done|..]; rewrite fmap_cons, !picked_cons; simpl; rewrite IH; [done|].
  by rewrite Permutation_middle.
Qed.

Lemma picked_sublist b rs : picked b rs `sublist_of` rs.*1.
Proof.
  induction rs as [|[fd [ok d]] rs IH]; [done|]. rewrite fmap_cons, picked_cons.
  case_bool_decide; [by apply sublist_skip|by apply sublist_cons].
Qed.

Lemma write_results_order frame todo answers rs l :
  write_results frame todo answers = Some (rs, l) → rs.*1 = todo.
Proof.
  revert answers rs l. induction todo as [|fd todo IH]; intros answers rs l H; [by injection H as <- _|].
  cbn [write_results] in H. apply bind_Some in H as ([[ok d] l1] & _ & H).
  apply bind_Some in H as ([rs' l'] & H' & [= <- _]). rewrite fmap_cons. f_equal. by eapply IH.
Qed.

(** A write succeeds when it has delivered the whole frame. *)
Lemma write_results_ok frame todo answers rs l fd ok d :
  write_results frame todo answers = Some (rs, l) → (fd, (ok, d)) ∈ rs → (ok = true ↔ d = frame).
Proof.
  revert answers rs l. induction todo as [|x todo IH]; intros answers rs l H Hin; [injection H as <- _; set_solver|].
  cbn [write_results] in H. apply bind_Some in H as ([[ok1 d1] l1] & Hs & H).
  apply bind_Some in H as ([rs' l'] & H' & [= <- _]). apply elem_of_cons in Hin as [[= -> -> ->]|Hin]; [|by eapply IH].
  destruct (send_loop_ok _ _ _ _ _ Hs) as [[-> ->]|(-> & r & E & Hr)]; [done|]. split; [done|]. intros ->. exfalso.
  assert (El : String.length frame = String.length (frame +:+ r)) by congruence.
  rewrite length_append in El. destruct r; [done|simpl in El; lia].
Qed.

(** What a pass that finds the results [rs] leaves: behind the first [n] entries of the
    table are the descriptors whose write succeeded, the others are closed. *)
Definition passed (rs : list (Z * (bool * string))) (l : list send_answer) (w : net) (a : list Z) (n : Z)
    (a' : list Z) (n' : Z) (w' : net) : Prop :=
  take (Z.to_nat n') a' = take (Z.to_nat n) a ++ picked true rs ∧ length a' = length a ∧
  n' = n + Z.of_nat (length (picked true rs)) ∧
  n_open w' = n_open w ∖ list_to_set (picked false rs) ∧ n_answers w' = l ∧
  (∀ fd ok d, (fd, (ok, d)) ∈ rs → received w' fd = (received w fd +:+ d)%string) ∧
  (∀ fd, fd ∉ rs.*1 → received w' fd = received w fd).

Lemma passed_none w a n : passed [] (n_answers w) w a n a n w.
Proof.
  unfold passed. cbn. split_and!; try done; [by rewrite app_nil_r|lia|set_solver|set_solver].
Qed.

(** The network after a write that delivered [d]. *)
Definition wrote (fd : Z) (d : string) (l : list send_answer) (w : net) : net :=
  mk_net (n_open w) (<[fd := (received w fd +:+ d)%string]> (n_sent w)) l.

Lemma wrote_same fd d l w : received (wrote fd d l w) fd = (received w fd +:+ d)%string.
Proof. unfold wrote, received. simpl. by rewrite lookup_insert_eq. Qed.
Lemma wrote_other fd d l w fd' : fd' ≠ fd → received (wrote fd d l w) fd' = received w fd'.
Proof. intros H. unfold wrote, received. simpl. by rewrite lookup_insert_ne. Qed.

(** The deliveries of a pass whose first write is to [cfd]. *)
Lemma passed_received (cfd : Z) (ok : bool) (d : string) l1 (rs : list (Z * (bool * string))) w w1 w' :
  cfd ∉ rs.*1 → (∀ fd, received w1 fd = received (wrote cfd d l1 w) fd) →
  (∀ fd ok d, (fd, (ok, d)) ∈ rs → received w' fd = (received w1 fd +:+ d)%string) →
  (∀ fd, fd ∉ rs.*1 → received w' fd = received w1 fd) →
  (∀ fd ok' d', (fd, (ok', d')) ∈ (cfd, (ok, d)) :: rs → received w' fd = (received w fd +:+ d')%string) ∧
  (∀ fd, fd ∉ ((cfd, (ok, d)) :: rs).*1 → received w' fd = received w fd).
Proof.
  intros Hnew H1 Hin Hout. split.
  - intros fd ok' d' [[= -> -> ->]|Hr]%elem_of_cons; [by rewrite Hout, H1, wrote_same|].
    rewrite (Hin _ _ _ Hr), H1, wrote_other; [done|]. intros ->. apply Hnew. apply list_elem_of_fmap. by exists (cfd, (ok', d')).
  - intros fd [Hne Hn]%not_elem_of_cons. rewrite Hout, H1 by done. by apply wrote_other.
Qed.

Lemma passed_live (cfd : Z) (d : string) l1 rs l w a n a' n' w' :
  cfd ∉ rs.*1 → 0 ≤ n < Z.of_nat (length a) →
  passed rs l (wrote cfd d l1 w) (<[Z.to_nat n := cfd]> a) (n + 1) a' n' w' →
  passed ((cfd, (true, d)) :: rs) l w a n a' n' w'.
Proof.
  intros Hnew Hn (Htake & Hl & Hn' & Hopen & Hans & Hin & Hout).
  destruct (passed_received cfd true d l1 rs w _ w' Hnew (λ fd, eq_refl) Hin Hout) as [Hin' Hout'].
  unfold passed. rewrite !picked_cons. simpl. split_and!; try done.
  - rewrite Htake. replace (Z.to_nat (n + 1)) with (S (Z.to_nat n)) by lia.
    rewrite (take_S_r _ _ cfd) by (apply list_lookup_insert_eq; lia).
    rewrite take_insert_ge by lia. by rewrite <- app_assoc.
  - by rewrite Hl, length_insert.
  - rewrite Hn'. simpl. lia.
Qed.

Lemma passed_dead (cfd : Z) (d : string) l1 rs l w a n a' n' w' :
  cfd ∉ rs.*1 →
  passed rs l (mk_net (n_open w ∖ {[cfd]}) (n_sent (wrote cfd d l1 w)) l1) a n a' n' w' →
  passed ((cfd, (false, d)) :: rs) l w a n a' n' w'.
Proof.
  intros Hnew (Htake & Hl & Hn' & Hopen & Hans & Hin & Hout).
  destruct (passed_received cfd false d l1 rs w _ w' Hnew (λ fd, eq_refl) Hin Hout) as [Hin' Hout'].
  unfold passed. rewrite !picked_cons. simpl. split_and!; try done.
  rewrite Hopen. simpl. set_solver.
Qed.

Lemma write_all_wrote fd buf w :
  fd ∈ n_open w →
  write_all fd buf w = match send_loop (n_answers w) buf with
                       | Some (ok, d, l) => Ok (ok, wrote fd d l w)
                       | None => Blocks
                       end.
Proof. intros Ho. unfold write_all. rewrite bool_decide_true by done. by destruct (send_loop _ _) as [[[]]|]. Qed.

(** [todo] is the part of the table not yet visited. *)
Lemma send_loop_table left i n frame a w :
  0 ≤ n ≤ i → (Z.to_nat i + left ≤ length a)%nat →
  let todo := take left (drop (Z.to_nat i) a) in
  NoDup todo → Forall (λ fd, fd ∈ n_open w) todo →
  match write_results frame todo (n_answers w) with
  | Some (rs, l) => ∃ a' n' w', sse_send_loop left i n frame a w = Ok ((a', n'), w') ∧ passed rs l w a n a' n' w'
  | None => sse_send_loop left i n frame a w = Blocks
  end.
Proof.
  revert i n a w. induction left as [|left IH]; intros i n a w Hn Hi todo Hnd Hop.
  { exists a, n, w. split; [done|apply passed_none]. }
  destruct (lookup_lt_is_Some_2 a (Z.to_nat i) ltac:(lia)) as [cfd Hcfd].
  assert (Htodo : todo = cfd :: take left (drop (Z.to_nat (i + 1)) a)).
  { unfold todo. rewrite (drop_S _ _ _ Hcfd). simpl. by replace (Z.to_nat (i + 1)) with (S (Z.to_nat i)) by lia. }
  clearbody todo. subst todo. apply NoDup_cons in Hnd as [Hnew Hnd]. apply Forall_cons in Hop as [Ho Hop].
  assert (Hloop : sse_send_loop (S left) i n frame a w =
    (ok ← write_all cfd frame;
     if (ok : bool) then a' ← lift (arr_set a n cfd); sse_send_loop left (i + 1) (n + 1) frame a'
     else close cfd;; sse_send_loop left (i + 1) n frame a) w).
  { cbn [sse_send_loop]. erewrite M_bind_ok; [reflexivity|].
    apply lift_ok. unfold arr_get. replace (i <? 0) with false by lia. by rewrite Hcfd. }
  unfold mbind at 1, M_bind at 1 in Hloop. rewrite (write_all_wrote cfd frame w Ho) in Hloop.
  rewrite Hloop. clear Hloop.
  cbn [write_results]. destruct (send_loop (n_answers w) frame) as [[[ok d] l1]|]; [|done]. cbn [mbind option_bind].
  destruct ok.
  - erewrite M_bind_ok.
    2:{ apply lift_ok. unfold arr_set. replace ((n <? 0) || (Z.of_nat (length a) <=? n)) with false by lia. done. }
    specialize (IH (i + 1) (n + 1) (<[Z.to_nat n := cfd]> a) (wrote cfd d l1 w)).
    rewrite drop_insert_lt, length_insert in IH by lia. specialize (IH ltac:(lia) ltac:(lia) Hnd Hop). cbn [n_answers wrote] in IH.
    destruct (write_results frame _ l1) as [[rs l]|] eqn:Er; cbn [mbind option_bind]; [|done].
    destruct IH as (a' & n' & w' & E & P). exists a', n', w'. split; [exact E|].
    apply passed_live with l1; [by rewrite (write_results_order _ _ _ _ _ Er)|lia|done].
  - rewrite (M_bind_ok _ _ _ _ _ (close_ok cfd (wrote cfd d l1 w) Ho)).
    specialize (IH (i + 1) n a (mk_net (n_open w ∖ {[cfd]}) (n_sent (wrote cfd d l1 w)) l1) ltac:(lia) ltac:(lia) Hnd).
    assert (Hstill : Forall (λ fd, fd ∈ n_open w ∖ {[cfd]}) (take left (drop (Z.to_nat (i + 1)) a))).
    { rewrite Forall_forall in Hop |- *. intros fd Hin. apply elem_of_difference.
      split; [by apply Hop|]. intros ->%elem_of_singleton. done. }
    specialize (IH Hstill). cbn [n_answers] in IH.
    destruct (write_results frame _ l1) as [[rs l]|] eqn:Er; cbn [mbind option_bind]; [|done].
    destruct IH as (a' & n' & w' & E & P). exists a', n', w'. split; [exact E|].
    apply passed_dead with l1; [by rewrite (write_results_order _ _ _ _ _ Er)|done].
Qed.

(** Closing the subscribers from index [i] on. *)
Lemma close_loop_table left i a w :
  0 ≤ i → (Z.to_nat i + left ≤ length a)%nat →
  let todo := take left (drop (Z.to_nat i) a) in
  NoDup todo → Forall (λ fd, fd ∈ n_open w) todo →
  sse_close_loop left i a w = Ok (tt, mk_net (n_open w ∖ list_to_set todo) (n_sent w) (n_answers w)).
Proof.
  revert i w. induction left as [|left IH]; intros i w Hi Hl todo Hnd Hop.
  { unfold todo. simpl. rewrite difference_empty_L. by destruct w. }
  destruct (lookup_lt_is_Some_2 a (Z.to_nat i) ltac:(lia)) as [cfd Hcfd].
  assert (Htodo : todo = cfd :: take left (drop (Z.to_nat (i + 1)) a)).
  { unfold todo. rewrite (drop_S _ _ _ Hcfd). simpl. by replace (Z.to_nat (i + 1)) with (S (Z.to_nat i)) by lia. }
  clearbody todo. subst todo. apply NoDup_cons in Hnd as [Hnew Hnd]. apply Forall_cons in Hop as [Ho Hop].
  cbn [sse_close_loop]. erewrite M_bind_ok.
  2:{ apply lift_ok. unfold arr_get. replace (i <? 0) with false by lia. by rewrite Hcfd. }
  rewrite (M_bind_ok _ _ _ _ _ (close_ok cfd w Ho)). rewrite IH; [|lia|lia|done|].
  - cbn. rewrite difference_difference_l_L. done.
  - rewrite Forall_forall in Hop |- *. intros fd Hin. cbn. apply elem_of_difference.
    split; [by apply Hop|]. intros ->%elem_of_singleton. done.
Qed.

Lemma close_all_ok t w :
  sse_ok w t →
  sse_close_all t w = Ok (mk_sse (fds t) 0, mk_net (n_open w ∖ list_to_set (subs t)) (n_sent w) (n_answers w)).
Proof.
  intros [Hl Hc Hnd Hop]. unfold sse_close_all.
  rewrite (M_bind_ok _ _ _ _ _ (close_loop_table (Z.to_nat (sse_count t)) 0 (fds t) w ltac:(lia)
    ltac:(rewrite Hl; unfold MAX_SSE_CLIENTS in *; lia) Hnd Hop)). done.
Qed.

(** ** What the broadcaster and the admin handler rely on *)

Lemma send_all_results frame t w :
  sse_ok w t →
  match write_results frame (subs t) (n_answers w) with
  | Some (rs, l) =>
      ∃ t' w', sse_send_all frame t w = Ok (t', w') ∧ subs t' = picked true rs ∧ sse_ok w' t' ∧
        n_open w' = n_open w ∖ list_to_set (picked false rs) ∧ n_answers w' = l ∧
        (∀ fd ok d, (fd, (ok, d)) ∈ rs → received w' fd = (received w fd +:+ d)%string) ∧
        (∀ fd, fd ∉ subs t → received w' fd = received w fd)
  | None => sse_send_all frame t w = Blocks
  end.
Proof.
  intros T. pose proof T as [Hl Hc Hnd Hop]. unfold sse_send_all.
  pose proof (send_loop_table (Z.to_nat (sse_count t)) 0 0 frame (fds t) w ltac:(lia)) as H.
  rewrite Hl in H. specialize (H ltac:(unfold MAX_SSE_CLIENTS in *; lia)). simpl drop in H.
  specialize (H Hnd Hop). change (take _ (drop _ (fds t))) with (subs t) in H. unfold mbind, M_bind.
  destruct (write_results frame (subs t) (n_answers w)) as [[rs l]|] eqn:Er; [|by rewrite H].
  destruct H as (a' & n' & w' & -> & Htake & Hl' & Hn' & Hopen & Hans & Hin & Hout).
  rewrite (write_results_order _ _ _ _ _ Er) in Hout.
  exists (mk_sse a' n'), w'. assert (Hsubs : subs (mk_sse a' n') = picked true rs) by done.
  split_and!; try done. pose proof (picked_sublist true rs) as Hsub. rewrite (write_results_order _ _ _ _ _ Er) in Hsub.
  pose proof (picked_split rs) as Hp. rewrite (write_results_order _ _ _ _ _ Er) in Hp.
  split; rewrite ?Hsubs; cbn [fds sse_count].
  - by rewrite Hl', Hl.
  - assert (Hle : (length (picked true rs) ≤ length (subs t))%nat) by (by apply sublist_length).
    rewrite (length_subs w t T) in Hle. lia.
  - by eapply sublist_NoDup.
  - rewrite Hopen. rewrite Forall_forall in Hop |- *. intros fd Hfd. apply elem_of_difference. split.
    + apply Hop. by eapply elem_of_sublist.
    + intros Hd%elem_of_list_to_set. rewrite Hp in Hnd. apply NoDup_app in Hnd as (_ & Hdis & _). by eapply Hdis.
Qed.

(** What the owners of the descriptors need of it. *)
Lemma send_all_table frame t w :
  sse_ok w t →
  match sse_send_all frame t w with
  | Ok (t', w') =>
      ∃ live dead, subs t ≡ₚ live ++ dead ∧ subs t' = live ∧ sse_ok w' t' ∧
        n_open w' = n_open w ∖ list_to_set dead
  | Blocks => True
  | Fault _ => False
  end.
Proof.
  intros T. pose proof (send_all_results frame t w T) as H.
  destruct (write_results frame (subs t) (n_answers w)) as [[rs l]|] eqn:Er; [|by rewrite H].
  destruct H as (t' & w' & -> & Hs & T' & Ho & _). exists (picked true rs), (picked false rs).
  split_and!; try done. pose proof (picked_split rs) as Hp. by rewrite (write_results_order _ _ _ _ _ Er) in Hp.
Qed.

(** C22: Sending a frame writes to the subscribers one after the other, with the answers
    of send in their order. Those that took the whole frame stay, in order; exactly
    those whose write failed before that are closed. Each has received what its write
    delivered, nobody else anything. When the answers end within a write, the thread
    stays in that write. *)
Theorem sse_send_all_spec frame t w :
  sse_ok w t →
  match write_results frame (subs t) (n_answers w) with
  | Some (rs, l) =>
      rs.*1 = subs t ∧ (∀ fd ok d, (fd, (ok, d)) ∈ rs → ok = true ↔ d = frame) ∧
      ∃ t' w', sse_send_all frame t w = Ok (t', w') ∧ subs t' = picked true rs ∧ sse_ok w' t' ∧
        n_open w' = n_open w ∖ list_to_set (picked false rs) ∧ n_answers w' = l ∧
        (∀ fd ok d, (fd, (ok, d)) ∈ rs → received w' fd = (received w fd +:+ d)%string) ∧
        (∀ fd, fd ∉ subs t → received w' fd = received w fd)
  | None => sse_send_all frame t w = Blocks
  end.
Proof.
  intros T. pose proof (send_all_results frame t w T) as H.
  destruct (write_results frame (subs t) (n_answers w)) as [[rs l]|] eqn:Er; [|done].
  split; [by eapply write_results_order|]. split; [intros fd ok d; by eapply write_results_ok|exact H].
Qed.

(** A subscriber that goes away is found by the failing write and closed. *)
Definition two_subs : sse_t := mk_sse (7 :: 9 :: replicate 62 0) 2.
Definition two_net : net := mk_net {[7; 9]} ∅ [Sent 100; SendError].

Lemma two_subs_ok : sse_ok two_net two_subs.
Proof.
  split; [reflexivity|unfold MAX_SSE_CLIENTS; simpl; lia|..]; simpl subs.
  - apply NoDup_ListNoDup. repeat constructor; simpl; lia.
  - repeat constructor; set_solver.
Qed.

Lemma sse_send_all_spec_witness :
  write_results "data: x" (subs two_subs) (n_answers two_net) = Some ([(7, (true, "data: x")); (9, (false, ""))], []) ∧
  ∃ t' w', sse_send_all "data: x" two_subs two_net = Ok (t', w') ∧ subs t' = [7] ∧ sse_ok w' t' ∧
    n_open w' = {[7; 9]} ∖ {[9]}.
Proof.
  pose proof (sse_send_all_spec "data: x" two_subs two_net two_subs_ok) as H.
  assert (E : write_results "data: x" (subs two_subs) (n_answers two_net) =
    Some ([(7, (true, "data: x")); (9, (false, ""))], [])) by (vm_compute; reflexivity).
  split; [exact E|]. rewrite E in H. destruct H as (_ & _ & t' & w' & Hs & Hl & T & Ho & _).
  exists t', w'. split_and!; [exact Hs|exact Hl|exact T|]. rewrite Ho. vm_compute. reflexivity.
Defined.

End HttpNet.
