(* ===== verification/HttpServer.v ===== *)
(** * HttpServer: the demo server (demo/http_server.c)

    A thread of the server is a program: a tree of atomic actions on the shared
    state.  An action is a system call on one descriptor, an atomic operation, or a
    section under one mutex; no thread takes two of the server's mutexes at once.
    [run] executes a program by itself; HttpConnections.v interleaves the programs
    of all threads.  What the system calls answer, the clock, whether the monitor
    is attached and whether the pool takes a task come from the environment. *)
From S2P Require Export HttpText HttpLog HttpNet Mandelbrot Worker.
From Stdlib Require Import Ascii.
Local Open Scope Z_scope.

Module HttpServer.
Import HttpNet HttpLog.

Definition PATH_MAX : nat := 4096.
Definition STATS_JSON_MAX : nat := 256.
Definition crlf : string := String "013" (String "010" "").
Definition newline : string := String "010" "".
Definition quote : string := String "034" "".

(** ** State *)

(** The globals a signal handler changes; -1 is no descriptor. *)
Record ctl := mk_ctl { running : bool; listen_fd : Z; admin_fd : Z }.

(** How far the signal handler has come (a ghost): it stores [running], closes the
    first listener and then the second. *)
Inductive delivery := Undelivered | Stored | ListenClosed | Delivered.

(** The state the threads share; [s_pool] (the pool as the next loads see it) and
    [s_workers] belong to the context of the server. *)
Record server := mk_server {
  s_net : net;
  s_sse : sse_t;
  s_log : log_ring_t;
  s_stdout : list string;
  active : Z;                   (* atomic_uint *)
  total : Z;                    (* atomic_uint_fast64_t *)
  bcast_gen : Z;                (* uint64_t *)
  s_pool : option view;
  s_workers : Z;
  s_conns : gmap Z (Z * string); (* the allocated conn_arg_t: descriptor and peer *)
  s_queue : list Z;             (* the conn_arg_t submitted and not yet run *)
  s_ctl : ctl;
  s_signal : delivery
}.
Abbreviation SM := (M server).

Definition with_net (w : net) (s : server) : server :=
  mk_server w (s_sse s) (s_log s) (s_stdout s) (active s) (total s) (bcast_gen s) (s_pool s) (s_workers s)
    (s_conns s) (s_queue s) (s_ctl s) (s_signal s).
Definition with_sse (t : sse_t) (s : server) : server :=
  mk_server (s_net s) t (s_log s) (s_stdout s) (active s) (total s) (bcast_gen s) (s_pool s) (s_workers s)
    (s_conns s) (s_queue s) (s_ctl s) (s_signal s).
Definition with_log (r : log_ring_t) (out : list string) (s : server) : server :=
  mk_server (s_net s) (s_sse s) r out (active s) (total s) (bcast_gen s) (s_pool s) (s_workers s)
    (s_conns s) (s_queue s) (s_ctl s) (s_signal s).
Definition with_counts (a t g : Z) (s : server) : server :=
  mk_server (s_net s) (s_sse s) (s_log s) (s_stdout s) a t g (s_pool s) (s_workers s)
    (s_conns s) (s_queue s) (s_ctl s) (s_signal s).
Definition with_pool (p : option view) (n : Z) (s : server) : server :=
  mk_server (s_net s) (s_sse s) (s_log s) (s_stdout s) (active s) (total s) (bcast_gen s) p n
    (s_conns s) (s_queue s) (s_ctl s) (s_signal s).
Definition with_conns (m : gmap Z (Z * string)) (q : list Z) (s : server) : server :=
  mk_server (s_net s) (s_sse s) (s_log s) (s_stdout s) (active s) (total s) (bcast_gen s) (s_pool s) (s_workers s)
    m q (s_ctl s) (s_signal s).
Definition with_ctl (c : ctl) (s : server) : server :=
  mk_server (s_net s) (s_sse s) (s_log s) (s_stdout s) (active s) (total s) (bcast_gen s) (s_pool s) (s_workers s)
    (s_conns s) (s_queue s) c (s_signal s).
Definition with_signal (d : delivery) (s : server) : server :=
  mk_server (s_net s) (s_sse s) (s_log s) (s_stdout s) (active s) (total s) (bcast_gen s) (s_pool s) (s_workers s)
    (s_conns s) (s_queue s) (s_ctl s) d.

(** ** Programs *)

Inductive prog (A : Type) : Type :=
  | Ret (a : A)
  | Act {B : Set} (m : SM B) (k : B → prog A).
Arguments Ret {A} a.
Arguments Act {A B} m k.

Fixpoint pbind {A B} (f : A → prog B) (p : prog A) : prog B :=
  match p with
  | Ret a => f a
  | Act m k => Act m (λ b, pbind f (k b))
  end.
#[export] Instance prog_ret : MRet prog := @Ret.
#[export] Instance prog_bind : MBind prog := @pbind.

Definition atomic {A : Set} (m : SM A) : prog A := Act m Ret.

(** Reading from the shared state. *)
Definition reads {A : Set} (f : server → res A) : prog A := atomic (λ s, a ← f s; Ok (a, s)).

(** One thread alone. *)
Fixpoint run {A} (p : prog A) : SM A :=
  match p with
  | Ret a => mret a
  | Act m k => b ← m; run (k b)
  end.

(** ** Actions *)

Definition net_call {A} (m : NM A) : SM A := λ s,
  match m (s_net s) with
  | Ok (a, w) => Ok (a, with_net w s)
  | Blocks => Blocks
  | Fault f => Fault f
  end.

(** A call on the sockets. *)
Definition on_net {A : Set} (m : NM A) : prog A := atomic (net_call m).

(** A new descriptor is one that is not open; another answer is impossible. *)
Definition open_fd (fd : Z) : NM unit := λ w,
  if (0 <=? fd) && negb (bool_decide (fd ∈ n_open w))
  then Ok (tt, mk_net ({[fd]} ∪ n_open w) (delete fd (n_sent w)) (n_answers w)) else Blocks.

Definition active_add (d : Z) : prog unit :=
  atomic (modify (λ s, with_counts (u32 (active s + d)) (total s) (bcast_gen s) s)).
Definition total_add : prog unit :=
  atomic (modify (λ s, with_counts (active s) (u64 (total s + 1)) (bcast_gen s) s)).

(** The signal wakes the broadcaster, whose wait is the action [bcast_wait]. *)
Definition notify_event : prog unit :=
  atomic (modify (λ s, with_counts (active s) (total s) (u64 (bcast_gen s + 1)) s)).

Definition REQ_MAX : nat := 4096.

(** [recv]: the bytes of the request, [None] when it returns zero or less. *)
Definition recv (fd : Z) (answer : option string) : prog (option string) := atomic (A := option string) (λ s,
  if bool_decide (fd ∈ n_open (s_net s))
  then Ok (String.substring 0 (REQ_MAX - 1) <$> answer, s) else Fault BadFd).

(** The C string in a buffer of bytes. *)
Fixpoint cstring (s : string) : string :=
  match s with
  | String c s' => if (c =? "000")%char then "" else String c (cstring s')
  | EmptyString => ""
  end.

Definition byte_string (bs : list Z) : string :=
  foldr (λ b s, String (ascii_of_nat (Z.to_nat b)) s) "" bs.

(** ** Responses *)

Definition head (code : Z) (reason type : string) (len : Z) : string :=
  ("HTTP/1.0 " +:+ dec code +:+ " " +:+ reason +:+ crlf +:+
   "Content-Type: " +:+ type +:+ crlf +:+
   "Content-Length: " +:+ dec len +:+ crlf +:+
   "Connection: close" +:+ crlf +:+ crlf)%string.

(** Sends the text [snprintf] left in a buffer of [size] bytes, using the length it
    returned: beyond the buffer this would read past its end. *)
Definition send_header (fd : Z) (size : nat) (text : string) : prog bool :=
  if (String.length text <? size)%nat then on_net (write_all fd text) else atomic (fail OutOfBounds).

Definition send_typed (fd code : Z) (reason type body : string) : prog Z :=
  send_header fd 512 (head code reason type (Z.of_nat (String.length body)));;
  on_net (write_all fd body);;
  mret (Z.of_nat (String.length body)).

Definition send_status (fd code : Z) (reason body : string) : prog Z :=
  send_header fd 512 (head code reason "text/plain" (Z.of_nat (String.length body)));;
  on_net (write_all fd body);;
  mret (Z.of_nat (String.length body)).

Definition DEFAULT_RENDER_W : Z := 640.
Definition DEFAULT_RENDER_H : Z := 420.
Definition DEFAULT_RENDER_ITER : Z := 800.
Definition MAX_RENDER_W : Z := 2048.
Definition MAX_RENDER_H : Z := 2048.
Definition MAX_RENDER_ITER : Z := 5000.

(** A computation on private data. *)
Definition compute {A : Set} (r : res A) : prog A := atomic (lift r).

(** [resp_t]: status and number of bytes. *)
Definition resp_t : Type := Z * Z.

Definition serve_render (fd : Z) (query : string) (calloc_ok : bool) : prog resp_t :=
  w ← compute (HttpText.query_int query "w" DEFAULT_RENDER_W 16 MAX_RENDER_W);
  h ← compute (HttpText.query_int query "h" DEFAULT_RENDER_H 16 MAX_RENDER_H);
  iter ← compute (HttpText.query_int query "iter" DEFAULT_RENDER_ITER 1 MAX_RENDER_ITER);
  bmp ← compute (Mandelbrot.mandelbrot_bmp true true calloc_ok w h iter);
  match bmp with
  | None =>
      n ← send_status fd 500 "Internal Server Error" ("render failed" +:+ newline);
      mret (500, n)
  | Some bmp =>
      let len := Z.of_nat (length bmp) in
      send_header fd 256 (head 200 "OK" "image/bmp" len);;
      on_net (write_all fd (byte_string bmp));;
      mret (200, len)
  end.

(** ** The request log *)

(** [%.<d>f] of a finite double: the exact value rounded to [d] digits, ties to even. *)
Definition round_even (n d : Z) : Z :=
  let q := n / d in
  let r := n mod d in
  if 2 * r <? d then q else if d <? 2 * r then q + 1 else if Z.even q then q else q + 1.

Definition fixed (d : nat) (x : SpecFloat.spec_float) : string :=
  let text (neg : bool) (q : Z) :=
    ((if neg then "-" else "") +:+ dec (q / 10 ^ Z.of_nat d) +:+ "." +:+
     pad_left d "0" (dec (q mod 10 ^ Z.of_nat d)))%string in
  match x with
  | SpecFloat.S754_zero s => text s 0
  | SpecFloat.S754_finite s m e =>
      let n := Z.pos m * 10 ^ Z.of_nat d in
      text s (if 0 <=? e then n * 2 ^ e else round_even n (2 ^ (- e)))
  | SpecFloat.S754_infinity s => (if s then "-inf" else "inf")%string
  | SpecFloat.S754_nan => "nan"%string
  end.

(** The time a request took, in milliseconds. *)
Definition elapsed_ms (t0 t1 : timespec) : Mandelbrot.double :=
  Mandelbrot.dadd
    (Mandelbrot.dmul (Mandelbrot.of_int (tv_sec t1 - tv_sec t0)) (Mandelbrot.of_int 1000))
    (Mandelbrot.ddiv (Mandelbrot.of_int (tv_nsec t1 - tv_nsec t0)) (Mandelbrot.of_int 1000000)).

Definition log_line (ts peer method path query : string) (r : resp_t) (ms : Mandelbrot.double) : string :=
  snprintf LOG_LINE_MAX
    ("[" +:+ ts +:+ "] " +:+ pad_right 21 peer +:+ " " +:+ method +:+ " " +:+ path +:+
     (match query with EmptyString => "" | _ => "?" +:+ query end) +:+ " -> " +:+ dec (fst r) +:+ " " +:+
     fixed 3 (Mandelbrot.ddiv (Mandelbrot.of_int (snd r))
                (Mandelbrot.dmul (Mandelbrot.of_int 1024) (Mandelbrot.of_int 1024))) +:+ "MB " +:+
     fixed 1 ms +:+ "ms" +:+ newline)%string.

Definition log_request (attached : bool) (ts peer method path query : string) (r : resp_t)
    (ms : Mandelbrot.double) : prog unit :=
  let line := log_line ts peer method path query r ms in
  atomic (λ s, ring ← log_ring_append line (s_log s); Ok (tt, with_log ring (s_stdout s) s));;
  atomic (modify (λ s, if attached then s else with_log (s_log s) (s_stdout s ++ [line]) s)).

(** ** handle_connection *)

(** What the environment contributes to one request. *)
Record env := mk_env {
  e_recv : option string;      (* bytes read, [None]: the client hung up *)
  e_calloc : bool;             (* whether the image buffer can be allocated *)
  e_t0 : timespec;
  e_t1 : timespec;
  e_time : string;             (* "%H:%M:%S" *)
  e_attached : bool            (* whether the monitor is attached *)
}.

(** What the branch for a request leaves for the log: method, path, query, response
    and whether it was a render. *)
Definition outcome_t : Type := string * string * string * resp_t * bool.

Definition answer_request (fd : Z) (e : env) (req : string) : prog outcome_t :=
  match HttpText.sscanf_request req with
  | (Some method, Some target) =>
      if negb (bool_decide (method = "GET")) then
        n ← send_status fd 405 "Method Not Allowed" ("method not allowed" +:+ newline);
        mret (method, snprintf PATH_MAX target, "", (405, n), false)
      else
        let '(target, query) :=
          match HttpText.strchr "?" target with Some (a, b) => (a, b) | None => (target, "") end in
        let path := snprintf PATH_MAX target in
        if bool_decide (target = "/render") then
          r ← serve_render fd query (e_calloc e);
          mret (method, path, query, r, true)
        else
          n ← send_status fd 404 "Not Found" ("not found" +:+ newline);
          mret (method, path, query, (404, n), false)
  | (method, _) =>
      n ← send_status fd 400 "Bad Request" ("bad request" +:+ newline);
      mret (default "?" method, "-", "", (400, n), false)
  end%string.

(** The memory of a connection argument: [malloc] gives an address that is not in
    use; the task reads its argument and frees it. *)
Definition alloc_conn (c : Z) (v : Z * string) : prog unit := atomic (λ s,
  match s_conns s !! c with
  | Some _ => Blocks
  | None => Ok (tt, with_conns (<[c := v]> (s_conns s)) (s_queue s) s)
  end).

Definition take_conn (c : Z) : prog (Z * string) := atomic (λ s,
  match s_conns s !! c with
  | Some v => Ok (v, with_conns (delete c (s_conns s)) (s_queue s) s)
  | None => Fault UseAfterFree
  end).

(** [thread_pool_submit(pool, handle_connection, c, PRIORITY_MEDIUM)], and the creation of a detached
    thread in naive mode: the task will run if it is taken. *)
Definition submit (c : Z) (taken : bool) : prog bool := atomic (λ s,
  Ok (taken, if taken then with_conns (s_conns s) (s_queue s ++ [c]) s else s)).

Definition handle_connection (conn : Z) (e : env) : prog unit :=
  '(fd, peer) ← take_conn conn;
  let peer := snprintf 48 peer in
  notify_event;;
  data ← recv fd (e_recv e);
  match data with
  | None => on_net (close fd);; active_add (-1);; notify_event
  | Some data =>
      '(method, path, query, r, rendered) ← answer_request fd e (cstring data);
      on_net (close fd);;
      active_add (-1);;
      (if (rendered : bool) then total_add else mret tt);;
      notify_event;;
      log_request (e_attached e) (e_time e) peer method path query r (elapsed_ms (e_t0 e) (e_t1 e))
  end.

Definition naive_thread (conn : Z) (e : env) : prog unit := handle_connection conn e.

(** ** The accept loop *)

Definition is_running : prog bool := reads (λ s, Ok (running (s_ctl s))).

(** What accept answers: a client, or one of the errors the callers tell apart. *)
Inductive accept_answer := Accepted (client : Z) | EINTR | EBADF | EOTHER.

(** Whether a descriptor number is open when a call looks it up. *)
Definition is_open (fd : Z) : prog bool := reads (λ s, Ok (bool_decide (fd ∈ n_open (s_net s)))).

(** A call of accept looks [fd] up, which fails with EBADF when the number is not open, and
    returns later: the listener may be closed in between.  The environment decides
    what an open descriptor answers (one that is open but no listener any more, because
    the number was given to a connection, answers an error). *)
Definition accept (fd : Z) (answer : accept_answer) : prog accept_answer :=
  ok ← is_open fd;
  if negb ok then mret EBADF else
  match answer with
  | Accepted client => on_net (open_fd client);; mret answer
  | _ => mret answer
  end.

(** A round of the loop of main behind accept: [conn] is the result of [malloc],
    [taken] says whether the pool (in naive mode the system, with a thread) takes the
    task. *)
Definition accept_client (client : Z) (ip : option string) (cport : Z) (conn : option Z) (taken : bool) : prog unit :=
  match conn with
  | None => on_net (close client)
  | Some c =>
      let peer := match ip with
                  | Some ip => snprintf 48 (ip +:+ ":" +:+ dec cport)
                  | None => snprintf 48 "?"
                  end%string in
      alloc_conn c (client, peer);;
      active_add 1;;
      ok ← submit c taken;
      (if (ok : bool) then mret tt
       else on_net (close client);; take_conn c;; active_add (-1));;
      notify_event
  end.

Record arrival := mk_arrival {
  a_answer : accept_answer;
  a_ip : option string;
  a_port : Z;
  a_conn : option Z;
  a_taken : bool
}.

(** The loop, a round for each entry of the list; [fd] is main's copy of the listener. *)
Fixpoint accept_loop (fd : Z) (arrivals : list arrival) : prog unit :=
  match arrivals with
  | [] => mret tt
  | a :: rest =>
      on ← is_running;
      if negb on then mret tt else
      answer ← accept fd (a_answer a);
      match answer with
      | Accepted client =>
          accept_client client (a_ip a) (a_port a) (a_conn a) (a_taken a);;
          accept_loop fd rest
      | EINTR => accept_loop fd rest
      | EBADF => mret tt
      | EOTHER => on ← is_running; if negb on then mret tt else accept_loop fd rest
      end
  end.

(** ** The admin connection *)

Definition stats_text (len : nat) (workers busy depth act tot : Z) : string :=
  snprintf len
    ("{" +:+ quote +:+ "workers" +:+ quote +:+ ":" +:+ dec workers +:+
     "," +:+ quote +:+ "busy" +:+ quote +:+ ":" +:+ dec busy +:+
     "," +:+ quote +:+ "queue_depth" +:+ quote +:+ ":" +:+ dec depth +:+
     "," +:+ quote +:+ "active_connections" +:+ quote +:+ ":" +:+ dec act +:+
     "," +:+ quote +:+ "total_served" +:+ quote +:+ ":" +:+ dec tot +:+ "}")%string.

(** The gauges are read one after the other. *)
Definition format_stats_json (len : nat) : prog string :=
  busy ← reads (λ s, thread_pool_num_working (s_pool s));
  depth ← reads (λ s, thread_pool_queue_depth (s_pool s));
  act ← reads (λ s, Ok (active s));
  tot ← reads (λ s, Ok (total s));
  workers ← reads (λ s, Ok match s_pool s with Some _ => s_workers s | None => 0 end);
  mret (stats_text len workers busy depth act tot).

Definition sse_frame (payload : string) : string := ("data: " +:+ payload +:+ newline +:+ newline)%string.

Definition sse_head : string :=
  ("HTTP/1.1 200 OK" +:+ crlf +:+ "Content-Type: text/event-stream" +:+ crlf +:+
   "Cache-Control: no-cache" +:+ crlf +:+ "Connection: keep-alive" +:+ crlf +:+
   "X-Accel-Buffering: no" +:+ crlf +:+ crlf)%string.

Definition register (fd : Z) : prog Z := atomic (
  s ← get;
  '(rc, t) ← lift (sse_register fd (s_sse s));
  modify (with_sse t);;
  mret rc).

(** The three conditions of the /admin/events branch, in the order of the C [||]. *)
Definition open_stream (fd : Z) : prog bool :=
  body ← format_stats_json STATS_JSON_MAX;
  ok ← on_net (write_all fd sse_head);
  if negb ok then mret false else
  ok ← send_header fd (STATS_JSON_MAX + 16) (sse_frame body);
  if negb ok then mret false else
  rc ← register fd;
  mret (rc =? 0).

Definition handle_admin_connection (fd : Z) (answer : option string) : prog unit :=
  data ← recv fd answer;
  match data with
  | None => on_net (close fd)
  | Some data =>
      match HttpText.sscanf_request (cstring data) with
      | (Some method, Some target) =>
          let path := snprintf PATH_MAX
            (match HttpText.strchr "?" target with Some (a, _) => a | None => target end) in
          if negb (bool_decide (method = "GET")) then
            send_status fd 405 "Method Not Allowed" ("method not allowed" +:+ newline);;
            on_net (close fd)
          else if bool_decide (path = "/admin/stats") then
            body ← format_stats_json STATS_JSON_MAX;
            send_typed fd 200 "OK" "application/json" body;;
            on_net (close fd)
          else if bool_decide (path = "/admin/events") then
            ok ← open_stream fd;
            if (ok : bool) then mret tt else on_net (close fd)
          else if bool_decide (path = "/admin/logs") then
            body ← reads (λ s, log_ring_copy (LOG_RING_SIZE * Z.of_nat LOG_LINE_MAX + 1) (s_log s));
            send_typed fd 200 "OK" "text/plain" body;;
            on_net (close fd)
          else
            send_status fd 404 "Not Found" ("not found" +:+ newline);;
            on_net (close fd)
      | _ =>
          send_status fd 400 "Bad Request" ("bad request" +:+ newline);;
          on_net (close fd)
      end%string
  end.

(** ** The broadcaster *)

(** The wait under [bcast_mtx]: it ends when the generation has moved on, when the
    server stops, or when the 15 s have [expired]; the result says whether there is
    nothing new, and the generation seen. *)
Definition bcast_wait (seen : Z) (expired : bool) : prog (bool * Z) := atomic (λ s,
  if running (s_ctl s) && (bcast_gen s =? seen) && negb expired then Blocks
  else Ok ((bcast_gen s =? seen, bcast_gen s), s)).

(** sse_send_all under [sse_clients.mutex]. *)
Definition send_frame (text : string) : prog unit := atomic (
  s ← get;
  t ← net_call (sse_send_all text (s_sse s));
  modify (with_sse t)).

(** One round of the loop of sse_broadcaster: [seen] and [last] are the generation
    and the payload of the last round; [None] ends the loop. *)
Definition broadcast (seen : Z) (last : string) (expired : bool) : prog (option (Z * string)) :=
  '(timed_out, seen) ← bcast_wait seen expired;
  on ← is_running;
  if negb on then mret None else
  payload ← format_stats_json STATS_JSON_MAX;
  if negb (bool_decide (payload = last)) then
    let frame := sse_frame payload in
    (if (String.length frame <? STATS_JSON_MAX + 16)%nat
     then send_frame frame else atomic (fail OutOfBounds));;
    mret (Some (seen, payload))
  else
    (if (timed_out : bool) then send_frame (": ping" +:+ newline +:+ newline)%string else mret tt);;
    mret (Some (seen, last)).

(** sse_close_all under [sse_clients.mutex]. *)
Definition close_streams : prog unit := atomic (
  s ← get;
  t ← net_call (sse_close_all (s_sse s));
  modify (with_sse t)).

(** The thread: a round for each entry of the list, which says whether its wait
    expires. *)
Fixpoint sse_broadcaster (rounds : list bool) (seen : Z) (last : string) : prog unit :=
  match rounds with
  | [] => mret tt
  | expired :: rounds' =>
      on ← is_running;
      if negb on then mret tt else
      r ← broadcast seen last expired;
      match r with
      | None => mret tt
      | Some (seen, last) => sse_broadcaster rounds' seen last
      end
  end.

(** ** The admin listener *)

(** What poll and accept answer in one round, and what the client sends. *)
Record admin_event := mk_admin {
  e_ready : bool;
  e_answer : accept_answer;
  e_data : option string
}.

(** poll reports POLLIN; on a number that is not open it reports POLLNVAL only. *)
Definition poll_in (fd : Z) (ready : bool) : prog bool := ok ← is_open fd; mret (ok && ready).

Fixpoint admin_loop (fd : Z) (events : list admin_event) : prog unit :=
  match events with
  | [] => mret tt
  | ev :: events' =>
      on ← is_running;
      if negb on then mret tt else
      ready ← poll_in fd (e_ready ev);
      if negb ready then admin_loop fd events' else
      answer ← accept fd (e_answer ev);
      match answer with
      | Accepted client =>
          handle_admin_connection client (e_data ev);;
          admin_loop fd events'
      | EINTR => admin_loop fd events'
      | EBADF => mret tt
      | EOTHER => on ← is_running; if negb on then mret tt else admin_loop fd events'
      end
  end.

(** The thread: [admin_fd] is read once. *)
Definition admin_listener (events : list admin_event) : prog unit :=
  fd ← reads (λ s, Ok (admin_fd (s_ctl s)));
  admin_loop fd events.
End HttpServer.
