(* ===== verification/HttpConnections.v ===== *)
(** * HttpConnections: descriptors and memory of the demo server

    The threads of the server (workers running handle_connection, the accept loop,
    the admin listener, the broadcaster) interleave action by action, and the accesses
    of the signal handler come between them.  Each thread holds a
    share of the descriptors, of the allocated connection arguments and of the
    connection counter; [safe] is the weakest precondition of a program for its share,
    whatever the other threads hold and do. *)
From S2P Require Export HttpServer.
From Stdlib Require Import Ascii.
Local Open Scope Z_scope.

Module HttpConnections.
Import HttpNet HttpLog HttpServer.

(** ** The signal handler *)

Definition close_fd (fd : Z) : SM unit := if 0 <=? fd then net_call (close fd) else mret tt.

(** The handler, access by access; it may run in any thread, between any two actions
    of the others. *)
Definition sigint_store : SM unit :=
  modify (λ s, with_signal Stored (with_ctl (mk_ctl false (listen_fd (s_ctl s)) (admin_fd (s_ctl s))) s)).
Definition sigint_listen : SM unit :=
  s ← get; close_fd (listen_fd (s_ctl s));; modify (with_signal ListenClosed).
Definition sigint_admin : SM unit :=
  s ← get; close_fd (admin_fd (s_ctl s));; modify (with_signal Delivered).

Definition on_sigint : SM unit := sigint_store;; sigint_listen;; sigint_admin.

(** Its next access, when the signal is delivered once. *)
Definition sigint_next : SM unit := λ s,
  match s_signal s with
  | Undelivered => sigint_store s
  | Stored => sigint_listen s
  | ListenClosed => sigint_admin s
  | Delivered => Blocks
  end.

(** ** Threads *)

(** The gauges of the pool can be read. *)
Definition gauges_ok (pool : option view) : Prop :=
  ∃ b d, thread_pool_num_working pool = Ok b ∧ thread_pool_queue_depth pool = Ok d.

Definition config : Type := server * list (prog unit).

(** A thread does an action; the accept loop, a queued task, the admin listener or the
    broadcaster starts as a new thread; the pool goes on; the peers take more bytes;
    the signal handler does its next access; the key q clears [running]. *)
Inductive step : config → config → Prop :=
  | step_act i (B : Set) (m : SM B) k s ts b s' :
      ts !! i = Some (Act m k) → m s = Ok (b, s') → step (s, ts) (s', <[i := k b]> ts)
  | step_accept arrivals s ts :
      step (s, ts) (s, ts ++ [accept_loop (listen_fd (s_ctl s)) arrivals])
  | step_start c e q1 q2 s ts :
      s_queue s = q1 ++ c :: q2 →
      step (s, ts) (with_conns (s_conns s) (q1 ++ q2) s, ts ++ [handle_connection c e])
  | step_admin events s ts : step (s, ts) (s, ts ++ [admin_listener events])
  | step_bcast rounds seen last s ts : step (s, ts) (s, ts ++ [sse_broadcaster rounds seen last])
  | step_pool p s ts : gauges_ok p → step (s, ts) (with_pool p (s_workers s) s, ts)
  | step_peers l s ts :
      step (s, ts) (with_net (mk_net (n_open (s_net s)) (n_sent (s_net s)) l) s, ts)
  | step_sigint s s' ts : sigint_next s = Ok (tt, s') → step (s, ts) (s', ts)
  | step_quit s ts :
      step (s, ts) (with_ctl (mk_ctl false (listen_fd (s_ctl s)) (admin_fd (s_ctl s))) s, ts).

Definition init_server (pool : option view) (n lfd afd : Z) : server :=
  mk_server (mk_net {[lfd; afd]} ∅ []) sse_init (fst (log_ring_init 0)) [] 0 0 0 pool n ∅ []
    (mk_ctl true lfd afd) Undelivered.

(** ** Shares *)

Record share := mk_share {
  h_fds : list Z;
  h_conns : list (Z * (Z * string));
  h_active : Z               (* how far [active] is ahead *)
}.

Definition nothing : share := mk_share [] [] 0.
Definition join (a b : share) : share :=
  mk_share (h_fds a ++ h_fds b) (h_conns a ++ h_conns b) (h_active a + h_active b).

#[export] Instance share_equiv : Equiv share := λ a b,
  h_fds a ≡ₚ h_fds b ∧ h_conns a ≡ₚ h_conns b ∧ h_active a = h_active b.

#[export] Instance share_equivalence : Equivalence (≡@{share}).
Proof.
  split.
  - by intros a.
  - intros a b (H1 & H2 & H3). by repeat split.
  - intros a b c (H1 & H2 & H3) (G1 & G2 & G3). repeat split; by etrans.
Qed.

#[export] Instance join_proper : Proper ((≡) ==> (≡) ==> (≡)) join.
Proof.
  intros a a' (H1 & H2 & H3) b b' (G1 & G2 & G3). unfold join. repeat split; simpl; [by rewrite H1, G1|by rewrite H2, G2|lia].
Qed.

Lemma join_comm a b : join a b ≡ join b a.
Proof. repeat split; simpl; [apply Permutation_app_comm..|lia]. Qed.

Lemma join_assoc a b c : join (join a b) c ≡ join a (join b c).
Proof. repeat split; simpl; [by rewrite <- app_assoc..|lia]. Qed.

Lemma join_nothing a : join nothing a ≡ a.
Proof. by repeat split; simpl. Qed.

Definition join_all (hs : list share) : share := foldr join nothing hs.

Lemma join_all_insert hs i h :
  hs !! i = Some h → ∃ r, join_all hs ≡ join h r ∧ ∀ h', join_all (<[i := h']> hs) ≡ join h' r.
Proof.
  revert i. induction hs as [|g hs IH]; intros [|i] Hi; [done..|by injection Hi as ->; exists (join_all hs)|].
  destruct (IH i Hi) as (r & H1 & H2). exists (join g r). simpl. split; [|intros h'];
    rewrite ?H1, ?H2, <- !join_assoc; [by rewrite (join_comm g h)|by rewrite (join_comm g h')].
Qed.

Lemma join_all_snoc hs h : join_all (hs ++ [h]) ≡ join h (join_all hs).
Proof.
  induction hs as [|g hs IH]; simpl; [done|]. by rewrite IH, <- !join_assoc, (join_comm g h).
Qed.

(** ** Who owns what *)

(** The listeners that the handler has not closed. *)
Definition listeners (s : server) : list Z :=
  match s_signal s with
  | Undelivered | Stored => [listen_fd (s_ctl s); admin_fd (s_ctl s)]
  | ListenClosed => [admin_fd (s_ctl s)]
  | Delivered => []
  end.

Definition queue_fds (q : list (Z * (Z * string))) : list Z := (λ p, fst (snd p)) <$> q.

(** The share [h] of the threads, the queued connections [q], the listeners and the
    subscribers make up all open descriptors and all allocated arguments, each once. *)
Record owns_with (h : share) (q : list (Z * (Z * string))) (s : server) : Prop := {
  o_queue : q.*1 = s_queue s;
  o_conns : map_to_list (s_conns s) ≡ₚ h_conns h ++ q;
  o_open : n_open (s_net s) = list_to_set (h_fds h ++ queue_fds q ++ listeners s ++ subs (s_sse s));
  o_nodup : NoDup (h_fds h ++ queue_fds q ++ listeners s ++ subs (s_sse s));
  o_active : active s = u32 (Z.of_nat (length q) + h_active h);
  o_ctl : Forall (λ fd, 0 ≤ fd) (listeners s);
  o_table : length (fds (s_sse s)) = Z.to_nat MAX_SSE_CLIENTS ∧ 0 ≤ sse_count (s_sse s) ≤ MAX_SSE_CLIENTS;
  o_log : ring_ok (s_log s);
  o_gauges : gauges_ok (s_pool s)
}.

Definition owns (h : share) (s : server) : Prop := ∃ q, owns_with h q s.

#[export] Instance owns_proper : Proper ((≡) ==> (=) ==> iff) owns.
Proof.
  intros a b (H1 & H2 & H3) s ? <-.
  split; intros (q & [G1 G2 G3 G4 G5 G6 G7 G8 G9]); exists q; split; try done.
  - by rewrite <- H2.
  - rewrite G3. by rewrite H1.
  - by rewrite <- H1.
  - by rewrite <- H3.
  - by rewrite H2.
  - rewrite G3. by rewrite H1.
  - by rewrite H1.
  - by rewrite H3.
Qed.

Lemma owns_held h r s fd : owns (join h r) s → fd ∈ h_fds h → fd ∈ n_open (s_net s).
Proof.
  intros (q & O) Hin. rewrite (o_open _ _ _ O). apply elem_of_list_to_set. simpl. rewrite !elem_of_app. auto.
Qed.

Lemma owns_sse h s : owns h s → sse_ok (s_net s) (s_sse s).
Proof.
  intros (q & O). split; [apply O|apply O|..].
  - pose proof (o_nodup _ _ _ O) as H. do 3 (apply NoDup_app in H as (_ & _ & H)). done.
  - apply Forall_forall. intros fd Hin. rewrite (o_open _ _ _ O). apply elem_of_list_to_set.
    rewrite !elem_of_app. auto.
Qed.

(** ** Safety of a program for its share *)

Fixpoint safe {A} (p : prog A) (Q : A → share → Prop) (h : share) : Prop :=
  match p with
  | Ret a => Q a h
  | Act m k => ∀ s r, owns (join h r) s →
      match m s with
      | Ok (b, s') => ∃ h', owns (join h' r) s' ∧ safe (k b) Q h'
      | Blocks => True
      | Fault _ => False
      end
  end.

Lemma safe_bind {A B} (p : prog A) (f : A → prog B) Q h :
  safe p (λ a, safe (f a) Q) h → safe (p ≫= f) Q h.
Proof.
  revert h. induction p as [a|C m k IH]; intros h H; [done|]. intros s r O. specialize (H s r O).
  destruct (m s) as [[b s']| |]; [|done..]. destruct H as (h' & O' & H). exists h'. split; [done|]. by apply IH.
Qed.

Lemma safe_ret {A} (a : A) (Q : A → share → Prop) h : Q a h → safe (mret a) Q h.
Proof. done. Qed.

(** An action that keeps the share. *)
Lemma safe_keeps {A : Set} (m : SM A) (Q : A → share → Prop) h :
  (∀ s h', owns h' s → match m s with Ok (a, s') => owns h' s' ∧ Q a h | Blocks => True | Fault _ => False end) →
  safe (atomic m) Q h.
Proof.
  intros H s r O. specialize (H s _ O). destruct (m s) as [[a s']| |]; [|done..]. destruct H. by exists h.
Qed.


(** ** The actions *)

(** A change of the network that opens and closes nothing. *)
Lemma owns_net h s w : owns h s → n_open w = n_open (s_net s) → owns h (with_net w s).
Proof. intros (q & [H1 H2 H3 H4 H5 H6 H7 H8 H9]) E. exists q. split; try done. cbn. rewrite E. exact H3. Qed.

Lemma owns_counts h s a t g d :
  owns h s → a = u32 (active s + d) →
  owns (mk_share (h_fds h) (h_conns h) (h_active h + d)) (with_counts a t g s).
Proof.
  intros (q & [H1 H2 H3 H4 H5 H6 H7 H8 H9]) ->. exists q. split; try done. cbn. rewrite H5. unfold u32.
  rewrite Z.add_mod_idemp_l by done. f_equal. lia.
Qed.

Lemma owns_log h s r out : owns h s → ring_ok r → owns h (with_log r out s).
Proof. intros (q & [H1 H2 H3 H4 H5 H6 H7 H8 H9]) Hr. exists q. by split. Qed.

Lemma safe_write fd buf (Q : bool → share → Prop) h :
  fd ∈ h_fds h → (∀ ok, Q ok h) → safe (on_net (write_all fd buf)) Q h.
Proof.
  intros Hfd HQ s r O. unfold net_call.
  pose proof (write_all_run fd buf (s_net s) (owns_held _ _ _ _ O Hfd)) as H.
  destruct (write_all fd buf (s_net s)) as [[ok w]| |]; [|done..].
  destruct H as (_ & _ & _ & _ & _ & _ & Hop). exists h. split; [by apply owns_net|apply HQ].
Qed.

Lemma safe_close fd F C k (Q : unit → share → Prop) :
  Q tt (mk_share F C k) → safe (on_net (close fd)) Q (mk_share (fd :: F) C k).
Proof.
  intros HQ s r O. pose proof O as (q & [H1 H2 H3 H4 H5 H6 H7 H8 H9]). unfold net_call.
  rewrite close_ok by (eapply owns_held; [done|set_solver]). exists (mk_share F C k). split; [|done].
  exists q. split; try done; simpl in H4 |- *; [|by apply NoDup_cons in H4 as [_ H4]].
  apply NoDup_cons in H4 as [Hn _]. rewrite H3. simpl. apply leibniz_equiv. intros x.
  rewrite elem_of_difference, elem_of_union, elem_of_singleton, !elem_of_list_to_set. set_solver.
Qed.

Lemma safe_open fd F C k (Q : unit → share → Prop) :
  Q tt (mk_share (fd :: F) C k) → safe (on_net (open_fd fd)) Q (mk_share F C k).
Proof.
  intros HQ s r (q & [H1 H2 H3 H4 H5 H6 H7 H8 H9]). unfold net_call, open_fd. case_bool_decide as Hin.
  - by rewrite andb_false_r.
  - destruct (0 <=? fd); simpl; [|done]. exists (mk_share (fd :: F) C k). split; [|done].
    exists q. split; try done; simpl; rewrite ?H3; [done|]. apply NoDup_cons. split; [|done].
    rewrite H3, elem_of_list_to_set in Hin. done.
Qed.

Lemma safe_active d F C k (Q : unit → share → Prop) :
  Q tt (mk_share F C (k + d)) → safe (active_add d) Q (mk_share F C k).
Proof.
  intros HQ s r O. exists (mk_share F C (k + d)). split; [|done].
  pose proof (owns_counts _ _ (u32 (active s + d)) (total s) (bcast_gen s) d O eq_refl) as O'.
  refine (proj1 (owns_proper _ _ _ _ _ eq_refl) O'). repeat split; simpl; lia || done.
Qed.

Lemma owns_same h s t g : owns h s → owns h (with_counts (active s) t g s).
Proof.
  intros (q & [H1 H2 H3 H4 H5 H6 H7 H8 H9]). exists q. by split.
Qed.

Lemma safe_notify (Q : unit → share → Prop) h : Q tt h → safe notify_event Q h.
Proof. intros HQ. apply safe_keeps. intros s h' O. split; [by apply owns_same|done]. Qed.

Lemma safe_total (Q : unit → share → Prop) h : Q tt h → safe total_add Q h.
Proof. intros HQ. apply safe_keeps. intros s h' O. split; [by apply owns_same|done]. Qed.

Lemma safe_recv fd a (Q : option string → share → Prop) h :
  fd ∈ h_fds h → (∀ b, Q b h) → safe (recv fd a) Q h.
Proof.
  intros Hfd HQ s r O. rewrite bool_decide_true by exact (owns_held _ _ _ _ O Hfd).
  exists h. split; [done|apply HQ].
Qed.

Lemma safe_reads {A : Set} (f : server → res A) (Q : A → share → Prop) h :
  (∀ s h', owns h' s → ∃ a, f s = Ok a ∧ Q a h) → safe (reads f) Q h.
Proof. intros H. apply safe_keeps. intros s h' O. destruct (H s h' O) as (a & -> & HQ). done. Qed.

Lemma safe_compute {A : Set} (r : res A) (a : A) (Q : A → share → Prop) h : r = Ok a → Q a h → safe (compute r) Q h.
Proof. intros -> HQ. apply safe_keeps. done. Qed.

Lemma safe_alloc c v F C k (Q : unit → share → Prop) :
  Q tt (mk_share F ((c, v) :: C) k) → safe (alloc_conn c v) Q (mk_share F C k).
Proof.
  intros HQ s r (q & [H1 H2 H3 H4 H5 H6 H7 H8 H9]). destruct (s_conns s !! c) eqn:E; [done|].
  exists (mk_share F ((c, v) :: C) k). split; [|done]. exists q. split; try done. cbn.
  rewrite map_to_list_insert by done. by rewrite H2.
Qed.

Lemma conns_lookup h q s c v :
  owns_with h q s → (c, v) ∈ h_conns h ++ q → s_conns s !! c = Some v.
Proof. intros O Hin. apply elem_of_map_to_list. by rewrite (o_conns _ _ _ O). Qed.

Lemma safe_take c v F C k (Q : Z * string → share → Prop) :
  Q v (mk_share F C k) → safe (take_conn c) Q (mk_share F ((c, v) :: C) k).
Proof.
  intros HQ s r (q & O). rewrite (conns_lookup _ _ _ c v O) by set_solver.
  pose proof O as [H1 H2 H3 H4 H5 H6 H7 H8 H9].
  exists (mk_share F C k). split; [|done]. exists q. split; try done. cbn in H2 |- *.
  apply (Permutation_cons_inv (a := (c, v))). rewrite <- H2. symmetry. rewrite map_to_list_delete; [done|].
  apply (conns_lookup _ _ _ c v O). set_solver.
Qed.

(** A task that is taken carries its descriptor and its argument into the queue. *)
Lemma safe_submit c (taken : bool) fd peer F C k (Q : bool → share → Prop) :
  let h := mk_share (fd :: F) ((c, (fd, peer)) :: C) k in
  (if taken then Q true (mk_share F C (k - 1)) else Q false h) → safe (submit c taken) Q h.
Proof.
  intros h HQ s r O. destruct taken; [|by exists h].
  destruct O as (q & [H1 H2 H3 H4 H5 H6 H7 H8 H9]). exists (mk_share F C (k - 1)). split; [|done].
  exists (q ++ [(c, (fd, peer))]).
  assert (Hp : (fd :: F) ++ h_fds r ++ queue_fds q ++ listeners s ++ subs (s_sse s) ≡ₚ
    F ++ h_fds r ++ queue_fds (q ++ [(c, (fd, peer))]) ++ listeners s ++ subs (s_sse s)).
  { unfold queue_fds. rewrite fmap_app. simpl. solve_Permutation. }
  split; try done; cbn.
  - by rewrite fmap_app, H1.
  - rewrite H2. cbn. solve_Permutation.
  - rewrite H3. cbn. rewrite <- !app_assoc. by rewrite <- Hp.
  - cbn in H4. rewrite <- !app_assoc in H4 |- *. by rewrite <- Hp.
  - rewrite H5, length_app. cbn. f_equal. lia.
Qed.


(** ** The subscribers *)

Lemma safe_register fd F C k (Q : Z → share → Prop) :
  Q 0 (mk_share F C k) → Q (-1) (mk_share (fd :: F) C k) →
  safe (register fd) Q (mk_share (fd :: F) C k).
Proof.
  intros H0 H1 s r O. pose proof (owns_sse _ _ O) as T. pose proof O as (q & [G1 G2 G3 G4 G5 G6 G7 G8 G9]).
  assert (Hnew : fd ∉ subs (s_sse s)).
  { cbn in G4. apply NoDup_cons in G4 as [G4 _]. rewrite !elem_of_app in G4. tauto. }
  assert (Hfd : fd ∈ h_fds (mk_share (fd :: F) C k)) by (simpl; set_solver).
  destruct (register_ok _ _ _ T (owns_held _ _ _ _ O Hfd) Hnew) as (t & E & T' & Hs).
  unfold mbind, M_bind, get. cbn. unfold lift. rewrite E. cbn. destruct (sse_count (s_sse s) <? MAX_SSE_CLIENTS).
  - exists (mk_share F C k). split; [|done]. exists q.
    assert (Hp : fd :: (F ++ h_fds r) ++ queue_fds q ++ listeners s ++ subs (s_sse s) ≡ₚ
      (F ++ h_fds r) ++ queue_fds q ++ listeners s ++ subs t) by (rewrite Hs; solve_Permutation).
    split; try done; cbn.
    + rewrite G3. cbn. by rewrite <- Hp.
    + cbn in G4. change (listeners (with_sse t s)) with (listeners s). by rewrite <- Hp.
    + split; [apply T'|apply T'].
  - exists (mk_share (fd :: F) C k). split; [|done]. exists q. split; try done; cbn.
    + change (listeners (with_sse t s)) with (listeners s). by rewrite Hs.
    + change (listeners (with_sse t s)) with (listeners s). by rewrite Hs.
    + split; [apply T'|apply T'].
Qed.

(** Subscribers that are dropped are closed. *)
Lemma owns_dropped h s w t live dead :
  owns h s → subs (s_sse s) ≡ₚ live ++ dead → subs t = live → sse_ok w t →
  n_open w = n_open (s_net s) ∖ list_to_set dead → owns h (with_sse t (with_net w s)).
Proof.
  intros (q & [G1 G2 G3 G4 G5 G6 G7 G8 G9]) Hp Ht T Hw. exists q.
  change (listeners s) with (listeners (with_sse t (with_net w s))) in G3, G4, G6.
  assert (Hd : h_fds h ++ queue_fds q ++ listeners (with_sse t (with_net w s)) ++ subs (s_sse s) ≡ₚ
    (h_fds h ++ queue_fds q ++ listeners (with_sse t (with_net w s)) ++ subs t) ++ dead)
    by (rewrite Hp, Ht; solve_Permutation).
  rewrite Hd in G4. apply NoDup_app in G4 as (G4 & Hdis & _). split; try done; cbn.
  - rewrite Hw, G3. rewrite Hd. rewrite list_to_set_app_L. apply leibniz_equiv. intros x.
    rewrite elem_of_difference, elem_of_union, !elem_of_list_to_set. specialize (Hdis x). tauto.
  - split; [apply T|apply T].
Qed.

Lemma safe_send_frame text (Q : unit → share → Prop) h : Q tt h → safe (send_frame text) Q h.
Proof.
  intros HQ. apply safe_keeps. intros s h' O. unfold mbind, M_bind, get, net_call. cbn.
  pose proof (send_all_table text _ _ (owns_sse _ _ O)) as H.
  destruct (sse_send_all text (s_sse s) (s_net s)) as [[t w]| |]; [|done..]. cbn.
  destruct H as (live & dead & Hp & Ht & T & Hw). split; [by eapply owns_dropped|done].
Qed.

Lemma safe_close_streams (Q : unit → share → Prop) h : Q tt h → safe close_streams Q h.
Proof.
  intros HQ. apply safe_keeps. intros s h' O. unfold mbind, M_bind, get, net_call. cbn.
  pose proof (owns_sse _ _ O) as T. rewrite (close_all_ok _ _ T). cbn. split; [|done].
  apply (owns_dropped _ _ _ _ [] (subs (s_sse s))); [done|done|done| |done].
  split; [apply T|cbn; unfold MAX_SSE_CLIENTS; lia|apply NoDup_nil_2|apply Forall_nil_2].
Qed.


(** ** Texts fit their buffers *)

Lemma length_digits_fuel fuel n : (String.length (digits fuel n) ≤ fuel)%nat.
Proof.
  revert n. induction fuel as [|f IH]; intros n; [done|]. cbn [digits]. destruct (n <? 10); [simpl; lia|].
  rewrite length_append. specialize (IH (n / 10)). simpl. lia.
Qed.

Lemma length_dec_max n : (String.length (dec n) ≤ 21)%nat.
Proof.
  unfold dec. pose proof (length_digits_fuel 20 (- n)). pose proof (length_digits_fuel 20 n).
  destruct (n <? 0); [|lia]. rewrite length_append. change (String.length "-") with 1%nat. lia.
Qed.

Lemma length_head code reason type len :
  (String.length (head code reason type len) ≤ 128 + String.length reason + String.length type)%nat.
Proof.
  unfold head, crlf. rewrite !length_append. cbn [String.length].
  pose proof (length_dec_max code). pose proof (length_dec_max len). lia.
Qed.

Lemma length_frame len p : (String.length p < len)%nat → (String.length (sse_frame p) < len + 8)%nat.
Proof. intros. unfold sse_frame, newline. rewrite !length_append. cbn [String.length]. lia. Qed.

Lemma safe_header fd n text (Q : bool → share → Prop) h :
  (String.length text < n)%nat → fd ∈ h_fds h → (∀ ok, Q ok h) → safe (send_header fd n text) Q h.
Proof.
  intros Hn Hfd HQ. unfold send_header. rewrite (proj2 (Nat.ltb_lt _ _) Hn). by apply safe_write.
Qed.

Lemma safe_typed fd code reason type body (Q : Z → share → Prop) h :
  (String.length reason + String.length type < 384)%nat → fd ∈ h_fds h → (∀ n, Q n h) →
  safe (send_typed fd code reason type body) Q h.
Proof.
  intros Hl Hfd HQ. unfold send_typed. apply safe_bind, safe_header; [|done|intros _].
  - pose proof (length_head code reason type (Z.of_nat (String.length body))). lia.
  - apply safe_bind, safe_write; [done|]. intros _. apply safe_ret, HQ.
Qed.

Lemma safe_status fd code reason body (Q : Z → share → Prop) h :
  (String.length reason < 300)%nat → fd ∈ h_fds h → (∀ n, Q n h) →
  safe (send_status fd code reason body) Q h.
Proof. intros Hl. apply (safe_typed fd code reason "text/plain" body). cbn [String.length]. lia. Qed.

Lemma safe_stats len (Q : string → share → Prop) h :
  (1 ≤ len)%nat → (∀ p, (String.length p < len)%nat → Q p h) → safe (format_stats_json len) Q h.
Proof.
  intros Hlen HQ. unfold format_stats_json.
  apply safe_bind, safe_reads. intros s1 h1 (q1 & O1). destruct (o_gauges _ _ _ O1) as (b & _ & Hb & _).
  exists b. split; [done|]. apply safe_bind, safe_reads. intros s2 h2 (q2 & O2).
  destruct (o_gauges _ _ _ O2) as (_ & d & _ & Hd). exists d. split; [done|].
  do 3 (apply safe_bind, safe_reads; intros ???; eexists; split; [reflexivity|]).
  apply safe_ret, HQ. unfold stats_text. rewrite length_snprintf. lia.
Qed.

(** ** The threads *)

Ltac held := simpl; set_solver.
Ltac sstep :=
  lazymatch goal with
  | |- safe (_ ≫= _) _ _ => apply safe_bind
  | |- safe (mret _) _ _ => apply safe_ret
  | |- safe (on_net (write_all _ _)) _ _ => apply safe_write; [held|intros]
  | |- safe (on_net (close _)) _ _ => apply safe_close
  | |- safe (on_net (open_fd _)) _ _ => apply safe_open
  | |- safe (send_status _ _ _ _) _ _ => apply safe_status; [cbn [String.length]; lia|held|intros]
  | |- safe (send_typed _ _ _ _ _) _ _ => apply safe_typed; [cbn [String.length]; lia|held|intros]
  | |- safe (format_stats_json _) _ _ => apply safe_stats; [unfold STATS_JSON_MAX; lia|intros]
  | |- safe (recv _ _) _ _ => apply safe_recv; [held|intros]
  | |- safe (active_add _) _ _ => apply safe_active
  | |- safe total_add _ _ => apply safe_total
  | |- safe notify_event _ _ => apply safe_notify
  | |- safe (send_frame _) _ _ => apply safe_send_frame
  | |- safe is_running _ _ => apply safe_reads; intros; eexists; split; [reflexivity|]
  | |- safe (match ?x with _ => _ end) _ _ => destruct x
  end; cbv beta zeta.

Abbreviation finished := (λ _ h, h = nothing).

Lemma image_size w h it :
  0 < w ≤ 2048 → 0 < h ≤ 2048 → 0 < it ≤ 5000 →
  Mandelbrot.mandelbrot_bmp true true true w h it = Ok (Some (Mandelbrot.image w h it)).
Proof. intros. apply Mandelbrot.image_drawn; [lia..|nia]. Qed.

Lemma no_image w h it : 0 < w → 0 < h → 0 < it → Mandelbrot.mandelbrot_bmp true true false w h it = Ok None.
Proof.
  intros. unfold Mandelbrot.mandelbrot_bmp. destruct (_ || _); [done|]. cbv zeta. by destruct (_ <? _).
Qed.

Lemma query_range q key def min max :
  HttpText.strchr "&"%char key = None → 0 ≤ min ≤ def → def ≤ max < 2 ^ 31 →
  ∃ v, HttpText.query_int q key def min max = Ok v ∧ min ≤ v ≤ max.
Proof.
  intros Hk Hmin Hmax. exists (HttpText.query_spec q key def min max).
  split; [apply HttpText.query_loop_spec; lia || done|]. unfold HttpText.query_spec.
  repeat case_match; [apply HttpText.clamp_bounds|..]; lia.
Qed.

Lemma safe_render fd query ok (Q : resp_t → share → Prop) h :
  fd ∈ h_fds h → (∀ r, Q r h) → safe (serve_render fd query ok) Q h.
Proof.
  intros Hfd HQ. unfold serve_render.
  destruct (query_range query "w" DEFAULT_RENDER_W 16 MAX_RENDER_W) as (w & Ew & Hw); [done..|].
  destruct (query_range query "h" DEFAULT_RENDER_H 16 MAX_RENDER_H) as (ht & Eh & Hh); [done..|].
  destruct (query_range query "iter" DEFAULT_RENDER_ITER 1 MAX_RENDER_ITER) as (it & Ei & Hi); [done..|].
  unfold MAX_RENDER_W, MAX_RENDER_H, MAX_RENDER_ITER in *.
  apply safe_bind, (safe_compute _ _ _ _ Ew), safe_bind, (safe_compute _ _ _ _ Eh), safe_bind,
    (safe_compute _ _ _ _ Ei), safe_bind. destruct ok.
  - eapply safe_compute; [apply image_size; lia|]. cbv zeta.
    apply safe_bind, safe_header; [|done|intros _].
    + pose proof (length_head 200 "OK" "image/bmp" (Z.of_nat (length (Mandelbrot.image w ht it)))).
      cbn [String.length] in *. lia.
    + apply safe_bind, safe_write; [done|]. intros _. apply safe_ret, HQ.
  - eapply safe_compute; [apply no_image; lia|]. apply safe_bind, safe_status; [cbn [String.length]; lia|done|].
    intros n. apply safe_ret, HQ.
Qed.

Lemma safe_answer fd e req (Q : outcome_t → share → Prop) h :
  fd ∈ h_fds h → (∀ o, Q o h) → safe (answer_request fd e req) Q h.
Proof.
  intros Hfd HQ. unfold answer_request.
  repeat first [apply HQ | apply safe_render; [done|intros] | sstep].
Qed.


Lemma safe_log attached ts peer method path query r ms (Q : unit → share → Prop) h :
  Q tt h → safe (log_request attached ts peer method path query r ms) Q h.
Proof.
  intros HQ. unfold log_request. apply safe_bind, safe_keeps.
  intros s h' O. pose proof O as (q & O').
  destruct (append_refines _ (log_line ts peer method path query r ms) (o_log _ _ _ O')) as (ring & E & Hr & _).
  unfold mbind, res_bind. rewrite E. split; [by apply owns_log|]. apply safe_keeps.
  clear s h' O q O' ring E Hr. intros s h' O. pose proof O as (q & O'). cbn. split; [|done].
  destruct attached; [done|]. apply owns_log; [done|]. exact (o_log _ _ _ O').
Qed.

Lemma handle_connection_safe c e fd peer :
  safe (handle_connection c e) finished (mk_share [fd] [(c, (fd, peer))] 1).
Proof.
  unfold handle_connection. apply safe_bind, safe_take. do 4 sstep. case_match.
  - apply safe_bind, safe_answer; [held|]. intros [[[[method path] query] r] rendered].
    do 5 sstep. destruct rendered; do 3 sstep; by apply safe_log.
  - by do 5 sstep.
Qed.


Lemma is_open_safe fd (Q : bool → share → Prop) h : (∀ b, Q b h) → safe (is_open fd) Q h.
Proof. intros HQ. apply safe_reads. eauto. Qed.

Lemma accept_safe fd answer (Q : accept_answer → share → Prop) :
  (∀ client, Q (Accepted client) (mk_share [client] [] 0)) → (∀ a, (∀ c, a ≠ Accepted c) → Q a nothing) →
  safe (accept fd answer) Q nothing.
Proof.
  intros H1 H2. unfold accept. apply safe_bind, is_open_safe. intros [|]; cbn [negb]; [|by apply H2].
  destruct answer; [|by apply H2..]. apply safe_bind, safe_open, H1.
Qed.

Lemma accept_client_safe client ip cport conn taken (Q : unit → share → Prop) :
  Q tt nothing → safe (accept_client client ip cport conn taken) Q (mk_share [client] [] 0).
Proof.
  intros HQ. unfold accept_client. destruct conn as [c|]; [|by sstep].
  apply safe_bind, safe_alloc. do 2 sstep. apply safe_bind, safe_submit. destruct taken.
  - by do 3 sstep.
  - do 3 sstep. apply safe_bind, safe_take. by do 2 sstep.
Qed.

Lemma accept_loop_safe fd arrivals : safe (accept_loop fd arrivals) finished nothing.
Proof.
  induction arrivals as [|a rest IH]; [done|]. cbn [accept_loop]. do 2 sstep. case_match; [done|].
  apply safe_bind, accept_safe.
  - intros client. by apply safe_bind, accept_client_safe.
  - intros [c| | |] Hne; [by destruct (Hne c)|done|done|]. do 2 sstep. by case_match.
Qed.

Lemma open_stream_safe fd (Q : bool → share → Prop) :
  Q true nothing → Q false (mk_share [fd] [] 0) → safe (open_stream fd) Q (mk_share [fd] [] 0).
Proof.
  intros Ht Hf. unfold open_stream. sstep. sstep. match goal with H : (_ < _)%nat |- _ => rename H into Hp end.
  do 2 sstep. destruct ok; [|done]. cbn [negb]. apply safe_bind, safe_header; [|held|].
  { pose proof (length_frame _ _ Hp). lia. }
  intros [|]; [|done]. cbn [negb]. by apply safe_bind, safe_register.
Qed.

Lemma handle_admin_safe fd answer (Q : unit → share → Prop) :
  Q tt nothing → safe (handle_admin_connection fd answer) Q (mk_share [fd] [] 0).
Proof.
  intros HQ. unfold handle_admin_connection. do 2 sstep.
  repeat first [exact HQ
    | apply safe_bind, open_stream_safe; cbv iota
    | apply safe_bind, safe_reads; intros ? ? (? & O'); rewrite (copy_ok _ _ (o_log _ _ _ O')) by done;
      eexists; split; [reflexivity|]; clear O'
    | sstep].
Qed.

Lemma admin_loop_safe fd events : safe (admin_loop fd events) finished nothing.
Proof.
  induction events as [|ev events IH]; [done|]. cbn [admin_loop]. do 2 sstep. case_match; [done|].
  unfold poll_in. apply safe_bind, safe_bind, is_open_safe. intros ok. apply safe_ret. case_match; [done|].
  apply safe_bind, accept_safe.
  - intros client. by apply safe_bind, handle_admin_safe.
  - intros [c| | |] Hne; [by destruct (Hne c)|done|done|]. do 2 sstep. by case_match.
Qed.

Lemma admin_listener_safe events : safe (admin_listener events) finished nothing.
Proof.
  unfold admin_listener. apply safe_bind, safe_reads. intros; eexists; split; [reflexivity|]. apply admin_loop_safe.
Qed.

Lemma broadcast_safe seen last expired (Q : option (Z * string) → share → Prop) :
  (∀ r, Q r nothing) → safe (broadcast seen last expired) Q nothing.
Proof.
  intros HQ. unfold broadcast. apply safe_bind, safe_keeps. intros s h O.
  destruct (running (s_ctl s) && (bcast_gen s =? seen) && negb expired); [done|]. split; [done|].
  do 2 sstep. case_match; [apply HQ|]. sstep. sstep. case_match; cbv zeta.
  - rewrite (proj2 (Nat.ltb_lt _ _)) by (pose proof (length_frame STATS_JSON_MAX p); lia).
    do 3 sstep. apply HQ.
  - sstep. sstep; do 2 sstep; apply HQ.
Qed.

Lemma broadcaster_safe rounds seen last : safe (sse_broadcaster rounds seen last) finished nothing.
Proof.
  revert seen last. induction rounds as [|x rounds IH]; intros seen last; [done|]. cbn [sse_broadcaster].
  do 2 sstep. case_match; [done|]. apply safe_bind, broadcast_safe. intros [[seen' last']|]; [apply IH|done].
Qed.


(** ** All threads together *)

Definition inv (cfg : config) : Prop :=
  ∃ hs, Forall2 (λ t h, safe t finished h) (snd cfg) hs ∧ owns (join_all hs) (fst cfg).

Lemma inv_spawn s ts t h :
  safe t finished h → (∃ hs, Forall2 (λ t h, safe t finished h) ts hs ∧ owns (join h (join_all hs)) s) →
  inv (s, ts ++ [t]).
Proof.
  intros Ht (hs & Hall & O). exists (hs ++ [h]). split; [by apply Forall2_app; [|constructor]|].
  by rewrite join_all_snoc.
Qed.

(** A queued connection becomes the share of its task. *)
Lemma owns_start h s c q1 q2 :
  owns h s → s_queue s = q1 ++ c :: q2 →
  ∃ fd peer, owns (join (mk_share [fd] [(c, (fd, peer))] 1) h) (with_conns (s_conns s) (q1 ++ q2) s).
Proof.
  intros (q & [H1 H2 H3 H4 H5 H6 H7 H8 H9]) Hq. rewrite Hq in H1.
  apply fmap_app_inv in H1 as (p1 & p2 & E1 & E2 & ->).
  destruct p2 as [|[c' [fd peer]] p2]; [done|]. injection E2 as <- ->. exists fd, peer, (p1 ++ p2).
  assert (Hp : h_fds h ++ queue_fds (p1 ++ (c, (fd, peer)) :: p2) ++ listeners s ++ subs (s_sse s) ≡ₚ
    fd :: h_fds h ++ queue_fds (p1 ++ p2) ++ listeners s ++ subs (s_sse s)).
  { unfold queue_fds. rewrite !fmap_app. simpl. solve_Permutation. }
  split; try done; cbn.
  - by rewrite fmap_app, E1.
  - rewrite H2. solve_Permutation.
  - rewrite H3. by rewrite Hp.
  - by rewrite <- Hp.
  - rewrite H5, !length_app. cbn. f_equal. lia.
Qed.

(** A listener is closed: [l] is the head of those not yet closed. *)
Lemma owns_close_listener h s d l ls :
  owns h s → listeners s = l :: ls → listeners (with_signal d s) = ls →
  ∃ w, close_fd l s = Ok (tt, with_net w s) ∧ owns h (with_signal d (with_net w s)).
Proof.
  intros (q & [H1 H2 H3 H4 H5 H6 H7 H8 H9]) Hl Hd. rewrite Hl in H3, H4, H6.
  apply Forall_cons in H6 as [Hp H6].
  assert (E : h_fds h ++ queue_fds q ++ (l :: ls) ++ subs (s_sse s) ≡ₚ
    l :: h_fds h ++ queue_fds q ++ ls ++ subs (s_sse s)) by solve_Permutation.
  rewrite E in H4. apply NoDup_cons in H4 as [Hn H4].
  assert (Hopen : n_open (s_net s) = list_to_set (l :: h_fds h ++ queue_fds q ++ ls ++ subs (s_sse s)))
    by (rewrite H3; by rewrite E).
  unfold close_fd. rewrite (proj2 (Z.leb_le 0 l) Hp). unfold net_call.
  rewrite close_ok by (rewrite Hopen; set_solver). eexists. split; [done|]. exists q.
  split; try done; cbn; change (listeners (with_signal d _)) with (listeners (with_signal d s)); rewrite ?Hd; try done.
  rewrite Hopen. apply leibniz_equiv. intros x.
  rewrite elem_of_difference, elem_of_singleton, !elem_of_list_to_set. set_solver.
Qed.

(** The handler closes listeners that are open. *)
Lemma owns_sigint h s :
  owns h s → s_signal s ≠ Delivered → ∃ s', sigint_next s = Ok (tt, s') ∧ owns h s'.
Proof.
  intros O Hd. unfold sigint_next. destruct (s_signal s) eqn:E; [| | |done].
  - eexists. split; [reflexivity|]. destruct O as (q & [H1 H2 H3 H4 H5 H6 H7 H8 H9]).
    exists q. unfold listeners in *. rewrite E in H3, H4, H6. by split.
  - destruct (owns_close_listener h s ListenClosed (listen_fd (s_ctl s)) [admin_fd (s_ctl s)] O) as (w & Ec & O');
      [unfold listeners; by rewrite E|done|].
    eexists. unfold sigint_listen, mbind, M_bind, get. cbn. rewrite Ec. by split.
  - destruct (owns_close_listener h s Delivered (admin_fd (s_ctl s)) [] O) as (w & Ec & O');
      [unfold listeners; by rewrite E|done|].
    eexists. unfold sigint_admin, mbind, M_bind, get. cbn. rewrite Ec. by split.
Qed.

Lemma step_inv c c' : step c c' → inv c → inv c'.
Proof.
  intros [i B m k s ts b s' Hi Hm|arrivals s ts|cn e q1 q2 s ts Hq|events s ts
         |rounds seen last s ts|p s ts Hp|l s ts|s s' ts Hs|s ts] (hs & Hall & O); cbn [fst snd] in *.
  - destruct (Forall2_lookup_l _ _ _ _ _ Hall Hi) as (h & Hh & Hsafe).
    destruct (join_all_insert hs i h Hh) as (r & E & E'). rewrite E in O.
    specialize (Hsafe s r O). rewrite Hm in Hsafe. destruct Hsafe as (h' & O' & Hsafe).
    exists (<[i := h']> hs). split; [by apply Forall2_insert|]. cbn [fst]. by rewrite E'.
  - apply (inv_spawn _ _ _ nothing); [apply accept_loop_safe|]. exists hs. by rewrite join_nothing.
  - destruct (owns_start _ _ _ _ _ O Hq) as (fd & peer & O').
    apply (inv_spawn _ _ _ (mk_share [fd] [(cn, (fd, peer))] 1)); [apply handle_connection_safe|by exists hs].
  - apply (inv_spawn _ _ _ nothing); [apply admin_listener_safe|]. exists hs. by rewrite join_nothing.
  - apply (inv_spawn _ _ _ nothing); [apply broadcaster_safe|]. exists hs. by rewrite join_nothing.
  - exists hs. split; [done|]. destruct O as (q & [H1 H2 H3 H4 H5 H6 H7 H8 H9]). exists q. by split.
  - exists hs. split; [done|]. by apply owns_net.
  - exists hs. split; [done|]. destruct (owns_sigint _ _ O) as (s'' & E & O'); [|cbn; congruence].
    intros E. unfold sigint_next in Hs. by rewrite E in Hs.
  - exists hs. split; [done|]. destruct O as (q & [H1 H2 H3 H4 H5 H6 H7 H8 H9]). exists q. by split.
Qed.

Lemma server_inv_init pool n lfd afd :
  gauges_ok pool → 0 ≤ lfd → 0 ≤ afd → lfd ≠ afd → inv (init_server pool n lfd afd, []).
Proof.
  intros Hg Hl Ha Hne. exists []. split; [constructor|]. exists []. split; try done; cbn.
  - change (subs sse_init) with ([] : list Z). cbn. set_solver.
  - change (subs sse_init) with ([] : list Z). apply NoDup_ListNoDup. repeat constructor; simpl; tauto || lia.
  - repeat constructor; done.
  - exact (proj1 (init_ok 0)).
Qed.

Lemma server_inv_reachable pool n lfd afd c :
  gauges_ok pool → 0 ≤ lfd → 0 ≤ afd → lfd ≠ afd → rtc step (init_server pool n lfd afd, []) c → inv c.
Proof.
  intros Hg Hl Ha Hne Hr. pose proof (server_inv_init pool n lfd afd Hg Hl Ha Hne) as I.
  induction Hr as [|c1 c2 c3 Hs _ IH]; [done|]. by eapply IH, step_inv.
Qed.

Lemma all_finished ts hs :
  Forall2 (λ t h, safe t finished h) ts hs → Forall (λ t, t = Ret tt) ts → join_all hs ≡ nothing.
Proof.
  induction 1 as [|t h ts hs Hh _ IH]; intros Hd; [done|]. apply Forall_cons in Hd as [-> Hd].
  simpl in *. subst h. by rewrite join_nothing, IH.
Qed.

(** The descriptors of the queued connections. *)
Definition queued_fds (s : server) : list Z := omap (λ c, fst <$> s_conns s !! c) (s_queue s).

Lemma queued_ok h q s : owns_with h q s → queued_fds s = queue_fds q.
Proof.
  intros O. unfold queued_fds. rewrite <- (o_queue _ _ _ O).
  assert (Hall : Forall (λ p, s_conns s !! fst p = Some (snd p)) q).
  { apply Forall_forall. intros [c v] Hin. apply (conns_lookup _ _ _ _ _ O). set_solver. }
  clear O. induction Hall as [|[c v] q Hv _ IH]; [done|]. cbn in *. rewrite Hv. cbn. by rewrite IH.
Qed.

(** ** What holds of the server *)

(** C7: Whatever connections arrive and however the accept loop, the tasks, the admin
    listener, the broadcaster, the q key and one SIGINT interleave, no thread closes,
    reads or writes a descriptor that is not open, touches a freed connection, overruns
    a buffer or leaves an array; the calls that are made on a listener by its number,
    which the signal handler may have closed (accept, poll), then answer EBADF or
    POLLNVAL instead. The handler, which runs access by access between those of the
    other threads, closes two open descriptors. Once the threads have finished, the open
    descriptors are the listeners the handler has not closed, the subscribers and those
    of the queued connections, only queued connections are allocated, and [active]
    counts them. *)
Theorem server_safe pool n lfd afd s ts :
  gauges_ok pool → 0 ≤ lfd → 0 ≤ afd → lfd ≠ afd →
  rtc step (init_server pool n lfd afd, []) (s, ts) →
  (∀ i (B : Set) (m : SM B) k f, ts !! i = Some (Act m k) → m s ≠ Fault f) ∧
  (s_signal s ≠ Delivered → ∃ s', sigint_next s = Ok (tt, s')) ∧
  (Forall (λ t, t = Ret tt) ts →
    n_open (s_net s) = list_to_set (queued_fds s ++ listeners s ++ subs (s_sse s)) ∧
    dom (s_conns s) = list_to_set (s_queue s) ∧
    active s = u32 (Z.of_nat (length (s_queue s)))).
Proof.
  intros Hg Hl Ha Hne Hr. destruct (server_inv_reachable _ n _ _ _ Hg Hl Ha Hne Hr) as (hs & Hall & O). cbn in *. split_and!.
  - intros i B m k f Hi E. destruct (Forall2_lookup_l _ _ _ _ _ Hall Hi) as (h & Hh & Hsafe).
    destruct (join_all_insert hs i h Hh) as (r & Ej & _). rewrite Ej in O. specialize (Hsafe s r O).
    by rewrite E in Hsafe.
  - intros Hon. destruct (owns_sigint _ _ O Hon) as (s' & E & _). by exists s'.
  - intros Hd. rewrite (all_finished _ _ Hall Hd) in O. destruct O as (q & O). rewrite (queued_ok _ _ _ O).
    split_and!; [apply O| |].
    + rewrite <- (o_queue _ _ _ O). apply leibniz_equiv. intros c. rewrite elem_of_dom, elem_of_list_to_set, list_elem_of_fmap.
      split.
      * intros [v Hv]. apply elem_of_map_to_list in Hv. rewrite (o_conns _ _ _ O) in Hv. by exists (c, v).
      * intros ([c' v] & -> & Hin). exists v. apply (conns_lookup _ _ _ _ _ O). done.
    + rewrite (o_active _ _ _ O), <- (o_queue _ _ _ O), length_fmap. cbn. f_equal. lia.
Qed.


(** The handler uninterrupted. *)
Lemma sigint_steps s s' ts :
  s_signal s = Undelivered → on_sigint s = Ok (tt, s') → rtc step (s, ts) (s', ts) ∧ s_signal s' = Delivered.
Proof.
  intros H0 H. unfold on_sigint, mbind, M_bind in H.
  destruct (sigint_store s) as [[[] s1]| |] eqn:E1; [|done..].
  destruct (sigint_listen s1) as [[[] s2]| |] eqn:E2; [|done..]. rename H into E3.
  assert (H1 : s_signal s1 = Stored) by (by injection E1 as <-).
  assert (H2 : s_signal s2 = ListenClosed).
  { unfold sigint_listen, mbind, M_bind, get in E2. cbn in E2. destruct (close_fd _ _) as [[[] w]| |]; [|done..].
    by injection E2 as <-. }
  assert (H3 : s_signal s' = Delivered).
  { unfold sigint_admin, mbind, M_bind, get in E3. cbn in E3. destruct (close_fd _ _) as [[[] w]| |]; [|done..].
    by injection E3 as <-. }
  split; [|done]. eapply rtc_l; [apply step_sigint; unfold sigint_next; by rewrite H0|].
  eapply rtc_l; [apply step_sigint; unfold sigint_next; by rewrite H1|].
  apply rtc_once, step_sigint. unfold sigint_next. by rewrite H2.
Qed.

(** A second delivery of the signal closes the same numbers again. *)
Example second_sigint : (on_sigint;; on_sigint) (init_server None 4 3 4) = Fault BadFd.
Proof. vm_compute. reflexivity. Qed.

(** The admin listener looks up the number of its listener after the handler closed it. *)
Example polled_after_close :
  run (r ← poll_in 4 true; a ← accept 4 EOTHER; mret (r, a))
    (with_net (mk_net ∅ ∅ []) (init_server None 4 3 4)) =
  Ok ((false, EBADF), with_net (mk_net ∅ ∅ []) (init_server None 4 3 4)).
Proof. vm_compute. reflexivity. Qed.

(** ** A run: a worker answers while the accept loop is still between submit and
    notify_event *)

Definition act (c : config) (i : nat) : option config :=
  match snd c !! i with
  | Some (Act m k) =>
      match m (fst c) with Ok (b, s') => Some (s', <[i := k b]> (snd c)) | _ => None end
  | _ => None
  end.

Fixpoint acts (l : list nat) (c : config) : option config :=
  match l with [] => Some c | i :: l' => c' ← act c i; acts l' c' end.

Lemma acts_steps l c c' : acts l c = Some c' → rtc step c c'.
Proof.
  revert c. induction l as [|i l IH]; intros c H; [by injection H as ->|].
  apply bind_Some in H as (c1 & H1 & H2). eapply rtc_l; [|by apply IH].
  unfold act in H1. destruct c as [s ts]. cbn [fst snd] in H1. destruct (ts !! i) as [[|B m k]|] eqn:E; [done| |done].
  destruct (m s) as [[b s']| |] eqn:Em; [|done..]. injection H1 as <-. by eapply step_act.
Qed.

Definition example_env : env :=
  mk_env (Some "GET /nothing HTTP/1.0") true (mk_ts 5 0) (mk_ts 5 1000000) "12:00:00" false.

Definition example_arrival : arrival := mk_arrival (Accepted 7) (Some "10.0.0.1") 5000 (Some 1) true.

Definition example_accepted : option config :=
  let s0 := init_server None 4 3 4 in
  let s0 := with_net (mk_net (n_open (s_net s0)) (n_sent (s_net s0)) [Sent 500; Sent 500]) s0 in
  acts [0; 0; 0; 0; 0; 0]%nat (s0, [accept_loop 3 [example_arrival]]).

Definition example_run : option config :=
  '(s1, ts1) ← example_accepted;
  acts [1; 1; 0; 1; 1; 1; 1; 1; 1; 1; 1]%nat (with_conns (s_conns s1) [] s1, ts1 ++ [handle_connection 1 example_env]).

Lemma example_reachable c : example_run = Some c → rtc step (init_server None 4 3 4, []) c.
Proof.
  unfold example_run. intros H. apply bind_Some in H as ([s1 ts1] & H1 & H2).
  eapply rtc_l; [apply (step_peers [Sent 500; Sent 500])|].
  eapply rtc_l; [apply (step_accept [example_arrival])|].
  etrans; [by eapply acts_steps|]. assert (Hq : s_queue s1 = [] ++ 1 :: []).
  { assert (E : (s_queue ∘ fst <$> example_accepted) = Some [1]) by (vm_compute; reflexivity).
    rewrite H1 in E. by injection E. }
  eapply rtc_l; [eapply (step_start 1 example_env), Hq|]. by eapply acts_steps.
Qed.

Lemma server_safe_witness :
  ∃ s ts, example_run = Some (s, ts) ∧ ts = [Ret tt; Ret tt] ∧ n_open (s_net s) = {[3; 4]} ∧
    (n_open (s_net s) = list_to_set (queued_fds s ++ listeners s ++ subs (s_sse s)) ∧
     dom (s_conns s) = list_to_set (s_queue s) ∧ active s = u32 (Z.of_nat (length (s_queue s)))).
Proof.
  pose proof (λ s ts, server_safe None 4 3 4 s ts (ex_intro _ 0 (ex_intro _ 0 (conj eq_refl eq_refl)))
    ltac:(lia) ltac:(lia) ltac:(lia)) as Hsafe.
  assert (Hts : (snd <$> example_run) = Some [Ret tt; Ret tt]) by (vm_compute; reflexivity).
  assert (Ho : (n_open ∘ s_net ∘ fst <$> example_run) = Some {[3; 4]}) by (vm_compute; reflexivity).
  pose proof example_reachable as Hr. destruct example_run as [[s ts]|]; [|discriminate Hts].
  injection Hts as Hts. injection Ho as Ho. exists s, ts. split; [reflexivity|]. split; [exact Hts|].
  split; [exact Ho|]. apply (Hsafe s ts (Hr (s, ts) eq_refl)). rewrite Hts. repeat constructor.
Defined.
End HttpConnections.
