(* ===== verification/HttpResponses.v ===== *)
(** * HttpResponses: what a client of the demo server receives

    handle_connection run by itself, with a peer that takes all bytes: the answer to
    every request, the image the reference definition of Mandelbrot.v gives for
    /render, the line in the log and the counters. *)
From S2P Require Export HttpConnections.
From Stdlib Require Import Ascii.
Local Open Scope Z_scope.

Module HttpResponses.
Import HttpNet HttpLog HttpServer HttpConnections.

(** ** The answer to a request *)

Definition text_response (code : Z) (reason body : string) : string :=
  (head code reason "text/plain" (Z.of_nat (String.length body)) +:+ body)%string.

(** The bytes of an image and how many there are, for the parameters of a query. *)
Definition picture (query : string) : list Z :=
  Mandelbrot.image (HttpText.query_spec query "w" 640 16 2048) (HttpText.query_spec query "h" 420 16 2048)
    (HttpText.query_spec query "iter" 800 1 5000).

(** The bytes sent and what is logged; [memory]: the image can be allocated. *)
Definition reply (memory : bool) (req : string) : string * outcome_t :=
  match HttpText.sscanf_request req with
  | (Some method, Some target) =>
      if bool_decide (method = "GET") then
        let '(path, query) :=
          match HttpText.strchr "?" target with Some (a, b) => (a, b) | None => (target, "") end in
        if bool_decide (path = "/render") then
          if memory then
            let bmp := picture query in
            let len := Z.of_nat (length bmp) in
            (head 200 "OK" "image/bmp" len +:+ byte_string bmp, (method, path, query, (200, len), true))
          else (text_response 500 "Internal Server Error" ("render failed" +:+ newline),
                (method, path, query, (500, 14), true))
        else (text_response 404 "Not Found" ("not found" +:+ newline), (method, path, query, (404, 10), false))
      else (text_response 405 "Method Not Allowed" ("method not allowed" +:+ newline),
            (method, target, "", (405, 19), false))
  | (method, _) =>
      (text_response 400 "Bad Request" ("bad request" +:+ newline), (default "?" method, "-", "", (400, 12), false))
  end%string.

(** ** Running programs *)

Lemma run_bind {A B} (p : prog A) (f : A → prog B) s : run (p ≫= f) s = (a ← run p; run (f a)) s.
Proof.
  revert s. induction p as [a|C m k IH]; intros s; [done|]. unfold mbind at 1, prog_bind. cbn [pbind run].
  unfold mbind, M_bind. destruct (m s) as [[b s']| |]; [apply IH|done..].
Qed.

Lemma run_bind_ok {A B} (p : prog A) (f : A → prog B) s a s' :
  run p s = Ok (a, s') → run (p ≫= f) s = run (f a) s'.
Proof. intros H. rewrite run_bind. exact (M_bind_ok (run p) (λ a, run (f a)) _ _ _ H). Qed.

Lemma run_atomic {A : Set} (m : SM A) s : run (atomic m) s = m s.
Proof. cbn. unfold mbind, M_bind. by destruct (m s) as [[a s']| |]. Qed.

(** [text] has been sent to [fd]; the peers still take [k] bytes. *)
Record wrote (fd : Z) (text : string) (k : nat) (w w' : net) : Prop := {
  wr_text : received w' fd = (received w fd +:+ text)%string;
  wr_open : n_open w' = n_open w;
  wr_left : willing k (n_answers w')
}.

Lemma wrote_trans fd t1 t2 k1 k2 w w1 w2 :
  wrote fd t1 k1 w w1 → wrote fd t2 k2 w1 w2 → wrote fd (t1 +:+ t2)%string k2 w w2.
Proof. intros [H1 H2 H3] [G1 G2 G3]. split; [by rewrite G1, H1, append_assoc|congruence|done]. Qed.

(** The program sends exactly [text] and changes nothing else. *)
Definition sends {A} (fd : Z) (text : string) (a : A) (p : prog A) : Prop :=
  ∀ s k, fd ∈ n_open (s_net s) → willing (String.length text + k) (n_answers (s_net s)) →
    ∃ w, run p s = Ok (a, with_net w s) ∧ wrote fd text k (s_net s) w.

Lemma sends_write fd text : sends fd text true (on_net (write_all fd text)).
Proof.
  intros s k Ho Hw. destruct (write_all_returns fd text k (s_net s) Ho Hw) as (w & E & H1 & H2 & H3).
  exists w. split; [|by split]. unfold on_net. rewrite run_atomic. unfold net_call. by rewrite E.
Qed.

Lemma sends_header fd n text : (String.length text < n)%nat → sends fd text true (send_header fd n text).
Proof. intros Hn. unfold send_header. rewrite (proj2 (Nat.ltb_lt _ _) Hn). apply sends_write. Qed.

Lemma sends_bind {A B} fd t1 t2 (a : A) (b : B) p f :
  sends fd t1 a p → sends fd t2 b (f a) → sends fd (t1 +:+ t2)%string b (p ≫= f).
Proof.
  intros Hp Hf s k Ho Hw. rewrite length_append, <- Nat.add_assoc in Hw.
  destruct (Hp s _ Ho Hw) as (w1 & E1 & W1).
  destruct (Hf (with_net w1 s) k) as (w2 & E2 & W2); [cbn; by rewrite (wr_open _ _ _ _ _ W1)|apply W1|].
  exists w2. split; [|by eapply wrote_trans]. rewrite (run_bind_ok _ _ _ _ _ E1). exact E2.
Qed.

Lemma sends_ret {A B} fd text (a : A) (f : A → B) p :
  sends fd text a p → sends fd text (f a) (p ≫= λ a, mret (f a)).
Proof.
  intros Hp. rewrite <- (append_nil text). eapply sends_bind; [done|]. intros s k Ho Hw.
  exists (s_net s). split; [by destruct s|]. split; [by rewrite append_nil|done|done].
Qed.

Lemma sends_compute {A : Set} {B} fd text (r : res A) a (b : B) f :
  r = Ok a → sends fd text b (f a) → sends fd text b (compute r ≫= f).
Proof.
  intros -> Hf s k Ho Hw. destruct (Hf s k Ho Hw) as (w & E & W). exists w. by split.
Qed.

Lemma sends_status fd code reason body :
  (String.length reason < 300)%nat →
  sends fd (text_response code reason body) (Z.of_nat (String.length body)) (send_status fd code reason body).
Proof.
  intros Hl. eapply sends_bind; [apply sends_header|eapply (sends_ret _ _ _ (λ _, _)), sends_write].
  pose proof (length_head code reason "text/plain" (Z.of_nat (String.length body))).
  change (String.length "text/plain") with 10%nat in *. lia.
Qed.

Lemma sends_fixed {B} fd code reason body (f : Z → B) b :
  (String.length reason < 300)%nat → f (Z.of_nat (String.length body)) = b →
  sends fd (text_response code reason body) b (n ← send_status fd code reason body; mret (f n)).
Proof. intros Hl <-. by apply sends_ret, sends_status. Qed.


Lemma length_bytes bs : String.length (byte_string bs) = length bs.
Proof. induction bs as [|b bs IH]; [done|]. cbn. by f_equal. Qed.

(** The parameters of a query are in their ranges. *)
Lemma query_value q key def min max :
  HttpText.strchr "&" key = None → 0 ≤ min ≤ def → def ≤ max < 2 ^ 31 →
  HttpText.query_int q key def min max = Ok (HttpText.query_spec q key def min max) ∧
  min ≤ HttpText.query_spec q key def min max ≤ max.
Proof.
  intros Hk Hmin Hmax. destruct (query_range q key def min max Hk Hmin Hmax) as (v & E & Hv).
  assert (E' : HttpText.query_int q key def min max = Ok (HttpText.query_spec q key def min max))
    by (apply HttpText.query_loop_spec; lia || done). split; [done|]. congruence.
Qed.

Lemma sends_render fd query (memory : bool) :
  let '(text, r) :=
    if memory then
      let len := Z.of_nat (length (picture query)) in
      (head 200 "OK" "image/bmp" len +:+ byte_string (picture query), (200, len))
    else (text_response 500 "Internal Server Error" ("render failed" +:+ newline), (500, 14)) in
  sends fd text r (serve_render fd query memory).
Proof.
  destruct (query_value query "w" 640 16 2048) as [Ew Hw]; [done..|].
  destruct (query_value query "h" 420 16 2048) as [Eh Hh]; [done..|].
  destruct (query_value query "iter" 800 1 5000) as [Ei Hi]; [done..|].
  unfold serve_render, DEFAULT_RENDER_W, DEFAULT_RENDER_H, DEFAULT_RENDER_ITER, MAX_RENDER_W, MAX_RENDER_H, MAX_RENDER_ITER.
  destruct memory; (eapply sends_compute; [exact Ew|]; eapply sends_compute; [exact Eh|];
    eapply sends_compute; [exact Ei|]); (eapply sends_compute; [apply image_size || apply no_image; lia|]).
  - cbv zeta. eapply sends_bind; [apply sends_header|eapply (sends_ret _ _ _ (λ _, _)), sends_write].
    pose proof (length_head 200 "OK" "image/bmp" (Z.of_nat (length (picture query)))) as H.
    change (String.length "OK") with 2%nat in H. change (String.length "image/bmp") with 9%nat in H.
    fold (picture query). lia.
  - apply (sends_fixed fd 500 _ _ (λ n, (500, n))); [cbn [String.length]; lia|done].
Qed.

(** The paths fit their buffer. *)
Lemma word_length n s : (String.length (fst (HttpText.word n s)) ≤ n)%nat.
Proof.
  revert s. induction n as [|n IH]; intros s; [done|]. destruct s as [|c s]; [simpl; lia|]. cbn [HttpText.word].
  destruct (HttpText.isspace c); [simpl; lia|]. specialize (IH s). destruct (HttpText.word n s). cbn in *. lia.
Qed.

Lemma strchr_shorter c s a b : HttpText.strchr c s = Some (a, b) → (String.length a ≤ String.length s)%nat.
Proof.
  revert a b. induction s as [|x s IH]; intros a b H; [done|]. cbn [HttpText.strchr] in H.
  destruct (x =? c)%char; [by injection H as <- <-; simpl; lia|].
  apply bind_Some in H as ([a' b'] & H1 & H2). injection H2 as <- <-. specialize (IH _ _ H1). simpl. lia.
Qed.

Lemma target_length req m t : HttpText.sscanf_request req = (m, Some t) → (String.length t ≤ 1023)%nat.
Proof.
  unfold HttpText.sscanf_request. destruct (HttpText.word 15 _) as [x r]. destruct (_ =? 0)%nat; [done|].
  pose proof (word_length 1023 (HttpText.skip_space r)) as H. destruct (HttpText.word 1023 _) as [y r'].
  destruct (_ =? 0)%nat; [done|]. by injection 1 as _ <-.
Qed.

Lemma path_fits req m t p :
  HttpText.sscanf_request req = (m, Some t) → (String.length p ≤ String.length t)%nat → snprintf PATH_MAX p = p.
Proof. intros H Hp. apply target_length in H. apply snprintf_fits. unfold PATH_MAX. lia. Qed.

Lemma sends_answer fd e req :
  sends fd (fst (reply (e_calloc e) req)) (snd (reply (e_calloc e) req)) (answer_request fd e req).
Proof.
  unfold answer_request, reply. destruct (HttpText.sscanf_request req) as [[method|] [target|]] eqn:Hs;
    [|apply (sends_fixed fd 400 _ _ (λ n, (_, _, _, (400, n), _))); [cbn [String.length]; lia|done]..].
  case_bool_decide as Hm; cbn [negb].
  - assert (Hp : ∀ p q, (match HttpText.strchr "?" target with Some (a, b) => (a, b) | None => (target, "") end)
      = (p, q) → snprintf PATH_MAX p = p).
    { intros p q E. eapply path_fits; [done|]. destruct (HttpText.strchr "?" target) as [[a b]|] eqn:Hc;
        injection E as <- _; [by eapply strchr_shorter|done]. }
    destruct (match HttpText.strchr "?" target with Some (a, b) => (a, b) | None => (target, "") end) as [path query].
    rewrite (Hp path query eq_refl). case_bool_decide.
    + pose proof (sends_render fd query (e_calloc e)) as H1. destruct (e_calloc e);
      by apply (sends_ret _ _ _ (λ r, (_, _, _, r, _))).
    + apply (sends_fixed fd 404 _ _ (λ n, (_, _, _, (404, n), _))); [cbn [String.length]; lia|done].
  - rewrite (path_fits _ _ _ target Hs) by done. apply (sends_fixed fd 405 _ _ (λ n, (_, _, _, (405, n), _))); [cbn [String.length]; lia|done].
Qed.


Lemma run_log attached ts peer method path query r ms s :
  ring_ok (s_log s) →
  ∃ ring out, run (log_request attached ts peer method path query r ms) s = Ok (tt, with_log ring out s) ∧
    contents ring = lastn 256 (contents (s_log s) ++ [log_line ts peer method path query r ms]) ∧
    out = if attached then s_stdout s else s_stdout s ++ [log_line ts peer method path query r ms].
Proof.
  intros Hr. set (line := log_line ts peer method path query r ms).
  destruct (append_refines _ line Hr) as (ring & E & _ & Hc).
  rewrite (snprintf_fits LOG_LINE_MAX line) in Hc.
  2:{ unfold line, log_line. rewrite length_snprintf. unfold LOG_LINE_MAX. lia. }
  exists ring, (if attached then s_stdout s else s_stdout s ++ [line]). split; [|done].
  unfold log_request. fold line. erewrite run_bind_ok.
  2:{ rewrite run_atomic. unfold mbind, res_bind. by rewrite E. }
  rewrite run_atomic. unfold modify. by destruct attached.
Qed.

(** What is left of a request behind the answer. *)
Lemma run_tail fd (rendered attached : bool) ts peer method path query r ms s :
  fd ∈ n_open (s_net s) → ring_ok (s_log s) →
  ∃ s', run (on_net (close fd);; active_add (-1);; (if rendered then total_add else mret tt);; notify_event;;
             log_request attached ts peer method path query r ms) s = Ok (tt, s') ∧
    s_net s' = mk_net (n_open (s_net s) ∖ {[fd]}) (n_sent (s_net s)) (n_answers (s_net s)) ∧
    s_conns s' = s_conns s ∧ active s' = u32 (active s - 1) ∧
    total s' = (if rendered then u64 (total s + 1) else total s) ∧
    contents (s_log s') = lastn 256 (contents (s_log s) ++ [log_line ts peer method path query r ms]).
Proof.
  intros Ho Hr. erewrite run_bind_ok by (unfold on_net; rewrite run_atomic; unfold net_call; by rewrite close_ok).
  erewrite run_bind_ok by reflexivity. cbn [active total bcast_gen with_net].
  set (w := mk_net _ _ _). destruct rendered; (erewrite run_bind_ok by reflexivity; erewrite run_bind_ok by reflexivity);
    (match goal with |- ∃ s', run _ ?t = _ ∧ _ =>
       destruct (run_log attached ts peer method path query r ms t) as (ring & out & E & Hc & _); [exact Hr|] end);
    (eexists; split; [exact E|]; by split_and!).
Qed.

(** C17: A client that takes its bytes gets the whole answer and nothing else: 400, 405,
    404, or for /render the image of the parameters of its query, or 500 when there is
    no memory for it; then its connection is closed, its argument freed, one connection
    less is active, [total_served] counts a request for /render, with an image or
    without, and the request is the last line of the log. *)
Theorem handle_connection_answers c e s fd peer data :
  s_conns s !! c = Some (fd, peer) → fd ∈ n_open (s_net s) → ring_ok (s_log s) → e_recv e = Some data →
  let req := cstring (String.substring 0 4095 data) in
  let '(text, (method, path, query, r, rendered)) := reply (e_calloc e) req in
  willing (String.length text) (n_answers (s_net s)) →
  ∃ s', run (handle_connection c e) s = Ok (tt, s') ∧
    received (s_net s') fd = (received (s_net s) fd +:+ text)%string ∧
    n_open (s_net s') = n_open (s_net s) ∖ {[fd]} ∧
    s_conns s' = delete c (s_conns s) ∧
    active s' = u32 (active s - 1) ∧
    total s' = (if rendered : bool then u64 (total s + 1) else total s) ∧
    contents (s_log s') = lastn 256 (contents (s_log s) ++
      [log_line (e_time e) (snprintf 48 peer) method path query r (elapsed_ms (e_t0 e) (e_t1 e))]).
Proof.
  intros Hc Ho Hr Hd req. pose proof (sends_answer fd e req) as Hs.
  destruct (reply (e_calloc e) req) as [text [[[[method path] query] r] rendered]]. cbn [fst snd] in Hs. intros Hw.
  unfold handle_connection. erewrite run_bind_ok by (unfold take_conn; rewrite run_atomic; by rewrite Hc).
  cbv iota beta. erewrite run_bind_ok by reflexivity. rewrite Hd.
  erewrite run_bind_ok by (unfold recv; rewrite run_atomic; rewrite bool_decide_true by exact Ho; reflexivity).
  cbn [fmap option_fmap option_map]. change (REQ_MAX - 1)%nat with 4095%nat. fold req.
  match goal with |- ∃ s', run _ ?t = _ ∧ _ =>
    destruct (Hs t 0%nat Ho) as (w & E & W); [by rewrite Nat.add_0_r|] end.
  erewrite run_bind_ok by exact E. cbv iota beta. destruct W as [W1 W2 W3].
  match goal with |- ∃ s', run _ ?t = _ ∧ _ =>
    destruct (run_tail fd rendered (e_attached e) (e_time e) (snprintf 48 peer) method path query r
      (elapsed_ms (e_t0 e) (e_t1 e)) t) as (s' & E' & H1 & H2 & H3 & H4 & H5); [cbn; by rewrite W2|exact Hr|] end.
  exists s'. split; [exact E'|]. split_and!; try done.
  - rewrite H1. exact W1.
  - rewrite H1. cbn. by rewrite W2.
Qed.


(** A picture of 16 by 16 pixels. *)
Definition render_req : string := "GET /render?w=16&h=16&iter=2 HTTP/1.0".
Definition render_env : env :=
  mk_env (Some render_req) true (mk_ts 5 0) (mk_ts 5 1000000) "12:00:00" true.
Definition render_state : server :=
  mk_server (mk_net {[3; 4; 7]} ∅ (replicate 2000 (Sent 1))) sse_init (fst (log_ring_init 0)) [] 1 0 0 None 4
    {[1 := (7, "10.0.0.1:5000")]} [] (mk_ctl true 3 4) Undelivered.

Lemma handle_connection_answers_witness :
  ∃ s', run (handle_connection 1 render_env) render_state = Ok (tt, s') ∧
    received (s_net s') 7 = fst (reply true render_req) ∧ String.length (fst (reply true render_req)) = 906%nat ∧
    active s' = 0 ∧ total s' = 1.
Proof.
  pose proof (handle_connection_answers 1 render_env render_state 7 "10.0.0.1:5000" render_req eq_refl
    ltac:(simpl; set_solver) (proj1 (init_ok 0)) eq_refl) as H. cbv zeta in H.
  assert (Hreq : cstring (String.substring 0 4095 render_req) = render_req) by (vm_compute; reflexivity).
  rewrite Hreq in H. cbn [e_calloc render_env] in H.
  assert (Hfacts : (λ '(t, (_, _, _, _, b)), (String.length t, b)) (reply true render_req) = (906%nat, true))
    by (vm_compute; reflexivity).
  destruct (reply true render_req) as [text [[[[method path] query] r] rendered]]. injection Hfacts as Hl Hren.
  subst rendered. destruct H as (s' & E & H1 & _ & _ & H2 & H3 & _).
  - rewrite Hl. split; [apply Forall_replicate; split; discriminate|]. vm_compute. lia.
  - exists s'. split; [exact E|]. split; [exact H1|]. split; [exact Hl|]. split; [rewrite H2|rewrite H3]; reflexivity.
Defined.

End HttpResponses.
