(* ===== verification/HttpMain.v ===== *)
(** * HttpMain: starting and stopping the demo server (main of demo/http_server.c)

    main as two programs: what precedes the accept loop, with every error path, and
    what follows it.  The answers of the system calls are arguments.  What main does
    with the terminal, the monitor and the key listener is in HttpConsole.v. *)
From S2P Require Export HttpResponses.
Local Open Scope Z_scope.

Module HttpMain.
Import HttpNet HttpLog HttpServer HttpConnections HttpResponses.

(** The answers to the calls of create_listener. *)
Record listener_env := mk_listener {
  l_socket : option Z;       (* the new descriptor *)
  l_pton : bool;             (* the host is an address *)
  l_bind : bool;
  l_listen : bool
}.

Definition create_listener (e : listener_env) : prog Z :=
  match l_socket e with
  | None => mret (-1)
  | Some fd =>
      on_net (open_fd fd);;
      if negb (l_pton e) then on_net (close fd);; mret (-1) else
      if negb (l_bind e) || negb (l_listen e) then on_net (close fd);; mret (-1) else
      mret fd
  end.

Definition prints (line : string) : prog unit :=
  atomic (modify (λ s, with_log (s_log s) (s_stdout s ++ [line]) s)).
Definition set_listen_fd (fd : Z) : prog unit :=
  atomic (modify (λ s, with_ctl (mk_ctl (running (s_ctl s)) fd (admin_fd (s_ctl s))) s)).
Definition set_admin_fd (fd : Z) : prog unit :=
  atomic (modify (λ s, with_ctl (mk_ctl (running (s_ctl s)) (listen_fd (s_ctl s)) fd) s)).
Definition set_running (on : bool) : prog unit :=
  atomic (modify (λ s, with_ctl (mk_ctl on (listen_fd (s_ctl s)) (admin_fd (s_ctl s))) s)).

Record start_env := mk_start {
  st_mutex : Z;                    (* pthread_mutex_init of the log *)
  st_cores : Z;                    (* get_num_core *)
  st_main : listener_env;
  st_admin : listener_env;
  st_pool : option thread_pool;    (* thread_pool_init *)
  st_admin_thread : bool;          (* pthread_create of the admin listener *)
  st_bcast_thread : bool           (* pthread_create of the broadcaster *)
}.

Definition queue_cap (n : Z) (p : thread_pool) : thread_pool :=
  if 0 <? n then upd_queue (p_heap p) (pq_set_max_tasks true (u64 n) (pq p)) p else p.

(** The pool of MODE_POOL; the result says whether main goes on. *)
Definition start_pool (ctx : HttpText.settings) (pool : option thread_pool) (fd afd : Z) : prog bool :=
  match HttpText.mode ctx with
  | HttpText.MODE_NAIVE => mret true
  | HttpText.MODE_POOL =>
      prints ("[INFO] thread pool initialized with " +:+ dec (HttpText.workers ctx) +:+ " workers" +:+ newline)%string;;
      match pool with
      | Some p =>
          atomic (modify (λ s, with_pool (Some (still (queue_cap (HttpText.max_tasks ctx) p))) (s_workers s) s));;
          (if 0 <? HttpText.max_tasks ctx
           then prints ("[INFO] queue capped at " +:+ dec (HttpText.max_tasks ctx) +:+ " pending tasks" +:+ newline)%string
           else mret tt);;
          mret true
      | None =>
          on_net (close fd);;
          on_net (close afd);;
          set_listen_fd (-1);;
          set_admin_fd (-1);;
          mret false
      end
  end.

(** The admin listener and the broadcaster. *)
Definition create_threads (e : start_env) (fd afd : Z) : prog (bool * bool) :=
  (if st_admin_thread e then mret tt
   else set_running false;; on_net (close fd);; on_net (close afd));;
  mret (st_admin_thread e, st_bcast_thread e).

(** main up to the accept loop: [inl] is an exit code, [inr] says which threads were
    created. *)
Definition main_start (args : list string) (e : start_env) : prog (Z + bool * bool) :=
  let '(ring, rc) := log_ring_init (st_mutex e) in
  atomic (modify (λ s, with_log ring (s_stdout s) s));;
  if negb (rc =? 0) then mret (inl 1) else
  match HttpText.parse_args args (HttpText.server_defaults (st_cores e)) with
  | inr code => mret (inl code)
  | inl ctx =>
      atomic (modify (λ s, with_pool None (HttpText.workers ctx) s));;
      prints ("render backend: http://" +:+ HttpText.host ctx +:+ ":" +:+ dec (HttpText.port ctx) +:+ "/render" +:+ newline)%string;;
      prints ("admin data:     http://" +:+ HttpText.host ctx +:+ ":" +:+ dec (HttpText.admin_port ctx) +:+ "/admin/stats" +:+ newline)%string;;
      fd ← create_listener (st_main e);
      if fd <? 0 then mret (inl 1) else
      set_listen_fd fd;;
      afd ← create_listener (st_admin e);
      if afd <? 0 then
        on_net (close fd);;
        set_listen_fd (-1);;
        mret (inl 1)
      else
      set_admin_fd afd;;
      ok ← start_pool ctx (st_pool e) fd afd;
      if negb ok then mret (inl 1) else
      valid ← create_threads e fd afd;
      mret (inr valid)
  end.

(** main behind the accept loop; joining a thread waits for its program to end, the
    monitor is detached (Monitor.v) and the pool destroyed (Pool.v). *)
Definition main_shutdown (bcast_valid : bool) : prog unit :=
  l ← reads (λ s, Ok (listen_fd (s_ctl s)));
  (if 0 <=? l then on_net (close l) else mret tt);;
  set_listen_fd (-1);;
  a ← reads (λ s, Ok (admin_fd (s_ctl s)));
  (if 0 <=? a then on_net (close a) else mret tt);;
  set_admin_fd (-1);;
  (if bcast_valid then notify_event else mret tt);;
  close_streams;;
  atomic (modify (λ s, with_pool None (s_workers s) s)).


(** ** Programs that return *)

Definition returns {A} (p : prog A) (s : server) (Q : A → server → Prop) : Prop :=
  ∃ a s', run p s = Ok (a, s') ∧ Q a s'.

Lemma returns_ret {A} (a : A) s (Q : A → server → Prop) : Q a s → returns (mret a) s Q.
Proof. intros. by exists a, s. Qed.

Lemma returns_bind {A B} (p : prog A) (f : A → prog B) s Q :
  returns p s (λ a s', returns (f a) s' Q) → returns (p ≫= f) s Q.
Proof. intros (a & s1 & E & b & s2 & E' & HQ). exists b, s2. by rewrite (run_bind_ok _ _ _ _ _ E). Qed.

Lemma returns_modify (f : server → server) s (Q : unit → server → Prop) :
  Q tt (f s) → returns (atomic (modify f)) s Q.
Proof. intros. by exists tt, (f s). Qed.

Lemma returns_open fd s (Q : unit → server → Prop) :
  0 ≤ fd → fd ∉ n_open (s_net s) →
  Q tt (with_net (mk_net ({[fd]} ∪ n_open (s_net s)) (delete fd (n_sent (s_net s))) (n_answers (s_net s))) s) →
  returns (on_net (open_fd fd)) s Q.
Proof.
  intros Hfd Hn HQ. eexists _, _. split; [|exact HQ]. unfold on_net. rewrite run_atomic. unfold net_call, open_fd.
  by rewrite (proj2 (Z.leb_le 0 fd) Hfd), bool_decide_false.
Qed.

Lemma returns_close fd s (Q : unit → server → Prop) :
  fd ∈ n_open (s_net s) →
  Q tt (with_net (mk_net (n_open (s_net s) ∖ {[fd]}) (n_sent (s_net s)) (n_answers (s_net s))) s) →
  returns (on_net (close fd)) s Q.
Proof.
  intros Ho HQ. eexists _, _. split; [|exact HQ]. unfold on_net. rewrite run_atomic. unfold net_call.
  by rewrite close_ok.
Qed.

Lemma returns_if {A} (b : bool) (p q : prog A) s Q :
  (b = true → returns p s Q) → (b = false → returns q s Q) → returns (if b then p else q) s Q.
Proof. destruct b; auto. Qed.

(** What the system promises of a new socket. *)
Definition new_fd (sock : option Z) (taken : gset Z) : Prop :=
  ∀ fd, sock = Some fd → 0 ≤ fd ∧ fd ∉ taken.

Definition opened (e : listener_env) (fd : Z) (s s' : server) : Prop :=
  l_socket e = Some fd ∧ 0 ≤ fd ∧ fd ∉ n_open (s_net s) ∧
  s' = with_net (mk_net ({[fd]} ∪ n_open (s_net s)) (delete fd (n_sent (s_net s))) (n_answers (s_net s))) s.

(** A listener is created, or nothing is left open. *)
Lemma create_listener_returns e s (Q : Z → server → Prop) :
  new_fd (l_socket e) (n_open (s_net s)) →
  (∀ fd s', opened e fd s s' → Q fd s') →
  (∀ w, n_open w = n_open (s_net s) → Q (-1) (with_net w s)) →
  returns (create_listener e) s Q.
Proof.
  intros Hnew Hok Hfail. unfold create_listener. destruct (l_socket e) as [fd|] eqn:Hs.
  2:{ apply returns_ret. specialize (Hfail (s_net s) eq_refl). by destruct s. }
  destruct (Hnew fd eq_refl) as [Hfd Hn]. apply returns_bind, returns_open; [done..|].
  set (s1 := with_net _ s).
  assert (Hclose : returns (on_net (close fd);; mret (-1)) s1 Q).
  { apply returns_bind, returns_close; [cbn; set_solver|]. apply returns_ret.
    refine (Hfail (mk_net _ _ _) _). cbn. set_solver. }
  apply returns_if; intros _; [done|]. apply returns_if; intros _; [done|]. apply returns_ret, Hok. done.
Qed.

Lemma returns_prints line s (Q : unit → server → Prop) :
  Q tt (with_log (s_log s) (s_stdout s ++ [line]) s) → returns (prints line) s Q.
Proof. apply returns_modify. Qed.

Lemma parse_options_code args ctx code : HttpText.parse_options args ctx = inr code → code = 2.
Proof.
  revert ctx. induction args as [args IH] using (induction_ltof1 _ length). intros ctx E.
  destruct args as [|a args]; cbn [HttpText.parse_options] in E; [done|].
  destruct args as [|v rest]; [by case_bool_decide; simplify_eq|].
  repeat case_bool_decide; first [by simplify_eq | refine (IH _ _ _ E); unfold ltof; simpl; lia].
Qed.

Lemma parse_args_code args ctx code : HttpText.parse_args args ctx = inr code → code = 2.
Proof.
  unfold HttpText.parse_args. intros E. destruct (HttpText.parse_options args ctx) eqn:Ho.
  - destruct (_ || _) in E; [by injection E as <-|done].
  - injection E as <-. by eapply parse_options_code.
Qed.

Lemma start_pool_returns ctx pool fd afd s (Q : bool → server → Prop) :
  fd ∈ n_open (s_net s) → afd ∈ n_open (s_net s) → fd ≠ afd →
  (∀ s', s_net s' = s_net s → s_ctl s' = s_ctl s → Q true s') →
  (∀ s', n_open (s_net s') = n_open (s_net s) ∖ {[fd]} ∖ {[afd]} →
     s_ctl s' = mk_ctl (running (s_ctl s)) (-1) (-1) → Q false s') →
  returns (start_pool ctx pool fd afd) s Q.
Proof.
  intros Hf Ha Hne Hok Hfail. unfold start_pool. destruct (HttpText.mode ctx).
  2:{ apply returns_ret. by apply Hok. }
  apply returns_bind, returns_prints. destruct pool as [p|].
  - apply returns_bind, returns_modify, returns_bind, returns_if; intros _;
      [apply returns_prints|apply returns_ret]; apply returns_ret; by apply Hok.
  - apply returns_bind, returns_close; [done|]. apply returns_bind, returns_close; [cbn; set_solver|].
    apply returns_bind, returns_modify, returns_bind, returns_modify, returns_ret. by apply Hfail.
Qed.

(** ** Starting *)

(** The state main leaves: an exit code, or the threads it created. *)
Definition started (e : start_env) (s : server) (r : Z + bool * bool) (s' : server) : Prop :=
  match r with
  | inl code => 0 < code ∧ n_open (s_net s') = n_open (s_net s) ∧ s_ctl s' = s_ctl s
  | inr (admin_valid, _) =>
      ∃ fd afd, l_socket (st_main e) = Some fd ∧ l_socket (st_admin e) = Some afd ∧
        s_ctl s' = mk_ctl admin_valid fd afd ∧
        n_open (s_net s') = if admin_valid then {[fd; afd]} ∪ n_open (s_net s) else n_open (s_net s)
  end.

(** Both listeners are open. *)
Lemma start_threads e ctx fd afd s s1 :
  s_ctl s = mk_ctl true (-1) (-1) → l_socket (st_main e) = Some fd → l_socket (st_admin e) = Some afd →
  fd ∉ n_open (s_net s) → afd ∉ n_open (s_net s) → fd ≠ afd →
  s_ctl s1 = mk_ctl true fd afd → n_open (s_net s1) = {[fd; afd]} ∪ n_open (s_net s) →
  returns (ok ← start_pool ctx (st_pool e) fd afd;
           if negb ok then mret (inl 1) else
           valid ← create_threads e fd afd; mret (inr valid)) s1 (started e s).
Proof.
  intros Hc E1 E2 Hf Ha Hne Hc1 Ho1.
  apply returns_bind, start_pool_returns; [set_solver|set_solver|done|..].
  - intros s2 Hn2 Hc2. cbn [negb]. apply returns_bind. unfold create_threads. apply returns_bind, returns_if; intros ->.
    + apply returns_ret, returns_ret, returns_ret. exists fd, afd. by rewrite Hc2, Hn2.
    + apply returns_bind, returns_modify, returns_bind, returns_close; [cbn; rewrite Hn2; set_solver|].
      apply returns_close; [cbn; rewrite Hn2; set_solver|]. apply returns_ret, returns_ret. exists fd, afd. cbn.
      rewrite Hc2, Hc1, Hn2, Ho1. split_and!; try done. set_solver.
  - intros s2 Hn2 Hc2. cbn [negb]. apply returns_ret. split; [done|]. rewrite Hn2, Hc2, Hc, Hc1, Ho1.
    split; [set_solver|done].
Qed.

(** C23: main starts whatever the system answers.  An error leaves no descriptor open and
    gives a non-zero exit code; otherwise both listeners are open and recorded, unless
    the admin thread could not be created. *)
Theorem main_start_outcome args e s :
  s_ctl s = mk_ctl true (-1) (-1) →
  new_fd (l_socket (st_main e)) (n_open (s_net s)) →
  new_fd (l_socket (st_admin e)) (n_open (s_net s) ∪ default ∅ (singleton <$> l_socket (st_main e))) →
  ∃ r s', run (main_start args e) s = Ok (r, s') ∧ started e s r s'.
Proof.
  intros Hc Hm Ha. refine (_ : returns (main_start args e) s (started e s)).
  unfold main_start. cbn [log_ring_init]. apply returns_bind, returns_modify, returns_if; intros _; [by apply returns_ret|].
  destruct (HttpText.parse_args _ _) as [ctx|code] eqn:Hp.
  2:{ apply returns_ret. by rewrite (parse_args_code _ _ _ Hp). }
  apply returns_bind, returns_modify, returns_bind, returns_prints, returns_bind, returns_prints, returns_bind.
  apply create_listener_returns; [exact Hm| |].
  2:{ intros w Hw. by apply returns_ret. }
  intros fd s1 (E1 & Hfd & Hn1 & ->). rewrite (proj2 (Z.ltb_ge fd 0) Hfd). rewrite E1 in Ha. cbn in Ha, Hn1.
  apply returns_bind, returns_modify, returns_bind, create_listener_returns.
  - intros afd E2. destruct (Ha afd E2) as [? Hn]. split; [done|]. cbn. set_solver.
  - intros afd s2 (E2 & Hafd & Hn2 & ->). rewrite (proj2 (Z.ltb_ge afd 0) Hafd). cbn in Hn2.
    apply returns_bind, returns_modify. apply start_threads; try done; [set_solver|set_solver|cbn; by rewrite Hc|cbn; set_solver].
  - intros w Hw. change (-1 <? 0) with true. cbv iota. apply returns_bind, returns_close; [cbn; rewrite Hw; cbn; set_solver|].
    apply returns_bind, returns_modify, returns_ret. cbn. rewrite Hw, Hc. cbn. split_and!; [done|set_solver|done].
Qed.


(** ** Stopping *)

(** Closing the subscribers stumbles over one that is not open. *)
Lemma close_loop_faults left i a w fd :
  0 ≤ i → (Z.to_nat i + left ≤ length a)%nat →
  fd ∈ take left (drop (Z.to_nat i) a) → fd ∉ n_open w → sse_close_loop left i a w = Fault BadFd.
Proof.
  revert i w. induction left as [|left IH]; intros i w Hi Hl Hin Hn; [set_solver|].
  destruct (lookup_lt_is_Some_2 a (Z.to_nat i) ltac:(lia)) as [cfd Hcfd].
  rewrite (drop_S _ _ _ Hcfd) in Hin. cbn [take] in Hin. apply elem_of_cons in Hin.
  cbn [sse_close_loop]. erewrite M_bind_ok.
  2:{ apply lift_ok. unfold arr_get. replace (i <? 0) with false by lia. by rewrite Hcfd. }
  unfold mbind at 1, M_bind at 1. destruct (decide (cfd ∈ n_open w)) as [Ho|Ho].
  - rewrite close_ok by done. apply IH; [lia|lia| |cbn; set_solver].
    destruct Hin as [->|Hin]; [done|]. by replace (Z.to_nat (i + 1)) with (S (Z.to_nat i)) by lia.
  - unfold close. by rewrite bool_decide_false.
Qed.

Lemma run_faults {A B} (p : prog A) (f : A → prog B) s x : run p s = Fault x → run (p ≫= f) s = Fault x.
Proof. intros H. rewrite run_bind. unfold mbind, M_bind. by rewrite H. Qed.

Lemma run_closed fd s : fd ∉ n_open (s_net s) → run (on_net (close fd)) s = Fault BadFd.
Proof. intros H. unfold on_net. rewrite run_atomic. unfold net_call, close. by rewrite bool_decide_false. Qed.

Lemma streams_fault s fd :
  length (fds (s_sse s)) = Z.to_nat MAX_SSE_CLIENTS ∧ 0 ≤ sse_count (s_sse s) ≤ MAX_SSE_CLIENTS →
  fd ∈ subs (s_sse s) → fd ∉ n_open (s_net s) → run close_streams s = Fault BadFd.
Proof.
  intros [Hl Hc] Hin Hn. unfold close_streams. rewrite run_atomic. unfold mbind, M_bind, get, net_call, sse_close_all.
  unfold mbind, M_bind. rewrite (close_loop_faults _ 0 _ _ fd); [done|lia|rewrite Hl; unfold MAX_SSE_CLIENTS in *; lia|done|done].
Qed.

(** What main does behind the first close. *)
Lemma shutdown_streams b l s fd :
  length (fds (s_sse s)) = Z.to_nat MAX_SSE_CLIENTS ∧ 0 ≤ sse_count (s_sse s) ≤ MAX_SSE_CLIENTS →
  fd ∈ subs (s_sse s) → fd ∉ n_open (s_net s) →
  run (set_listen_fd l;; a ← reads (λ s, Ok (admin_fd (s_ctl s)));
       (if 0 <=? a then on_net (close a) else mret tt);; set_admin_fd (-1);;
       (if (b : bool) then notify_event else mret tt);; close_streams;;
       atomic (modify (λ s, with_pool None (s_workers s) s))) s = Fault BadFd.
Proof.
  intros Ht Hin Hn. do 2 (erewrite run_bind_ok by reflexivity). cbn [s_ctl with_ctl admin_fd].
  set (a := admin_fd (s_ctl s)). destruct (Z.leb_spec 0 a).
  - destruct (decide (a ∈ n_open (s_net s))) as [Ho|Ho]; [|by apply run_faults, run_closed].
    erewrite run_bind_ok by (unfold on_net; rewrite run_atomic; unfold net_call; by rewrite close_ok).
    erewrite run_bind_ok by reflexivity. destruct b; (erewrite run_bind_ok by reflexivity);
      apply run_faults; (eapply streams_fault; [exact Ht|exact Hin|cbn; set_solver]).
  - do 2 (erewrite run_bind_ok by reflexivity). destruct b; (erewrite run_bind_ok by reflexivity);
      apply run_faults; by eapply streams_fault.
Qed.

(** C40: After an interrupt and with all work done, closing the event streams leaves no
    descriptor, no connection argument and no active connection behind.  But main first
    closes the listeners a second time: either that fails, or the number has been given
    to a subscriber since, whose connection is closed under the broadcaster and then
    once more. *)
Theorem shutdown_closes_twice pool n lfd afd s ts b :
  gauges_ok pool → 0 ≤ lfd → 0 ≤ afd → lfd ≠ afd →
  rtc step (init_server pool n lfd afd, []) (s, ts) →
  s_signal s = Delivered → Forall (λ t, t = Ret tt) ts → s_queue s = [] →
  (∃ s', run close_streams s = Ok (tt, s') ∧ n_open (s_net s') = ∅ ∧ s_conns s' = ∅ ∧ active s' = 0) ∧
  (0 ≤ listen_fd (s_ctl s) → run (main_shutdown b) s = Fault BadFd).
Proof.
  intros Hg Hl Ha Hne Hr Hoff Hd Hq. destruct (server_inv_reachable _ n _ _ _ Hg Hl Ha Hne Hr) as (hs & Hall & O).
  cbn in Hall, O. rewrite (all_finished _ _ Hall Hd) in O. pose proof (owns_sse _ _ O) as T.
  destruct O as (q & [H1 H2 H3 H4 H5 H6 H7 H8 H9]). rewrite Hq in H1. apply fmap_nil_inv in H1 as ->.
  unfold listeners in H3. rewrite Hoff in H3. cbn in H2, H3, H5. split.
  - unfold close_streams. rewrite run_atomic. unfold mbind, M_bind, get, net_call. rewrite (close_all_ok _ _ T).
    eexists. split; [reflexivity|]. cbn. split_and!; [rewrite H3; set_solver| |done].
    apply map_to_list_empty_iff. by apply Permutation_nil_r.
  - intros Hlfd. unfold main_shutdown. erewrite run_bind_ok by reflexivity.
    rewrite (proj2 (Z.leb_le 0 _) Hlfd). destruct (decide (listen_fd (s_ctl s) ∈ n_open (s_net s))) as [Ho|Ho].
    2:{ by apply run_faults, run_closed. }
    erewrite run_bind_ok by (unfold on_net; rewrite run_atomic; unfold net_call; by rewrite close_ok).
    rewrite H3, elem_of_list_to_set in Ho. apply (shutdown_streams b (-1) _ (listen_fd (s_ctl s))); [exact H7|exact Ho|].
    cbn. set_solver.
Qed.


(** ** Examples *)

Definition fresh_server : server :=
  mk_server (mk_net ∅ ∅ []) sse_init (fst (log_ring_init 0)) [] 0 0 0 None 0 ∅ [] (mk_ctl true (-1) (-1)) Undelivered.
Definition example_start : start_env :=
  mk_start 0 8 (mk_listener (Some 3) true true true) (mk_listener (Some 4) true false true) None true true.

(** The port of the admin listener is in use: main gives the first socket back. *)
Lemma main_start_outcome_witness :
  ∃ r s', run (main_start ["--mode"; "naive"] example_start) fresh_server = Ok (r, s') ∧ r = inl 1 ∧
    started example_start fresh_server r s'.
Proof.
  destruct (main_start_outcome ["--mode"; "naive"] example_start fresh_server eq_refl) as (r & s' & E & H).
  - intros fd [= <-]. split; [lia|]. simpl. set_solver.
  - intros fd [= <-]. split; [lia|]. simpl. set_solver.
  - exists r, s'. split; [exact E|]. split; [|exact H].
    assert (Hr : (fst <$> run (main_start ["--mode"; "naive"] example_start) fresh_server) = Ok (inl 1))
      by (vm_compute; reflexivity).
    rewrite E in Hr. injection Hr as Hr. exact Hr.
Defined.

(** An interrupt before the first connection. *)
Lemma shutdown_closes_twice_witness :
  ∃ s, on_sigint (init_server None 4 3 4) = Ok (tt, s) ∧ run (main_shutdown true) s = Fault BadFd.
Proof.
  destruct (on_sigint (init_server None 4 3 4)) as [[[] s]| |] eqn:E; [|discriminate E|discriminate E].
  exists s. split; [reflexivity|].
  assert (Hs : s_queue s = [] ∧ s_ctl s = mk_ctl false 3 4).
  { assert (H : ((λ p, (s_queue (snd p), s_ctl (snd p))) <$> on_sigint (init_server None 4 3 4)) = Ok ([], mk_ctl false 3 4))
      by (vm_compute; reflexivity). rewrite E in H. injection H as H1 H2. by split. }
  destruct Hs as [Hq Hc].
  destruct (sigint_steps (init_server None 4 3 4) s [] eq_refl E) as [Hr Hsig].
  apply (shutdown_closes_twice None 4 3 4 s [] true (ex_intro _ 0 (ex_intro _ 0 (conj eq_refl eq_refl)))
    ltac:(lia) ltac:(lia) ltac:(lia) Hr Hsig (Forall_nil_2 _) Hq). rewrite Hc. simpl. lia.
Defined.

End HttpMain.
