(* ===== verification/HttpConsole.v ===== *)
(** * HttpConsole: the terminal of the demo server
      (src/demo/http_server.c: enable_cbreak, restore_termios, log_request,
      key_listener, and what main does with the terminal and the monitor)

    A program of the machine of Pthread.v around the one of Monitor.v: main, the
    workers that log requests, the signal SIGINT, the key listener and the monitor
    threads share [log_mtx], the flag [running] and the terminal.  The monitor functions
    run as Monitor.v defines them, on their part of the state ([embed]).  Of the rest of the
    server only what bears on the terminal is here: connections that wait for a worker are
    a number, and main goes on to thread_pool_destroy, of which monitor_stop is left,
    without waiting for the workers, which leaves more interleavings than there are.  What
    ncurses does to the mode of the terminal in between is not modelled. *)
From S2P Require Export Monitor.
From Stdlib Require Import Ascii.
Local Open Scope Z_scope.

Module HttpConsole.

(** ** Data *)

(** [struct termios], as far as the server changes it. *)
Record termios := mk_termios {
  ICANON : bool;
  ECHO : bool;
  VMIN : Z;
  VTIME : Z;
  rest : Z
}.

(** What appears on the terminal; [Diagnostic] is a line on stderr: perror of main, or
    the message of task_create when memory is short (src/task.c). *)
Inductive line := Hint | Reattaching | Request | Diagnostic.

Record console := mk_console {
  mon : Monitor.state;
  running : bool;                  (* volatile sig_atomic_t *)
  tty : termios;                   (* the mode of the terminal *)
  orig_termios : termios;
  termios_saved : bool;
  key_valid : bool;
  key_tid : nat;
  requests : nat;                  (* submitted connections that no worker has taken *)
  stdout : list line               (* and stderr: both are the terminal *)
}.

Definition with_mon (m : Monitor.state) (s : console) : console :=
  mk_console m (running s) (tty s) (orig_termios s) (termios_saved s) (key_valid s) (key_tid s) (requests s) (stdout s).
Definition stop_running (s : console) : console :=
  mk_console (mon s) false (tty s) (orig_termios s) (termios_saved s) (key_valid s) (key_tid s) (requests s) (stdout s).
Definition with_tty (t o : termios) (b : bool) (s : console) : console :=
  mk_console (mon s) (running s) t o b (key_valid s) (key_tid s) (requests s) (stdout s).
Definition with_key (b : bool) (n : nat) (s : console) : console :=
  mk_console (mon s) (running s) (tty s) (orig_termios s) (termios_saved s) b n (requests s) (stdout s).
Definition with_requests (n : nat) (s : console) : console :=
  mk_console (mon s) (running s) (tty s) (orig_termios s) (termios_saved s) (key_valid s) (key_tid s) n (stdout s).
Definition puts (l : line) (s : console) : console :=
  mk_console (mon s) (running s) (tty s) (orig_termios s) (termios_saved s) (key_valid s) (key_tid s) (requests s)
    (stdout s ++ [l]).

Definition attached (s : console) : bool := Monitor.running (Monitor.m (mon s)).

(** tcgetattr reports the mode of the terminal, or fails; tcsetattr on a terminal that
    could be read succeeds. *)
Definition enable_cbreak (isatty tcgetattr : bool) (s : console) : console :=
  if negb isatty then s else
  if negb tcgetattr then s else
  with_tty (mk_termios false false 1 0 (rest (tty s))) (tty s) true s.

Definition restore_termios (s : console) : console :=
  if termios_saved s then with_tty (orig_termios s) (orig_termios s) (termios_saved s) s else s.

(** ** Control points *)

(** Who calls a monitor function. *)
Inductive caller := MainStart | MainDetach | MainStop | KeyReattach.

Inductive pc :=
(* main *)
| M_tty                       (* 831-833 *)
| M_create                    (* 835 *)
| M_admin                     (* 840: pthread_create of the admin listener *)
| M_admin_err | M_admin_stop  (* 843: perror; 844-846 *)
| M_bcast | M_bcast_err       (* 849: pthread_create of the broadcaster; 852: perror *)
| M_accept                    (* 854-898: accept and submit *)
| M_joins | M_join            (* 912-913 *)
| M_attached                  (* 922 *)
| M_restore                   (* 927 *)
| M_done
(* log_request, in the workers; 315-321 *)
| L_idle | L_lock | L_check | L_print | L_unlock
(* the signal handler, at any time *)
| Sig
(* key_listener; [was]: was_attached *)
| K_loop (was : bool)         (* 621 *)
| K_attached (was : bool)     (* 622 *)
| K_hint_lock | K_hint | K_hint_unlock       (* 631-635 *)
| K_poll | K_read             (* 640, 644 *)
| K_m_lock | K_m_check | K_m_print | K_m_unlock   (* 648-654 *)
| K_q_store | K_q_kill        (* 659-660 *)
| K_exit
(* a monitor function called, and running *)
| Calls (who : caller)
| In (who : caller) (p : Monitor.pc)
(* a monitor thread *)
| T (p : Monitor.pc).

Inductive mutex := log_mtx.
#[export] Instance mutex_eq_dec : EqDecision mutex.
Proof. solve_decision. Defined.

Inductive choice :=
| Tau
| Terminal (monitor isatty tcgetattr : bool)
| Connection
| Failure                      (* a thread that is not created, memory that is short *)
| Closed
| Wakeup
| Key (ch : ascii)
| NoKey.

Abbreviation caction := (action console pc mutex Empty_set choice).
Abbreviation cconfig := (config console pc mutex Empty_set).

Definition atom (f : console → console * pc) : caction :=
  AStep (λ _ s, let '(s', p) := f s in Next s' p).
Definition branch (b : console → bool) (yes no : pc) : caction := atom (λ s, (s, if b s then yes else no)).

(** ** Calling the monitor *)

Definition call_of (who : caller) : Monitor.call :=
  match who with
  | MainStart => Monitor.Start
  | MainDetach => Monitor.Detach
  | MainStop => Monitor.Stop
  | KeyReattach => Monitor.Reattach
  end.

Definition ret (who : caller) : pc :=
  match who with
  | MainStart => M_create
  | MainDetach => Calls MainStop
  | MainStop => M_restore
  | KeyReattach => K_m_unlock
  end.

(** Where the caller goes on when the function has come to [p]. *)
Definition up (who : caller) (p : Monitor.pc) : pc :=
  match p with Monitor.K_idle _ => ret who | _ => In who p end.

Definition choice_of (z : choice) : Monitor.choice :=
  match z with Key ch => Monitor.Key ch | NoKey => Monitor.NoKey | _ => Monitor.Tau end.

Definition embed_step (f : Monitor.choice → Monitor.state → outcome Monitor.state Monitor.pc)
    (tr : choice → Monitor.choice) (go : Monitor.pc → pc) : caction :=
  AStep (λ z s, match f (tr z) (mon s) with
                | Next m p => Next (with_mon m s) (go p)
                | Stuck => Stuck
                | Crash e => Crash e
                end).

Definition embed (a : Monitor.maction) (go : Monitor.pc → pc) : caction :=
  match a with
  | AStep f => embed_step f choice_of go
  | AJoin t p => AJoin (λ s, t (mon s)) (go p)
  | ASpawn entry created failed =>
      ASpawn (T entry)
        (λ n s, let '(m, p) := created n (mon s) in (with_mon m s, go p))
        (λ s, let '(m, p) := failed (mon s) in (with_mon m s, go p))
  | AExit => AExit
  | ALock m _ | AUnlock m _ => match m with end
  | AWait c _ _ | ASignal c _ | ABroadcast c _ => match c with end
  end.

(** ** The threads *)

(** With a terminal: cbreak mode, the monitor and the key listener. *)
Definition start_console (p : pc) : caction :=
  match p with
  | M_tty => AStep (λ z s,
      match z with
      | Terminal monitor isatty tcgetattr =>
          if monitor && isatty then Next (enable_cbreak isatty tcgetattr s) (Calls MainStart) else Next s M_admin
      | _ => Stuck
      end)
  | M_create => ASpawn (K_loop true) (λ n s, (with_key true n s, M_admin)) (λ s, (s, M_admin))
  | _ => AExit
  end.

(** The admin listener and the broadcaster, which do not use the terminal; when one
    cannot be created main says so on stderr, whoever has the terminal. *)
Definition start_threads (p : pc) : caction :=
  match p with
  | M_admin => AStep (λ z s, Next s match z with Failure => M_admin_err | _ => M_bcast end)
  | M_admin_err => atom (λ s, (puts Diagnostic s, M_admin_stop))
  | M_admin_stop => atom (λ s, (stop_running s, M_bcast))
  | M_bcast => AStep (λ z s, Next s match z with Failure => M_bcast_err | _ => M_accept end)
  | M_bcast_err => atom (λ s, (puts Diagnostic s, M_accept))
  | _ => AExit
  end.

(** The loop of main: a connection submitted, one for which task_create has no memory, an
    accept that is interrupted or fails, or one on a closed listener. *)
Definition accept_loop (p : pc) : caction :=
  match p with
  | M_accept => AStep (λ z s,
      if running s then
        match z with
        | Connection => Next (with_requests (S (requests s)) s) M_accept
        | Failure => Next (puts Diagnostic s) M_accept
        | Closed => Next s M_joins
        | Wakeup => Next s M_accept
        | _ => Stuck
        end
      else Next s M_joins)
  | _ => AExit
  end.

(** The key listener is joined, the monitor detached and, in thread_pool_destroy,
    stopped, and the mode of the terminal restored. *)
Definition stop_console (p : pc) : caction :=
  match p with
  | M_joins => branch key_valid M_join M_attached
  | M_join => AJoin key_tid M_attached
  | M_attached => branch attached (Calls MainDetach) (Calls MainStop)
  | M_restore => atom (λ s, (restore_termios s, M_done))
  | _ => AExit
  end.

Definition main (p : pc) : caction :=
  match p with
  | M_tty | M_create => start_console p
  | M_admin | M_admin_err | M_admin_stop | M_bcast | M_bcast_err => start_threads p
  | M_accept => accept_loop p
  | _ => stop_console p
  end.

Definition log_request (p : pc) : caction :=
  match p with
  | L_idle => AStep (λ _ s,
      match requests s with O => Stuck | S n => Next (with_requests n s) L_lock end)
  | L_lock => ALock log_mtx L_check
  | L_check => branch attached L_unlock L_print
  | L_print => atom (λ s, (puts Request s, L_unlock))
  | L_unlock => AUnlock log_mtx L_idle
  | _ => AExit
  end.

(** What a key does; lines 647-661. *)
Definition key_action (ch : ascii) : pc :=
  if decide (ch = "m"%char ∨ ch = "M"%char) then K_m_lock
  else if decide (ch = "q"%char ∨ ch = "Q"%char) then K_q_store
  else K_loop false.

Definition key_listener (p : pc) : caction :=
  match p with
  | K_loop was => branch running (K_attached was) K_exit
  | K_attached was => branch attached (K_loop true) (if was then K_hint_lock else K_poll)
  | K_hint_lock => ALock log_mtx K_hint
  | K_hint => atom (λ s, (puts Hint s, K_hint_unlock))
  | K_hint_unlock => AUnlock log_mtx K_poll
  | K_poll => AStep (λ z s,
      match z with Wakeup => Next s K_read | NoKey => Next s (K_loop false) | _ => Stuck end)
  | K_read => AStep (λ z s,
      match z with Key ch => Next s (key_action ch) | NoKey => Next s (K_loop false) | _ => Stuck end)
  | K_m_lock => ALock log_mtx K_m_check
  | K_m_check => branch attached K_m_unlock K_m_print
  | K_m_print => atom (λ s, (puts Reattaching s, Calls KeyReattach))
  | K_m_unlock => AUnlock log_mtx (K_loop false)
  | K_q_store => atom (λ s, (stop_running s, K_q_kill))
  | K_q_kill => atom (λ s, (stop_running s, K_loop false))
  | _ => AExit
  end.

Definition code (p : pc) : caction :=
  match p with
  | M_tty | M_create | M_admin | M_admin_err | M_admin_stop | M_bcast | M_bcast_err | M_accept | M_joins | M_join | M_attached | M_restore | M_done => main p
  | L_idle | L_lock | L_check | L_print | L_unlock => log_request p
  | Sig => atom (λ s, (stop_running s, Sig))
  | K_loop _ | K_attached _ | K_hint_lock | K_hint | K_hint_unlock | K_poll | K_read | K_m_lock
  | K_m_check | K_m_print | K_m_unlock | K_q_store | K_q_kill | K_exit => key_listener p
  | Calls who =>
      match Monitor.client true (Monitor.K_idle Monitor.ANone) with
      | AStep f => embed_step f (λ _, Monitor.Call (call_of who)) (up who)
      | _ => AExit
      end
  | In who p => embed (Monitor.code true p) (up who)
  | T p => embed (Monitor.code true p) T
  end.

Definition holds (p : pc) (m : mutex) : bool :=
  match p with
  | L_check | L_print | L_unlock | K_hint | K_hint_unlock | K_m_check | K_m_print | K_m_unlock
  | Calls KeyReattach => true
  | In KeyReattach q => Monitor.is_client q
  | _ => false
  end.

(** main, [w] workers, and the signal. *)
Definition init_console (t : termios) : console := mk_console Monitor.init_state true t t false false 0 0 [].
Definition init_config (t : termios) (w : nat) : cconfig :=
  mk_config (init_console t) (λ _, None) (Running M_tty :: replicate w (Running L_idle) ++ [Running Sig]).

End HttpConsole.
