(* ===== verification/HttpConsoleMoves.v ===== *)
(** * HttpConsoleMoves: the steps of the console, and who is who

    Every step is one of the server's own code, listed in [own], or one of Monitor.v
    under a caller or a monitor thread ([kind_of_move]).  [roles]: thread 0 is main,
    there is at most one key listener, and main has joined it before it detaches the
    monitor. *)
From S2P Require Export HttpConsole.
Local Open Scope Z_scope.

Module HttpConsoleMoves.
Import HttpConsole.

(** ** Moves *)

Inductive role := Main | Logger | Signal | Listener | Drawer.
Definition role_of (p : pc) : role :=
  match p with
  | L_idle | L_lock | L_check | L_print | L_unlock => Logger
  | Sig => Signal
  | K_loop _ | K_attached _ | K_hint_lock | K_hint | K_hint_unlock | K_poll | K_read | K_m_lock
  | K_m_check | K_m_print | K_m_unlock | K_q_store | K_q_kill | K_exit => Listener
  | Calls who | In who _ => match who with KeyReattach => Listener | _ => Main end
  | T _ => Drawer
  | _ => Main
  end.

(** main has come to the accept loop; main has joined the key listener. *)
Definition created (p : pc) : bool :=
  match p with M_tty | Calls MainStart | In MainStart _ | M_create => false | _ => true end.
Definition joined (p : pc) : bool :=
  match p with
  | M_attached | Calls (MainDetach | MainStop) | In (MainDetach | MainStop) _ | M_restore | M_done => true
  | _ => false
  end.

(** Control points that rely on the monitor being detached. *)
Definition detached (p : pc) : bool :=
  match p with
  | L_print | K_hint_lock | K_hint | K_hint_unlock | K_poll | K_read | K_m_lock | K_m_check | K_m_print
  | Calls KeyReattach => true
  | _ => false
  end.

(** What concerns the monitor. *)
Definition inside (p : pc) : bool := match p with Calls _ | In _ _ | T _ => true | _ => false end.

Abbreviation mmove := (move (Monitor.code true)).
Abbreviation cmove := (move code).

(** The steps of the console's own code, case by case. *)
Inductive own (s : console) : pc → console → pc → Prop :=
| own_tty : own s M_tty s M_admin
| own_cbreak a t : own s M_tty (enable_cbreak a t s) (Calls MainStart)
| own_created n : own s M_create (with_key true n s) M_admin
| own_not_created : own s M_create s M_admin
| own_admin : own s M_admin s M_bcast
| own_no_admin : own s M_admin s M_admin_err
| own_admin_err : own s M_admin_err (puts Diagnostic s) M_admin_stop
| own_admin_stop : own s M_admin_stop (stop_running s) M_bcast
| own_bcast : own s M_bcast s M_accept
| own_no_bcast : own s M_bcast s M_bcast_err
| own_bcast_err : own s M_bcast_err (puts Diagnostic s) M_accept
| own_no_memory : running s = true → own s M_accept (puts Diagnostic s) M_accept
| own_connection : running s = true → own s M_accept (with_requests (S (requests s)) s) M_accept
| own_wakeup : running s = true → own s M_accept s M_accept
| own_over : own s M_accept s M_joins
| own_key_valid : key_valid s = true → own s M_joins s M_join
| own_key_invalid : key_valid s = false → own s M_joins s M_attached
| own_joined : own s M_join s M_attached
| own_detach : attached s = true → own s M_attached s (Calls MainDetach)
| own_stop : attached s = false → own s M_attached s (Calls MainStop)
| own_restore : own s M_restore (restore_termios s) M_done
| own_request n : requests s = S n → own s L_idle (with_requests n s) L_lock
| own_log_lock : own s L_lock s L_check
| own_log_skip : attached s = true → own s L_check s L_unlock
| own_log_go : attached s = false → own s L_check s L_print
| own_log_print : own s L_print (puts Request s) L_unlock
| own_log_unlock : own s L_unlock s L_idle
| own_signal : own s Sig (stop_running s) Sig
| own_loop was : running s = true → own s (K_loop was) s (K_attached was)
| own_leave was : running s = false → own s (K_loop was) s K_exit
| own_sleep was : attached s = true → own s (K_attached was) s (K_loop true)
| own_enter : attached s = false → own s (K_attached true) s K_hint_lock
| own_go_on : attached s = false → own s (K_attached false) s K_poll
| own_hint_lock : own s K_hint_lock s K_hint
| own_hint : own s K_hint (puts Hint s) K_hint_unlock
| own_hint_unlock : own s K_hint_unlock s K_poll
| own_poll : own s K_poll s K_read
| own_no_poll : own s K_poll s (K_loop false)
| own_no_read : own s K_read s (K_loop false)
| own_key_m : own s K_read s K_m_lock
| own_key_q : own s K_read s K_q_store
| own_m_lock : own s K_m_lock s K_m_check
| own_m_attached : attached s = true → own s K_m_check s K_m_unlock
| own_m_detached : attached s = false → own s K_m_check s K_m_print
| own_m_print : own s K_m_print (puts Reattaching s) (Calls KeyReattach)
| own_m_unlock : own s K_m_unlock s (K_loop false)
| own_q_store : own s K_q_store (stop_running s) K_q_kill
| own_q_kill : own s K_q_kill (stop_running s) (K_loop false).

Lemma own_move ps p s s' p' sp :
  cmove ps p s s' p' sp → inside p = false →
  own s p s' p' ∧
  ((sp = [] ∧ (p = M_create → s' = s)) ∨
   (p = M_create ∧ sp = [K_loop true] ∧ s' = with_key true (length ps) s)).
Proof.
  intros H Hp. destruct H as [q Hg|t q p2 Hcd Hq Hx|e cr fl s1 p1 Hcd Hn|e cr fl s1 p1 Hcd Hn|f z s1 p1 Hcd Hf];
    destruct p; try discriminate Hp; try done; try discriminate Hcd.
  all: try (simpl in Hg; subst; (split; [constructor|by left])).
  all: try (injection Hcd as <- <- <-; injection Hn as <- <-; (split; [constructor|by auto])).
  all: try (injection Hcd as <- <-; (split; [constructor|by left])).
  all: injection Hcd as <-; try (destruct z; try discriminate Hf);
    repeat match type of Hf with
           | context [if ?b then _ else _] => destruct b eqn:?
           | context [match ?n with O => _ | S _ => _ end] => destruct n eqn:?
           end; try discriminate Hf; injection Hf as <- <-; try (unfold key_action; repeat case_decide);
    (split; [by constructor|by left]).
Qed.

Lemma own_quiet s p s' p' : own s p s' p' →
  mon s' = mon s ∧ (∀ who q, p' ≠ In who q) ∧ (∀ q, p' ≠ T q) ∧ role_of p' = role_of p.
Proof. destruct 1; try (split_and!; done). all: unfold enable_cbreak, restore_termios; split_and!; try done; by repeat case_match. Qed.

Lemma join_move ps s s' p' sp :
  cmove ps M_join s s' p' sp → ∃ q, ps !! key_tid s = Some q ∧ code q = AExit.
Proof.
  intros H. inversion H as [q Hg|t q p2 Hcd Hq Hx|e cr fl s1 p1 Hcd Hn|e cr fl s1 p1 Hcd Hn|f z s1 p1 Hcd Hf];
    subst; try done; try discriminate Hcd. injection Hcd as <- <-. eauto.
Qed.

(** ** The monitor inside the console *)

(** The threads as Monitor.v sees them: thread 0 makes the calls, whoever makes them
    here; the threads that draw keep their place; the others are of no interest. *)
Definition abs (p : pc) : Monitor.pc := match p with T q => q | _ => Monitor.MT_exit end.
Definition abs_pcs (k : Monitor.pc) (ps : list pc) : list Monitor.pc := <[0%nat := k]> (abs <$> ps).

Lemma exit_abs p : code p = AExit → abs p = Monitor.MT_exit.
Proof. destruct p; try done. intros H. destruct p; try discriminate H; done. Qed.

Lemma abs_pcs_moved k ps i p' sp :
  (0 < length ps)%nat →
  abs_pcs k (<[i := p']> ps ++ sp) = <[0%nat := k]> (<[i := abs p']> (abs <$> ps)) ++ (abs <$> sp).
Proof.
  intros Hl. unfold abs_pcs. rewrite fmap_app, list_fmap_insert. apply insert_app_l. by rewrite length_insert, length_fmap.
Qed.

(** The function that a control point of a caller belongs to. *)
Definition family (q : Monitor.pc) : option Monitor.call :=
  match q with
  | Monitor.St_load | Monitor.St_store | Monitor.St_create | Monitor.St_fail | Monitor.St_valid => Some Monitor.Start
  | Monitor.Sp_load | Monitor.Sp_store | Monitor.Sp_check | Monitor.Sp_join | Monitor.Sp_clear => Some Monitor.Stop
  | Monitor.Dt_load | Monitor.Dt_store | Monitor.Dt_join | Monitor.Dt_clear => Some Monitor.Detach
  | Monitor.Ra_load | Monitor.Ra_init | Monitor.Ra_check | Monitor.Ra_join | Monitor.Ra_clear | Monitor.Ra_store
  | Monitor.Ra_create | Monitor.Ra_fail | Monitor.Ra_valid => Some Monitor.Reattach
  | Monitor.At_load => Some Monitor.Attached
  | _ => None
  end.

(** A step of a monitor function or a monitor thread is one of Monitor.v, provided that
    a thread that is joined is not the caller. *)
Definition embedded (ps : list pc) (s s' : console) (k q q' : Monitor.pc) (sp : list pc) : Prop :=
  ∃ msp, sp = T <$> msp ∧ (msp = [] ∨ msp = [Monitor.MT_start]) ∧ s' = with_mon (mon s') s ∧
    ((∀ t r, Monitor.code true q = AJoin t r → (0 < t (mon s))%nat) →
     mmove (abs_pcs k ps) q (mon s) (mon s') q' msp).

Lemma embed_move ps p go q s s' p' sp k :
  cmove ps p s s' p' sp → code p = embed (Monitor.code true q) go →
  ∃ q', p' = go q' ∧ embedded ps s s' k q q' sp.
Proof.
  intros H Hc. unfold embedded.
  inversion H as [p1 Hg|t r p1 Hcd Hr Hx|e cr fl s1 p1 Hcd Hn|e cr fl s1 p1 Hcd Hn|f z s1 p1 Hcd Hf]; subst;
    rewrite Hc in *; destruct (Monitor.code true q) as [m q1|m q1|c0 m q1|c0 q1|c0 q1|t0 q1|e0 cr0 fl0|f0|] eqn:E;
    try destruct m; try destruct c0; try done; try discriminate Hcd; simpl in *.
  - injection Hcd as <- <-. exists q1. split; [done|]. exists []. split_and!; try done; [by left|by destruct s'|].
    intros Hj. apply (mv_join _ _ _ _ t0 Monitor.MT_exit); [done| |done]. unfold abs_pcs. specialize (Hj _ _ eq_refl).
    rewrite list_lookup_insert_ne by lia. by rewrite list_lookup_fmap, Hr, <- (exit_abs _ Hx).
  - injection Hcd as <- <- <-. destruct (cr0 (length ps) (mon s)) as [m1 q1] eqn:Ecr. injection Hn as <- <-.
    exists q1. split; [done|]. exists [e0].
    assert (e0 = Monitor.MT_start) as -> by (destruct q; try discriminate E; by injection E).
    split_and!; try done; [by right|]. intros _. eapply mv_spawn; [exact E|].
    unfold abs_pcs. by rewrite length_insert, length_fmap.
  - injection Hcd as <- <- <-. destruct (fl0 (mon s)) as [m1 q1] eqn:Ecr. injection Hn as <- <-.
    exists q1. split; [done|]. exists []. split_and!; try done; [by left|]. intros _. by eapply mv_spawn_fail.
  - injection Hcd as <-. destruct (f0 (choice_of z) (mon s)) as [m1 q1| |] eqn:Ef; try discriminate Hf. injection Hf as <- <-.
    exists q1. split; [done|]. exists []. split_and!; try done; [by left|]. intros _. by eapply mv_atom.
Qed.

Lemma call_move ps who s s' p' sp k :
  cmove ps (Calls who) s s' p' sp →
  ∃ q', p' = up who q' ∧ family q' = Some (call_of who) ∧ embedded ps s s' k (Monitor.K_idle Monitor.ANone) q' sp.
Proof.
  intros H. inversion H as [p1 Hg|t r p1 Hcd Hr Hx|e cr fl s1 p1 Hcd Hn|e cr fl s1 p1 Hcd Hn|f z s1 p1 Hcd Hf]; subst;
    try done; try discriminate Hcd.
  simpl in Hcd. injection Hcd as <-.
  match type of Hf with match ?x with _ => _ end = _ => destruct x as [m1 q1| |] eqn:Ef; try discriminate Hf end.
  injection Hf as <- <-. exists q1. split; [done|].
  split; [destruct who; simpl in Ef; try (destruct (Monitor.g_started _); [discriminate Ef|]); by injection Ef as _ <-|].
  exists []. split_and!; try done; [by left|]. intros _.
  eapply (mv_atom (Monitor.code true) _ (Monitor.K_idle Monitor.ANone) _ _ (Monitor.Call (call_of who))); [reflexivity|exact Ef].
Qed.

(** What a step of the console is. *)
Inductive kind_of_move (ps : list pc) (s s' : console) (k : Monitor.pc) : pc → pc → list pc → Prop :=
| by_console p p' sp :
    inside p = false → own s p s' p' →
    (sp = [] ∧ (p = M_create → s' = s)) ∨ (p = M_create ∧ sp = [K_loop true] ∧ s' = with_key true (length ps) s) →
    (p = M_join → ∃ q, ps !! key_tid s = Some q ∧ code q = AExit) →
    kind_of_move ps s s' k p p' sp
| by_call who q' sp :
    family q' = Some (call_of who) → embedded ps s s' k (Monitor.K_idle Monitor.ANone) q' sp → kind_of_move ps s s' k (Calls who) (up who q') sp
| by_function who q q' sp :
    embedded ps s s' k q q' sp → kind_of_move ps s s' k (In who q) (up who q') sp
| by_drawer q q' sp :
    embedded ps s s' k q q' sp → kind_of_move ps s s' k (T q) (T q') sp.

Lemma console_move ps p s s' p' sp k : cmove ps p s s' p' sp → kind_of_move ps s s' k p p' sp.
Proof.
  intros H. destruct (inside p) eqn:Hp.
  - destruct p; try discriminate Hp.
    + destruct (call_move _ _ _ _ _ _ k H) as (q' & -> & Hf & E). by constructor.
    + destruct (embed_move _ _ _ _ _ _ _ _ k H eq_refl) as (q' & -> & E). by constructor.
    + destruct (embed_move _ _ _ _ _ _ _ _ k H eq_refl) as (q' & -> & E). by constructor.
  - destruct (own_move _ _ _ _ _ _ H Hp) as [Ho Hsp]. apply by_console; try done. intros ->. by eapply join_move.
Qed.

(** ** Who is who *)

Record roles (s : console) (ps : list pc) (pm : pc) : Prop := {
  r_main : ps !! 0%nat = Some pm ∧ role_of pm = Main;
  r_only i p : ps !! i = Some p → role_of p = Main → i = 0%nat;
  r_key i p : ps !! i = Some p → role_of p = Listener → i = key_tid s ∧ key_valid s = true ∧ created pm = true;
  r_left i p : ps !! i = Some p → role_of p = Listener → joined pm = true → p = K_exit;
  r_serving i p : ps !! i = Some p → role_of p = Logger → p ≠ L_idle → created pm = true;
  r_requests : requests s ≠ 0%nat → created pm = true
}.

Lemma up_role who q : role_of (up who q) = role_of (Calls who).
Proof. by destruct q, who. Qed.

Lemma up_created who q : role_of (Calls who) = Main → created (Calls who) = true → created (up who q) = true.
Proof. by destruct q, who. Qed.

Lemma up_joined who q : joined (up who q) = joined (Calls who).
Proof. by destruct q, who. Qed.

Lemma step_role ps s s' k p p' sp : kind_of_move ps s s' k p p' sp → role_of p' = role_of p.
Proof.
  intros [p1 p2 sp1 Hp Ho _ _|who q' sp1 _ _|who q q' sp1 _|q q' sp1 _]; [|apply up_role|apply up_role|done].
  by destruct (own_quiet _ _ _ _ Ho) as (_ & _ & _ & ?).
Qed.

Lemma step_spawned ps s s' k p p' sp :
  kind_of_move ps s s' k p p' sp →
  sp = [] ∨ sp = [T Monitor.MT_start] ∨ (sp = [K_loop true] ∧ p = M_create ∧ p' = M_admin ∧ s' = with_key true (length ps) s).
Proof.
  intros [p1 p2 sp1 Hp Ho [[? _]|(-> & ? & ?)] _|who q' sp1 _ E|who q q' sp1 E|q q' sp1 E]; auto.
  - right. right. split_and!; try done. by inversion Ho.
  - destruct E as (msp & -> & [-> | ->] & _); auto.
  - destruct E as (msp & -> & [-> | ->] & _); auto.
  - destruct E as (msp & -> & [-> | ->] & _); auto.
Qed.

(** How main gets on. *)
Lemma move_main ps s s' k p p' sp :
  kind_of_move ps s s' k p p' sp → role_of p = Main →
  (created p = true → created p' = true) ∧
  (joined p' = true → joined p = true ∨ (p = M_joins ∧ key_valid s = false) ∨ p = M_join) ∧
  (joined p = true → joined p' = true).
Proof.
  intros [p1 p2 sp1 Hp Ho _ _|who q' sp1 _ _|who q q' sp1 _|q q' sp1 _] Hr; [| | |done].
  - destruct Ho; try discriminate Hr; try (split; [done|]; auto; done).
  - rewrite up_joined. split; [by apply up_created|auto].
  - rewrite up_joined. split; [by apply up_created|auto].
Qed.

(** What a step leaves of the fields that say who is who. *)
Lemma move_fields ps s s' k p p' sp :
  kind_of_move ps s s' k p p' sp → p ≠ M_create →
  key_tid s' = key_tid s ∧ key_valid s' = key_valid s ∧
  (requests s' ≠ 0%nat → requests s ≠ 0%nat ∨ p = M_accept) ∧
  (role_of p' = Logger → p' ≠ L_idle → p ≠ L_idle ∨ requests s ≠ 0%nat).
Proof.
  assert (Hm : ∀ m, key_tid (with_mon m s) = key_tid s ∧ key_valid (with_mon m s) = key_valid s ∧ requests (with_mon m s) = requests s)
    by done.
  intros [p1 p2 sp1 Hp Ho _ _|who q' sp1 _ E|who q q' sp1 E|q q' sp1 E] Hne.
  - destruct Ho; try done; unfold enable_cbreak, restore_termios; repeat case_match; simpl; split_and!; try done; auto; lia.
  - destruct E as (msp & _ & _ & E & _). rewrite E. split_and!; try done; auto.
  - destruct E as (msp & _ & _ & E & _). rewrite E. split_and!; try done; auto.
  - destruct E as (msp & _ & _ & E & _). rewrite E. split_and!; try done; auto.
Qed.

Lemma move_exit ps s s' k p' sp : ¬ kind_of_move ps s s' k K_exit p' sp.
Proof. intros H. inversion H as [? ? ? _ Ho| | |]. inversion Ho. Qed.

Lemma create_or_not p : p = M_create ∨ p ≠ M_create.
Proof. destruct p; auto. Qed.

Lemma move_create ps s s' k p' sp : kind_of_move ps s s' k M_create p' sp → requests s' = requests s.
Proof. intros H. inversion H as [? ? ? _ Ho| | |]. by inversion Ho. Qed.

Lemma move_join ps s s' k p' sp :
  kind_of_move ps s s' k M_join p' sp → ∃ q, ps !! key_tid s = Some q ∧ code q = AExit.
Proof. intros H. inversion H as [? ? ? _ _ _ Hj| | |]. by apply Hj. Qed.

Lemma exited_listener q :
  role_of q = Listener → (∀ who p, q = In who p → Monitor.is_client p = true) → code q = AExit → q = K_exit.
Proof.
  destruct q; try done. intros _ Hc. specialize (Hc _ _ eq_refl). by destruct p.
Qed.

Lemma step_at (ps : list pc) i p' sp j q :
  (<[i := p']> ps ++ sp) !! j = Some q → (length sp ≤ 1)%nat →
  (j = i ∧ q = p') ∨ (j ≠ i ∧ ps !! j = Some q) ∨ (j = length ps ∧ sp = [q]).
Proof.
  intros H Hl. apply lookup_app_Some in H as [H|[Hge H]].
  - apply list_lookup_insert_Some in H as [(-> & <- & _)|[? H]]; auto.
  - rewrite length_insert in Hge, H. right. right. destruct sp as [|x [|]]; simpl in Hl; [done| |lia].
    apply list_lookup_singleton_Some in H as [H ->]. split; [lia|done].
Qed.

Section Roles.
Context (ps : list pc) (s s' : console) (k : Monitor.pc) (i : nat) (p p' pm : pc) (sp : list pc).
Context (R : roles s ps pm) (Hi : ps !! i = Some p) (H : kind_of_move ps s s' k p p' sp).
Context (Hcalls : ∀ j who q, ps !! j = Some (In who q) → Monitor.is_client q = true).

Lemma spawn_short : (length sp ≤ 1)%nat.
Proof. destruct (step_spawned _ _ _ _ _ _ _ H) as [-> |[-> |(-> & _)]]; simpl; lia. Qed.

Lemma main_moves : i = 0%nat → p = pm.
Proof. intros ->. destruct (r_main _ _ _ R) as [Hm _]. rewrite Hi in Hm. by injection Hm. Qed.

Lemma main_stays : role_of p = Main → i = 0%nat.
Proof. by apply (r_only _ _ _ R). Qed.

(** main after the step. *)
Definition next_main : pc := if decide (i = 0%nat) then p' else pm.

Lemma next_main_at : (<[i := p']> ps ++ sp) !! 0%nat = Some next_main ∧ role_of next_main = Main.
Proof.
  destruct (r_main _ _ _ R) as [Hm Hr]. pose proof (lookup_lt_Some _ _ _ Hm).
  rewrite lookup_app_l by by rewrite length_insert. unfold next_main. case_decide as E.
  - rewrite E. rewrite list_lookup_insert_eq by done. split; [done|].
    rewrite (step_role _ _ _ _ _ _ _ H). by rewrite (main_moves E).
  - by rewrite list_lookup_insert_ne by lia.
Qed.

Lemma next_created : created pm = true → created next_main = true.
Proof.
  unfold next_main. case_decide as E; [|done]. rewrite <- (main_moves E).
  destruct (move_main _ _ _ _ _ _ _ H) as [? _]; [|done]. rewrite (main_moves E). apply (r_main _ _ _ R).
Qed.

Lemma next_joined :
  joined next_main = true → joined pm = true ∨ (p = M_joins ∧ key_valid s = false) ∨ p = M_join.
Proof.
  unfold next_main. case_decide as E; [|by auto]. rewrite <- (main_moves E).
  destruct (move_main _ _ _ _ _ _ _ H) as (_ & ? & _); [|done]. rewrite (main_moves E). apply (r_main _ _ _ R).
Qed.

Lemma still_joined : joined pm = true → joined next_main = true.
Proof.
  unfold next_main. case_decide as E; [|done]. rewrite <- (main_moves E).
  destruct (move_main _ _ _ _ _ _ _ H) as (_ & _ & ?); [|done]. rewrite (main_moves E). apply (r_main _ _ _ R).
Qed.

(** Where a listener of the new state comes from. *)
Lemma listener_from j q :
  (<[i := p']> ps ++ sp) !! j = Some q → role_of q = Listener →
  (∃ q0, ps !! j = Some q0 ∧ role_of q0 = Listener ∧ (j = i → q0 = p ∧ q = p') ∧ (j ≠ i → q0 = q)) ∨
  (j = length ps ∧ p = M_create ∧ q = K_loop true ∧ next_main = M_admin ∧ s' = with_key true (length ps) s).
Proof.
  intros Hj Hq. destruct (step_at _ _ _ _ _ _ Hj spawn_short) as [[-> ->]|[[Hne Hj']|[-> E]]].
  - left. exists p. rewrite (step_role _ _ _ _ _ _ _ H) in Hq. split_and!; try done.
  - left. exists q. done.
  - right. destruct (step_spawned _ _ _ _ _ _ _ H) as [E'|[E'|(E' & Hp & Hp' & Hs)]]; rewrite E in E'; try discriminate E'.
    + injection E' as ->. discriminate Hq.
    + injection E' as ->. split_and!; try done. unfold next_main. rewrite decide_True; [done|]. apply main_stays. by rewrite Hp.
Qed.

Lemma create_no_listener : p = M_create → ∀ j q, ps !! j = Some q → role_of q ≠ Listener.
Proof.
  intros Hp j q Hj Hq. destruct (r_key _ _ _ R j q Hj Hq) as (_ & _ & Hc).
  assert (E : i = 0%nat) by (apply main_stays; by rewrite Hp). by rewrite <- (main_moves E), Hp in Hc.
Qed.

Lemma roles_key j q :
  (<[i := p']> ps ++ sp) !! j = Some q → role_of q = Listener →
  j = key_tid s' ∧ key_valid s' = true ∧ created next_main = true.
Proof.
  intros Hj Hq. destruct (listener_from j q Hj Hq) as [(q0 & Hj0 & Hr0 & _)|(-> & _ & _ & -> & ->)]; [|done].
  destruct (r_key _ _ _ R j q0 Hj0 Hr0) as (-> & Hv & Hc).
  assert (p ≠ M_create) as Hp by (intros E; by apply (create_no_listener E _ _ Hj0)).
  destruct (move_fields _ _ _ _ _ _ _ H Hp) as (-> & -> & _). split_and!; [done|done|by apply next_created].
Qed.

Lemma roles_left j q :
  (<[i := p']> ps ++ sp) !! j = Some q → role_of q = Listener → joined next_main = true → q = K_exit.
Proof.
  intros Hj Hq Hjn. destruct (listener_from j q Hj Hq) as [(q0 & Hj0 & Hr0 & Hsame & Hother)|(_ & _ & _ & E & _)];
    [|by rewrite E in Hjn].
  destruct (r_key _ _ _ R j q0 Hj0 Hr0) as (Hk & Hv & _).
  assert (Hx : q0 = K_exit → q = K_exit).
  { intros ->. destruct (decide (j = i)) as [E|E]; [|by symmetry; apply Hother]. destruct (Hsame E) as [Hp _].
    exfalso. apply (move_exit ps s s' k p' sp). by rewrite Hp. }
  destruct (next_joined Hjn) as [Hjm|[[_ Hkv]|Hp]]; [by apply Hx, (r_left _ _ _ R j)|congruence|].
  apply Hx. pose proof H as Hm. rewrite Hp in Hm. destruct (move_join _ _ _ _ _ _ Hm) as (r & Hr & He).
  rewrite <- Hk, Hj0 in Hr. injection Hr as <-. apply exited_listener; [done| |done]. intros who q1 ->. by eapply Hcalls.
Qed.

Lemma roles_serving j q :
  (<[i := p']> ps ++ sp) !! j = Some q → role_of q = Logger → q ≠ L_idle → created next_main = true.
Proof.
  intros Hj Hq Hne. destruct (step_at _ _ _ _ _ _ Hj spawn_short) as [[-> ->]|[[_ Hj']|[-> E]]].
  - assert (Hr : role_of p = Logger) by by rewrite <- (step_role _ _ _ _ _ _ _ H).
    assert (Hp : p ≠ M_create) by by intros ->.
    destruct (move_fields _ _ _ _ _ _ _ H Hp) as (_ & _ & _ & Hl). apply next_created.
    destruct (Hl Hq Hne); [by eapply (r_serving _ _ _ R i)|by apply (r_requests _ _ _ R)].
  - by apply next_created, (r_serving _ _ _ R j q).
  - destruct (step_spawned _ _ _ _ _ _ _ H) as [E'|[E'|(E' & _)]]; rewrite E in E'; simplify_eq; discriminate Hq.
Qed.

Lemma roles_requests : requests s' ≠ 0%nat → created next_main = true.
Proof.
  intros Hr. destruct (create_or_not p) as [Hp|Hp].
  - assert (E : i = 0%nat) by (apply main_stays; by rewrite Hp). exfalso.
    assert (Hc : created pm = true).
    { apply (r_requests _ _ _ R). pose proof H as Hm. rewrite Hp in Hm. by rewrite <- (move_create _ _ _ _ _ _ Hm). }
    by rewrite <- (main_moves E), Hp in Hc.
  - destruct (move_fields _ _ _ _ _ _ _ H Hp) as (_ & _ & Hq & _). apply next_created.
    destruct (Hq Hr) as [?|Ha]; [by apply (r_requests _ _ _ R)|].
    assert (E : i = 0%nat) by (apply main_stays; by rewrite Ha). by rewrite <- (main_moves E), Ha.
Qed.

Lemma roles_step : roles s' (<[i := p']> ps ++ sp) next_main.
Proof.
  split; [apply next_main_at| |apply roles_key|apply roles_left|apply roles_serving|apply roles_requests].
  intros j q Hj Hq. destruct (step_at _ _ _ _ _ _ Hj spawn_short) as [[-> ->]|[[_ Hj']|[-> E]]].
  - apply main_stays. by rewrite <- (step_role _ _ _ _ _ _ _ H).
  - by apply (r_only _ _ _ R j q).
  - destruct (step_spawned _ _ _ _ _ _ _ H) as [E'|[E'|(E' & _)]]; rewrite E in E'; simplify_eq; discriminate Hq.
Qed.
End Roles.

End HttpConsoleMoves.
