(* ===== verification/HttpConsoleInv.v ===== *)
(** * HttpConsoleInv: what every interleaving of the console preserves

    The invariant of Monitor.v holds for the monitor inside the console: seen from there
    thread 0 makes all calls, because main and the key listener never call at the same
    time.  [console_inv] adds who relies on the detached monitor and who has the screen. *)
From S2P Require Export HttpConsoleMoves.
Local Open Scope Z_scope.

Module HttpConsoleInv.
Import HttpConsole HttpConsoleMoves.

(** ** The monitor's invariant, whoever calls it *)

Definition answered (k : Monitor.pc) : Monitor.pc :=
  match k with Monitor.K_idle _ => Monitor.K_idle Monitor.ANone | _ => k end.

Lemma answered_slot s l k :
  Monitor.slot_inv s (<[0%nat := k]> l) → Monitor.is_client k = true → Monitor.slot_inv s (<[0%nat := answered k]> l).
Proof.
  intros M Hck. destruct k; try done. destruct M as [(k1 & Hk & Hc & C) Hth].
  assert (Hl : (0 < length l)%nat) by (apply lookup_lt_Some in Hk; by rewrite length_insert in Hk).
  rewrite list_lookup_insert_eq in Hk by done. injection Hk as <-. split.
  - exists (Monitor.K_idle Monitor.ANone). split; [by apply list_lookup_insert_eq|]. split; [done|].
    replace (<[0%nat := answered (Monitor.K_idle a)]> l)
      with (<[0%nat := Monitor.K_idle Monitor.ANone]> (<[0%nat := Monitor.K_idle a]> l)) by apply list_insert_insert_eq.
    apply Monitor.client_ok_set. destruct C as [H1 H2 H3 H4 H5 H6 H7 H8 H9 H10]. split; simpl in *; try done.
  - intros i p Hi Hne. rewrite list_lookup_insert_ne in Hi by done. apply (Hth i p); [|done]. by rewrite list_lookup_insert_ne.
Qed.

(** A thread that does not draw is no concern of the monitor. *)
Lemma grown_slot s l : Monitor.slot_inv s l → Monitor.slot_inv s (l ++ [Monitor.MT_exit]).
Proof.
  intros [(k & Hk & Hc & C) Hth]. pose proof (lookup_lt_Some _ _ _ Hk) as Hl.
  assert (Hold : ∀ i p, (l ++ [Monitor.MT_exit]) !! i = Some p → l !! i = Some p ∨ p = Monitor.MT_exit).
  { intros i p Hi. apply lookup_app_Some in Hi as [?|[_ Hi]]; [auto|]. apply list_lookup_singleton_Some in Hi as [_ <-]. auto. }
  split.
  - exists k. split; [by apply lookup_app_l_Some|]. split; [done|].
    destruct C as [H1 H2 H3 H4 H5 H6 H7 H8 H9 H10]. split; rewrite ?length_app; simpl; try done.
    + intros i p Hi Hne Hp. destruct (Hold i p Hi) as [?|?]; [by apply (H1 i p)|done].
    + intros Ha. destruct (H2 Ha). split; [lia|done].
    + intros Ha. by apply lookup_app_l_Some, H6.
    + intros Ha. destruct (H8 Ha) as [Hx ?]. split; [|done]. intros i p Hi Hne. destruct (Hold i p Hi) as [?|?]; [by apply (Hx i)|done].
    + eapply Forall_impl; [exact H10|]. simpl. lia.
  - intros i p Hi Hne. destruct (Hold i p Hi) as [?| ->]; [by apply (Hth i)|done].
Qed.


Definition calling (p : pc) : bool := match p with Calls _ | In _ _ => true | _ => false end.

(** main and the key listener never call the monitor at the same time. *)
Lemma one_caller s ps pm i j p q :
  roles s ps pm → ps !! i = Some p → ps !! j = Some q → calling p = true → calling q = true → i = j.
Proof.
  intros R Hi Hj Hp Hq.
  assert (Hr : ∀ x, calling x = true → role_of x = Main ∨ role_of x = Listener)
    by (intros x; destruct x; try done; destruct who; by auto).
  assert (Hmix : ∀ a b x y, ps !! a = Some x → ps !! b = Some y → calling x = true → calling y = true →
    role_of x = Main → role_of y = Listener → False).
  { intros a b x y Ha Hb Hx Hy Hrx Hry. destruct (r_key _ _ _ R b y Hb Hry) as (_ & _ & Hc).
    pose proof (r_only _ _ _ R a x Ha Hrx) as ->. destruct (r_main _ _ _ R) as [Hm _]. rewrite Ha in Hm. injection Hm as ->.
    assert (y = K_exit) as ->; [|done]. apply (r_left _ _ _ R b y Hb Hry).
    destruct pm; try discriminate Hx; by destruct who. }
  destruct (Hr p Hp) as [Hrp|Hrp], (Hr q Hq) as [Hrq|Hrq].
  - by rewrite (r_only _ _ _ R i p Hi Hrp), (r_only _ _ _ R j q Hj Hrq).
  - by destruct (Hmix i j p q).
  - by destruct (Hmix j i q p).
  - destruct (r_key _ _ _ R i p Hi Hrp) as [-> _]. by destruct (r_key _ _ _ R j q Hj Hrq) as [-> _].
Qed.

Record under (s : console) (ps : list pc) (pm : pc) (k : Monitor.pc) : Prop := {
  u_roles : roles s ps pm;
  u_slot : Monitor.slot_inv (mon s) (abs_pcs k ps);
  u_call : (∃ i who, ps !! i = Some (In who k)) ∨
           ((∀ i who q, ps !! i ≠ Some (In who q)) ∧ k = Monitor.K_idle Monitor.ANone)
}.

Section Under.
Context (s : console) (ps : list pc) (pm : pc) (k : Monitor.pc) (U : under s ps pm k).

Lemma under_length : (0 < length ps)%nat.
Proof. destruct (r_main _ _ _ (u_roles _ _ _ _ U)) as [Hm _]. by apply lookup_lt_Some in Hm. Qed.

Lemma under_client : Monitor.is_client k = true ∧ Monitor.client_ok (mon s) (abs_pcs k ps) k.
Proof.
  destruct (u_slot _ _ _ _ U) as [(k1 & Hk & Hc & C) _]. pose proof under_length. unfold abs_pcs in Hk.
  rewrite list_lookup_insert_eq in Hk by by rewrite length_fmap. injection Hk as <-. done.
Qed.

Lemma under_function i who q : ps !! i = Some (In who q) → q = k.
Proof.
  intros Hi. destruct (u_call _ _ _ _ U) as [(j & who' & Hj)|[Hno _]]; [|by destruct (Hno i who q)].
  pose proof (one_caller _ _ _ _ _ _ _ (u_roles _ _ _ _ U) Hi Hj eq_refl eq_refl) as ->. rewrite Hi in Hj. by injection Hj as -> ->.
Qed.

Lemma under_call i who : ps !! i = Some (Calls who) → k = Monitor.K_idle Monitor.ANone ∧ ∀ j who q, ps !! j ≠ Some (In who q).
Proof.
  intros Hi. destruct (u_call _ _ _ _ U) as [(j & who' & Hj)|[Hno Hk]]; [exfalso|done].
  pose proof (one_caller _ _ _ _ _ _ _ (u_roles _ _ _ _ U) Hi Hj eq_refl eq_refl) as ->. by rewrite Hi in Hj.
Qed.

(** The thread that is joined is not thread 0. *)
Lemma join_target q t r :
  q = k ∨ Monitor.is_client q = false → Monitor.code true q = AJoin t r → (0 < t (mon s))%nat.
Proof.
  intros Hq Hc. destruct under_client as [_ C]. destruct Hq as [->|Hq].
  - assert (Hj : Monitor.joining k = true) by (destruct k; try discriminate Hc; done).
    destruct (Monitor.c_slot _ _ _ C (or_introl (Monitor.c_valid _ _ _ C Hj))) as [Ht _].
    destruct k; try discriminate Hc; injection Hc as <- _; lia.
  - destruct q; try discriminate Hq; discriminate Hc.
Qed.

(** Where the caller goes on. *)
Lemma caller_next i p who q' msp :
  ps !! i = Some p → calling p = true → (∀ j who q, ps !! j = Some (In who q) → j = i) → Monitor.is_client q' = true →
  (∃ j who0, (<[i := up who q']> ps ++ (T <$> msp)) !! j = Some (In who0 (answered q'))) ∨
  ((∀ j who0 q, (<[i := up who q']> ps ++ (T <$> msp)) !! j ≠ Some (In who0 q)) ∧ answered q' = Monitor.K_idle Monitor.ANone).
Proof.
  intros Hi Hp Hone Hc. pose proof (lookup_lt_Some _ _ _ Hi) as Hlt.
  assert (Hat : (<[i := up who q']> ps ++ (T <$> msp)) !! i = Some (up who q')) by by apply lookup_app_l_Some, list_lookup_insert_eq.
  destruct (Monitor.is_client q') eqn:E; [|done].
  destruct q'; try discriminate E; try (left; exists i, who; exact Hat). right. split; [|done].
  intros j who0 q Hj. apply lookup_app_Some in Hj as [Hj|[_ Hj]].
  - apply list_lookup_insert_Some in Hj as [(_ & Hj & _)|[Hne Hj]]; [by destruct who|]. by destruct (Hne (eq_sym (Hone _ _ _ Hj))).
  - rewrite list_lookup_fmap in Hj. by destruct (msp !! _).
Qed.
End Under.


Lemma abs_pcs_same k' (ps : list pc) i p p' sp :
  ps !! i = Some p → abs p' = abs p → abs_pcs k' (<[i := p']> ps ++ sp) = abs_pcs k' ps ++ (abs <$> sp).
Proof.
  intros Hi Ha. rewrite abs_pcs_moved by by (apply lookup_lt_Some in Hi; lia). unfold abs_pcs. do 2 f_equal.
  apply list_insert_id. by rewrite Ha, list_lookup_fmap, Hi.
Qed.

Lemma abs_drawers (msp : list Monitor.pc) : abs <$> (T <$> msp) = msp.
Proof. rewrite <- list_fmap_compose. by apply list_fmap_id. Qed.

Lemma up_abs who q : abs (up who q) = Monitor.MT_exit.
Proof. by destruct q, who. Qed.

(** A function that runs on under its caller, or was just called. *)
Lemma function_step s s' ps pm k i p who q q' sp :
  under s ps pm k → ps !! i = Some p → calling p = true → q = k → embedded ps s s' k q q' sp →
  (∀ j who q, ps !! j = Some (In who q) → j = i) → abs p = Monitor.MT_exit →
  Monitor.slot_inv (mon s') (abs_pcs (answered q') (<[i := up who q']> ps ++ sp)) ∧
  ((∃ j who0, (<[i := up who q']> ps ++ sp) !! j = Some (In who0 (answered q'))) ∨
   ((∀ j who0 q0, (<[i := up who q']> ps ++ sp) !! j ≠ Some (In who0 q0)) ∧ answered q' = Monitor.K_idle Monitor.ANone)).
Proof.
  intros U Hi Hp -> (msp & -> & Hmsp & _ & Hmv) Hone Ha.
  specialize (Hmv (λ t r, join_target _ _ _ _ U k t r (or_introl eq_refl))).
  pose proof (under_length _ _ _ _ U) as Hlen. destruct (under_client _ _ _ _ U) as [Hck _].
  assert (H0 : abs_pcs k ps !! 0%nat = Some k) by (apply list_lookup_insert_eq; by rewrite length_fmap).
  destruct (Monitor.slot_step true _ _ _ _ _ _ _ eq_refl Hmv H0 (u_slot _ _ _ _ U)) as (S' & _).
  assert (Hc' : Monitor.is_client q' = true).
  { destruct S' as [(k1 & Hk1 & Hc1 & _) _].
    rewrite lookup_app_l, list_lookup_insert_eq in Hk1 by (rewrite ?length_insert; unfold abs_pcs; by rewrite length_insert, length_fmap).
    by injection Hk1 as <-. }
  split; [|exact (caller_next _ i p who q' msp Hi Hp Hone Hc')].
  rewrite (abs_pcs_same _ _ _ _ _ _ Hi) by by rewrite up_abs, Ha. rewrite abs_drawers. unfold abs_pcs.
  rewrite <- insert_app_l by by rewrite length_fmap. apply answered_slot; [|done].
  rewrite insert_app_l by by rewrite length_fmap. unfold abs_pcs in S'. by rewrite list_insert_insert_eq in S'.
Qed.

(** Steps of other threads leave the caller alone. *)
Lemma callers_same (ps : list pc) i p p' sp k :
  ps !! i = Some p → (∀ who q, p ≠ In who q) → (∀ who q, p' ≠ In who q) → (∀ who q, In who q ∉ sp) →
  (∃ j who, ps !! j = Some (In who k)) ∨ ((∀ j who q, ps !! j ≠ Some (In who q)) ∧ k = Monitor.K_idle Monitor.ANone) →
  (∃ j who, (<[i := p']> ps ++ sp) !! j = Some (In who k)) ∨
  ((∀ j who q, (<[i := p']> ps ++ sp) !! j ≠ Some (In who q)) ∧ k = Monitor.K_idle Monitor.ANone).
Proof.
  intros Hi Hp Hp' Hsp [(j & who & Hj)|[Hno Hk]].
  - left. exists j, who. apply lookup_app_l_Some. rewrite list_lookup_insert_ne; [done|]. intros ->. rewrite Hi in Hj.
    injection Hj as ->. by destruct (Hp who k).
  - right. split; [|done]. intros j who q Hj. apply lookup_app_Some in Hj as [Hj|[_ Hj]].
    + apply list_lookup_insert_Some in Hj as [(_ & Hj & _)|[_ Hj]]; [by destruct (Hp' who q)|by destruct (Hno j who q)].
    + by apply (Hsp who q), (list_elem_of_lookup_2 _ _ _ Hj).
Qed.

Lemma under_step s s' ps pm k i p p' sp :
  under s ps pm k → ps !! i = Some p → cmove ps p s s' p' sp →
  ∃ k', under s' (<[i := p']> ps ++ sp) (next_main i p' pm) k'.
Proof.
  intros U Hi Hm. pose proof (console_move _ _ _ _ _ _ k Hm) as H.
  assert (R' : roles s' (<[i := p']> ps ++ sp) (next_main i p' pm)).
  { eapply roles_step; [apply U|exact Hi|exact H|]. intros j who q Hj.
    rewrite (under_function _ _ _ _ U _ _ _ Hj). apply (under_client _ _ _ _ U). }
  destruct H as [p p' sp Hp Ho Hsp _|who q' sp _ E|who q q' sp E|q q' sp E].
  - destruct (own_quiet _ _ _ _ Ho) as (Hmon & Hin & HT & _). exists k.
    assert (Ha : abs p = Monitor.MT_exit) by by destruct p. assert (Ha' : abs p' = Monitor.MT_exit) by (destruct p'; try done; by destruct (HT p0)).
    split; [done| |].
    + rewrite (abs_pcs_same _ _ _ _ _ _ Hi) by congruence. rewrite Hmon.
      destruct Hsp as [[-> _]|(_ & -> & _)]; simpl; [rewrite app_nil_r; apply U|apply grown_slot, U].
    + apply (callers_same ps i p); [done|by intros who q ->|done| |apply U].
      intros who q. destruct Hsp as [[-> _]|(_ & -> & _)]; set_solver.
  - destruct (under_call _ _ _ _ U _ _ Hi) as [Hk Hno]. rewrite Hk in *.
    destruct (function_step _ _ _ _ _ _ _ who _ _ _ U Hi eq_refl eq_refl E) as [HS HC]; [|done|by exists (answered q')].
    intros j who0 q Hj. by destruct (Hno j who0 q).
  - pose proof (under_function _ _ _ _ U _ _ _ Hi) as ->.
    destruct (function_step _ _ _ _ _ _ _ who _ _ _ U Hi eq_refl eq_refl E) as [HS HC]; [|done|by exists (answered q')].
    intros j who0 q Hj. by apply (one_caller _ _ _ _ _ _ _ (u_roles _ _ _ _ U) Hj Hi).
  - destruct E as (msp & -> & Hmsp & Hs & Hmv). exists k.
    assert (Hne : i ≠ 0%nat).
    { intros ->. destruct (r_main _ _ _ (u_roles _ _ _ _ U)) as [Hm0 Hr]. rewrite Hi in Hm0. injection Hm0 as <-. discriminate Hr. }
    assert (Hq : abs_pcs k ps !! i = Some q) by (unfold abs_pcs; rewrite list_lookup_insert_ne, list_lookup_fmap, Hi; done).
    assert (Hcq : Monitor.is_client q = false) by by eapply (Monitor.i_threads _ _ (u_slot _ _ _ _ U)).
    specialize (Hmv (λ t r, join_target _ _ _ _ U q t r (or_intror Hcq))).
    destruct (Monitor.slot_step true _ _ _ _ _ _ _ eq_refl Hmv Hq (u_slot _ _ _ _ U)) as (S' & _).
    destruct (Monitor.thread_move _ _ _ _ _ _ _ Hmv Hcq) as ((-> & Hc' & _) & _).
    split; [done| |].
    + rewrite abs_pcs_moved by apply (under_length _ _ _ _ U). simpl. rewrite app_nil_r.
      unfold abs_pcs in S'. rewrite app_nil_r, list_insert_insert_ne in S' by done. done.
    + apply (callers_same ps i (T q)); [done|done|done|set_solver|apply U].
Qed.


(** ** The flag [running] of the monitor, and who draws *)

(** Between a look at [running] and the next: the thread draws and reads keys. *)
Definition attending (q : Monitor.pc) : bool :=
  match q with
  | Monitor.MT_key | Monitor.MT_p_load | Monitor.MT_pause | Monitor.MT_r_load | Monitor.MT_resume | Monitor.MT_quit => true
  | _ => false
  end.

Definition sets (q : Monitor.pc) : bool := match q with Monitor.St_store | Monitor.Ra_store => true | _ => false end.
Definition clears (q : Monitor.pc) : bool :=
  match q with
  | Monitor.Sp_store | Monitor.Dt_store | Monitor.St_fail | Monitor.Ra_fail | Monitor.MT_quit => true
  | _ => false
  end.

(** The steps of Monitor.v, case by case. *)
Ltac monitor_cases H :=
  let q := match type of H with move _ _ ?q _ _ _ _ => q end in
  let Hg := fresh in let Hcd := fresh in let Hf := fresh in let z := fresh "z" in
  destruct H as [? Hg|? ? ? Hcd|? ? ? ? ? Hcd Hf|? ? ? ? ? Hcd Hf|? z ? ? Hcd Hf]; destruct q; try done; try discriminate Hcd;
  try (injection Hcd as <- <- <-; injection Hf as <- <-); try (injection Hcd as <- <-);
  try (injection Hcd as <-;
       first [injection Hf as <- <-
             |destruct z as [|[]|?|]; try discriminate Hf; simpl in Hf;
              try match type of Hf with context [if ?b then _ else _] => destruct b; [discriminate Hf|] end;
              injection Hf as <- <-]);
  repeat match goal with |- context [if ?b then _ else _] => destruct b eqn:? end.

Lemma monitor_running l q s s' q' msp :
  mmove l q s s' q' msp →
  Monitor.running (Monitor.m s') = Monitor.running (Monitor.m s) ∨
  (sets q = true ∧ Monitor.running (Monitor.m s') = true) ∨
  (clears q = true ∧ attending q' = false ∧ Monitor.running (Monitor.m s') = false).
Proof. intros H. monitor_cases H; by auto. Qed.

Lemma monitor_attending l q s s' q' msp :
  mmove l q s s' q' msp → attending q' = true → attending q = true ∨ Monitor.running (Monitor.m s') = true.
Proof. intros H. monitor_cases H; auto. Qed.

Lemma monitor_screen l q s s' q' msp :
  mmove l q s s' q' msp →
  Monitor.screen s' = Monitor.screen s - Monitor.on_screen q + Monitor.on_screen q'.
Proof.
  intros H. monitor_cases H; simpl; try lia. all: unfold Monitor.key_action; repeat case_decide; simpl; lia.
Qed.

Lemma monitor_caller l q s s' q' msp :
  mmove l q s s' q' msp → Monitor.is_client q = true → Monitor.is_client q' = true ∧ Monitor.on_screen q' = 0.
Proof. intros H. by monitor_cases H. Qed.

(** monitor_stop has returned. *)
Lemma monitor_stopped l q s s' a msp :
  mmove l q s s' (Monitor.K_idle a) msp → family q = Some Monitor.Stop → Monitor.client_ok s l q →
  Monitor.running (Monitor.m s') = false ∧ Monitor.tid_valid (Monitor.m s') = false.
Proof.
  intros H Hf [_ _ _ _ _ _ Hst _ _ _].
  inversion H as [? Hg|? ? ? Hcd|? ? ? ? ? Hcd Hn|? ? ? ? ? Hcd Hn|? z ? ? Hcd Hn]; subst; destruct q; try discriminate Hf; try done;
    try discriminate Hcd; injection Hcd as <-; try discriminate Hn.
  - injection Hn as <- Hn. by destruct (Monitor.running (Monitor.m s)).
  - injection Hn as <- Hn. split; [by apply Hst|]. by destruct (Monitor.tid_valid (Monitor.m s)).
  - injection Hn as <- <-. split; [by apply Hst|done].
Qed.

Lemma monitor_family l q s s' q' msp :
  mmove l q s s' q' msp → family q ≠ None → (∃ a, q' = Monitor.K_idle a) ∨ family q' = family q.
Proof. intros H. monitor_cases H; eauto. Qed.


(** How many threads have the screen. *)
Definition drawn (p : pc) : Z := match p with T q => Monitor.on_screen q | _ => 0 end.

(** main behind thread_pool_destroy. *)
Definition over (p : pc) : bool := match p with M_restore | M_done => true | _ => false end.

Record console_inv (s : console) (ps : list pc) (pm : pc) (k : Monitor.pc) : Prop := {
  f_under : under s ps pm k;
  f_family i who q : ps !! i = Some (In who q) → family q = Some (call_of who);
  f_detached i p : ps !! i = Some p → detached p = true → attached s = false;
  f_attend i q : ps !! i = Some (T q) → attending q = true → attached s = true ∨ joined pm = true;
  f_screen : Monitor.screen (mon s) = tally drawn ps;
  f_stopped : over pm = true → attached s = false ∧ Monitor.tid_valid (Monitor.m (mon s)) = false
}.

Section Step.
Context (s s' : console) (ps : list pc) (pm : pc) (k : Monitor.pc) (i : nat) (p p' : pc) (sp : list pc).
Context (F : console_inv s ps pm k) (Hi : ps !! i = Some p) (H : kind_of_move ps s s' k p p' sp).
Context (Hlock : ∀ j q, ps !! j = Some q → holds p log_mtx = true → holds q log_mtx = true → j = i).
Let U : under s ps pm k := f_under _ _ _ _ F.

Lemma drawer_client j q : ps !! j = Some (T q) → j ≠ 0%nat ∧ abs_pcs k ps !! j = Some q ∧ Monitor.is_client q = false.
Proof.
  intros Hj. assert (Hne : j ≠ 0%nat).
  { intros ->. destruct (r_main _ _ _ (u_roles _ _ _ _ U)) as [Hm Hr]. rewrite Hj in Hm. injection Hm as <-. discriminate Hr. }
  assert (Hq : abs_pcs k ps !! j = Some q) by (unfold abs_pcs; rewrite list_lookup_insert_ne, list_lookup_fmap, Hj; done).
  split_and!; try done. by eapply (Monitor.i_threads _ _ (u_slot _ _ _ _ U)).
Qed.

(** A thread that draws is the one of [tid]. *)
Lemma drawer_tid j q :
  ps !! j = Some (T q) → q ≠ Monitor.MT_exit →
  j = Monitor.tid (Monitor.m (mon s)) ∧ (Monitor.tid_valid (Monitor.m (mon s)) = true ∨ Monitor.fresh k = true).
Proof.
  intros Hj Hq. destruct (drawer_client j q Hj) as (Hne & Hat & _). destruct (under_client _ _ _ _ U) as [_ C].
  by apply (Monitor.c_live _ _ _ C j q).
Qed.

(** The step as one of Monitor.v. *)
Lemma as_monitor :
  (inside p = false ∧ own s p s' p' ∧ mon s' = mon s ∧ (sp = [] ∨ sp = [K_loop true])) ∨
  (∃ who q, p = Calls who ∧ p' = up who q ∧ family q = Some (call_of who) ∧
     mmove (abs_pcs k ps) (Monitor.K_idle Monitor.ANone) (mon s) (mon s') q [] ∧ sp = []) ∨
  (∃ who q' msp, p = In who k ∧ p' = up who q' ∧ mmove (abs_pcs k ps) k (mon s) (mon s') q' msp ∧
     sp = T <$> msp ∧ (msp = [] ∨ msp = [Monitor.MT_start])) ∨
  (∃ q q', p = T q ∧ p' = T q' ∧ mmove (abs_pcs k ps) q (mon s) (mon s') q' [] ∧ sp = [] ∧ q ≠ Monitor.MT_exit).
Proof.
  destruct H as [p1 p2 sp1 Hp Ho Hsp _|who q' sp1 Hf (msp & -> & Hmsp & _ & Hmv)|who q q' sp1 (msp & -> & Hmsp & _ & Hmv)
    |q q' sp1 (msp & -> & Hmsp & _ & Hmv)].
  - left. destruct (own_quiet _ _ _ _ Ho) as (Hm & _). split_and!; try done. destruct Hsp as [[? _]|(_ & ? & _)]; auto.
  - right. left. exists who, q'. split_and!; try done.
    + destruct Hmsp as [-> | ->]; [by apply Hmv|]. exfalso. assert (Hx := Hmv ltac:(discriminate)).
      inversion Hx as [|? ? ? Hcd|? ? ? ? ? Hcd|? ? ? ? ? Hcd|]; discriminate Hcd.
    + destruct Hmsp as [-> | ->]; [done|]. exfalso. assert (Hx := Hmv ltac:(discriminate)).
      inversion Hx as [|? ? ? Hcd|? ? ? ? ? Hcd|? ? ? ? ? Hcd|]; discriminate Hcd.
  - right. right. left. pose proof (under_function _ _ _ _ U _ _ _ Hi) as Hq. subst q. exists who, q', msp. split_and!; try done.
    apply Hmv. intros t r. apply (join_target _ _ _ _ U). by left.
  - right. right. right. destruct (drawer_client i q Hi) as (_ & _ & Hc).
    assert (Hx := Hmv (λ t r, join_target _ _ _ _ U q t r (or_intror Hc))).
    destruct (Monitor.thread_move _ _ _ _ _ _ _ Hx Hc) as ((-> & _ & Hne) & _). exists q, q'. done.
Qed.

Lemma running_change :
  attached s' = attached s ∨
  (attached s' = true ∧ ∃ who, p = In who k ∧ sets k = true) ∨
  (attached s' = false ∧ ((∃ who, p = In who k ∧ clears k = true) ∨ ∃ q q', p = T q ∧ p' = T q' ∧ q ≠ Monitor.MT_exit ∧ attending q' = false)).
Proof.
  unfold attached. destruct as_monitor as [(_ & _ & -> & _)|[(who & q & Hp & _ & _ & Hm & _)|[(who & q' & msp & Hp & _ & Hm & _)|(q & q' & Hp & Hp' & Hm & _ & Hx)]]].
  - by left.
  - left. destruct (monitor_running _ _ _ _ _ _ Hm) as [?|[[E _]|[E _]]]; done.
  - destruct (monitor_running _ _ _ _ _ _ Hm) as [?|[[E ?]|(E & _ & ?)]]; [by left| |].
    + right. left. split; [done|]. by exists who.
    + right. right. split; [done|]. left. by exists who.
  - destruct (monitor_running _ _ _ _ _ _ Hm) as [?|[[E ?]|(E & Ha & ?)]]; [by left| |].
    2:{ right. right. split; [done|]. right. by exists q, q'. }
    exfalso. rewrite Hp in Hi. destruct (drawer_client i q Hi) as (_ & _ & Hc). by destruct q.
Qed.

Lemma detached_role q : detached q = true → role_of q = Logger ∨ role_of q = Listener.
Proof. destruct q; try done; try (by left); try (by right). destruct who; try done. by right. Qed.

(** Whoever relies on the detached monitor sees it detached. *)
Lemma detached_step j q :
  (<[i := p']> ps ++ sp) !! j = Some q → detached q = true → attached s' = false.
Proof.
  intros Hj Hq.
  assert (Hsp : (length sp ≤ 1)%nat) by by eapply spawn_short.
  assert (Hold : ∀ j q, ps !! j = Some q → detached q = true → j ≠ i → attached s' = false).
  { clear j q Hj Hq. intros j q Hj Hq Hne. pose proof (f_detached _ _ _ _ F j q Hj Hq) as Hd.
    destruct running_change as [->|[(_ & who & Hp & Hset)|[? _]]]; [done| |done]. exfalso.
    rewrite Hp in Hi. pose proof (f_family _ _ _ _ F _ _ _ Hi) as Hfam. pose proof (u_roles _ _ _ _ U) as R.
    destruct who; try (by destruct k).
    - assert (Hpm : pm = In MainStart k).
      { destruct (r_main _ _ _ R) as [Hm _]. rewrite (r_only _ _ _ R i _ Hi eq_refl) in Hi. rewrite Hi in Hm. by injection Hm. }
      assert (Hc : created pm = true).
      { destruct (detached_role q Hq) as [Er|Er].
        - apply (r_serving _ _ _ R j q Hj Er). by intros ->.
        - apply (r_key _ _ _ R j q Hj Er). }
      by rewrite Hpm in Hc.
    - destruct (detached_role q Hq) as [Er|Er].
      + apply Hne. apply (Hlock j q Hj); [rewrite Hp; apply (under_client _ _ _ _ U)|]. by destruct q.
      + apply Hne. destruct (r_key _ _ _ R j q Hj Er) as [-> _]. by destruct (r_key _ _ _ R i _ Hi eq_refl) as [-> _]. }
  destruct (step_at _ _ _ _ _ _ Hj Hsp) as [[-> ->]|[[Hne Hj']|[_ E]]]; [|by eapply Hold|].
  - destruct as_monitor as [(Hp & Ho & Hm & _)|[(who & q & Hp & -> & _)|[(who & q' & msp & Hp & -> & _)|(q & q' & Hp & -> & _)]]].
    + unfold attached. rewrite Hm. change (attached s = false).
      assert (Hd : detached p = true ∨ attached s = false) by (destruct Ho; try done; auto).
      destruct Hd as [Hd|?]; [by eapply (f_detached _ _ _ _ F)|done].
    + by destruct q, who.
    + by destruct q', who.
    + done.
  - destruct (step_spawned _ _ _ _ _ _ _ H) as [E'|[E'|(E' & _)]]; rewrite E in E'; simplify_eq; discriminate Hq.
Qed.

(** A function that clears the flag runs for main behind the join, or nobody draws. *)
Lemma cleared who j q :
  p = In who k → clears k = true → ps !! j = Some (T q) → q ≠ Monitor.MT_exit → joined pm = true.
Proof.
  intros Hp Hcl Hj Hq. rewrite Hp in Hi. pose proof (f_family _ _ _ _ F _ _ _ Hi) as Hfam.
  pose proof (u_roles _ _ _ _ U) as R. destruct (under_client _ _ _ _ U) as [Hck C].
  destruct (drawer_tid j q Hj Hq) as [_ Hslot].
  assert (Hempty : Monitor.empty k = true → Monitor.fresh k = false → False).
  { intros He Hf. rewrite (Monitor.c_empty _ _ _ C He), Hf in Hslot. by destruct Hslot. }
  assert (Hm : role_of (In who k) = Main → pm = In who k).
  { intros Hr. destruct (r_main _ _ _ R) as [Hm _]. rewrite (r_only _ _ _ R i _ Hi Hr) in Hi. rewrite Hi in Hm. by injection Hm. }
  destruct who; try (rewrite (Hm eq_refl); done); destruct k; try done; by destruct Hempty.
Qed.

Lemma attend_step j q :
  (<[i := p']> ps ++ sp) !! j = Some (T q) → attending q = true →
  attached s' = true ∨ joined (next_main i p' pm) = true.
Proof.
  intros Hj Hq. assert (Hsp : (length sp ≤ 1)%nat) by by eapply spawn_short.
  assert (Hjn : joined pm = true → joined (next_main i p' pm) = true)
    by (intros Hjm; eapply still_joined; [apply U|exact Hi|exact H|done]).
  destruct (step_at _ _ _ _ _ _ Hj Hsp) as [[-> Hp']|[[Hne Hj']|[_ E]]].
  - destruct as_monitor as [(_ & Ho & _)|[(who & q0 & _ & E & _)|[(who & q0 & msp & _ & E & _)|(q0 & q1 & Hp & E & Hm & _ & Hx)]]].
    + destruct (own_quiet _ _ _ _ Ho) as (_ & _ & HT & _). by destruct (HT q).
    + rewrite <- Hp' in E. by destruct q0, who.
    + rewrite <- Hp' in E. by destruct q0, who.
    + rewrite <- Hp' in E. injection E as <-. destruct (monitor_attending _ _ _ _ _ _ Hm Hq) as [Hq0|?]; [|by left].
      pose proof Hi as Hi'. rewrite Hp in Hi'. destruct (f_attend _ _ _ _ F i q0 Hi' Hq0) as [Ha|?]; [|by auto].
      destruct running_change as [->|[[? _]|[_ [(who & Hp1 & _)|(q2 & q3 & _ & E & _ & Hn)]]]]; [by auto|by auto|congruence|].
      rewrite <- Hp' in E. injection E as <-. congruence.
  - assert (Hx : q ≠ Monitor.MT_exit) by by intros ->.
    destruct (f_attend _ _ _ _ F j q Hj' Hq) as [Ha|?]; [|by auto].
    destruct running_change as [->|[[? _]|[_ [(who & Hp & Hcl)|(q0 & q1 & Hp & _ & Hx0 & _)]]]]; [by auto|by auto| |].
    + right. apply Hjn. by apply (cleared who j q).
    + exfalso. apply Hne. pose proof Hi as Hi'. rewrite Hp in Hi'.
      by rewrite (proj1 (drawer_tid j q Hj' Hx)), (proj1 (drawer_tid i q0 Hi' Hx0)).
  - destruct (step_spawned _ _ _ _ _ _ _ H) as [E'|[E'|(E' & _)]]; rewrite E in E'; by simplify_eq.
Qed.

Lemma screen_step : Monitor.screen (mon s') = tally drawn (<[i := p']> ps ++ sp).
Proof.
  rewrite tally_app, (tally_insert drawn _ _ _ _ Hi), <- (f_screen _ _ _ _ F).
  destruct as_monitor as [(Hp & Ho & -> & Hsp)|[(who & q & -> & -> & _ & Hm & ->)|[(who & q' & msp & -> & -> & Hm & -> & Hsp)|(q & q' & -> & -> & Hm & -> & _)]]].
  - destruct (own_quiet _ _ _ _ Ho) as (_ & _ & HT & _).
    assert (drawn p = 0) as -> by by destruct p. assert (drawn p' = 0) as -> by (destruct p'; try done; by destruct (HT p0)).
    destruct Hsp as [-> | ->]; simpl; lia.
  - rewrite (monitor_screen _ _ _ _ _ _ Hm), (proj2 (monitor_caller _ _ _ _ _ _ Hm eq_refl)).
    assert (drawn (up who q) = 0) as -> by by destruct q, who. simpl. lia.
  - destruct (under_client _ _ _ _ U) as [Hck _]. rewrite (monitor_screen _ _ _ _ _ _ Hm), (proj2 (monitor_caller _ _ _ _ _ _ Hm Hck)).
    assert (drawn (up who q') = 0) as -> by by destruct q', who. assert (Monitor.on_screen k = 0) as -> by by destruct k.
    destruct Hsp as [-> | ->]; simpl; lia.
  - rewrite (monitor_screen _ _ _ _ _ _ Hm). simpl. lia.
Qed.

Lemma family_step j who q : (<[i := p']> ps ++ sp) !! j = Some (In who q) → family q = Some (call_of who).
Proof.
  intros Hj. assert (Hsp : (length sp ≤ 1)%nat) by by eapply spawn_short.
  destruct (step_at _ _ _ _ _ _ Hj Hsp) as [[-> Hp']|[[_ Hj']|[_ E]]]; [|by apply (f_family _ _ _ _ F j)|].
  - assert (Hup : ∀ who0 q0, In who q = up who0 q0 → who0 = who ∧ q0 = q)
      by (intros who0 q0 E; destruct q0; try (by injection E as -> ->); by destruct who0).
    destruct as_monitor as [(_ & Ho & _)|[(who0 & q0 & _ & E & Hf & _)|[(who0 & q0 & msp & Hp & E & Hm & _)|(q0 & q1 & _ & E & _)]]].
    + destruct (own_quiet _ _ _ _ Ho) as (_ & HI & _). by destruct (HI who q).
    + rewrite <- Hp' in E. by destruct (Hup _ _ E) as [<- <-].
    + rewrite <- Hp' in E. destruct (Hup _ _ E) as [<- <-]. pose proof Hi as Hi'. rewrite Hp in Hi'.
      pose proof (f_family _ _ _ _ F _ _ _ Hi') as Hf.
      destruct (monitor_family _ _ _ _ _ _ Hm) as [[a ->]| ->]; [by rewrite Hf| |done]. by destruct who0.
    + congruence.
  - destruct (step_spawned _ _ _ _ _ _ _ H) as [E'|[E'|(E' & _)]]; rewrite E in E'; simplify_eq.
Qed.
Lemma stopped_step :
  over (next_main i p' pm) = true → attached s' = false ∧ Monitor.tid_valid (Monitor.m (mon s')) = false.
Proof.
  pose proof (u_roles _ _ _ _ U) as R. destruct (under_client _ _ _ _ U) as [Hck C]. unfold next_main. case_decide as E.
  - assert (Hpm : p = pm) by by eapply main_moves.
    destruct as_monitor as [(_ & Ho & Hm & _)|[(who & q & Hp & E' & Hf & _)|[(who & q' & msp & Hp & E' & Hm & _)|(q & q' & _ & E' & _)]]].
    + intros Hov. unfold attached. rewrite Hm. apply (f_stopped _ _ _ _ F). rewrite <- Hpm. by destruct Ho.
    + rewrite E'. destruct q; try discriminate Hf; by destruct who.
    + rewrite E'. intros Hov. destruct q'; try discriminate Hov. destruct who; try discriminate Hov.
      pose proof Hi as Hi'. rewrite Hp in Hi'.
      by apply (monitor_stopped _ _ _ _ _ _ Hm (f_family _ _ _ _ F _ _ _ Hi')).
    + by rewrite E'.
  - intros Hov. destruct (f_stopped _ _ _ _ F Hov) as [Ha Hv].
    assert (Hjm : joined pm = true) by by destruct pm.
    assert (Hno : calling p = true → False).
    { intros Hp. assert (Hr : role_of p = Main ∨ role_of p = Listener) by (clear -Hp; destruct p; try done; destruct who; by auto).
      destruct Hr as [Hr|Hr]; [by apply E, (r_only _ _ _ R i p)|]. pose proof (r_left _ _ _ R i p Hi Hr Hjm) as Hx. by rewrite Hx in Hp. }
    destruct as_monitor as [(_ & _ & Hm & _)|[(who & q & Hp & _)|[(who & q' & msp & Hp & _)|(q & q' & Hp & _ & Hm & _)]]].
    + unfold attached. by rewrite Hm.
    + destruct Hno. by rewrite Hp.
    + destruct Hno. by rewrite Hp.
    + pose proof Hi as Hi'. rewrite Hp in Hi'. destruct (drawer_client i q Hi') as (_ & _ & Hc).
      destruct (Monitor.thread_move _ _ _ _ _ _ _ Hm Hc) as (_ & (_ & -> & _) & Hrun & _). split; [|done].
      unfold attached in *. destruct (Monitor.running (Monitor.m (mon s'))); [|done]. rewrite Ha in Hrun. by symmetry; apply Hrun.
Qed.

Lemma console_step pm' k' :
  pm' = next_main i p' pm → under s' (<[i := p']> ps ++ sp) pm' k' → console_inv s' (<[i := p']> ps ++ sp) pm' k'.
Proof.
  intros -> U'. split; [done|apply family_step|apply detached_step|apply attend_step|apply screen_step|apply stopped_step].
Qed.
End Step.


(** ** Reachable states *)

Lemma up_holds who q m : Monitor.is_client q = true → holds (up who q) m = holds (Calls who) m.
Proof. by destruct q, who. Qed.

(** The steps of a table entry do not leave the callers, nor the drawers. *)
Definition keeps_side (q : Monitor.pc) : Prop :=
  match Monitor.code true q with
  | AStep f => ∀ z s s' q', f z s = Next s' q' → Monitor.is_client q' = Monitor.is_client q
  | AJoin _ q' => Monitor.is_client q' = Monitor.is_client q
  | ASpawn e cr fl => e = Monitor.MT_start ∧
      (∀ n s s' q', cr n s = (s', q') → Monitor.is_client q' = Monitor.is_client q) ∧
      (∀ s s' q', fl s = (s', q') → Monitor.is_client q' = Monitor.is_client q)
  | AExit => Monitor.is_client q = false
  | _ => True
  end.

Lemma sides_kept q : keeps_side q.
Proof.
  destruct q; unfold keeps_side; simpl; try done;
    try (intros z s s' q' [= <- <-]; by repeat case_match);
    try (split_and!; [done|by intros n s s' q' [= <- <-]|by intros s s' q' [= <- <-]]).
  - intros z s s' q'. destruct z as [|[]| |]; try done; [|by intros [= <- <-]..]. destruct (Monitor.g_started s); [done|by intros [= <- <-]].
  - intros z s s' q'. destruct z; try done; intros [= <- <-]; [|done]. unfold Monitor.key_action. by repeat case_decide.
Qed.

Lemma embed_disciplined p q go :
  code p = embed (Monitor.code true q) go →
  (∀ q' m, Monitor.is_client q' = Monitor.is_client q → holds (go q') m = holds p m) →
  (Monitor.is_client q = false → ∀ m, holds p m = false) → disciplined_at code holds p.
Proof.
  intros Hc Hg Hx. unfold disciplined_at. rewrite Hc. pose proof (sides_kept q) as Hk. unfold keeps_side in Hk.
  destruct (Monitor.code true q) as [m q1|m q1|c0 m q1|c0 q1|c0 q1|t0 q1|e0 cr0 fl0|f0|]; try destruct m; try destruct c0; simpl.
  - intros m. by apply Hg.
  - destruct Hk as (-> & Hcr & Hfl). split_and!; [by intros []| |].
    + intros n s s' p'. destruct (cr0 n (mon s)) eqn:E. intros [= <- <-] m. by eapply Hg, Hcr.
    + intros s s' p'. destruct (fl0 (mon s)) eqn:E. intros [= <- <-] m. by eapply Hg, Hfl.
  - intros z s s' p'. destruct (f0 _ _) eqn:E; try done. intros [= <- <-] m. by eapply Hg, Hk.
  - by apply Hx.
Qed.

Lemma console_disciplined : disciplined code holds.
Proof.
  intros p. destruct p; try (by split_and!); try (by intros []);
    try (intros z s s' p' Hx m; destruct m; simpl in Hx; by repeat case_match; simplify_eq).
  - split_and!; [by intros []|by intros n s s' p' [= <- <-] []|by intros s s' p' [= <- <-] []].
  - split; [done|by intros []].
  - split; [done|by intros []].
  - split; [done|by intros []].
  - split; [done|by intros []].
  - intros z s s' p' Hx m. destruct m. simpl in Hx. unfold key_action in Hx. by repeat case_match; simplify_eq.
  - split; [done|by intros []].
  - split; [done|by intros []].
  - eapply embed_disciplined; [reflexivity| |].
    + intros q' m Hq. destruct m. destruct who; destruct q', p; try discriminate Hq; done.
    + intros Hq m. by destruct who.
  - by eapply embed_disciplined.
Qed.

Lemma console_initial t w : initial holds (init_config t w).
Proof.
  split; [done|]. intros i st Hi. apply list_elem_of_lookup_2 in Hi. simpl in Hi.
  apply elem_of_cons in Hi as [->|Hi]; [by exists M_tty|]. apply elem_of_app in Hi as [Hi|Hi].
  - apply elem_of_replicate in Hi as [-> _]. by exists L_idle.
  - apply list_elem_of_singleton in Hi as ->. by exists Sig.
Qed.

Lemma init_threads t w : pcs (init_config t w) = M_tty :: replicate w L_idle ++ [Sig].
Proof. unfold pcs, init_config. simpl. by rewrite fmap_app, fmap_replicate. Qed.

Lemma init_thread t w i p : pcs (init_config t w) !! i = Some p → (i = 0%nat ∧ p = M_tty) ∨ (i ≠ 0%nat ∧ (p = L_idle ∨ p = Sig)).
Proof.
  rewrite init_threads. destruct i as [|i]; simpl; [intros [= <-]; by left|]. intros Hi. right. split; [done|].
  apply list_elem_of_lookup_2, elem_of_app in Hi as [Hi|Hi].
  - apply elem_of_replicate in Hi as [-> _]. by left.
  - apply list_elem_of_singleton in Hi as ->. by right.
Qed.

Lemma init_console_inv t w : console_inv (init_console t) (pcs (init_config t w)) M_tty (Monitor.K_idle Monitor.ANone).
Proof.
  assert (Habs : abs_pcs (Monitor.K_idle Monitor.ANone) (pcs (init_config t w)) = Monitor.K_idle Monitor.ANone :: replicate (S w) Monitor.MT_exit).
  { rewrite init_threads. unfold abs_pcs. cbn [fmap list_fmap abs]. rewrite fmap_app, fmap_replicate. simpl. by rewrite <- replicate_cons_app. }
  split; [split|..].
  - split; simpl; try done.
    + intros i p Hi Hr. by destruct (init_thread _ _ _ _ Hi) as [[-> _]|[_ [-> | ->]]].
    + intros i p Hi Hr. by destruct (init_thread _ _ _ _ Hi) as [[_ ->]|[_ [-> | ->]]].
    + intros i p Hi Hr. by destruct (init_thread _ _ _ _ Hi) as [[_ ->]|[_ [-> | ->]]].
  - rewrite Habs. assert (Hx : ∀ i p, (Monitor.K_idle Monitor.ANone :: replicate (S w) Monitor.MT_exit) !! i = Some p → i ≠ O → p = Monitor.MT_exit).
    { intros [|i] p Hi Hne; [done|]. simpl in Hi. change (Monitor.MT_exit :: replicate w Monitor.MT_exit) with (replicate (S w) Monitor.MT_exit) in Hi.
      by apply lookup_replicate in Hi as [-> _]. }
    split.
    + exists (Monitor.K_idle Monitor.ANone). split_and!; [done|done|]. split; simpl; try done; try (intros; intuition congruence).
      intros i p Hi Hne Hp. by destruct (Hp (Hx i p Hi Hne)).
    + intros i p Hi Hne. by rewrite (Hx i p Hi Hne).
  - right. split; [|done]. intros i who q Hi. by destruct (init_thread _ _ _ _ Hi) as [[_ ?]|[_ [?|?]]].
  - intros i who q Hi. by destruct (init_thread _ _ _ _ Hi) as [[_ ?]|[_ [?|?]]].
  - intros i p Hi Hd. by destruct (init_thread _ _ _ _ Hi) as [[_ ->]|[_ [-> | ->]]].
  - intros i q Hi. by destruct (init_thread _ _ _ _ Hi) as [[_ ?]|[_ [?|?]]].
  - rewrite init_threads. change (0 = drawn M_tty + tally drawn (replicate w L_idle ++ [Sig])). rewrite tally_app, (tally_const drawn 0) by by apply Forall_replicate. simpl. lia.
  - done.
Qed.

(** ** The mode of the terminal *)

(** The mode [t] is kept, or saved until main has restored it. *)
Record mode_ok (t : termios) (s : console) (pm : pc) : Prop := {
  m_saved : termios_saved s = true → orig_termios s = t;
  m_mode : termios_saved s = false ∨ pm = M_done → tty s = t;
  m_first : pm = M_tty → termios_saved s = false
}.

Definition same_mode (s s' : console) : Prop :=
  tty s' = tty s ∧ orig_termios s' = orig_termios s ∧ termios_saved s' = termios_saved s.

Inductive mode_move (s s' : console) (p p' : pc) : Prop :=
| mode_same : same_mode s s' → p' ≠ M_tty → p' ≠ M_done → mode_move s s' p p'
| mode_cbreak a g : p = M_tty → p' = Calls MainStart → s' = enable_cbreak a g s → mode_move s s' p p'
| mode_restore : p = M_restore → p' = M_done → s' = restore_termios s → mode_move s s' p p'.

Lemma mode_moves ps s s' k p p' sp : kind_of_move ps s s' k p p' sp → mode_move s s' p p'.
Proof.
  intros [p1 p2 sp1 _ Ho _ _|who q' sp1 _ E|who q q' sp1 E|q q' sp1 E].
  - destruct Ho; first [by eapply mode_cbreak|by apply mode_restore|by apply mode_same].
  - destruct E as (msp & _ & _ & -> & _). by destruct who, q'; apply mode_same.
  - destruct E as (msp & _ & _ & -> & _). by destruct who, q'; apply mode_same.
  - destruct E as (msp & _ & _ & -> & _). by apply mode_same.
Qed.

Lemma mode_step t ps s s' k i p p' pm sp :
  roles s ps pm → ps !! i = Some p → kind_of_move ps s s' k p p' sp →
  mode_ok t s pm → mode_ok t s' (next_main i p' pm).
Proof.
  intros R Hi Hm [Hs Hmode Hf]. assert (Hmain : role_of p = Main → i = 0%nat ∧ pm = p).
  { intros Hr. pose proof (r_only _ _ _ R i p Hi Hr) as ->. destruct (r_main _ _ _ R) as [Hp _]. rewrite Hi in Hp. by injection Hp. }
  destruct (mode_moves _ _ _ _ _ _ _ Hm) as [(E1 & E2 & E3) H1 H2|a g -> -> -> | -> -> -> ].
  - unfold next_main. split; rewrite ?E1, ?E2, ?E3; try done; case_decide; try done; intros [?|?]; auto; done.
  - destruct (Hmain eq_refl) as [-> ->]. unfold next_main. rewrite decide_True by done. specialize (Hf eq_refl).
    pose proof (Hmode (or_introl Hf)) as Ht. unfold enable_cbreak. destruct a, g; split; simpl; try done; try (by rewrite Hf); by intros [?|?].
  - destruct (Hmain eq_refl) as [-> ->]. unfold next_main. rewrite decide_True by done. unfold restore_termios.
    destruct (termios_saved s) eqn:E; split; simpl; rewrite ?E; auto; done.
Qed.

Lemma init_mode_ok t : mode_ok t (init_console t) M_tty.
Proof. by split. Qed.

Lemma console_reachable t w c :
  rtc (step code) (init_config t w) c → ∃ pm k, console_inv (sh c) (pcs c) pm k ∧ mode_ok t (sh c) pm.
Proof.
  intros Hr. eapply (reach_ind code holds (λ s ps, ∃ pm k, console_inv s ps pm k ∧ mode_ok t s pm));
    [apply console_disciplined|apply console_initial|
     by eexists _, _; split; [apply init_console_inv|apply init_mode_ok]| |exact Hr].
  intros c0 i p p' s' sp _ Ho Hsl (pm & k & F & M) Hth Hi Hm. pose proof (console_move _ _ _ _ _ _ k Hm) as Hk.
  destruct (under_step _ _ _ _ _ _ _ _ _ (f_under _ _ _ _ F) Hi Hm) as [k' U']. exists (next_main i p' pm), k'.
  split; [|eapply mode_step; [apply (f_under _ _ _ _ F)|exact Hi|exact Hk|exact M]].
  eapply console_step; [exact F|exact Hi|exact Hk| |done|done].
  intros j q Hj Hp Hq. symmetry. apply (owned_exclusive holds c0 log_mtx); [done| |].
  - unfold hold_at. by rewrite Hth.
  - eapply (pcs_hold code holds); [done|done| |done]. intros (r & [] & _).
Qed.

End HttpConsoleInv.
