(* ===== verification/HttpConsoleTheorems.v ===== *)
(** * HttpConsoleTheorems: who has the terminal of the demo server

    Keys and lines only while the monitor is detached, the terminal restored when no
    thread uses it any more; and the schedules in which log_request prints over the
    dashboard after all. *)
From S2P Require Export HttpConsoleInv.
From Stdlib Require Import Ascii.
Local Open Scope Z_scope.

Module HttpConsoleTheorems.
Import HttpConsole HttpConsoleMoves HttpConsoleInv.

(** C8: While the server serves, a worker that prints its request line, and the key
    listener when it prints the hint or the notice of a reattach or waits for and reads
    a key, have found the monitor detached, and it stays so meanwhile: no monitor thread
    is between a look at [running] that found it set and its next look, so none draws a
    new frame, reads a key or pauses the pool. The frame drawn last may still be on the
    screen, until endwin; and the diagnostics of main and of task_create do not look at
    all ([console_prints_over_dashboard]). *)
Theorem console_exclusive t w c pm i p :
  rtc (step code) (init_config t w) c → pcs c !! 0%nat = Some pm → joined pm = false →
  pcs c !! i = Some p → detached p = true →
  attached (sh c) = false ∧ ∀ j q, pcs c !! j = Some (T q) → attending q = false.
Proof.
  intros Hr Hm Hj Hi Hp. destruct (console_reachable t w c Hr) as (pm' & k & F & M).
  destruct (r_main _ _ _ (u_roles _ _ _ _ (f_under _ _ _ _ F))) as [Hm' _]. rewrite Hm in Hm'. injection Hm' as <-.
  pose proof (f_detached _ _ _ _ F i p Hi Hp) as Ha. split; [done|]. intros j q Hq.
  destruct (attending q) eqn:E; [|done]. destruct (f_attend _ _ _ _ F j q Hq E); congruence.
Qed.

(** C9: When main puts the terminal mode back, the screen has been given up: every monitor
    thread and the key listener have returned, and the monitor is detached.  Once main has
    finished, the terminal has the mode it had before. *)
Theorem console_restored t w c pm :
  rtc (step code) (init_config t w) c → pcs c !! 0%nat = Some pm → over pm = true →
  Monitor.screen (mon (sh c)) = 0 ∧ attached (sh c) = false ∧ (pm = M_done → tty (sh c) = t) ∧
  ∀ i p, pcs c !! i = Some p → (role_of p = Drawer → p = T Monitor.MT_exit) ∧ (role_of p = Listener → p = K_exit).
Proof.
  intros Hr Hm Hov. destruct (console_reachable t w c Hr) as (pm' & k & F & M).
  pose proof (f_under _ _ _ _ F) as U. pose proof (u_roles _ _ _ _ U) as R.
  destruct (r_main _ _ _ R) as [Hm' _]. rewrite Hm in Hm'. injection Hm' as <-.
  destruct (f_stopped _ _ _ _ F Hov) as [Ha Hv]. assert (Hjm : joined pm = true) by by destruct pm.
  assert (Hk : k = Monitor.K_idle Monitor.ANone).
  { destruct (u_call _ _ _ _ U) as [(j & who & Hj)|[_ ?]]; [exfalso|done].
    destruct (role_of (In who k)) eqn:Er; try (by destruct who).
    - rewrite (r_only _ _ _ R j _ Hj Er), Hm in Hj. injection Hj as ->. by destruct who.
    - by pose proof (r_left _ _ _ R j _ Hj Er Hjm). }
  assert (Hq : ∀ i q, pcs c !! i = Some (T q) → q = Monitor.MT_exit).
  { intros i q Hi. destruct (drawer_client _ _ _ _ F i q Hi) as (_ & _ & Hc).
    destruct (Monitor.alive q) eqn:E; [|by destruct q].
    destruct (drawer_tid _ _ _ _ F i q Hi) as [_ [?|Hf]]; [by intros ->|congruence|]. by rewrite Hk in Hf. }
  split_and!; [|done|intros Hd; apply (m_mode _ _ _ M); by right|].
  - rewrite (f_screen _ _ _ _ F), (tally_const drawn 0); [lia|]. apply Forall_lookup. intros i p Hi.
    destruct p; try done. by rewrite (Hq i p Hi).
  - intros i p Hi. split; [|intros Hl; by apply (r_left _ _ _ R i p)]. intros Hd. destruct p; try discriminate Hd; [by destruct who..|].
    by rewrite (Hq i p Hi).
Qed.


(** ** Schedules *)

Definition plain_terminal : termios := mk_termios true true 1 0 0.

(** The dashboard comes up, the key listener starts, a connection is accepted and the
    monitor thread draws its first frame. *)
Definition serving_schedule : list (cmd choice) :=
  [Ex (With 0 (Terminal true true true)); Do 0 8; Ex (With 0 Connection); Do 3 4].

(** [q] in the dashboard; a worker logs before the monitor thread comes to endwin. *)
Definition quit_schedule : list (cmd choice) := serving_schedule ++ [Ex (With 3 (Key "q")); Do 3 1; Do 1 3].

(** An interrupt; main detaches the monitor while a frame is drawn. *)
Definition detach_schedule : list (cmd choice) := serving_schedule ++ [Do 2 1; Do 0 2; Do 4 1; Do 0 5; Do 1 3].

(** The broadcaster cannot be created while the first frame is drawn. *)
Definition perror_schedule : list (cmd choice) :=
  [Ex (With 0 (Terminal true true true)); Do 0 7; Do 3 4; Ex (With 0 Failure)].

Definition at_pc (c : cconfig) (i : nat) (b : pc → bool) : bool :=
  match threads c !! i with Some (Running p) => b p | _ => false end.
Definition prints (p : pc) : bool := match p with L_print | K_hint | K_m_print => true | _ => false end.
Definition draws (p : pc) : bool := match p with T q => attending q | _ => false end.
Definition complains (p : pc) : bool := match p with M_admin_err | M_bcast_err => true | _ => false end.
Definition serves (p : pc) : bool := match p with M_accept => true | _ => false end.

Abbreviation drives ls P := (drives_to code Tau (init_config plain_terminal 1) ls P).

(** The dashboard is printed over after all: by log_request while the server serves,
    between the [q] that clears the flag and endwin; by log_request while a frame is
    drawn, when main detaches the monitor after an interrupt; and by main's perror, which
    does not look at the monitor, while it is attached. *)
Theorem console_prints_over_dashboard :
  (∃ c, rtc (step code) (init_config plain_terminal 1) c ∧
     at_pc c 0 serves && at_pc c 1 prints && (Monitor.screen (mon (sh c)) =? 1) = true) ∧
  (∃ c, rtc (step code) (init_config plain_terminal 1) c ∧ at_pc c 1 prints && at_pc c 3 draws = true) ∧
  (∃ c, rtc (step code) (init_config plain_terminal 1) c ∧
     at_pc c 0 complains && attached (sh c) && at_pc c 3 draws = true).
Proof.
  split_and!; [apply (drives_to_reach code Tau _ quit_schedule)|apply (drives_to_reach code Tau _ detach_schedule)
    |apply (drives_to_reach code Tau _ perror_schedule)]; vm_compute; reflexivity.
Qed.

(** The state after a schedule. *)
Definition replay (ls : list (cmd choice)) : cconfig :=
  default (init_config plain_terminal 1) (drive code Tau ls (init_config plain_terminal 1)).

Lemma replay_reach ls : drives ls (λ _, true) = true → rtc (step code) (init_config plain_terminal 1) (replay ls).
Proof.
  unfold drives_to, replay. destruct (drive _ _ _ _) as [c|] eqn:E; [|done]. intros _. by eapply drive_sound.
Qed.

(** The hint after [q] and endwin. *)
Definition hinting : cconfig := replay (quit_schedule ++ [Do 1 2; Do 3 2; Do 4 3]).

Lemma console_exclusive_witness :
  pcs hinting !! 4%nat = Some K_hint ∧ attached (sh hinting) = false ∧
  ∀ j q, pcs hinting !! j = Some (T q) → attending q = false.
Proof.
  split; [vm_compute; reflexivity|].
  apply (console_exclusive plain_terminal 1 hinting M_accept 4 K_hint);
    [apply replay_reach; vm_compute; reflexivity|vm_compute; reflexivity..].
Defined.

(** The whole session, up to the restored terminal. *)
Definition restored : cconfig := replay (detach_schedule ++ [Do 1 2; Ex (With 3 NoKey); Do 3 2; Do 0 6]).

Lemma console_restored_witness :
  pcs restored !! 0%nat = Some M_done ∧ termios_saved (sh restored) = true ∧
  (Monitor.screen (mon (sh restored)) = 0 ∧ attached (sh restored) = false ∧ (M_done = M_done → tty (sh restored) = plain_terminal) ∧
   ∀ i p, pcs restored !! i = Some p → (role_of p = Drawer → p = T Monitor.MT_exit) ∧ (role_of p = Listener → p = K_exit)).
Proof.
  split; [vm_compute; reflexivity|]. split; [vm_compute; reflexivity|].
  apply (console_restored plain_terminal 1 restored M_done);
    [apply replay_reach; vm_compute; reflexivity|vm_compute; reflexivity..].
Defined.

End HttpConsoleTheorems.
